(* ===== verification/_CoqProject ===== *)
-Q . S2P
Prelude.v
Errors.v
Types.v
ByteTypes.v
Alloc.v
AllocTest.v
KVec.v
KVecIter.v
LinkedList.v
RBTree.v
RBTreeThms.v
Bitmap.v
IdPool.v
Str.v
KBox.v
Arc.v
ArcField.v
UAccess.v
BlockMq.v
Macros.v
MacrosThms.v
Quote.v
PinMacros.v
MacroModule.v
ModuleText.v
KUnit.v
Sync.v
LockData.v
Workqueue.v
PinInit.v
InitTree.v
MiscDevice.v
Uapi.v
KernelRefs.v
Vma.v
TagSet.v
BlkQueue.v
Phy.v
Print.v
CStrings.v
Tasks.v
Poll.v
KTest.v
UnitTests.v
StdVendor.v
Trace.v
