(* ===== verification/Prelude.v ===== *)
(** * RaanaSDK: a verification of its Rust runtime

    RaanaSDK is a Rust runtime for loadable kernel modules: a port of the kernel crate of
    Linux (containers, memory, synchronisation, user access, block devices, work queues,
    misc devices) on top of C shims, and the procedural macros that go with it. This library
    models that code as executable functions and proves what makes each part correct.

    ** Method

    Code is embedded shallowly. A function that may fail, panic or be undefined runs in the
    monad [M] of this file: it takes a state and ends as [Done], [Panic] or [UB]. [wp m Q s]
    says that [m] ends normally in [Q], so a [wp] excludes panics and undefined behaviour and
    includes termination. [result] is Rust's [Result], with [←?] for the question mark.
    Integers are [Z] with their width written out ([wrap], [sext], [checked_add], [uadd], ...).
    Memory is a map from addresses to blocks (Alloc) whose cells may be uninitialised; an access
    outside of a live, initialised cell is [UB], and so is a free of the wrong block. Drops are
    recorded, so that "dropped exactly once" is a statement about a list.

    C code that is not part of the repository is a parameter: a class of operations with a
    class of laws that state its documented behaviour ([Allocator], [Refcount], [BitOps],
    [RbLib], [UserSpace], [RawLock], [Workqueues], the block layer, ...). Each such class has an
    instance at the end of its file, with which the witnesses run.

    Most theorems about a component are about programs: lists of operations by a client, or
    interleavings of the atomic steps of several, run from an arbitrary or an empty state. A
    refinement theorem relates the run to an abstract machine without memory.

    ** Files

    - Prelude (this file): outcomes, the monad and its rules, integers, shared lemmas.
    - Errors ([error.rs], the errno table of [bindings.rs]): errors and the C boundary.
    - Types ([types.rs], [init.rs]): [ScopeGuard], [ForeignOwnable] as a class with its law,
      [Opaque]; what Box, Arc and the initialisers share.
    - ByteTypes ([types.rs], [init.rs]): the types that may be zeroed, made from bytes and read as
      bytes, against the valid byte patterns of each.
    - Alloc ([alloc.rs], [alloc/layout.rs], [alloc/allocator.rs]): layouts, flags, the
      [Allocator] trait as a class with its contract, and the three kernel allocators over a
      [krealloc]-like function; they satisfy the contract.
    - AllocTest ([alloc/allocator_test.rs]): the allocator of host tests over [realloc] and
      [free] of the C library; it satisfies the same contract.
    - KVec and KVecIter ([alloc/kvec.rs], [alloc/kvec/errors.rs]): [Vec], [IntoIter], [DrainAll].
    - KBox ([alloc/kbox.rs], [init.rs]): [Box] and in-place initialisers, with arrays.
    - LinkedList ([list.rs], [list/impl_list_item_mod.rs]): the intrusive list and its cursor.
    - RBTree and RBTreeThms ([rbtree.rs]): searches, entries, cursors and iteration over the C
      red-black tree.
    - Bitmap ([bitmap.rs]) and IdPool ([id_pool.rs]): bit sets, and the pool of ids on them with
      stale resizers.
    - Str ([str.rs]): byte and C strings, escaping, and the formatters into raw buffers.
    - Arc ([sync/arc.rs], [list/arc.rs]): [Arc], [UniqueArc] and [ListArc] as interleavings of
      atomic steps.
    - UAccess ([uaccess.rs], [page.rs], [page_size_compat.rs]): user slices over an adversarial
      user space, pages, alignment.
    - BlockMq ([block/mq/*.rs], [types.rs]): the life of requests, raw writer, disks.
    - Macros, MacrosThms, Quote, MacroModule and ModuleText ([rust/macros/*.rs]): the procedural
      macros on token streams, the quotation with which they build their output, and the text that
      [module!] has parsed.
    - PinMacros ([init/macros.rs]): the rules of [__pin_data!], [__pinned_drop!] and
      [__derive_zeroable!] on tokens, composed with the procedural macros that call them.
    - KUnit ([rust/macros/kunit.rs], [kunit.rs], [src/shim_kunit.c]): generated test suites, their
      registration and dispatch; KTest runs the suites: assertions, the dispatcher of the shim and
      the status of each test.
    - Sync ([sync/lock.rs], its backends, [sync/lock/global.rs], [sync/locked_by.rs],
      [sync/condvar.rs]): locks and condition variables as a system of threads.
    - LockData ([sync/lock.rs], [sync/lock/global.rs], [sync/locked_by.rs]): the references that
      guards, [LockedBy] and [GlobalLockedBy] give to data behind locks.
    - Workqueue ([workqueue.rs]): work items in an [Arc] or a box, composed with Arc and KBox.
    - PinInit ([init/macros.rs], [init/__internal.rs]): [#[pin_data]] and the initialiser macros,
      as generated statements that are executed; [StackInit].
    - InitTree ([init.rs], [init/macros.rs], [alloc/kbox.rs]): initialisers nested in each other.
    - MiscDevice ([miscdevice.rs], [src/shim_fs_misc.c]): registrations and open files, over KBox.
    - Uapi ([ioctl.rs], [uapi.rs], [time.rs], flags of [fs/file.rs]): numbers.
    - KernelRefs ([fs/file.rs], [cred.rs], [task.rs], [pid_namespace.rs], [mm.rs], [types.rs]):
      [ARef]s to kernel objects, descriptor reservations, locks of address spaces; devices,
      firmware and security contexts ([device.rs], [firmware.rs], [security.rs]).
    - Vma ([mm/virt.rs], [io.rs], ...): flags and pages of memory areas, bounds of I/O regions.
    - TagSet ([block/mq/tag_set.rs], [gen_disk.rs]): the lives of tag sets and of disks.
    - BlkQueue ([block/mq/operations.rs], [request.rs]): the callbacks of a queue, from the
      initialisation of its requests to their end and the exit of the hardware context.
    - Phy ([net/phy.rs]): device ids, callbacks into drivers, registration of driver tables.
    - Print ([print.rs]): formats, [pr_*!] and [pr_cont!], the callback of [%pA].
    - CStrings ([str.rs]): views and indices of C strings, UTF-8.
    - Tasks ([task.rs], [cred.rs], [fs/file.rs], [security.rs]): what the methods of tasks,
      credentials and files hand to C and return.
    - Poll ([sync/poll.rs]): condition variables registered with poll tables and epoll, under RCU.
    - Trace ([tracepoint.rs], [jump_label.rs], [seq_file.rs]): static keys and the tracepoints
      behind them, prints to sequence files.
    - ArcField ([list/arc_field.rs]): fields owned by a [ListArc], over the programs of Arc with
      references that are live.
    - StdVendor ([std_vendor.rs], [sync/arc/std_vendor.rs]): [dbg!] and [Arc::downcast].
    - UnitTests: the tests in [bitmap.rs], [str.rs] and [alloc/kvec.rs], run on the models.

    Each file opens with what it models; the names of definitions are those of the source
    where Rocq allows it, with the type in front where several types have the method.

    ** What is shown

    - Memory safety and functional correctness of the containers and smart pointers, as
      refinements over all programs: Vec, Box, List, RBTree, Bitmap, Arc; nothing leaks and
      every value is dropped exactly once.
    - Concurrency: reference counts under every interleaving, exclusivity of [UniqueArc] and
      [ListArc], ids of the pool with stale resizers, ends of block requests; mutual exclusion
      and no lost notification under every schedule, and progress under every fair one; each
      queued work item runs exactly once.
    - Bounds: user memory is fetched once and inside of its slice, accesses to pages and raw
      buffers stay inside, suites stay inside of their pools.
    - Errors: errors survive the C boundary; initialiser macros are all or nothing, at any
      depth of nesting; constructors that fail give everything back.
    - Data behind locks: guards and the containers that take guards as evidence never give out
      references that conflict, also when memory is used again.
    - Resources of the kernel: references, descriptors and lock guards are only used while they
      are held, and the kernel's counts balance after every program.
    - Macros: [#[pin_data]], [#[derive(Zeroable)]], [paste!], [module!] and the initialiser macros
      accept and generate what is documented, for all inputs of their grammar; for [#[pin_data]],
      [#[pinned_drop]] and [#[derive(Zeroable)]] from the attribute to the items.
    - Round trips: error codes, C strings and their escapes, iterators, ioctl numbers.

    Where the code falls short of its documentation there is a lemma with a concrete run:
    among others defaults and arrows in generics that [parse_generics] splits wrongly, KUnit
    pools that overflow, [derive(Zeroable)] that refuses [pub] fields, misc devices that are
    published before they are initialised, and whose file operations are freed while files are
    open.

    ** Bounds and fuel

    Loops recurse on the data (lists of cells, entries, tokens) where they can. The others take
    fuel: [retain] and the iteration and drop of a list one step per element and one more, the
    searches of the red-black tree one step per level, which the number of entries bounds, and
    the parser of [module!] and the rules of [__pin_data!] one step per token; each is proved to
    return with that much. The scheduler of Sync runs for any number of steps; progress is stated as the existence of a step after which it holds.
    [usize] has 64 bits.

    ** Not modelled

    Formatting by [core::fmt] (its pieces are an argument), compiler behaviour beyond what the
    macros rely on (type inference, hygiene, unwinding: panics abort), and the C shims apart from
    the KUnit registry with its dispatcher and the misc device allocation. The branch that a static
    key patches is a parameter, and so are the lexer behind [TokenStream::from_str] and the parser
    of types behind the fragments of [macro_rules!]. Compile-time
    assertions, the crate roots and the build scripts are not modelled. Types with more than one
    [Work] field, atomics weaker than sequential consistency and interrupts are outside of the
    models that mention them. *)

From stdpp Require Export prelude gmap list list_numbers.
From Stdlib Require Export ZArith Lia.

#[export] Set Default Goal Selector "!".

#[global] Open Scope Z_scope.

(** ** Values of [core::result::Result] *)

Inductive result (E A : Type) : Type :=
| Ok (a : A)
| Err (e : E).
Arguments Ok {E A} a.
Arguments Err {E A} e.

Definition result_map {E A B} (f : A → B) (r : result E A) : result E B :=
  match r with Ok a => Ok (f a) | Err e => Err e end.

Definition result_map_err {E F A} (f : E → F) (r : result E A) : result F A :=
  match r with Ok a => Ok a | Err e => Err (f e) end.

Definition ok_or {E A} (o : option A) (e : E) : result E A :=
  match o with Some a => Ok a | None => Err e end.

Definition is_ok {E A} (r : result E A) : bool :=
  match r with Ok _ => true | Err _ => false end.

(** The [?] operator on a pure result. *)
Definition result_bind {E A B} (r : result E A) (k : A → result E B) : result E B :=
  match r with Ok a => k a | Err e => Err e end.

(** ** Outcomes of an execution

    [Done] is a normal return, [Panic] a Rust panic (an arithmetic overflow with
    overflow checks on, an [unwrap] of [None], an index out of range), [UB] an
    access that the language leaves undefined (a read of an uninitialised slot, a
    dereference of a null or freed pointer, an [unreachable_unchecked]). *)

Inductive exec (A : Type) : Type :=
| Done (a : A)
| Panic
| UB.
Arguments Done {A} a.
Arguments Panic {A}.
Arguments UB {A}.

(** Sequencing without a state. *)
Definition exec_bind {A B} (e : exec A) (k : A → exec B) : exec B :=
  match e with Done a => k a | Panic => Panic | UB => UB end.

(** Stateful, fallible code: a state monad over [exec]. *)
Definition M (S A : Type) : Type := S → exec (A * S).

#[export] Instance M_ret {S} : MRet (M S) := λ A a s, Done (a, s).
#[export] Instance M_bind {S} : MBind (M S) := λ A B k m s,
  match m s with
  | Done (a, s') => k a s'
  | Panic => Panic
  | UB => UB
  end.

Definition get {S} : M S S := λ s, Done (s, s).
Definition put {S} (s' : S) : M S unit := λ _, Done (tt, s').
Definition modify {S} (f : S → S) : M S unit := λ s, Done (tt, f s).
Definition panic {S A} : M S A := λ _, Panic.
Definition ub {S A} : M S A := λ _, UB.
(** Lift of a pure outcome. *)
Definition lift {S A} (e : exec A) : M S A := λ s,
  match e with Done a => Done (a, s) | Panic => Panic | UB => UB end.

(** The [?] operator inside the monad. *)
Definition try_bind {S E A B} (m : M S (result E A)) (k : A → M S (result E B)) :
    M S (result E B) :=
  r ← m; match r with Ok a => k a | Err e => mret (Err e) end.

Declare Scope rust_scope.
Delimit Scope rust_scope with rust.
Notation "x ←? m ; k" := (try_bind m (λ x, k))
  (at level 20, m at level 100, k at level 200, right associativity) : rust_scope.
#[global] Open Scope rust_scope.

(** ** Total-correctness weakest preconditions

    [wp m Q s]: from [s] the code terminates normally, without panic and without
    undefined behaviour, in a result and a state that satisfy [Q]. *)

Definition wp {S A} (m : M S A) (Q : A → S → Prop) (s : S) : Prop :=
  ∃ a s', m s = Done (a, s') ∧ Q a s'.

Section Wp.
Context {S : Type}.
Implicit Types s : S.

Lemma wp_ret {A} (a : A) Q s : Q a s → wp (mret a) Q s.
Proof. intros H. exists a, s. auto. Qed.

Lemma wp_bind {A B} (m : M S A) (k : A → M S B) Q s :
  wp m (λ a s', wp (k a) Q s') s → wp (m ≫= k) Q s.
Proof.
  intros (a & s' & Hm & b & s'' & Hk & HQ). exists b, s''.
  split; [|done]. unfold mbind, M_bind. by rewrite Hm.
Qed.

Lemma wp_mono {A} (m : M S A) (Q R : A → S → Prop) s :
  wp m Q s → (∀ a s', Q a s' → R a s') → wp m R s.
Proof. intros (a & s' & Hm & HQ) H. exists a, s'. auto. Qed.

Lemma wp_get Q s : Q s s → wp get Q s.
Proof. intros H. exists s, s. auto. Qed.

Lemma wp_put s' Q s : Q tt s' → wp (put s') Q s.
Proof. intros H. exists tt, s'. auto. Qed.

Lemma wp_modify f Q s : Q tt (f s) → wp (modify f) Q s.
Proof. intros H. exists tt, (f s). auto. Qed.

Lemma wp_lift {A} (e : exec A) a Q s : e = Done a → Q a s → wp (lift e) Q s.
Proof. intros -> H. exists a, s. auto. Qed.

Lemma wp_try {E A B} (m : M S (result E A)) (k : A → M S (result E B)) Q s :
  wp m (λ r s', match r with Ok a => wp (k a) Q s' | Err e => Q (Err e) s' end) s →
  wp (try_bind m k) Q s.
Proof.
  intros H. apply wp_bind. eapply wp_mono; [exact H|].
  intros [a|e] s' HQ; [done|]. by apply wp_ret.
Qed.

(** A weakest precondition determines the outcome. *)
Lemma wp_elim {A} (m : M S A) Q s a s' : wp m Q s → m s = Done (a, s') → Q a s'.
Proof. intros (a0 & s0 & -> & HQ) [= -> ->]. done. Qed.

Lemma wp_Done {A} (m : M S A) s a s' : wp m (λ b t, b = a ∧ t = s') s → m s = Done (a, s').
Proof. by intros (? & ? & Hm & -> & ->). Qed.
End Wp.

(** Steps through the structural constructs of a monadic body. *)
Ltac wp_step :=
  lazymatch goal with
  | |- wp (mret _) _ _ => apply wp_ret
  | |- wp (mbind _ _) _ _ => apply wp_bind
  | |- wp (try_bind _ _) _ _ => apply wp_try
  | |- wp get _ _ => apply wp_get
  | |- wp (put _) _ _ => apply wp_put
  | |- wp (modify _) _ _ => apply wp_modify
  end.
Ltac wp_steps := repeat (wp_step; simpl).

(** ** Machine integers

    [usize] is 64 bits wide on the targets of the module (arm64); a [usize] is a
    [Z] in [0 .. 2^64 - 1]. *)

Definition wrap (w z : Z) : Z := z `mod` 2 ^ w.
(** Two's-complement reading of the low [w] bits: an [as] cast to a signed type. *)
Definition sext (w z : Z) : Z :=
  let m := wrap w z in if m <? 2 ^ (w - 1) then m else m - 2 ^ w.
Definition USIZE_BITS : Z := 64.
Definition USIZE_MAX : Z := 2 ^ 64 - 1.
Definition ISIZE_MAX : Z := 2 ^ 63 - 1.
Definition U32_MAX : Z := 2 ^ 32 - 1.
Definition I32_MAX : Z := 2 ^ 31 - 1.

Definition is_usize (z : Z) : Prop := 0 ≤ z ≤ USIZE_MAX.

Definition checked_add (a b : Z) : option Z := if a + b <=? USIZE_MAX then Some (a + b) else None.
Definition checked_sub (a b : Z) : option Z := if b <=? a then Some (a - b) else None.
Definition checked_mul (a b : Z) : option Z := if a * b <=? USIZE_MAX then Some (a * b) else None.
Definition saturating_add (a b : Z) : Z := Z.min (a + b) USIZE_MAX.
Definition saturating_sub (a b : Z) : Z := Z.max (a - b) 0.
Definition wrapping_add (a b : Z) : Z := wrap USIZE_BITS (a + b).

(** Plain [+], [-] and [*] on [usize] with overflow checks: a panic on overflow. *)
Definition uadd (a b : Z) : exec Z := match checked_add a b with Some c => Done c | None => Panic end.
Definition usub (a b : Z) : exec Z := match checked_sub a b with Some c => Done c | None => Panic end.
Definition umul (a b : Z) : exec Z := match checked_mul a b with Some c => Done c | None => Panic end.

(** Arithmetic of [i32] with overflow checks. *)
Definition i32_checked (z : Z) : exec Z := if (- 2 ^ 31 <=? z) && (z <=? I32_MAX) then Done z else Panic.

Create HintDb rust discriminated.

Lemma checked_add_Some a b : a + b ≤ USIZE_MAX → checked_add a b = Some (a + b).
Proof. intros H. unfold checked_add. by rewrite (proj2 (Z.leb_le _ _) H). Qed.
Lemma checked_sub_Some a b : b ≤ a → checked_sub a b = Some (a - b).
Proof. intros H. unfold checked_sub. by rewrite (proj2 (Z.leb_le _ _) H). Qed.
Lemma checked_sub_None a b : a < b → checked_sub a b = None.
Proof. intros H. unfold checked_sub. by rewrite (proj2 (Z.leb_gt _ _) H). Qed.
Lemma checked_mul_Some a b : a * b ≤ USIZE_MAX → checked_mul a b = Some (a * b).
Proof. intros H. unfold checked_mul. by rewrite (proj2 (Z.leb_le _ _) H). Qed.

Lemma uadd_ok a b : a + b ≤ USIZE_MAX → uadd a b = Done (a + b).
Proof. intros H. unfold uadd. by rewrite checked_add_Some. Qed.
Lemma usub_ok a b : b ≤ a → usub a b = Done (a - b).
Proof. intros H. unfold usub. by rewrite checked_sub_Some. Qed.
Lemma umul_ok a b : a * b ≤ USIZE_MAX → umul a b = Done (a * b).
Proof. intros H. unfold umul. by rewrite checked_mul_Some. Qed.

#[export] Hint Resolve uadd_ok usub_ok umul_ok : rust.

(** A signed cast keeps the values of the target type. *)
Lemma sext_id w z : 0 < w → - 2 ^ (w - 1) ≤ z < 2 ^ (w - 1) → sext w z = z.
Proof.
  intros Hw Hz. assert (2 ^ w = 2 * 2 ^ (w - 1)) as Hp.
  { rewrite <- Z.pow_succ_r by lia. f_equal. lia. }
  unfold sext, wrap. destruct (decide (0 ≤ z)).
  - rewrite Z.mod_small by lia. by rewrite (proj2 (Z.ltb_lt _ _)) by lia.
  - assert (z `mod` 2 ^ w = z + 2 ^ w) as ->.
    { symmetry. apply Z.mod_unique with (-1); lia. }
    rewrite (proj2 (Z.ltb_ge _ _)) by lia. lia.
Qed.

Lemma sext_range w z : 0 < w → - 2 ^ (w - 1) ≤ sext w z < 2 ^ (w - 1).
Proof.
  intros Hw. assert (2 ^ w = 2 * 2 ^ (w - 1)) as Hp by (rewrite <- Z.pow_succ_r by lia; f_equal; lia).
  assert (0 ≤ wrap w z < 2 ^ w) as Hz by (apply Z.mod_pos_bound; lia).
  unfold sext. destruct (Z.ltb_spec (wrap w z) (2 ^ (w - 1))); lia.
Qed.

Lemma wrap_id w z : 0 ≤ z < 2 ^ w → wrap w z = z.
Proof. intros. by apply Z.mod_small. Qed.

Lemma sext_wrap w v z : 0 < w ≤ v → sext w (wrap v z) = sext w z.
Proof.
  intros H. unfold sext. assert (wrap w (wrap v z) = wrap w z) as ->; [|done].
  unfold wrap. apply Z.mod_mod_divide.
  exists (2 ^ (v - w)). rewrite <- Z.pow_add_r by lia. f_equal. lia.
Qed.

(** Solves the side conditions on machine integers. *)
Ltac usize := unfold is_usize, USIZE_MAX, ISIZE_MAX, U32_MAX, I32_MAX, USIZE_BITS in *; lia.

(** Case analysis on the boolean comparisons of a goal. *)
Ltac zcases :=
  repeat match goal with
  | |- context [Z.leb ?a ?b] => destruct (Z.leb_spec a b)
  | |- context [Z.ltb ?a ?b] => destruct (Z.ltb_spec a b)
  | |- context [Z.eqb ?a ?b] => destruct (Z.eqb_spec a b)
  | |- context [Z.geb ?a ?b] => rewrite (Z.geb_leb a b)
  | |- context [Z.gtb ?a ?b] => rewrite (Z.gtb_ltb a b)
  end.

(** ** Pointers and the ends of a list of pointers *)

Definition null : Z := 0.
Definition is_null (p : Z) : bool := p =? null.

Definition hdz (d : Z) (l : list Z) : Z := default d (head l).
Definition lastz (d : Z) (l : list Z) : Z := default d (last l).

Lemma hdz_app d l1 l2 : hdz d (l1 ++ l2) = hdz (hdz d l2) l1.
Proof. by destruct l1. Qed.
Lemma lastz_app d l1 l2 : lastz d (l1 ++ l2) = lastz (lastz d l1) l2.
Proof. unfold lastz. rewrite last_app. by destruct (last l2). Qed.
Lemma lastz_snoc d l x : lastz d (l ++ [x]) = x.
Proof. by rewrite lastz_app. Qed.
Lemma lastz_cons d x l : lastz d (x :: l) = lastz x l.
Proof. exact (lastz_app d [x] l). Qed.
Lemma lastz_ne d d' l : l ≠ [] → lastz d l = lastz d' l.
Proof. destruct l; [done|]. by rewrite !lastz_cons. Qed.
Lemma hdz_ne d d' l : l ≠ [] → hdz d l = hdz d' l.
Proof. by destruct l. Qed.
Lemma hdz_in d l : l ≠ [] → hdz d l ∈ l.
Proof. destruct l; [done|]. simpl. set_solver. Qed.
Lemma lastz_in d l : l ≠ [] → lastz d l ∈ l.
Proof.
  destruct l as [|x l _] using rev_ind; [done|]. rewrite lastz_snoc. set_solver.
Qed.

Lemma hdz_in_cons x l : hdz x l ∈ x :: l.
Proof. destruct l; simpl; set_solver. Qed.
Lemma lastz_in_cons x l : lastz x l ∈ x :: l.
Proof. rewrite <- (lastz_cons 0). by apply lastz_in. Qed.

(** ** Lists *)

Lemma Forall2_impl_l {A B} (P Q : A → B → Prop) l k :
  Forall2 P l k → (∀ x y, x ∈ l → P x y → Q x y) → Forall2 Q l k.
Proof.
  induction 1 as [|x y l k Hxy Hlk IH]; intros Himp; constructor.
  - apply Himp; [apply list_elem_of_here|done].
  - apply IH. intros a b Ha. apply Himp. by apply list_elem_of_further.
Qed.

Lemma delete_out {A} (l : list A) i : (length l ≤ i)%nat → delete i l = l.
Proof. intros H. rewrite delete_take_drop, take_ge, drop_ge by lia. apply app_nil_r. Qed.

(** The largest key of a map, from which a fresh one is made. *)
Definition max_key {C} (h : gmap Z C) : Z := foldr Z.max 0 (map_to_list h).*1.

Lemma foldr_max_ge (l : list Z) x : x ∈ l → x ≤ foldr Z.max 0 l.
Proof. induction 1; simpl; lia. Qed.

Lemma foldr_max_nonneg (l : list Z) : 0 ≤ foldr Z.max 0 l.
Proof. induction l; simpl; lia. Qed.

Lemma max_key_ge {C} (h : gmap Z C) p b : h !! p = Some b → p ≤ max_key h.
Proof.
  intros Hp. apply foldr_max_ge, list_elem_of_fmap. exists (p, b).
  split; [done|]. by apply elem_of_map_to_list.
Qed.

(** ** Handles

    How many handles of a program are on [a], where [f] says what a handle is on. *)
Definition tally {V A} `{EqDecision A} (f : V → A) (t : gmap nat V) (a : A) : Z :=
  Z.of_nat (size (filter (λ e, f e.2 = a) t)).

Definition one {A} `{EqDecision A} (a a' : A) : Z := if decide (a' = a) then 1 else 0.

Section Tally.
Context {V A : Type} `{EqDecision A} (f : V → A).
Implicit Types (t : gmap nat V) (a : A).

Lemma tally_insert t k h a : t !! k = None → tally f (<[k := h]> t) a = tally f t a + one (f h) a.
Proof.
  intros Hk. unfold tally, one. case_decide as Hd.
  - rewrite map_filter_insert_True by done. rewrite map_size_insert_None; [lia|].
    apply map_lookup_filter_None_2. auto.
  - rewrite map_filter_insert_False by (simpl; congruence). rewrite delete_id by done. lia.
Qed.

Lemma tally_delete t k h a : t !! k = Some h → tally f (delete k t) a = tally f t a - one (f h) a.
Proof.
  intros Hk. rewrite <- (insert_delete_id t k h) at 2 by done. rewrite tally_insert by apply lookup_delete_eq. lia.
Qed.

Lemma tally_nonneg t a : 0 ≤ tally f t a.
Proof. unfold tally. lia. Qed.

Lemma one_same a : one a a = 1.
Proof. unfold one. by rewrite decide_True. Qed.

Lemma one_other a a' : a' ≠ a → one a a' = 0.
Proof. intros ?. unfold one. by rewrite decide_False. Qed.

Lemma tally_pos t k h : t !! k = Some h → 0 < tally f t (f h).
Proof.
  intros Hk. pose proof (tally_delete t k h (f h) Hk) as Hd. pose proof (tally_nonneg (delete k t) (f h)).
  rewrite one_same in Hd. lia.
Qed.

Lemma tally_zero t a : (∀ k h, t !! k = Some h → f h ≠ a) → tally f t a = 0.
Proof.
  intros Hn. unfold tally. replace (filter (λ e, f e.2 = a) t) with (∅ : gmap nat V); [done|].
  symmetry. apply map_empty. intros k. apply map_lookup_filter_None_2. right. intros h Hk. by eapply Hn.
Qed.

(** A handle that stays on the same. *)
Lemma tally_retag t k h h' a : t !! k = Some h → f h' = f h → tally f (<[k := h']> t) a = tally f t a.
Proof.
  intros Hk Ho. rewrite <- insert_delete_eq, tally_insert by apply lookup_delete_eq.
  rewrite Ho, (tally_delete t k h) by done. lia.
Qed.
End Tally.
