(* ===== verification/Errors.v ===== *)
(** * Kernel error codes ([rust/src/error.rs])

    [Error] is a negative errno in [-MAX_ERRNO .. -1]; this file models its checked
    and unchecked constructors, the [From] conversions, the conversion of C return
    values and of error pointers, and the table of codes that [declare_err!] builds
    at compile time. *)

From S2P Require Import Prelude.

(** [bindings::MAX_ERRNO]. *)
Definition MAX_ERRNO : Z := 4095.

(** [struct Error(NonZeroI32)]. *)
Record Error := MkError { errno : Z }.

#[export] Instance Error_eq_dec : EqDecision Error.
Proof. solve_decision. Defined.

(** The type invariant documented on [Error]. *)
Definition Error_valid (e : Error) : Prop := - MAX_ERRNO ≤ errno e < 0.

#[export] Instance Error_valid_dec e : Decision (Error_valid e).
Proof. unfold Error_valid. apply _. Defined.

Definition from_errno_unchecked (n : Z) : Error := MkError n.

Definition try_from_errno (n : Z) : option Error :=
  if (n <? - MAX_ERRNO) || (n >=? 0) then None
  else Some (from_errno_unchecked n).

(** The codes [declare_err!] lists, with the constants of [bindings.rs]. *)
Inductive code :=
| EPERM | ENOENT | ESRCH | EINTR | EIO | ENXIO | E2BIG | ENOEXEC | EBADF | ECHILD
| EAGAIN | ENOMEM | EACCES | EFAULT | ENOTBLK | EBUSY | EEXIST | EXDEV | ENODEV
| ENOTDIR | EISDIR | EINVAL | ENFILE | EMFILE | ENOTTY | ETXTBSY | EFBIG | ENOSPC
| ESPIPE | EROFS | EMLINK | EPIPE | EDOM | ERANGE | ERESTARTSYS | ERESTARTNOINTR
| ERESTARTNOHAND | ENOIOCTLCMD | ERESTART_RESTARTBLOCK | EPROBE_DEFER | EOPENSTALE
| ENOPARAM | EBADHANDLE | ENOTSYNC | EBADCOOKIE | ENOTSUPP | ETOOSMALL | ESERVERFAULT
| EBADTYPE | EJUKEBOX | EIOCBQUEUED | ERECALLCONFLICT | ENOGRACE.

#[export] Instance code_eq_dec : EqDecision code.
Proof. solve_decision. Defined.

Definition bindings_errno (c : code) : Z :=
  match c with
  | EPERM => 1 | ENOENT => 2 | ESRCH => 3 | EINTR => 4 | EIO => 5 | ENXIO => 6
  | E2BIG => 7 | ENOEXEC => 8 | EBADF => 9 | ECHILD => 10 | EAGAIN => 11
  | ENOMEM => 12 | EACCES => 13 | EFAULT => 14 | ENOTBLK => 15 | EBUSY => 16
  | EEXIST => 17 | EXDEV => 18 | ENODEV => 19 | ENOTDIR => 20 | EISDIR => 21
  | EINVAL => 22 | ENFILE => 23 | EMFILE => 24 | ENOTTY => 25 | ETXTBSY => 26
  | EFBIG => 27 | ENOSPC => 28 | ESPIPE => 29 | EROFS => 30 | EMLINK => 31
  | EPIPE => 32 | EDOM => 33 | ERANGE => 34 | ERESTARTSYS => 512
  | ERESTARTNOINTR => 513 | ERESTARTNOHAND => 514 | ENOIOCTLCMD => 515
  | ERESTART_RESTARTBLOCK => 516 | EPROBE_DEFER => 517 | EOPENSTALE => 518
  | ENOPARAM => 519 | EBADHANDLE => 521 | ENOTSYNC => 522 | EBADCOOKIE => 523
  | ENOTSUPP => 524 | ETOOSMALL => 525 | ESERVERFAULT => 526 | EBADTYPE => 527
  | EJUKEBOX => 528 | EIOCBQUEUED => 529 | ERECALLCONFLICT => 530 | ENOGRACE => 531
  end.

(** [declare_err!]: evaluated at compile time, a panic there is a build failure. *)
Definition declare_err (c : code) : exec Error :=
  match try_from_errno (- sext 32 (bindings_errno c)) with
  | Some err => Done err
  | None => Panic
  end.

(** The constant that a successful [declare_err!] defines. *)
Definition code_error (c : code) : Error := MkError (- bindings_errno c).
Coercion code_error : code >-> Error.

Definition from_errno (n : Z) : Error :=
  if (n <? - MAX_ERRNO) || (n >=? 0) then (EINVAL : Error)
  else from_errno_unchecked n.

Definition to_errno (e : Error) : Z := errno e.

(** [impl From<E> for Error]. *)
Class IntoError (E : Type) := into_error : E → Error.

Inductive AllocError := MkAllocError.
Inductive TryFromIntError := MkTryFromIntError.
Inductive Utf8Error := MkUtf8Error.
Inductive LayoutError := MkLayoutError.
Inductive FmtError := MkFmtError.

#[export] Instance from_AllocError : IntoError AllocError := λ _, ENOMEM.
#[export] Instance from_TryFromIntError : IntoError TryFromIntError := λ _, EINVAL.
#[export] Instance from_Utf8Error : IntoError Utf8Error := λ _, EINVAL.
#[export] Instance from_LayoutError : IntoError LayoutError := λ _, ENOMEM.
#[export] Instance from_FmtError : IntoError FmtError := λ _, EINVAL.
#[export] Instance from_Infallible : IntoError Empty_set := λ e, match e with end.

(** The [?] operator that converts the error. *)
Definition result_into {E A} `{IntoError E} (r : result E A) : result Error A :=
  result_map_err into_error r.

Definition to_result (err : Z) : result Error unit :=
  if err <? 0 then Err (from_errno err) else Ok tt.

(** The part of the kernel's [err.h] the code calls, on 64-bit pointers. *)
Class ErrPtrOps := {
  ERR_PTR : Z → Z;
  IS_ERR : Z → bool;
  PTR_ERR : Z → Z
}.

(** What [err.h] documents: the last page of the address space holds the error
    pointers, [ERR_PTR] casts the (negative) code to a pointer and [PTR_ERR]
    casts a pointer back to a [long]. *)
Class ErrPtrSpec `{ErrPtrOps} : Prop := {
  ERR_PTR_spec : ∀ e, ERR_PTR e = wrap 64 e;
  IS_ERR_spec : ∀ p, IS_ERR p = true ↔ 2 ^ 64 - MAX_ERRNO ≤ p;
  PTR_ERR_spec : ∀ p, PTR_ERR p = sext 64 p
}.

Definition to_ptr `{ErrPtrOps} (e : Error) : Z := ERR_PTR (errno e).

Definition from_err_ptr `{ErrPtrOps} (ptr : Z) : result Error Z :=
  if IS_ERR ptr then Err (from_errno_unchecked (sext 32 (PTR_ERR ptr)))
  else Ok ptr.

(** [from_result] for an integer target [T : From<i16>]: the [i16] embeds in [T]. *)
Definition from_result (f : unit → result Error Z) : Z :=
  match f tt with
  | Ok v => v
  | Err e => sext 16 (to_errno e)
  end.

(** ** Lemmas *)

Lemma try_from_errno_Some n e :
  try_from_errno n = Some e ↔ e = MkError n ∧ Error_valid e.
Proof.
  unfold try_from_errno, Error_valid, from_errno_unchecked. rewrite Z.geb_leb.
  destruct (Z.ltb_spec n (- MAX_ERRNO)), (Z.leb_spec 0 n); simpl;
    (split; [intros H1; simplify_eq; try (simpl; split; [done|lia])
            |intros [-> H1]; simpl in H1; first [done | lia]]).
Qed.

Lemma code_valid (c : code) : Error_valid c.
Proof. destruct c; vm_compute; split; congruence. Qed.
#[export] Hint Resolve code_valid : rust.

Lemma from_errno_valid n : Error_valid (from_errno n).
Proof.
  unfold from_errno. rewrite Z.geb_leb.
  destruct (Z.ltb_spec n (- MAX_ERRNO)), (Z.leb_spec 0 n); simpl; auto with rust.
  split; simpl; lia.
Qed.
#[export] Hint Resolve from_errno_valid : rust.

Lemma from_to_errno e : Error_valid e → from_errno (to_errno e) = e.
Proof.
  intros [H1 H2]. destruct e as [n]. unfold from_errno, to_errno in *; simpl in *.
  rewrite Z.geb_leb. by rewrite (proj2 (Z.ltb_ge _ _)), (proj2 (Z.leb_gt _ _)) by lia.
Qed.

(** An errno survives every integer cast of the error path. *)
Lemma errno_sext w n : 16 ≤ w → - MAX_ERRNO ≤ n < 0 → sext w n = n.
Proof.
  intros Hw [H1 H2]. apply sext_id; [lia|].
  pose proof (Z.pow_le_mono_r 2 15 (w - 1) ltac:(lia) ltac:(lia)).
  unfold MAX_ERRNO in *. lia.
Qed.

(** The constant of every [declare_err!] line: its compile-time check passes. *)
Lemma declare_err_ok c : declare_err c = Done (code_error c).
Proof. destruct c; reflexivity. Qed.

#[export] Instance bindings_errno_inj : Inj (=) (=) bindings_errno.
Proof. intros c d. destruct c, d; done. Qed.

(** ** Properties *)

(** A concrete reading of [err.h] for 64-bit kernels. *)
#[export] Instance err_h : ErrPtrOps := {
  ERR_PTR e := wrap 64 e;
  IS_ERR p := 2 ^ 64 - MAX_ERRNO <=? p;
  PTR_ERR p := sext 64 p
}.

#[export] Instance err_h_spec : ErrPtrSpec.
Proof. split; intros; try done. apply Z.leb_le. Qed.

(** C33: error values survive every representation the C boundary uses: from the
    [i16] of [from_result], from the [int] of [to_result]/[from_errno] and from
    an error pointer, the same [Error] comes back. *)
Theorem error_roundtrips `{ErrPtrSpec} (e : Error) (He : Error_valid e) :
  from_result (λ _, Err e) = to_errno e ∧
  to_result (to_errno e) = Err e ∧
  try_from_errno (to_errno e) = Some e ∧
  from_err_ptr (to_ptr e) = Err e.
Proof.
  pose proof He as [H1 H2]. split_and!.
  - unfold from_result, to_errno. by apply errno_sext.
  - unfold to_result. by rewrite from_to_errno, (proj2 (Z.ltb_lt _ _)).
  - apply try_from_errno_Some. by destruct e.
  - unfold from_err_ptr, to_ptr. rewrite ERR_PTR_spec.
    assert (wrap 64 (errno e) = 2 ^ 64 + errno e) as Hw.
    { unfold wrap. symmetry. apply Z.mod_unique with (-1); unfold MAX_ERRNO in *; lia. }
    rewrite (proj2 (IS_ERR_spec _)) by lia. do 2 f_equal.
    rewrite PTR_ERR_spec, sext_wrap by lia.
    rewrite (errno_sext 64), (errno_sext 32) by lia. by destruct e.
Qed.

Lemma error_roundtrips_witness :
  from_result (λ _, Err (ENOMEM : Error)) = -12 ∧
  from_err_ptr (to_ptr ENOMEM) = Err (ENOMEM : Error).
Proof.
  destruct (error_roundtrips ENOMEM (code_valid ENOMEM)) as (H1 & _ & _ & H2).
  split; [rewrite H1; reflexivity | exact H2].
Defined.

(** Every constructor of [Error] maintains the type invariant
    [-MAX_ERRNO <= errno < 0]: the checked ones for every argument, [to_result] and
    [from_err_ptr] on every C value, and the table of codes, whose compile-time
    checks all pass and whose entries are pairwise distinct. *)
Theorem error_invariant `{ErrPtrSpec} :
  (∀ n, Error_valid (from_errno n)) ∧
  (∀ n e, try_from_errno n = Some e → Error_valid e) ∧
  (∀ n e, to_result n = Err e → Error_valid e) ∧
  (∀ p e, is_usize p → from_err_ptr p = Err e → Error_valid e) ∧
  (∀ c, declare_err c = Done (code_error c) ∧ Error_valid c) ∧
  (∀ c d : code, code_error c = code_error d → c = d).
Proof.
  split_and!.
  - apply from_errno_valid.
  - by intros n e [_ ?]%try_from_errno_Some.
  - unfold to_result. intros n e. destruct (n <? 0); intros [= <-]. auto with rust.
  - unfold from_err_ptr. intros p e Hp. destruct (IS_ERR p) eqn:HI; intros [= <-].
    apply IS_ERR_spec in HI. rewrite PTR_ERR_spec.
    assert (p = wrap 64 (p - 2 ^ 64)) as ->.
    { unfold wrap. apply Z.mod_unique with (-1); usize. }
    assert (- MAX_ERRNO ≤ p - 2 ^ 64 < 0) as Hv by usize.
    rewrite sext_wrap by lia. rewrite (errno_sext 64), (errno_sext 32) by lia. done.
  - intros c. split; [apply declare_err_ok | apply code_valid].
  - intros c d [= Hcd%Z.opp_inj]. by apply (inj bindings_errno).
Qed.

Lemma error_invariant_witness :
  Error_valid (from_errno 7) ∧ from_errno 7 = EINVAL ∧ from_errno (-4096) = EINVAL.
Proof. split_and!; [apply error_invariant | reflexivity..]. Defined.
