(* ===== verification/Types.v ===== *)
(** * Shared types ([rust/src/types.rs])

    [ScopeGuard] runs a cleanup at the end of a scope; the array initialisers (KBox) hold one
    while they run. [ForeignOwnable] is the interface by which a pointer is handed to C and
    taken back: a class with its law, of which boxes (KBox) and references (Arc) are instances.
    References to kernel objects ([ARef]) are in KernelRefs. *)

From S2P Require Import Prelude.

(** ** [ScopeGuard] *)

Record ScopeGuard (S T : Type) := MkScopeGuard { guarded : option (T * (T → M S unit)) }.
Arguments MkScopeGuard {S T} _.
Arguments guarded {S T} _.

Section ScopeGuard.
Context {S T : Type}.

Definition new_with_data (data : T) (cleanup_func : T → M S unit) : ScopeGuard S T :=
  MkScopeGuard (Some (data, cleanup_func)).

(** [Drop]: the cleanup runs if it is still present. *)
Definition scope_guard_drop (g : ScopeGuard S T) : M S unit :=
  match guarded g with Some (data, cleanup) => cleanup data | None => mret tt end.

(** [take], [unwrap], and the drop of what is left of the guard. *)
Definition dismiss (g : ScopeGuard S T) : M S T :=
  match guarded g with
  | Some (data, _) => _ ← scope_guard_drop (MkScopeGuard None); mret data
  | None => panic
  end.

Definition scope_guard_deref (g : ScopeGuard S T) : M S T :=
  match guarded g with Some (data, _) => mret data | None => panic end.

(** An assignment through [deref_mut]. *)
Definition scope_guard_deref_mut (g : ScopeGuard S T) (data : T) : M S (ScopeGuard S T) :=
  match guarded g with Some (_, cleanup) => mret (MkScopeGuard (Some (data, cleanup))) | None => panic end.
End ScopeGuard.

(** [ScopeGuard::new]. *)
Definition guard_new {S} (cleanup : M S unit) : ScopeGuard S unit := new_with_data tt (λ _, cleanup).

(** ** [ForeignOwnable] *)

(** [H]: the owned values. *)
Class ForeignOwnable (S H : Type) := {
  foreign_into : H → Z;
  foreign_from : Z → M S H
}.

(** The provided method. *)
Definition try_from_foreign {S H} `{ForeignOwnable S H} (ptr : Z) : M S (option H) :=
  if is_null ptr then mret None else h ← foreign_from ptr; mret (Some h).

(** The law: a pointer that was given to C is not null, and what comes back is what was given. *)
Class ForeignOwnableSpec (S H : Type) `{ForeignOwnable S H} := {
  owned_value : H → Prop;
  foreign_into_nonnull h : owned_value h → is_null (foreign_into h) = false;
  foreign_from_into h s : owned_value h → foreign_from (foreign_into h) s = Done (h, s)
}.

(** [impl ForeignOwnable for ()]: a dangling pointer to a type of alignment one. *)
#[export] Instance unit_foreign {S} : ForeignOwnable S unit := {| foreign_into := λ _, 1; foreign_from := λ _, mret tt |}.

#[export] Instance unit_foreign_spec {S} : ForeignOwnableSpec S unit.
Proof. refine {| owned_value := λ _, True |}; by try intros []. Defined.

(** What a callback gets back from C, which may not have been given anything. *)
Lemma try_from_foreign_ok {S H} `{ForeignOwnableSpec S H} (o : option H) (s : S) :
  (∀ h, o = Some h → owned_value h) →
  try_from_foreign (match o with Some h => foreign_into h | None => 0 end) s = Done (o, s).
Proof.
  intros Ho. unfold try_from_foreign. destruct o as [h|]; [|done].
  rewrite foreign_into_nonnull by auto. unfold mbind, M_bind. by rewrite foreign_from_into by auto.
Qed.

(** ** [Opaque] *)

Section Opaque.
Context {S E : Type}.

(** [get] and [raw_get]: the wrappers have the address of what they wrap. *)
Definition opaque_get (this : Z) : Z := this.
Definition raw_get (this : Z) : Z := this.

Definition ffi_init (init_func : Z → M S unit) (slot : Z) : M S (result E unit) :=
  _ ← init_func (raw_get slot); mret (Ok tt).

Definition try_ffi_init (init_func : Z → M S (result E unit)) (slot : Z) : M S (result E unit) :=
  init_func (raw_get slot).
End Opaque.

(** ** Laws of guards *)

Section GuardLaws.
Context {S T : Type}.
Implicit Types g : ScopeGuard S T.

(** A guard holds its data until it is dismissed or dropped; the cleanup gets what was assigned last. *)
Lemma guard_assign_drop data d (f : T → M S unit) :
  (g ← scope_guard_deref_mut (new_with_data data f) d; scope_guard_drop g) = f d.
Proof. done. Qed.

Lemma guard_dismiss data (f : T → M S unit) s : dismiss (new_with_data data f) s = Done (data, s).
Proof. done. Qed.
End GuardLaws.
