(* ===== verification/ByteTypes.v ===== *)
(** * Types as bytes ([Zeroable] of [rust/src/init.rs], [FromBytes] and [AsBytes] of [rust/src/types.rs])

    The lists of types that the marker traits are implemented for, against what the language says about
    the values of these types. A value is a list of bytes of which some may be uninitialised ([None]).
    What the language leaves to the compiler is a parameter: the layout of tuples, the
    representation of an [Option] without a niche, and UTF-8. *)

From S2P Require Import Prelude.

(** ** Types *)

Inductive Ty :=
| TBool | TChar
| TInt (bytes : nat)                            (* [u8] .. [u128], [i8] .. [i128], [usize], [isize] *)
| TFloat (bytes : nat)
| TUnit | TPhantomData | TPhantomPinned | TNever
| TMaybeUninit (t : Ty) | TOpaque (t : Ty) | TUnsafeCell (t : Ty) | TWrapping (t : Ty)
| TNonZero (bytes : nat) | TNonNull (t : Ty) | TKBox (t : Ty) | TOption (t : Ty)
| TPtr (t : Ty)                                 (* [*mut T], [*const T] *)
| TPtrSlice (t : Ty) | TPtrStr | TPtrDyn
| TStr | TSlice (t : Ty) | TArray (n : nat) (t : Ty)
| TTuple (ts : list Ty).

Section TyInd.
Context (P : Ty → Prop).
Context (Hbool : P TBool) (Hchar : P TChar) (Hint : ∀ n, P (TInt n)) (Hfloat : ∀ n, P (TFloat n)) (Hunit : P TUnit)
  (Hphantom : P TPhantomData) (Hpinned : P TPhantomPinned) (Hnever : P TNever) (Hmu : ∀ t, P t → P (TMaybeUninit t))
  (Hopaque : ∀ t, P t → P (TOpaque t)) (Hcell : ∀ t, P t → P (TUnsafeCell t)) (Hwrap : ∀ t, P t → P (TWrapping t))
  (Hnz : ∀ n, P (TNonZero n)) (Hnn : ∀ t, P t → P (TNonNull t)) (Hbox : ∀ t, P t → P (TKBox t)) (Hopt : ∀ t, P t → P (TOption t))
  (Hptr : ∀ t, P t → P (TPtr t)) (Hptrs : ∀ t, P t → P (TPtrSlice t)) (Hptrstr : P TPtrStr) (Hdyn : P TPtrDyn) (Hstr : P TStr)
  (Hslice : ∀ t, P t → P (TSlice t)) (Harr : ∀ n t, P t → P (TArray n t)) (Htup : ∀ ts, Forall P ts → P (TTuple ts)).

Fixpoint Ty_ind' (t : Ty) : P t :=
  match t with
  | TBool => Hbool | TChar => Hchar | TInt n => Hint n | TFloat n => Hfloat n | TUnit => Hunit | TPhantomData => Hphantom
  | TPhantomPinned => Hpinned | TNever => Hnever | TMaybeUninit t => Hmu t (Ty_ind' t) | TOpaque t => Hopaque t (Ty_ind' t)
  | TUnsafeCell t => Hcell t (Ty_ind' t) | TWrapping t => Hwrap t (Ty_ind' t) | TNonZero n => Hnz n
  | TNonNull t => Hnn t (Ty_ind' t) | TKBox t => Hbox t (Ty_ind' t) | TOption t => Hopt t (Ty_ind' t)
  | TPtr t => Hptr t (Ty_ind' t) | TPtrSlice t => Hptrs t (Ty_ind' t) | TPtrStr => Hptrstr | TPtrDyn => Hdyn | TStr => Hstr
  | TSlice t => Hslice t (Ty_ind' t) | TArray n t => Harr n t (Ty_ind' t)
  | TTuple ts => Htup ts ((fix go (ts : list Ty) : Forall P ts :=
      match ts with
      | [] => @List.Forall_nil Ty P
      | t :: ts => @List.Forall_cons Ty P t ts (Ty_ind' t) (go ts)
      end) ts)
  end.
End TyInd.

(** ** Values *)

Abbreviation bytes := (list (option Z)).

Definition initialised (bs : bytes) : Prop := Forall (λ b, ∃ z, b = Some z ∧ 0 ≤ z < 256) bs.
Definition zeros (n : nat) : bytes := replicate n (Some 0).

(** A little-endian number. *)
Fixpoint le (bs : bytes) : Z := match bs with Some b :: bs => b + 256 * le bs | _ => 0 end.

(** The compiler's part: offsets and size of tuples; values of an [Option] without a niche and of [str]. *)
Class Compiler := {
  offsets : list Ty → list nat;
  tuple_size : list Ty → nat;
  option_size : Ty → nat;
  option_valid : Ty → bytes → Prop;
  utf8 : bytes → Prop
}.

Section Values.
Context {CC : Compiler}.

(** [size_of]; no size for a type that has none. *)
Fixpoint ty_size (t : Ty) : nat :=
  match t with
  | TBool => 1 | TChar => 4 | TInt n | TFloat n | TNonZero n => n
  | TUnit | TPhantomData | TPhantomPinned | TNever => 0
  | TMaybeUninit t | TOpaque t | TUnsafeCell t | TWrapping t => ty_size t
  | TNonNull _ | TKBox _ | TPtr _ => 8
  | TOption t => match t with TNonZero n => n | TNonNull _ | TKBox _ => 8 | _ => option_size t end
  | TPtrSlice _ | TPtrStr | TPtrDyn => 16
  | TStr | TSlice _ => 0
  | TArray n t => n * ty_size t
  | TTuple ts => tuple_size ts
  end.

(** The niche of an [Option]: all zero is [None]. *)
Definition has_niche (t : Ty) : bool := match t with TNonZero _ | TNonNull _ | TKBox _ => true | _ => false end.

(** Which bytes are a value. *)
Fixpoint valid (t : Ty) (bs : bytes) {struct t} : Prop :=
  match t with
  | TBool => bs = [Some 0] ∨ bs = [Some 1]
  | TChar => length bs = 4%nat ∧ initialised bs ∧ (le bs < 0xD800 ∨ 0xE000 ≤ le bs < 0x110000)
  | TInt n | TFloat n => length bs = n ∧ initialised bs
  | TUnit | TPhantomData | TPhantomPinned => bs = []
  | TNever => False
  | TMaybeUninit t | TOpaque t => length bs = ty_size t
  | TUnsafeCell t | TWrapping t => valid t bs
  | TNonZero n => length bs = n ∧ initialised bs ∧ bs ≠ zeros n
  | TNonNull _ | TKBox _ => length bs = 8%nat ∧ initialised bs ∧ bs ≠ zeros 8
  | TOption t => if has_niche t then bs = zeros (ty_size t) ∨ valid t bs else option_valid t bs
  | TPtr _ => length bs = 8%nat ∧ initialised bs
  | TPtrSlice _ | TPtrStr => length bs = 16%nat ∧ initialised bs
  | TPtrDyn => length bs = 16%nat ∧ initialised bs ∧ drop 8 bs ≠ zeros 8
  | TStr => initialised bs ∧ utf8 bs
  | TSlice t => ∃ vs, bs = concat vs ∧ Forall (valid t) vs
  | TArray n t => ∃ vs, bs = concat vs ∧ length vs = n ∧ Forall (valid t) vs
  | TTuple ts =>
      length bs = tuple_size ts ∧
      (fix fields (ts : list Ty) (os : list nat) : Prop :=
         match ts, os with
         | [], _ => True
         | t :: ts, o :: os => valid t (take (ty_size t) (drop o bs)) ∧ fields ts os
         | _ :: _, [] => False
         end) ts (offsets ts)
  end.

(** Interior mutability: the type has an [UnsafeCell] that is reached without a pointer. *)
Fixpoint interior_mut (t : Ty) : bool :=
  match t with
  | TUnsafeCell _ | TOpaque _ => true
  | TMaybeUninit t | TWrapping t | TOption t | TSlice t | TArray _ t => interior_mut t
  | TTuple ts => existsb interior_mut ts
  | _ => false
  end.
End Values.

(** ** The implementations *)

(** The implicit bound of type parameters. *)
Fixpoint sized (t : Ty) : bool :=
  match t with TStr | TSlice _ => false | TUnsafeCell t => sized t | _ => true end.

(** [impl_zeroable!] and [impl_tuple_zeroable!], which recurses over ten type parameters. *)
Fixpoint impl_zeroable (t : Ty) : bool :=
  match t with
  | TBool | TChar => true
  | TInt n => bool_decide (n ∈ [1; 2; 4; 8; 16]%nat)
  | TFloat n => bool_decide (n ∈ [4; 8]%nat)
  | TPhantomData | TPhantomPinned | TUnit => true
  | TMaybeUninit t | TOpaque t => sized t
  | TUnsafeCell t => impl_zeroable t
  | TOption (TNonZero n) => bool_decide (n ∈ [1; 2; 4; 8; 16]%nat)
  | TOption (TNonNull t) | TOption (TKBox t) => sized t
  | TPtr t | TPtrSlice t => sized t
  | TPtrStr => true
  | TArray _ t | TWrapping t => sized t && impl_zeroable t
  | TTuple ts => (1 <=? length ts)%nat && (length ts <=? 10)%nat && forallb (λ t, sized t && impl_zeroable t) ts
  | _ => false
  end.

(** [impl_frombytes!] *)
Fixpoint impl_frombytes (t : Ty) : bool :=
  match t with
  | TInt n => bool_decide (n ∈ [1; 2; 4; 8]%nat)
  | TSlice t | TArray _ t => sized t && impl_frombytes t
  | _ => false
  end.

(** [impl_asbytes!] *)
Fixpoint impl_asbytes (t : Ty) : bool :=
  match t with
  | TInt n => bool_decide (n ∈ [1; 2; 4; 8]%nat)
  | TBool | TChar | TStr => true
  | TSlice t | TArray _ t => sized t && impl_asbytes t
  | _ => false
  end.

(** ** What the traits promise *)

Section Promises.
Context {CC : Compiler}.

(** Every field lies inside of the tuple. *)
Definition layout_ok : Prop :=
  ∀ ts, Forall2 (λ t o, (o + ty_size t ≤ tuple_size ts)%nat) ts (offsets ts).

Lemma zeros_initialised n : initialised (zeros n).
Proof. unfold zeros. apply Forall_replicate. exists 0. split; [done|lia]. Qed.

Lemma zeros_length n : length (zeros n) = n.
Proof. apply length_replicate. Qed.

Lemma zeros_slice o k n : (o + k ≤ n)%nat → take k (drop o (zeros n)) = zeros k.
Proof. intros H. unfold zeros. rewrite drop_replicate, take_replicate. f_equal. lia. Qed.

Lemma concat_zeros m n : concat (replicate m (zeros n)) = zeros (m * n).
Proof. induction m as [|m IH]; [done|]. cbn. rewrite IH. unfold zeros. by rewrite <- replicate_add. Qed.

(** A struct or tuple whose fields are valid as zeroes is valid as zeroes, wherever the compiler puts the
    fields. *)
Lemma tuple_zero ts : layout_ok → Forall (λ t, valid t (zeros (ty_size t))) ts → valid (TTuple ts) (zeros (tuple_size ts)).
Proof.
  intros Hl Hts. cbn [valid]. split; [apply zeros_length|]. specialize (Hl ts). revert Hl. generalize (tuple_size ts) as n.
  generalize (offsets ts) as os. induction Hts as [|t ts Ht Hts IH]; intros os n Hl; [done|].
  inversion Hl as [|? o ? os' Ho Hl']; subst. split; [by rewrite zeros_slice|by apply (IH _ n)].
Qed.

Lemma zeroable_ok t : layout_ok → impl_zeroable t = true → valid t (zeros (ty_size t)).
Proof.
  intros Hl. induction t as [| | | | | | | | | | | | |t _|t _|t _| | | | | |t _|n t IH|ts IH] using Ty_ind'; intros Hz; simpl in Hz;
    try done; try (split; [apply zeros_length|apply zeros_initialised]).
  - by left.
  - split; [done|]. split; [apply zeros_initialised|]. left. vm_compute. done.
  - apply zeros_length.
  - apply zeros_length.
  - by apply IHt.
  - apply andb_true_iff in Hz as [_ Hz]. by apply IHt.
  - destruct t; try done; by left.
  - apply andb_true_iff in Hz as [_ Hz]. exists (replicate n (zeros (ty_size t))). rewrite concat_zeros, length_replicate.
    split_and!; [done|done|]. apply Forall_replicate. by apply IH.
  - apply andb_true_iff in Hz as [_ Hz]. apply tuple_zero; [done|].
    rewrite forallb_forall in Hz. apply Forall_forall. intros t Ht. rewrite Forall_forall in IH. apply IH; [done|].
    apply list_elem_of_In, Hz in Ht. by apply andb_true_iff in Ht as [_ ?].
Qed.
(** As many bytes as a value has; a slice has as many as some number of elements. *)
Definition fits (t : Ty) (bs : bytes) : Prop :=
  match t with TSlice t => ∃ k, length bs = (k * ty_size t)%nat | _ => length bs = ty_size t end.

Lemma chunks_of n k : ∀ bs : bytes, length bs = (k * n)%nat → initialised bs →
  ∃ vs, bs = concat vs ∧ length vs = k ∧ Forall (λ v, length v = n ∧ initialised v) vs.
Proof.
  induction k as [|k IH]; intros bs Hl Hi.
  - apply nil_length_inv in Hl as ->. by exists [].
  - destruct (IH (drop n bs)) as (vs & E & Hvs & Hall); [rewrite length_drop; lia|by apply Forall_drop|].
    exists (take n bs :: vs). cbn [concat length]. rewrite <- E, take_drop. split_and!; [done|by f_equal|].
    constructor; [|done]. split; [rewrite length_take; lia|by apply Forall_take].
Qed.

Lemma frombytes_frozen t : impl_frombytes t = true → interior_mut t = false.
Proof. induction t using Ty_ind'; intros Hz; cbn in *; try done; apply andb_true_iff in Hz as [_ Hz]; auto. Qed.

Lemma frombytes_ok t : impl_frombytes t = true → ∀ bs, initialised bs → fits t bs → valid t bs.
Proof.
  assert (∀ t k bs, sized t = true → (∀ v, initialised v → fits t v → valid t v) →
    length bs = (k * ty_size t)%nat → initialised bs → ∃ vs, bs = concat vs ∧ length vs = k ∧ Forall (valid t) vs) as Harr.
  { intros u k bs Hs IH Hl Hi. destruct (chunks_of _ _ _ Hl Hi) as (vs & E & Hk & Hall). exists vs. split_and!; [done|done|].
    eapply Forall_impl; [exact Hall|]. intros v [Hv Hvi]. apply IH; [done|]. by destruct u. }
  induction t as [| | | | | | | | | | | | | | | | | | | | |t IH|n t IH|ts _] using Ty_ind'; intros Hz bs Hi Hl; cbn in Hz; try done.
  - apply andb_true_iff in Hz as [Hs Hz]. destruct Hl as [k Hl]. destruct (Harr t k bs Hs (IH Hz) Hl Hi) as (vs & E & _ & Hall). by exists vs.
  - apply andb_true_iff in Hz as [Hs Hz]. destruct (Harr t n bs Hs (IH Hz) Hl Hi) as (vs & E & Hk & Hall). by exists vs.
Qed.

Lemma asbytes_ok t : impl_asbytes t = true → interior_mut t = false ∧ ∀ bs, valid t bs → initialised bs.
Proof.
  assert (∀ (Q : bytes → Prop) vs, (∀ v, Q v → initialised v) → Forall Q vs → initialised (concat vs)) as Hcat.
  { intros Q vs HQ Hvs. induction Hvs as [|v vs Hv Hvs IH]; [by apply Forall_nil_2|]. cbn. apply Forall_app_2; [by apply HQ|done]. }
  induction t as [| | | | | | | | | | | | | | | | | | | | |t IH|n t IH|ts _] using Ty_ind'; intros Hz; cbn in Hz; try done.
  - split; [done|]. intros bs [-> | ->]; (apply Forall_cons_2; [eexists; split; [done|lia]|apply Forall_nil_2]).
  - split; [done|]. by intros bs (_ & ? & _).
  - split; [done|]. by intros bs (_ & ?).
  - split; [done|]. by intros bs (? & _).
  - apply andb_true_iff in Hz as [_ Hz]. destruct (IH Hz) as [Hm Hv]. split; [done|].
    intros bs (vs & -> & Hvs). by eapply Hcat.
  - apply andb_true_iff in Hz as [_ Hz]. destruct (IH Hz) as [Hm Hv]. split; [done|].
    intros bs (vs & -> & _ & Hvs). by eapply Hcat.
Qed.

(** The marker traits are implemented for types that deserve them, whatever layout the compiler chooses
    for tuples: zeroed memory is a value of every [Zeroable] type; any initialised bytes of the
    right number are a value of a [FromBytes] type; no value of an [AsBytes] type has an
    uninitialised byte; and no type of the last two kinds has interior mutability. *)
Theorem byte_traits_sound (t : Ty) (Hlayout : layout_ok) :
  (impl_zeroable t = true → valid t (zeros (ty_size t))) ∧
  (impl_frombytes t = true → interior_mut t = false ∧ ∀ bs, initialised bs → fits t bs → valid t bs) ∧
  (impl_asbytes t = true → interior_mut t = false ∧ ∀ bs, valid t bs → initialised bs).
Proof.
  split; [by apply zeroable_ok|]. split; [|by apply asbytes_ok]. intros Hf. split; [by apply frombytes_frozen|by apply frombytes_ok].
Qed.

(** Why the lists stop where they do: zero is no value of these types, bytes may be no [bool] and no
    [char], and [MaybeUninit] may hold nothing. *)
Lemma byte_traits_limits (t : Ty) (n : nat) :
  ¬ valid TNever (zeros 0) ∧ ¬ valid (TNonZero n) (zeros n) ∧ ¬ valid (TNonNull t) (zeros 8) ∧ ¬ valid (TKBox t) (zeros 8) ∧
  ¬ valid TPtrDyn (zeros 16) ∧ ¬ valid TBool [Some 2] ∧ ¬ valid TChar [Some 0; Some 0xD8; Some 0; Some 0] ∧
  valid (TMaybeUninit (TInt 1)) [None].
Proof.
  split_and!; simpl.
  - intros [].
  - intros (_ & _ & H). done.
  - intros (_ & _ & H). done.
  - intros (_ & _ & H). done.
  - intros (_ & _ & H). done.
  - intros [?|?]; done.
  - intros (_ & _ & [H|[H _]]); lia.
  - done.
Qed.
End Promises.

(** ** An instance: fields in order, without padding *)

Fixpoint demo_size (t : Ty) : nat :=
  match t with
  | TBool => 1 | TChar => 4 | TInt n | TFloat n | TNonZero n => n
  | TUnit | TPhantomData | TPhantomPinned | TNever | TStr | TSlice _ => 0
  | TMaybeUninit t | TOpaque t | TUnsafeCell t | TWrapping t => demo_size t
  | TNonNull _ | TKBox _ | TPtr _ => 8
  | TOption t => match t with TNonZero n => n | _ => 8 end
  | TPtrSlice _ | TPtrStr | TPtrDyn => 16
  | TArray n t => n * demo_size t
  | TTuple ts => (fix go (ts : list Ty) : nat := match ts with [] => 0 | t :: ts => demo_size t + go ts end)%nat ts
  end.

Fixpoint demo_offsets (o : nat) (ts : list Ty) : list nat :=
  match ts with [] => [] | t :: ts => o :: demo_offsets (o + demo_size t) ts end.

#[local] Instance demo_compiler : Compiler := {|
  offsets := demo_offsets 0; tuple_size ts := demo_size (TTuple ts); option_size _ := 8%nat; option_valid _ _ := True; utf8 _ := True
|}.

Lemma demo_size_ok t : ty_size t = demo_size t.
Proof. induction t using Ty_ind'; simpl; congruence || (by destruct t). Qed.

Lemma demo_layout_ok : layout_ok.
Proof.
  intros ts. cbn [offsets tuple_size demo_compiler].
  assert (∀ o, Forall2 (λ t p, (p + ty_size t ≤ o + demo_size (TTuple ts))%nat) ts (demo_offsets o ts)) as H; [|apply (H 0%nat)].
  induction ts as [|t ts IH]; intros o; cbn [demo_offsets]; constructor.
  - rewrite demo_size_ok. cbn [demo_size]. lia.
  - eapply Forall2_impl; [apply IH|]. intros u p H. cbn [demo_size] in *. lia.
Qed.

Lemma byte_traits_sound_witness :
  valid (TTuple [TBool; TInt 4; TOption (TNonNull TUnit); TArray 3 TChar]) (zeros 25) ∧
  valid (TArray 2 (TInt 2)) [Some 1; Some 2; Some 3; Some 255] ∧
  ∀ bs, valid (TSlice TChar) bs → initialised bs.
Proof.
  split; [|split].
  - refine (proj1 (byte_traits_sound (TTuple [TBool; TInt 4; TOption (TNonNull TUnit); TArray 3 TChar]) demo_layout_ok) _).
    vm_compute. reflexivity.
  - apply (proj2 (proj1 (proj2 (byte_traits_sound (TArray 2 (TInt 2)) demo_layout_ok)) ltac:(vm_compute; reflexivity))); [|reflexivity].
    repeat (apply Forall_cons_2; [eexists; split; [reflexivity|lia]|]). apply Forall_nil_2.
  - refine (proj2 (proj2 (proj2 (byte_traits_sound (TSlice TChar) demo_layout_ok)) _)). vm_compute. reflexivity.
Defined.
