(* ===== verification/Alloc.v ===== *)
(** * Memory layouts and allocators

    Models [rust/src/alloc.rs] ([Flags], the [Allocator] trait with its provided
    methods), [rust/src/alloc/layout.rs] ([ArrayLayout]) and
    [rust/src/alloc/allocator.rs] ([ReallocFunc::call] and the three kernel
    allocators). The C functions [krealloc], [vrealloc] and [kvrealloc] are
    parameters, with what the kernel documents of them as [ReallocFnSpec]; the
    documented guarantees of the trait are [AllocatorSpec], against which the
    containers are verified, and the three allocators are shown to provide them. *)

From S2P Require Import Prelude Errors.

(** ** [core::alloc::Layout] *)

Record Layout := MkLayout { lsize : Z; lalign : Z }.

Definition pow2 (a : Z) : Prop := ∃ k, 0 ≤ k ∧ a = 2 ^ k.

(** Size rounded up to a multiple of the alignment. *)
Definition round_up (n a : Z) : Z := (n + a - 1) / a * a.

(** The invariant of [Layout]: the padded size does not overflow [isize]. *)
Definition layout_ok (l : Layout) : Prop :=
  0 ≤ lsize l ∧ pow2 (lalign l) ∧ round_up (lsize l) (lalign l) ≤ ISIZE_MAX.

Definition pad_to_align (l : Layout) : Layout := MkLayout (round_up (lsize l) (lalign l)) (lalign l).

(** [Layout::new::<()>()]. *)
Definition layout_unit : Layout := MkLayout 0 1.

(** ** Types of the language, as far as the containers see them

    A size, an alignment, and, for a zero-sized type, its only value. *)
Class RType (T : Type) := {
  size_of : Z;
  align_of : Z;
  zst_value : option T
}.
#[global] Hint Mode RType ! : typeclass_instances.
Arguments size_of T {_}.
Arguments align_of T {_}.
Arguments zst_value T {_}.

(** What the language guarantees of them. *)
Class RTypeOk (T : Type) `{RType T} : Prop := {
  size_of_nonneg : 0 ≤ size_of T ≤ ISIZE_MAX;
  align_of_pow2 : pow2 (align_of T);
  align_of_max : align_of T ≤ 2 ^ 29;
  align_of_size : (align_of T | size_of T);
  zst_iff : size_of T = 0 ↔ is_Some (zst_value T);
  zst_unique : ∀ v x, zst_value T = Some v → x = v
}.
#[global] Hint Mode RTypeOk ! - : typeclass_instances.
Arguments size_of_nonneg T {_ _}.
Arguments align_of_pow2 T {_ _}.
Arguments align_of_max T {_ _}.
Arguments align_of_size T {_ _}.
Arguments zst_iff T {_ _}.
Arguments zst_unique T {_ _}.

(** ** [ArrayLayout] *)

Record ArrayLayout := MkArrayLayout { alen : Z }.

Definition ArrayLayout_empty : ArrayLayout := MkArrayLayout 0.

Definition ArrayLayout_new T `{RType T} (len : Z) : result LayoutError ArrayLayout :=
  match checked_mul len (size_of T) with
  | Some size => if size <=? ISIZE_MAX then Ok (MkArrayLayout len) else Err MkLayoutError
  | None => Err MkLayoutError
  end.

Definition ArrayLayout_new_unchecked (len : Z) : ArrayLayout := MkArrayLayout len.

Definition ArrayLayout_len (l : ArrayLayout) : Z := alen l.

Definition ArrayLayout_is_empty (l : ArrayLayout) : bool := alen l =? 0.

(** The documented invariant: [len * size_of::<T>() <= isize::MAX]. *)
Definition ArrayLayout_ok T `{RType T} (l : ArrayLayout) : Prop :=
  is_usize (alen l) ∧ alen l * size_of T ≤ ISIZE_MAX.

(** [Layout::array::<T>(n)] of the core library. *)
Definition Layout_array T `{RType T} (n : Z) : option Layout :=
  match checked_mul n (size_of T) with
  | Some size =>
      if size <=? ISIZE_MAX - (align_of T - 1) then Some (MkLayout size (align_of T)) else None
  | None => None
  end.

(** [From<ArrayLayout<T>> for Layout]: [unwrap_unchecked] of [Layout::array]. *)
Definition ArrayLayout_into T `{RType T} (l : ArrayLayout) : exec Layout :=
  match Layout_array T (alen l) with Some l => Done l | None => UB end.

(** ** Allocation flags *)

Record Flags := MkFlags { as_raw : Z }.

#[export] Instance Flags_eq_dec : EqDecision Flags.
Proof. solve_decision. Defined.

Definition flags_or (a b : Flags) : Flags := MkFlags (Z.lor (as_raw a) (as_raw b)).
Definition flags_and (a b : Flags) : Flags := MkFlags (Z.land (as_raw a) (as_raw b)).
Definition flags_not (a : Flags) : Flags := MkFlags (wrap 32 (Z.lnot (as_raw a))).
Definition flags_contains (a b : Flags) : bool := bool_decide (flags_and a b = b).

Definition __GFP_ZERO : Flags := MkFlags 256.
Definition GFP_KERNEL : Flags := MkFlags (Z.lor (Z.lor (Z.lor 1024 2048) 64) 128).
Definition GFP_ATOMIC : Flags := MkFlags (Z.lor 32 2048).

(** ** The heap

    A heap maps the address of a live allocation to its block: the usable size
    and the initialised cells, keyed by byte offset. The cell type is the type of
    the objects the client stores. *)

Record block (C : Type) := Block { bsize : Z; bdata : gmap Z C }.
Arguments Block {C} _ _.
Arguments bsize {C} _.
Arguments bdata {C} _.

Definition heap_ok {C} (h : gmap Z (block C)) : Prop :=
  ∀ p b, h !! p = Some b → 0 < p ∧ 0 ≤ bsize b.

(** ** The [Allocator] trait *)

Class Allocator (C : Type) :=
  realloc : gmap Z (block C) → option Z → Layout → Layout → Flags →
            gmap Z (block C) * result AllocError (Z * Z).
#[global] Hint Mode Allocator ! : typeclass_instances.

(** The provided methods. *)
Definition alloc `{Allocator C} (h : gmap Z (block C)) (l : Layout) (fl : Flags) :=
  realloc h None l layout_unit fl.

Definition free `{Allocator C} (h : gmap Z (block C)) (p : Z) (l : Layout) : gmap Z (block C) :=
  fst (realloc h (Some p) layout_unit l (MkFlags 0)).

Definition dangling_from_layout (l : Layout) : Z := lalign l.

(** The allocation a call of [realloc] takes over: none for [None] and none
    when [old_layout] is zero-sized. *)
Definition owned (ptr : option Z) (old : Layout) : option Z :=
  if lsize old =? 0 then None else ptr.

Definition take_owned {C} (h : gmap Z (block C)) (o : option Z) : gmap Z (block C) :=
  match o with Some p => delete p h | None => h end.

(** The safety requirements of [realloc]. *)
Definition realloc_pre {C} (h : gmap Z (block C)) (ptr : option Z) (l old : Layout) : Prop :=
  heap_ok h ∧ layout_ok l ∧ layout_ok old ∧
  ∀ p, owned ptr old = Some p → ∃ b, h !! p = Some b ∧ lsize old ≤ bsize b.

(** The guarantees of [realloc]: on error nothing changes; a request of zero bytes
    frees; otherwise the result is a live block of at least the requested size
    and alignment, distinct from every other allocation, that keeps the contents
    up to the lesser of the two sizes. *)
Definition realloc_post {C} (h : gmap Z (block C)) (ptr : option Z) (l old : Layout)
    (out : gmap Z (block C) * result AllocError (Z * Z)) : Prop :=
  match out with
  | (h', Err _) => h' = h
  | (h', Ok (p', n)) =>
      if lsize l =? 0 then h' = take_owned h (owned ptr old) ∧ p' = lalign l
      else take_owned h (owned ptr old) !! p' = None ∧ 0 < p' ∧ (lalign l | p') ∧
        ∃ b', h' = <[p' := b']> (take_owned h (owned ptr old)) ∧
          lsize l ≤ n ≤ bsize b' ∧
          ∀ p b o, owned ptr old = Some p → h !! p = Some b →
            o < Z.min (lsize l) (lsize old) → bdata b' !! o = bdata b !! o
  end.

Class AllocatorSpec (C : Type) `{Allocator C} : Prop := {
  realloc_spec : ∀ (h : gmap Z (block C)) ptr l old fl,
    realloc_pre h ptr l old → realloc_post h ptr l old (realloc h ptr l old fl);
  (** Freeing succeeds: the request has no size and the least alignment. *)
  realloc_unit : ∀ (h : gmap Z (block C)) ptr old fl, is_ok (snd (realloc h ptr layout_unit old fl)) = true
}.
#[global] Hint Mode AllocatorSpec ! - : typeclass_instances.

(** ** The kernel allocators *)

(** [krealloc], [vrealloc] and [kvrealloc]: pointer ([0] is [NULL]), size, flags. *)
Definition realloc_fn (C : Type) : Type :=
  gmap Z (block C) → Z → Z → Z → gmap Z (block C) * Z.

(** Their documented behaviour. [amax] bounds the alignments the function respects
    (a page for the [vmalloc] family, none for [kmalloc]). *)
Class ReallocFnSpec {C} (amax : option Z) (kr : realloc_fn C) : Prop := {
  kr_zero_null : ∀ h fl, fst (kr h 0 0 fl) = h;
  kr_zero : ∀ h p fl, p ≠ 0 → is_Some (h !! p) → fst (kr h p 0 fl) = delete p h;
  kr_fail : ∀ h p n fl h', 0 < n → kr h p n fl = (h', 0) → h' = h;
  kr_ok : ∀ h p n fl h' p', 0 < n → (p = 0 ∨ is_Some (h !! p)) → heap_ok h →
    kr h p n fl = (h', p') → p' ≠ 0 →
    delete p h !! p' = None ∧ 0 < p' ∧
    (∀ a, pow2 a → (a | n) → (∀ m, amax = Some m → a ≤ m) → (a | p')) ∧
    ∃ b', h' = <[p' := b']> (delete p h) ∧ n ≤ bsize b' ∧
      ∀ b o, h !! p = Some b → o < Z.min (bsize b) n → bdata b' !! o = bdata b !! o
}.

Definition aligned_size (new_layout : Layout) : Z := lsize (pad_to_align new_layout).

Definition ReallocFunc_call {C} (self : realloc_fn C) (h : gmap Z (block C)) (ptr : option Z)
    (layout old_layout : Layout) (flags : Flags) :
    gmap Z (block C) * result AllocError (Z * Z) :=
  let size := aligned_size layout in
  let ptr :=
    match ptr with
    | Some p => if lsize old_layout =? 0 then 0 else p
    | None => 0
    end in
  let '(h', raw_ptr) := self h ptr size (as_raw flags) in
  if size =? 0 then (h', Ok (dangling_from_layout layout, size))
  else if raw_ptr =? 0 then (h', Err MkAllocError)
  else (h', Ok (raw_ptr, size)).

Definition PAGE_SIZE : Z := 4096.

Definition Kmalloc {C} (krealloc : realloc_fn C) : Allocator C :=
  λ h ptr layout old_layout flags, ReallocFunc_call krealloc h ptr layout old_layout flags.

Definition Vmalloc {C} (vrealloc : realloc_fn C) : Allocator C :=
  λ h ptr layout old_layout flags,
    if lalign layout >? PAGE_SIZE then (h, Err MkAllocError)
    else ReallocFunc_call vrealloc h ptr layout old_layout flags.

Definition KVmalloc {C} (kvrealloc : realloc_fn C) : Allocator C :=
  λ h ptr layout old_layout flags,
    if lalign layout >? PAGE_SIZE then (h, Err MkAllocError)
    else ReallocFunc_call kvrealloc h ptr layout old_layout flags.

(** ** Lemmas on layouts *)

Lemma pow2_pos a : pow2 a → 0 < a.
Proof. intros (k & ? & ->). apply Z.pow_pos_nonneg; lia. Qed.
#[export] Hint Resolve pow2_pos : rust.

Lemma round_up_ge n a : 0 < a → n ≤ round_up n a.
Proof. intros Ha. unfold round_up. pose proof (Z.div_mod (n + a - 1) a ltac:(lia)).
  pose proof (Z.mod_pos_bound (n + a - 1) a Ha). lia. Qed.

Lemma round_up_div n a : (a | round_up n a).
Proof. unfold round_up. apply Z.divide_factor_r. Qed.

Lemma round_up_id n a : 0 < a → (a | n) → round_up n a = n.
Proof.
  intros Ha [k ->]. unfold round_up.
  replace (k * a + a - 1) with (a - 1 + k * a) by lia.
  rewrite Z.div_add, Z.div_small by lia. lia.
Qed.

Lemma round_up_zero n a : 0 < a → 0 ≤ n → round_up n a = 0 ↔ n = 0.
Proof.
  intros Ha Hn. split.
  - pose proof (round_up_ge n a Ha). lia.
  - intros ->. apply round_up_id; [done|]. apply Z.divide_0_r.
Qed.

Lemma layout_unit_ok : layout_ok layout_unit.
Proof. split_and!; [done| |]. - by exists 0. - vm_compute. congruence. Qed.
#[export] Hint Resolve layout_unit_ok : rust.

Section ArrayLayouts.
Context `{RTypeOk T}.

Lemma size_of_pos : zst_value T = None → 0 < size_of T.
Proof.
  intros Hz. destruct (decide (size_of T = 0)) as [E|].
  - apply (zst_iff T) in E as [v Hv]. congruence.
  - pose proof (size_of_nonneg T). lia.
Qed.

(** The largest multiple of a power of two below [2^63] leaves room for padding. *)
Lemma isize_room n a : pow2 a → (a | n) → a ≤ 2 ^ 62 → n ≤ ISIZE_MAX → n ≤ ISIZE_MAX - (a - 1).
Proof.
  intros (k & Hk & ->) [m ->] Ha Hn.
  assert (k ≤ 62) by (apply Z.pow_le_mono_r_iff with 2; lia).
  assert (2 ^ 63 = 2 ^ (63 - k) * 2 ^ k) as E by (rewrite <- Z.pow_add_r by lia; f_equal; lia).
  unfold ISIZE_MAX in *. rewrite E in *.
  assert (0 < 2 ^ k) by (apply Z.pow_pos_nonneg; lia).
  assert (m < 2 ^ (63 - k)) by nia. nia.
Qed.

Lemma ArrayLayout_new_ok len l :
  is_usize len → ArrayLayout_new T len = Ok l → alen l = len ∧ ArrayLayout_ok T l.
Proof.
  unfold ArrayLayout_new, checked_mul. intros Hl.
  destruct (Z.leb_spec (len * size_of T) USIZE_MAX); [|done].
  destruct (Z.leb_spec (len * size_of T) ISIZE_MAX); intros [= <-]. done.
Qed.

(** The layout of an array that meets the invariant of [ArrayLayout]. *)
Definition array_layout (n : Z) : Layout := MkLayout (n * size_of T) (align_of T).

Lemma array_layout_ok n : is_usize n → n * size_of T ≤ ISIZE_MAX → layout_ok (array_layout n).
Proof.
  intros Hn Hs. pose proof (align_of_pow2 T). pose proof (size_of_nonneg T).
  split_and!; simpl; [|done|].
  - destruct Hn. nia.
  - rewrite round_up_id; [done|by apply pow2_pos|].
    apply Z.divide_mul_r, (align_of_size T).
Qed.

(** The invariant of [ArrayLayout] makes the [unwrap_unchecked] of its conversion
    to [Layout] sound: the alignment padding cannot overflow either. *)
Lemma ArrayLayout_into_ok l :
  ArrayLayout_ok T l → ArrayLayout_into T l = Done (array_layout (alen l)).
Proof.
  intros [Hu Hs]. unfold ArrayLayout_into, Layout_array.
  rewrite checked_mul_Some by usize.
  rewrite (proj2 (Z.leb_le _ _)); [done|].
  apply isize_room; [apply (align_of_pow2 T)| | |done].
  - apply Z.divide_mul_r, (align_of_size T).
  - pose proof (align_of_max T). lia.
Qed.

Lemma ArrayLayout_empty_ok : ArrayLayout_ok T ArrayLayout_empty.
Proof. split; simpl; usize. Qed.
End ArrayLayouts.
Arguments array_layout T {_} n.
#[export] Hint Resolve ArrayLayout_empty_ok array_layout_ok : rust.

(** ** Lemmas on the allocators *)

Section Calls.
Context {C : Type}.
Implicit Types (h : gmap Z (block C)).

Lemma heap_ok_null h : heap_ok h → h !! 0 = None.
Proof. intros Hh. destruct (h !! 0) as [b|] eqn:E; [|done]. apply Hh in E. lia. Qed.

Lemma heap_ok_delete h p : heap_ok h → heap_ok (delete p h).
Proof. intros Hh q b [_ Hq]%lookup_delete_Some. eauto. Qed.

Lemma heap_ok_insert h p b : heap_ok h → 0 < p → 0 ≤ bsize b → heap_ok (<[p := b]> h).
Proof.
  intros Hh Hp Hb q b'. rewrite lookup_insert_Some. intros [[<- <-]|[_ ?]]; eauto.
Qed.

(** The pointer that [ReallocFunc::call] hands to C. *)
Lemma owned_spec h (ptr : option Z) (old : Layout) :
  heap_ok h →
  (∀ p, owned ptr old = Some p → ∃ b, h !! p = Some b ∧ lsize old ≤ bsize b) →
  ∃ q, match ptr with Some p => if lsize old =? 0 then 0 else p | None => 0 end = q ∧
    take_owned h (owned ptr old) = delete q h ∧
    ((q = 0 ∧ owned ptr old = None) ∨
     (q ≠ 0 ∧ owned ptr old = Some q ∧ ∃ b, h !! q = Some b ∧ lsize old ≤ bsize b)).
Proof.
  intros Hh Ho. unfold owned in *.
  assert (delete 0 h = h) as E0 by (apply delete_id, heap_ok_null, Hh).
  destruct ptr as [p|]; destruct (lsize old =? 0); simpl;
    try solve [exists 0; rewrite E0; auto].
  destruct (Ho p eq_refl) as (b & Hb & Hs). exists p. split_and!; [done..|].
  right. split; [apply Hh in Hb; lia|eauto].
Qed.

(** [ReallocFunc::call] turns the contract of the C functions into the guarantees
    of the trait, for every layout whose alignment the function respects. *)
Lemma ReallocFunc_call_post amax (kr : realloc_fn C) `{!ReallocFnSpec amax kr} h ptr l old fl :
  (∀ m, amax = Some m → lalign l ≤ m) →
  realloc_pre h ptr l old → realloc_post h ptr l old (ReallocFunc_call kr h ptr l old fl).
Proof.
  intros Ha (Hh & (Hl0 & Hlp & Hls) & Hold & Ho).
  destruct (owned_spec h ptr old Hh Ho) as (q & Hq & Ht & Hown).
  unfold ReallocFunc_call, aligned_size, pad_to_align. rewrite Hq. cbn [lsize].
  pose proof (pow2_pos _ Hlp) as Hap.
  pose proof (round_up_ge (lsize l) (lalign l) Hap) as Hge.
  destruct (kr h q (round_up (lsize l) (lalign l)) (as_raw fl)) as [h' p'] eqn:Hk.
  destruct (Z.eqb_spec (round_up (lsize l) (lalign l)) 0) as [E|E].
  - assert (lsize l = 0) as E' by (by apply round_up_zero in E).
    rewrite E in Hk. unfold realloc_post. rewrite E', Z.eqb_refl, Ht.
    split; [|done]. apply (f_equal fst) in Hk; simpl in Hk; subst h'.
    destruct Hown as [[-> _]|(Hq0 & _ & b & Hb & _)].
    + rewrite kr_zero_null, delete_id; [done|by apply heap_ok_null].
    + by apply kr_zero.
  - assert (0 < lsize l) by (rewrite round_up_zero in E by lia; lia).
    destruct (Z.eqb_spec p' 0) as [->|Hp']; simpl.
    { eapply kr_fail; [|exact Hk]. lia. }
    rewrite (proj2 (Z.eqb_neq _ _)) by lia. rewrite Ht.
    destruct (kr_ok h q (round_up (lsize l) (lalign l)) _ h' p' ltac:(lia)
      ltac:(destruct Hown as [[-> _]|(_ & _ & b & -> & _)]; eauto) Hh Hk Hp')
      as (Hf & Hpos & Hal & b' & -> & Hsz & Hdata).
    split_and!; [done..| |].
    { apply Hal; [done|apply round_up_div|done]. }
    exists b'. split_and!; [done|lia|lia|].
    intros p b o Hp Hb Hm. destruct Hown as [[_ Hn]|(_ & Hs & b0 & Hb0 & Hsz0)]; simplify_eq.
    apply Hdata; [done|]. lia.
Qed.

Lemma ReallocFunc_call_unit (kr : realloc_fn C) h ptr old fl :
  is_ok (snd (ReallocFunc_call kr h ptr layout_unit old fl)) = true.
Proof. unfold ReallocFunc_call. by destruct (kr _ _ _ _). Qed.

#[export] Instance Kmalloc_spec (kr : realloc_fn C) `{!ReallocFnSpec None kr} :
  @AllocatorSpec C (Kmalloc kr).
Proof.
  split; intros.
  - by eapply ReallocFunc_call_post; [exact _|done|].
  - apply ReallocFunc_call_unit.
Qed.

Lemma paged_spec (kr : realloc_fn C) `{!ReallocFnSpec (Some PAGE_SIZE) kr} h ptr l old fl :
  realloc_pre h ptr l old →
  realloc_post h ptr l old
    (if lalign l >? PAGE_SIZE then (h, Err MkAllocError)
     else ReallocFunc_call kr h ptr l old fl).
Proof.
  intros Hpre. rewrite Z.gtb_ltb. destruct (Z.ltb_spec PAGE_SIZE (lalign l)); [done|].
  eapply ReallocFunc_call_post; [exact _| |done]. intros m [= <-]. done.
Qed.

#[export] Instance Vmalloc_spec (kr : realloc_fn C) `{!ReallocFnSpec (Some PAGE_SIZE) kr} :
  @AllocatorSpec C (Vmalloc kr).
Proof. split; intros; [by apply paged_spec | apply ReallocFunc_call_unit]. Qed.

#[export] Instance KVmalloc_spec (kr : realloc_fn C) `{!ReallocFnSpec (Some PAGE_SIZE) kr} :
  @AllocatorSpec C (KVmalloc kr).
Proof. split; intros; [by apply paged_spec | apply ReallocFunc_call_unit]. Qed.
End Calls.

(** ** A reference allocation function

    A concrete function with the documented behaviour: it refuses requests above
    [limit] and otherwise takes a fresh address that is a multiple of the size. *)

Definition ref_realloc {C} (limit : Z) : realloc_fn C := λ h p n _,
  if n =? 0 then ((if p =? 0 then h else delete p h), 16)
  else if limit <? n then (h, 0)
  else let p' := n * (1 + max_key h) in
    let d := match h !! p with Some b => bdata b | None => ∅ end in
    (<[p' := Block n d]> (delete p h), p').

#[export] Instance ref_realloc_spec {C} limit amax : @ReallocFnSpec C amax (ref_realloc limit).
Proof.
  split; unfold ref_realloc.
  - done.
  - intros h p fl Hp _. simpl. by rewrite (proj2 (Z.eqb_neq p 0)).
  - intros h p n fl h' Hn. rewrite (proj2 (Z.eqb_neq n 0)) by lia.
    destruct (limit <? n); [by intros [= <-]|]. intros [= _ H].
    pose proof (foldr_max_nonneg (map_to_list h).*1). unfold max_key in *. nia.
  - intros h p n fl h' p' Hn Hp Hh. rewrite (proj2 (Z.eqb_neq n 0)) by lia.
    destruct (limit <? n); [by intros [= <- <-]|]. intros [= <- <-] Hp'.
    pose proof (foldr_max_nonneg (map_to_list h).*1) as Hm. fold (max_key h) in Hm.
    split_and!.
    + apply lookup_delete_None. right. apply eq_None_not_Some. intros [b E].
      apply max_key_ge in E. nia.
    + nia.
    + intros a _ Ha _. by apply Z.divide_mul_l.
    + eexists. split; [done|]. split; [simpl; lia|]. simpl. by intros b o ->.
Qed.

(** ** Properties *)

(** C16: the three kernel allocators provide what the [Allocator] trait documents,
    for every function that behaves as the kernel documents [krealloc] and
    [kvrealloc]/[vrealloc]: a failed call leaves the heap alone, a zero-sized
    request frees, a successful one returns a fresh, non-null, aligned block of at
    least the requested size that keeps the contents up to the lesser size. *)
Theorem kernel_allocators_refine_trait {C} (krealloc vrealloc : realloc_fn C)
    (Hk : ReallocFnSpec None krealloc) (Hv : ReallocFnSpec (Some PAGE_SIZE) vrealloc)
    h ptr l old fl (Hpre : realloc_pre h ptr l old) :
  realloc_post h ptr l old (Kmalloc krealloc h ptr l old fl) ∧
  realloc_post h ptr l old (Vmalloc vrealloc h ptr l old fl) ∧
  realloc_post h ptr l old (KVmalloc vrealloc h ptr l old fl).
Proof. split_and!; by apply realloc_spec. Qed.

Lemma kernel_allocators_refine_trait_witness :
  realloc_post (C := Z) ∅ None (MkLayout 24 8) layout_unit
    (Kmalloc (ref_realloc 4096) ∅ None (MkLayout 24 8) layout_unit GFP_KERNEL).
Proof.
  refine (proj1 (kernel_allocators_refine_trait (ref_realloc 4096) (ref_realloc 4096) _ _
    ∅ None (MkLayout 24 8) layout_unit GFP_KERNEL _)).
  split_and!.
  - intros p b Hb. by rewrite lookup_empty in Hb.
  - split_and!; [done|by exists 3|vm_compute; congruence].
  - apply layout_unit_ok.
  - intros p [=].
Defined.

(** The conversion of an [ArrayLayout] to a [Layout] never reaches its
    [unwrap_unchecked] on [None]: every length that [ArrayLayout::new] accepts
    yields the layout of [[T; len]], valid also after padding to its alignment;
    the lengths it refuses are those whose byte size exceeds [isize::MAX]. *)
Theorem array_layout_sound {T} `{RTypeOk T} (len : Z) (Hlen : is_usize len) :
  match ArrayLayout_new T len with
  | Ok l => ArrayLayout_into T l = Done (array_layout T len) ∧
            layout_ok (array_layout T len) ∧ len * size_of T ≤ ISIZE_MAX
  | Err _ => ISIZE_MAX < len * size_of T
  end.
Proof.
  destruct (ArrayLayout_new T len) as [l|e] eqn:E.
  - destruct (ArrayLayout_new_ok _ _ Hlen E) as [<- Hok].
    rewrite ArrayLayout_into_ok by done. destruct Hok as [Hu Hs].
    split_and!; [done|by apply array_layout_ok|done].
  - unfold ArrayLayout_new, checked_mul in E.
    destruct (Z.leb_spec (len * size_of T) USIZE_MAX) as [?|?]; [|usize].
    by destruct (Z.leb_spec (len * size_of T) ISIZE_MAX).
Qed.

(** [u64] and [()] as instances of the type interface. *)
#[export] Instance u64_type : RType Z := {| size_of := 8; align_of := 8; zst_value := None |}.

#[export] Instance u64_type_ok : RTypeOk Z.
Proof.
  split; simpl.
  - usize.
  - by exists 3.
  - lia.
  - by exists 1.
  - split; [done|]. by intros [? ?].
  - done.
Qed.

#[export] Instance unit_type : RType unit :=
  {| size_of := 0; align_of := 1; zst_value := Some tt |}.

#[export] Instance unit_type_ok : RTypeOk unit.
Proof.
  split; simpl.
  - usize.
  - by exists 0.
  - lia.
  - apply Z.divide_0_r.
  - by split.
  - by intros [] [].
Qed.

Lemma array_layout_sound_witness :
  is_usize (2 ^ 60) ∧ ArrayLayout_new Z (2 ^ 60) = Err MkLayoutError ∧
  ISIZE_MAX < 2 ^ 60 * size_of Z.
Proof.
  split_and!; [usize|reflexivity|]. exact (array_layout_sound (T := Z) (2 ^ 60) ltac:(usize)).
Defined.
