(* ===== verification/AllocTest.v ===== *)
(** * The allocator of host tests ([rust/src/alloc/allocator_test.rs])

    [Cmalloc] stands in for the kernel allocators: a new block from [aligned_alloc], a copy and a
    [free] instead of one call of [krealloc]. It meets the contract of the trait (Alloc), so that what
    is proved about clients holds in tests as well. The two functions of libc are parameters. *)

From S2P Require Import Prelude Errors Alloc.

(** ** libc *)

(** [aligned_alloc] (0 is [NULL]) and [free]. *)
Class Libc (C : Type) := {
  libc_aligned_alloc : gmap Z (block C) → Z → Z → gmap Z (block C) * Z;
  libc_free : gmap Z (block C) → Z → gmap Z (block C)
}.

(** As documented: the size is a multiple of the alignment, a power of two that pointers divide. *)
Class LibcSpec (C : Type) `{Libc C} : Prop := {
  aligned_alloc_fail : ∀ (h : gmap Z (block C)) a n h', pow2 a → libc_aligned_alloc h a n = (h', 0) → h' = h;
  aligned_alloc_ok : ∀ (h : gmap Z (block C)) a n h' p,
    pow2 a → (8 | a) → (a | n) → 0 < n → heap_ok h → libc_aligned_alloc h a n = (h', p) → p ≠ 0 →
    h !! p = None ∧ 0 < p ∧ (a | p) ∧ ∃ d, h' = <[p := Block n d]> h;
  free_null : ∀ (h : gmap Z (block C)), libc_free h 0 = h;
  free_live : ∀ (h : gmap Z (block C)) p, p ≠ 0 → is_Some (h !! p) → libc_free h p = delete p h
}.

Section Cmalloc.
Context {C : Type} `{Libc C}.
(** What [n] zero bytes are as cells. *)
Context (zero_cells : Z → gmap Z C).

(** [Layout::align_to]. *)
Definition align_to (l : Layout) (a : Z) : option Layout :=
  let a := Z.max (lalign l) a in
  if lsize l <=? ISIZE_MAX - (a - 1) then Some (MkLayout (lsize l) a) else None.

Definition write_zeros (h : gmap Z (block C)) (p n : Z) : exec (gmap Z (block C)) :=
  match h !! p with
  | Some b => if n <=? bsize b
              then Done (<[p := Block (bsize b) (zero_cells n ∪ filter (λ '(o, _), n ≤ o) (bdata b))]> h) else UB
  | None => UB
  end.

(** [copy_nonoverlapping] between two blocks; what is not initialised stays so. *)
Definition copy_blocks (h : gmap Z (block C)) (src dst n : Z) : exec (gmap Z (block C)) :=
  match h !! src, h !! dst with
  | Some b, Some b' =>
      if (src =? dst) || (bsize b <? n) || (bsize b' <? n) then UB
      else Done (<[dst := Block (bsize b')
                    (filter (λ '(o, _), o < n) (bdata b) ∪ filter (λ '(o, _), n ≤ o) (bdata b'))]> h)
  | _, _ => UB
  end.

Definition cmalloc_realloc (h : gmap Z (block C)) (ptr : option Z) (layout old_layout : Layout) (flags : Flags) :
    exec (gmap Z (block C) * result AllocError (Z * Z)) :=
  let src := match ptr with Some src => if lsize old_layout =? 0 then 0 else src | None => 0 end in
  if lsize layout =? 0 then Done (libc_free h src, Ok (dangling_from_layout layout, 0))
  else
    match align_to layout 8 with
    | None => Done (h, Err MkAllocError)
    | Some layout =>
        let layout := pad_to_align layout in
        let '(h', dst) := libc_aligned_alloc h (lalign layout) (lsize layout) in
        if dst =? 0 then Done (h', Err MkAllocError)
        else
          exec_bind (if flags_contains flags __GFP_ZERO then write_zeros h' dst (lsize layout) else Done h') (λ h',
          exec_bind (if negb (src =? 0) then copy_blocks h' src dst (Z.min (lsize layout) (lsize old_layout)) else Done h') (λ h',
          Done (libc_free h' src, Ok (dst, lsize layout))))
    end.

(** *** The contract *)

Context {LS : LibcSpec C}.

Lemma align_to_ok l l' : layout_ok l → align_to l 8 = Some l' →
  pow2 (lalign l') ∧ (8 | lalign l') ∧ (lalign l | lalign l') ∧ lsize l' = lsize l.
Proof.
  intros (_ & (k & Hk & Ha) & _) E. unfold align_to in E. case_match; [|done]. injection E as <-. cbn [lalign lsize].
  destruct (Z.le_gt_cases k 3) as [Hl|Hl].
  - assert (2 ^ k ≤ 2 ^ 3) by (by apply Z.pow_le_mono_r). change (2 ^ 3) with 8 in *. rewrite Z.max_r by lia.
    split; [by exists 3|]. split; [done|]. split; [|done]. rewrite Ha. exists (2 ^ (3 - k)).
    rewrite <- Z.pow_add_r by lia. by replace (3 - k + k) with 3 by lia.
  - assert (2 ^ 3 ≤ 2 ^ k) by (apply Z.pow_le_mono_r; lia). change (2 ^ 3) with 8 in *. rewrite Z.max_l by lia.
    split; [by exists k|]. split; [|done]. rewrite Ha. exists (2 ^ (k - 3)). change 8 with (2 ^ 3).
    rewrite <- Z.pow_add_r by lia. by replace (k - 3 + 3) with k by lia.
Qed.

(** A block that was made behind the others: what zeroing and copying do to it. *)
Lemma zero_step (h : gmap Z (block C)) dst n d (b : bool) :
  ∃ d', (if b then write_zeros (<[dst := Block n d]> h) dst n else Done (<[dst := Block n d]> h)) =
    Done (<[dst := Block n d']> h).
Proof.
  destruct b; [|by eexists]. unfold write_zeros. rewrite lookup_insert_eq. simpl. rewrite Z.leb_refl.
  eexists. by rewrite insert_insert_eq.
Qed.

Lemma copy_step (h : gmap Z (block C)) src dst n m d b : h !! src = Some b → h !! dst = None → m ≤ bsize b → m ≤ n →
  ∃ d', copy_blocks (<[dst := Block n d]> h) src dst m = Done (<[dst := Block n d']> h) ∧
    ∀ o, o < m → d' !! o = bdata b !! o.
Proof.
  intros Hs Hd Hm Hn. assert (src ≠ dst) as Hne by congruence. unfold copy_blocks.
  rewrite lookup_insert_ne, Hs, lookup_insert_eq by done. cbn [bsize bdata].
  rewrite (proj2 (Z.eqb_neq src dst)), (proj2 (Z.ltb_ge (bsize b) m)), (proj2 (Z.ltb_ge n m)) by done. simpl.
  eexists. rewrite insert_insert_eq. split; [done|]. intros o Ho.
  destruct (bdata b !! o) as [c|] eqn:E.
  - apply lookup_union_Some_l. by apply map_lookup_filter_Some.
  - apply lookup_union_None. rewrite !map_lookup_filter_None. split; [by left|right]. intros c _. lia.
Qed.

Lemma cmalloc_realloc_ok h ptr l old fl (Hpre : realloc_pre h ptr l old) :
  ∃ out, cmalloc_realloc h ptr l old fl = Done out ∧ realloc_post h ptr l old out.
Proof.
  destruct Hpre as (Hh & Hl & Hold & Ho). destruct (owned_spec h ptr old Hh Ho) as (q & Hq & Ht & Hown).
  unfold cmalloc_realloc. rewrite Hq. unfold realloc_post. rewrite Ht.
  destruct (Z.eqb_spec (lsize l) 0) as [Hz|Hz].
  { eexists. split; [done|]. simpl. split; [|done].
    destruct Hown as [[-> _]|(? & _ & b & Hb & _)]; [|by apply free_live; eauto].
    by rewrite free_null, delete_id by (by apply heap_ok_null). }
  destruct (align_to l 8) as [l'|] eqn:El; [|by eexists].
  destruct (align_to_ok _ _ Hl El) as (Hp & H8 & Hd & Hs). unfold pad_to_align. cbn [lalign lsize]. rewrite Hs.
  pose proof (pow2_pos _ Hp) as Hap. pose proof (round_up_ge (lsize l) _ Hap) as Hge. pose proof (round_up_div (lsize l) (lalign l')) as Hdiv.
  set (n := round_up (lsize l) (lalign l')) in *. clearbody n. assert (0 < n) as Hn by (destruct Hl as (? & _); lia).
  destruct (libc_aligned_alloc h (lalign l') n) as [h1 dst] eqn:Ea.
  destruct (Z.eqb_spec dst 0) as [->|Hdst].
  { eexists. split; [done|]. simpl. by eapply aligned_alloc_fail. }
  destruct (aligned_alloc_ok _ _ _ _ _ Hp H8 Hdiv Hn Hh Ea Hdst) as (Hf & Hpos & Hal & d & ->).
  destruct (zero_step h dst n d (flags_contains fl __GFP_ZERO)) as [d1 ->]. cbn [exec_bind].
  destruct Hown as [[-> Hno]|(Hq0 & Hso & b & Hb & Hsz)].
  - simpl. eexists. split; [done|]. rewrite free_null, delete_id by (by apply heap_ok_null).
    split_and!; [done|done|by etrans|]. exists (Block n d1). simpl. split_and!; [done|lia|lia|]. by rewrite Hno.
  - rewrite (proj2 (Z.eqb_neq q 0)) by done. cbn [negb].
    destruct (copy_step h q dst n (Z.min n (lsize old)) d1 b) as (d2 & -> & Hd2); [done|done|lia|lia|].
    cbn [exec_bind]. eexists. split; [done|]. assert (q ≠ dst) as Hne by congruence.
    rewrite free_live by (done || rewrite lookup_insert_ne by done; eauto).
    split_and!; [by rewrite lookup_delete_ne|done|by etrans|].
    exists (Block n d2). rewrite delete_insert_ne by done. simpl. split_and!; [done|lia|lia|].
    intros p b0 o Hp0 Hb0 Ho0. rewrite Hso in Hp0. simplify_eq. apply Hd2. lia.
Qed.

(** [impl Allocator for Cmalloc]; [Kmalloc], [Vmalloc] and [KVmalloc] are this type in host tests. *)
Definition Cmalloc : Allocator C := λ h ptr l old fl,
  match cmalloc_realloc h ptr l old fl with Done out => out | _ => (h, Err MkAllocError) end.

#[export] Instance Cmalloc_spec : @AllocatorSpec C Cmalloc.
Proof.
  split; intros.
  - unfold realloc, Cmalloc. by destruct (cmalloc_realloc_ok h ptr l old fl) as (out & -> & ?).
  - unfold realloc, Cmalloc, cmalloc_realloc. by destruct ptr, (lsize old =? 0).
Qed.
End Cmalloc.

(** The test allocator provides what the [Allocator] trait documents, as the kernel
    allocators do, for every libc: it is always defined; it fails without an effect, frees on a
    request of no bytes, and otherwise returns a fresh block of at least the size and alignment
    asked for that keeps the contents, and frees the old one. *)
Theorem cmalloc_refines_trait {C} `{LibcSpec C} zero_cells h ptr l old fl (Hpre : realloc_pre h ptr l old) :
  ∃ out, cmalloc_realloc zero_cells h ptr l old fl = Done out ∧ realloc_post h ptr l old out.
Proof. by apply cmalloc_realloc_ok. Qed.

(** ** A reference libc *)

Definition ref_libc {C} (limit : Z) : Libc C := {|
  libc_aligned_alloc := λ h a n, if limit <? n then (h, 0) else (<[a * (1 + max_key h) := Block n ∅]> h, a * (1 + max_key h));
  libc_free := λ h p, if p =? 0 then h else delete p h
|}.

#[export] Instance ref_libc_spec {C} limit : @LibcSpec C (ref_libc limit).
Proof.
  split; simpl.
  - intros h a n h' Ha. case_match; [by intros [= <-]|]. intros [= _ E]. apply pow2_pos in Ha.
    pose proof (foldr_max_nonneg (map_to_list h).*1). unfold max_key in *. nia.
  - intros h a n h' p Ha _ _ Hn Hh. case_match; [by intros [= _ <-]|]. intros [= <- <-] _. apply pow2_pos in Ha.
    pose proof (foldr_max_nonneg (map_to_list h).*1) as Hm. fold (max_key h) in Hm. split_and!.
    + apply eq_None_not_Some. intros [b E]. apply max_key_ge in E. nia.
    + nia.
    + by apply Z.divide_factor_l.
    + by eexists.
  - done.
  - intros h p Hp _. by rewrite (proj2 (Z.eqb_neq p 0)).
Qed.

(** A block of 24 bytes at alignment 4 grows to 40 bytes: the new block is aligned to 8. *)
Lemma cmalloc_refines_trait_witness :
  let h := {[4096 := Block 24 {[8 := 7]}]} in
  let H := ref_libc 4096 in
  ∃ out, cmalloc_realloc (λ _, ∅) h (Some 4096) (MkLayout 40 4) (MkLayout 24 4) (MkFlags 0) = Done out ∧
    realloc_post h (Some 4096) (MkLayout 40 4) (MkLayout 24 4) out.
Proof.
  apply (@cmalloc_refines_trait Z (ref_libc 4096) (ref_libc_spec 4096) (λ _, ∅)). split; [|split; [|split]].
  - intros p b. rewrite lookup_singleton_Some. by intros [<- <-].
  - split; [done|]. split; [by exists 2|by vm_compute].
  - split; [done|]. split; [by exists 2|by vm_compute].
  - intros p [= <-]. by eexists.
Defined.
