(* ===== verification/KVec.v ===== *)
(** * The kernel's [Vec] ([rust/src/alloc/kvec.rs])

    A [Vec] is a pointer, the layout of its buffer and a length; its elements live
    in the heap, at byte offsets that are multiples of the element size. Reading
    an uninitialised or out-of-bounds slot is [UB], so the theorems below are about
    the soundness of the unsafe code as well as about the contents. Zero-sized
    elements occupy no memory: reads produce the only value of the type.

    The bodies follow the source one to one; [dropped] logs the values whose
    destructor ran, in order. The representation predicate [vec_rep] relates the
    memory to a list and is the invariant documented on the type. *)

From S2P Require Import Prelude Errors Alloc.

(** ** State *)

Record Vec := MkVec { vptr : Z; vlayout : ArrayLayout; vlen : Z }.

(** A heap, the object under execution and the log of dropped values. *)
Record St (T X : Type) := MkSt { hp : gmap Z (block T); obj : X; dropped : list T }.
Arguments MkSt {T X} _ _ _.
Arguments hp {T X} _.
Arguments obj {T X} _.
Arguments dropped {T X} _.

Definition set_hp {T X} (h : gmap Z (block T)) (s : St T X) : St T X := MkSt h (obj s) (dropped s).
Definition set_obj {T X Y} (x : Y) (s : St T X) : St T Y := MkSt (hp s) x (dropped s).
Definition log_drop {T X} (x : T) (s : St T X) : St T X := MkSt (hp s) (obj s) (dropped s ++ [x]).

(** Errors of [kvec/errors.rs]. *)
Inductive PushError (T : Type) := MkPushError (v : T).
Inductive RemoveError := MkRemoveError.
Inductive InsertError (T : Type) := IndexOutOfBounds (v : T) | OutOfCapacity (v : T).
Arguments MkPushError {T} _.
Arguments IndexOutOfBounds {T} _.
Arguments OutOfCapacity {T} _.

#[export] Instance from_PushError {T} : IntoError (PushError T) := λ _, EINVAL.
#[export] Instance from_RemoveError : IntoError RemoveError := λ _, EINVAL.
#[export] Instance from_InsertError {T} : IntoError (InsertError T) := λ _, EINVAL.

(** ** Typed memory accesses *)

Section Memory.
Context {T : Type} {RT : RType T}.

Definition in_bounds (b : block T) (off : Z) : bool :=
  (0 <=? off) && (off + size_of T <=? bsize b).

(** [ptr::read] at byte offset [off] of the block at [p]. *)
Definition read_at (h : gmap Z (block T)) (p off : Z) : exec T :=
  match zst_value T with
  | Some v => Done v
  | None =>
      match h !! p with
      | Some b =>
          if in_bounds b off then
            match bdata b !! off with Some x => Done x | None => UB end
          else UB
      | None => UB
      end
  end.

(** [ptr::write]. *)
Definition write_at (h : gmap Z (block T)) (p off : Z) (x : T) : exec (gmap Z (block T)) :=
  match zst_value T with
  | Some _ => Done h
  | None =>
      match h !! p with
      | Some b =>
          if in_bounds b off then Done (<[p := Block (bsize b) (<[off := x]> (bdata b))]> h)
          else UB
      | None => UB
      end
  end.

(** The cells after [ptr::copy] of [n] elements from offset [src] to [dst]; the
    ranges may overlap. *)
Definition move_cells (d : gmap Z T) (src dst n : Z) : gmap Z T :=
  foldr (λ k acc, partial_alter (λ _, d !! (src + k * size_of T)) (dst + k * size_of T) acc)
    d (seqZ 0 n).

(** [ptr::copy] inside one allocation. *)
Definition copy_at (h : gmap Z (block T)) (p src dst n : Z) : exec (gmap Z (block T)) :=
  if n =? 0 then Done h else
  match zst_value T with
  | Some _ => Done h
  | None =>
      match h !! p with
      | Some b =>
          if (0 <=? src) && (0 <=? dst) && (src + n * size_of T <=? bsize b)
             && (dst + n * size_of T <=? bsize b)
          then Done (<[p := Block (bsize b) (move_cells (bdata b) src dst n)]> h)
          else UB
      | None => UB
      end
  end.

Definition read {X} (p off : Z) : M (St T X) T := s ← get; lift (read_at (hp s) p off).
Definition write {X} (p off : Z) (x : T) : M (St T X) unit :=
  s ← get; h ← lift (write_at (hp s) p off x); modify (set_hp h).
Definition copy {X} (p src dst n : Z) : M (St T X) unit :=
  s ← get; h ← lift (copy_at (hp s) p src dst n); modify (set_hp h).

(** [drop_in_place] of the elements at the given offsets, in order. *)
Fixpoint drop_at {X} (p : Z) (offs : list Z) : M (St T X) unit :=
  match offs with
  | [] => mret tt
  | o :: offs => x ← read p o; _ ← modify (log_drop x); drop_at p offs
  end.

Definition drop_in_place {X} (p off n : Z) : M (St T X) unit :=
  drop_at p ((λ k, off + k * size_of T) <$> seqZ 0 n).
End Memory.

(** ** Operations *)

Section Ops.
Context {T : Type} {RT : RType T} {AL : Allocator T}.
Local Abbreviation VM := (M (St T Vec)).

Definition is_zst : bool := size_of T =? 0.

Definition capacity (v : Vec) : Z := if is_zst then USIZE_MAX else ArrayLayout_len (vlayout v).

Definition self : VM Vec := s ← get; mret (obj s).
Definition set_self (v : Vec) : VM unit := modify (set_obj v).

Definition with_len (v : Vec) (n : Z) : Vec := MkVec (vptr v) (vlayout v) n.

(** Byte offset of element [i]. *)
Definition off (i : Z) : Z := i * size_of T.

Definition inc_len (additional : Z) : VM unit :=
  v ← self;
  room ← lift (usub (capacity v) (vlen v));
  if additional <=? room then n ← lift (uadd (vlen v) additional); set_self (with_len v n)
  else panic.

(** Returns the range of the elements it relinquishes. *)
Definition dec_len (count : Z) : VM (Z * Z) :=
  v ← self;
  if count <=? vlen v then
    n ← lift (usub (vlen v) count);
    _ ← set_self (with_len v n);
    mret (n, count)
  else panic.

Definition is_empty (v : Vec) : bool := vlen v =? 0.

Definition new : Vec := MkVec (align_of T) ArrayLayout_empty 0.

(** The range of the slots past the elements. *)
Definition spare_capacity_mut : VM (Z * Z) :=
  v ← self; n ← lift (usub (capacity v) (vlen v)); mret (vlen v, n).

Definition reserve (additional : Z) (flags : Flags) : VM (result AllocError unit) :=
  v ← self;
  let len := vlen v in
  let cap := capacity v in
  room ← lift (usub cap len);
  if additional <=? room then mret (Ok tt)
  else if is_zst then mret (Err MkAllocError)
  else
    cap2 ← lift (umul cap 2);
    need ←? mret (ok_or (checked_add len additional) MkAllocError);
    let new_cap := Z.max cap2 need in
    layout ←? mret (result_map_err (λ _, MkAllocError) (ArrayLayout_new T new_cap));
    l ← lift (ArrayLayout_into T layout);
    old ← lift (ArrayLayout_into T (vlayout v));
    s ← get;
    let '(h, r) := realloc (hp s) (Some (vptr v)) l old flags in
    _ ← modify (set_hp h);
    out ←? mret r;
    _ ← set_self (MkVec (fst out) layout (vlen v));
    mret (Ok tt).

Definition push_within_capacity_unchecked (x : T) : VM unit :=
  spare ← spare_capacity_mut;
  v ← self;
  if 0 <? snd spare then _ ← write (vptr v) (off (fst spare)) x; inc_len 1 else ub.

(** A value that goes out of scope. *)
Definition drop_value (x : T) : VM unit := modify (log_drop x).

(** [x] is dropped when [reserve] fails. *)
Definition push (x : T) (flags : Flags) : VM (result AllocError unit) :=
  r ← reserve 1 flags;
  match r with
  | Ok _ => _ ← push_within_capacity_unchecked x; mret (Ok tt)
  | Err e => _ ← drop_value x; mret (Err e)
  end.

Definition push_within_capacity (x : T) : VM (result (PushError T) unit) :=
  v ← self;
  if vlen v <? capacity v then
    _ ← push_within_capacity_unchecked x; mret (Ok tt)
  else mret (Err (MkPushError x)).

Definition insert_within_capacity (index : Z) (element : T) : VM (result (InsertError T) unit) :=
  v ← self;
  let len := vlen v in
  if len <? index then mret (Err (IndexOutOfBounds element))
  else if capacity v <=? len then mret (Err (OutOfCapacity element))
  else
    n ← lift (usub len index);
    _ ← copy (vptr v) (off index) (off (index + 1)) n;
    _ ← write (vptr v) (off index) element;
    _ ← inc_len 1;
    mret (Ok tt).

Definition pop : VM (option T) :=
  v ← self;
  if is_empty v then mret None
  else
    range ← dec_len 1;
    if 0 <? snd range then x ← read (vptr v) (off (fst range)); mret (Some x) else ub.

(** [slice::get]. *)
Definition slice_get (i : Z) : VM (option T) :=
  v ← self;
  if (0 <=? i) && (i <? vlen v) then x ← read (vptr v) (off i); mret (Some x) else mret None.

Definition remove (i : Z) : VM (result RemoveError T) :=
  value ← slice_get i;
  value ←? mret (ok_or value MkRemoveError);
  v ← self;
  a ← lift (usub (vlen v) i);
  n ← lift (usub a 1);
  _ ← copy (vptr v) (off (i + 1)) (off i) n;
  _ ← dec_len 1;
  mret (Ok value).

(** [Drop for Vec]. *)
Definition vec_drop : VM unit :=
  v ← self;
  _ ← drop_in_place (vptr v) 0 (vlen v);
  l ← lift (ArrayLayout_into T (vlayout v));
  s ← get;
  modify (set_hp (free (hp s) (vptr v) l)).

(** The local vector is dropped when [reserve] fails. *)
Definition with_capacity (capacity : Z) (flags : Flags) : VM (result AllocError unit) :=
  _ ← set_self new;
  r ← reserve capacity flags;
  match r with
  | Ok _ => mret (Ok tt)
  | Err e => _ ← vec_drop; mret (Err e)
  end.

Definition from_raw_parts (ptr length capacity : Z) : Vec :=
  let layout := if is_zst then ArrayLayout_empty else ArrayLayout_new_unchecked capacity in
  MkVec ptr layout length.

Definition into_raw_parts (v : Vec) : Z * Z * Z := (vptr v, vlen v, capacity v).

Definition truncate (len : Z) : VM unit :=
  v ← self;
  match checked_sub (vlen v) len with
  | Some count => range ← dec_len count; drop_in_place (vptr v) (off (fst range)) (snd range)
  | None => mret tt
  end.

Definition clear : VM unit := truncate 0.

(** [slice::swap]: the indices are checked. *)
Definition slice_swap (a b : Z) : VM unit :=
  v ← self;
  if (a <? vlen v) && (b <? vlen v) then
    x ← read (vptr v) (off a);
    y ← read (vptr v) (off b);
    _ ← write (vptr v) (off a) y;
    write (vptr v) (off b) x
  else panic.

(** The loop of [retain]; [f] is the [FnMut(&mut T) -> bool]: it threads its own
    state [F], may change the element and decides. [fuel] bounds the iterations. *)
Fixpoint retain_loop {F} (f : F → T → F * T * bool) (fuel : nat) (fs : F)
    (num_kept next_to_check : Z) : VM (F * Z) :=
  match fuel with
  | O => panic
  | S fuel =>
      to_check ← slice_get next_to_check;
      match to_check with
      | None => mret (fs, num_kept)
      | Some x =>
          let '(fs', x', keep) := f fs x in
          v ← self;
          _ ← write (vptr v) (off next_to_check) x';
          if (keep : bool) then
            _ ← slice_swap num_kept next_to_check;
            k ← lift (uadd num_kept 1);
            n ← lift (uadd next_to_check 1);
            retain_loop f fuel fs' k n
          else
            n ← lift (uadd next_to_check 1);
            retain_loop f fuel fs' num_kept n
      end
  end.

Definition retain {F} (f : F → T → F * T * bool) (fuel : nat) (fs : F) : VM F :=
  out ← retain_loop f fuel fs 0 0;
  _ ← truncate (snd out);
  mret (fst out).

(** Writes the values to consecutive slots, as the loops over [spare] do. *)
Fixpoint write_slots (p i : Z) (xs : list T) : VM unit :=
  match xs with
  | [] => mret tt
  | x :: xs => _ ← write p (off i) x; write_slots p (i + 1) xs
  end.

(** [value] is dropped on the early returns. *)
Definition extend_with (clone : T → T) (n : Z) (value : T) (flags : Flags) :
    VM (result AllocError unit) :=
  if n =? 0 then _ ← drop_value value; mret (Ok tt)
  else
    r ← reserve n flags;
    match r with
    | Err e => _ ← drop_value value; mret (Err e)
    | Ok _ =>
        spare ← spare_capacity_mut;
        v ← self;
        m ← lift (usub n 1);
        let k := Z.min m (snd spare) in
        _ ← write_slots (vptr v) (fst spare) (replicate (Z.to_nat k) (clone value));
        if m <? snd spare then
          _ ← write (vptr v) (off (fst spare + m)) value;
          _ ← inc_len n;
          mret (Ok tt)
        else panic
    end.

Definition extend_from_slice (clone : T → T) (other : list T) (flags : Flags) :
    VM (result AllocError unit) :=
  let n := Z.of_nat (length other) in
  _ ←? reserve n flags;
  spare ← spare_capacity_mut;
  v ← self;
  _ ← write_slots (vptr v) (fst spare) (take (Z.to_nat (snd spare)) (clone <$> other));
  _ ← inc_len n;
  mret (Ok tt).

(** On failure [value] and the local vector are dropped. *)
Definition from_elem (clone : T → T) (value : T) (n : Z) (flags : Flags) :
    VM (result AllocError unit) :=
  r ← with_capacity n flags;
  match r with
  | Err e => _ ← drop_value value; mret (Err e)
  | Ok _ =>
      r ← extend_with clone n value flags;
      match r with
      | Ok _ => mret (Ok tt)
      | Err e => _ ← vec_drop; mret (Err e)
      end
  end.

Definition resize (clone : T → T) (new_len : Z) (value : T) (flags : Flags) :
    VM (result AllocError unit) :=
  v ← self;
  match checked_sub new_len (vlen v) with
  | Some n => extend_with clone n value flags
  | None => _ ← truncate new_len; _ ← drop_value value; mret (Ok tt)
  end.

End Ops.
Arguments is_zst T {_}.
Arguments capacity T {_} v.
Arguments off T {_} i.
Arguments new T {_}.
Arguments from_raw_parts T {_} ptr length capacity.
Arguments into_raw_parts T {_} v.

(** ** Representation *)

Section Rep.
Context {T : Type} {RT : RType T}.

(** The value of a slot, if it is initialised and in bounds. *)
Definition slot (h : gmap Z (block T)) (p o : Z) : option T :=
  match read_at h p o with Done x => Some x | _ => None end.

(** The block at [p] holds [n] elements. *)
Definition buf_ok (h : gmap Z (block T)) (p n : Z) : Prop :=
  zst_value T = None → 0 < n → ∃ b, h !! p = Some b ∧ n * size_of T ≤ bsize b.

(** The allocation that a vector owns, and the rest of the heap. *)
Definition own (v : Vec) : option Z := owned (Some (vptr v)) (array_layout T (alen (vlayout v))).
Definition rest (s : St T Vec) : gmap Z (block T) := take_owned (hp s) (own (obj s)).

(** The invariants documented on [Vec]. *)
Record vec_inv (s : St T Vec) : Prop := {
  inv_heap : heap_ok (hp s);
  inv_layout : ArrayLayout_ok T (vlayout (obj s));
  inv_zst : size_of T = 0 → alen (vlayout (obj s)) = 0;
  inv_len : 0 ≤ vlen (obj s) ≤ capacity T (obj s);
  inv_buf : buf_ok (hp s) (vptr (obj s)) (capacity T (obj s))
}.

Definition cells (s : St T Vec) (i : Z) : option T := slot (hp s) (vptr (obj s)) (off T i).

(** [s] holds the elements [l]. *)
Record vec_rep (s : St T Vec) (l : list T) : Prop := {
  rep_inv : vec_inv s;
  rep_len : vlen (obj s) = Z.of_nat (length l);
  rep_cells : ∀ i x, l !! i = Some x → cells s (Z.of_nat i) = Some x
}.

(** [s'] holds [l] and differs from [s] only in the vector. *)
Definition keeps (s s' : St T Vec) (l : list T) : Prop :=
  vec_rep s' l ∧ rest s' = rest s ∧ dropped s' = dropped s.
End Rep.
Arguments own T {_} v.
Arguments cells {T _} s i /.

(** ** Memory lemmas *)

Section MemoryLemmas.
Context {T : Type} {RT : RType T} {RTok : RTypeOk T}.
Implicit Types (h : gmap Z (block T)) (p n i j : Z) (x : T).

Lemma slot_Some h p o x : slot h p o = Some x ↔ read_at h p o = Done x.
Proof. unfold slot. destruct (read_at h p o); naive_solver. Qed.

Lemma slot_zst v h p o : zst_value T = Some v → slot h p o = Some v.
Proof. intros Hz. unfold slot, read_at. by rewrite Hz. Qed.

Lemma zst_value_Some v x : zst_value T = Some v → x = v.
Proof. apply (zst_unique T). Qed.

Lemma is_zst_false : zst_value T = None → is_zst T = false.
Proof. intros Hz. apply Z.eqb_neq. pose proof (size_of_pos Hz). lia. Qed.

Lemma is_zst_true v : zst_value T = Some v → is_zst T = true.
Proof. intros Hz. apply Z.eqb_eq, (zst_iff T). eauto. Qed.

Lemma slot_block h p b i :
  zst_value T = None → h !! p = Some b →
  slot h p (off T i) =
    if decide (0 ≤ i ∧ off T i + size_of T ≤ bsize b) then bdata b !! off T i else None.
Proof.
  intros Hz Hb. pose proof (size_of_pos Hz). unfold slot, read_at, in_bounds.
  rewrite Hz, Hb. assert ((0 <=? off T i) = (0 <=? i)) as ->.
  { unfold off. apply eq_bool_prop_intro. rewrite !Is_true_true, !Z.leb_le. nia. }
  destruct (Z.leb_spec 0 i), (Z.leb_spec (off T i + size_of T) (bsize b)); simpl;
    case_decide; try lia; try done. by destruct (bdata b !! off T i).
Qed.

Lemma off_inj i j : zst_value T = None → off T i = off T j → i = j.
Proof. intros Hz. pose proof (size_of_pos Hz). unfold off. nia. Qed.

(** A write in bounds succeeds, changes one slot and only the block at [p]. *)
Lemma write_at_ok h p n i x :
  buf_ok h p n → 0 ≤ i < n →
  ∃ h', write_at h p (off T i) x = Done h' ∧ buf_ok h' p n ∧ (heap_ok h → heap_ok h') ∧
    (is_Some (zst_value T) → h' = h) ∧ delete p h' = delete p h ∧
    ∀ j, slot h' p (off T j) = if decide (j = i) then Some x else slot h p (off T j).
Proof.
  intros Hb Hi. unfold write_at. destruct (zst_value T) as [v|] eqn:Hz.
  - exists h. split_and!; try done. intros j. case_decide; [|done].
    rewrite (slot_zst v) by done. by rewrite (zst_value_Some v x).
  - destruct (Hb Hz ltac:(lia)) as (b & Hpb & Hn). rewrite Hpb.
    pose proof (size_of_pos Hz) as Hpos.
    assert (off T i + size_of T ≤ n * size_of T) by (unfold off; nia).
    unfold in_bounds. rewrite (proj2 (Z.leb_le 0 _)) by (unfold off; nia).
    rewrite (proj2 (Z.leb_le _ _)) by lia. simpl.
    set (h' := <[p := _]> h). assert (h' !! p = Some (Block (bsize b) (<[off T i := x]> (bdata b))))
      as Hp' by apply lookup_insert_eq.
    exists h'. split_and!; try done.
    + intros _ _. eexists. split; [exact Hp'|done].
    + intros Hh. apply heap_ok_insert; [done|..]; by destruct (Hh _ _ Hpb).
    + apply delete_insert_eq.
    + intros j. rewrite !(slot_block _ _ _ _ Hz Hp'), (slot_block _ _ _ _ Hz Hpb). simpl.
      repeat case_decide; subst; try lia; try done.
      * by rewrite lookup_insert_eq.
      * rewrite lookup_insert_ne; [done|]. intros E. by apply off_inj in E.
Qed.

Lemma move_cells_lookup (d : gmap Z T) src dst n i :
  zst_value T = None → 0 ≤ n →
  move_cells d (off T src) (off T dst) n !! off T i =
    if decide (dst ≤ i < dst + n) then d !! off T (src + (i - dst)) else d !! off T i.
Proof.
  intros Hz Hn. pose proof (size_of_pos Hz) as Hpos. unfold move_cells.
  assert (∀ ks : list Z, NoDup ks →
    foldr (λ k acc, partial_alter (λ _, d !! (off T src + k * size_of T))
      (off T dst + k * size_of T) acc) d ks !! off T i =
    if decide (i - dst ∈ ks) then d !! off T (src + (i - dst)) else d !! off T i) as Hind.
  { intros ks. induction ks as [|k ks IH]; intros Hnd; cbn [foldr].
    { by rewrite decide_False by apply not_elem_of_nil. }
    apply NoDup_cons in Hnd as [Hk Hnd].
    destruct (decide (k = i - dst)) as [->|Hne].
    - rewrite decide_True by apply list_elem_of_here.
      replace (off T dst + (i - dst) * size_of T) with (off T i) by (unfold off; lia).
      rewrite lookup_partial_alter_eq. f_equal. unfold off. lia.
    - rewrite lookup_partial_alter_ne by (unfold off; nia).
      rewrite IH by done. apply decide_ext. rewrite elem_of_cons.
      split; [by right|]. intros [E|Hin]; [by destruct Hne|done]. }
  rewrite Hind by apply NoDup_seqZ.
  apply decide_ext. rewrite elem_of_seqZ. lia.
Qed.

(** [ptr::copy] between ranges of one buffer. *)
Lemma copy_at_ok h p n src dst m :
  buf_ok h p n → 0 ≤ m → 0 ≤ src → 0 ≤ dst → src + m ≤ n → dst + m ≤ n →
  ∃ h', copy_at h p (off T src) (off T dst) m = Done h' ∧ buf_ok h' p n ∧ (heap_ok h → heap_ok h') ∧
    (is_Some (zst_value T) → h' = h) ∧ (m = 0 → h' = h) ∧ delete p h' = delete p h ∧
    ∀ j, slot h' p (off T j) =
      if decide (dst ≤ j < dst + m) then slot h p (off T (src + (j - dst))) else slot h p (off T j).
Proof.
  intros Hb Hm Hs Hd Hsm Hdm. unfold copy_at. destruct (Z.eqb_spec m 0) as [->|Hm0].
  { exists h. split_and!; try done. intros j. case_decide; [lia|done]. }
  destruct (zst_value T) as [v|] eqn:Hz.
  { exists h. split_and!; try done. intros j. rewrite !(slot_zst v) by done. by case_decide. }
  destruct (Hb Hz ltac:(lia)) as (b & Hpb & Hn). rewrite Hpb.
  pose proof (size_of_pos Hz) as Hpos.
  rewrite !(proj2 (Z.leb_le _ _)) by (unfold off; nia). simpl.
  set (h' := <[p := _]> h).
  assert (h' !! p = Some (Block (bsize b) (move_cells (bdata b) (off T src) (off T dst) m)))
    as Hp' by apply lookup_insert_eq.
  exists h'. split_and!; try done.
  - intros _ _. eexists. split; [exact Hp'|done].
  - intros Hh. apply heap_ok_insert; [done|..]; by destruct (Hh _ _ Hpb).
  - apply delete_insert_eq.
  - intros j. rewrite (slot_block _ _ _ _ Hz Hp'), !(slot_block _ _ _ _ Hz Hpb). simpl.
    rewrite (move_cells_lookup _ _ _ _ _ Hz) by lia.
    repeat case_decide; try done; unfold off in *; nia.
Qed.
End MemoryLemmas.

(** ** Specifications of the operations *)

Section Specs.
Context {T : Type} {RT : RType T} {RTok : RTypeOk T} {AL : Allocator T} {ALs : AllocatorSpec T}.
Implicit Types (s : St T Vec) (l : list T) (x : T) (n i j : Z).

Lemma capacity_bound s : vec_inv s → 0 ≤ capacity T (obj s) ≤ USIZE_MAX.
Proof.
  intros Hi. destruct (inv_layout s Hi) as [Hu _]. unfold capacity, ArrayLayout_len.
  destruct (is_zst T); [usize|exact Hu].
Qed.

Lemma inv_with_len s n :
  vec_inv s → 0 ≤ n ≤ capacity T (obj s) → vec_inv (set_obj (with_len (obj s) n) s).
Proof. intros [] Hn. by split. Qed.

Lemma vec_inv_ext s s' : hp s' = hp s → obj s' = obj s → vec_inv s → vec_inv s'.
Proof. intros Hh Ho []. split; rewrite ?Hh, ?Ho; done. Qed.

Lemma wp_self s (Q : Vec → St T Vec → Prop) : Q (obj s) s → wp self Q s.
Proof. intros HQ. unfold self. by wp_steps. Qed.

Lemma wp_read {X} (s : St T X) p o x Q :
  slot (hp s) p o = Some x → Q x s → wp (read p o) Q s.
Proof.
  intros Hs%slot_Some HQ. unfold read. wp_steps. by eapply wp_lift.
Qed.

(** The heap may change at the buffer only. *)
Lemma rest_set_hp s h' :
  (is_Some (zst_value T) → h' = hp s) → (alen (vlayout (obj s)) = 0 → h' = hp s) →
  delete (vptr (obj s)) h' = delete (vptr (obj s)) (hp s) →
  rest (set_hp h' s) = rest s.
Proof.
  intros Hz H0 Hd. unfold rest, own, owned. simpl.
  destruct (Z.eqb_spec (alen (vlayout (obj s)) * size_of T) 0) as [E|E]; simpl; [|done].
  apply Z.mul_eq_0 in E as [E|E]; [by apply H0|]. by apply Hz, (zst_iff T).
Qed.

Lemma capacity_pos_alen s : vec_inv s → zst_value T = None → capacity T (obj s) = alen (vlayout (obj s)).
Proof. intros Hi Hz. unfold capacity. by rewrite is_zst_false. Qed.

Lemma wp_write s i x Q :
  vec_inv s → 0 ≤ i < capacity T (obj s) →
  (∀ s', vec_inv s' → obj s' = obj s → dropped s' = dropped s → rest s' = rest s →
    (∀ j, cells s' j = if decide (j = i) then Some x else cells s j) → Q tt s') →
  wp (write (vptr (obj s)) (off T i) x) Q s.
Proof.
  intros Hi Hb HQ. destruct Hi as [Hh Hl Hz Hn Hbuf].
  destruct (write_at_ok (hp s) (vptr (obj s)) _ i x Hbuf Hb)
    as (h' & Hw & Hb' & Hh' & Hzst & Hd & Hcells).
  unfold write. wp_steps. eapply wp_lift; [exact Hw|]. wp_steps. apply HQ; try done.
  - split; simpl; auto.
  - apply rest_set_hp; [done| |done]. intros E. apply Hzst.
    destruct (zst_value T) eqn:Ez; [eauto|]. unfold capacity, ArrayLayout_len in Hb.
    rewrite (is_zst_false Ez) in Hb. lia.
Qed.

Lemma wp_copy s src dst m Q :
  vec_inv s → 0 ≤ m → 0 ≤ src → 0 ≤ dst →
  src + m ≤ capacity T (obj s) → dst + m ≤ capacity T (obj s) →
  (∀ s', vec_inv s' → obj s' = obj s → dropped s' = dropped s → rest s' = rest s →
    (∀ j, cells s' j = if decide (dst ≤ j < dst + m) then cells s (src + (j - dst))
                       else cells s j) → Q tt s') →
  wp (copy (vptr (obj s)) (off T src) (off T dst) m) Q s.
Proof.
  intros Hi Hm Hs Hd Hsm Hdm HQ. destruct Hi as [Hh Hl Hz Hn Hbuf].
  destruct (copy_at_ok (hp s) (vptr (obj s)) _ src dst m Hbuf Hm Hs Hd Hsm Hdm)
    as (h' & Hw & Hb' & Hh' & Hzst & H0' & Hdel & Hcells).
  unfold copy. wp_steps. eapply wp_lift; [exact Hw|]. wp_steps. apply HQ; try done.
  - split; simpl; auto.
  - apply rest_set_hp; [done| |done]. intros E. destruct (zst_value T) eqn:Ez; [eauto|].
    apply H0'. unfold capacity, ArrayLayout_len in *. rewrite (is_zst_false Ez) in *. lia.
Qed.

Lemma wp_inc_len s n Q :
  vec_inv s → 0 ≤ n ≤ capacity T (obj s) - vlen (obj s) →
  Q tt (set_obj (with_len (obj s) (vlen (obj s) + n)) s) → wp (inc_len n) Q s.
Proof.
  intros Hi Hn HQ. pose proof (capacity_bound s Hi). pose proof (inv_len s Hi).
  unfold inc_len. wp_steps. apply wp_self. eapply wp_bind, wp_lift; [apply usub_ok; lia|].
  rewrite (proj2 (Z.leb_le _ _)) by lia.
  eapply wp_bind, wp_lift; [apply uadd_ok; lia|]. by apply wp_modify.
Qed.

Lemma wp_dec_len s n Q :
  vec_inv s → 0 ≤ n ≤ vlen (obj s) →
  Q (vlen (obj s) - n, n) (set_obj (with_len (obj s) (vlen (obj s) - n)) s) → wp (dec_len n) Q s.
Proof.
  intros Hi Hn HQ. unfold dec_len. wp_steps. apply wp_self.
  rewrite (proj2 (Z.leb_le _ _)) by lia.
  eapply wp_bind, wp_lift; [apply usub_ok; lia|].
  wp_steps. by apply wp_modify, wp_ret.
Qed.

Lemma wp_spare s Q :
  vec_inv s → Q (vlen (obj s), capacity T (obj s) - vlen (obj s)) s → wp spare_capacity_mut Q s.
Proof.
  intros Hi HQ. pose proof (inv_len s Hi). unfold spare_capacity_mut. wp_steps. apply wp_self.
  eapply wp_bind, wp_lift; [apply usub_ok; lia|]. by apply wp_ret.
Qed.

Lemma wp_drop_at {X} (s : St T X) p offs xs Q :
  Forall2 (λ o x, slot (hp s) p o = Some x) offs xs →
  Q tt (MkSt (hp s) (obj s) (dropped s ++ xs)) → wp (drop_at p offs) Q s.
Proof.
  revert s xs. induction offs as [|o offs IH]; intros s xs HF HQ.
  - inversion HF; subst. apply wp_ret. by rewrite app_nil_r in HQ; destruct s.
  - inversion HF as [|? x ? xs' Hx HF']; subst. simpl.
    apply wp_bind. eapply wp_read; [exact Hx|]. wp_steps.
    eapply IH; [exact HF'|]. simpl. by rewrite <- app_assoc.
Qed.

Lemma wp_drop_in_place {X} (s : St T X) p i xs Q :
  (∀ k x, xs !! k = Some x → slot (hp s) p (off T (i + Z.of_nat k)) = Some x) →
  Q tt (MkSt (hp s) (obj s) (dropped s ++ xs)) →
  wp (drop_in_place p (off T i) (Z.of_nat (length xs))) Q s.
Proof.
  intros Hx HQ. apply wp_drop_at with xs; [|done].
  apply Forall2_fmap_l, Forall2_same_length_lookup. split.
  - rewrite length_seqZ. lia.
  - intros k o x Ho Hk. apply lookup_seqZ in Ho as [-> Hlt]. simpl.
    rewrite <- (Hx k x Hk). unfold off. f_equal. lia.
Qed.

Lemma rep_read s l (i : nat) x :
  vec_rep s l → l !! i = Some x → slot (hp s) (vptr (obj s)) (off T (Z.of_nat i)) = Some x.
Proof. intros Hr Hx. exact (rep_cells s l Hr i x Hx). Qed.

Lemma realloc_pre_vec s layout :
  vec_inv s → ArrayLayout_ok T layout →
  realloc_pre (hp s) (Some (vptr (obj s))) (array_layout T (alen layout))
    (array_layout T (alen (vlayout (obj s)))).
Proof.
  intros Hi [Hu Hs]. destruct (inv_layout s Hi) as [Hu0 Hs0].
  split_and!; [apply Hi|by apply array_layout_ok..|].
  intros p Hp. unfold owned in Hp. simpl in Hp.
  destruct (Z.eqb_spec (alen (vlayout (obj s)) * size_of T) 0) as [|Hne]; simplify_eq.
  destruct (zst_value T) as [v|] eqn:Hz.
  { destruct Hne. apply Z.mul_eq_0. right. apply (zst_iff T). eauto. }
  rewrite <- (capacity_pos_alen s Hi Hz) in *.
  apply (inv_buf s Hi Hz). pose proof (capacity_bound s Hi).
  destruct (decide (capacity T (obj s) = 0)) as [E|]; [|lia]. by rewrite E in Hne.
Qed.

(** The state after a successful re-allocation to at least the length. *)
Lemma realloc_keeps s l layout h' out :
  vec_rep s l → zst_value T = None → ArrayLayout_ok T layout →
  0 < alen layout → vlen (obj s) ≤ alen layout →
  realloc_post (hp s) (Some (vptr (obj s))) (array_layout T (alen layout))
    (array_layout T (alen (vlayout (obj s)))) (h', Ok out) →
  keeps s (MkSt h' (MkVec (fst out) layout (vlen (obj s))) (dropped s)) l.
Proof.
  intros Hr Hz Hl Hpos Hlen Hpost. pose proof (rep_inv _ _ Hr) as Hi.
  pose proof (size_of_pos Hz) as Hsz. destruct out as [p' n]. simpl in Hpost.
  rewrite (proj2 (Z.eqb_neq _ _)) in Hpost by nia.
  destruct Hpost as (Hfresh & Hp' & _ & b' & -> & Hn & Hdata).
  assert (own T (MkVec p' layout (vlen (obj s))) = Some p') as Hown.
  { unfold own, owned. simpl. by rewrite (proj2 (Z.eqb_neq _ _)) by nia. }
  assert (heap_ok (take_owned (hp s) (own T (obj s)))) as Hrest.
  { destruct (own T (obj s)); simpl; [apply heap_ok_delete|]; apply Hi. }
  split_and!; [split|..]; simpl.
  - split; simpl; try done.
    + apply heap_ok_insert; [done..|]. simpl in *. nia.
    + intros E. lia.
    + unfold capacity. rewrite is_zst_false by done. simpl. unfold ArrayLayout_len.
      pose proof (inv_len s Hi). lia.
    + intros _ _. exists b'. rewrite lookup_insert_eq. split; [done|].
      unfold capacity, ArrayLayout_len. rewrite is_zst_false by done. simpl in *. lia.
  - apply Hr.
  - intros i x Hx. pose proof (rep_read s l i x Hr Hx) as Hc.
    assert (Z.of_nat i < vlen (obj s)) as Hlt.
    { rewrite (rep_len _ _ Hr). apply lookup_lt_Some in Hx. lia. }
    pose proof (inv_len s Hi) as Hc1. rewrite (capacity_pos_alen s Hi Hz) in Hc1.
    assert (own T (obj s) = Some (vptr (obj s))) as Ho.
    { unfold own, owned. simpl. by rewrite (proj2 (Z.eqb_neq _ _)) by nia. }
    destruct (hp s !! vptr (obj s)) as [b|] eqn:Hb;
      [|by unfold slot, read_at in Hc; rewrite Hz, Hb in Hc].
    rewrite (slot_block _ _ _ _ Hz Hb) in Hc. case_decide; [|done].
    rewrite (slot_block _ _ b' _ Hz) by apply lookup_insert_eq.
    rewrite decide_True by (unfold off; simpl in Hn; nia).
    rewrite (Hdata _ b) by (done || unfold off; simpl; nia). done.
  - unfold rest. simpl. rewrite Hown. simpl. rewrite delete_insert_eq.
    by apply delete_id.
  - done.
Qed.

Lemma keeps_refl s l : vec_rep s l → keeps s s l.
Proof. done. Qed.

Lemma keeps_trans s1 s2 s3 l1 l2 : keeps s1 s2 l1 → keeps s2 s3 l2 → keeps s1 s3 l2.
Proof. intros (_ & H2 & H3) (H4 & H5 & H6). split_and!; [done|congruence..]. Qed.

(** The postcondition of [reserve]. *)
Definition reserved (s : St T Vec) (l : list T) (n : Z) (r : result AllocError unit) (s' : St T Vec) : Prop :=
  match r with
  | Ok _ => keeps s s' l ∧ n ≤ capacity T (obj s') - vlen (obj s') ∧
            (obj s' = obj s ∨ 2 * capacity T (obj s) ≤ capacity T (obj s'))
  | Err _ => s' = s
  end.

Lemma reserve_ok s l n fl : vec_rep s l → is_usize n → wp (reserve n fl) (reserved s l n) s.
Proof.
  intros Hr Hn. pose proof (rep_inv _ _ Hr) as Hi.
  pose proof (inv_len s Hi) as Hlen. pose proof (capacity_bound s Hi) as Hcap.
  unfold reserve. apply wp_bind, wp_self.
  eapply wp_bind, wp_lift; [apply usub_ok; lia|].
  destruct (Z.leb_spec n (capacity T (obj s) - vlen (obj s))) as [Hfit|Hgrow].
  { apply wp_ret. split_and!; [by apply keeps_refl|done|by left]. }
  destruct (zst_value T) as [v|] eqn:Hz.
  { rewrite (is_zst_true v) by done. by apply wp_ret. }
  rewrite is_zst_false by done. pose proof (size_of_pos Hz) as Hsz.
  rewrite (capacity_pos_alen s Hi Hz) in *. destruct (inv_layout s Hi) as [Hu Hs].
  eapply wp_bind, wp_lift; [apply umul_ok; unfold ISIZE_MAX, USIZE_MAX in *; nia|].
  apply wp_try, wp_ret. unfold checked_add.
  destruct (Z.leb_spec (vlen (obj s) + n) USIZE_MAX) as [Hadd|]; simpl; [|done].
  apply wp_try, wp_ret.
  set (new_cap := Z.max (alen (vlayout (obj s)) * 2) (vlen (obj s) + n)).
  assert (is_usize new_cap) as Hnc by (unfold new_cap; usize || (unfold is_usize, new_cap, ISIZE_MAX, USIZE_MAX in *; nia)).
  destruct (ArrayLayout_new T new_cap) as [layout|e] eqn:El; simpl; [|done].
  apply ArrayLayout_new_ok in El as [Ea Hlok]; [|done].
  eapply wp_bind, wp_lift; [by apply ArrayLayout_into_ok|].
  eapply wp_bind, wp_lift; [apply ArrayLayout_into_ok, Hi|].
  apply wp_bind, wp_get.
  pose proof (realloc_spec (hp s) (Some (vptr (obj s))) _ _ fl (realloc_pre_vec s layout Hi Hlok)) as Hpost.
  destruct (realloc (hp s) (Some (vptr (obj s))) _ _ fl) as [h' [out|e]] eqn:Er;
    apply wp_bind, wp_modify, wp_try, wp_ret.
  - apply wp_bind, wp_modify, wp_ret. simpl.
    split_and!; [apply (realloc_keeps s l layout h' out); try done; unfold new_cap in *; lia|..];
      unfold capacity; rewrite is_zst_false by done; simpl; unfold ArrayLayout_len, new_cap in *; lia.
  - simpl in Hpost. subst h'. by destruct s.
Qed.

(** [xs] written behind the elements. *)
Definition written (s s' : St T Vec) (i : Z) (xs : list T) : Prop :=
  vec_inv s' ∧ obj s' = obj s ∧ dropped s' = dropped s ∧ rest s' = rest s ∧
  ∀ j, cells s' j = if decide (i ≤ j < i + Z.of_nat (length xs)) then xs !! Z.to_nat (j - i)
                    else cells s j.

Lemma wp_write_slots s i xs Q :
  vec_inv s → 0 ≤ i → i + Z.of_nat (length xs) ≤ capacity T (obj s) →
  (∀ s', written s s' i xs → Q tt s') → wp (write_slots (vptr (obj s)) i xs) Q s.
Proof.
  revert s i. induction xs as [|x xs IH]; intros s i Hi H0 Hc HQ; cbn [write_slots].
  - apply wp_ret, HQ. split_and!; try done. intros j. simpl. case_decide; [lia|done].
  - apply wp_bind, wp_write; [done|simpl in Hc; lia|]. intros s1 Hi1 Ho1 Hd1 Hr1 Hc1.
    rewrite <- Ho1. apply IH; [done|lia|rewrite Ho1; simpl in Hc; lia|].
    intros s2 (Hi2 & Ho2 & Hd2 & Hr2 & Hc2). apply HQ.
    split_and!; [done|congruence..|]. intros j. rewrite Hc2, Hc1. cbn [length].
    repeat case_decide; subst; try lia; try done.
    + replace (j - i) with (Z.succ (j - (i + 1))) by lia. by rewrite Z2Nat.inj_succ by lia.
    + by rewrite Z.sub_diag.
Qed.

Lemma rep_extend s s' l xs :
  vec_rep s l → vlen (obj s) + Z.of_nat (length xs) ≤ capacity T (obj s) →
  written s s' (vlen (obj s)) xs →
  keeps s (set_obj (with_len (obj s') (vlen (obj s') + Z.of_nat (length xs))) s') (l ++ xs).
Proof.
  intros Hr Hc (Hi & Ho & Hd & Hrest & Hcells). pose proof (inv_len s (rep_inv _ _ Hr)) as Hlen.
  split_and!; [|by rewrite <- Hrest|done]. split.
  - apply inv_with_len; [done|]. rewrite Ho. lia.
  - simpl. rewrite length_app, Ho, (rep_len _ _ Hr). lia.
  - intros i x Hx. change (cells s' (Z.of_nat i) = Some x). rewrite Hcells.
    rewrite (rep_len _ _ Hr). apply lookup_app_Some in Hx as [Hx|[Hge Hx]].
    + pose proof (lookup_lt_Some _ _ _ Hx). rewrite decide_False by lia. by apply Hr.
    + pose proof (lookup_lt_Some _ _ _ Hx). rewrite decide_True by lia.
      by replace (Z.to_nat (Z.of_nat i - Z.of_nat (length l))) with (i - length l)%nat by lia.
Qed.

Lemma wp_push_unchecked s l x Q :
  vec_rep s l → vlen (obj s) < capacity T (obj s) →
  (∀ s', keeps s s' (l ++ [x]) → Q tt s') → wp (push_within_capacity_unchecked x) Q s.
Proof.
  intros Hr Hc HQ. pose proof (rep_inv _ _ Hr) as Hi. pose proof (inv_len s Hi) as Hlen.
  unfold push_within_capacity_unchecked.
  apply wp_bind, wp_spare; [done|]. apply wp_bind, wp_self. simpl.
  rewrite (proj2 (Z.ltb_lt _ _)) by lia. apply wp_bind, wp_write; [done|lia|].
  intros s' Hi' Ho Hd Hrest Hcells.
  apply wp_inc_len; [done|rewrite Ho; lia|]. apply HQ.
  apply (rep_extend s s' l [x]); [done|simpl; lia|]. split_and!; try done.
  intros j. rewrite Hcells. simpl. repeat case_decide; subst; try lia; [|done].
  by rewrite Z.sub_diag.
Qed.

(** ** Truncation and drop *)

Lemma wp_truncate s l n Q :
  vec_rep s l → 0 ≤ n →
  (∀ s', vec_rep s' (take (Z.to_nat n) l) → rest s' = rest s →
    dropped s' = dropped s ++ drop (Z.to_nat n) l → Q tt s') →
  wp (truncate n) Q s.
Proof.
  intros Hr Hn HQ. pose proof (rep_inv _ _ Hr) as Hi. pose proof (inv_len s Hi) as Hlen.
  pose proof (rep_len _ _ Hr) as Hl. unfold truncate. apply wp_bind, wp_self.
  destruct (decide (n ≤ vlen (obj s))) as [Hle|Hgt].
  - rewrite checked_sub_Some by lia. apply wp_bind, wp_dec_len; [done|lia|]. simpl.
    replace (vlen (obj s) - n) with (Z.of_nat (length (drop (Z.to_nat n) l)))
      by (rewrite length_drop; lia).
    replace (vlen (obj s) - Z.of_nat (length (drop (Z.to_nat n) l))) with n
      by (rewrite length_drop; lia).
    apply (wp_drop_in_place (set_obj (with_len (obj s) n) s)).
    + intros k x Hx. rewrite lookup_drop in Hx. simpl.
      rewrite <- (rep_read s l _ x Hr Hx). do 2 f_equal. lia.
    + apply HQ; simpl; try done. split; simpl.
      * apply (vec_inv_ext (set_obj (with_len (obj s) n) s)); [done..|].
        apply inv_with_len; [done|lia].
      * rewrite length_take. lia.
      * intros i x [Hx _]%lookup_take_Some. by apply (rep_read s l).
  - rewrite checked_sub_None by lia. apply wp_ret, HQ; [|done|].
    + by rewrite take_ge by lia.
    + by rewrite drop_ge, app_nil_r by lia.
Qed.

(** Releasing the buffer leaves the rest of the heap. *)
Lemma free_buf s : vec_inv s →
  free (hp s) (vptr (obj s)) (array_layout T (alen (vlayout (obj s)))) = rest s.
Proof.
  intros Hi.
  unfold free, rest, own.
  pose proof (realloc_pre_vec s ArrayLayout_empty Hi ArrayLayout_empty_ok) as (Hh & _ & Ho & Hp).
  pose proof (realloc_spec (hp s) (Some (vptr (obj s))) layout_unit _ (MkFlags 0)
    (conj Hh (conj layout_unit_ok (conj Ho Hp)))) as Hpost.
  pose proof (realloc_unit (hp s) (Some (vptr (obj s)))
    (array_layout T (alen (vlayout (obj s)))) (MkFlags 0)) as Hok.
  destruct (realloc _ _ _ _ _) as [h' [[p' n]|e]]; simpl in *; [|done]. apply Hpost.
Qed.

Lemma wp_vec_drop s l Q :
  vec_rep s l →
  (∀ s', hp s' = rest s → dropped s' = dropped s ++ l → Q tt s') →
  wp vec_drop Q s.
Proof.
  intros Hr HQ. pose proof (rep_inv _ _ Hr) as Hi. pose proof (rep_len _ _ Hr) as Hl.
  unfold vec_drop. apply wp_bind, wp_self, wp_bind.
  replace 0 with (off T 0) by (unfold off; lia). rewrite Hl.
  apply wp_drop_in_place; [intros k x Hx; simpl; by apply (rep_read s l)|].
  eapply wp_bind, wp_lift; [apply ArrayLayout_into_ok, Hi|].
  apply wp_bind, wp_get, wp_modify, HQ; simpl; [|done].
  by apply free_buf.
Qed.

Lemma new_rep (h : gmap Z (block T)) ds : heap_ok h → vec_rep (MkSt h (new T) ds) [].
Proof.
  intros Hh. split; [split|..]; simpl; try done.
  - unfold capacity. destruct (is_zst T); simpl; usize.
  - intros Hz Hc. unfold capacity in Hc. rewrite is_zst_false in Hc by done. simpl in Hc. lia.
Qed.

Lemma new_rest (h : gmap Z (block T)) ds : rest (MkSt h (new T) ds) = h.
Proof. unfold rest, own, owned. simpl. done. Qed.

(** ** Single-element operations *)

Lemma wp_slice_get s l i Q :
  vec_rep s l →
  (i < 0 ∨ vlen (obj s) ≤ i → Q None s) →
  (∀ x, 0 ≤ i → l !! Z.to_nat i = Some x → Q (Some x) s) → wp (slice_get i) Q s.
Proof.
  intros Hr HN HS. pose proof (rep_len _ _ Hr) as Hl. unfold slice_get. apply wp_bind, wp_self.
  destruct (Z.leb_spec 0 i) as [H0|H0]; simpl; [|apply wp_ret, HN; lia].
  destruct (Z.ltb_spec i (vlen (obj s))) as [H1|H1]; [|apply wp_ret, HN; lia].
  destruct (lookup_lt_is_Some_2 l (Z.to_nat i)) as [x Hx]; [lia|].
  apply wp_bind. eapply wp_read.
  - rewrite <- (Z2Nat.id i) by done. by apply (rep_read s l).
  - by apply wp_ret, HS.
Qed.

Lemma push_ok s l x fl :
  vec_rep s l →
  wp (push x fl) (λ r s', match r with
    | Ok _ => keeps s s' (l ++ [x])
    | Err _ => s' = log_drop x s
    end) s.
Proof.
  intros Hr. unfold push. apply wp_bind. eapply wp_mono; [apply (reserve_ok s l); [done|usize]|].
  intros [?|e] s' Hres; simpl in Hres.
  - destruct Hres as (Hk & Hroom & _). apply wp_bind.
    eapply wp_push_unchecked; [apply Hk|lia|]. intros s'' Hk'.
    apply wp_ret. by eapply keeps_trans.
  - subst s'. by apply wp_bind, wp_modify, wp_ret.
Qed.

Lemma push_within_capacity_ok s l x :
  vec_rep s l →
  wp (push_within_capacity x) (λ r s', match r with
    | Ok _ => keeps s s' (l ++ [x])
    | Err (MkPushError y) => y = x ∧ s' = s ∧ vlen (obj s) = capacity T (obj s)
    end) s.
Proof.
  intros Hr. pose proof (inv_len s (rep_inv _ _ Hr)). unfold push_within_capacity.
  apply wp_bind, wp_self. destruct (Z.ltb_spec (vlen (obj s)) (capacity T (obj s))).
  - apply wp_bind, (wp_push_unchecked s l); [done..|]. intros s' Hk. by apply wp_ret.
  - apply wp_ret. split_and!; [done..|lia].
Qed.

Lemma insert_within_capacity_ok s l i x :
  vec_rep s l → 0 ≤ i →
  wp (insert_within_capacity i x) (λ r s', match r with
    | Ok _ => i ≤ vlen (obj s) ∧
        keeps s s' (take (Z.to_nat i) l ++ x :: drop (Z.to_nat i) l)
    | Err (IndexOutOfBounds y) => y = x ∧ s' = s ∧ vlen (obj s) < i
    | Err (OutOfCapacity y) => y = x ∧ s' = s ∧ vlen (obj s) = capacity T (obj s)
    end) s.
Proof.
  intros Hr H0. pose proof (rep_inv _ _ Hr) as Hi. pose proof (inv_len s Hi) as Hlen.
  pose proof (rep_len _ _ Hr) as Hl. unfold insert_within_capacity. apply wp_bind, wp_self.
  destruct (Z.ltb_spec (vlen (obj s)) i); [by apply wp_ret|].
  destruct (Z.leb_spec (capacity T (obj s)) (vlen (obj s))); [apply wp_ret; split_and!; [done..|lia]|].
  eapply wp_bind, wp_lift; [apply usub_ok; lia|].
  apply wp_bind, wp_copy; [done|lia..|]. intros s1 Hi1 Ho1 Hd1 Hr1 Hc1.
  rewrite <- Ho1. apply wp_bind, wp_write; [done|rewrite Ho1; lia|].
  intros s2 Hi2 Ho2 Hd2 Hr2 Hc2. rewrite Ho1 in *.
  apply wp_bind, wp_inc_len; [done|rewrite Ho2; lia|]. apply wp_ret.
  split; [lia|]. split_and!; [|transitivity (rest s2); [done|congruence]|simpl; congruence]. split.
  - apply inv_with_len; [done|]. rewrite Ho2. lia.
  - simpl. rewrite Ho2, length_app, length_cons, length_take, length_drop. lia.
  - intros j y Hy. change (cells s2 (Z.of_nat j) = Some y). rewrite Hc2, Hc1.
    destruct (decide (Z.of_nat j < i)).
    + rewrite lookup_app_l in Hy by (rewrite length_take; lia).
      apply lookup_take_Some in Hy as [Hy _].
      rewrite !decide_False by lia. by apply Hr.
    + rewrite lookup_app_r in Hy by (rewrite length_take; lia).
      rewrite length_take, Nat.min_l in Hy by lia. case_decide as Hji.
      * by replace (j - Z.to_nat i)%nat with 0%nat in Hy by lia.
      * destruct (j - Z.to_nat i)%nat as [|k] eqn:Ek; [lia|]. simpl in Hy.
        rewrite lookup_drop in Hy. pose proof (lookup_lt_Some _ _ _ Hy).
        rewrite decide_True by lia.
        replace (i + (Z.of_nat j - (i + 1))) with (Z.of_nat (Z.to_nat i + k)) by lia.
        by apply Hr.
Qed.

Lemma pop_ok s l :
  vec_rep s l →
  wp pop (λ r s', match r with
    | None => l = [] ∧ s' = s
    | Some x => ∃ l', l = l' ++ [x] ∧ keeps s s' l'
    end) s.
Proof.
  intros Hr. pose proof (rep_inv _ _ Hr) as Hi. pose proof (inv_len s Hi) as Hlen.
  pose proof (rep_len _ _ Hr) as Hl. unfold pop. apply wp_bind, wp_self. unfold is_empty.
  destruct (Z.eqb_spec (vlen (obj s)) 0) as [E|E].
  - apply wp_ret. split; [|done]. apply nil_length_inv. lia.
  - destruct (exists_last (l := l)) as (l' & x & ->); [intros ->; simpl in Hl; lia|].
    rewrite length_app in Hl. simpl in Hl.
    apply wp_bind, wp_dec_len; [done|lia|]. simpl. apply wp_bind. eapply wp_read with (x := x).
    + replace (vlen (obj s) - 1) with (Z.of_nat (length l')) by lia.
      apply (rep_read s (l' ++ [x]) _ x Hr). apply list_lookup_middle. done.
    + apply wp_ret. exists l'. split; [done|]. split_and!; [|done|done]. split.
      * apply inv_with_len; [done|lia].
      * simpl. lia.
      * intros i y Hy. apply (rep_read s _ i y Hr). by apply lookup_app_l_Some.
Qed.

Lemma remove_ok s l i :
  vec_rep s l → 0 ≤ i →
  wp (remove i) (λ r s', match r with
    | Ok x => l !! Z.to_nat i = Some x ∧ keeps s s' (delete (Z.to_nat i) l)
    | Err _ => s' = s ∧ vlen (obj s) ≤ i
    end) s.
Proof.
  intros Hr H0. pose proof (rep_inv _ _ Hr) as Hi. pose proof (inv_len s Hi) as Hlen.
  pose proof (rep_len _ _ Hr) as Hl. unfold remove. apply wp_bind.
  apply (wp_slice_get s l); [done|intros ?; apply wp_try, wp_ret; simpl; split; [done|lia]|].
  intros x _ Hx. pose proof (lookup_lt_Some _ _ _ Hx) as Hlt.
  apply wp_try, wp_ret. simpl. apply wp_bind, wp_self.
  eapply wp_bind, wp_lift; [apply usub_ok; lia|].
  eapply wp_bind, wp_lift; [apply usub_ok; lia|].
  apply wp_bind, wp_copy; [done|lia..|]. intros s1 Hi1 Ho1 Hd1 Hr1 Hc1.
  apply wp_bind, wp_dec_len; [done|rewrite Ho1; lia|]. apply wp_ret.
  split; [done|]. split_and!; [|by rewrite <- Hr1|simpl; congruence]. split.
  - apply inv_with_len; [done|]. rewrite Ho1. lia.
  - simpl. rewrite Ho1, length_delete by done. lia.
  - intros j y Hy. change (cells s1 (Z.of_nat j) = Some y). rewrite Hc1.
    destruct (decide (Z.of_nat j < i)).
    + rewrite list_lookup_delete_lt in Hy by lia. rewrite decide_False by lia. by apply Hr.
    + rewrite list_lookup_delete_ge in Hy by lia. pose proof (lookup_lt_Some _ _ _ Hy).
      rewrite decide_True by lia.
      replace (i + 1 + (Z.of_nat j - i)) with (Z.of_nat (S j)) by lia. by apply Hr.
Qed.

(** ** Bulk operations *)

Lemma with_capacity_ok s n fl :
  heap_ok (hp s) → is_usize n →
  wp (with_capacity n fl) (λ r s', match r with
    | Ok _ => vec_rep s' [] ∧ rest s' = hp s ∧ dropped s' = dropped s ∧ n ≤ capacity T (obj s')
    | Err _ => hp s' = hp s ∧ dropped s' = dropped s
    end) s.
Proof.
  intros Hh Hn. unfold with_capacity. apply wp_bind, wp_modify, wp_bind.
  pose proof (new_rep (hp s) (dropped s) Hh) as Hr.
  eapply wp_mono; [exact (reserve_ok (set_obj (new T) s) [] n fl Hr Hn)|].
  intros [?|e] s' Hres; simpl in Hres.
  - destruct Hres as ((Hr' & Hrest & Hd) & Hroom & _). apply wp_ret. split_and!; try done.
    pose proof (inv_len s' (rep_inv _ _ Hr')). lia.
  - subst s'. apply wp_bind. eapply wp_vec_drop; [exact Hr|]. intros s' Hs' Hd'.
    apply wp_ret. split; [done|]. by rewrite Hd', app_nil_r.
Qed.

(** What [extend_with] appends. *)
Definition clones (clone : T → T) (n : Z) (value : T) : list T :=
  replicate (Z.to_nat (n - 1)) (clone value) ++ [value].

Lemma length_clones clone n value : 0 < n → Z.of_nat (length (clones clone n value)) = n.
Proof. intros Hn. unfold clones. rewrite length_app, length_replicate. simpl. lia. Qed.

Lemma written_app s s1 s2 i xs ys :
  written s s1 i xs → written s1 s2 (i + Z.of_nat (length xs)) ys →
  written s s2 i (xs ++ ys).
Proof.
  intros (_ & Ho & Hd & Hr & Hc) (Hi2 & Ho2 & Hd2 & Hr2 & Hc2).
  split_and!; [done|congruence..|]. intros j. rewrite Hc2, Hc, length_app.
  repeat case_decide; try lia; try done.
  - rewrite lookup_app_r by lia. f_equal. lia.
  - rewrite lookup_app_l by lia. done.
Qed.

Lemma written_one s s' i x :
  vec_inv s' → obj s' = obj s → dropped s' = dropped s → rest s' = rest s →
  (∀ j, cells s' j = if decide (j = i) then Some x else cells s j) → written s s' i [x].
Proof.
  intros Hi Ho Hd Hr Hc. split_and!; try done. intros j. rewrite Hc. simpl.
  repeat case_decide; subst; try lia; [|done]. by rewrite Z.sub_diag.
Qed.

Lemma extend_with_ok s l clone n value fl :
  vec_rep s l → is_usize n →
  wp (extend_with clone n value fl) (λ r s', match r with
    | Ok _ => if decide (n = 0) then s' = log_drop value s
              else keeps s s' (l ++ clones clone n value)
    | Err _ => s' = log_drop value s ∧ n ≠ 0
    end) s.
Proof.
  intros Hr Hn. unfold extend_with. destruct (Z.eqb_spec n 0) as [->|Hn0].
  { apply wp_bind, wp_modify, wp_ret. by rewrite decide_True. }
  apply wp_bind. eapply wp_mono; [exact (reserve_ok s l n fl Hr Hn)|].
  intros [?|e] s1 Hres; simpl in Hres; [|subst s1; by apply wp_bind, wp_modify, wp_ret].
  destruct Hres as (Hk & Hroom & _). pose proof Hk as (Hr1 & _ & _).
  pose proof (rep_inv _ _ Hr1) as Hi1. pose proof (inv_len s1 Hi1) as Hlen.
  pose proof Hn as [Hn1 _].
  apply wp_bind, wp_spare; [done|]. apply wp_bind, wp_self.
  eapply wp_bind, wp_lift; [apply usub_ok; lia|]. simpl. rewrite Z.min_l by lia.
  apply wp_bind, wp_write_slots; [done|lia|rewrite length_replicate; lia|].
  intros s2 Hw2. pose proof Hw2 as (Hi2 & Ho2 & _). rewrite (proj2 (Z.ltb_lt _ _)) by lia.
  rewrite <- Ho2. apply wp_bind, wp_write; [done|rewrite Ho2; lia|].
  intros s3 Hi3 Ho3 Hd3 Hr3 Hc3. apply wp_bind, wp_inc_len; [done|rewrite Ho3, Ho2; lia|].
  apply wp_ret. rewrite decide_False by done. eapply keeps_trans; [exact Hk|].
  rewrite <- (length_clones clone n value) at 1 by lia.
  apply rep_extend; [done|rewrite length_clones; lia|].
  eapply written_app; [exact Hw2|]. apply written_one; [done..|].
  intros j. rewrite length_replicate, Z2Nat.id by lia. rewrite <- Ho2. apply Hc3.
Qed.

Lemma extend_from_slice_ok s l clone other fl :
  vec_rep s l → is_usize (Z.of_nat (length other)) →
  wp (extend_from_slice clone other fl) (λ r s', match r with
    | Ok _ => keeps s s' (l ++ (clone <$> other))
    | Err _ => s' = s
    end) s.
Proof.
  intros Hr Hn. unfold extend_from_slice. apply wp_try.
  eapply wp_mono; [exact (reserve_ok s l _ fl Hr Hn)|].
  intros [?|e] s1 Hres; simpl in Hres; [|done]. destruct Hres as (Hk & Hroom & _).
  pose proof Hk as (Hr1 & _ & _). pose proof (rep_inv _ _ Hr1) as Hi1.
  pose proof (inv_len s1 Hi1) as Hlen.
  apply wp_bind, wp_spare; [done|]. apply wp_bind, wp_self. simpl.
  rewrite take_ge by (rewrite length_fmap; lia).
  apply wp_bind, wp_write_slots; [done|lia|rewrite length_fmap; lia|].
  intros s2 Hw2. pose proof Hw2 as (Hi2 & Ho2 & _).
  apply wp_bind, wp_inc_len; [done|rewrite Ho2; lia|].
  apply wp_ret. eapply keeps_trans; [exact Hk|].
  rewrite <- (length_fmap clone other). apply rep_extend; [done|rewrite length_fmap; lia|done].
Qed.

Lemma resize_ok s l clone n value fl :
  vec_rep s l → is_usize n →
  wp (resize clone n value fl) (λ r s', match r with
    | Err _ => s' = log_drop value s ∧ vlen (obj s) < n
    | Ok _ =>
        if decide (vlen (obj s) < n) then keeps s s' (l ++ clones clone (n - vlen (obj s)) value)
        else vec_rep s' (take (Z.to_nat n) l) ∧ rest s' = rest s ∧
             dropped s' = dropped s ++ drop (Z.to_nat n) l ++ [value]
    end) s.
Proof.
  intros Hr Hn. pose proof (rep_inv _ _ Hr) as Hi. pose proof (inv_len s Hi) as Hlen.
  pose proof (rep_len _ _ Hr) as Hl. unfold resize. apply wp_bind, wp_self.
  destruct (decide (vlen (obj s) ≤ n)) as [Hle|Hgt].
  - rewrite checked_sub_Some by done.
    eapply wp_mono; [apply (extend_with_ok s l); [done|usize]|].
    intros [?|e] s' Hres; simpl in Hres.
    + repeat case_decide; try lia; [|done]. subst s'. rewrite take_ge, drop_ge by lia.
      split_and!; [|done|done]. destruct Hr as [Hr1 Hr2 Hr3]. split; try done.
      by apply (vec_inv_ext s).
    + split; [apply Hres|lia].
  - rewrite checked_sub_None by lia. destruct Hn as [Hn0 _].
    apply wp_bind, (wp_truncate s l); [done..|]. intros s' Hr' Hrest Hd.
    apply wp_bind, wp_modify, wp_ret. rewrite decide_False by lia.
    split_and!; [|done|simpl; by rewrite Hd, <- app_assoc].
    destruct Hr' as [Hr1 Hr2 Hr3]. split; try done. by apply (vec_inv_ext s').
Qed.

Lemma from_elem_ok s clone n value fl :
  heap_ok (hp s) → is_usize n →
  wp (from_elem clone value n fl) (λ r s', match r with
    | Ok _ => rest s' = hp s ∧
        if decide (n = 0) then vec_rep s' [] ∧ dropped s' = dropped s ++ [value]
        else vec_rep s' (clones clone n value) ∧ dropped s' = dropped s
    | Err _ => hp s' = hp s ∧ dropped s' = dropped s ++ [value]
    end) s.
Proof.
  intros Hh Hn. unfold from_elem. apply wp_bind.
  eapply wp_mono; [by apply with_capacity_ok|]. intros [?|e] s1 H1; simpl in H1.
  - destruct H1 as (Hr & Hrest & Hd & _). apply wp_bind.
    eapply wp_mono; [by apply (extend_with_ok s1 [])|]. intros [?|e] s2 H2; simpl in H2.
    + apply wp_ret. case_decide.
      * subst s2. simpl. split_and!; [done| |by rewrite Hd].
        destruct Hr as [Hr1 Hr2 Hr3]. split; try done. by apply (vec_inv_ext s1).
      * destruct H2 as (? & ? & ?). split_and!; [congruence|done|congruence].
    + destruct H2 as [-> _]. apply wp_bind. eapply wp_vec_drop.
      * destruct Hr as [Hr1 Hr2 Hr3]. split; [|exact Hr2|exact Hr3]. by apply (vec_inv_ext s1).
      * intros s2 Hs2 Hd2. apply wp_ret. rewrite app_nil_r in Hd2. simpl in *.
        split; [by rewrite Hs2, <- Hrest|by rewrite Hd2, Hd].
  - destruct H1 as [Hh1 Hd1]. apply wp_bind, wp_modify, wp_ret. simpl. by rewrite Hh1, Hd1.
Qed.

(** ** [retain] *)

Lemma wp_write_rep s l (i : nat) x Q :
  vec_rep s l → (i < length l)%nat → (∀ s', obj s' = obj s → keeps s s' (<[i := x]> l) → Q tt s') →
  wp (write (vptr (obj s)) (off T (Z.of_nat i)) x) Q s.
Proof.
  intros Hr Hlt HQ. pose proof (rep_inv _ _ Hr) as Hi. pose proof (rep_len _ _ Hr) as Hl.
  pose proof (inv_len s Hi) as Hlen. apply wp_write; [done|lia|].
  intros s' Hi' Ho Hd Hrest Hc. apply HQ; [done|]. split_and!; [|done|done]. split; [done|..].
  - by rewrite length_insert, Ho.
  - intros j y Hy. rewrite Hc. apply list_lookup_insert_Some in Hy as [(<- & -> & _)|[Hne Hy]].
    + by rewrite decide_True.
    + rewrite decide_False by lia. by apply Hr.
Qed.

Lemma wp_slice_swap s l (a b : nat) x y Q :
  vec_rep s l → l !! a = Some x → l !! b = Some y →
  (∀ s', obj s' = obj s → keeps s s' (<[b := x]> (<[a := y]> l)) → Q tt s') →
  wp (slice_swap (Z.of_nat a) (Z.of_nat b)) Q s.
Proof.
  intros Hr Ha Hb HQ. pose proof (rep_len _ _ Hr) as Hl.
  pose proof (lookup_lt_Some _ _ _ Ha). pose proof (lookup_lt_Some _ _ _ Hb).
  unfold slice_swap. apply wp_bind, wp_self. rewrite !(proj2 (Z.ltb_lt _ _)) by lia. simpl.
  apply wp_bind. eapply wp_read; [by eapply rep_read|].
  apply wp_bind. eapply wp_read; [by eapply rep_read|].
  apply wp_bind, (wp_write_rep s l); [done..|]. intros s1 Ho1 Hk1. rewrite <- Ho1.
  apply (wp_write_rep s1 (<[a := y]> l)); [apply Hk1|by rewrite length_insert|].
  intros s2 Ho2 Hk2. apply HQ; [congruence|]. by eapply keeps_trans.
Qed.

(** The reference: one pass that threads the closure's state, with the elements
    it keeps and the ones it rejects. *)
Fixpoint retain_ref {F} (f : F → T → F * T * bool) (fs : F) (l : list T) : F * list T * list T :=
  match l with
  | [] => (fs, [], [])
  | x :: l =>
      let '(fs1, x', keep) := f fs x in
      let '(fs2, ks, rs) := retain_ref f fs1 l in
      if (keep : bool) then (fs2, x' :: ks, rs) else (fs2, ks, x' :: rs)
  end.

(** The array after the swap of the first rejected element with the checked one. *)
Lemma swap_step (ks rs l : list T) x :
  ∃ rs' y, rs' ≡ₚ rs ∧ (ks ++ rs ++ x :: l) !! length ks = Some y ∧
    (ks ++ rs ++ x :: l) !! (length ks + length rs)%nat = Some x ∧
    <[(length ks + length rs)%nat := y]> (<[length ks := x]> (ks ++ rs ++ x :: l)) =
      (ks ++ [x]) ++ rs' ++ l.
Proof.
  destruct rs as [|r rs]; simpl.
  - exists [], x. rewrite Nat.add_0_r, list_lookup_middle by done. split_and!; try done.
    rewrite !list_insert_insert_eq, insert_app_r_alt by lia.
    rewrite Nat.sub_diag. simpl. by rewrite <- app_assoc.
  - exists (rs ++ [r]), r. split_and!.
    + by rewrite Permutation_app_comm.
    + by rewrite list_lookup_middle.
    + rewrite lookup_app_r, Nat.add_comm by lia.
      replace (S (length rs) + length ks - length ks)%nat with (length (r :: rs)) by (simpl; lia).
      change (((r :: rs) ++ x :: l) !! length (r :: rs) = Some x). by rewrite list_lookup_middle.
    + rewrite insert_app_r_alt, Nat.sub_diag by lia. simpl.
      rewrite insert_app_r_alt by lia.
      replace (length ks + S (length rs) - length ks)%nat with (S (length rs)) by lia. simpl.
      rewrite insert_app_r_alt, Nat.sub_diag by lia. simpl. by rewrite <- !app_assoc.
Qed.

Lemma retain_loop_ok {F} (f : F → T → F * T * bool) l : ∀ fuel fs s ks rs,
  vec_rep s (ks ++ rs ++ l) → (length l < fuel)%nat →
  wp (retain_loop f fuel fs (Z.of_nat (length ks)) (Z.of_nat (length ks + length rs)))
    (λ out s', let '(fs', ks', rs') := retain_ref f fs l in
      ∃ rs'', rs'' ≡ₚ rs ++ rs' ∧ out = (fs', Z.of_nat (length (ks ++ ks'))) ∧
        keeps s s' ((ks ++ ks') ++ rs'')) s.
Proof.
  induction l as [|x l IH]; intros fuel fs s ks rs Hr Hfuel;
    (destruct fuel as [|fuel]; [lia|]); cbn [retain_loop retain_ref];
    pose proof (rep_inv _ _ Hr) as Hi; pose proof (inv_len s Hi) as Hlen;
    pose proof (capacity_bound s Hi) as Hcap; pose proof (rep_len _ _ Hr) as Hl.
  - apply wp_bind. eapply wp_slice_get; [exact Hr|..].
    + intros _. apply wp_ret. exists rs. rewrite !app_nil_r in *. by split_and!.
    + intros y _ Hy%lookup_lt_Some. rewrite !length_app in Hy. simpl in Hy. lia.
  - rewrite !length_app in Hl. simpl in Hl.
    apply wp_bind. eapply wp_slice_get; [exact Hr|lia|].
    intros y _. rewrite Nat2Z.id, app_assoc, list_lookup_middle by (by rewrite length_app).
    intros [= <-]. destruct (f fs x) as [[fs1 x'] keep].
    apply wp_bind, wp_self, wp_bind, (wp_write_rep s _ _ _ _ Hr); [rewrite !length_app; simpl; lia|].
    intros s1 Ho1 Hk1. pose proof Hk1 as (Hr1 & _ & _).
    assert (<[(length ks + length rs)%nat := x']> (ks ++ rs ++ x :: l) = ks ++ rs ++ x' :: l) as E.
    { rewrite !app_assoc, insert_app_r_alt by (rewrite length_app; lia).
      by rewrite length_app, Nat.sub_diag. }
    rewrite E in *. destruct (retain_ref f fs1 l) as [[fs2 ks2] rs2] eqn:Href. destruct keep.
    + destruct (swap_step ks rs l x') as (rs' & y & Hp & Hy & Hx & Hsw).
      apply wp_bind. eapply wp_slice_swap; [exact Hr1|exact Hy|exact Hx|].
      intros s2 _ Hk2. rewrite Hsw in Hk2. pose proof Hk2 as (Hr2 & _ & _).
      eapply wp_bind, wp_lift; [apply uadd_ok; lia|].
      eapply wp_bind, wp_lift; [apply uadd_ok; lia|].
      assert (length rs' = length rs) as El by (by rewrite Hp).
      replace (Z.of_nat (length ks) + 1) with (Z.of_nat (length (ks ++ [x'])))
        by (rewrite length_app; simpl; lia).
      replace (Z.of_nat (length ks + length rs) + 1)
        with (Z.of_nat (length (ks ++ [x']) + length rs')) by (rewrite length_app; simpl; lia).
      eapply wp_mono; [apply IH; [exact Hr2|simpl in Hfuel; lia]|].
      rewrite Href. intros out s3 (rs'' & Hp'' & -> & Hk3).
      exists rs''. rewrite <- !app_assoc in *. simpl in *. split_and!; [by rewrite Hp'', Hp|done|].
      eapply keeps_trans; [exact Hk1|]. by eapply keeps_trans.
    + eapply wp_bind, wp_lift; [apply uadd_ok; lia|].
      replace (Z.of_nat (length ks + length rs) + 1)
        with (Z.of_nat (length ks + length (rs ++ [x']))) by (rewrite length_app; simpl; lia).
      assert (ks ++ rs ++ x' :: l = ks ++ (rs ++ [x']) ++ l) as E2 by (by rewrite <- !app_assoc).
      rewrite E2 in Hr1.
      eapply wp_mono; [apply IH; [exact Hr1|simpl in Hfuel; lia]|].
      rewrite Href. intros out s3 (rs'' & Hp'' & -> & Hk3).
      exists rs''. split_and!; [by rewrite Hp'', <- app_assoc|done|]. by eapply keeps_trans.
Qed.

Lemma retain_ok {F} (f : F → T → F * T * bool) fuel fs s l :
  vec_rep s l → (length l < fuel)%nat →
  wp (retain f fuel fs) (λ fs' s', let '(fs1, ks, rs) := retain_ref f fs l in
    fs' = fs1 ∧ vec_rep s' ks ∧ rest s' = rest s ∧
    ∃ ds, ds ≡ₚ rs ∧ dropped s' = dropped s ++ ds) s.
Proof.
  intros Hr Hf. unfold retain. apply wp_bind.
  eapply wp_mono; [exact (retain_loop_ok f l fuel fs s [] [] Hr Hf)|].
  destruct (retain_ref f fs l) as [[fs1 ks] rs]. intros out s1 (ds & Hp & -> & Hr1 & Hrest & Hd).
  simpl in *. apply wp_bind. eapply wp_truncate; [exact Hr1|lia|].
  rewrite Nat2Z.id, take_app_length, drop_app_length. intros s2 Hr2 Hrest2 Hd2.
  apply wp_ret. split_and!; [done..|congruence|]. exists ds. split; [done|]. congruence.
Qed.
End Specs.

(** ** Properties *)

(** A vector of [u64] in memory: [1, 2, 3] in a block of four slots. *)
Definition demo_vec : St Z Vec :=
  MkSt {[ 64 := Block 32 (<[0 := 1]> (<[8 := 2]> {[16 := 3]})) ]}
    (MkVec 64 (MkArrayLayout 4) 3) [].

Lemma demo_vec_rep : vec_rep demo_vec [1; 2; 3].
Proof.
  split; [split|done|].
  - intros p b Hb. cbn [hp demo_vec] in Hb. apply lookup_singleton_Some in Hb as [<- <-]. simpl. lia.
  - split; simpl; usize.
  - done.
  - simpl. unfold capacity, ArrayLayout_len, is_zst. simpl. lia.
  - intros _ _. eexists. split; [reflexivity|]. done.
  - intros [|[|[|i]]] x; intros [= <-]; reflexivity.
Qed.

(** [reserve] is safe and effective for every request: with the documented
    invariant it neither overflows ([cap - len], [cap * 2]) nor reaches the
    [unwrap_unchecked] of the layout conversion; on success the elements are the
    same, the requested room is there, a re-allocation at least doubles the
    capacity and no other allocation is touched; on failure nothing changes. *)
Theorem reserve_correct {T} {RT : RType T} {RTok : RTypeOk T} {AL : Allocator T}
    {ALs : AllocatorSpec T} (s : St T Vec) l n fl
    (Hr : vec_rep s l) (Hn : is_usize n) :
  ∃ r s', reserve n fl s = Done (r, s') ∧
    match r with
    | Ok _ => vec_rep s' l ∧ n ≤ capacity T (obj s') - vlen (obj s') ∧
        (obj s' = obj s ∨ 2 * capacity T (obj s) ≤ capacity T (obj s')) ∧
        rest s' = rest s ∧ dropped s' = dropped s
    | Err _ => s' = s
    end.
Proof.
  destruct (reserve_ok s l n fl Hr Hn) as (r & s' & He & HQ). exists r, s'. split; [done|].
  destruct r; [|done]. destruct HQ as ((? & ? & ?) & ? & ?). done.
Qed.

Lemma reserve_correct_witness :
  ∃ r s', reserve (AL := Kmalloc (ref_realloc 4096)) 5 GFP_KERNEL demo_vec = Done (r, s') ∧
    match r with
    | Ok _ => vec_rep s' [1; 2; 3] ∧ 5 ≤ capacity Z (obj s') - vlen (obj s') ∧
        (obj s' = obj demo_vec ∨ 2 * capacity Z (obj demo_vec) ≤ capacity Z (obj s')) ∧
        rest s' = rest demo_vec ∧ dropped s' = dropped demo_vec
    | Err _ => s' = demo_vec
    end.
Proof. apply (reserve_correct demo_vec [1; 2; 3] 5 GFP_KERNEL demo_vec_rep). usize. Defined.

(** C22: [retain] terminates and is the order-preserving filter: the vector ends
    with the elements (as the closure left them) that the closure kept, in order,
    exactly the rejected ones are dropped, and the closure's own state is the one
    of a single left-to-right pass. Enough fuel is one iteration per element plus
    the final test. *)
Theorem retain_correct {T} {RT : RType T} {RTok : RTypeOk T} {AL : Allocator T}
    {ALs : AllocatorSpec T} {F} (f : F → T → F * T * bool) fs (s : St T Vec) l
    (Hr : vec_rep s l) :
  ∃ fs' s' ds, retain f (S (length l)) fs s = Done (fs', s') ∧
    vec_rep s' (snd (fst (retain_ref f fs l))) ∧
    ds ≡ₚ snd (retain_ref f fs l) ∧ dropped s' = dropped s ++ ds ∧
    fs' = fst (fst (retain_ref f fs l)) ∧ rest s' = rest s.
Proof.
  destruct (retain_ok f (S (length l)) fs s l Hr ltac:(lia)) as (fs' & s' & He & HQ).
  destruct (retain_ref f fs l) as [[fs1 ks] rs]. destruct HQ as (-> & ? & ? & ds & ? & ?).
  by exists fs1, s', ds.
Qed.

Lemma retain_correct_witness :
  ∃ fs' s' ds,
    retain (λ n x, (n + 1, 10 * x, Z.odd x)) 4 0 demo_vec = Done (fs', s') ∧
    vec_rep s' [10; 30] ∧ ds ≡ₚ [20] ∧ dropped s' = [] ++ ds ∧ fs' = 3 ∧
    rest s' = rest demo_vec.
Proof.
  exact (retain_correct (AL := Kmalloc (ref_realloc 4096)) (λ n x, (n + 1, 10 * x, Z.odd x)) 0
    demo_vec [1; 2; 3] demo_vec_rep).
Defined.

(** Inserting and then removing at an index gives back the element and the
    old contents, and each of the two steps is the list operation: insertion puts
    the element before index [i] (refusing an index past the end or a full buffer
    with the element handed back), removal closes the gap. *)
Theorem insert_remove_roundtrip {T} {RT : RType T} {RTok : RTypeOk T} {AL : Allocator T}
    {ALs : AllocatorSpec T} (s : St T Vec) l i x
    (Hr : vec_rep s l) (Hi : 0 ≤ i ≤ vlen (obj s)) (Hroom : vlen (obj s) < capacity T (obj s)) :
  ∃ s1 s2, insert_within_capacity i x s = Done (Ok tt, s1) ∧
    vec_rep s1 (take (Z.to_nat i) l ++ x :: drop (Z.to_nat i) l) ∧
    remove i s1 = Done (Ok x, s2) ∧ vec_rep s2 l ∧
    rest s2 = rest s ∧ dropped s2 = dropped s.
Proof.
  destruct (insert_within_capacity_ok s l i x Hr ltac:(lia)) as (r & s1 & He1 & HQ1).
  destruct r as [[]|[y|y]]; [|lia|lia]. destruct HQ1 as [_ (Hr1 & Hrest1 & Hd1)].
  pose proof (rep_len _ _ Hr) as Hl.
  destruct (remove_ok s1 _ i Hr1 ltac:(lia)) as (r & s2 & He2 & HQ2).
  destruct r as [y|e].
  - destruct HQ2 as [Hy (Hr2 & Hrest2 & Hd2)].
    assert (length (take (Z.to_nat i) l) = Z.to_nat i) as Et by (rewrite length_take; lia).
    rewrite list_lookup_middle in Hy by done. injection Hy as <-.
    rewrite <- Et in Hr2 at 1. rewrite delete_middle, take_drop in Hr2.
    exists s1, s2. split_and!; [done..|congruence|congruence].
  - destruct HQ2 as [_ Hge]. rewrite (rep_len _ _ Hr1), length_app in Hge. simpl in Hge.
    rewrite length_take, length_drop in Hge. lia.
Qed.

Lemma insert_remove_roundtrip_witness :
  ∃ s1 s2, insert_within_capacity 1 9 demo_vec = Done (Ok tt, s1) ∧
    vec_rep s1 [1; 9; 2; 3] ∧ remove 1 s1 = Done (Ok 9, s2) ∧ vec_rep s2 [1; 2; 3] ∧
    rest s2 = rest demo_vec ∧ dropped s2 = [].
Proof.
  apply (insert_remove_roundtrip (AL := Kmalloc (ref_realloc 4096)) demo_vec [1; 2; 3] 1 9
    demo_vec_rep); vm_compute; [split; congruence | reflexivity].
Defined.
