(* ===== verification/KVecIter.v ===== *)
(** * Iterators of [Vec] and programs over it ([rust/src/alloc/kvec.rs])

    [IntoIter] with [collect], [DrainAll], and the refinement of arbitrary
    sequences of vector operations to operations on lists. *)

From S2P Require Import Prelude Errors Alloc KVec.

(** ** [IntoIter]

    [iptr] is the byte offset of the cursor in the buffer at [ibuf]. *)

Record IntoIter := MkIntoIter { iptr : Z; ibuf : Z; ilen : Z; ilayout : ArrayLayout }.

Section Defs.
Context {T : Type} {RT : RType T} {AL : Allocator T}.
Local Abbreviation IM := (M (St T IntoIter)).

(** [Vec::into_iter]. *)
Definition into_iter (v : Vec) : IntoIter :=
  let '(_, len, _) := into_raw_parts T v in MkIntoIter 0 (vptr v) len (vlayout v).

Definition iter_self : IM IntoIter := s ← get; mret (obj s).

(** [Iterator::next]. *)
Definition iter_next : IM (option T) :=
  it ← iter_self;
  if ilen it =? 0 then mret None
  else
    let current := iptr it in
    n ← lift (usub (ilen it) 1);
    _ ← modify (set_obj (MkIntoIter (current + size_of T) (ibuf it) n (ilayout it)));
    x ← read (ibuf it) current;
    mret (Some x).

Definition iter_size_hint (it : IntoIter) : Z * option Z := (ilen it, Some (ilen it)).

(** [IntoIter::collect]: shrinks the buffer when the iterator has advanced, and
    goes on with the old one when shrinking fails. *)
Definition collect (flags : Flags) : IM Vec :=
  it ← iter_self;
  let old_layout := ilayout it in
  let buf := ibuf it in
  let len := ilen it in
  let cap := ArrayLayout_len (ilayout it) in
  if iptr it =? 0 then mret (from_raw_parts T buf len cap)
  else
    _ ← copy buf (iptr it) 0 len;
    let layout := ArrayLayout_new_unchecked len in
    l ← lift (ArrayLayout_into T layout);
    old ← lift (ArrayLayout_into T old_layout);
    s ← get;
    let '(h, r) := realloc (hp s) (Some buf) l old flags in
    _ ← modify (set_hp h);
    match r with
    | Err _ => mret (from_raw_parts T buf len cap)
    | Ok out => mret (from_raw_parts T (fst out) len len)
    end.

(** [Drop for IntoIter]. *)
Definition iter_drop : IM unit :=
  it ← iter_self;
  _ ← drop_in_place (ibuf it) (iptr it) (ilen it);
  l ← lift (ArrayLayout_into T (ilayout it));
  s ← get;
  modify (set_hp (free (hp s) (ibuf it) l)).

(** ** [DrainAll]: the slice iterator over the relinquished elements *)

Definition drain_all : M (St T Vec) (Z * Z) := v ← self; dec_len (vlen v).

Definition drain_next (range : Z * Z) : M (St T Vec) (option T * (Z * Z)) :=
  if snd range =? 0 then mret (None, range)
  else
    v ← self;
    x ← read (vptr v) (off T (fst range));
    mret (Some x, (fst range + 1, snd range - 1)).

Definition drain_drop (needs_drop : bool) (range : Z * Z) : M (St T Vec) unit :=
  if needs_drop then v ← self; drop_in_place (vptr v) (off T (fst range)) (snd range)
  else mret tt.

(** Runs [iter_next] [n] times. *)
Fixpoint iter_take (n : nat) : IM (list (option T)) :=
  match n with
  | O => mret []
  | S n => x ← iter_next; xs ← iter_take n; mret (x :: xs)
  end.

(** Consumes up to [n] elements of a draining iterator. *)
Fixpoint drain_take (n : nat) (range : Z * Z) : M (St T Vec) (list T * (Z * Z)) :=
  match n with
  | O => mret ([], range)
  | S n =>
      out ← drain_next range;
      match fst out with
      | None => mret ([], snd out)
      | Some x => rest ← drain_take n (snd out); mret (x :: fst rest, snd rest)
      end
  end.

Definition drain_some (needs_drop : bool) (n : nat) : M (St T Vec) (list T) :=
  range ← drain_all;
  out ← drain_take n range;
  _ ← drain_drop needs_drop (snd out);
  mret (fst out).
End Defs.
Arguments into_iter T {_} v.

(** ** Representation of an iterator

    The vector view of the buffer, with the elements already handed out as a
    prefix of (stale) bits. *)

(** Arithmetic on lengths and capacities of views of one buffer. *)
Ltac cap_lia := unfold capacity, ArrayLayout_len in *; simpl in *; rewrite ?length_app in *; lia.

Section IterSpecs.
Context {T : Type} {RT : RType T} {RTok : RTypeOk T} {AL : Allocator T} {ALs : AllocatorSpec T}.
Implicit Types (s : St T IntoIter) (l pre : list T).

Definition vec_view (s : St T IntoIter) (n : Z) : St T Vec :=
  set_obj (MkVec (ibuf (obj s)) (ilayout (obj s)) n) s.

Record iter_rep (s : St T IntoIter) (pre l : list T) : Prop := {
  it_view : vec_rep (vec_view s (Z.of_nat (length (pre ++ l)))) (pre ++ l);
  it_ptr : iptr (obj s) = off T (Z.of_nat (length pre));
  it_len : ilen (obj s) = Z.of_nat (length l)
}.

Lemma into_iter_rep (s : St T Vec) l :
  vec_rep s l → iter_rep (set_obj (into_iter T (obj s)) s) [] l.
Proof.
  intros Hr. split; simpl.
  - unfold vec_view. simpl. destruct s as [h [p la n] d]. simpl. by rewrite <- (rep_len _ _ Hr).
  - unfold off. lia.
  - apply Hr.
Qed.

Lemma it_slot s pre l (i : nat) x :
  iter_rep s pre l → l !! i = Some x →
  slot (hp s) (ibuf (obj s)) (off T (Z.of_nat (length pre + i))) = Some x.
Proof.
  intros Hr Hx. apply (rep_read _ _ (length pre + i) x (it_view _ _ _ Hr)).
  rewrite lookup_app_r by lia. by replace (length pre + i - length pre)%nat with i by lia.
Qed.

Lemma iter_next_ok s pre l :
  iter_rep s pre l →
  wp iter_next (λ r s', match l with
    | [] => r = None ∧ s' = s
    | x :: l' => r = Some x ∧ iter_rep s' (pre ++ [x]) l' ∧ hp s' = hp s ∧
        dropped s' = dropped s ∧ ibuf (obj s') = ibuf (obj s) ∧ ilayout (obj s') = ilayout (obj s)
    end) s.
Proof.
  intros Hr. pose proof (it_len _ _ _ Hr) as Hl. unfold iter_next, iter_self. wp_steps.
  destruct l as [|x l]; simpl in Hl.
  - rewrite Hl. simpl. by apply wp_ret.
  - rewrite (proj2 (Z.eqb_neq _ _)) by lia.
    eapply wp_bind, wp_lift; [apply usub_ok; lia|]. apply wp_bind, wp_modify, wp_bind.
    eapply wp_read with (x := x).
    + simpl. rewrite (it_ptr _ _ _ Hr).
      pose proof (it_slot s pre (x :: l) 0 x Hr eq_refl) as Hs. by rewrite Nat.add_0_r in Hs.
    + apply wp_ret. split_and!; try done. split; simpl.
      * pose proof (it_view _ _ _ Hr) as Hv. rewrite <- app_assoc. exact Hv.
      * rewrite (it_ptr _ _ _ Hr), length_app. unfold off. simpl. lia.
      * lia.
Qed.

(** Re-reads the list view after a change of the buffer. *)
Lemma view_rep (s : St T Vec) l :
  vec_inv s → vlen (obj s) = Z.of_nat (length l) →
  (∀ i x, l !! i = Some x → cells s (Z.of_nat i) = Some x) → vec_rep s l.
Proof. by split. Qed.

Lemma from_raw_parts_same (s : St T Vec) n :
  vec_inv s →
  from_raw_parts T (vptr (obj s)) n (ArrayLayout_len (vlayout (obj s))) = with_len (obj s) n.
Proof.
  intros Hi. unfold from_raw_parts, with_len, ArrayLayout_new_unchecked, ArrayLayout_len.
  destruct (zst_value T) as [v|] eqn:Hz.
  - rewrite (is_zst_true v) by done. unfold ArrayLayout_empty. f_equal.
    rewrite <- (inv_zst s Hi) by (apply (zst_iff T); eauto). by destruct (vlayout (obj s)).
  - rewrite is_zst_false by done. by destruct (vlayout (obj s)).
Qed.

(** An iterator that has advanced has an element size. *)
Lemma advanced_sized s pre l : iter_rep s pre l → iptr (obj s) ≠ 0 →
  zst_value T = None ∧ pre ≠ [].
Proof.
  intros Hr Hp. rewrite (it_ptr _ _ _ Hr) in Hp. unfold off in Hp. split.
  - destruct (zst_value T) eqn:Hz; [|done]. destruct Hp.
    rewrite (proj2 (zst_iff T)) by (rewrite Hz; eauto). lia.
  - intros ->. simpl in Hp. lia.
Qed.

Lemma not_advanced s pre l : iter_rep s pre l → iptr (obj s) = 0 →
  is_Some (zst_value T) ∨ pre = [].
Proof.
  intros Hr Hp. rewrite (it_ptr _ _ _ Hr) in Hp. unfold off in Hp.
  apply Z.mul_eq_0 in Hp as [Hp|Hp]; [|left; by apply (zst_iff T)].
  right. apply nil_length_inv. lia.
Qed.

(** After the copy to the front, the buffer holds [l] from its start. *)
Lemma collect_copy s pre l Q :
  iter_rep s pre l → zst_value T = None →
  (∀ s', obj s' = obj s → dropped s' = dropped s →
    keeps (vec_view s (Z.of_nat (length l))) (vec_view s' (Z.of_nat (length l))) l → Q tt s') →
  wp (copy (ibuf (obj s)) (iptr (obj s)) 0 (ilen (obj s))) Q s.
Proof.
  intros Hr Hz HQ. pose proof (it_view _ _ _ Hr) as Hv. pose proof (rep_inv _ _ Hv) as Hi.
  pose proof (inv_len _ Hi) as Hlen. simpl in Hlen. rewrite length_app in Hlen.
  rewrite (it_ptr _ _ _ Hr), (it_len _ _ _ Hr).
  assert (vec_inv (vec_view s (Z.of_nat (length l)))) as Hi0.
  { refine (inv_with_len (vec_view s (Z.of_nat (length (pre ++ l)))) (Z.of_nat (length l)) Hi _).
    cap_lia. }
  replace 0 with (off T 0) by (unfold off; lia).
  destruct (wp_copy (vec_view s (Z.of_nat (length l))) (Z.of_nat (length pre)) 0
    (Z.of_nat (length l)) (λ _ (s' : St T Vec), keeps (vec_view s (Z.of_nat (length l))) s' l ∧
      obj s' = obj (vec_view s (Z.of_nat (length l)))) Hi0) as (a & s' & He & Hk & Ho); try cap_lia.
  - intros s' Hi' Ho Hd Hrest Hc. split; [split_and!; [|done|done]|done].
    apply view_rep; [done|by rewrite Ho|]. intros i x Hx. rewrite Hc.
    pose proof (lookup_lt_Some _ _ _ Hx). rewrite decide_True by lia.
    replace (Z.of_nat (length pre) + (Z.of_nat i - 0)) with (Z.of_nat (length pre + i)) by lia.
    by apply (it_slot s pre l).
  - exists tt, (set_hp (hp s') s). split.
    + unfold copy in He |- *. unfold mbind, M_bind, get, lift, modify in *. simpl in *.
      destruct (copy_at _ _ _ _ _); try done. by injection He as _ <-.
    + assert (s' = vec_view (set_hp (hp s') s) (Z.of_nat (length l))) as E.
      { destruct s' as [h o d]. simpl in *. subst o. destruct Hk as (_ & _ & Hd). simpl in Hd.
        by subst d. }
      apply HQ; [done|by destruct Hk|]. by rewrite <- E.
Qed.

Lemma collect_ok s pre l fl :
  iter_rep s pre l →
  wp (collect fl) (λ v s', vec_rep (set_obj v s') l ∧
    rest (set_obj v s') = rest (vec_view s 0) ∧ dropped s' = dropped s) s.
Proof.
  intros Hr. pose proof (it_view _ _ _ Hr) as Hv. pose proof (rep_inv _ _ Hv) as Hi.
  pose proof (inv_len _ Hi) as Hlen. simpl in Hlen. rewrite length_app in Hlen.
  unfold collect, iter_self. wp_steps. rewrite (it_len _ _ _ Hr).
  destruct (Z.eqb_spec (iptr (obj s)) 0) as [E|E].
  - apply wp_ret.
    pose proof (from_raw_parts_same _ (Z.of_nat (length l)) Hi) as Ef. simpl in Ef. rewrite Ef.
    split_and!; [|done|done]. apply view_rep; simpl; [|done|].
    + refine (inv_with_len _ (Z.of_nat (length l)) Hi _). cap_lia.
    + intros i x Hx. pose proof (it_slot s pre l i x Hr Hx) as Hs.
      destruct (not_advanced s pre l Hr E) as [[v Hz]| ->].
      * rewrite (slot_zst v) in Hs |- * by done. done.
      * done.
  - destruct (advanced_sized s pre l Hr E) as [Hz _].
    apply wp_bind. rewrite <- (it_len _ _ _ Hr). eapply collect_copy; [done..|].
    intros s1 Ho1 Hd1 Hk1. rewrite (it_len _ _ _ Hr). pose proof Hk1 as (Hr1 & Hrest1 & _).
    pose proof (rep_inv _ _ Hr1) as Hi1. destruct (inv_layout _ Hi1) as [Hlu Hls].
    pose proof (capacity_pos_alen _ Hi1 Hz) as Hcap. pose proof (inv_len _ Hi1) as Hlen1.
    rewrite Hcap in Hlen1. simpl in Hlu, Hls, Hlen1. pose proof (size_of_pos Hz) as Hsz.
    set (lay := ArrayLayout_new_unchecked (Z.of_nat (length l))).
    assert (ArrayLayout_ok T lay) as Hlay.
    { split; simpl; [usize|]. destruct Hlu. nia. }
    eapply wp_bind, wp_lift; [by apply ArrayLayout_into_ok|].
    eapply wp_bind, wp_lift; [rewrite <- Ho1; apply ArrayLayout_into_ok, Hi1|].
    apply wp_bind, wp_get. rewrite <- Ho1.
    pose proof (realloc_spec (hp s1) (Some (ibuf (obj s1))) _ _ fl
      (realloc_pre_vec _ lay Hi1 Hlay)) as Hpost. cbn [vec_view set_obj obj vlayout] in Hpost.
    destruct (realloc _ _ _ _ fl) as [h' [out|e]] eqn:Er; apply wp_bind, wp_modify, wp_ret.
    + assert (from_raw_parts T (fst out) (Z.of_nat (length l)) (Z.of_nat (length l)) =
        MkVec (fst out) lay (Z.of_nat (length l))) as ->
        by (unfold from_raw_parts; by rewrite is_zst_false).
      destruct (decide (l = [])) as [->|Hne].
      * destruct out as [p' n]. simpl in Hpost. destruct Hpost as [-> ->].
        split_and!; [|exact Hrest1|done]. apply view_rep; [|done|by intros ? ?].
        split; simpl; try done.
        -- destruct (owned _ _); simpl; [apply heap_ok_delete|]; apply Hi1.
        -- unfold capacity. rewrite is_zst_false by done. simpl. lia.
        -- intros _ Hc. unfold capacity in Hc. rewrite is_zst_false in Hc by done. simpl in Hc. lia.
      * assert (0 < Z.of_nat (length l)) by (destruct l; [done|simpl; lia]).
        destruct (realloc_keeps _ l lay h' out Hr1 Hz Hlay ltac:(done) ltac:(simpl; lia) Hpost)
          as (Hr2 & Hrest2 & Hd2).
        split_and!; [exact Hr2|exact (eq_trans Hrest2 Hrest1)|done].
    + simpl in Hpost. subst h'. rewrite <- Ho1 in *.
      pose proof (from_raw_parts_same _ (Z.of_nat (length l)) Hi1) as Ef. simpl in Ef.
      rewrite Ef. split_and!; [exact Hr1|exact Hrest1|done].
Qed.
End IterSpecs.

(** ** Programs over a vector

    A client is a sequence of operations; [exec_op] runs one on the real
    implementation. [vstep] is the abstract contract on lists: it leaves open
    whether an allocation succeeds, and says for every outcome what the contents
    become, what is handed back to the caller and what is dropped. *)

Inductive vop (T : Type) :=
| OPush (x : T) (fl : Flags)
| OPushWithin (x : T)
| OInsert (i : Z) (x : T)
| OPop
| ORemove (i : Z)
| OTruncate (n : Z)
| OClear
| OReserve (n : Z) (fl : Flags)
| ORetain (keep : T → bool).
Arguments OPush {T}. Arguments OPushWithin {T}. Arguments OInsert {T}. Arguments OPop {T}.
Arguments ORemove {T}. Arguments OTruncate {T}. Arguments OClear {T}. Arguments OReserve {T}.
Arguments ORetain {T}.

Inductive vobs (T : Type) := VUnit | VNone | VSome (x : T) | VFail (back : option T).
Arguments VUnit {T}. Arguments VNone {T}. Arguments VSome {T}. Arguments VFail {T}.

Definition vop_ok {T} (o : vop T) : Prop :=
  match o with
  | OInsert i _ | ORemove i | OTruncate i | OReserve i _ => is_usize i
  | _ => True
  end.

(** The elements an operation receives, and those its outcome hands back. *)
Definition vop_in {T} (o : vop T) : list T :=
  match o with OPush x _ | OPushWithin x | OInsert _ x => [x] | _ => [] end.
Definition vobs_out {T} (r : vobs T) : list T :=
  match r with VSome x => [x] | VFail back => option_list back | _ => [] end.

Section Programs.
Context {T : Type} {RT : RType T} {AL : Allocator T}.

Definition unit_obs {E} (r : result E unit) : vobs T :=
  match r with Ok _ => VUnit | Err _ => VFail None end.

Definition exec_op (o : vop T) : M (St T Vec) (vobs T) :=
  match o with
  | OPush x fl => r ← push x fl; mret (unit_obs r)
  | OPushWithin x =>
      r ← push_within_capacity x;
      mret (match r with Ok _ => VUnit | Err (MkPushError y) => VFail (Some y) end)
  | OInsert i x =>
      r ← insert_within_capacity i x;
      mret (match r with
            | Ok _ => VUnit
            | Err (IndexOutOfBounds y) | Err (OutOfCapacity y) => VFail (Some y)
            end)
  | OPop => r ← pop; mret (match r with Some x => VSome x | None => VNone end)
  | ORemove i => r ← remove i; mret (match r with Ok x => VSome x | Err _ => VFail None end)
  | OTruncate n => _ ← truncate n; mret VUnit
  | OClear => _ ← clear; mret VUnit
  | OReserve n fl => r ← reserve n fl; mret (unit_obs r)
  | ORetain keep =>
      v ← self;
      _ ← retain (λ _ x, (tt, x, keep x)) (S (Z.to_nat (vlen v))) tt; mret VUnit
  end.

Fixpoint exec_ops (os : list (vop T)) : M (St T Vec) (list (vobs T)) :=
  match os with
  | [] => mret []
  | o :: os => r ← exec_op o; rs ← exec_ops os; mret (r :: rs)
  end.

Inductive vstep : list T → vop T → vobs T → list T → list T → Prop :=
| vs_push l x fl : vstep l (OPush x fl) VUnit (l ++ [x]) []
| vs_push_fail l x fl : vstep l (OPush x fl) (VFail None) l [x]
| vs_push_within l x : vstep l (OPushWithin x) VUnit (l ++ [x]) []
| vs_push_within_fail l x : vstep l (OPushWithin x) (VFail (Some x)) l []
| vs_insert l1 l2 x :
    vstep (l1 ++ l2) (OInsert (Z.of_nat (length l1)) x) VUnit (l1 ++ x :: l2) []
| vs_insert_fail l i x : vstep l (OInsert i x) (VFail (Some x)) l []
| vs_pop l x : vstep (l ++ [x]) OPop (VSome x) l []
| vs_pop_empty : vstep [] OPop VNone [] []
| vs_remove l1 l2 x :
    vstep (l1 ++ x :: l2) (ORemove (Z.of_nat (length l1))) (VSome x) (l1 ++ l2) []
| vs_remove_fail l i : Z.of_nat (length l) ≤ i → vstep l (ORemove i) (VFail None) l []
| vs_truncate l n : vstep l (OTruncate n) VUnit (take (Z.to_nat n) l) (drop (Z.to_nat n) l)
| vs_clear l : vstep l OClear VUnit [] l
| vs_reserve l n fl : vstep l (OReserve n fl) VUnit l []
| vs_reserve_fail l n fl : vstep l (OReserve n fl) (VFail None) l []
| vs_retain l keep ds : ds ≡ₚ filter (λ x, keep x = false) l →
    vstep l (ORetain keep) VUnit (filter (λ x, keep x = true) l) ds.

Inductive vsteps : list T → list (vop T) → list (vobs T) → list T → list T → Prop :=
| vss_nil l : vsteps l [] [] l []
| vss_cons l o r l1 d1 os rs l2 d2 :
    vstep l o r l1 d1 → vsteps l1 os rs l2 d2 → vsteps l (o :: os) (r :: rs) l2 (d1 ++ d2).
End Programs.

Lemma vs_insert_at {T} (l : list T) i x : 0 ≤ i ≤ Z.of_nat (length l) →
  vstep l (OInsert i x) VUnit (take (Z.to_nat i) l ++ x :: drop (Z.to_nat i) l) [].
Proof.
  intros Hi. pose proof (vs_insert (take (Z.to_nat i) l) (drop (Z.to_nat i) l) x) as H.
  rewrite take_drop, length_take in H.
  by replace (Z.of_nat (Z.to_nat i `min` length l)) with i in H by lia.
Qed.

Lemma vs_remove_at {T} (l : list T) i x : 0 ≤ i → l !! Z.to_nat i = Some x →
  vstep l (ORemove i) (VSome x) (delete (Z.to_nat i) l) [].
Proof.
  intros Hi Hx. pose proof (vs_remove (take (Z.to_nat i) l) (drop (S (Z.to_nat i)) l) x) as H.
  rewrite take_drop_middle, <- delete_take_drop, length_take in H by done.
  apply lookup_lt_Some in Hx.
  by replace (Z.of_nat (Z.to_nat i `min` length l)) with i in H by lia.
Qed.

(** Conservation holds of the abstract contract, hence of every refinement. *)
Lemma vstep_conserves {T} (l l' ds : list T) o r :
  vstep l o r l' ds → vop_in o ++ l ≡ₚ l' ++ vobs_out r ++ ds.
Proof.
  intros H. destruct H; simpl; rewrite ?app_nil_r, ?take_drop; try done; try solve_Permutation.
  rename H into Hd. rewrite Hd. clear. induction l as [|x l IH]; [done|]. rewrite !filter_cons.
  destruct (keep x); repeat (rewrite decide_True by done || rewrite decide_False by done); simpl.
  - by rewrite <- IH.
  - rewrite <- Permutation_middle. by rewrite <- IH.
Qed.

Lemma vsteps_conserve {T} (l l' ds : list T) os rs :
  vsteps l os rs l' ds → (os ≫= vop_in) ++ l ≡ₚ l' ++ (rs ≫= vobs_out) ++ ds.
Proof.
  induction 1 as [|l o r l1 d1 os rs l2 d2 Hs _ IH]; simpl; [by rewrite app_nil_r|].
  apply vstep_conserves in Hs.
  rewrite <- app_assoc, (Permutation_app_comm (vop_in o)), <- app_assoc.
  rewrite (Permutation_app_comm l), Hs.
  transitivity (((os ≫= vop_in) ++ l1) ++ vobs_out r ++ d1); [by rewrite <- app_assoc|].
  rewrite IH. solve_Permutation.
Qed.

Section Refinement.
Context {T : Type} {RT : RType T} {RTok : RTypeOk T} {AL : Allocator T} {ALs : AllocatorSpec T}.

(** One abstract step matched by a state change. *)
Definition refines (s : St T Vec) (l : list T) (o : vop T) (r : vobs T) (s' : St T Vec) : Prop :=
  ∃ l' ds, vstep l o r l' ds ∧ vec_rep s' l' ∧ dropped s' = dropped s ++ ds ∧ rest s' = rest s.

Lemma refines_keeps (s : St T Vec) l o r s' l' : vstep l o r l' [] → keeps s s' l' → refines s l o r s'.
Proof. intros Hs (Hr & Hrest & Hd). exists l', []. by rewrite app_nil_r. Qed.

Lemma refines_same (s : St T Vec) l o r : vec_rep s l → vstep l o r l [] → refines s l o r s.
Proof. intros Hr Hs. eapply refines_keeps; [done|]. by apply keeps_refl. Qed.

Lemma retain_ref_filter (keep : T → bool) l :
  retain_ref (λ (_ : unit) x, (tt, x, keep x)) tt l =
  (tt, filter (λ x, keep x = true) l, filter (λ x, keep x = false) l).
Proof.
  induction l as [|x l IH]; [done|]. simpl. rewrite IH, !filter_cons.
  by destruct (keep x).
Qed.

Lemma log_drop_rep (s : St T Vec) l x : vec_rep s l → vec_rep (log_drop x s) l.
Proof. intros [Hi ? ?]. split; [by apply (vec_inv_ext s)|done..]. Qed.

Lemma exec_op_refines (s : St T Vec) l o : vec_rep s l → vop_ok o → wp (exec_op o) (refines s l o) s.
Proof.
  intros Hr Hok. pose proof (rep_len _ _ Hr) as Hlen.
  destruct o as [x fl|x|i x| |i|n| |n fl|keep]; simpl in *; apply wp_bind.
  - eapply wp_mono; [by apply push_ok|]. intros [[]|e] s' H; apply wp_ret.
    + by eapply refines_keeps; [constructor|].
    + subst s'. exists l, [x]. split_and!; [constructor|by apply log_drop_rep|done..].
  - eapply wp_mono; [by apply push_within_capacity_ok|]. intros [[]|[y]] s' H; apply wp_ret.
    + by eapply refines_keeps; [constructor|].
    + destruct H as (-> & -> & _). apply refines_same; [done|constructor].
  - eapply wp_mono; [apply (insert_within_capacity_ok _ _ i x Hr), Hok|].
    intros [[]|[y|y]] s' H; apply wp_ret.
    + destruct H as [Hi H]. eapply refines_keeps; [|done]. apply vs_insert_at. usize.
    + destruct H as (-> & -> & _). apply refines_same; [done|constructor].
    + destruct H as (-> & -> & _). apply refines_same; [done|constructor].
  - eapply wp_mono; [by apply pop_ok|]. intros [x|] s' H; apply wp_ret.
    + destruct H as (l' & -> & H). by eapply refines_keeps; [constructor|].
    + destruct H as [-> ->]. apply refines_same; [done|constructor].
  - eapply wp_mono; [apply (remove_ok _ _ i Hr), Hok|]. intros [x|e] s' H; apply wp_ret.
    + destruct H as [Hx H]. eapply refines_keeps; [|done]. apply vs_remove_at; [usize|done].
    + destruct H as [-> Hi]. apply refines_same; [done|]. constructor. by rewrite <- Hlen.
  - apply (wp_truncate _ _ _ _ Hr (proj1 Hok)). intros s' H1 H2 H3. apply wp_ret.
    exists (take (Z.to_nat n) l), (drop (Z.to_nat n) l). split_and!; [constructor|done..].
  - apply (wp_truncate _ _ 0 _ Hr ltac:(lia)). intros s' H1 H2 H3. apply wp_ret.
    exists [], l. split_and!; [constructor|done..].
  - eapply wp_mono; [by apply reserve_ok|]. intros [[]|e] s' H; apply wp_ret.
    + destruct H as [H _]. by eapply refines_keeps; [constructor|].
    + simpl in H. subst s'. apply refines_same; [done|constructor].
  - apply wp_self, wp_bind. rewrite Hlen, Nat2Z.id.
    eapply wp_mono; [by apply (retain_ok _ _ _ _ _ Hr); lia|]. intros [] s' H.
    rewrite retain_ref_filter in H. destruct H as (_ & H1 & H2 & ds & Hp & H3). apply wp_ret.
    eexists _, ds. split_and!; [by constructor|done..].
Qed.

Lemma exec_ops_refine os : ∀ (s : St T Vec) l, vec_rep s l → Forall vop_ok os →
  wp (exec_ops os) (λ rs s', ∃ l' ds, vsteps l os rs l' ds ∧ vec_rep s' l' ∧
    dropped s' = dropped s ++ ds ∧ rest s' = rest s) s.
Proof.
  induction os as [|o os IH]; intros s l Hr Hok; simpl.
  - apply wp_ret. exists l, []. rewrite app_nil_r. split_and!; [constructor|done..].
  - apply Forall_cons in Hok as [Ho Hok]. apply wp_bind.
    eapply wp_mono; [by apply exec_op_refines|]. intros r s1 (l1 & d1 & Hs & Hr1 & Hd1 & Hrest1).
    apply wp_bind. eapply wp_mono; [by apply IH|].
    intros rs s2 (l2 & d2 & Hss & Hr2 & Hd2 & Hrest2). apply wp_ret.
    exists l2, (d1 ++ d2). split_and!; [by econstructor|done| |congruence].
    by rewrite Hd2, Hd1, <- app_assoc.
Qed.

Lemma iter_take_ok n : ∀ (s : St T IntoIter) (pre l : list T), iter_rep s pre l →
  wp (iter_take n) (λ xs s', ∃ pre', omap id xs = take n l ∧ length xs = n ∧
    iter_rep s' pre' (drop n l) ∧ pre' ++ drop n l = pre ++ l ∧
    hp s' = hp s ∧ dropped s' = dropped s ∧ ibuf (obj s') = ibuf (obj s) ∧
    ilayout (obj s') = ilayout (obj s)) s.
Proof.
  induction n as [|n IH]; intros s pre l Hr; simpl.
  - apply wp_ret. exists pre. by rewrite take_0, drop_0.
  - apply wp_bind. eapply wp_mono; [by apply iter_next_ok|]. intros r s1 H.
    apply wp_bind. destruct l as [|x l].
    + destruct H as [-> ->]. eapply wp_mono; [by apply IH|].
      intros xs s' (pre' & H1 & H2 & H3 & H4 & H5). apply wp_ret. exists pre'.
      rewrite take_nil, drop_nil in *. simpl. split_and!; [done|lia|done..|apply H5|apply H5|apply H5|apply H5].
    + destruct H as (-> & Hr1 & Hh & Hd & Hb & Hl). eapply wp_mono; [by apply IH|].
      intros xs s' (pre' & H1 & H2 & H3 & H4 & H5 & H6 & H7 & H8). apply wp_ret. exists pre'. simpl.
      split_and!; [cbn; by f_equal|lia|done| |congruence..]. rewrite H4, <- app_assoc. done.
Qed.

Lemma iter_drop_ok (s : St T IntoIter) (pre l : list T) :
  iter_rep s pre l →
  wp iter_drop (λ _ s', hp s' = rest (vec_view s 0) ∧ dropped s' = dropped s ++ l) s.
Proof.
  intros Hr. pose proof (it_view _ _ _ Hr) as Hv. pose proof (rep_inv _ _ Hv) as Hi.
  unfold iter_drop, iter_self. wp_steps. rewrite (it_ptr _ _ _ Hr), (it_len _ _ _ Hr).
  apply wp_drop_in_place.
  { intros i x Hx. pose proof (it_slot _ _ _ i x Hr Hx) as Hs.
    rewrite Nat2Z.inj_add in Hs. exact Hs. }
  eapply wp_bind, wp_lift; [apply ArrayLayout_into_ok; apply (inv_layout _ Hi)|].
  apply wp_bind, wp_get, wp_modify. simpl. split; [|done]. exact (free_buf _ Hi).
Qed.

(** A partly consumed iterator started on [l]. *)
Lemma iter_start (s : St T Vec) l n : vec_rep s l →
  wp (iter_take n) (λ xs s', ∃ pre', omap id xs = take n l ∧ length xs = n ∧
    iter_rep s' pre' (drop n l) ∧ dropped s' = dropped s ∧ rest (vec_view s' 0) = rest s)
    (set_obj (into_iter T (obj s)) s).
Proof.
  intros Hr. eapply wp_mono; [by apply iter_take_ok, into_iter_rep|].
  intros xs s' (pre' & H1 & H2 & H3 & _ & H5 & H6 & H7 & H8). exists pre'.
  split_and!; try done. unfold rest, own, vec_view. simpl. by rewrite H5, H7, H8.
Qed.
End Refinement.

(** C2: every sequence of vector operations refines the abstract contract on
    lists. From any vector that represents a list, for every allocator that obeys
    its contract and every element type (zero-sized ones included), the unsafe
    implementation runs to completion, with no panic and no undefined behaviour;
    the observations, the final contents and the log of destructors are those of a
    run of [vsteps], and no other heap block changes. *)
Theorem vec_program_refines {T} {RT : RType T} {RTok : RTypeOk T} {AL : Allocator T}
    {ALs : AllocatorSpec T} (os : list (vop T)) (s : St T Vec) l
    (Hr : vec_rep s l) (Hok : Forall vop_ok os) :
  ∃ rs s' l' ds, exec_ops os s = Done (rs, s') ∧ vsteps l os rs l' ds ∧ vec_rep s' l' ∧
    dropped s' = dropped s ++ ds ∧ rest s' = rest s.
Proof.
  destruct (exec_ops_refine os s l Hr Hok) as (rs & s' & He & l' & ds & H). eauto 10.
Qed.

Definition demo_ops : list (vop Z) :=
  [OPush 7 (MkFlags 0); OInsert 0 9; ORemove 2; OInsert 99 4; OPop; ORetain Z.odd; OTruncate 1].

Lemma vec_program_refines_witness :
  ∃ rs s' l' ds, exec_ops (AL := Kmalloc (ref_realloc 4096)) demo_ops demo_vec = Done (rs, s') ∧
    vsteps [1; 2; 3] demo_ops rs l' ds ∧ vec_rep s' l' ∧
    dropped s' = dropped demo_vec ++ ds ∧ rest s' = rest demo_vec.
Proof.
  apply (vec_program_refines (AL := Kmalloc (ref_realloc 4096)) demo_ops demo_vec [1; 2; 3]
    demo_vec_rep). repeat constructor; vm_compute; congruence.
Defined.

(** C10: ownership of elements and memory over the whole life of a vector. Start
    from [Vec::new], run any operations, drop the vector: the heap is again the
    initial one (nothing leaks, nothing is freed twice), and the elements that went
    in are, as a multiset, exactly those handed back to the caller plus those whose
    destructor ran (none is lost, duplicated or dropped twice). *)
Theorem vec_lifetime_conserves {T} {RT : RType T} {RTok : RTypeOk T} {AL : Allocator T}
    {ALs : AllocatorSpec T} (os : list (vop T)) (h : gmap Z (block T))
    (Hh : heap_ok h) (Hok : Forall vop_ok os) :
  ∃ rs s', (rs ← exec_ops os; _ ← vec_drop; mret rs) (MkSt h (new T) []) = Done (rs, s') ∧
    hp s' = h ∧ (os ≫= vop_in) ≡ₚ (rs ≫= vobs_out) ++ dropped s'.
Proof.
  assert (wp (rs ← exec_ops os; _ ← vec_drop; mret rs)
    (λ rs s', hp s' = h ∧ (os ≫= vop_in) ≡ₚ (rs ≫= vobs_out) ++ dropped s')
    (MkSt h (new T) [])) as (rs & s' & He & HQ); [|by exists rs, s'].
  apply wp_bind. eapply wp_mono; [by apply exec_ops_refine; [apply new_rep|]|].
  intros rs s1 (l' & ds & Hs & Hr & Hd & Hrest). apply wp_bind.
  eapply wp_vec_drop; [done|]. intros s2 Hh2 Hd2. apply wp_ret. rewrite new_rest in Hrest.
  split; [congruence|]. apply vsteps_conserve in Hs. rewrite app_nil_r in Hs. rewrite Hs, Hd2, Hd.
  solve_Permutation.
Qed.

Lemma vec_lifetime_conserves_witness :
  let AL := Kmalloc (ref_realloc 4096) in
  ∃ rs s', (rs ← exec_ops demo_ops; _ ← vec_drop; mret rs) (MkSt ∅ (new Z) []) = Done (rs, s') ∧
    hp s' = ∅ ∧ [7; 9; 4] ≡ₚ (rs ≫= vobs_out) ++ dropped s'.
Proof.
  apply (vec_lifetime_conserves (AL := Kmalloc (ref_realloc 4096)) demo_ops ∅).
  - by intros ? ? ?.
  - repeat constructor; vm_compute; congruence.
Defined.

(** An [IntoIter] yields the elements in order and owns the rest. After [n]
    calls of [next], [collect] makes a vector of exactly the remaining elements
    (also when the shrinking reallocation fails), and dropping the iterator instead
    drops exactly those and releases the buffer; neither leaks or drops an element
    that was handed out. *)
Theorem into_iter_roundtrip {T} {RT : RType T} {RTok : RTypeOk T} {AL : Allocator T}
    {ALs : AllocatorSpec T} (s : St T Vec) l n fl (Hr : vec_rep s l) :
  ∃ xs s1, iter_take n (set_obj (into_iter T (obj s)) s) = Done (xs, s1) ∧
    omap id xs = take n l ∧
    (∃ v s2, collect fl s1 = Done (v, s2) ∧ vec_rep (set_obj v s2) (drop n l) ∧
       rest (set_obj v s2) = rest s ∧ dropped s2 = dropped s) ∧
    (∃ s3, iter_drop s1 = Done (tt, s3) ∧ hp s3 = rest s ∧ dropped s3 = dropped s ++ drop n l).
Proof.
  destruct (iter_start s l n Hr) as (xs & s1 & He & pre & Hx & _ & Hi & Hd & Hrest).
  exists xs, s1. split; [done|split; [done|split]].
  - destruct (collect_ok s1 pre (drop n l) fl Hi) as (v & s2 & Hc & H1 & H2 & H3).
    exists v, s2. split_and!; [done..|congruence|congruence].
  - destruct (iter_drop_ok s1 pre (drop n l) Hi) as ([] & s3 & Hc & H1 & H2).
    exists s3. split_and!; [done|congruence|congruence].
Qed.

Lemma into_iter_roundtrip_witness :
  ∃ xs s1, iter_take 2 (set_obj (into_iter Z (obj demo_vec)) demo_vec) = Done (xs, s1) ∧
    omap id xs = [1; 2] ∧
    (∃ v s2, collect (AL := Kmalloc (ref_realloc 4096)) (MkFlags 0) s1 = Done (v, s2) ∧
       vec_rep (set_obj v s2) [3] ∧ rest (set_obj v s2) = rest demo_vec ∧ dropped s2 = []) ∧
    (∃ s3, iter_drop (AL := Kmalloc (ref_realloc 4096)) s1 = Done (tt, s3) ∧
       hp s3 = rest demo_vec ∧ dropped s3 = [3]).
Proof.
  exact (into_iter_roundtrip (AL := Kmalloc (ref_realloc 4096)) demo_vec [1; 2; 3] 2 (MkFlags 0)
    demo_vec_rep).
Defined.

Section Drain.
Context {T : Type} {RT : RType T} {RTok : RTypeOk T} {AL : Allocator T} {ALs : AllocatorSpec T}.

Lemma drain_take_ok n : ∀ (s : St T Vec) i (l : list T),
  (∀ (k : nat) x, l !! k = Some x → slot (hp s) (vptr (obj s)) (off T (i + Z.of_nat k)) = Some x) →
  wp (drain_take n (i, Z.of_nat (length l))) (λ out s', s' = s ∧ fst out = take n l ∧
    snd out = (i + Z.of_nat (length (take n l)), Z.of_nat (length (drop n l)))) s.
Proof.
  induction n as [|n IH]; intros s i l Hs; simpl.
  - apply wp_ret. simpl. by rewrite Z.add_0_r, drop_0.
  - apply wp_bind. unfold drain_next. simpl. destruct l as [|x l].
    + simpl. apply wp_ret, wp_ret. by rewrite Z.add_0_r.
    + rewrite (proj2 (Z.eqb_neq _ _)) by (simpl; lia). apply wp_bind, wp_self, wp_bind.
      eapply wp_read with (x := x).
      { rewrite <- (Hs 0%nat x eq_refl). by rewrite Z.add_0_r. }
      apply wp_ret. cbn [fst snd]. apply wp_bind.
      replace (Z.of_nat (length (x :: l)) - 1) with (Z.of_nat (length l)) by (simpl; lia).
      eapply wp_mono; [apply IH|].
      { intros k y Hy. rewrite <- (Hs (S k) y Hy). f_equal. unfold off. lia. }
      intros out s' (-> & H1 & H2). apply wp_ret. simpl. rewrite H1, H2.
      split_and!; [done..|]. f_equal; lia.
Qed.

Lemma drain_some_ok n (s : St T Vec) l : vec_rep s l →
  wp (drain_some true n) (λ xs s', xs = take n l ∧ vec_rep s' [] ∧ rest s' = rest s ∧
    dropped s' = dropped s ++ drop n l) s.
Proof.
  intros Hr. pose proof (rep_inv _ _ Hr) as Hi. pose proof (rep_len _ _ Hr) as Hl.
  unfold drain_some, drain_all. apply wp_bind, wp_bind, wp_self.
  apply wp_dec_len; [done|lia|]. rewrite Z.sub_diag. set (s1 := set_obj _ s).
  apply wp_bind. rewrite Hl. eapply wp_mono.
  { apply drain_take_ok. intros k x Hx. by apply (rep_read s l k x Hr). }
  intros out s' (-> & Hf & Hsn). rewrite Hf, Hsn. unfold drain_drop. simpl.
  apply wp_bind, wp_bind, wp_self, wp_drop_in_place.
  { intros k x Hx. rewrite lookup_drop in Hx. pose proof (lookup_lt_Some _ _ _ Hx).
    rewrite length_take. rewrite <- (rep_read s l _ x Hr Hx). simpl. repeat f_equal. lia. }
  apply wp_ret. split_and!; [done| |done|done].
  apply view_rep; [|done|by intros ? ?]. apply (vec_inv_ext s1); [done..|].
  apply inv_with_len; [done|]. pose proof (capacity_bound _ Hi). pose proof (inv_len _ Hi). lia.
Qed.
End Drain.

(** [drain_all] empties the vector and owns its elements: the draining
    iterator yields them in order, dropping it part-way drops exactly those not
    yet yielded, and the emptied vector keeps its buffer. *)
Theorem drain_all_correct {T} {RT : RType T} {RTok : RTypeOk T} {AL : Allocator T}
    {ALs : AllocatorSpec T} (s : St T Vec) l n (Hr : vec_rep s l) :
  ∃ s', drain_some true n s = Done (take n l, s') ∧ vec_rep s' [] ∧ rest s' = rest s ∧
    dropped s' = dropped s ++ drop n l.
Proof.
  destruct (drain_some_ok n s l Hr) as (xs & s' & He & -> & H). by exists s'.
Qed.

Lemma drain_all_correct_witness :
  ∃ s', drain_some true 2 demo_vec = Done ([1; 2], s') ∧ vec_rep s' [] ∧
    rest s' = rest demo_vec ∧ dropped s' = [3].
Proof.
  exact (drain_all_correct (AL := Kmalloc (ref_realloc 4096)) demo_vec [1; 2; 3] 2 demo_vec_rep).
Defined.
