(* ===== verification/LinkedList.v ===== *)
(** * The intrusive linked list ([rust/src/list.rs], [rust/src/list/impl_list_item_mod.rs])

    A [List] is a pointer to the first of a cycle of [ListLinksFields] embedded in
    the items; the unsafe code manipulates these fields through raw pointers. The
    model keeps the fields in a map from addresses, so that an access through a
    null or dangling pointer is [UB]; the theorems show that no operation does
    this and that the cycle represents the sequence of items it should.

    [ListItem] is the trait through which a list finds the links of an item and
    back; it is a class with its documented guarantees as laws, and the two
    expansions of [impl_list_item!] are its instances. *)

From S2P Require Import Prelude.

(** ** State *)

(** [ListLinksFields]. *)
Record Links := MkLinks { lnext : Z; lprev : Z }.

(** [ListLinks::new]: the links of an item that is in no list. *)
Definition links_new : Links := MkLinks null null.

(** The link fields, the [self_ptr] cells of [ListLinksSelfPtr] ([None] until
    first written) and the [first] pointer of the list. *)
Record LSt := MkLSt { lk : gmap Z Links; sp : gmap Z (option Z); first : Z }.

Definition set_lk (m : gmap Z Links) (s : LSt) : LSt := MkLSt m (sp s) (first s).
Definition set_sp (m : gmap Z (option Z)) (s : LSt) : LSt := MkLSt (lk s) m (first s).
Definition set_first (p : Z) (s : LSt) : LSt := MkLSt (lk s) (sp s) p.

Local Abbreviation LM := (M LSt).

(** A read of the fields behind [p], and assignments to its [next] and [prev]. *)
Definition load (p : Z) : LM Links := λ s,
  match lk s !! p with Some l => Done (l, s) | None => UB end.
Definition store_next (p q : Z) : LM unit := λ s,
  match lk s !! p with
  | Some l => Done (tt, set_lk (<[p := MkLinks q (lprev l)]> (lk s)) s)
  | None => UB
  end.
Definition store_prev (p q : Z) : LM unit := λ s,
  match lk s !! p with
  | Some l => Done (tt, set_lk (<[p := MkLinks (lnext l) q]> (lk s)) s)
  | None => UB
  end.
Definition read_first : LM Z := s ← get; mret (first s).
Definition write_first (p : Z) : LM unit := modify (set_first p).

(** ** [ListItem] *)

Class ListItem := {
  view_links : Z → Z;
  view_value : Z → LM Z;
  prepare_to_insert : Z → LM Z;
  post_remove : Z → LM Z;
}.

(** The guarantees documented on the trait. [valid_item s v]: [v] points at a
    valid value; [inserted s v]: [prepare_to_insert] was called on [v], and
    [post_remove] not since. *)
Class ListItemSpec `{ListItem} := {
  valid_item : gmap Z (option Z) → Z → Prop;
  inserted : gmap Z (option Z) → Z → Prop;
  view_links_inj :: Inj (=) (=) view_links;
  prepare_ok v s : valid_item (sp s) v →
    wp (prepare_to_insert v) (λ l s', l = view_links v ∧ inserted (sp s') v ∧
      lk s' = lk s ∧ first s' = first s ∧
      (∀ w, valid_item (sp s) w → valid_item (sp s') w) ∧
      (∀ w, w ≠ v → inserted (sp s) w → inserted (sp s') w)) s;
  view_value_ok v s : inserted (sp s) v → wp (view_value (view_links v)) (λ w s', w = v ∧ s' = s) s;
  post_remove_ok v s : inserted (sp s) v →
    wp (post_remove (view_links v)) (λ w s', w = v ∧ s' = s) s;
  inserted_valid m v : inserted m v → valid_item m v;
}.

(** [impl_list_item! { using ListLinks }], for an item with its links at [OFFSET]. *)
Section UsingListLinks.
Context (OFFSET : Z).

Definition raw_get_list_links (ptr : Z) : Z := ptr + OFFSET.

Definition using_ListLinks : ListItem := {|
  view_links := raw_get_list_links;
  view_value := λ me, mret (me - OFFSET);
  prepare_to_insert := λ me, mret (raw_get_list_links me);
  post_remove := λ me, mret (me - OFFSET);
|}.
End UsingListLinks.

(** [impl_list_item! { using ListLinksSelfPtr }]: the value pointer is kept in a
    cell next to the links. *)
Section UsingSelfPtr.
Context (OFFSET LIST_LINKS_SELF_PTR_OFFSET : Z).

Definition self_ptr_write (c v : Z) : LM unit := λ s,
  match sp s !! c with
  | Some _ => Done (tt, set_sp (<[c := Some v]> (sp s)) s)
  | None => UB
  end.
Definition self_ptr_read (c : Z) : LM Z := λ s,
  match sp s !! c with Some (Some v) => Done (v, s) | _ => UB end.

Definition using_ListLinksSelfPtr : ListItem := {|
  view_links := raw_get_list_links OFFSET;
  view_value := λ me, self_ptr_read (me + LIST_LINKS_SELF_PTR_OFFSET);
  prepare_to_insert := λ me,
    let links_field := raw_get_list_links OFFSET me in
    _ ← self_ptr_write (links_field + LIST_LINKS_SELF_PTR_OFFSET) me;
    mret links_field;
  post_remove := λ me, self_ptr_read (me + LIST_LINKS_SELF_PTR_OFFSET);
|}.
End UsingSelfPtr.

(** ** Operations of [List] *)

Section Ops.
Context `{LI : ListItem}.

Definition list_is_empty (s : LSt) : bool := is_null (first s).

Definition insert_inner (raw_item next : Z) : LM Z :=
  item ← prepare_to_insert raw_item;
  if is_null next then
    _ ← store_next item item;
    _ ← store_prev item item;
    _ ← write_first item;
    mret item
  else
    n ← load next;
    let prev := lprev n in
    _ ← store_next item next;
    _ ← store_prev item prev;
    _ ← store_next prev item;
    _ ← store_prev next item;
    mret item.

Definition push_back (item : Z) : LM unit :=
  f ← read_first; _ ← insert_inner item f; mret tt.

Definition push_front (item : Z) : LM unit :=
  f ← read_first; new_elem ← insert_inner item f; write_first new_elem.

Definition remove_internal_inner (item next prev : Z) : LM Z :=
  _ ← store_prev next prev;
  _ ← store_next prev next;
  _ ← store_prev item null;
  _ ← store_next item null;
  f ← read_first;
  _ ← (if f =? item then p ← load prev; write_first (lnext p) else mret tt);
  post_remove item.

Definition remove_internal (item : Z) : LM Z :=
  l ← load item; remove_internal_inner item (lnext l) (lprev l).

Definition pop_back : LM (option Z) :=
  f ← read_first;
  if is_null f then mret None
  else l ← load f; x ← remove_internal (lprev l); mret (Some x).

Definition pop_front : LM (option Z) :=
  f ← read_first;
  if is_null f then mret None
  else x ← remove_internal f; mret (Some x).

(** [List::remove], with its debug assertions. *)
Definition list_remove (value : Z) : LM (option Z) :=
  let item := view_links value in
  l ← load item;
  let next := lnext l in
  let prev := lprev l in
  if negb (Bool.eqb (is_null next) (is_null prev)) then panic
  else if negb (is_null next) then
    n ← load next;
    if negb (item =? lprev n) then panic
    else x ← remove_internal_inner (lprev n) next prev; mret (Some x)
  else mret None.

(** [push_all_back], given the [first] pointer of the other list; returns its new
    value. *)
Definition push_all_back (other : Z) : LM Z :=
  f ← read_first;
  if is_null f then _ ← write_first other; mret null
  else if negb (is_null other) then
    let other_first := other in
    o ← load other_first;
    let other_last := lprev o in
    let self_first := f in
    sf ← load self_first;
    let self_last := lprev sf in
    _ ← store_prev self_first other_last;
    _ ← store_next other_last self_first;
    _ ← store_next self_last other_first;
    _ ← store_prev other_first self_last;
    mret null
  else mret null.

(** [Drop for List]; returns the items in the order in which they are dropped. *)
Fixpoint list_drop (fuel : nat) : LM (list Z) :=
  match fuel with
  | O => ub
  | S fuel =>
      item ← pop_front;
      match item with
      | None => mret []
      | Some x => xs ← list_drop fuel; mret (x :: xs)
      end
  end.

(** [Iter]: the current pointer and where to stop. *)
Definition list_iter (s : LSt) : Z * Z := (first s, first s).

Definition list_iter_next (it : Z * Z) : LM (option Z * (Z * Z)) :=
  let '(current, stop) := it in
  if is_null current then mret (None, it)
  else
    l ← load current;
    let next := lnext l in
    let current' := if negb (next =? stop) then next else null in
    item ← view_value current;
    mret (Some item, (current', stop)).

Fixpoint list_iter_collect (fuel : nat) (it : Z * Z) : LM (list Z) :=
  match fuel with
  | O => ub
  | S fuel =>
      out ← list_iter_next it;
      match fst out with
      | None => mret []
      | Some x => xs ← list_iter_collect fuel (snd out); mret (x :: xs)
      end
  end.
End Ops.

(** ** [Cursor]

    A cursor borrows the list and holds the pointer to the element after it. *)

Record CSt := MkCSt { clist : LSt; cnext : Z }.

Definition set_cnext (p : Z) (c : CSt) : CSt := MkCSt (clist c) p.

(** Runs a list operation through [self.list]. *)
Definition on_list {A} (m : LM A) : M CSt A := λ c,
  match m (clist c) with
  | Done (a, s) => Done (a, MkCSt s (cnext c))
  | Panic => Panic
  | UB => UB
  end.

Section CursorOps.
Context `{LI : ListItem}.
Local Abbreviation CM := (M CSt).

Definition cursor_front (s : LSt) : CSt := MkCSt s (first s).
Definition cursor_back (s : LSt) : CSt := MkCSt s null.

Definition prev_ptr : CM Z :=
  c ← get;
  let next := cnext c in
  let first := first (clist c) in
  if next =? first then mret null
  else
    let next := if is_null next then first else next in
    l ← on_list (load next);
    mret (lprev l).

(** [CursorPeek] is the pointer of the element it looks at. *)
Definition peek_next : CM (option Z) :=
  c ← get; if is_null (cnext c) then mret None else mret (Some (cnext c)).

Definition peek_prev : CM (option Z) :=
  prev ← prev_ptr; if is_null prev then mret None else mret (Some prev).

Definition move_next : CM bool :=
  c ← get;
  if is_null (cnext c) then mret false
  else
    l ← on_list (load (cnext c));
    let next := if lnext l =? first (clist c) then null else lnext l in
    _ ← modify (set_cnext next);
    mret true.

Definition move_prev : CM bool :=
  c ← get;
  if cnext c =? first (clist c) then mret false
  else p ← prev_ptr; _ ← modify (set_cnext p); mret true.

Definition cursor_insert_inner (item : Z) : CM Z :=
  c ← get;
  let ptr := if is_null (cnext c) then first (clist c) else cnext c in
  item ← on_list (insert_inner item ptr);
  c ← get;
  _ ← (if cnext c =? first (clist c) then on_list (write_first item) else mret tt);
  mret item.

Definition cursor_insert (item : Z) : CM unit := _ ← cursor_insert_inner item; mret tt.
Definition insert_next (item : Z) : CM unit := p ← cursor_insert_inner item; modify (set_cnext p).
Definition insert_prev (item : Z) : CM unit := _ ← cursor_insert_inner item; mret tt.

(** [CursorPeek::remove] and [CursorPeek::arc]. *)
Definition peek_remove (ISNEXT : bool) (ptr : Z) : CM Z :=
  _ ← (if ISNEXT then move_next else mret true);
  on_list (remove_internal ptr).
Definition peek_arc (ptr : Z) : CM Z := on_list (view_value ptr).

Definition remove_next : CM (option Z) :=
  p ← peek_next;
  match p with None => mret None | Some p => x ← peek_remove true p; mret (Some x) end.

Definition remove_prev : CM (option Z) :=
  p ← peek_prev;
  match p with None => mret None | Some p => x ← peek_remove false p; mret (Some x) end.
End CursorOps.

(** ** The instances satisfy the guarantees of the trait *)

Section Instances.
Context (OFFSET SPOFF : Z).

Lemma raw_get_inj : Inj (=) (=) (raw_get_list_links OFFSET).
Proof. unfold raw_get_list_links. intros x y H. lia. Qed.

Definition using_ListLinks_spec : @ListItemSpec (using_ListLinks OFFSET).
Proof.
  refine (@Build_ListItemSpec (using_ListLinks OFFSET) (λ _ _, True) (λ _ _, True)
    raw_get_inj _ _ _ _).
  - intros v s _. by apply wp_ret.
  - intros v s _. apply wp_ret. simpl. unfold raw_get_list_links. split; [lia|done].
  - intros v s _. apply wp_ret. simpl. unfold raw_get_list_links. split; [lia|done].
  - done.
Defined.

Definition self_cell (v : Z) : Z := raw_get_list_links OFFSET v + SPOFF.

Lemma self_ptr_read_ok s v : sp s !! self_cell v = Some (Some v) →
  wp (self_ptr_read (self_cell v)) (λ w s', w = v ∧ s' = s) s.
Proof. intros H. exists v, s. unfold self_ptr_read. by rewrite H. Qed.

Definition using_ListLinksSelfPtr_spec : @ListItemSpec (using_ListLinksSelfPtr OFFSET SPOFF).
Proof.
  refine (@Build_ListItemSpec (using_ListLinksSelfPtr OFFSET SPOFF)
    (λ m v, is_Some (m !! self_cell v)) (λ m v, m !! self_cell v = Some (Some v))
    raw_get_inj _ _ _ _).
  - intros v s [o Ho]. simpl. eexists _, (set_sp (<[self_cell v := Some v]> (sp s)) s).
    split; [unfold mbind, M_bind, self_ptr_write; fold (self_cell v); by rewrite Ho|].
    simpl. split_and!; [done|by rewrite lookup_insert_eq|done|done|..].
    + intros w Hw. destruct (decide (self_cell v = self_cell w)) as [->|Hn];
        [rewrite lookup_insert_eq; eauto|by rewrite lookup_insert_ne].
    + intros w Hw Hi. rewrite lookup_insert_ne; [done|].
      unfold self_cell, raw_get_list_links. lia.
  - intros v s Hi. by apply self_ptr_read_ok.
  - intros v s Hi. by apply self_ptr_read_ok.
  - intros m v ->. eauto.
Defined.
End Instances.

(** ** Cycles of links *)

(** [chain m p l n]: the links of [l] form a segment that starts after [p] and ends
    before [n]. *)
Fixpoint chain (m : gmap Z Links) (p : Z) (l : list Z) (n : Z) : Prop :=
  match l with
  | [] => True
  | x :: l => m !! x = Some (MkLinks (hdz n l) p) ∧ chain m x l n
  end.

Definition cycle (m : gmap Z Links) (l : list Z) : Prop := chain m (lastz 0 l) l (hdz 0 l).

Lemma chain_app m p l1 l2 n :
  chain m p (l1 ++ l2) n ↔ chain m p l1 (hdz n l2) ∧ chain m (lastz p l1) l2 n.
Proof.
  revert p. induction l1 as [|x l1 IH]; intros p; simpl; [by intuition|].
  rewrite IH, hdz_app, lastz_cons. tauto.
Qed.

(** A change outside of the segment. *)
Lemma chain_frame m m' p l n :
  (∀ x, x ∈ l → m' !! x = m !! x) → chain m p l n → chain m' p l n.
Proof.
  revert p. induction l as [|x l IH]; intros p Hf; simpl; [done|].
  intros [Hx Hc]. rewrite Hf by set_solver. split; [done|]. apply IH; [set_solver|done].
Qed.

Lemma cycle_cons m x l : cycle m (x :: l) ↔ m !! x = Some (MkLinks (hdz x l) (lastz x l)) ∧ chain m x l x.
Proof. unfold cycle. simpl. by rewrite lastz_cons. Qed.

(** The cycle may be read from any of its elements. *)
Lemma cycle_rotate m l1 l2 : cycle m (l1 ++ l2) → cycle m (l2 ++ l1).
Proof.
  destruct l1 as [|x l1]; [by rewrite app_nil_r|]. destruct l2 as [|y l2]; [by rewrite app_nil_r|].
  unfold cycle. rewrite !chain_app, !lastz_app, !hdz_app, !lastz_cons. simpl. tauto.
Qed.

Lemma cycle_frame m m' l : (∀ x, x ∈ l → m' !! x = m !! x) → cycle m l → cycle m' l.
Proof. apply chain_frame. Qed.

Lemma cycle_dom m l x : cycle m l → x ∈ l → is_Some (m !! x).
Proof.
  intros Hc (l1 & l2 & ->)%list_elem_of_split. apply cycle_rotate, cycle_cons in Hc as [Hc _].
  eauto.
Qed.

(** The last element points back at the first. *)
Lemma cycle_last m l : cycle m l → l ≠ [] →
  ∃ q, m !! lastz 0 l = Some (MkLinks (hdz 0 l) q).
Proof.
  destruct l as [|x l _] using rev_ind; [done|]. intros Hc%cycle_rotate _.
  apply cycle_cons in Hc as [Hc _]. rewrite lastz_snoc, hdz_app. simpl. eauto.
Qed.

(** The link updates of the source, on the map. *)
Definition upd_next (p q : Z) (m : gmap Z Links) : gmap Z Links :=
  alter (λ l, MkLinks q (lprev l)) p m.
Definition upd_prev (p q : Z) (m : gmap Z Links) : gmap Z Links :=
  alter (λ l, MkLinks (lnext l) q) p m.

Lemma upd_next_eq p q m l : m !! p = Some l → upd_next p q m !! p = Some (MkLinks q (lprev l)).
Proof. intros H. unfold upd_next. by rewrite lookup_alter_eq, H. Qed.
Lemma upd_prev_eq p q m l : m !! p = Some l → upd_prev p q m !! p = Some (MkLinks (lnext l) q).
Proof. intros H. unfold upd_prev. by rewrite lookup_alter_eq, H. Qed.
Lemma upd_next_ne p q m x : x ≠ p → upd_next p q m !! x = m !! x.
Proof. intros H. unfold upd_next. by rewrite lookup_alter_ne. Qed.
Lemma upd_prev_ne p q m x : x ≠ p → upd_prev p q m !! x = m !! x.
Proof. intros H. unfold upd_prev. by rewrite lookup_alter_ne. Qed.
Lemma upd_next_Some p q m x : is_Some (upd_next p q m !! x) ↔ is_Some (m !! x).
Proof. apply lookup_alter_is_Some. Qed.
Lemma upd_prev_Some p q m x : is_Some (upd_prev p q m !! x) ↔ is_Some (m !! x).
Proof. apply lookup_alter_is_Some. Qed.

(** Evaluates updated links; the side conditions are disequalities of addresses. *)
Ltac upd_simpl :=
  repeat first
    [ rewrite upd_next_ne by (done || congruence)
    | rewrite upd_prev_ne by (done || congruence)
    | erewrite upd_next_eq by (upd_simpl; done)
    | erewrite upd_prev_eq by (upd_simpl; done) ]; simpl.

Lemma upd_next_prev p q p' q' m : upd_next p q (upd_prev p' q' m) = upd_prev p' q' (upd_next p q m).
Proof.
  unfold upd_next, upd_prev. destruct (decide (p = p')) as [->|Hn].
  - by rewrite !alter_alter_eq.
  - by rewrite alter_alter_ne.
Qed.

Lemma upd_next_comm p q p' q' m : p ≠ p' →
  upd_next p q (upd_next p' q' m) = upd_next p' q' (upd_next p q m).
Proof. intros H. unfold upd_next. by rewrite alter_alter_ne. Qed.

Lemma upd_prev_comm p q p' q' m : p ≠ p' →
  upd_prev p q (upd_prev p' q' m) = upd_prev p' q' (upd_prev p q m).
Proof. intros H. unfold upd_prev. by rewrite alter_alter_ne. Qed.

(** Redirecting the two ends of a segment. *)
Lemma chain_relink m p l n p' n' :
  l ≠ [] → NoDup l → chain m p l n →
  chain (upd_next (lastz 0 l) n' (upd_prev (hdz 0 l) p' m)) p' l n'.
Proof.
  destruct l as [|x l _] using rev_ind; [done|]. intros _ Hnd Hc. rewrite lastz_snoc.
  apply NoDup_app in Hnd as (Hnd & Hx & _). apply chain_app in Hc as [Hc1 [Hc2 _]].
  apply chain_app. destruct l as [|y l].
  - simpl in *. split; [done|]. split; [|done]. by upd_simpl.
  - assert (x ≠ y) by set_solver. split.
    + apply (chain_frame (upd_prev y p' m)).
      { intros z Hz. apply upd_next_ne. set_solver. }
      simpl in *. destruct Hc1 as [Hy Hc1]. split; [by upd_simpl|].
      eapply chain_frame; [|exact Hc1]. intros z Hz. apply upd_prev_ne.
      apply NoDup_cons in Hnd. set_solver.
    + simpl. split; [|done]. rewrite lastz_cons in *. by upd_simpl.
Qed.

Lemma cycle_insert m n l item o :
  NoDup (n :: l) → item ∉ n :: l → m !! item = Some o → cycle m (n :: l) →
  let p := lastz n l in
  cycle (upd_prev n item (upd_next p item (upd_prev item p (upd_next item n m)))) (n :: l ++ [item]).
Proof.
  intros Hnd Hi Ho Hc p. unfold cycle in *. rewrite lastz_cons in *.
  rewrite lastz_snoc. change (n :: l ++ [item]) with ((n :: l) ++ [item]).
  apply chain_app. rewrite <- upd_next_prev. set (m1 := upd_prev item p (upd_next item n m)).
  assert (n ≠ item) by set_solver. assert (p ≠ item).
  { intros E. apply Hi. rewrite <- E. unfold p. rewrite <- (lastz_cons 0). by apply lastz_in. }
  split.
  - pose proof (chain_relink m1 p (n :: l) n item item) as Hl. rewrite lastz_cons in Hl.
    apply Hl; [done|done|].
    eapply chain_frame; [|exact Hc]. intros z Hz. unfold m1.
    rewrite upd_prev_ne, upd_next_ne by set_solver. done.
  - simpl. split; [|done]. unfold m1. rewrite lastz_cons. by upd_simpl.
Qed.

Lemma cycle_remove m x l :
  NoDup (x :: l) → cycle m (x :: l) →
  let next := hdz x l in let prev := lastz x l in
  let m' := upd_next x 0 (upd_prev x 0 (upd_next prev next (upd_prev next prev m))) in
  cycle m' l ∧ m' !! x = Some links_new.
Proof.
  intros Hnd [Hx Hc]%cycle_cons next prev. cbn zeta. apply NoDup_cons in Hnd as [Hxl Hnd]. split.
  - destruct (decide (l = [])) as [->|Hne]; [done|].
    apply (chain_frame (upd_next prev next (upd_prev next prev m))).
    { intros z Hz. rewrite upd_next_ne, upd_prev_ne by set_solver. done. }
    unfold cycle, next, prev. rewrite (hdz_ne 0 x), (lastz_ne 0 x) by done.
    rewrite (hdz_ne x 0), (lastz_ne x 0) by done. by apply (chain_relink m x l x).
  - assert (is_Some (upd_next prev next (upd_prev next prev m) !! x)) as [o Ho].
    { rewrite upd_next_Some, upd_prev_Some. eauto. }
    by upd_simpl.
Qed.

Lemma cycle_splice m l1 l2 :
  l1 ≠ [] → l2 ≠ [] → NoDup (l1 ++ l2) → cycle m l1 → cycle m l2 →
  cycle (upd_prev (hdz 0 l2) (lastz 0 l1) (upd_next (lastz 0 l1) (hdz 0 l2)
    (upd_next (lastz 0 l2) (hdz 0 l1) (upd_prev (hdz 0 l1) (lastz 0 l2) m)))) (l1 ++ l2).
Proof.
  intros H1 H2 (Hn1 & Hd & Hn2)%NoDup_app Hc1 Hc2.
  pose proof (hdz_in 0 l1 H1). pose proof (hdz_in 0 l2 H2).
  pose proof (lastz_in 0 l1 H1). pose proof (lastz_in 0 l2 H2).
  assert (∀ a b, a ∈ l1 → b ∈ l2 → a ≠ b) as Hdis by set_solver.
  unfold cycle. rewrite hdz_app, lastz_app, (hdz_ne (hdz 0 l2) 0 l1), (lastz_ne (lastz 0 l1) 0 l2) by done.
  apply chain_app. rewrite (hdz_ne (hdz 0 l1) 0 l2), (lastz_ne (lastz 0 l2) 0 l1) by done. split.
  - eapply chain_frame; [|by apply (chain_relink m (lastz 0 l1) l1 (hdz 0 l1) (lastz 0 l2) (hdz 0 l2))].
    intros x Hx. rewrite upd_prev_ne by auto. rewrite upd_next_comm by auto.
    rewrite upd_next_ne by auto. done.
  - eapply chain_frame; [|by apply (chain_relink m (lastz 0 l2) l2 (hdz 0 l2) (lastz 0 l1) (hdz 0 l1))].
    intros x Hx. assert (∀ a, a ∈ l1 → x ≠ a) as Hx1 by (intros a Ha ->; by apply (Hdis a a)).
    rewrite <- upd_next_prev, upd_next_ne by auto. rewrite <- upd_next_prev.
    rewrite upd_prev_comm by (apply not_eq_sym; auto). rewrite upd_next_prev.
    by rewrite upd_prev_ne by auto.
Qed.

(** ** Representation *)

Section Rep.
Context `{LIs : ListItemSpec}.
Implicit Types (s : LSt) (v w : Z) (vs : list Z).

(** The items [vs] are linked in a cycle in this order. *)
Record ring (s : LSt) (vs : list Z) : Prop := {
  ring_cycle : cycle (lk s) (view_links <$> vs);
  ring_nodup : NoDup vs;
  ring_nonnull v : v ∈ vs → view_links v ≠ 0;
  ring_inserted v : v ∈ vs → inserted (sp s) v
}.

(** The list holds [vs]. *)
Definition list_rep (s : LSt) (vs : list Z) : Prop :=
  ring s vs ∧ first s = hdz 0 (view_links <$> vs).

(** A valid item that is in no list: the type invariant of [ListLinks]. *)
Definition free_item (s : LSt) (v : Z) : Prop :=
  view_links v ≠ 0 ∧ valid_item (sp s) v ∧ lk s !! view_links v = Some links_new.

(** What an operation on the items [vs] leaves to everyone else. *)
Definition stable (vs : list Z) (s s' : LSt) : Prop :=
  (∀ p, p ∉ view_links <$> vs → lk s' !! p = lk s !! p) ∧
  (∀ w, valid_item (sp s) w → valid_item (sp s') w) ∧
  (∀ w, w ∉ vs → inserted (sp s) w → inserted (sp s') w).

Lemma stable_trans vs s1 s2 s3 : stable vs s1 s2 → stable vs s2 s3 → stable vs s1 s3.
Proof. intros (H1 & H2 & H3) (H4 & H5 & H6). split_and!; intros; [rewrite H4, H1|..]; auto. Qed.

Lemma stable_mono vs vs' s s' : (∀ v, v ∈ vs → v ∈ vs') → stable vs s s' → stable vs' s s'.
Proof.
  intros Hs (H1 & H2 & H3). split_and!; [|done|by intros; apply H3; auto].
  intros p Hp. apply H1. intros (v & -> & Hv)%list_elem_of_fmap. apply Hp, list_elem_of_fmap. eauto.
Qed.

Lemma stable_free vs s s' w : stable vs s s' → w ∉ vs → free_item s w → free_item s' w.
Proof.
  intros (H1 & H2 & _) Hw (Ha & Hb & Hc). split_and!; [done|auto|].
  rewrite H1; [done|]. intros (v & E & Hv)%list_elem_of_fmap. apply (inj _) in E as ->. done.
Qed.

Lemma stable_ring vs s s' ws :
  stable vs s s' → (∀ w, w ∈ ws → w ∉ vs) → ring s ws → ring s' ws.
Proof.
  intros (H1 & H2 & H3) Hd []. split; [|done..|by auto].
  eapply cycle_frame; [|done]. intros p (w & -> & Hw)%list_elem_of_fmap. apply H1.
  intros (v & E & Hv)%list_elem_of_fmap. apply (inj _) in E as ->. by eapply Hd.
Qed.

Lemma ring_rotate s l1 l2 : ring s (l1 ++ l2) → ring s (l2 ++ l1).
Proof.
  intros []. split.
  - rewrite fmap_app in *. by apply cycle_rotate.
  - by rewrite Permutation_app_comm.
  - intros v Hv. apply ring_nonnull0. set_solver.
  - intros v Hv. apply ring_inserted0. set_solver.
Qed.

Lemma ring_links s vs : ring s vs → NoDup (view_links <$> vs).
Proof. intros []. by apply (NoDup_fmap_2 _). Qed.

Lemma ring_load s v l :
  ring s (v :: l) → lk s !! view_links v =
    Some (MkLinks (hdz (view_links v) (view_links <$> l)) (lastz (view_links v) (view_links <$> l))).
Proof. intros [Hc _ _ _]. by apply cycle_cons in Hc as [Hc _]. Qed.

Lemma ring_nil s : ring s [].
Proof. split; [done|constructor|set_solver..]. Qed.

(** An item without links is in no list. *)
Lemma free_not_in s v vs : ring s vs → free_item s v → v ∉ vs.
Proof.
  intros Hr (_ & _ & Hf) (l1 & l2 & ->)%list_elem_of_split. apply ring_rotate in Hr.
  change ((v :: l2) ++ l1) with (v :: (l2 ++ l1)) in Hr.
  pose proof (ring_load s v _ Hr) as Hl. rewrite Hf in Hl. injection Hl as Hn _.
  destruct (view_links <$> l2 ++ l1) as [|p ps] eqn:E; simpl in Hn.
  - symmetry in Hn. revert Hn. apply (ring_nonnull _ _ Hr). set_solver.
  - assert (p ∈ view_links <$> l2 ++ l1) as (w & -> & Hw)%list_elem_of_fmap by (rewrite E; set_solver).
    symmetry in Hn. revert Hn. apply (ring_nonnull _ _ Hr). set_solver.
Qed.

(** *** The primitive accesses *)

Lemma wp_load s p l Q : lk s !! p = Some l → Q l s → wp (load p) Q s.
Proof. intros Hl HQ. exists l, s. unfold load. by rewrite Hl. Qed.

Lemma wp_store_next s p q Q :
  is_Some (lk s !! p) → Q tt (set_lk (upd_next p q (lk s)) s) → wp (store_next p q) Q s.
Proof.
  intros [l Hl] HQ. eexists _, _. unfold store_next. rewrite Hl. split; [done|].
  assert (<[p:=MkLinks q (lprev l)]> (lk s) = upd_next p q (lk s)) as ->; [|done].
  apply map_eq. intros x. unfold upd_next. destruct (decide (x = p)) as [->|].
  - by rewrite lookup_insert_eq, lookup_alter_eq, Hl.
  - by rewrite lookup_insert_ne, lookup_alter_ne.
Qed.

Lemma wp_store_prev s p q Q :
  is_Some (lk s !! p) → Q tt (set_lk (upd_prev p q (lk s)) s) → wp (store_prev p q) Q s.
Proof.
  intros [l Hl] HQ. eexists _, _. unfold store_prev. rewrite Hl. split; [done|].
  assert (<[p:=MkLinks (lnext l) q]> (lk s) = upd_prev p q (lk s)) as ->; [|done].
  apply map_eq. intros x. unfold upd_prev. destruct (decide (x = p)) as [->|].
  - by rewrite lookup_insert_eq, lookup_alter_eq, Hl.
  - by rewrite lookup_insert_ne, lookup_alter_ne.
Qed.
End Rep.

(** Walks through a sequence of field assignments; the side conditions say that
    the fields exist. *)
Ltac wp_links :=
  repeat (apply wp_bind; first
    [ apply wp_store_next; [simpl; repeat (rewrite upd_next_Some || rewrite upd_prev_Some); done|]
    | apply wp_store_prev; [simpl; repeat (rewrite upd_next_Some || rewrite upd_prev_Some); done|] ]); simpl.

Section Specs.
Context `{LIs : ListItemSpec}.
Implicit Types (s : LSt) (v w : Z) (vs : list Z).

Lemma insert_ring_ok s n l v :
  ring s (n :: l) → free_item s v →
  wp (insert_inner v (view_links n)) (λ p s', p = view_links v ∧ ring s' (n :: l ++ [v]) ∧
    first s' = first s ∧ stable (n :: l ++ [v]) s s') s.
Proof.
  intros Hr Hv. pose proof (free_not_in _ _ _ Hr Hv) as Hni. destruct Hv as (Hv0 & Hvv & Hvl).
  unfold insert_inner. apply wp_bind. eapply wp_mono; [by apply prepare_ok|].
  intros p s1 (-> & Hi1 & Hlk & Hf & Hval & Hins).
  assert (view_links n ≠ 0) as Hn0 by (apply (ring_nonnull _ _ Hr); set_solver).
  unfold is_null, null. rewrite (proj2 (Z.eqb_neq _ _) Hn0).
  apply wp_bind. eapply wp_load; [rewrite Hlk; by apply ring_load|]. simpl.
  set (q := lastz (view_links n) (view_links <$> l)).
  assert (is_Some (lk s1 !! view_links v)) as Hs1 by (rewrite Hlk; eauto).
  assert (is_Some (lk s1 !! view_links n)) as Hs2 by (rewrite Hlk, (ring_load _ _ _ Hr); eauto).
  pose proof (lastz_in_cons (view_links n) (view_links <$> l)) as Hq.
  rewrite <- fmap_cons in Hq. fold q in Hq.
  assert (is_Some (lk s1 !! q)) as Hs3 by (rewrite Hlk; eapply cycle_dom; [apply Hr|done]).
  wp_links. apply wp_ret. rewrite Hlk. split; [done|].
  assert (view_links v ∉ view_links <$> n :: l) as Hvn.
  { intros (w & E & Hw)%list_elem_of_fmap. by apply (inj _) in E as ->. }
  split_and!; [split| |split_and!]; simpl.
  - rewrite fmap_app. eapply (cycle_insert _ (view_links n) (view_links <$> l)); [|done|done|].
    + by apply (ring_links s (n :: l)).
    + apply Hr.
  - change (n :: l ++ [v]) with ((n :: l) ++ [v]). apply NoDup_app.
    split_and!; [apply Hr|set_solver|apply NoDup_singleton].
  - intros w Hw. change (n :: l ++ [v]) with ((n :: l) ++ [v]) in Hw.
    apply elem_of_app in Hw as [Hw| ->%list_elem_of_singleton]; [by apply (ring_nonnull _ _ Hr)|done].
  - intros w Hw. destruct (decide (w = v)) as [->|Hne]; [done|]. apply Hins; [done|].
    apply (ring_inserted _ _ Hr). set_solver.
  - done.
  - intros p Hp. change (n :: l ++ [v]) with ((n :: l) ++ [v]) in Hp. rewrite fmap_app in Hp.
    assert (p ≠ view_links v ∧ p ≠ q ∧ p ≠ view_links n) as (? & ? & ?) by set_solver.
    rewrite upd_prev_ne, upd_next_ne, upd_prev_ne, upd_next_ne by done. done.
  - done.
  - intros w Hw. apply Hins. set_solver.
Qed.

Lemma insert_empty_ok s v : free_item s v →
  wp (insert_inner v null) (λ p s', p = view_links v ∧ list_rep s' [v] ∧ stable [v] s s') s.
Proof.
  intros (Hv0 & Hvv & Hvl). unfold insert_inner. apply wp_bind. eapply wp_mono; [by apply prepare_ok|].
  intros p s1 (-> & Hi1 & Hlk & Hf & Hval & Hins). simpl.
  assert (is_Some (lk s1 !! view_links v)) as Hs1 by (rewrite Hlk; eauto).
  wp_links. apply wp_bind, wp_modify, wp_ret. rewrite Hlk.
  split; [done|]. split; [split; [split|done]|split_and!]; simpl.
  - apply cycle_cons. simpl. split; [|done]. by upd_simpl.
  - apply NoDup_singleton.
  - by intros w ->%list_elem_of_singleton.
  - by intros w ->%list_elem_of_singleton.
  - intros p Hp. rewrite upd_prev_ne, upd_next_ne by set_solver. done.
  - done.
  - intros w Hw. apply Hins. set_solver.
Qed.

(** [first] after the removal of [x] from the front of a ring. *)
Definition first_after (s : LSt) (x : Z) (l : list Z) : Z :=
  if first s =? view_links x then hdz 0 (view_links <$> l) else first s.

(** The state after the removal, once the links of [x] and its neighbours are
    rewritten. *)
Lemma removed_state s x l f :
  let n := hdz (view_links x) (view_links <$> l) in
  let p := lastz (view_links x) (view_links <$> l) in
  let m' := upd_next (view_links x) 0 (upd_prev (view_links x) 0 (upd_next p n (upd_prev n p (lk s)))) in
  ring s (x :: l) →
  ring (MkLSt m' (sp s) f) l ∧ f = f ∧ free_item (MkLSt m' (sp s) f) x ∧ sp s = sp s ∧
  stable (x :: l) s (MkLSt m' (sp s) f).
Proof.
  intros n p m' Hr.
  destruct (cycle_remove (lk s) _ _ (ring_links _ _ Hr) (ring_cycle _ _ Hr)) as [Hc' Hx'].
  pose proof (hdz_in_cons (view_links x) (view_links <$> l)) as Hn.
  pose proof (lastz_in_cons (view_links x) (view_links <$> l)) as Hp.
  rewrite <- fmap_cons in Hn, Hp. fold n in Hn. fold p in Hp.
  assert (x ∈ x :: l) as Hx by set_solver.
  split_and!; [split| |split_and!| |split_and!]; simpl; try done.
  - by destruct (proj1 (NoDup_cons _ _) (ring_nodup _ _ Hr)).
  - intros w Hw. apply (ring_nonnull _ _ Hr). set_solver.
  - intros w Hw. apply (ring_inserted _ _ Hr). set_solver.
  - by apply (ring_nonnull _ _ Hr).
  - by apply inserted_valid, (ring_inserted _ _ Hr).
  - intros q Hq. assert (q ≠ n ∧ q ≠ p ∧ q ≠ view_links x) as (? & ? & ?).
    { split_and!; intros ->; [done..|]. apply Hq, list_elem_of_here. }
    unfold m'. by rewrite upd_next_ne, upd_prev_ne, upd_next_ne, upd_prev_ne by done.
Qed.

Lemma remove_inner_ok s x l :
  ring s (x :: l) →
  wp (remove_internal_inner (view_links x) (hdz (view_links x) (view_links <$> l))
        (lastz (view_links x) (view_links <$> l)))
    (λ w s', w = x ∧ ring s' l ∧ first s' = first_after s x l ∧
       free_item s' x ∧ sp s' = sp s ∧ stable (x :: l) s s') s.
Proof.
  intros Hr. unfold remove_internal_inner.
  set (n := hdz _ _). set (p := lastz _ _).
  pose proof (ring_cycle _ _ Hr) as Hc.
  destruct (removed_state s x l 0 Hr) as ([Hc' _ _ _] & _ & (_ & _ & Hx') & _).
  cbn [lk] in Hc', Hx'. fold n p in Hc', Hx'.
  pose proof (hdz_in_cons (view_links x) (view_links <$> l)) as Hn.
  pose proof (lastz_in_cons (view_links x) (view_links <$> l)) as Hp.
  rewrite <- fmap_cons in Hn, Hp. fold n in Hn. fold p in Hp.
  pose proof (cycle_dom _ _ _ Hc Hn). pose proof (cycle_dom _ _ _ Hc Hp).
  assert (is_Some (lk s !! view_links x)) by (apply (cycle_dom _ _ _ Hc), list_elem_of_here).
  wp_links. unfold null. set (m' := upd_next _ 0 _) in Hc', Hx' |- *.
  apply wp_bind, wp_bind, wp_get, wp_ret, wp_bind. simpl.
  assert (∀ f, wp (post_remove (view_links x)) (λ w s', w = x ∧ ring s' l ∧ first s' = f ∧
    free_item s' x ∧ sp s' = sp s ∧ stable (x :: l) s s') (MkLSt m' (sp s) f)) as Hpost.
  { intros f. eapply wp_mono; [apply post_remove_ok, (ring_inserted _ _ Hr); set_solver|].
    intros w s' [-> ->]. split; [done|]. exact (removed_state s x l f Hr). }
  unfold first_after. destruct (Z.eqb_spec (first s) (view_links x)) as [E|E].
  - apply wp_bind. destruct (decide (l = [])) as [->|Hne].
    + eapply wp_load; [exact Hx'|]. apply wp_modify. apply Hpost.
    + assert (view_links <$> l ≠ []) as Hne' by (by destruct l).
      destruct (cycle_last _ _ Hc' Hne') as [q Hq]. unfold p.
      rewrite (lastz_ne _ 0) by done. eapply wp_load; [exact Hq|]. apply wp_modify, Hpost.
  - apply wp_ret, Hpost.
Qed.
(** Lists read from a ring and its first element. *)
Lemma list_rep_first s vs : list_rep s vs → is_null (first s) = bool_decide (vs = []).
Proof.
  intros [Hr ->]. destruct vs as [|v vs]; [done|]. simpl.
  unfold is_null. rewrite (proj2 (Z.eqb_neq _ _)); [done|]. apply (ring_nonnull _ _ Hr). set_solver.
Qed.

Lemma stable_perm vs vs' s s' : vs ≡ₚ vs' → stable vs s s' → stable vs' s s'.
Proof. intros Hp. apply stable_mono. intros v. by rewrite Hp. Qed.

Lemma wp_read_first s Q : Q (first s) s → wp read_first Q s.
Proof. intros HQ. by apply wp_bind, wp_get, wp_ret. Qed.

(** Linking [v] in front of the first item, without moving [first]. *)
Lemma insert_first_ok s vs v : list_rep s vs → free_item s v →
  wp (insert_inner v (first s)) (λ p s', p = view_links v ∧ list_rep s' (vs ++ [v]) ∧
    stable (vs ++ [v]) s s') s.
Proof.
  intros [Hr Hf] Hv. destruct vs as [|n l].
  - rewrite Hf. by apply insert_empty_ok.
  - rewrite Hf. simpl. eapply wp_mono; [by apply insert_ring_ok|].
    intros p s' (-> & Hr' & Hf' & Hst). split; [done|]. split; [split; [done|by rewrite Hf', Hf]|done].
Qed.

Lemma push_back_ok s vs v : list_rep s vs → free_item s v →
  wp (push_back v) (λ _ s', list_rep s' (vs ++ [v]) ∧ stable (vs ++ [v]) s s') s.
Proof.
  intros Hr Hv. apply wp_bind, wp_read_first, wp_bind.
  eapply wp_mono; [by apply insert_first_ok|]. intros p s' (-> & H1 & H2). by apply wp_ret.
Qed.

Lemma set_first_rep s l1 l2 :
  list_rep s (l1 ++ l2) → list_rep (set_first (hdz 0 (view_links <$> l2 ++ l1)) s) (l2 ++ l1).
Proof.
  intros [Hr _]. split; [|done]. apply ring_rotate in Hr. destruct Hr. by split.
Qed.

Lemma push_front_ok s vs v : list_rep s vs → free_item s v →
  wp (push_front v) (λ _ s', list_rep s' (v :: vs) ∧ stable (v :: vs) s s') s.
Proof.
  intros Hr Hv. apply wp_bind, wp_read_first, wp_bind.
  eapply wp_mono; [by apply insert_first_ok|]. intros p s' (-> & H1 & H2). apply wp_modify.
  split; [exact (set_first_rep s' vs [v] H1)|].
  eapply stable_perm in H2; [exact H2|]. by rewrite Permutation_app_comm.
Qed.

(** Unlinking the item [x] in the middle of a list. *)
Lemma remove_mid_ok s l1 x l2 :
  list_rep s (l1 ++ x :: l2) →
  ∃ n p, lk s !! view_links x = Some (MkLinks n p) ∧ n ≠ 0 ∧ p ≠ 0 ∧
    (∃ q, lk s !! n = Some (MkLinks q (view_links x))) ∧
    wp (remove_internal_inner (view_links x) n p) (λ w s', w = x ∧ list_rep s' (l1 ++ l2) ∧
      free_item s' x ∧ sp s' = sp s ∧ stable (l1 ++ x :: l2) s s') s.
Proof.
  intros [Hr Hf]. pose proof (ring_rotate _ _ _ Hr) as Hr'.
  change ((x :: l2) ++ l1) with (x :: (l2 ++ l1)) in Hr'.
  pose proof (ring_load _ _ _ Hr') as Hl. eexists _, _. split; [exact Hl|].
  assert (∀ p, p ∈ view_links <$> x :: (l2 ++ l1) → p ≠ 0) as Hnz.
  { intros p (v & -> & Hv)%list_elem_of_fmap. by apply (ring_nonnull _ _ Hr'). }
  split; [apply Hnz, hdz_in_cons|]. split; [apply Hnz, lastz_in_cons|]. split.
  { destruct (l2 ++ l1) as [|y l]; [simpl in *; eauto|]. simpl.
    pose proof (ring_rotate _ [x] (y :: l) Hr') as Hr2.
    change ((y :: l) ++ [x]) with (y :: (l ++ [x])) in Hr2. apply ring_load in Hr2.
    rewrite fmap_app, lastz_app in Hr2. simpl in Hr2. eauto. }
  eapply wp_mono; [by apply remove_inner_ok|].
  intros w s' (-> & Hr2 & Hf2 & Hfree & Hsp & Hst). split; [done|]. split_and!; [|done|done|].
  - split; [by apply ring_rotate|]. rewrite Hf2. unfold first_after. rewrite Hf.
    destruct l1 as [|y l1]; simpl; [by rewrite Z.eqb_refl, app_nil_r|].
    rewrite (proj2 (Z.eqb_neq _ _)); [done|]. intros E. cbn in E. apply (inj _) in E as ->.
    pose proof (ring_nodup _ _ Hr) as Hnd. apply NoDup_cons in Hnd. set_solver.
  - eapply stable_perm; [|exact Hst]. solve_Permutation.
Qed.

Lemma remove_internal_ok s l1 x l2 :
  list_rep s (l1 ++ x :: l2) →
  wp (remove_internal (view_links x)) (λ w s', w = x ∧ list_rep s' (l1 ++ l2) ∧
    free_item s' x ∧ sp s' = sp s ∧ stable (l1 ++ x :: l2) s s') s.
Proof.
  intros Hr. destruct (remove_mid_ok _ _ _ _ Hr) as (n & p & Hl & _ & _ & _ & Hw).
  apply wp_bind. by eapply wp_load.
Qed.

Lemma pop_front_ok s vs : list_rep s vs →
  wp pop_front (λ r s', match vs with
    | [] => r = None ∧ s' = s
    | v :: vs' => r = Some v ∧ list_rep s' vs' ∧ free_item s' v ∧ stable vs s s'
    end) s.
Proof.
  intros Hr. apply wp_bind, wp_read_first. rewrite (list_rep_first _ _ Hr).
  destruct vs as [|v vs]; [by apply wp_ret|]. simpl. destruct (Hr) as [_ ->]. simpl.
  apply wp_bind. eapply wp_mono; [by apply (remove_internal_ok s [])|].
  intros w s' (-> & H1 & H2 & _ & H3). by apply wp_ret.
Qed.

Lemma pop_back_ok s vs : list_rep s vs →
  wp pop_back (λ r s', match r with
    | None => vs = [] ∧ s' = s
    | Some v => ∃ vs', vs = vs' ++ [v] ∧ list_rep s' vs' ∧ free_item s' v ∧ stable vs s s'
    end) s.
Proof.
  intros Hr. apply wp_bind, wp_read_first. rewrite (list_rep_first _ _ Hr).
  destruct vs as [|v vs _] using rev_ind; [by apply wp_ret|].
  rewrite bool_decide_eq_false_2 by (by intros [_ ?]%app_nil). apply wp_bind.
  pose proof Hr as [Hring Hf].
  assert (∃ n, lk s !! first s = Some (MkLinks n (view_links v))) as [n Hn].
  { rewrite Hf. destruct vs as [|y vs]; [apply ring_load in Hring; simpl in *; eauto|].
    change ((y :: vs) ++ [v]) with (y :: (vs ++ [v])) in Hring.
    apply ring_load in Hring. rewrite fmap_app, lastz_app in Hring. simpl in *. eauto. }
  eapply wp_load; [exact Hn|]. simpl. apply wp_bind.
  eapply wp_mono; [by apply (remove_internal_ok s vs v [])|].
  intros w s' (-> & H1 & H2 & _ & H3). apply wp_ret. exists vs. rewrite app_nil_r in H1. done.
Qed.

(** [remove] of an item of the list, and of an item in no list. *)
Lemma list_remove_ok s vs v : list_rep s vs → v ∈ vs ∨ free_item s v →
  wp (list_remove v) (λ r s', match r with
    | None => free_item s v ∧ s' = s
    | Some w => w = v ∧ ∃ l1 l2, vs = l1 ++ v :: l2 ∧ list_rep s' (l1 ++ l2) ∧
        free_item s' v ∧ stable vs s s'
    end) s.
Proof.
  intros Hr [Hin|Hfree]; apply wp_bind.
  - apply list_elem_of_split in Hin as (l1 & l2 & ->).
    destruct (remove_mid_ok _ _ _ _ Hr) as (n & p & Hl & Hn & Hp & (q & Hq) & Hw).
    eapply wp_load; [exact Hl|]. simpl. unfold is_null, null.
    rewrite (proj2 (Z.eqb_neq _ _) Hn), (proj2 (Z.eqb_neq _ _) Hp). simpl.
    apply wp_bind. eapply wp_load; [exact Hq|]. simpl. rewrite Z.eqb_refl. simpl.
    apply wp_bind. eapply wp_mono; [exact Hw|].
    intros w s' (-> & H1 & H2 & _ & H3). apply wp_ret. eauto 10.
  - eapply wp_load; [apply Hfree|]. simpl. by apply wp_ret.
Qed.
Lemma push_all_back_ok s vs1 vs2 other :
  list_rep s vs1 → list_rep (set_first other s) vs2 → (∀ v, v ∈ vs1 → v ∉ vs2) →
  wp (push_all_back other) (λ o s', o = null ∧ list_rep s' (vs1 ++ vs2) ∧
    sp s' = sp s ∧ stable (vs1 ++ vs2) s s') s.
Proof.
  intros Hr1 Hr2 Hd. pose proof (list_rep_first _ _ Hr1) as Hf1.
  pose proof (list_rep_first _ _ Hr2) as Hf2. simpl in Hf2.
  assert (∀ s', sp s' = sp s → lk s' = lk s → stable (vs1 ++ vs2) s s') as Hsame.
  { intros s' E1 E2. split_and!; intros; by rewrite ?E1, ?E2. }
  apply wp_bind, wp_read_first. rewrite Hf1. destruct vs1 as [|v1 l1]; simpl.
  { apply wp_bind, wp_modify, wp_ret. split_and!; [done|exact Hr2|done|]. by apply Hsame. }
  rewrite Hf2. destruct vs2 as [|v2 l2]; simpl.
  { apply wp_ret. rewrite app_nil_r in *. split_and!; [done..|]. by apply Hsame. }
  destruct Hr1 as [Hr1 E1], Hr2 as [Hr2 E2]. simpl in E2.
  assert (ring s (v2 :: l2)) as Hr2' by (destruct Hr2; by split).
  rewrite E1, E2. simpl. apply wp_bind. eapply wp_load; [by apply ring_load|]. simpl.
  apply wp_bind. eapply wp_load; [by apply ring_load|]. simpl.
  pose proof (ring_cycle _ _ Hr1) as Hc1. pose proof (ring_cycle _ _ Hr2') as Hc2.
  pose proof (cycle_dom _ _ _ Hc1 (list_elem_of_here _ _)).
  pose proof (cycle_dom _ _ _ Hc2 (list_elem_of_here _ _)).
  pose proof (cycle_dom _ _ _ Hc1 (lastz_in_cons _ _)).
  pose proof (cycle_dom _ _ _ Hc2 (lastz_in_cons _ _)).
  wp_links. apply wp_ret. split; [done|]. split_and!; [split; [split|]|done|split_and!]; simpl.
  - assert (NoDup ((view_links <$> v1 :: l1) ++ (view_links <$> v2 :: l2))) as Hnd.
    { rewrite <- fmap_app. apply (NoDup_fmap_2 _), NoDup_app.
      split_and!; [apply Hr1|done|apply Hr2]. }
    assert (∀ x l, view_links <$> (x :: l) ≠ []) as Hne by done.
    pose proof (cycle_splice _ _ _ (Hne _ _) (Hne _ _) Hnd Hc1 Hc2) as Hs.
    rewrite <- fmap_app, !fmap_cons, !lastz_cons in Hs. exact Hs.
  - apply (NoDup_app (v1 :: l1)). split_and!; [apply Hr1|done|apply Hr2].
  - intros v [Hv|Hv]%(elem_of_app (v1 :: l1)); [by apply (ring_nonnull _ _ Hr1)|by apply (ring_nonnull _ _ Hr2)].
  - intros v [Hv|Hv]%(elem_of_app (v1 :: l1)); [by apply (ring_inserted _ _ Hr1)|by apply (ring_inserted _ _ Hr2')].
  - done.
  - intros p Hp. change (v1 :: l1 ++ v2 :: l2) with ((v1 :: l1) ++ (v2 :: l2)) in Hp.
    assert ((p ∉ view_links <$> v1 :: l1) ∧ (p ∉ view_links <$> v2 :: l2)) as [Hp1 Hp2].
    { apply not_elem_of_app. by rewrite <- fmap_app. }
    pose proof (lastz_in_cons (view_links v1) (view_links <$> l1)).
    pose proof (lastz_in_cons (view_links v2) (view_links <$> l2)).
    rewrite upd_prev_ne, upd_next_ne, upd_next_ne, upd_prev_ne; [done|..]; intros ->;
      first [by apply Hp1 | by apply Hp2 | apply Hp1, list_elem_of_here | apply Hp2, list_elem_of_here].
  - done.
  - done.
Qed.

Lemma list_drop_ok vs : ∀ fuel s, list_rep s vs → (length vs < fuel)%nat →
  wp (list_drop fuel) (λ xs s', xs = vs ∧ list_rep s' [] ∧
    Forall (free_item s') vs ∧ stable vs s s') s.
Proof.
  induction vs as [|v vs IH]; intros [|fuel] s Hr Hlt; simpl in Hlt; try lia; simpl; apply wp_bind.
  - eapply wp_mono; [by apply pop_front_ok|]. simpl. intros r s' [-> ->]. apply wp_ret.
    split_and!; [done..|constructor|by split_and!].
  - eapply wp_mono; [by apply pop_front_ok|]. simpl. intros r s1 (-> & H1 & H2 & H3).
    apply wp_bind. eapply wp_mono; [apply (IH fuel s1 H1); lia|].
    intros xs s2 (-> & H4 & H5 & H6). apply wp_ret. split; [done|]. split; [done|]. split.
    + constructor; [|done]. eapply stable_free; [done| |done]. by eapply free_not_in; [apply H1|].
    + eapply stable_trans; [done|]. eapply stable_mono; [|done]. set_solver.
Qed.

(** Neighbours of an item, as a traversal sees them. *)
Lemma rep_next s l1 x l2 : list_rep s (l1 ++ x :: l2) →
  ∃ n p, lk s !! view_links x = Some (MkLinks n p) ∧
    (if n =? first s then null else n) = hdz 0 (view_links <$> l2).
Proof.
  intros [Hr Hf]. pose proof (ring_nodup _ _ Hr) as Hnd. apply ring_rotate in Hr.
  change ((x :: l2) ++ l1) with (x :: (l2 ++ l1)) in Hr. apply ring_load in Hr.
  eexists _, _. split; [exact Hr|]. rewrite Hf. destruct l2 as [|y l2].
  - simpl. rewrite fmap_app, hdz_app. simpl. by rewrite Z.eqb_refl.
  - simpl. rewrite (proj2 (Z.eqb_neq _ _)); [done|]. destruct l1 as [|z l1]; simpl; intros E;
      cbn in E; apply (inj _) in E as ->; apply NoDup_cons in Hnd as [Hnd _]; set_solver.
Qed.

Lemma rep_prev s l1 x l2 : list_rep s (l1 ++ x :: l2) → l1 ≠ [] →
  ∃ n, lk s !! view_links x = Some (MkLinks n (lastz 0 (view_links <$> l1))).
Proof.
  intros [Hr Hf] Hne. apply ring_rotate in Hr.
  change ((x :: l2) ++ l1) with (x :: (l2 ++ l1)) in Hr. apply ring_load in Hr.
  rewrite fmap_app, lastz_app in Hr. rewrite (lastz_ne _ 0) in Hr by (by destruct l1). eauto.
Qed.

Lemma list_iter_ok l2 : ∀ fuel s l1, list_rep s (l1 ++ l2) → (length l2 < fuel)%nat →
  wp (list_iter_collect fuel (hdz 0 (view_links <$> l2), first s)) (λ xs s', xs = l2 ∧ s' = s) s.
Proof.
  induction l2 as [|x l2 IH]; intros [|fuel] s l1 Hr Hlt; simpl in Hlt; try lia; simpl.
  - apply wp_bind. by apply wp_ret, wp_ret.
  - pose proof Hr as [Hring _]. apply wp_bind. unfold is_null, null.
    rewrite (proj2 (Z.eqb_neq _ _)) by (apply (ring_nonnull _ _ Hring); set_solver).
    destruct (rep_next _ _ _ _ Hr) as (n & p & Hl & Hn). apply wp_bind.
    eapply wp_load; [exact Hl|]. apply wp_bind. simpl.
    eapply wp_mono; [apply view_value_ok, (ring_inserted _ _ Hring); set_solver|].
    intros w s' [-> ->]. apply wp_ret. simpl. apply wp_bind.
    replace (if negb (n =? first s) then n else 0) with (hdz 0 (view_links <$> l2))
      by (rewrite <- Hn; by destruct (n =? first s)).
    eapply wp_mono; [apply (IH fuel s (l1 ++ [x])); [by rewrite <- app_assoc|lia]|].
    intros xs s' [-> ->]. by apply wp_ret.
Qed.
End Specs.

(** ** The cursor as a zipper *)

Section CursorSpecs.
Context `{LIs : ListItemSpec}.
Implicit Types (c : CSt) (v : Z) (l : list Z).

(** The list is [l1 ++ l2] with the cursor between [l1] and [l2]. *)
Definition cursor_rep (c : CSt) (l1 l2 : list Z) : Prop :=
  list_rep (clist c) (l1 ++ l2) ∧ cnext c = hdz 0 (view_links <$> l2).

Lemma wp_on_list {A} (m : M LSt A) (Q : A → CSt → Prop) c :
  wp m (λ a s', Q a (MkCSt s' (cnext c))) (clist c) → wp (on_list m) Q c.
Proof. intros (a & s' & Hm & HQ). exists a, (MkCSt s' (cnext c)). unfold on_list. by rewrite Hm. Qed.

Lemma cursor_nonnull c l1 x l2 : cursor_rep c l1 (x :: l2) → is_null (cnext c) = false.
Proof.
  intros [[Hr _] ->]. simpl. apply Z.eqb_neq, (ring_nonnull _ _ Hr). set_solver.
Qed.

(** The cursor is at the front exactly when [next] is the first element. *)
Lemma cursor_at_front c l1 l2 : cursor_rep c l1 l2 →
  (cnext c =? first (clist c)) = bool_decide (l1 = []).
Proof.
  intros [[Hr Hf] Hn]. rewrite Hf, Hn. destruct l1 as [|y l1]; simpl; [apply Z.eqb_refl|].
  apply Z.eqb_neq. destruct l2 as [|x l2]; simpl.
  - intros E. symmetry in E. revert E. apply (ring_nonnull _ _ Hr). set_solver.
  - intros E. cbn in E. apply (inj _) in E as ->. pose proof (ring_nodup _ _ Hr) as Hnd.
    apply NoDup_cons in Hnd. set_solver.
Qed.

Lemma prev_ptr_ok c l1 l2 : cursor_rep c l1 l2 →
  wp prev_ptr (λ p c', p = lastz 0 (view_links <$> l1) ∧ c' = c) c.
Proof.
  intros Hc. unfold prev_ptr. apply wp_bind, wp_get. rewrite (cursor_at_front _ _ _ Hc).
  destruct (decide (l1 = [])) as [->|Hne]; [by apply wp_ret|].
  rewrite bool_decide_eq_false_2 by done. apply wp_bind, wp_on_list.
  destruct l2 as [|x l2].
  - destruct Hc as [Hr Hn]. rewrite Hn. simpl. rewrite app_nil_r in Hr. destruct Hr as [Hr Hf].
    rewrite Hf. destruct l1 as [|y l1]; [done|]. eapply wp_load; [by apply ring_load|]. simpl.
    apply wp_ret. rewrite lastz_cons. split; [done|]. destruct c. simpl in *. by subst.
  - rewrite (cursor_nonnull _ _ _ _ Hc). destruct Hc as [Hr Hn]. rewrite Hn. simpl.
    destruct (rep_prev _ _ _ _ Hr Hne) as [n Hl]. eapply wp_load; [exact Hl|].
    apply wp_ret. split; [done|]. destruct c. simpl in *. by subst.
Qed.

Lemma move_next_ok c l1 l2 : cursor_rep c l1 l2 →
  wp move_next (λ b c', clist c' = clist c ∧ match l2 with
    | [] => b = false ∧ c' = c
    | x :: l2' => b = true ∧ cursor_rep c' (l1 ++ [x]) l2'
    end) c.
Proof.
  intros Hc. unfold move_next. apply wp_bind, wp_get. destruct l2 as [|x l2].
  - destruct Hc as [_ ->]. by apply wp_ret.
  - rewrite (cursor_nonnull _ _ _ _ Hc). destruct Hc as [Hr Hn]. rewrite Hn. simpl.
    apply wp_bind, wp_on_list. destruct (rep_next _ _ _ _ Hr) as (n & p & Hl & Hne).
    eapply wp_load; [exact Hl|]. apply wp_bind, wp_modify, wp_ret. simpl. split; [done|].
    split; [done|]. split; simpl; [by rewrite <- app_assoc|done].
Qed.

Lemma move_prev_ok c l1 l2 : cursor_rep c l1 l2 →
  wp move_prev (λ b c', clist c' = clist c ∧
    if b then ∃ x l1', l1 = l1' ++ [x] ∧ cursor_rep c' l1' (x :: l2) else l1 = [] ∧ c' = c) c.
Proof.
  intros Hc. unfold move_prev. apply wp_bind, wp_get. rewrite (cursor_at_front _ _ _ Hc).
  destruct l1 as [|x l1 _] using rev_ind; [by apply wp_ret|].
  rewrite bool_decide_eq_false_2 by (by intros [_ ?]%app_nil). apply wp_bind.
  eapply wp_mono; [by eapply prev_ptr_ok|]. intros p c' [-> ->].
  apply wp_bind, wp_modify, wp_ret. split; [done|]. exists x, l1. split; [done|].
  destruct Hc as [Hr Hn]. split; simpl; [by rewrite <- app_assoc in Hr|].
  by rewrite fmap_app, lastz_app.
Qed.

Lemma cursor_insert_ok c l1 l2 v : cursor_rep c l1 l2 → free_item (clist c) v →
  wp (cursor_insert_inner v) (λ p c', p = view_links v ∧ cnext c' = cnext c ∧
    list_rep (clist c') (l1 ++ v :: l2) ∧ stable (l1 ++ v :: l2) (clist c) (clist c')) c.
Proof.
  intros Hc Hv. unfold cursor_insert_inner. apply wp_bind, wp_get, wp_bind, wp_on_list.
  pose proof Hc as [Hr Hn]. destruct l2 as [|n l2].
  - rewrite Hn. simpl. rewrite app_nil_r in Hr. eapply wp_mono; [by apply insert_first_ok|].
    intros p s' (-> & Hr' & Hst). apply wp_bind, wp_get. cbn [cnext clist].
    pose proof (list_rep_first _ _ Hr') as Hf.
    rewrite bool_decide_eq_false_2 in Hf by (by intros [_ ?]%app_nil).
    unfold is_null, null in Hf. change (hdz 0 []) with 0.
    rewrite (Z.eqb_sym 0), Hf. by apply wp_bind, wp_ret, wp_ret.
  - rewrite (cursor_nonnull _ _ _ _ Hc). rewrite Hn. simpl. destruct Hr as [Hr Hf].
    pose proof (cursor_at_front _ _ _ Hc) as Hat. rewrite Hn in Hat.
    pose proof (ring_rotate _ _ _ Hr) as Hr'.
    change ((n :: l2) ++ l1) with (n :: (l2 ++ l1)) in Hr'.
    eapply wp_mono; [by apply insert_ring_ok|].
    intros p s' (-> & Hr2 & Hf2 & Hst). apply wp_bind, wp_get. cbn [cnext clist].
    rewrite Hf2. setoid_rewrite Hat.
    assert (n :: (l2 ++ l1) ++ [v] = (n :: l2) ++ (l1 ++ [v])) as E by (by rewrite <- app_assoc).
    rewrite E in Hr2, Hst. apply ring_rotate in Hr2. rewrite <- app_assoc in Hr2. simpl in Hr2.
    eapply stable_perm in Hst; [|rewrite Permutation_app_comm, <- app_assoc; simpl; reflexivity].
    destruct l1 as [|y l1]; simpl.
    + apply wp_bind, wp_on_list, wp_modify, wp_ret. split_and!; try done. split; [|done].
      destruct Hr2. by split.
    + apply wp_bind, wp_ret, wp_ret. split_and!; [done..|split; [done|]|done].
      cbn [clist]. by rewrite Hf2, Hf.
Qed.

Lemma insert_next_ok c l1 l2 v : cursor_rep c l1 l2 → free_item (clist c) v →
  wp (insert_next v) (λ _ c', cursor_rep c' l1 (v :: l2) ∧
    stable (l1 ++ v :: l2) (clist c) (clist c')) c.
Proof.
  intros Hc Hv. apply wp_bind. eapply wp_mono; [by apply cursor_insert_ok|].
  intros p c' (-> & Hn & Hr & Hst). by apply wp_modify.
Qed.

Lemma insert_prev_ok c l1 l2 v : cursor_rep c l1 l2 → free_item (clist c) v →
  wp (insert_prev v) (λ _ c', cursor_rep c' (l1 ++ [v]) l2 ∧
    stable (l1 ++ v :: l2) (clist c) (clist c')) c.
Proof.
  intros Hc Hv. apply wp_bind. eapply wp_mono; [by apply cursor_insert_ok|].
  intros p c' (-> & Hn & Hr & Hst). apply wp_ret. split; [|done]. destruct Hc as [_ Hc].
  split; [by rewrite <- app_assoc|congruence].
Qed.

Lemma remove_next_ok c l1 l2 : cursor_rep c l1 l2 →
  wp remove_next (λ r c', match l2 with
    | [] => r = None ∧ c' = c
    | x :: l2' => r = Some x ∧ cursor_rep c' l1 l2' ∧ free_item (clist c') x ∧
        stable (l1 ++ l2) (clist c) (clist c')
    end) c.
Proof.
  intros Hc. unfold remove_next, peek_next. apply wp_bind, wp_bind, wp_get.
  destruct l2 as [|x l2]; [destruct Hc as [_ ->]; by apply wp_ret, wp_ret|].
  rewrite (cursor_nonnull _ _ _ _ Hc). pose proof Hc as [Hr Hn]. rewrite Hn.
  apply wp_ret, wp_bind. unfold peek_remove. apply wp_bind.
  eapply wp_mono; [by apply move_next_ok|]. intros b c1 (Hcl & _ & Hr1 & Hn1).
  apply wp_on_list. rewrite Hcl. eapply wp_mono; [by apply remove_internal_ok|].
  intros w s' (-> & H1 & H2 & _ & H3). apply wp_ret. by split_and!.
Qed.

Lemma remove_prev_ok c l1 l2 : cursor_rep c l1 l2 →
  wp remove_prev (λ r c', match r with
    | None => l1 = [] ∧ c' = c
    | Some x => ∃ l1', l1 = l1' ++ [x] ∧ cursor_rep c' l1' l2 ∧ free_item (clist c') x ∧
        stable (l1 ++ l2) (clist c) (clist c')
    end) c.
Proof.
  intros Hc. unfold remove_prev, peek_prev. apply wp_bind, wp_bind.
  eapply wp_mono; [by eapply prev_ptr_ok|]. intros p c' [-> ->].
  destruct l1 as [|x l1 _] using rev_ind; [by apply wp_ret, wp_ret|].
  destruct Hc as [Hr Hn]. rewrite fmap_app, lastz_app. change (lastz _ _) with (view_links x).
  assert (is_null (view_links x) = false) as ->.
  { apply Z.eqb_neq, (ring_nonnull _ _ (proj1 Hr)). set_solver. }
  apply wp_ret, wp_bind. unfold peek_remove. apply wp_bind, wp_ret, wp_on_list.
  pose proof Hr as Hr'. rewrite <- app_assoc in Hr'.
  eapply wp_mono; [by apply remove_internal_ok|].
  intros w s' (-> & H1 & H2 & _ & H3). apply wp_ret. exists l1. split; [done|].
  split_and!; [by split|done|]. by rewrite <- app_assoc.
Qed.
End CursorSpecs.

(** ** Clients of a list and of a cursor

    A client owns the items of a pool [U]. It may push an item only while it holds
    it, that is while the item is in no list: the uniqueness of [ListArc]. The
    abstract runs below are undefined ([None]) for clients that break this. *)

Inductive lop := LPushBack (v : Z) | LPushFront (v : Z) | LPopBack | LPopFront | LRemove (v : Z).

Definition lspec (U vs : list Z) (o : lop) : option (option Z * list Z) :=
  match o with
  | LPushBack v => if decide (v ∈ U ∧ v ∉ vs) then Some (None, vs ++ [v]) else None
  | LPushFront v => if decide (v ∈ U ∧ v ∉ vs) then Some (None, v :: vs) else None
  | LPopBack => Some (last vs, take (length vs - 1) vs)
  | LPopFront => Some (head vs, tail vs)
  | LRemove v =>
      if decide (v ∈ U) then
        Some (if decide (v ∈ vs) then (Some v, filter (λ w, w ≠ v) vs) else (None, vs))
      else None
  end.

Inductive cop :=
| CMoveNext | CMovePrev | CInsertNext (v : Z) | CInsertPrev (v : Z)
| CRemoveNext | CRemovePrev | CPeekNext | CPeekPrev.

Inductive cobs := CBool (b : bool) | CItem (o : option Z) | CUnit.

(** A cursor is a zipper; the elements before it are kept in reverse. *)
Definition cspec (U : list Z) (z : list Z * list Z) (o : cop) : option (cobs * (list Z * list Z)) :=
  let '(r, l) := z in
  match o with
  | CMoveNext => Some (match l with [] => (CBool false, z) | x :: l' => (CBool true, (x :: r, l')) end)
  | CMovePrev => Some (match r with [] => (CBool false, z) | x :: r' => (CBool true, (r', x :: l)) end)
  | CInsertNext v => if decide (v ∈ U ∧ v ∉ r ++ l) then Some (CUnit, (r, v :: l)) else None
  | CInsertPrev v => if decide (v ∈ U ∧ v ∉ r ++ l) then Some (CUnit, (v :: r, l)) else None
  | CRemoveNext => Some (CItem (head l), (r, tail l))
  | CRemovePrev => Some (CItem (head r), (tail r, l))
  | CPeekNext => Some (CItem (head l), z)
  | CPeekPrev => Some (CItem (head r), z)
  end.

Fixpoint run_spec {Z O R} (f : Z → O → option (R * Z)) (z : Z) (os : list O) : option (list R * Z) :=
  match os with
  | [] => Some ([], z)
  | o :: os =>
      match f z o with
      | Some (r, z') =>
          match run_spec f z' os with Some (rs, z'') => Some (r :: rs, z'') | None => None end
      | None => None
      end
  end.

Fixpoint run_ops {S O R} (f : O → M S R) (os : list O) : M S (list R) :=
  match os with
  | [] => mret []
  | o :: os => r ← f o; rs ← run_ops f os; mret (r :: rs)
  end.

(** Lockstep simulation of a run by the operations one at a time. *)
Lemma run_ops_refines {S Z O R} (f : O → M S R) (g : Z → O → option (R * Z)) (I : S → Z → Prop) :
  (∀ s z o r z', I s z → g z o = Some (r, z') → wp (f o) (λ r' s', r' = r ∧ I s' z') s) →
  ∀ os s z rs z', I s z → run_spec g z os = Some (rs, z') →
    wp (run_ops f os) (λ rs' s', rs' = rs ∧ I s' z') s.
Proof.
  intros Hf os. induction os as [|o os IH]; intros s z rs z' HI Hrun; simpl in *.
  - injection Hrun as <- <-. by apply wp_ret.
  - destruct (g z o) as [[r z1]|] eqn:Hg; [|done].
    destruct (run_spec g z1 os) as [[rs1 z2]|] eqn:Hr; [|done]. injection Hrun as <- <-.
    apply wp_bind. eapply wp_mono; [by eapply Hf|]. intros r' s1 [-> HI1]. apply wp_bind.
    eapply wp_mono; [by eapply IH|]. intros rs' s2 [-> HI2]. by apply wp_ret.
Qed.

Section Clients.
Context `{LI : ListItem}.

Definition lexec (o : lop) : M LSt (option Z) :=
  match o with
  | LPushBack v => _ ← push_back v; mret None
  | LPushFront v => _ ← push_front v; mret None
  | LPopBack => pop_back
  | LPopFront => pop_front
  | LRemove v => list_remove v
  end.

Definition peek_item (p : option Z) : M CSt cobs :=
  match p with None => mret (CItem None) | Some p => x ← peek_arc p; mret (CItem (Some x)) end.

Definition cexec (o : cop) : M CSt cobs :=
  match o with
  | CMoveNext => b ← move_next; mret (CBool b)
  | CMovePrev => b ← move_prev; mret (CBool b)
  | CInsertNext v => _ ← insert_next v; mret CUnit
  | CInsertPrev v => _ ← insert_prev v; mret CUnit
  | CRemoveNext => r ← remove_next; mret (CItem r)
  | CRemovePrev => r ← remove_prev; mret (CItem r)
  | CPeekNext => p ← peek_next; peek_item p
  | CPeekPrev => p ← peek_prev; peek_item p
  end.
End Clients.

Section ClientSpecs.
Context `{LIs : ListItemSpec}.

(** Every item of the pool is in the list or in no list. *)
Definition pool (U : list Z) (s : LSt) (vs : list Z) : Prop :=
  list_rep s vs ∧ ∀ v, v ∈ U → v ∈ vs ∨ free_item s v.

Lemma pool_free U s vs v : pool U s vs → v ∈ U → v ∉ vs → free_item s v.
Proof. intros [_ Hp] Hv Hn. by destruct (Hp v Hv). Qed.

(** An operation on the items [ws] of the old and new contents. *)
Lemma pool_step U s s' vs vs' ws :
  pool U s vs → list_rep s' vs' → stable ws s s' →
  (∀ w, w ∈ ws → w ∈ vs' ∨ free_item s' w) → (∀ w, w ∈ vs → w ∈ ws) → pool U s' vs'.
Proof.
  intros [Hr Hp] Hr' Hst Hws Hin. split; [done|]. intros v Hv.
  destruct (decide (v ∈ ws)) as [Hw|Hw]; [by apply Hws|]. right.
  eapply stable_free; [done..|]. destruct (Hp v Hv); [|done]. by destruct Hw; apply Hin.
Qed.

Lemma filter_ne_split (l1 l2 : list Z) v : NoDup (l1 ++ v :: l2) →
  filter (λ w, w ≠ v) (l1 ++ v :: l2) = l1 ++ l2.
Proof.
  intros (H1 & H2 & H3)%NoDup_app. rewrite filter_app, filter_cons_False by (intros Hne; by apply Hne).
  apply NoDup_cons in H3 as [H3 _].
  assert (∀ l : list Z, v ∉ l → filter (λ w, w ≠ v) l = l) as Hf.
  { induction l as [|x l IH]; [done|]. intros Hn. rewrite filter_cons_True by set_solver.
    f_equal. apply IH. set_solver. }
  rewrite !Hf; [done|done|]. intros Hv. apply (H2 v Hv). set_solver.
Qed.

Lemma lexec_ok U s vs o r vs' : pool U s vs → lspec U vs o = Some (r, vs') →
  wp (lexec o) (λ r' s', r' = r ∧ pool U s' vs') s.
Proof.
  intros Hp Hspec. pose proof Hp as [Hr Hpool]. destruct o as [v|v| | |v]; simpl in *.
  - destruct (decide _) as [[Hv Hn]|]; [|done]. injection Hspec as <- <-. apply wp_bind.
    eapply wp_mono; [by eapply push_back_ok; [|eapply pool_free]|]. intros _ s' [H1 H2].
    apply wp_ret. split; [done|]. eapply pool_step; [done..|by left|set_solver].
  - destruct (decide _) as [[Hv Hn]|]; [|done]. injection Hspec as <- <-. apply wp_bind.
    eapply wp_mono; [by eapply push_front_ok; [|eapply pool_free]|]. intros _ s' [H1 H2].
    apply wp_ret. split; [done|]. eapply pool_step; [done..|by left|set_solver].
  - injection Hspec as <- <-. eapply wp_mono; [by apply pop_back_ok|]. intros [x|] s' H1.
    + destruct H1 as (l & -> & H1 & H2 & H3). rewrite last_snoc, length_app, take_app_length'
        by (simpl; lia). split; [done|]. eapply pool_step; [done..| |done].
      intros w [Hw| ->%list_elem_of_singleton]%elem_of_app; auto.
    + destruct H1 as [-> ->]. done.
  - injection Hspec as <- <-. eapply wp_mono; [by apply pop_front_ok|]. intros o s' H1.
    destruct vs as [|v vs]; simpl in *; destruct_and!; subst; [done|].
    split; [done|]. eapply pool_step; [done..| |done]. intros w [->|Hw]%elem_of_cons; auto.
  - destruct (decide (v ∈ U)) as [Hv|]; [|done]. injection Hspec as Hspec.
    eapply wp_mono; [by apply (list_remove_ok _ vs); [|apply Hpool]|]. intros [w|] s' H1.
    + destruct H1 as (-> & l1 & l2 & -> & H1 & H2 & H3). rewrite decide_True in Hspec by set_solver.
      rewrite filter_ne_split in Hspec by apply Hr. injection Hspec as <- <-. split; [done|].
      eapply pool_step; [done..| |done]. intros w Hw.
      destruct (decide (w = v)) as [->|]; [by right|left; set_solver].
    + destruct H1 as [Hf ->]. rewrite decide_False in Hspec
        by (by eapply free_not_in; [apply Hr|]). by injection Hspec as <- <-.
Qed.
Lemma elem_of_rev (x : Z) l : x ∈ rev l ↔ x ∈ l.
Proof. by rewrite <- Permutation_rev. Qed.

#[local] Instance set_unfold_rev (x : Z) l P :
  SetUnfoldElemOf x l P → SetUnfoldElemOf x (rev l) P.
Proof. intros [Hx]. split. by rewrite elem_of_rev. Qed.

(** The cursor state matches a zipper. *)
Definition zips (U : list Z) (c : CSt) (z : list Z * list Z) : Prop :=
  cursor_rep c (rev (fst z)) (snd z) ∧ pool U (clist c) (rev (fst z) ++ snd z).

Lemma zips_free U c r l v : zips U c (r, l) → v ∈ U → v ∉ r ++ l → free_item (clist c) v.
Proof.
  intros [_ Hp] Hv Hn. eapply pool_free; [done..|]. simpl.
  rewrite elem_of_app, elem_of_rev. by rewrite elem_of_app in Hn.
Qed.

Lemma zips_same U c c' z z' :
  zips U c z → cursor_rep c' (rev (fst z')) (snd z') → clist c' = clist c →
  rev (fst z') ++ snd z' = rev (fst z) ++ snd z → zips U c' z'.
Proof. intros [Hc Hp] Hc' E1 E2. split; [done|]. by rewrite E1, E2. Qed.

Lemma zips_step U c c' z z' ws :
  zips U c z → cursor_rep c' (rev (fst z')) (snd z') → stable ws (clist c) (clist c') →
  (∀ w, w ∈ ws → w ∈ rev (fst z') ++ snd z' ∨ free_item (clist c') w) →
  (∀ w, w ∈ rev (fst z) ++ snd z → w ∈ ws) → zips U c' z'.
Proof.
  intros [Hc Hp] Hc' Hst Hws Hin. split; [done|]. eapply pool_step; [done| |done..]. apply Hc'.
Qed.

Lemma peek_item_ok U c z p x :
  zips U c z → x ∈ rev (fst z) ++ snd z → p = view_links x →
  wp (peek_item (Some p)) (λ r c', r = CItem (Some x) ∧ c' = c) c.
Proof.
  intros [[[Hr _] _] _] Hx ->. simpl. unfold peek_arc. apply wp_bind, wp_on_list.
  eapply wp_mono; [by apply view_value_ok, (ring_inserted _ _ Hr)|].
  intros w s' [-> ->]. apply wp_ret. by destruct c.
Qed.

Lemma peek_next_ok U c r l : zips U c (r, l) →
  wp (p ← peek_next; peek_item p) (λ o c', o = CItem (head l) ∧ c' = c) c.
Proof.
  intros Hz. pose proof Hz as [Hc _]. simpl in Hc. unfold peek_next. apply wp_bind, wp_bind, wp_get.
  destruct l as [|x l].
  - destruct Hc as [_ ->]. by apply wp_ret, wp_ret.
  - rewrite (cursor_nonnull _ _ _ _ Hc). apply wp_ret. destruct Hc as [_ Hn].
    eapply peek_item_ok; [done| |done]. simpl. set_solver.
Qed.

Lemma peek_prev_ok U c r l : zips U c (r, l) →
  wp (p ← peek_prev; peek_item p) (λ o c', o = CItem (head r) ∧ c' = c) c.
Proof.
  intros Hz. pose proof Hz as [Hc _]. simpl in Hc. unfold peek_prev. apply wp_bind, wp_bind.
  eapply wp_mono; [by eapply prev_ptr_ok|]. intros p c' [-> ->].
  destruct r as [|x r]; simpl; [by apply wp_ret, wp_ret|].
  rewrite fmap_app, lastz_app. change (lastz _ _) with (view_links x).
  assert (is_null (view_links x) = false) as ->.
  { apply Z.eqb_neq, (ring_nonnull _ _ (proj1 (proj1 Hc))). simpl. set_solver. }
  apply wp_ret. eapply peek_item_ok; [done| |done]. simpl. set_solver.
Qed.

Lemma snoc_rev (r l : list Z) x : rev r = l ++ [x] → r = x :: rev l.
Proof. intros E. by rewrite <- (rev_involutive r), E, rev_app_distr. Qed.

Lemma cexec_ok U c z o r z' : zips U c z → cspec U z o = Some (r, z') →
  wp (cexec o) (λ r' c', r' = r ∧ zips U c' z') c.
Proof.
  intros Hz Hspec. destruct z as [rl l]. pose proof Hz as [Hc _]. simpl in Hc.
  destruct o as [| |v|v| | | |]; simpl in *.
  - apply wp_bind. eapply wp_mono; [by apply move_next_ok|]. intros b c' [Hl H1]. apply wp_ret.
    destruct l as [|x l]; destruct H1 as [-> H1]; injection Hspec as <- <-; [by subst c'|].
    split; [done|]. eapply zips_same; [exact Hz|exact H1|done|]. simpl. by rewrite <- app_assoc.
  - apply wp_bind. eapply wp_mono; [by apply move_prev_ok|]. intros [] c' [Hl H1]; apply wp_ret.
    + destruct H1 as (x & l1 & E%snoc_rev & H1). subst rl. injection Hspec as <- <-.
      split; [done|]. eapply zips_same; [exact Hz|by rewrite <- (rev_involutive l1) in H1|done|].
      simpl. by rewrite <- app_assoc.
    + destruct H1 as [E ->]. assert (rl = []) as -> by (by rewrite <- (rev_involutive rl), E).
      by injection Hspec as <- <-.
  - destruct (decide _) as [[Hv Hn]|]; [|done]. injection Hspec as <- <-. apply wp_bind.
    eapply wp_mono; [by apply insert_next_ok; [|by eapply zips_free]|]. intros _ c' [H1 H2].
    apply wp_ret. split; [done|]. eapply zips_step; [done|exact H1|exact H2|by left|simpl; set_solver].
  - destruct (decide _) as [[Hv Hn]|]; [|done]. injection Hspec as <- <-. apply wp_bind.
    eapply wp_mono; [by apply insert_prev_ok; [|by eapply zips_free]|]. intros _ c' [H1 H2].
    apply wp_ret. split; [done|]. eapply zips_step; [done|exact H1|exact H2| |simpl; set_solver].
    simpl. rewrite <- app_assoc. by left.
  - injection Hspec as <- <-. apply wp_bind. eapply wp_mono; [by apply remove_next_ok|].
    intros o c' H1. apply wp_ret. destruct l as [|x l]; simpl in *; destruct_and!; subst; [done|].
    split; [done|]. eapply zips_step; [done..| |done]. simpl. intros w Hw.
    destruct (decide (w = x)) as [->|]; [by right|left; set_solver].
  - injection Hspec as <- <-. apply wp_bind. eapply wp_mono; [by apply remove_prev_ok|].
    intros [x|] c' H1; apply wp_ret.
    + destruct H1 as (l1 & E & H1 & H2 & H3). pose proof (snoc_rev _ _ _ E) as ->. simpl in *.
      split; [done|]. eapply zips_step; [done|by cbn; rewrite rev_involutive|exact H3| |simpl; set_solver].
      intros w Hw. destruct (decide (w = x)) as [->|]; [by right|left; simpl; set_solver].
    + destruct H1 as [E ->]. assert (rl = []) as -> by (by rewrite <- (rev_involutive rl), E). done.
  - injection Hspec as <- <-. eapply wp_mono; [by eapply peek_next_ok|]. by intros o c' [-> ->].
  - injection Hspec as <- <-. eapply wp_mono; [by eapply peek_prev_ok|]. by intros o c' [-> ->].
Qed.

Lemma empty_pool U m g : (∀ v, v ∈ U → free_item (MkLSt m g null) v) → pool U (MkLSt m g null) [].
Proof. intros Hf. split; [split; [apply ring_nil|done]|auto]. Qed.
End ClientSpecs.

(** ** Theorems *)

(** Three items whose links are at offset 8, with a self pointer 16 bytes further. *)
Definition demo_items : list Z := [100; 200; 300].
Definition demo_list : LSt :=
  MkLSt (list_to_map [(108, links_new); (208, links_new); (308, links_new)])
    (list_to_map [(124, None); (224, None); (324, None)]) null.
Definition demo_spec := using_ListLinksSelfPtr_spec 8 16.

Lemma demo_free v : v ∈ demo_items → @free_item _ demo_spec demo_list v.
Proof.
  intros Hv. unfold demo_items in Hv. rewrite !elem_of_cons, elem_of_nil in Hv.
  destruct Hv as [->|[->|[->|[]]]];
    (split; [vm_compute; congruence|split; [eexists; reflexivity|reflexivity]]).
Qed.

(** C4: every well-owned sequence of list operations behaves as on sequences. For
    any implementation of [ListItem] that keeps its guarantees and any pool of
    items, a client that starts with an empty list and pushes only items it holds
    gets from [push_back], [push_front], [pop_back], [pop_front] and [remove] the
    answers of the deque on mathematical lists, with no undefined behaviour and no
    failed debug assertion; afterwards the cycle of links represents exactly the
    specified contents, and every other item of the pool has null links again. *)
Theorem list_program_refines `{LIs : ListItemSpec} U m g os rs vs
    (Hfree : ∀ v, v ∈ U → free_item (MkLSt m g null) v)
    (Hspec : run_spec (lspec U) [] os = Some (rs, vs)) :
  ∃ s', run_ops lexec os (MkLSt m g null) = Done (rs, s') ∧ list_rep s' vs ∧
    (∀ v, v ∈ U → v ∉ vs → free_item s' v).
Proof.
  destruct (run_ops_refines lexec (lspec U) (pool U) (lexec_ok U) os _ _ _ _
    (empty_pool U m g Hfree) Hspec) as (rs' & s' & He & -> & Hp).
  exists s'. split; [done|]. split; [apply Hp|]. intros v. by apply pool_free.
Qed.

Lemma list_program_refines_witness :
  ∃ s', @run_ops LSt lop (option Z) (@lexec (using_ListLinksSelfPtr 8 16))
      [LPushBack 100; LPushFront 200; LPushBack 300; LRemove 100; LPopBack; LRemove 300]
      demo_list = Done ([None; None; None; Some 100; Some 300; None], s') ∧
    @list_rep _ demo_spec s' [200] ∧
    (∀ v, v ∈ demo_items → v ∉ [200] → @free_item _ demo_spec s' v).
Proof.
  apply (@list_program_refines _ demo_spec demo_items _ _ _ _ _ demo_free). reflexivity.
Defined.

(** C19: a cursor is a zipper. Starting from [cursor_front] or [cursor_back] of any
    list, every well-owned sequence of moves, insertions, removals and peeks gives
    the answers of the zipper over the contents, and leaves the list with exactly
    the contents of the zipper and all other pool items free. *)
Theorem cursor_program_refines `{LIs : ListItemSpec} U s vs os rs r l (at_front : bool)
    (Hp : pool U s vs)
    (Hspec : run_spec (cspec U) (if at_front then ([], vs) else (rev vs, [])) os = Some (rs, (r, l))) :
  ∃ c', run_ops cexec os (if at_front then cursor_front s else cursor_back s) = Done (rs, c') ∧
    cursor_rep c' (rev r) l ∧ pool U (clist c') (rev r ++ l).
Proof.
  assert (zips U (if at_front then cursor_front s else cursor_back s)
    (if at_front then ([], vs) else (rev vs, []))) as Hz.
  { destruct at_front; split; simpl; rewrite ?rev_involutive, ?app_nil_r; try done.
    - split; [apply Hp|]. apply Hp.
    - split; [|done]. rewrite app_nil_r. apply Hp. }
  destruct (run_ops_refines cexec (cspec U) (zips U) (cexec_ok U) os _ _ _ _ Hz Hspec)
    as (rs' & c' & He & -> & H1 & H2).
  by exists c'.
Qed.

Lemma cursor_program_refines_witness :
  ∃ c', @run_ops CSt cop cobs (@cexec (using_ListLinksSelfPtr 8 16))
      [CInsertPrev 100; CInsertNext 300; CInsertPrev 200; CMovePrev; CPeekPrev; CRemoveNext; CMoveNext; CPeekNext]
      (cursor_front demo_list) =
      Done ([CUnit; CUnit; CUnit; CBool true; CItem (Some 100); CItem (Some 200); CBool true; CItem None], c') ∧
    @cursor_rep _ demo_spec c' [100; 300] [] ∧ @pool _ demo_spec demo_items (clist c') [100; 300].
Proof.
  apply (@cursor_program_refines _ demo_spec demo_items demo_list [] _ _ [300; 100] [] true);
    [|reflexivity]. apply (@empty_pool _ demo_spec). apply demo_free.
Defined.

(** [push_all_back] moves all items of a disjoint list to the end of this one
    in constant time (four field writes): afterwards this list holds the
    concatenation, the other one is empty, and no link outside of the two lists
    has changed. *)
Theorem push_all_back_concat `{LIs : ListItemSpec} s vs1 vs2 other
    (H1 : list_rep s vs1) (H2 : list_rep (set_first other s) vs2)
    (Hd : ∀ v, v ∈ vs1 → v ∉ vs2) :
  ∃ s', push_all_back other s = Done (null, s') ∧ list_rep s' (vs1 ++ vs2) ∧
    (∀ p, p ∉ view_links <$> vs1 ++ vs2 → lk s' !! p = lk s !! p).
Proof.
  destruct (push_all_back_ok s vs1 vs2 other H1 H2 Hd) as (o & s' & He & -> & Hr & _ & Hst).
  exists s'. split; [done|]. split; [done|]. apply Hst.
Qed.

(** Two lists in one memory: [200; 100] and [300]. *)
Definition demo_two : LSt :=
  MkLSt (list_to_map [(108, MkLinks 208 208); (208, MkLinks 108 108); (308, MkLinks 308 308)])
    (list_to_map [(124, Some 100); (224, Some 200); (324, Some 300)]) 208.

Lemma demo_two_rep vs f : (vs = [200; 100] ∧ f = 208) ∨ (vs = [300] ∧ f = 308) →
  @list_rep _ demo_spec (set_first f demo_two) vs.
Proof.
  intros [[-> ->]|[-> ->]]; (split; [|reflexivity]); split;
    repeat first
      [ split; reflexivity | split; [reflexivity|]
      | intros v Hv; rewrite ?elem_of_cons, ?list_elem_of_singleton, ?elem_of_nil in Hv;
        destruct_or! Hv; subst; first [reflexivity | vm_compute; congruence | done]
      | apply NoDup_cons; split; [set_solver|] | apply NoDup_nil; exact I | apply I | constructor ].
Qed.

Lemma push_all_back_concat_witness :
  ∃ s', @push_all_back 308 demo_two = Done (null, s') ∧
    @list_rep _ demo_spec s' [200; 100; 300] ∧
    (∀ p, p ∉ [208; 108; 308] → lk s' !! p = lk demo_two !! p).
Proof.
  apply (@push_all_back_concat _ demo_spec demo_two [200; 100] [300] 308).
  - apply (demo_two_rep [200; 100] 208). auto.
  - apply (demo_two_rep [300] 308). auto.
  - set_solver.
Defined.

(** C32: Traversal and destruction. Iterating a list visits its items once, in
    order, and changes nothing; dropping the list removes and drops every item
    once, in order, and leaves each of them with null links. The loops take one
    iteration per item and one to stop. *)
Theorem list_iterate_and_drop `{LIs : ListItemSpec} s vs (Hr : list_rep s vs) :
  list_iter_collect (S (length vs)) (list_iter s) s = Done (vs, s) ∧
  ∃ s', list_drop (S (length vs)) s = Done (vs, s') ∧ list_rep s' [] ∧
    (∀ v, v ∈ vs → free_item s' v).
Proof.
  split.
  - destruct (list_iter_ok vs (S (length vs)) s [] Hr ltac:(lia)) as (xs & s' & He & -> & ->).
    rewrite <- (proj2 Hr) in He. exact He.
  - destruct (list_drop_ok vs (S (length vs)) s Hr ltac:(lia)) as (xs & s' & He & -> & H1 & H2 & _).
    exists s'. split; [done|]. split; [done|]. by apply Forall_forall.
Qed.

Lemma list_iterate_and_drop_witness :
  let LI := using_ListLinksSelfPtr 8 16 in
  list_iter_collect 3 (list_iter demo_two) demo_two = Done ([200; 100], demo_two) ∧
  ∃ s', list_drop 3 demo_two = Done ([200; 100], s') ∧ @list_rep _ demo_spec s' [] ∧
    (∀ v, v ∈ [200; 100] → @free_item _ demo_spec s' v).
Proof.
  apply (@list_iterate_and_drop _ demo_spec demo_two [200; 100]).
  apply (demo_two_rep [200; 100] 208). auto.
Defined.
