(* ===== verification/RBTree.v ===== *)
(** * Red-black trees ([rust/src/rbtree.rs])

    The Rust code searches the tree itself, by following child pointers, and
    leaves linking, rebalancing and stepping to the kernel's rbtree library. The
    library is a parameter: its state [rbt] is whatever it keeps for one root, its
    functions are those the bindings name, and [RbLibSpec] states what
    [linux/rbtree.h] documents of them in terms of the in-order sequence of nodes.

    [nodes] is the memory of the [Node] boxes, by address; a tree node is the
    address of the [links] field inside of its box. *)

From stdpp Require Import sorting.
From S2P Require Import Prelude Errors Alloc.

(** ** The kernel's rbtree library *)

(** A place that holds a child pointer: the root, or a child field of a node. *)
Inductive field := FRoot | FLeft (p : Z) | FRight (p : Z).

Class RbLib := {
  rbt : Type;
  rb_root_default : rbt;
  rs_rb_root_node : rbt → Z;
  rs_rb_left : rbt → Z → Z;
  rs_rb_right : rbt → Z → Z;
  rb_first : rbt → Z;
  rb_last : rbt → Z;
  rb_next : rbt → Z → Z;
  rb_prev : rbt → Z → Z;
  rb_first_postorder : rbt → Z;
  rb_next_postorder : rbt → Z → Z;
  rb_link_node : rbt → Z → Z → field → rbt;
  rb_insert_color : rbt → Z → rbt;
  rb_erase : rbt → Z → rbt;
  rb_replace_node : rbt → Z → Z → rbt;
}.

(** What a child pointer field holds. *)
Definition read_field `{RbLib} (m : rbt) (f : field) : Z :=
  match f with FRoot => rs_rb_root_node m | FLeft p => rs_rb_left m p | FRight p => rs_rb_right m p end.

(** The shape of a tree. *)
Inductive tree := Leaf | TNode (l : tree) (p : Z) (r : tree).

Definition tptr (t : tree) : Z := match t with Leaf => null | TNode _ p _ => p end.

Fixpoint inorder (t : tree) : list Z :=
  match t with Leaf => [] | TNode l p r => inorder l ++ p :: inorder r end.

Fixpoint postorder (t : tree) : list Z :=
  match t with Leaf => [] | TNode l p r => postorder l ++ postorder r ++ [p] end.

(** [occurs u t]: [u] is a subtree of [t]. *)
Fixpoint occurs (u t : tree) : Prop :=
  u = t ∨ match t with Leaf => False | TNode l _ r => occurs u l ∨ occurs u r end.

(** [hole t q f par fld l1 l2]: below the subtree [t], which hangs at field [f] of
    [q], the empty field [fld] of [par] has the nodes [l1] before and [l2] after it. *)
Inductive hole : tree → Z → field → Z → field → list Z → list Z → Prop :=
| hole_leaf q f : hole Leaf q f q f [] []
| hole_left l p r q f par fld l1 l2 :
    hole l p (FLeft p) par fld l1 l2 →
    hole (TNode l p r) q f par fld l1 (l2 ++ p :: inorder r)
| hole_right l p r q f par fld l1 l2 :
    hole r p (FRight p) par fld l1 l2 →
    hole (TNode l p r) q f par fld (inorder l ++ p :: l1) l2.

(** The documented behaviour of the library. *)
Class RbLibSpec `{RbLib} := {
  rb_wf : rbt → tree → Prop;
  rb_wf_nodup m t : rb_wf m t → NoDup (inorder t) ∧ null ∉ inorder t;
  rb_wf_default : rb_wf rb_root_default Leaf;
  rb_wf_root m t : rb_wf m t → rs_rb_root_node m = tptr t;
  rb_wf_children m t l p r : rb_wf m t → occurs (TNode l p r) t →
    rs_rb_left m p = tptr l ∧ rs_rb_right m p = tptr r;
  rb_first_ok m t : rb_wf m t → rb_first m = hdz null (inorder t);
  rb_last_ok m t : rb_wf m t → rb_last m = lastz null (inorder t);
  rb_step_ok m t l1 p l2 : rb_wf m t → inorder t = l1 ++ p :: l2 →
    rb_next m p = hdz null l2 ∧ rb_prev m p = lastz null l1;
  rb_first_postorder_ok m t : rb_wf m t → rb_first_postorder m = hdz null (postorder t);
  rb_next_postorder_ok m t l1 p l2 : rb_wf m t → postorder t = l1 ++ p :: l2 →
    rb_next_postorder m p = hdz null l2;
  rb_insert_ok m t par fld l1 l2 p : rb_wf m t → hole t null FRoot par fld l1 l2 →
    p ∉ inorder t → p ≠ null →
    ∃ t', rb_wf (rb_insert_color (rb_link_node m p par fld) p) t' ∧ inorder t' = l1 ++ p :: l2;
  rb_erase_ok m t l1 p l2 : rb_wf m t → inorder t = l1 ++ p :: l2 →
    ∃ t', rb_wf (rb_erase m p) t' ∧ inorder t' = l1 ++ l2;
  rb_replace_ok m t l1 p l2 q : rb_wf m t → inorder t = l1 ++ p :: l2 →
    q ∉ inorder t → q ≠ null →
    ∃ t', rb_wf (rb_replace_node m p q) t' ∧ inorder t' = l1 ++ q :: l2;
}.

(** ** State and environment *)

(** The [Ord] of the key type, the offset of [links] in [Node] and the allocation
    of the box of a node. *)
Class RBEnv (K V : Type) := {
  kcmp : K → K → comparison;
  links_off : Z;
  new_uninit : gmap Z (option (K * V)) → Flags → option Z;
}.

Class RBEnvSpec (K V : Type) `{RBEnv K V} : Prop := {
  kcmp_eq a b : kcmp a b = Eq ↔ a = b;
  kcmp_anti a b : kcmp b a = CompOpp (kcmp a b);
  kcmp_trans a b c : kcmp a b = Lt → kcmp b c = Lt → kcmp a c = Lt;
  links_off_nonneg : 0 ≤ links_off;
  new_uninit_fresh h fl p : new_uninit h fl = Some p → h !! p = None ∧ 0 < p;
}.

(** [klib] is the library's state for the tree, [nodes] the boxes ([None] in one
    that is reserved but not written), [rdropped] the values dropped. *)
Record RSt `{RbLib} (K V : Type) :=
  MkRSt { klib : rbt; nodes : gmap Z (option (K * V)); rdropped : list (K * V) }.
Arguments MkRSt {_ K V}.
Arguments klib {_ K V}.
Arguments nodes {_ K V}.
Arguments rdropped {_ K V}.

Section Ops.
Context `{RL : RbLib} {K V : Type} `{RE : RBEnv K V}.
Local Abbreviation RM := (M (RSt K V)).

Definition set_klib (m : rbt) (s : RSt K V) : RSt K V := MkRSt m (nodes s) (rdropped s).
Definition set_nodes (h : gmap Z (option (K * V))) (s : RSt K V) : RSt K V :=
  MkRSt (klib s) h (rdropped s).
Definition log_node (kv : K * V) (s : RSt K V) : RSt K V :=
  MkRSt (klib s) (nodes s) (rdropped s ++ [kv]).

Definition links (node : Z) : Z := node + links_off.
Definition container_of (l : Z) : Z := l - links_off.
Definition lib_state : RM rbt := s ← get; mret (klib s).
Definition lib_update (f : rbt → rbt) : RM unit := modify (λ s, set_klib (f (klib s)) s).

(** Reads of the key and the value of a node. *)
Definition read_node (node : Z) : RM (K * V) := λ s,
  match nodes s !! node with Some (Some kv) => Done (kv, s) | _ => UB end.
Definition write_node (node : Z) (kv : K * V) : RM unit := λ s,
  match nodes s !! node with
  | Some _ => Done (tt, set_nodes (<[node := Some kv]> (nodes s)) s)
  | None => UB
  end.
(** Releases the box of a node and returns its contents. *)
Definition box_into_inner (node : Z) : RM (K * V) :=
  kv ← read_node node;
  _ ← modify (λ s, set_nodes (delete node (nodes s)) s);
  mret kv.
Definition box_drop (node : Z) : RM unit := kv ← box_into_inner node; modify (log_node kv).

(** ** [RBTreeNodeReservation] and [RBTreeNode]: the address of the box *)

Definition reservation_new (flags : Flags) : RM (result Error Z) :=
  s ← get;
  match new_uninit (nodes s) flags with
  | None => mret (Err (into_error MkAllocError))
  | Some p => _ ← modify (set_nodes (<[p := None]> (nodes s))); mret (Ok p)
  end.

Definition into_node (reservation : Z) (key : K) (value : V) : RM Z :=
  _ ← write_node reservation (key, value); mret reservation.

Definition node_new (key : K) (value : V) (flags : Flags) : RM (result Error Z) :=
  r ←? reservation_new flags; n ← into_node r key value; mret (Ok n).

Definition node_to_key_value (node : Z) : RM (K * V) := box_into_inner node.

(** Drops the key and the value, and keeps the box. *)
Definition into_reservation (node : Z) : RM Z :=
  kv ← read_node node;
  _ ← modify (log_node kv);
  _ ← modify (λ s, set_nodes (<[node := None]> (nodes s)) s);
  mret node.

(** ** Entries *)

Record RawVacantEntry := MkVacant { vparent : Z; vfield : field }.
Inductive RawEntry := Vacant (e : RawVacantEntry) | Occupied (node_links : Z).

(** The search loop of [raw_entry]. *)
Fixpoint raw_entry_loop (key : K) (fuel : nat) (parent : Z) (child : field) : RM RawEntry :=
  match fuel with
  | O => ub
  | S fuel =>
      m ← lib_state;
      let curr := read_field m child in
      if is_null curr then mret (Vacant (MkVacant parent child))
      else
        kv ← read_node (container_of curr);
        match kcmp key (fst kv) with
        | Lt => raw_entry_loop key fuel curr (FLeft curr)
        | Gt => raw_entry_loop key fuel curr (FRight curr)
        | Eq => mret (Occupied curr)
        end
  end.

Definition raw_entry (fuel : nat) (key : K) : RM RawEntry := raw_entry_loop key fuel null FRoot.

(** [RawVacantEntry::insert]: returns the box, whose value is handed out. *)
Definition vacant_insert (e : RawVacantEntry) (node : Z) : RM Z :=
  let node_links := links node in
  _ ← lib_update (λ m, rb_link_node m node_links (vparent e) (vfield e));
  _ ← lib_update (λ m, rb_insert_color m node_links);
  mret node.

(** [OccupiedEntry]. *)
Definition occupied_get (node_links : Z) : RM V :=
  kv ← read_node (container_of node_links); mret (snd kv).
Definition occupied_into_mut (node_links : Z) : Z := container_of node_links.
Definition occupied_remove_node (node_links : Z) : RM Z :=
  _ ← lib_update (λ m, rb_erase m node_links); mret (container_of node_links).
Definition occupied_remove (node_links : Z) : RM V :=
  n ← occupied_remove_node node_links;
  kv ← box_into_inner n;
  mret (snd kv).
Definition occupied_replace (node_links node : Z) : RM Z :=
  let new_node_links := links node in
  _ ← lib_update (λ m, rb_replace_node m node_links new_node_links);
  mret (container_of node_links).

(** [VacantEntry::insert]. *)
Definition vacant_entry_insert (key : K) (e : RawVacantEntry) (value : V) (reservation : Z) : RM Z :=
  n ← into_node reservation key value; vacant_insert e n.

(** ** [RBTree] *)

Definition rbtree_insert (fuel : nat) (node : Z) : RM (option Z) :=
  kv ← read_node node;
  e ← raw_entry fuel (fst kv);
  match e with
  | Occupied l => old ← occupied_replace l node; mret (Some old)
  | Vacant e => _ ← vacant_insert e node; mret None
  end.

Definition try_create_and_insert (fuel : nat) (key : K) (value : V) (flags : Flags) :
    RM (result Error (option Z)) :=
  n ←? node_new key value flags; r ← rbtree_insert fuel n; mret (Ok r).

Definition find_mut (fuel : nat) (key : K) : RM (option Z) :=
  e ← raw_entry fuel key;
  mret (match e with Occupied l => Some l | Vacant _ => None end).

(** [get_mut]: the box whose value may be written through. *)
Definition get_mut (fuel : nat) (key : K) : RM (option Z) :=
  e ← find_mut fuel key; mret (occupied_into_mut <$> e).

Fixpoint rbtree_get_loop (key : K) (fuel : nat) (node : Z) : RM (option V) :=
  match fuel with
  | O => ub
  | S fuel =>
      if is_null node then mret None
      else
        m ← lib_state;
        kv ← read_node (container_of node);
        match kcmp key (fst kv) with
        | Lt => rbtree_get_loop key fuel (rs_rb_left m node)
        | Gt => rbtree_get_loop key fuel (rs_rb_right m node)
        | Eq => mret (Some (snd kv))
        end
  end.
Definition rbtree_get (fuel : nat) (key : K) : RM (option V) :=
  m ← lib_state; rbtree_get_loop key fuel (rs_rb_root_node m).

Definition remove_node (fuel : nat) (key : K) : RM (option Z) :=
  e ← find_mut fuel key;
  match e with None => mret None | Some l => n ← occupied_remove_node l; mret (Some n) end.

Definition rbtree_remove (fuel : nat) (key : K) : RM (option V) :=
  e ← find_mut fuel key;
  match e with None => mret None | Some l => v ← occupied_remove l; mret (Some v) end.

(** [cursor_lower_bound]: the search loop, then the cursor. *)
Fixpoint lower_bound_loop (key : K) (fuel : nat) (node : Z) (best : option Z) : RM (option Z) :=
  match fuel with
  | O => ub
  | S fuel =>
      if is_null node then mret best
      else
        let this := container_of node in
        kv ← read_node this;
        m ← lib_state;
        let left_child := rs_rb_left m node in
        let right_child := rs_rb_right m node in
        match kcmp key (fst kv) with
        | Eq => mret (Some this)
        | Gt => lower_bound_loop key fuel right_child best
        | Lt =>
            is_better ← (match best with
                         | None => mret true
                         | Some b =>
                             bkv ← read_node b;
                             mret (match kcmp (fst bkv) (fst kv) with Gt => true | _ => false end)
                         end);
            lower_bound_loop key fuel left_child (if is_better : bool then Some this else best)
        end
  end.

Definition non_null (p : Z) : option Z := if is_null p then None else Some p.

Definition cursor_lower_bound (fuel : nat) (key : K) : RM (option Z) :=
  m ← lib_state;
  best ← lower_bound_loop key fuel (rs_rb_root_node m) None;
  mret (match best with None => None | Some b => non_null (links b) end).

Definition rb_cursor_front : RM (option Z) := m ← lib_state; mret (non_null (rb_first m)).
Definition rb_cursor_back : RM (option Z) := m ← lib_state; mret (non_null (rb_last m)).

(** ** [Cursor]: the node it is at *)

Inductive Direction := Prev | Next.

Definition get_neighbor_raw (current : Z) (d : Direction) : RM (option Z) :=
  m ← lib_state;
  mret (non_null (match d with Prev => rb_prev m current | Next => rb_next m current end)).

Definition to_key_value (node_links : Z) : RM (K * V) := read_node (container_of node_links).
Definition cursor_current (current : Z) : RM (K * V) := to_key_value current.

(** [&mut V] is the node that the value is in. *)
Definition to_key_value_mut (node_links : Z) : RM (K * Z) :=
  kv ← read_node (container_of node_links); mret (fst kv, container_of node_links).
Definition cursor_current_mut (current : Z) : RM (K * Z) := to_key_value_mut current.

Definition cursor_mv (current : Z) (d : Direction) : RM (option Z) := get_neighbor_raw current d.

Definition cursor_peek (current : Z) (d : Direction) : RM (option (K * V)) :=
  n ← get_neighbor_raw current d;
  match n with None => mret None | Some n => kv ← to_key_value n; mret (Some kv) end.

Definition cursor_peek_mut (current : Z) (d : Direction) : RM (option (K * Z)) :=
  n ← get_neighbor_raw current d;
  match n with None => mret None | Some n => kv ← to_key_value_mut n; mret (Some kv) end.

Definition remove_neighbor (current : Z) (d : Direction) : RM (option Z) :=
  n ← get_neighbor_raw current d;
  match n with
  | None => mret None
  | Some n => _ ← lib_update (λ m, rb_erase m n); mret (Some (container_of n))
  end.

Definition remove_current (current : Z) : RM (option Z * Z) :=
  prev ← get_neighbor_raw current Prev;
  next ← get_neighbor_raw current Next;
  let this := container_of current in
  _ ← lib_update (λ m, rb_erase m (links this));
  mret (match prev, next with
        | _, Some next => Some next
        | Some prev, None => Some prev
        | None, None => None
        end, this).

(** ** Iteration and destruction *)

Definition rb_iter : RM Z := m ← lib_state; mret (rb_first m).

Definition iter_raw_next (next : Z) : RM (option (K * V) * Z) :=
  if is_null next then mret (None, next)
  else
    let cur := container_of next in
    m ← lib_state;
    let next' := rb_next m next in
    kv ← read_node cur;
    mret (Some kv, next').

Fixpoint rb_iter_collect (fuel : nat) (next : Z) : RM (list (K * V)) :=
  match fuel with
  | O => ub
  | S fuel =>
      out ← iter_raw_next next;
      match fst out with
      | None => mret []
      | Some kv => kvs ← rb_iter_collect fuel (snd out); mret (kv :: kvs)
      end
  end.

(** [IterMut]: the entry with the place of its value. *)
Definition rb_iter_mut : RM Z := m ← lib_state; mret (rb_first m).
Definition iter_mut_next (next : Z) : RM (option (K * Z) * Z) :=
  out ← iter_raw_next next;
  mret ((λ kv, (fst kv, container_of next)) <$> fst out, snd out).

Fixpoint rb_drop_loop (fuel : nat) (next : Z) : RM unit :=
  match fuel with
  | O => ub
  | S fuel =>
      if is_null next then mret tt
      else
        let this := container_of next in
        m ← lib_state;
        let next' := rb_next_postorder m next in
        _ ← box_drop this;
        rb_drop_loop fuel next'
  end.
Definition rbtree_drop (fuel : nat) : RM unit :=
  m ← lib_state; rb_drop_loop fuel (rb_first_postorder m).
End Ops.

(** ** Sorted association lists: the abstract contents *)

Section Sorted.
Context {K V : Type} `{RE : RBEnv K V}.

Definition key_lt (a b : K * V) : Prop := kcmp (fst a) (fst b) = Lt.

Fixpoint slookup (k : K) (kvs : list (K * V)) : option V :=
  match kvs with
  | [] => None
  | kv :: kvs => match kcmp k (fst kv) with Lt => None | Eq => Some (snd kv) | Gt => slookup k kvs end
  end.

Fixpoint sinsert (k : K) (v : V) (kvs : list (K * V)) : list (K * V) :=
  match kvs with
  | [] => [(k, v)]
  | kv :: r =>
      match kcmp k (fst kv) with Lt => (k, v) :: kvs | Eq => (k, v) :: r | Gt => kv :: sinsert k v r end
  end.

Fixpoint sremove (k : K) (kvs : list (K * V)) : list (K * V) :=
  match kvs with
  | [] => []
  | kv :: r => match kcmp k (fst kv) with Lt => kvs | Eq => r | Gt => kv :: sremove k r end
  end.

(** The first entry whose key is at least [k]. *)
Fixpoint slower (k : K) (kvs : list (K * V)) : option (K * V) :=
  match kvs with
  | [] => None
  | kv :: r => match kcmp k (fst kv) with Gt => slower k r | _ => Some kv end
  end.

(** [k] separates [A] from [C]. *)
Definition below (k : K) (A : list (K * V)) : Prop := Forall (λ kv, kcmp k (fst kv) = Gt) A.
Definition above (k : K) (C : list (K * V)) : Prop := Forall (λ kv, kcmp k (fst kv) = Lt) C.

Lemma skip_below (k : K) A C : below k A →
  slookup k (A ++ C) = slookup k C ∧ (∀ v, sinsert k v (A ++ C) = A ++ sinsert k v C) ∧
  sremove k (A ++ C) = A ++ sremove k C ∧ slower k (A ++ C) = slower k C.
Proof.
  induction 1 as [|kv A Hkv _ (IH1 & IH2 & IH3 & IH4)]; [done|]. simpl. rewrite Hkv.
  split_and!; [done|intros; by rewrite IH2|by rewrite IH3|done].
Qed.

Lemma at_above (k : K) C : above k C →
  slookup k C = None ∧ (∀ v, sinsert k v C = (k, v) :: C) ∧ sremove k C = C ∧ slower k C = head C.
Proof. destruct 1 as [|kv C Hkv _]; simpl; [done|]. by rewrite Hkv. Qed.
End Sorted.

(** ** Representation *)

Section Rep.
Context `{RLs : RbLibSpec} {K V : Type} `{REs : RBEnvSpec K V}.
Implicit Types (s : RSt K V) (ps : list Z) (kvs A B C : list (K * V)).

Lemma kcmp_refl k : kcmp k k = Eq.
Proof. by apply kcmp_eq. Qed.
Lemma kcmp_gt a b : kcmp a b = Gt ↔ kcmp b a = Lt.
Proof. rewrite (kcmp_anti a b). destruct (kcmp a b); done. Qed.

Definition nodeat (h : gmap Z (option (K * V))) (p : Z) (kv : K * V) : Prop :=
  h !! container_of p = Some (Some kv).

(** The tree has the nodes [ps] in order, which hold [kvs]; the boxes that are not
    in the tree are those of [h0]. *)
Record rb_rep (s : RSt K V) (ps : list Z) (kvs : list (K * V)) (h0 : gmap Z (option (K * V))) : Prop := {
  rr_tree : ∃ t, rb_wf (klib s) t ∧ inorder t = ps;
  rr_nodes : Forall2 (nodeat (nodes s)) ps kvs;
  rr_sorted : StronglySorted key_lt kvs;
  rr_frame x : x ∉ container_of <$> ps → nodes s !! x = h0 !! x;
  rr_fresh p : p ∈ ps → h0 !! container_of p = None;
  rr_pos p : p ∈ ps → 0 < container_of p
}.

#[local] Instance container_inj : Inj (=) (=) container_of.
Proof. intros a b. unfold container_of. lia. Qed.

Lemma links_container p : links (container_of p) = p.
Proof. unfold links, container_of. lia. Qed.
Lemma container_links p : container_of (links p) = p.
Proof. unfold links, container_of. lia. Qed.

Lemma rr_nodup s ps kvs h0 : rb_rep s ps kvs h0 → NoDup ps ∧ null ∉ ps.
Proof. intros []. destruct rr_tree0 as (t & Hw & <-). by eapply rb_wf_nodup. Qed.

(** *** Searching *)

(** Where a search for [k] stands: at the subtree [u] of [t], with the nodes [L]
    and [R] on either side, that hold the entries below and above [k]. *)
Record search (s : RSt K V) (t : tree) kvs (k : K) (u : tree) A B C (L R : list Z) : Prop := {
  se_occurs : ∀ w, occurs w u → occurs w t;
  se_inorder : inorder t = L ++ inorder u ++ R;
  se_kvs : kvs = A ++ B ++ C;
  se_L : Forall2 (nodeat (nodes s)) L A;
  se_B : Forall2 (nodeat (nodes s)) (inorder u) B;
  se_R : Forall2 (nodeat (nodes s)) R C;
  se_below : below k A;
  se_above : above k C
}.

(** The key is found at [p]. *)
Definition found s (ps : list Z) kvs (k : K) p (L R : list Z) A (v : V) C : Prop :=
  ps = L ++ p :: R ∧ kvs = A ++ (k, v) :: C ∧ nodeat (nodes s) p (k, v) ∧
  Forall2 (nodeat (nodes s)) L A ∧ Forall2 (nodeat (nodes s)) R C ∧ below k A ∧ above k C.

(** The key is absent. *)
Definition absent s (ps : list Z) kvs (k : K) (L R : list Z) A C : Prop :=
  ps = L ++ R ∧ kvs = A ++ C ∧
  Forall2 (nodeat (nodes s)) L A ∧ Forall2 (nodeat (nodes s)) R C ∧ below k A ∧ above k C.

Lemma search_start s t kvs k : Forall2 (nodeat (nodes s)) (inorder t) kvs →
  search s t kvs k t [] kvs [] [] [].
Proof. intros H1. split; rewrite ?app_nil_r; try done; constructor. Qed.

Lemma search_leaf s t kvs k A B C L R : search s t kvs k Leaf A B C L R →
  B = [] ∧ absent s (inorder t) kvs k L R A C.
Proof.
  intros []. simpl in *. inversion se_B0; subst. split; [done|]. by split_and!.
Qed.

Lemma sorted_mid A kv C : StronglySorted key_lt (A ++ kv :: C) →
  Forall (λ x : K * V, kcmp (fst x) (fst kv) = Lt) A ∧
  Forall (λ x : K * V, kcmp (fst kv) (fst x) = Lt) C.
Proof.
  induction A as [|a A IH]; simpl; intros Hs; inversion_clear Hs as [|? ? Hs' Hf]; [done|].
  destruct (IH Hs') as [H1 H2]. split; [|done]. constructor; [|done].
  rewrite Forall_app, Forall_cons in Hf. apply Hf.
Qed.

(** One comparison of the search. *)
Lemma search_node s t kvs k l p r A B C L R :
  StronglySorted key_lt kvs → search s t kvs k (TNode l p r) A B C L R →
  ∃ kv Bl Br, B = Bl ++ kv :: Br ∧ nodeat (nodes s) p kv ∧
    (kcmp k (fst kv) = Lt → search s t kvs k l A Bl (kv :: Br ++ C) L (p :: inorder r ++ R)) ∧
    (kcmp k (fst kv) = Gt → search s t kvs k r (A ++ Bl ++ [kv]) Br C (L ++ inorder l ++ [p]) R) ∧
    (kcmp k (fst kv) = Eq →
       found s (inorder t) kvs k p (L ++ inorder l) (inorder r ++ R) (A ++ Bl) (snd kv) (Br ++ C)).
Proof.
  intros Hs []. simpl in *. pose proof se_B0 as HB.
  apply Forall2_app_inv_l in HB as (Bl & B' & Hl & HB & ->).
  inversion HB as [|? kv ? Br Hkv Hr]; subst. exists kv, Bl, Br.
  assert (A ++ (Bl ++ kv :: Br) ++ C = (A ++ Bl) ++ kv :: (Br ++ C)) as E
    by (by rewrite <- !app_assoc).
  rewrite E in Hs. apply sorted_mid in Hs as [Hlt Hgt]. apply Forall_app in Hlt as [HltA HltB].
  apply Forall_app in Hgt as [HgtB HgtC].
  split; [done|]. split; [done|]. split_and!; intros Hc.
  - split; try done.
    + intros w Hw. apply se_occurs0. right. by left.
    + rewrite se_inorder0, <- !app_assoc. done.
    + by rewrite <- !app_assoc.
    + constructor; [done|]. by apply Forall2_app.
    + constructor; [done|]. apply Forall_app. split; [|done].
      eapply Forall_impl; [exact HgtB|]. simpl. intros x. by apply kcmp_trans.
  - split; try done.
    + intros w Hw. apply se_occurs0. right. by right.
    + rewrite se_inorder0, <- !app_assoc. done.
    + by rewrite <- !app_assoc.
    + apply Forall2_app; [done|]. apply Forall2_app; [done|]. by constructor.
    + apply Forall_app. split; [done|]. apply Forall_app. split; [|by constructor].
      eapply Forall_impl; [exact HltB|]. simpl. intros x Hx.
      apply kcmp_gt. apply kcmp_gt in Hc. by eapply kcmp_trans.
  - apply kcmp_eq in Hc as ->. split_and!.
    + rewrite se_inorder0. by rewrite <- !app_assoc.
    + rewrite E. by destruct kv.
    + by destruct kv.
    + by apply Forall2_app.
    + by apply Forall2_app.
    + apply Forall_app. split; [done|]. eapply Forall_impl; [exact HltB|]. intros x Hx. by apply kcmp_gt.
    + apply Forall_app. split; [exact HgtB|done].
Qed.

Lemma wp_read_node s p kv Q : nodes s !! p = Some (Some kv) → Q kv s → wp (read_node p) Q s.
Proof. intros Hp HQ. exists kv, s. unfold read_node. by rewrite Hp. Qed.

Lemma wp_lib_state s (Q : rbt → RSt K V → Prop) : Q (klib s) s → wp lib_state Q s.
Proof. intros HQ. by apply wp_bind, wp_get, wp_ret. Qed.

Lemma tree_nonnull s t l p r : rb_wf (klib s) t → occurs (TNode l p r) t → is_null p = false.
Proof.
  intros Hw Ho. destruct (rb_wf_nodup _ _ Hw) as [_ Hn]. apply Z.eqb_neq. intros ->.
  apply Hn. clear -Ho. induction t as [|tl IHl q tr IHr]; simpl in *.
  - by destruct Ho.
  - destruct Ho as [[= -> -> ->]|[Ho|Ho]]; set_solver.
Qed.

Lemma occurs_refl u : occurs u u.
Proof. destruct u; by left. Qed.
End Rep.

Section Search.
Context `{RLs : RbLibSpec} {K V : Type} `{REs : RBEnvSpec K V}.
Implicit Types (s : RSt K V) (ps : list Z) (kvs A B C : list (K * V)).

(** The outcome of [raw_entry]. *)
Definition entry_at s t kvs k (e : RawEntry) : Prop :=
  match e with
  | Occupied p => ∃ L R A v C, found s (inorder t) kvs k p L R A v C
  | Vacant (MkVacant par fld) => ∃ L R A C, absent s (inorder t) kvs k L R A C ∧
      hole t null FRoot par fld L R
  end.

Lemma raw_entry_loop_ok s t kvs k u : ∀ fuel q f A B C L R,
  rb_wf (klib s) t → StronglySorted key_lt kvs →
  search s t kvs k u A B C L R → read_field (klib s) f = tptr u →
  (∀ par fld l1 l2, hole u q f par fld l1 l2 → hole t null FRoot par fld (L ++ l1) (l2 ++ R)) →
  (length (inorder u) < fuel)%nat →
  wp (raw_entry_loop k fuel q f) (λ e s', s' = s ∧ entry_at s t kvs k e) s.
Proof.
  induction u as [|l IHl p r IHr]; intros [|fuel] q f A B C L R Hw Hs Hse Hf Hh Hlt; try (simpl in Hlt; lia);
    cbn [raw_entry_loop]; apply wp_bind, wp_lib_state; rewrite Hf; cbn [tptr].
  - apply wp_ret. split; [done|]. destruct (search_leaf _ _ _ _ _ _ _ _ _ Hse) as [_ Ha].
    exists L, R, A, C. split; [done|]. specialize (Hh q f [] [] (hole_leaf _ _)).
    by rewrite app_nil_r in Hh.
  - pose proof (se_occurs _ _ _ _ _ _ _ _ _ _ Hse _ (occurs_refl _)) as Ho.
    rewrite (tree_nonnull _ _ _ _ _ Hw Ho). destruct (rb_wf_children _ _ _ _ _ Hw Ho) as [El Er].
    destruct (search_node _ _ _ _ _ _ _ _ _ _ _ _ Hs Hse) as (kv & Bl & Br & -> & Hkv & H1 & H2 & H3).
    simpl in Hlt. rewrite length_app in Hlt. simpl in Hlt.
    apply wp_bind. eapply wp_read_node; [exact Hkv|]. destruct (kcmp k (fst kv)) eqn:Ec.
    + apply wp_ret. split; [done|]. simpl. eauto 10.
    + eapply IHl; [done..|by apply H1|done| |lia]. intros par fld l1 l2 Hhole.
      replace (l2 ++ p :: inorder r ++ R) with ((l2 ++ p :: inorder r) ++ R) by (by rewrite <- app_assoc).
      apply Hh. by constructor.
    + eapply IHr; [done..|by apply H2|done| |lia]. intros par fld l1 l2 Hhole.
      replace ((L ++ inorder l ++ [p]) ++ l1) with (L ++ (inorder l ++ p :: l1))
        by (by rewrite <- !app_assoc).
      apply Hh. by constructor.
Qed.

Lemma raw_entry_ok s ps kvs h0 k fuel : rb_rep s ps kvs h0 → (length kvs < fuel)%nat →
  ∃ t, rb_wf (klib s) t ∧ inorder t = ps ∧
    wp (raw_entry fuel k) (λ e s', s' = s ∧ entry_at s t kvs k e) s.
Proof.
  intros [(t & Hw & <-) Hn Hs _ _ _] Hlt. exists t. split_and!; [done..|].
  eapply raw_entry_loop_ok; [done|done|by apply search_start|by apply rb_wf_root| |].
  - intros. by rewrite app_nil_r.
  - by rewrite (Forall2_length _ _ _ Hn).
Qed.

(** [get] is [find_mut] followed by a read. *)
Lemma get_loop_ok s t kvs k u : ∀ fuel A B C L R,
  rb_wf (klib s) t → StronglySorted key_lt kvs → search s t kvs k u A B C L R →
  (length (inorder u) < fuel)%nat →
  wp (rbtree_get_loop k fuel (tptr u)) (λ r s', s' = s ∧ r = slookup k kvs) s.
Proof.
  induction u as [|l IHl p r IHr]; intros [|fuel] A B C L R Hw Hs Hse Hlt; try (simpl in Hlt; lia);
    cbn [rbtree_get_loop tptr].
  - apply wp_ret. split; [done|].
    destruct (search_leaf _ _ _ _ _ _ _ _ _ Hse) as [_ (_ & -> & _ & _ & Ha & Hc)].
    by rewrite (proj1 (skip_below _ _ _ Ha)), (proj1 (at_above _ _ Hc)).
  - pose proof (se_occurs _ _ _ _ _ _ _ _ _ _ Hse _ (occurs_refl _)) as Ho.
    rewrite (tree_nonnull _ _ _ _ _ Hw Ho). destruct (rb_wf_children _ _ _ _ _ Hw Ho) as [El Er].
    destruct (search_node _ _ _ _ _ _ _ _ _ _ _ _ Hs Hse) as (kv & Bl & Br & -> & Hkv & H1 & H2 & H3).
    simpl in Hlt. rewrite length_app in Hlt. simpl in Hlt. apply wp_bind, wp_lib_state.
    apply wp_bind. eapply wp_read_node; [exact Hkv|]. rewrite El, Er. destruct (kcmp k (fst kv)) eqn:Ec.
    + apply wp_ret. split; [done|]. destruct (H3 eq_refl) as (_ & -> & _ & _ & _ & Ha & _).
      rewrite (proj1 (skip_below _ _ _ Ha)). simpl. by rewrite kcmp_refl.
    + eapply IHl; [done..|by apply H1|lia].
    + eapply IHr; [done..|by apply H2|lia].
Qed.

Lemma rbtree_get_ok s ps kvs h0 k fuel : rb_rep s ps kvs h0 → (length kvs < fuel)%nat →
  wp (rbtree_get fuel k) (λ r s', s' = s ∧ r = slookup k kvs) s.
Proof.
  intros [(t & Hw & <-) Hn Hs _ _ _] Hlt. unfold rbtree_get. apply wp_bind, wp_lib_state.
  rewrite (rb_wf_root _ _ Hw). eapply get_loop_ok; [done|done|by apply search_start|].
  by rewrite (Forall2_length _ _ _ Hn).
Qed.

(** The best match so far is the nearest node on the right. *)
Definition best_is (best : option Z) (R : list Z) : Prop := best = container_of <$> head R.

(** The node of the lower bound. *)
Definition lower_at s (ps : list Z) kvs k (r : option Z) : Prop :=
  match r with
  | None => slower k kvs = None
  | Some b => ∃ L R A kv C, ps = L ++ links b :: R ∧ kvs = A ++ kv :: C ∧
      nodeat (nodes s) (links b) kv ∧ slower k kvs = Some kv ∧
      Forall2 (nodeat (nodes s)) L A ∧ Forall2 (nodeat (nodes s)) R C
  end.

Lemma lower_bound_loop_ok s t kvs k u : ∀ fuel best A B C L R,
  rb_wf (klib s) t → StronglySorted key_lt kvs → search s t kvs k u A B C L R →
  best_is best R → (length (inorder u) < fuel)%nat →
  wp (lower_bound_loop k fuel (tptr u) best) (λ r s', s' = s ∧ lower_at s (inorder t) kvs k r) s.
Proof.
  induction u as [|l IHl p r IHr]; intros [|fuel] best A B C L R Hw Hs Hse Hb Hlt;
    try (simpl in Hlt; lia); cbn [lower_bound_loop tptr].
  - apply wp_ret. split; [done|].
    destruct (search_leaf _ _ _ _ _ _ _ _ _ Hse) as [_ (E1 & -> & HL & HR & Ha & Hc)].
    destruct (skip_below _ _ C Ha) as (_ & _ & _ & E). destruct (at_above _ _ Hc) as (_ & _ & _ & E').
    rewrite Hb. destruct HR as [|p kv R C Hkv HR]; simpl.
    + by rewrite E, E'.
    + exists L, R, A, kv, C. rewrite links_container, E, E'. by split_and!.
  - pose proof (se_occurs _ _ _ _ _ _ _ _ _ _ Hse _ (occurs_refl _)) as Ho.
    rewrite (tree_nonnull _ _ _ _ _ Hw Ho). destruct (rb_wf_children _ _ _ _ _ Hw Ho) as [El Er].
    destruct (search_node _ _ _ _ _ _ _ _ _ _ _ _ Hs Hse) as (kv & Bl & Br & -> & Hkv & H1 & H2 & H3).
    simpl in Hlt. rewrite length_app in Hlt. simpl in Hlt.
    apply wp_bind. eapply wp_read_node; [exact Hkv|]. apply wp_bind, wp_lib_state. rewrite El, Er.
    destruct (kcmp k (fst kv)) eqn:Ec.
    + apply wp_ret. split; [done|]. destruct (H3 eq_refl) as (E1 & E2 & E3 & HL & HR & Ha & _).
      exists (L ++ inorder l), (inorder r ++ R), (A ++ Bl), (k, snd kv), (Br ++ C).
      rewrite links_container. split_and!; try done. rewrite E2.
      destruct (skip_below _ _ ((k, snd kv) :: Br ++ C) Ha) as (_ & _ & _ & ->).
      simpl. by rewrite kcmp_refl.
    + apply wp_bind. specialize (H1 eq_refl). rewrite Hb.
      destruct (se_R _ _ _ _ _ _ _ _ _ _ Hse) as [|p' kv' R' C' Hkv' HR']; simpl.
      * apply wp_ret. eapply IHl; [done..|exact H1|done|lia].
      * apply wp_bind. eapply wp_read_node; [exact Hkv'|]. apply wp_ret.
        assert (kcmp (fst kv') (fst kv) = Gt) as ->; [|eapply IHl; [done..|exact H1|done|lia]].
        apply kcmp_gt. pose proof Hs as Hs'. rewrite (se_kvs _ _ _ _ _ _ _ _ _ _ H1) in Hs'.
        rewrite app_assoc in Hs'. apply sorted_mid in Hs' as [_ Hf].
        rewrite Forall_app, Forall_cons in Hf. apply Hf.
    + eapply IHr; [done..|by apply H2|done|lia].
Qed.

Lemma cursor_lower_bound_ok s ps kvs h0 k fuel : rb_rep s ps kvs h0 → (length kvs < fuel)%nat →
  wp (cursor_lower_bound fuel k) (λ r s', s' = s ∧ lower_at s ps kvs k (container_of <$> r)) s.
Proof.
  intros Hr Hlt. pose proof Hr as [(t & Hw & <-) Hn Hs _ _ _]. unfold cursor_lower_bound.
  apply wp_bind, wp_lib_state, wp_bind. rewrite (rb_wf_root _ _ Hw).
  eapply wp_mono.
  { eapply lower_bound_loop_ok; [done|done|by apply search_start|done|].
    by rewrite (Forall2_length _ _ _ Hn). }
  intros [b|] s' [-> Hl]; apply wp_ret; (split; [done|]); [|done].
  pose proof Hl as (L & R & A & kv & C & E & _). unfold non_null, is_null.
  destruct (Z.eqb_spec (links b) null) as [E0|_].
  - destruct (rb_wf_nodup _ _ Hw) as [_ Hnn]. destruct Hnn. rewrite E, E0. set_solver.
  - simpl. by rewrite container_links.
Qed.
End Search.

Section Updates.
Context `{RLs : RbLibSpec} {K V : Type} `{REs : RBEnvSpec K V}.
Implicit Types (s : RSt K V) (ps : list Z) (kvs A B C : list (K * V)).
#[local] Existing Instance container_inj.

Lemma sorted_drop_mid A kv C :
  StronglySorted key_lt (A ++ kv :: C) → StronglySorted key_lt (A ++ C).
Proof.
  induction A as [|a A IH]; simpl; intros Hs; inversion_clear Hs as [|? ? Hs' Hf]; [done|].
  constructor; [by apply IH|]. rewrite Forall_app, Forall_cons in Hf. apply Forall_app. tauto.
Qed.

Lemma sorted_put A C k v : StronglySorted key_lt (A ++ C) → below k A → above k C →
  StronglySorted key_lt (A ++ (k, v) :: C).
Proof.
  induction A as [|a A IH]; simpl; intros Hs Ha Hc.
  - constructor; [done|]. exact Hc.
  - inversion_clear Hs as [|? ? Hs' Hf]. apply Forall_cons in Ha as [Ha1 Ha2].
    constructor; [by apply IH|]. apply Forall_app in Hf as [Hf1 Hf2]. apply Forall_app.
    split; [done|]. constructor; [|done]. by apply kcmp_gt.
Qed.

(** A box outside of the tree. *)
Lemma loose_lookup s ps kvs h0 n o : rb_rep s ps kvs h0 → h0 !! n = Some o →
  (n ∉ container_of <$> ps) ∧ nodes s !! n = Some o.
Proof.
  intros [] Hn. assert (n ∉ container_of <$> ps) as Hni.
  { intros (p & -> & Hp)%list_elem_of_fmap. by rewrite rr_fresh0 in Hn. }
  split; [done|]. by rewrite rr_frame0.
Qed.

Lemma loose_update s ps kvs h0 n o : rb_rep s ps kvs h0 → n ∉ container_of <$> ps →
  rb_rep (set_nodes (partial_alter (λ _, o) n (nodes s)) s) ps kvs (partial_alter (λ _, o) n h0).
Proof.
  intros [] Hn. assert (∀ p, p ∈ ps → container_of p ≠ n) as Hne.
  { intros p Hp <-. apply Hn, list_elem_of_fmap. eauto. }
  split; simpl; try done.
  - eapply Forall2_impl_l; [done|]. intros p kv Hp Hk. unfold nodeat.
    rewrite lookup_partial_alter_ne; [done|]. apply not_eq_sym. auto.
  - intros x Hx. destruct (decide (x = n)) as [->|].
    + by rewrite !lookup_partial_alter_eq.
    + rewrite !lookup_partial_alter_ne by done. auto.
  - intros p Hp. rewrite lookup_partial_alter_ne; [auto|]. apply not_eq_sym. auto.
Qed.

Lemma log_rep s ps kvs h0 kv : rb_rep s ps kvs h0 → rb_rep (log_node kv s) ps kvs h0.
Proof. intros []. by split. Qed.

(** Taking a box out of memory. *)
Lemma box_into_inner_ok s ps kvs h0 n kv : rb_rep s ps kvs h0 → h0 !! n = Some (Some kv) →
  wp (box_into_inner n) (λ r s', r = kv ∧ rb_rep s' ps kvs (delete n h0) ∧
    klib s' = klib s ∧ rdropped s' = rdropped s) s.
Proof.
  intros Hr Hn. destruct (loose_lookup _ _ _ _ _ _ Hr Hn) as [Hni Hl].
  apply wp_bind. eapply wp_read_node; [done|]. apply wp_bind, wp_modify, wp_ret.
  split_and!; [done| |done|done]. by apply loose_update.
Qed.

Lemma reservation_new_ok s ps kvs h0 fl : rb_rep s ps kvs h0 →
  wp (reservation_new fl) (λ r s', rdropped s' = rdropped s ∧ match r with
    | Err e => e = code_error ENOMEM ∧ s' = s
    | Ok n => h0 !! n = None ∧ 0 < n ∧ rb_rep s' ps kvs (<[n := None]> h0)
    end) s.
Proof.
  intros Hr. unfold reservation_new. apply wp_bind, wp_get.
  destruct (new_uninit (nodes s) fl) as [n|] eqn:E; [|by apply wp_ret].
  apply new_uninit_fresh in E as [Hn Hpos].
  assert (n ∉ container_of <$> ps) as Hni.
  { intros (p & -> & Hp)%list_elem_of_fmap. apply list_elem_of_lookup in Hp as [i Hi].
    destruct (Forall2_lookup_l _ _ _ _ _ (rr_nodes _ _ _ _ Hr) Hi) as (kv & _ & Hk).
    unfold nodeat in Hk. congruence. }
  apply wp_bind, wp_modify, wp_ret. split; [done|]. split; [|split; [done|]].
  - by rewrite <- (rr_frame _ _ _ _ Hr n Hni).
  - by apply (loose_update s ps kvs h0 n (Some None)).
Qed.

Lemma into_node_ok s ps kvs h0 n o k v : rb_rep s ps kvs h0 → h0 !! n = Some o →
  wp (into_node n k v) (λ r s', r = n ∧ klib s' = klib s ∧ rdropped s' = rdropped s ∧
    (∀ p kv, p ∈ ps → nodeat (nodes s) p kv → nodeat (nodes s') p kv) ∧
    rb_rep s' ps kvs (<[n := Some (k, v)]> h0)) s.
Proof.
  intros Hr Hn. destruct (loose_lookup _ _ _ _ _ _ Hr Hn) as [Hni Hl].
  unfold into_node. apply wp_bind. eexists tt, _.
  split; [unfold write_node; rewrite Hl; reflexivity|]. apply wp_ret. split_and!; [done..| |].
  - intros p kv Hp Hk. unfold nodeat. simpl. rewrite lookup_insert_ne; [done|].
    intros ->. apply Hni, list_elem_of_fmap. eauto.
  - by apply (loose_update s ps kvs h0 n (Some (Some (k, v)))).
Qed.

Lemma node_new_ok s ps kvs h0 k v fl : rb_rep s ps kvs h0 →
  wp (node_new k v fl) (λ r s', rdropped s' = rdropped s ∧ match r with
    | Err e => e = code_error ENOMEM ∧ s' = s
    | Ok n => h0 !! n = None ∧ 0 < n ∧ rb_rep s' ps kvs (<[n := Some (k, v)]> h0)
    end) s.
Proof.
  intros Hr. unfold node_new. apply wp_try. eapply wp_mono; [by apply reservation_new_ok|].
  intros [n|e] s1 [Hd H1]; [|done]. destruct H1 as (Hn & Hpos & H1). apply wp_bind.
  eapply wp_mono; [eapply into_node_ok; [exact H1|by rewrite lookup_insert_eq]|].
  intros m s2 (-> & _ & Hd2 & _ & H2). apply wp_ret. rewrite insert_insert_eq in H2.
  split; [congruence|done].
Qed.

(** Linking a loose node into an empty field. *)
Lemma vacant_insert_ok s t kvs h0 k v n par fld L R A C :
  rb_rep s (inorder t) kvs h0 → rb_wf (klib s) t →
  absent s (inorder t) kvs k L R A C → hole t null FRoot par fld L R →
  h0 !! n = Some (Some (k, v)) → 0 < n →
  wp (vacant_insert (MkVacant par fld) n) (λ r s', r = n ∧
    rb_rep s' (L ++ links n :: R) (A ++ (k, v) :: C) (delete n h0) ∧
    nodes s' = nodes s ∧ rdropped s' = rdropped s) s.
Proof.
  intros Hr Hw (Eps & Ekv & HL & HR & Ha & Hc) Hh Hn Hpos.
  destruct (loose_lookup _ _ _ _ _ _ Hr Hn) as [Hni Hl].
  pose proof (links_off_nonneg (K := K) (V := V)) as Hoff.
  assert (links n ∉ inorder t) as Hnt.
  { intros Hin. apply Hni, list_elem_of_fmap. exists (links n). by rewrite container_links. }
  destruct (rb_insert_ok (klib s) t par fld L R (links n)) as (t' & Hw' & Et); try done.
  { unfold links, null. lia. }
  unfold vacant_insert. apply wp_bind, wp_modify, wp_bind, wp_modify, wp_ret.
  split_and!; try done. split; simpl.
  - by exists t'.
  - apply Forall2_app; [done|]. constructor; [|done]. unfold nodeat. by rewrite container_links.
  - apply sorted_put; [|done..]. rewrite <- Ekv. apply Hr.
  - intros x Hx. rewrite fmap_app, fmap_cons, container_links in Hx.
    rewrite lookup_delete_ne by set_solver. apply (rr_frame _ _ _ _ Hr).
    rewrite Eps, fmap_app. set_solver.
  - intros p Hp. destruct (decide (container_of p = n)) as [<-|]; [by rewrite lookup_delete_eq|].
    rewrite lookup_delete_ne by done. apply (rr_fresh _ _ _ _ Hr). rewrite Eps.
    apply elem_of_app in Hp as [Hp|[->|Hp]%elem_of_cons]; [set_solver| |set_solver].
    by rewrite container_links in *.
  - intros p Hp. apply elem_of_app in Hp as [Hp|[->|Hp]%elem_of_cons].
    + apply (rr_pos _ _ _ _ Hr). rewrite Eps. set_solver.
    + by rewrite container_links.
    + apply (rr_pos _ _ _ _ Hr). rewrite Eps. set_solver.
Qed.

(** Unlinking a node; its box becomes loose. *)
Lemma erase_rep s h0 p kv L R A C :
  rb_rep s (L ++ p :: R) (A ++ kv :: C) h0 →
  Forall2 (nodeat (nodes s)) L A → Forall2 (nodeat (nodes s)) R C → nodeat (nodes s) p kv →
  rb_rep (set_klib (rb_erase (klib s) p) s) (L ++ R) (A ++ C) (<[container_of p := Some kv]> h0).
Proof.
  intros Hr HL HR Hp. pose proof (rr_nodup _ _ _ _ Hr) as [Hnd _].
  destruct Hr as [(t & Hw & Et) Hn Hs Hf Hfr Hpos].
  destruct (rb_erase_ok (klib s) t L p R Hw Et) as (t' & Hw' & Et').
  assert (∀ q, q ∈ L ++ R → container_of p ≠ container_of q) as Hne.
  { intros q Hq E%(inj _). subst q. apply NoDup_app in Hnd as (_ & H1 & H2).
    apply NoDup_cons in H2 as [H2 _]. set_solver. }
  split; simpl.
  - by exists t'.
  - by apply Forall2_app.
  - by eapply sorted_drop_mid.
  - intros x Hx. destruct (decide (x = container_of p)) as [->|].
    + by rewrite lookup_insert_eq.
    + rewrite lookup_insert_ne by done. apply Hf. rewrite fmap_app in *. set_solver.
  - intros q Hq. rewrite lookup_insert_ne by auto. apply Hfr. set_solver.
  - intros q Hq. apply Hpos. set_solver.
Qed.

Lemma occupied_replace_ok s kvs h0 k v v0 n p L R A C :
  rb_rep s (L ++ p :: R) kvs h0 → found s (L ++ p :: R) kvs k p L R A v0 C →
  h0 !! n = Some (Some (k, v)) → 0 < n →
  wp (occupied_replace p n) (λ r s', r = container_of p ∧
    rb_rep s' (L ++ links n :: R) (A ++ (k, v) :: C) (<[container_of p := Some (k, v0)]> (delete n h0)) ∧
    rdropped s' = rdropped s) s.
Proof.
  intros Hr (_ & -> & Hp & HL & HR & Ha & Hc) Hn Hpos.
  destruct (loose_lookup _ _ _ _ _ _ Hr Hn) as [Hni Hl]. pose proof (rr_nodup _ _ _ _ Hr) as [Hnd _].
  pose proof (links_off_nonneg (K := K) (V := V)) as Hoff.
  assert (links n ∉ L ++ p :: R) as Hnt.
  { intros Hin. apply Hni, list_elem_of_fmap. exists (links n). by rewrite container_links. }
  destruct Hr as [(t & Hw & Et) HF Hs Hf Hfr Hps].
  destruct (rb_replace_ok (klib s) t L p R (links n) Hw Et) as (t' & Hw' & Et').
  { by rewrite Et. } { unfold links, null. lia. }
  assert (∀ q, q ∈ L ++ R → container_of p ≠ container_of q) as Hne.
  { intros q Hq E%(inj _). subst q. apply NoDup_app in Hnd as (_ & H1 & H2).
    apply NoDup_cons in H2 as [H2 _]. set_solver. }
  unfold occupied_replace. apply wp_bind, wp_modify, wp_ret. split_and!; [done| |done]. split; simpl.
  - by exists t'.
  - apply Forall2_app; [done|]. constructor; [|done]. unfold nodeat. by rewrite container_links.
  - apply sorted_put; [|done..]. by eapply sorted_drop_mid.
  - intros x Hx. rewrite fmap_app, fmap_cons, container_links in Hx.
    destruct (decide (x = container_of p)) as [->|]; [by rewrite lookup_insert_eq|].
    rewrite lookup_insert_ne, lookup_delete_ne by set_solver. apply Hf.
    rewrite fmap_app, fmap_cons. set_solver.
  - intros q Hq. assert (container_of p ≠ n) by (intros <-; set_solver).
    apply elem_of_app in Hq as Hq'. destruct (decide (q = links n)) as [->|Hqn].
    + by rewrite container_links, lookup_insert_ne, lookup_delete_eq by done.
    + assert (q ∈ L ++ R) by set_solver. rewrite lookup_insert_ne by auto.
      destruct (decide (container_of q = n)) as [<-|]; [by rewrite lookup_delete_eq|].
      rewrite lookup_delete_ne by done. apply Hfr. set_solver.
  - intros q Hq. destruct (decide (q = links n)) as [->|]; [by rewrite container_links|].
    apply Hps. set_solver.
Qed.
End Updates.

Section OpSpecs.
Context `{RLs : RbLibSpec} {K V : Type} `{REs : RBEnvSpec K V}.
Implicit Types (s : RSt K V) (ps : list Z) (kvs A B C : list (K * V)).
#[local] Existing Instance container_inj.

Lemma found_ops s ps kvs k p L R A v C : found s ps kvs k p L R A v C →
  slookup k kvs = Some v ∧ (∀ w, sinsert k w kvs = A ++ (k, w) :: C) ∧ sremove k kvs = A ++ C.
Proof.
  intros (_ & -> & _ & _ & _ & Ha & _).
  destruct (skip_below k A ((k, v) :: C) Ha) as (-> & Hi & -> & _). simpl. rewrite kcmp_refl.
  split_and!; [done| |done]. intros w. rewrite Hi. simpl. by rewrite kcmp_refl.
Qed.

Lemma absent_ops s ps kvs k L R A C : absent s ps kvs k L R A C →
  slookup k kvs = None ∧ (∀ w, sinsert k w kvs = A ++ (k, w) :: C) ∧ sremove k kvs = kvs.
Proof.
  intros (_ & -> & _ & _ & Ha & Hc).
  destruct (skip_below k A C Ha) as (-> & Hi & -> & _). destruct (at_above k C Hc) as (-> & Hi' & -> & _).
  split_and!; [done| |done]. intros w. by rewrite Hi, Hi'.
Qed.

Lemma rbtree_insert_ok s ps kvs h0 n k v fuel :
  rb_rep s ps kvs h0 → h0 !! n = Some (Some (k, v)) → 0 < n → (length kvs < fuel)%nat →
  wp (rbtree_insert fuel n) (λ r s', rdropped s' = rdropped s ∧ ∃ ps', match r with
    | None => slookup k kvs = None ∧ rb_rep s' ps' (sinsert k v kvs) (delete n h0)
    | Some old => ∃ v0, slookup k kvs = Some v0 ∧ old ≠ n ∧ h0 !! old = None ∧
        rb_rep s' ps' (sinsert k v kvs) (<[old := Some (k, v0)]> (delete n h0))
    end) s.
Proof.
  intros Hr Hn Hpos Hlt. destruct (loose_lookup _ _ _ _ _ _ Hr Hn) as [_ Hl].
  unfold rbtree_insert. apply wp_bind. eapply wp_read_node; [done|]. apply wp_bind. simpl.
  destruct (raw_entry_ok _ _ _ _ k fuel Hr Hlt) as (t & Hw & <- & He).
  eapply wp_mono; [exact He|]. intros [[par fld]|p] s' [-> Hat]; simpl in Hat; apply wp_bind.
  - destruct Hat as (L & R & A & C & Ha & Hh). destruct (absent_ops _ _ _ _ _ _ _ _ Ha) as (E1 & E2 & _).
    eapply wp_mono; [by eapply vacant_insert_ok|]. intros r s' (-> & H1 & _ & H2). apply wp_ret.
    split; [done|]. rewrite E2. eauto.
  - destruct Hat as (L & R & A & v0 & C & Hf). destruct (found_ops _ _ _ _ _ _ _ _ _ _ Hf) as (E1 & E2 & _).
    pose proof Hf as (E & _). pose proof Hr as Hr'. rewrite E in Hr, Hf.
    eapply wp_mono; [by eapply occupied_replace_ok|]. intros r s' (-> & H1 & H2). apply wp_ret.
    split; [done|]. rewrite E2. eexists. exists v0. split; [done|].
    assert (h0 !! container_of p = None) as Hp by (apply (rr_fresh _ _ _ _ Hr); set_solver).
    split; [intros Ep; rewrite Ep in Hp; congruence|]. split; [done|exact H1].
Qed.

Lemma find_mut_ok s ps kvs h0 k fuel : rb_rep s ps kvs h0 → (length kvs < fuel)%nat →
  wp (find_mut fuel k) (λ r s', s' = s ∧ match r with
    | None => slookup k kvs = None ∧ sremove k kvs = kvs
    | Some p => ∃ L R A v C, found s ps kvs k p L R A v C
    end) s.
Proof.
  intros Hr Hlt. unfold find_mut. apply wp_bind.
  destruct (raw_entry_ok _ _ _ _ k fuel Hr Hlt) as (t & Hw & <- & He).
  eapply wp_mono; [exact He|]. intros [[par fld]|p] s' [-> Hat]; simpl in Hat; apply wp_ret.
  - destruct Hat as (L & R & A & C & Ha & _). by destruct (absent_ops _ _ _ _ _ _ _ _ Ha) as (E1 & _ & E2).
  - done.
Qed.

Lemma remove_node_ok s ps kvs h0 k fuel : rb_rep s ps kvs h0 → (length kvs < fuel)%nat →
  wp (remove_node fuel k) (λ r s', rdropped s' = rdropped s ∧ match r with
    | None => s' = s ∧ slookup k kvs = None ∧ sremove k kvs = kvs
    | Some n => ∃ ps' v, slookup k kvs = Some v ∧ h0 !! n = None ∧
        rb_rep s' ps' (sremove k kvs) (<[n := Some (k, v)]> h0)
    end) s.
Proof.
  intros Hr Hlt. unfold remove_node. apply wp_bind. eapply wp_mono; [by eapply find_mut_ok|].
  intros [p|] s' [-> Hf]; [|by apply wp_ret].
  destruct Hf as (L & R & A & v & C & Hf). destruct (found_ops _ _ _ _ _ _ _ _ _ _ Hf) as (E1 & _ & E2).
  destruct Hf as (-> & -> & Hp & HL & HR & _). apply wp_bind. unfold occupied_remove_node.
  apply wp_bind, wp_modify, wp_ret, wp_ret. split; [done|]. exists (L ++ R), v. split; [done|].
  split; [apply (rr_fresh _ _ _ _ Hr); set_solver|]. rewrite E2. by apply erase_rep.
Qed.

Lemma rbtree_remove_ok s ps kvs h0 k fuel : rb_rep s ps kvs h0 → (length kvs < fuel)%nat →
  wp (rbtree_remove fuel k) (λ r s', rdropped s' = rdropped s ∧ r = slookup k kvs ∧
    ∃ ps', rb_rep s' ps' (sremove k kvs) h0) s.
Proof.
  intros Hr Hlt. unfold rbtree_remove. apply wp_bind. eapply wp_mono; [by eapply find_mut_ok|].
  intros [p|] s' [-> Hf].
  - destruct Hf as (L & R & A & v & C & Hf). destruct (found_ops _ _ _ _ _ _ _ _ _ _ Hf) as (E1 & _ & E2).
    destruct Hf as (-> & -> & Hp & HL & HR & _). apply wp_bind, wp_bind. unfold occupied_remove_node.
    apply wp_bind, wp_modify, wp_ret, wp_bind. pose proof (erase_rep _ _ _ _ _ _ _ _ Hr HL HR Hp) as Hr'.
    eapply wp_mono; [eapply box_into_inner_ok; [exact Hr'|by rewrite lookup_insert_eq]|].
    intros kv s' (-> & H1 & _ & H2). apply wp_ret, wp_ret. split; [done|]. rewrite E1, E2.
    split; [done|]. exists (L ++ R). rewrite delete_insert_id in H1; [done|].
    apply (rr_fresh _ _ _ _ Hr). set_solver.
  - destruct Hf as [E1 E2]. apply wp_ret. rewrite E1, E2. eauto.
Qed.

(** Writing a value through [get_mut]. *)
Definition set_value (node : Z) (v : V) : M (RSt K V) V :=
  kv ← read_node node; _ ← write_node node (fst kv, v); mret (snd kv).

Lemma set_value_ok s ps kvs h0 k p L R A v0 C v :
  rb_rep s ps kvs h0 → found s ps kvs k p L R A v0 C →
  wp (set_value (container_of p) v) (λ r s', r = v0 ∧ rdropped s' = rdropped s ∧
    rb_rep s' ps (sinsert k v kvs) h0) s.
Proof.
  intros Hr Hf. destruct (found_ops _ _ _ _ _ _ _ _ _ _ Hf) as (_ & E & _).
  pose proof (rr_nodup _ _ _ _ Hr) as [Hnd _]. destruct Hf as (-> & -> & Hp & HL & HR & Ha & Hc).
  unfold set_value. apply wp_bind. eapply wp_read_node; [exact Hp|]. apply wp_bind.
  eexists tt, _. split; [unfold write_node; rewrite Hp; reflexivity|]. apply wp_ret.
  split_and!; [done..|]. rewrite E.
  assert (∀ q kv, q ∈ L ++ R → nodeat (nodes s) q kv →
    nodeat (<[container_of p := Some (k, v)]> (nodes s)) q kv) as Hother.
  { intros q kv Hq Hk. unfold nodeat. rewrite lookup_insert_ne; [done|]. intros Eq%(inj _). subst q.
    apply NoDup_app in Hnd as (_ & H1 & H2). apply NoDup_cons in H2 as [H2 _]. set_solver. }
  destruct Hr as [Ht Hn Hs Hfr Hfre Hps]. split; simpl; try done.
  - apply Forall2_app; [|constructor].
    + eapply Forall2_impl_l; [done|]. intros q kv Hq. apply Hother. set_solver.
    + unfold nodeat. by rewrite lookup_insert_eq.
    + eapply Forall2_impl_l; [done|]. intros q kv Hq. apply Hother. set_solver.
  - apply sorted_put; [|done..]. by eapply sorted_drop_mid.
  - intros x Hx. rewrite lookup_insert_ne; [by apply Hfr|]. intros <-. apply Hx.
    rewrite fmap_app, fmap_cons. set_solver.
Qed.

(** A loop over [iter_mut], which replaces every value. *)
Fixpoint rb_for_each (f : K → V → V) (fuel : nat) (next : Z) : M (RSt K V) unit :=
  match fuel with
  | O => ub
  | S fuel =>
      out ← iter_mut_next next;
      match fst out with
      | None => mret tt
      | Some (k, node) =>
          kv ← read_node node;
          _ ← set_value node (f k (snd kv));
          rb_for_each f fuel (snd out)
      end
  end.

(** [keys], [values], and a loop over [values_mut]. *)
Definition rb_keys (fuel : nat) : M (RSt K V) (list K) := first ← rb_iter; kvs ← rb_iter_collect fuel first; mret (fst <$> kvs).
Definition rb_values (fuel : nat) : M (RSt K V) (list V) := first ← rb_iter; kvs ← rb_iter_collect fuel first; mret (snd <$> kvs).
Definition rb_values_mut (f : V → V) (fuel : nat) : M (RSt K V) unit := first ← rb_iter_mut; rb_for_each (λ _, f) fuel first.

(** Enough fuel: one step per allocated node and one to stop. *)
Definition fuel_of (s : RSt K V) : nat := S (size (nodes s)).

Lemma fuel_enough s ps kvs h0 : rb_rep s ps kvs h0 → (length kvs < fuel_of s)%nat.
Proof.
  intros Hr. unfold fuel_of. rewrite <- (Forall2_length _ _ _ (rr_nodes _ _ _ _ Hr)).
  assert (length ps ≤ size (nodes s))%nat; [|lia].
  rewrite <- size_dom, <- (length_fmap container_of).
  assert (NoDup (container_of <$> ps)) as Hnd by (apply (NoDup_fmap_2 _), (rr_nodup _ _ _ _ Hr)).
  rewrite <- (size_list_to_set (C := gset Z) _ Hnd). apply subseteq_size.
  intros x Hx. apply elem_of_list_to_set, list_elem_of_fmap in Hx as (p & -> & Hp).
  apply list_elem_of_lookup in Hp as [i Hi]. apply elem_of_dom.
  destruct (Forall2_lookup_l _ _ _ _ _ (rr_nodes _ _ _ _ Hr) Hi) as (kv & _ & Hk). eexists. exact Hk.
Qed.
End OpSpecs.

(** ** Clients

    A client is a sequence of map operations. [rexec] runs one on the tree:
    [RInsert] hands back the entry of a replaced node, [RSet] writes through
    [get_mut], [RLower] reads the entry under [cursor_lower_bound], [REntry] is the
    entry API with a reservation made beforehand. *)

Inductive rop (K V : Type) :=
| RInsert (k : K) (v : V) (fl : Flags)
| RGet (k : K)
| RSet (k : K) (v : V)
| RRemove (k : K)
| RLower (k : K)
| REntry (k : K) (v : V) (fl : Flags).
Arguments RInsert {K V}. Arguments RGet {K V}. Arguments RSet {K V}.
Arguments RRemove {K V}. Arguments RLower {K V}. Arguments REntry {K V}.

Inductive robs (K V : Type) :=
| RFail (e : Error) | RVal (o : option V) | RKv (o : option (K * V)) | RNew (b : bool).
Arguments RFail {K V}. Arguments RVal {K V}. Arguments RKv {K V}. Arguments RNew {K V}.

Section Clients.
Context `{RL : RbLib} {K V : Type} `{RE : RBEnv K V}.

Definition rexec (o : rop K V) : M (RSt K V) (robs K V) :=
  s0 ← get;
  let fuel := fuel_of s0 in
  match o with
  | RInsert k v fl =>
      r ← try_create_and_insert (S fuel) k v fl;
      match r with
      | Err e => mret (RFail e)
      | Ok None => mret (RKv None)
      | Ok (Some n) => kv ← node_to_key_value n; mret (RKv (Some kv))
      end
  | RGet k => r ← rbtree_get fuel k; mret (RVal r)
  | RSet k v =>
      r ← get_mut fuel k;
      match r with None => mret (RVal None) | Some n => v0 ← set_value n v; mret (RVal (Some v0)) end
  | RRemove k => r ← rbtree_remove fuel k; mret (RVal r)
  | RLower k =>
      c ← cursor_lower_bound fuel k;
      match c with None => mret (RKv None) | Some p => kv ← cursor_current p; mret (RKv (Some kv)) end
  | REntry k v fl =>
      r ← reservation_new fl;
      match r with
      | Err e => mret (RFail e)
      | Ok n =>
          e ← raw_entry fuel k;
          match e with
          | Vacant e => _ ← vacant_entry_insert k e v n; mret (RNew true)
          | Occupied _ => _ ← modify (λ s, set_nodes (delete n (nodes s)) s); mret (RNew false)
          end
      end
  end.

Fixpoint rexecs (os : list (rop K V)) : M (RSt K V) (list (robs K V)) :=
  match os with
  | [] => mret []
  | o :: os => r ← rexec o; rs ← rexecs os; mret (r :: rs)
  end.

(** The contract: a map ordered by key, with allocations that may fail. *)
Inductive rstep : list (K * V) → rop K V → robs K V → list (K * V) → Prop :=
| rs_insert l k v fl : rstep l (RInsert k v fl) (RKv (pair k <$> slookup k l)) (sinsert k v l)
| rs_insert_fail l k v fl : rstep l (RInsert k v fl) (RFail ENOMEM) l
| rs_get l k : rstep l (RGet k) (RVal (slookup k l)) l
| rs_set l k v v0 : slookup k l = Some v0 → rstep l (RSet k v) (RVal (Some v0)) (sinsert k v l)
| rs_set_none l k v : slookup k l = None → rstep l (RSet k v) (RVal None) l
| rs_remove l k : rstep l (RRemove k) (RVal (slookup k l)) (sremove k l)
| rs_lower l k : rstep l (RLower k) (RKv (slower k l)) l
| rs_entry_new l k v fl : slookup k l = None → rstep l (REntry k v fl) (RNew true) (sinsert k v l)
| rs_entry_old l k v fl v0 : slookup k l = Some v0 → rstep l (REntry k v fl) (RNew false) l
| rs_entry_fail l k v fl : rstep l (REntry k v fl) (RFail ENOMEM) l.

Inductive rsteps : list (K * V) → list (rop K V) → list (robs K V) → list (K * V) → Prop :=
| rss_nil l : rsteps l [] [] l
| rss_cons l o r l1 os rs l2 : rstep l o r l1 → rsteps l1 os rs l2 → rsteps l (o :: os) (r :: rs) l2.
End Clients.

Section ClientSpecs.
Context `{RLs : RbLibSpec} {K V : Type} `{REs : RBEnvSpec K V}.
Implicit Types (s : RSt K V) (kvs : list (K * V)).

(** The tree holds [kvs], and all boxes outside of it are those of [h0]. *)
Definition rb_holds (h0 : gmap Z (option (K * V))) s kvs : Prop := ∃ ps, rb_rep s ps kvs h0.

Lemma rexec_insert_ok s kvs h0 k v fl : rb_holds h0 s kvs →
  wp (rexec (RInsert k v fl)) (λ r s', ∃ kvs', rstep kvs (RInsert k v fl) r kvs' ∧
    rb_holds h0 s' kvs' ∧ rdropped s' = rdropped s) s.
Proof.
  intros [ps Hr]. pose proof (fuel_enough _ _ _ _ Hr) as Hfuel. unfold rexec. apply wp_bind, wp_get.
  apply wp_bind. unfold try_create_and_insert. apply wp_try. eapply wp_mono; [by apply node_new_ok|].
  intros [n|e] s1 [Hd1 H1].
  - destruct H1 as (Hn & Hpos & H1). apply wp_bind.
    eapply wp_mono; [eapply rbtree_insert_ok; [exact H1|by rewrite lookup_insert_eq|done|lia]|].
    rewrite delete_insert_id by done. intros [old|] s2 (Hd2 & ps2 & H2); apply wp_ret.
    + destruct H2 as (v0 & E & Hne & Hold & H2). rewrite lookup_insert_ne in Hold by done. apply wp_bind.
      eapply wp_mono; [eapply box_into_inner_ok; [exact H2|by rewrite lookup_insert_eq]|].
      intros kv s3 (-> & H3 & _ & Hd3). apply wp_ret. exists (sinsert k v kvs). split_and!.
      * pose proof (rs_insert kvs k v fl) as Hs. by rewrite E in Hs.
      * exists ps2. by rewrite delete_insert_id in H3.
      * congruence.
    + destruct H2 as [E H2]. apply wp_ret. exists (sinsert k v kvs). split_and!; [|by exists ps2|congruence].
      pose proof (rs_insert kvs k v fl) as Hs. by rewrite E in Hs.
  - destruct H1 as [-> ->]. apply wp_ret. exists kvs. split_and!; [constructor|by exists ps|done].
Qed.

Lemma rexec_entry_ok s kvs h0 k v fl : rb_holds h0 s kvs →
  wp (rexec (REntry k v fl)) (λ r s', ∃ kvs', rstep kvs (REntry k v fl) r kvs' ∧
    rb_holds h0 s' kvs' ∧ rdropped s' = rdropped s) s.
Proof.
  intros [ps Hr]. pose proof (fuel_enough _ _ _ _ Hr) as Hfuel. unfold rexec. apply wp_bind, wp_get.
  apply wp_bind. eapply wp_mono; [by apply reservation_new_ok|]. intros [n|e] s1 [Hd1 H1].
  - destruct H1 as (Hn & Hpos & H1). apply wp_bind.
    destruct (raw_entry_ok _ _ _ _ k (fuel_of s) H1 Hfuel) as (t & Hw & Et & He).
    eapply wp_mono; [exact He|]. subst ps. intros [[par fld]|p] s' [-> Hat]; simpl in Hat.
    + destruct Hat as (L & R & A & C & Ha & Hh).
      destruct (absent_ops _ _ _ _ _ _ _ _ Ha) as (E1 & E2 & _).
      apply wp_bind. unfold vacant_entry_insert. apply wp_bind.
      eapply wp_mono; [eapply into_node_ok; [exact H1|by rewrite lookup_insert_eq]|].
      intros m s2 (-> & Hl2 & Hd2 & Hn2 & H2). rewrite insert_insert_eq in H2.
      assert (absent s2 (inorder t) kvs k L R A C) as Ha2.
      { destruct Ha as (E & Ek & HL & HR & Hb & Hc). split_and!; try done.
        - eapply Forall2_impl_l; [exact HL|]. intros q kv Hq. apply Hn2.
          rewrite E. apply elem_of_app. by left.
        - eapply Forall2_impl_l; [exact HR|]. intros q kv Hq. apply Hn2.
          rewrite E. apply elem_of_app. by right. }
      eapply wp_mono; [eapply vacant_insert_ok; [exact H2|by rewrite Hl2|exact Ha2|done|by rewrite lookup_insert_eq|done]|].
      rewrite delete_insert_id by done. intros r s3 (-> & H3 & _ & Hd3). apply wp_ret.
      exists (sinsert k v kvs). split_and!; [by constructor| |congruence]. rewrite E2. eexists. exact H3.
    + destruct Hat as (L & R & A & v0 & C & Hf).
      destruct (found_ops _ _ _ _ _ _ _ _ _ _ Hf) as (E1 & _). apply wp_bind, wp_modify, wp_ret.
      exists kvs. split_and!; [by econstructor| |done]. exists (inorder t).
      assert (n ∉ container_of <$> inorder t) as Hni.
      { eapply (loose_lookup _ _ _ _ n None H1). by rewrite lookup_insert_eq. }
      pose proof (loose_update _ _ _ _ n None H1 Hni) as H2.
      change (partial_alter (λ _, None) n (<[n:=None]> h0)) with (delete n (<[n:=None]> h0)) in H2.
      by rewrite delete_insert_id in H2.
  - destruct H1 as [-> ->]. apply wp_ret. exists kvs. split_and!; [constructor|by exists ps|done].
Qed.

Lemma rexec_ok s kvs h0 o : rb_holds h0 s kvs →
  wp (rexec o) (λ r s', ∃ kvs', rstep kvs o r kvs' ∧ rb_holds h0 s' kvs' ∧ rdropped s' = rdropped s) s.
Proof.
  intros Hh. destruct o as [k v fl|k|k v|k|k|k v fl];
    [by apply rexec_insert_ok| | | | |by apply rexec_entry_ok];
    pose proof Hh as [ps Hr]; pose proof (fuel_enough _ _ _ _ Hr) as Hfuel;
    unfold rexec; apply wp_bind, wp_get, wp_bind.
  - eapply wp_mono; [by eapply rbtree_get_ok|]. intros r s' [-> ->]. apply wp_ret.
    exists kvs. split_and!; [constructor|done..].
  - unfold get_mut. apply wp_bind. eapply wp_mono; [by eapply find_mut_ok|].
    intros [p|] s' [-> Hf]; apply wp_ret; simpl.
    + destruct Hf as (L & R & A & v0 & C & Hf). destruct (found_ops _ _ _ _ _ _ _ _ _ _ Hf) as (E1 & _).
      apply wp_bind. eapply wp_mono; [by eapply set_value_ok|]. intros r s' (-> & Hd & H1). apply wp_ret.
      exists (sinsert k v kvs). split_and!; [by constructor|by exists ps|done].
    + apply wp_ret. exists kvs. destruct Hf. split_and!; [by constructor|done..].
  - eapply wp_mono; [by eapply rbtree_remove_ok|]. intros r s' (Hd & -> & H1). apply wp_ret.
    exists (sremove k kvs). split_and!; [constructor|done..].
  - eapply wp_mono; [by eapply cursor_lower_bound_ok|]. intros [p|] s' [-> Hl]; simpl in Hl.
    + destruct Hl as (L & R & A & kv & C & _ & _ & Hk & E & _). apply wp_bind.
      rewrite links_container in Hk. eapply wp_read_node; [exact Hk|]. apply wp_ret.
      exists kvs. split_and!; [|done..]. rewrite <- E. constructor.
    + apply wp_ret. exists kvs. split_and!; [|done..]. rewrite <- Hl. constructor.
Qed.

Lemma rexecs_ok os : ∀ s kvs h0, rb_holds h0 s kvs →
  wp (rexecs os) (λ rs s', ∃ kvs', rsteps kvs os rs kvs' ∧ rb_holds h0 s' kvs' ∧
    rdropped s' = rdropped s) s.
Proof.
  induction os as [|o os IH]; intros s kvs h0 Hh; simpl.
  - apply wp_ret. exists kvs. split_and!; [constructor|done..].
  - apply wp_bind. eapply wp_mono; [by apply rexec_ok|]. intros r s1 (l1 & Hs1 & Hh1 & Hd1).
    apply wp_bind. eapply wp_mono; [by apply IH|]. intros rs s2 (l2 & Hs2 & Hh2 & Hd2).
    apply wp_ret. exists l2. split_and!; [by econstructor|done|congruence].
Qed.
End ClientSpecs.

(** ** Cursors, iteration and destruction *)

(** A client of a cursor; the cursor is consumed by a move off the end and by the
    removal of the last element. Removed nodes are taken apart; [KSet] and [KPeekSet] write
    through [current_mut] and [peek_prev_mut] or [peek_next_mut] and read what was there. *)
Inductive kop (V : Type) := KCurrent | KPeek (d : Direction) | KMove (d : Direction)
  | KRemoveNeighbor (d : Direction) | KRemoveCurrent | KSet (v : V) | KPeekSet (d : Direction) (v : V).
Arguments KCurrent {V}.
Arguments KPeek {V} d.
Arguments KMove {V} d.
Arguments KRemoveNeighbor {V} d.
Arguments KRemoveCurrent {V}.
Arguments KSet {V} v.
Arguments KPeekSet {V} d v.

Section CursorClients.
Context `{RL : RbLib} {K V : Type} `{RE : RBEnv K V}.

Definition take_node (n : option Z) : M (RSt K V) (option (K * V)) :=
  match n with None => mret None | Some n => kv ← node_to_key_value n; mret (Some kv) end.

Definition kexec (c : option Z) (o : kop V) : M (RSt K V) (option (K * V) * option Z) :=
  match c with
  | None => mret (None, None)
  | Some p =>
      match o with
      | KCurrent => kv ← cursor_current p; mret (Some kv, c)
      | KPeek d => r ← cursor_peek p d; mret (r, c)
      | KMove d => c' ← cursor_mv p d; mret (None, c')
      | KRemoveNeighbor d => n ← remove_neighbor p d; r ← take_node n; mret (r, c)
      | KRemoveCurrent => out ← remove_current p; r ← take_node (Some (snd out)); mret (r, fst out)
      | KSet v => '(k, node) ← cursor_current_mut p; old ← set_value node v; mret (Some (k, old), c)
      | KPeekSet d v =>
          n ← cursor_peek_mut p d;
          match n with
          | None => mret (None, c)
          | Some (k, node) => old ← set_value node v; mret (Some (k, old), c)
          end
      end
  end.

Fixpoint kexecs (c : option Z) (os : list (kop V)) : M (RSt K V) (list (option (K * V)) * option Z) :=
  match os with
  | [] => mret ([], c)
  | o :: os =>
      out ← kexec c o; rest ← kexecs (snd out) os; mret (fst out :: fst rest, snd rest)
  end.

(** The same on a list with an index. *)
Definition kneighbor (i : nat) (d : Direction) : option nat :=
  match d with Prev => match i with O => None | S i => Some i end | Next => Some (S i) end.

Definition kset (i : nat) (v : V) (kvs : list (K * V)) : list (K * V) :=
  match kvs !! i with Some (k, _) => <[i := (k, v)]> kvs | None => kvs end.

Definition kspec (kvs : list (K * V)) (c : option nat) (o : kop V) :
    option (K * V) * list (K * V) * option nat :=
  match c with
  | None => (None, kvs, None)
  | Some i =>
      match o with
      | KCurrent => (kvs !! i, kvs, c)
      | KPeek d => (kneighbor i d ≫= λ j, kvs !! j, kvs, c)
      | KMove d => (None, kvs, kneighbor i d ≫= λ j, if decide (j < length kvs)%nat then Some j else None)
      | KRemoveNeighbor d =>
          match kneighbor i d with
          | None => (None, kvs, c)
          | Some j => (kvs !! j, delete j kvs, Some (if decide (j < i)%nat then pred i else i))
          end
      | KRemoveCurrent =>
          (kvs !! i, delete i kvs,
           if decide (S i < length kvs)%nat then Some i else match i with O => None | S i => Some i end)
      | KSet v => (kvs !! i, kset i v kvs, c)
      | KPeekSet d v =>
          match kneighbor i d with
          | None => (None, kvs, c)
          | Some j => (kvs !! j, kset j v kvs, c)
          end
      end
  end.

Fixpoint kspecs (kvs : list (K * V)) (c : option nat) (os : list (kop V)) :
    list (option (K * V)) * list (K * V) * option nat :=
  match os with
  | [] => ([], kvs, c)
  | o :: os =>
      let '(r, kvs1, c1) := kspec kvs c o in
      let '(rs, kvs2, c2) := kspecs kvs1 c1 os in (r :: rs, kvs2, c2)
  end.
End CursorClients.

Section CursorSpecs.
Context `{RLs : RbLibSpec} {K V : Type} `{REs : RBEnvSpec K V}.
Implicit Types (s : RSt K V) (ps : list Z) (kvs : list (K * V)).
#[local] Existing Instance container_inj.

Lemma non_null_in ps (o : option Z) : null ∉ ps → (∀ p, o = Some p → p ∈ ps) →
  non_null (default null o) = o.
Proof.
  intros Hn Ho. destruct o as [p|]; [|done]. simpl. unfold non_null, is_null.
  destruct (Z.eqb_spec p null) as [->|]; [|done]. by destruct Hn; apply Ho.
Qed.

Lemma neighbor_ok s ps kvs h0 i p d : rb_rep s ps kvs h0 → ps !! i = Some p →
  wp (get_neighbor_raw p d) (λ r s', s' = s ∧ r = kneighbor i d ≫= λ j, ps !! j) s.
Proof.
  intros Hr Hp. pose proof (rr_nodup _ _ _ _ Hr) as [_ Hnn].
  destruct (rr_tree _ _ _ _ Hr) as (t & Hw & Et). unfold get_neighbor_raw.
  apply wp_bind, wp_lib_state, wp_ret. split; [done|].
  destruct (rb_step_ok (klib s) t (take i ps) p (drop (S i) ps) Hw) as [E1 E2].
  { by rewrite take_drop_middle. }
  destruct d; simpl.
  - rewrite E2. unfold lastz. destruct i as [|i]; simpl; [done|].
    apply lookup_lt_Some in Hp as Hlt. rewrite last_lookup, length_take, lookup_take_lt by lia.
    replace (pred (S i `min` length ps)) with i by lia.
    apply (non_null_in ps); [done|]. intros q. apply list_elem_of_lookup_2.
  - rewrite E1. unfold hdz. rewrite head_lookup, lookup_drop, Nat.add_0_r.
    apply (non_null_in ps); [done|]. intros q. apply list_elem_of_lookup_2.
Qed.

Lemma rep_lookup s ps kvs h0 i p : rb_rep s ps kvs h0 → ps !! i = Some p →
  ∃ kv, kvs !! i = Some kv ∧ nodeat (nodes s) p kv.
Proof. intros Hr Hp. exact (Forall2_lookup_l _ _ _ _ _ (rr_nodes _ _ _ _ Hr) Hp). Qed.

Lemma rep_length s ps kvs h0 : rb_rep s ps kvs h0 → length ps = length kvs.
Proof. intros Hr. apply (Forall2_length _ _ _ (rr_nodes _ _ _ _ Hr)). Qed.

Lemma erase_at s ps kvs h0 i p kv : rb_rep s ps kvs h0 → ps !! i = Some p → kvs !! i = Some kv →
  rb_rep (set_klib (rb_erase (klib s) p) s) (delete i ps) (delete i kvs) (<[container_of p := Some kv]> h0)
  ∧ h0 !! container_of p = None.
Proof.
  intros Hr Hp Hkv. pose proof (rr_nodes _ _ _ _ Hr) as HF.
  destruct (rep_lookup _ _ _ _ _ _ Hr Hp) as (kv' & E & Hk). rewrite Hkv in E. injection E as <-.
  split; [|by apply (rr_fresh _ _ _ _ Hr), (list_elem_of_lookup_2 _ i)].
  rewrite !delete_take_drop. apply erase_rep; [by rewrite !take_drop_middle| | |done].
  - by apply Forall2_take.
  - by apply Forall2_drop.
Qed.

(** Erasing a node and taking its box apart. *)
Lemma erase_take_ok s ps kvs h0 i p kv : rb_rep s ps kvs h0 → ps !! i = Some p → kvs !! i = Some kv →
  wp (take_node (Some (container_of p))) (λ r s', r = Some kv ∧ rdropped s' = rdropped s ∧
    rb_rep s' (delete i ps) (delete i kvs) h0) (set_klib (rb_erase (klib s) p) s).
Proof.
  intros Hr Hp Hkv. destruct (erase_at _ _ _ _ _ _ _ Hr Hp Hkv) as [Hr' Hn]. simpl. apply wp_bind.
  eapply wp_mono; [eapply box_into_inner_ok; [exact Hr'|by rewrite lookup_insert_eq]|].
  intros r s' (-> & H1 & _ & H2). apply wp_ret. rewrite delete_insert_id in H1 by done. done.
Qed.

(** The order of the entries is that of their keys. *)
Lemma sorted_keys kvs : ∀ kvs', StronglySorted key_lt kvs → kvs'.*1 = kvs.*1 → StronglySorted key_lt kvs'.
Proof.
  induction kvs as [|[k v] kvs IH]; intros [|[k' v'] kvs'] Hs E; try done. injection E as -> E.
  apply StronglySorted_inv in Hs as [Hs Hf]. constructor; [by apply IH|].
  apply (Forall_fmap fst (λ x, kcmp k x = Lt) kvs'). replace (fst <$> kvs') with (fst <$> kvs) by (symmetry; exact E).
  apply Forall_fmap. exact Hf.
Qed.

(** Writing the value of one node. *)
Lemma set_at_ok s ps kvs h0 i p k v0 v : rb_rep s ps kvs h0 → ps !! i = Some p → kvs !! i = Some (k, v0) →
  wp (set_value (container_of p) v) (λ r s', r = v0 ∧ rdropped s' = rdropped s ∧ klib s' = klib s ∧
    rb_rep s' ps (<[i := (k, v)]> kvs) h0) s.
Proof.
  intros Hr Hp Hkv. pose proof (rr_nodup _ _ _ _ Hr) as [Hnd _].
  destruct (rep_lookup _ _ _ _ _ _ Hr Hp) as (kv & E & Hk). rewrite Hkv in E. injection E as <-.
  unfold set_value. apply wp_bind. eapply wp_read_node; [exact Hk|]. apply wp_bind.
  eexists tt, _. split; [unfold write_node; rewrite Hk; reflexivity|]. apply wp_ret. split_and!; [done..|].
  destruct Hr as [Ht Hn Hs Hfr Hfre Hps]. split; simpl; try done.
  - apply Forall2_same_length_lookup. split; [rewrite length_insert; by eapply Forall2_length|].
    intros j q kv Hq [(<- & -> & _)|[Hne Hl]]%list_lookup_insert_Some.
    + rewrite Hp in Hq. injection Hq as <-. unfold nodeat. by rewrite lookup_insert_eq.
    + destruct (Forall2_lookup_l _ _ _ _ _ Hn Hq) as (kv' & Hl' & Hk'). rewrite Hl in Hl'. injection Hl' as <-.
      unfold nodeat. rewrite lookup_insert_ne; [done|]. intros ->%(inj _). by destruct Hne; eapply NoDup_lookup.
  - apply (sorted_keys kvs); [done|]. rewrite list_fmap_insert. apply list_insert_id. by rewrite list_lookup_fmap, Hkv.
  - intros x Hx. rewrite lookup_insert_ne; [by apply Hfr|]. intros <-. apply Hx.
    apply list_elem_of_fmap_2. by eapply list_elem_of_lookup_2.
Qed.

(** The cursor points at the node of index [c]. *)
Definition cursor_at ps (p : option Z) (c : option nat) : Prop := p = c ≫= λ i, ps !! i.
Definition index_ok kvs (c : option nat) : Prop := ∀ i, c = Some i → (i < length kvs)%nat.

Lemma kexec_ok s ps kvs h0 p c o : rb_rep s ps kvs h0 → cursor_at ps p c → index_ok kvs c →
  wp (kexec p o) (λ out s', let '(r, kvs', c') := kspec kvs c o in
    ∃ ps', fst out = r ∧ rb_rep s' ps' kvs' h0 ∧ cursor_at ps' (snd out) c' ∧ index_ok kvs' c' ∧
      rdropped s' = rdropped s) s.
Proof.
  intros Hr -> Hix. pose proof (rep_length _ _ _ _ Hr) as Hlen.
  destruct c as [i|]; simpl; [|by apply wp_ret; exists ps].
  pose proof (Hix i eq_refl) as Hi.
  destruct (lookup_lt_is_Some_2 ps i) as [q Hq]; [lia|]. rewrite Hq.
  destruct (rep_lookup _ _ _ _ _ _ Hr Hq) as (kv & Hkv & Hk).
  destruct o as [|d|d|d| |v|d v].
  - apply wp_bind. eapply wp_read_node; [exact Hk|]. apply wp_ret. rewrite Hkv. simpl. by exists ps.
  - apply wp_bind. unfold cursor_peek. apply wp_bind. eapply wp_mono; [by eapply neighbor_ok|].
    intros r s' [-> ->]. destruct (kneighbor i d) as [j|]; simpl; [|by apply wp_ret, wp_ret; exists ps].
    destruct (ps !! j) as [u|] eqn:Hu.
    + destruct (rep_lookup _ _ _ _ _ _ Hr Hu) as (kv' & Hkv' & Hk'). apply wp_bind.
      eapply wp_read_node; [exact Hk'|]. apply wp_ret, wp_ret. rewrite Hkv'. by exists ps.
    + apply wp_ret, wp_ret. exists ps. split_and!; try done. simpl.
      apply lookup_ge_None in Hu. symmetry. apply lookup_ge_None. lia.
  - apply wp_bind. eapply wp_mono; [by eapply neighbor_ok|]. intros r s' [-> ->]. apply wp_ret.
    exists ps. split_and!; try done; simpl; destruct (kneighbor i d) as [j|]; simpl; try done.
    + unfold cursor_at. case_decide; [done|]. simpl. apply lookup_ge_None. lia.
    + intros k Hk'. case_decide; [|done]. by injection Hk' as <-.
  - apply wp_bind. unfold remove_neighbor. apply wp_bind. eapply wp_mono; [by eapply neighbor_ok|].
    intros r s' [-> ->]. destruct (kneighbor i d) as [j|] eqn:Hj; simpl.
    2: { by apply wp_ret, wp_bind, wp_ret, wp_ret; exists ps. }
    destruct (ps !! j) as [u|] eqn:Hu.
    + destruct (rep_lookup _ _ _ _ _ _ Hr Hu) as (kv' & Hkv' & _).
      apply wp_bind, wp_modify, wp_ret, wp_bind.
      eapply wp_mono; [by eapply erase_take_ok|]. intros r s' (-> & Hd & H1). apply wp_ret. simpl.
      exists (delete j ps). rewrite Hkv'. split_and!; try done.
      * unfold cursor_at. simpl. destruct d, i; simpl in Hj; simplify_eq; simpl;
          repeat case_decide; try lia; rewrite ?list_lookup_delete_ge, ?list_lookup_delete_lt by lia; done.
      * intros k [= <-]. apply lookup_lt_Some in Hkv' as Hlt. rewrite length_delete by eauto.
        destruct d, i; simpl in Hj; simplify_eq; simpl; repeat case_decide; lia.
    + apply wp_ret, wp_bind, wp_ret, wp_ret. apply lookup_ge_None in Hu. simpl.
      exists ps. assert (kvs !! j = None) as -> by (apply lookup_ge_None; lia).
      rewrite delete_out by lia. destruct d, i; simpl in Hj; simplify_eq; try lia.
      all: rewrite decide_False by lia; by split_and!.
  - apply wp_bind. unfold remove_current. apply wp_bind. eapply wp_mono; [by eapply neighbor_ok|].
    intros pr s' [-> ->]. apply wp_bind. eapply wp_mono; [by eapply neighbor_ok|].
    intros nx s' [-> ->]. apply wp_bind, wp_modify, wp_ret, wp_bind. rewrite links_container.
    cbn [fst snd]. eapply wp_mono; [by eapply erase_take_ok|]. intros r s' (-> & Hd & H1).
    apply wp_ret. rewrite Hkv. exists (delete i ps). simpl. split_and!; try done.
    + unfold cursor_at. destruct (decide (S i < length kvs)%nat) as [Hlt|Hge].
      * destruct (lookup_lt_is_Some_2 ps (S i)) as [u Hu]; [lia|]. rewrite Hu. simpl.
        rewrite list_lookup_delete_ge, Hu by lia. destruct i as [|i]; [done|]. simpl. by destruct (ps !! i).
      * rewrite (lookup_ge_None_2 ps (S i)) by lia. destruct i as [|i]; [done|]. simpl.
        rewrite list_lookup_delete_lt by lia. by destruct (ps !! i).
    + apply lookup_lt_Some in Hkv as Hlt. intros k Hk'. rewrite length_delete by eauto.
      destruct (decide _); [|destruct i; [done|]]; injection Hk' as <-; lia.
  - destruct kv as [k v0]. apply wp_bind, wp_bind. eapply wp_read_node; [exact Hk|]. apply wp_ret, wp_bind.
    eapply wp_mono; [by eapply set_at_ok|]. intros r s' (-> & Hd & _ & H1). apply wp_ret. unfold kset. rewrite Hkv.
    exists ps. split_and!; [done|done|done| |done]. intros j Hj. rewrite length_insert. by apply Hix.
  - apply wp_bind. unfold cursor_peek_mut. apply wp_bind. eapply wp_mono; [by eapply neighbor_ok|].
    intros r s' [-> ->]. destruct (kneighbor i d) as [j|]; simpl; [|by apply wp_ret, wp_ret; exists ps].
    destruct (ps !! j) as [u|] eqn:Hu.
    + destruct (rep_lookup _ _ _ _ _ _ Hr Hu) as ([k v0] & Hkv' & Hk'). apply wp_bind, wp_bind.
      eapply wp_read_node; [exact Hk'|]. apply wp_ret, wp_ret, wp_bind.
      eapply wp_mono; [by eapply set_at_ok|]. intros r s' (-> & Hd & _ & H1). apply wp_ret. unfold kset. rewrite Hkv'.
      exists ps. split_and!; [done|done|done| |done]. intros m Hm. rewrite length_insert. by apply Hix.
    + apply wp_ret, wp_ret. apply lookup_ge_None in Hu. unfold kset.
      assert (kvs !! j = None) as -> by (apply lookup_ge_None; lia). by exists ps.
Qed.
End CursorSpecs.
