(* ===== verification/RBTreeThms.v ===== *)
(** * Red-black trees: iteration, destruction and the main theorems

    The iterator and [Drop for RBTree], a reference instance of the kernel's
    library interface, and the refinement theorems of the tree and its cursor. *)

From stdpp Require Import sorting.
From S2P Require Import Prelude Errors Alloc RBTree.

Section Traversal.
Context `{RLs : RbLibSpec} {K V : Type} `{REs : RBEnvSpec K V}.
Implicit Types (s : RSt K V) (ps : list Z) (kvs : list (K * V)).
#[local] Existing Instance container_inj.

Lemma kexecs_ok os : ∀ s ps kvs h0 p c, rb_rep s ps kvs h0 → cursor_at ps p c → index_ok kvs c →
  wp (kexecs p os) (λ out s', let '(rs, kvs', c') := kspecs kvs c os in
    ∃ ps', fst out = rs ∧ rb_rep s' ps' kvs' h0 ∧ cursor_at ps' (snd out) c' ∧ index_ok kvs' c' ∧
      rdropped s' = rdropped s) s.
Proof.
  induction os as [|o os IH]; intros s ps kvs h0 p c Hr Hc Hi; simpl.
  - apply wp_ret. by exists ps.
  - apply wp_bind. eapply wp_mono; [by eapply (kexec_ok s ps kvs h0 p c o)|].
    intros out s1 H1. destruct (kspec kvs c o) as [[r kvs1] c1].
    destruct H1 as (ps1 & <- & Hr1 & Hc1 & Hi1 & Hd1). apply wp_bind.
    eapply wp_mono; [by eapply (IH s1 ps1 kvs1 h0)|]. intros rest s2 H2.
    destruct (kspecs kvs1 c1 os) as [[rs kvs2] c2]. destruct H2 as (ps2 & <- & Hr2 & Hc2 & Hi2 & Hd2).
    apply wp_ret. exists ps2. simpl. split_and!; [done..|congruence].
Qed.

Lemma head_non_null s ps kvs h0 : rb_rep s ps kvs h0 → non_null (hdz null ps) = head ps.
Proof.
  intros Hr. apply (non_null_in ps); [by eapply rr_nodup|]. intros p Hp.
  destruct ps; simplify_eq/=. set_solver.
Qed.

Lemma rb_cursor_front_ok s ps kvs h0 : rb_rep s ps kvs h0 →
  wp rb_cursor_front (λ r s', r = head ps ∧ s' = s) s.
Proof.
  intros Hr. destruct (rr_tree _ _ _ _ Hr) as (t & Hw & Et). apply wp_bind, wp_lib_state, wp_ret.
  by rewrite (rb_first_ok _ _ Hw), Et, (head_non_null _ _ _ _ Hr).
Qed.

Lemma rb_cursor_back_ok s ps kvs h0 : rb_rep s ps kvs h0 →
  wp rb_cursor_back (λ r s', r = last ps ∧ s' = s) s.
Proof.
  intros Hr. destruct (rr_tree _ _ _ _ Hr) as (t & Hw & Et). apply wp_bind, wp_lib_state, wp_ret.
  rewrite (rb_last_ok _ _ Hw), Et. split; [|done].
  apply (non_null_in ps); [by eapply rr_nodup|]. intros p. apply last_Some_elem_of.
Qed.

Lemma rb_iter_ok s l1 : ∀ fuel l2 k1 k2 h0, rb_rep s (l1 ++ l2) (k1 ++ k2) h0 →
  length l1 = length k1 → (length l2 < fuel)%nat →
  wp (rb_iter_collect fuel (hdz null l2)) (λ out s', out = k2 ∧ s' = s) s.
Proof.
  intros fuel. revert l1. induction fuel as [|fuel IH]; intros l1 l2 k1 k2 h0 Hr Hlen Hlt; [lia|].
  pose proof (rep_length _ _ _ _ Hr) as Hlen'. rewrite !length_app in Hlen'.
  simpl. apply wp_bind. unfold iter_raw_next. destruct l2 as [|p l2].
  - destruct k2; [|simpl in *; lia]. by apply wp_ret, wp_ret.
  - destruct k2 as [|kv k2]; [simpl in *; lia|]. pose proof (rr_nodup _ _ _ _ Hr) as [_ Hnn].
    assert (is_null p = false) as Hp0 by (apply Z.eqb_neq; intros ->; apply Hnn; set_solver).
    change (hdz null (p :: l2)) with p. rewrite Hp0. apply wp_bind, wp_lib_state.
    destruct (rr_tree _ _ _ _ Hr) as (t & Hw & Et). destruct (rb_step_ok _ _ _ _ _ Hw Et) as [-> _].
    destruct (rep_lookup _ _ _ _ (length l1) p Hr) as (kv' & Hkv & Hk); [by apply list_lookup_middle|].
    rewrite Hlen, list_lookup_middle in Hkv by done. injection Hkv as <-.
    apply wp_bind. eapply wp_read_node; [exact Hk|]. apply wp_ret. simpl. apply wp_bind.
    eapply wp_mono; [eapply (IH (l1 ++ [p]) l2 (k1 ++ [kv]) k2 h0)|].
    + by rewrite <- !app_assoc.
    + rewrite !length_app. simpl. lia.
    + simpl in *. lia.
    + intros out s' [-> ->]. by apply wp_ret.
Qed.

Definition set_with (f : K → V → V) (kv : K * V) : K * V := (fst kv, f (fst kv) (snd kv)).

Lemma rb_for_each_ok f h0 : ∀ fuel s l1 l2 k1 k2, rb_rep s (l1 ++ l2) (k1 ++ k2) h0 →
  length l1 = length k1 → (length l2 < fuel)%nat →
  wp (rb_for_each f fuel (hdz null l2)) (λ _ s', rdropped s' = rdropped s ∧ rb_rep s' (l1 ++ l2) (k1 ++ (set_with f <$> k2)) h0) s.
Proof.
  induction fuel as [|fuel IH]; intros s l1 l2 k1 k2 Hr Hlen Hlt; [lia|].
  pose proof (rep_length _ _ _ _ Hr) as Hlen'. rewrite !length_app in Hlen'.
  cbn [rb_for_each]. apply wp_bind. unfold iter_mut_next, iter_raw_next. destruct l2 as [|p l2].
  - destruct k2; [|simpl in *; lia]. apply wp_bind. cbn. by apply wp_ret, wp_ret, wp_ret.
  - destruct k2 as [|[k v] k2]; [simpl in *; lia|]. pose proof (rr_nodup _ _ _ _ Hr) as [_ Hnn].
    assert (is_null p = false) as Hp0 by (apply Z.eqb_neq; intros ->; apply Hnn; set_solver).
    change (hdz null (p :: l2)) with p. rewrite Hp0. apply wp_bind, wp_bind, wp_lib_state.
    destruct (rr_tree _ _ _ _ Hr) as (t & Hw & Et). destruct (rb_step_ok _ _ _ _ _ Hw Et) as [-> _].
    assert ((l1 ++ p :: l2) !! length l1 = Some p) as Hp by by apply list_lookup_middle.
    assert ((k1 ++ (k, v) :: k2) !! length l1 = Some (k, v)) as Hkv by by apply list_lookup_middle.
    destruct (rep_lookup _ _ _ _ _ _ Hr Hp) as (kv' & E & Hk). rewrite Hkv in E. injection E as <-.
    apply wp_bind. eapply wp_read_node; [exact Hk|]. apply wp_ret, wp_ret. cbn [fst snd fmap option_fmap option_map].
    apply wp_bind. eapply wp_read_node; [exact Hk|]. apply wp_bind. cbn [snd].
    eapply wp_mono; [by eapply (set_at_ok _ _ _ _ _ _ _ _ (f k v))|]. intros r s1 (_ & Hd & _ & H1).
    rewrite Hlen, insert_app_r_alt, Nat.sub_diag in H1 by done. simpl in H1.
    eapply wp_mono; [apply (IH s1 (l1 ++ [p]) l2 (k1 ++ [(k, f k v)]) k2)|].
    + by rewrite <- !app_assoc.
    + rewrite !length_app. simpl. lia.
    + simpl in *. lia.
    + intros [] s2 (Hd2 & H2). rewrite <- !app_assoc in H2. split; [congruence|exact H2].
Qed.

Lemma postorder_perm t : postorder t ≡ₚ inorder t.
Proof.
  induction t as [|l IHl p r IHr]; [done|]. simpl. rewrite IHl, IHr. apply Permutation_app_head.
  by rewrite Permutation_app_comm.
Qed.

Lemma rb_drop_loop_ok t : ∀ fuel s l1 l2 (k2 : list (K * V)),
  rb_wf (klib s) t → postorder t = l1 ++ l2 → Forall2 (nodeat (nodes s)) l2 k2 →
  (length l2 < fuel)%nat →
  wp (rb_drop_loop fuel (hdz null l2)) (λ _ s', rdropped s' = rdropped s ++ k2 ∧
    ∀ x, nodes s' !! x = if decide (x ∈ container_of <$> l2) then None else nodes s !! x) s.
Proof.
  induction fuel as [|fuel IH]; intros s l1 l2 k2 Hw Hp HF Hlt; [lia|]. simpl.
  pose proof (rb_wf_nodup _ _ Hw) as [Hnd Hnn]. rewrite <- postorder_perm, Hp in Hnd, Hnn.
  destruct HF as [|p kv l2 k2 Hkv HF].
  - apply wp_ret. rewrite app_nil_r. split; [done|]. intros x. by rewrite decide_False by set_solver.
  - assert (is_null p = false) as Hp0 by (apply Z.eqb_neq; intros ->; apply Hnn; set_solver).
    change (hdz null (p :: l2)) with p. rewrite Hp0. apply wp_bind, wp_lib_state.
    rewrite (rb_next_postorder_ok _ _ _ _ _ Hw Hp). unfold box_drop, box_into_inner.
    apply wp_bind, wp_bind, wp_bind. eapply wp_read_node; [exact Hkv|].
    apply wp_bind, wp_modify, wp_ret, wp_modify.
    assert (∀ q, q ∈ l2 → container_of p ≠ container_of q) as Hne.
    { intros q Hq E%(inj _). subst q. apply NoDup_app in Hnd as (_ & _ & Hnd).
      apply NoDup_cons in Hnd as [Hnd _]. done. }
    eapply wp_mono; [eapply (IH _ (l1 ++ [p]) l2 k2); simpl|].
    + done.
    + by rewrite <- app_assoc.
    + eapply Forall2_impl_l; [exact HF|]. intros q kv' Hq Hk. unfold nodeat.
      rewrite lookup_delete_ne by auto. done.
    + simpl in Hlt. lia.
    + simpl. intros _ s' [Hd Hx]. split; [by rewrite Hd, <- app_assoc|]. intros x. rewrite Hx.
      destruct (decide (x ∈ container_of <$> l2)) as [Hin|Hin].
      * by rewrite decide_True by (apply elem_of_cons; by right).
      * destruct (decide (x = container_of p)) as [->|Hn].
        -- by rewrite decide_True, lookup_delete_eq by (apply elem_of_cons; by left).
        -- rewrite decide_False, lookup_delete_ne by (by rewrite ?elem_of_cons; naive_solver). done.
Qed.

Lemma Forall2_perm {A B} (P : A → B → Prop) (l l' : list A) k :
  l ≡ₚ l' → Forall2 P l k → ∃ k', k ≡ₚ k' ∧ Forall2 P l' k'.
Proof.
  intros Hp. revert k. induction Hp as [|x l l' _ IH|x y l|l l' l'' _ IH1 _ IH2]; intros k HF.
  - inversion HF; subst. by exists [].
  - inversion_clear HF as [|? b ? k0 Hb Hk]. destruct (IH _ Hk) as (k' & H1 & H2).
    exists (b :: k'). split; [by rewrite H1|by constructor].
  - inversion_clear HF as [|? b ? k0 Hb Hk]. inversion_clear Hk as [|? c ? k1 Hc Hk1].
    exists (c :: b :: k1). split; [constructor|]. by repeat constructor.
  - destruct (IH1 _ HF) as (k' & H1 & H2). destruct (IH2 _ H2) as (k'' & H3 & H4).
    exists k''. split; [by rewrite H1|done].
Qed.

Lemma rbtree_drop_ok s ps kvs h0 : rb_rep s ps kvs h0 →
  wp (rbtree_drop (fuel_of s)) (λ _ s', nodes s' = h0 ∧
    ∃ ds, ds ≡ₚ kvs ∧ rdropped s' = rdropped s ++ ds) s.
Proof.
  intros Hr. pose proof (fuel_enough _ _ _ _ Hr) as Hfuel. pose proof (rep_length _ _ _ _ Hr) as Hlen.
  pose proof Hr as [(t & Hw & <-) HF _ Hfr Hfresh _]. unfold rbtree_drop. apply wp_bind, wp_lib_state.
  rewrite (rb_first_postorder_ok _ _ Hw). pose proof (postorder_perm t) as Hp.
  destruct (Forall2_perm _ _ _ _ (symmetry Hp) HF) as (k2 & Hk & HF2).
  eapply wp_mono; [eapply (rb_drop_loop_ok t _ s [] (postorder t) k2); [done|done|done|]|].
  - rewrite Hp. lia.
  - intros _ s' [Hd Hx]. split; [|by exists k2]. apply map_eq. intros x. rewrite Hx.
    destruct (decide _) as [Hin|Hin]; rewrite Hp in Hin.
    + apply list_elem_of_fmap in Hin as (p & -> & Hin). symmetry. by apply Hfresh.
    + by apply Hfr.
Qed.
End Traversal.

(** ** A reference instance of the library

    Plain trees without rebalancing: the behaviour [RbLibSpec] asks for can be
    met, and the theorems can be evaluated. *)

(** The element after [p] in a list. *)
Fixpoint after (l : list Z) (p : Z) : Z :=
  match l with [] => null | x :: l => if x =? p then hdz null l else after l p end.

Fixpoint find_at (t : tree) (p : Z) : option (tree * tree) :=
  match t with
  | Leaf => None
  | TNode l q r =>
      if q =? p then Some (l, r)
      else match find_at l p with Some x => Some x | None => find_at r p end
  end.

(** A tree with the given in-order sequence. *)
Fixpoint spine (l : list Z) : tree :=
  match l with [] => Leaf | x :: l => TNode Leaf x (spine l) end.

Fixpoint link_at (t : tree) (f : field) (p : Z) : tree :=
  match t with
  | Leaf => Leaf
  | TNode l q r =>
      TNode (match f with FLeft q' => if q =? q' then TNode Leaf p Leaf else link_at l f p | _ => link_at l f p end)
            q
            (match f with FRight q' => if q =? q' then TNode Leaf p Leaf else link_at r f p | _ => link_at r f p end)
  end.

Fixpoint rename (t : tree) (p q : Z) : tree :=
  match t with Leaf => Leaf | TNode l x r => TNode (rename l p q) (if x =? p then q else x) (rename r p q) end.

#[export] Instance ref_rb : RbLib := {|
  rbt := tree;
  rb_root_default := Leaf;
  rs_rb_root_node := tptr;
  rs_rb_left t p := match find_at t p with Some (l, _) => tptr l | None => null end;
  rs_rb_right t p := match find_at t p with Some (_, r) => tptr r | None => null end;
  rb_first t := hdz null (inorder t);
  rb_last t := lastz null (inorder t);
  rb_next t p := after (inorder t) p;
  rb_prev t p := after (rev (inorder t)) p;
  rb_first_postorder t := hdz null (postorder t);
  rb_next_postorder t p := after (postorder t) p;
  rb_link_node t p _ f := match t with Leaf => TNode Leaf p Leaf | _ => link_at t f p end;
  rb_insert_color t _ := t;
  rb_erase t p := spine (filter (λ x, x ≠ p) (inorder t));
  rb_replace_node t p q := rename t p q;
|}.

Lemma after_split l1 p l2 : p ∉ l1 → after (l1 ++ p :: l2) p = hdz null l2.
Proof.
  induction l1 as [|x l1 IH]; simpl; intros Hn; [by rewrite Z.eqb_refl|].
  rewrite (proj2 (Z.eqb_neq _ _)) by set_solver. apply IH. set_solver.
Qed.

Lemma inorder_spine l : inorder (spine l) = l.
Proof. induction l as [|x l IH]; simpl; [done|]. by rewrite IH. Qed.

Lemma find_at_None t p : p ∉ inorder t → find_at t p = None.
Proof.
  induction t as [|l IHl q r IHr]; simpl; intros Hn; [done|].
  rewrite (proj2 (Z.eqb_neq _ _)) by set_solver. rewrite IHl, IHr by set_solver. done.
Qed.

Lemma occurs_in t l p r : occurs (TNode l p r) t → p ∈ inorder t.
Proof.
  induction t as [|tl IHl q tr IHr]; simpl; [by intros [|]|].
  intros [[= -> -> ->]|[Ho|Ho]]; set_solver.
Qed.

Lemma find_at_ok t l p r : NoDup (inorder t) → occurs (TNode l p r) t → find_at t p = Some (l, r).
Proof.
  induction t as [|tl IHl q tr IHr]; simpl; intros Hnd Ho; [by destruct Ho|].
  apply NoDup_app in Hnd as (H1 & H2 & H3). apply NoDup_cons in H3 as [H3 H4].
  destruct Ho as [[= -> -> ->]|[Ho|Ho]]; [by rewrite Z.eqb_refl|..];
    pose proof (occurs_in _ _ _ _ Ho).
  - rewrite (proj2 (Z.eqb_neq _ _)) by set_solver. by rewrite IHl.
  - rewrite (proj2 (Z.eqb_neq _ _)) by set_solver. rewrite find_at_None by set_solver. by apply IHr.
Qed.

Lemma inorder_rename t p q : inorder (rename t p q) = (λ x, if x =? p then q else x) <$> inorder t.
Proof. induction t as [|l IHl x r IHr]; simpl; [done|]. by rewrite IHl, IHr, fmap_app. Qed.

Lemma rename_list (l : list Z) p q : p ∉ l → (λ x, if x =? p then q else x) <$> l = l.
Proof.
  induction l as [|x l IH]; intros Hn; [done|]. rewrite fmap_cons, IH by set_solver.
  by rewrite (proj2 (Z.eqb_neq _ _)) by set_solver.
Qed.

(** The field a hole is at belongs to a node of the tree, or is the field itself. *)
Lemma hole_field t q f par fld l1 l2 : hole t q f par fld l1 l2 →
  (t = Leaf ∧ fld = f) ∨ ∃ x, x ∈ inorder t ∧ (fld = FLeft x ∨ fld = FRight x).
Proof.
  induction 1 as [|l p r q f par fld l1 l2 _ IH|l p r q f par fld l1 l2 _ IH]; [by left|right..];
    (destruct IH as [[-> ->]|(x & Hx & Hf)]; [exists p|exists x]); simpl; set_solver.
Qed.

Lemma link_at_other t f p : (∀ x, f = FLeft x ∨ f = FRight x → x ∉ inorder t) →
  link_at t f p = t.
Proof.
  induction t as [|l IHl q r IHr]; simpl; intros Hx; [done|].
  rewrite IHl, IHr by (intros x Hf; specialize (Hx x Hf); set_solver).
  destruct f as [|x|x]; [done|..]; specialize (Hx x ltac:(auto));
    rewrite (proj2 (Z.eqb_neq _ _)) by set_solver; done.
Qed.

Lemma link_at_ok t q f par fld l1 l2 p : NoDup (inorder t) → hole t q f par fld l1 l2 → t ≠ Leaf →
  inorder (link_at t fld p) = l1 ++ p :: l2.
Proof.
  intros Hnd Hh. induction Hh as [|l n r q f par fld l1 l2 Hh IH|l n r q f par fld l1 l2 Hh IH];
    intros Hne; [done| |]; simpl in *; apply NoDup_app in Hnd as (H1 & H2 & H3);
    apply NoDup_cons in H3 as [H3 H4].
  - assert (link_at r fld p = r ∧ ∀ x, fld = FRight x → n ≠ x) as [Er Hr].
    { destruct (hole_field _ _ _ _ _ _ _ Hh) as [[-> ->]|(x & Hx & Hf)].
      - split; [|done]. apply link_at_other. intros x [E|E]; simplify_eq; done.
      - split; [apply link_at_other; intros y [E|E]; subst fld; destruct Hf as [Hf|Hf]; simplify_eq; set_solver|].
        intros y ->. destruct Hf as [Hf|Hf]; simplify_eq. set_solver. }
    destruct l as [|ll ln lr].
    + inversion Hh; subst. simpl. by rewrite Z.eqb_refl, Er.
    + assert (∀ x, fld = FLeft x → n ≠ x) as Hl.
      { destruct (hole_field _ _ _ _ _ _ _ Hh) as [[? _]|(x & Hx & Hf)]; [done|].
        intros y ->. destruct Hf as [Hf|Hf]; simplify_eq. set_solver. }
      specialize (IH H1 ltac:(done)). rewrite Er.
      destruct fld as [|x|x]; [|rewrite (proj2 (Z.eqb_neq n x)) by auto|
        rewrite (proj2 (Z.eqb_neq n x)) by auto]; rewrite IH, <- app_assoc; done.
  - assert (link_at l fld p = l ∧ ∀ x, fld = FLeft x → n ≠ x) as [El Hl].
    { destruct (hole_field _ _ _ _ _ _ _ Hh) as [[-> ->]|(x & Hx & Hf)].
      - split; [|done]. apply link_at_other. intros x [E|E]; simplify_eq; set_solver.
      - split; [apply link_at_other; intros y [E|E]; subst fld; destruct Hf as [Hf|Hf]; simplify_eq; set_solver|].
        intros y ->. destruct Hf as [Hf|Hf]; simplify_eq. set_solver. }
    destruct r as [|rl rn rr].
    + inversion Hh; subst. simpl. rewrite Z.eqb_refl, El. by rewrite <- app_assoc.
    + assert (∀ x, fld = FRight x → n ≠ x) as Hr.
      { destruct (hole_field _ _ _ _ _ _ _ Hh) as [[? _]|(x & Hx & Hf)]; [done|].
        intros y ->. destruct Hf as [Hf|Hf]; simplify_eq. set_solver. }
      specialize (IH H4 ltac:(done)). rewrite El.
      destruct fld as [|x|x]; [|rewrite (proj2 (Z.eqb_neq n x)) by auto|
        rewrite (proj2 (Z.eqb_neq n x)) by auto]; rewrite IH, <- app_assoc; done.
Qed.

Lemma hole_inorder t q f par fld l1 l2 : hole t q f par fld l1 l2 → inorder t = l1 ++ l2.
Proof. induction 1 as [|?????????? IH|?????????? IH]; simpl; [done| |]; rewrite IH, <- ?app_assoc; done. Qed.

Lemma NoDup_put (l1 l2 : list Z) p : NoDup (l1 ++ l2) → p ∉ l1 ++ l2 → NoDup (l1 ++ p :: l2).
Proof. intros H1 H2. rewrite <- Permutation_middle. by apply NoDup_cons. Qed.

Definition ref_rb_spec : @RbLibSpec ref_rb.
Proof.
  refine (@Build_RbLibSpec ref_rb (λ m t, m = t ∧ NoDup (inorder t) ∧ null ∉ inorder t)
    _ _ _ _ _ _ _ _ _ _ _ _).
  - by intros m t (_ & H).
  - split; [done|]. simpl. split; [constructor|set_solver].
  - by intros m t (-> & _).
  - intros m t l p r (-> & Hnd & _) Ho. simpl. by rewrite (find_at_ok _ _ _ _ Hnd Ho).
  - by intros m t (-> & _).
  - by intros m t (-> & _).
  - intros m t l1 p l2 (-> & Hnd & _) E. simpl. rewrite E in Hnd |- *.
    apply NoDup_app in Hnd as (_ & H1 & H2). apply NoDup_cons in H2 as [H2 _]. split.
    + apply after_split. intros Hp. apply (H1 p Hp). set_solver.
    + rewrite rev_app_distr. simpl. rewrite <- app_assoc. simpl.
      rewrite after_split by (by rewrite <- Permutation_rev).
      unfold hdz, lastz. destruct l1 as [|x l1 _] using rev_ind; [done|].
      by rewrite rev_app_distr, last_snoc.
  - by intros m t (-> & _).
  - intros m t l1 p l2 (-> & Hnd & _) E. simpl. rewrite E. apply after_split.
    rewrite <- postorder_perm, E in Hnd. apply NoDup_app in Hnd as (_ & H1 & _).
    intros Hp. apply (H1 p Hp). set_solver.
  - intros m t par fld l1 l2 p (-> & Hnd & Hnn) Hh Hp Hp0. pose proof (hole_inorder _ _ _ _ _ _ _ Hh) as E.
    rewrite E in Hp, Hnn.
    assert (inorder (match t with Leaf => TNode Leaf p Leaf | _ => link_at t fld p end) = l1 ++ p :: l2) as E'.
    { destruct t; [by inversion Hh|]. by eapply link_at_ok. }
    eexists. split; [split; [reflexivity|]|exact E']. simpl. rewrite E'.
    split; [apply NoDup_put; [by rewrite <- E|done]|set_solver].
  - intros m t l1 p l2 (-> & Hnd & Hnn) E. eexists. split; [split; [reflexivity|]|];
      simpl; rewrite inorder_spine; rewrite E in *.
    + split; [by apply NoDup_filter|]. intros [_ Hin]%list_elem_of_filter. done.
    + rewrite filter_app, filter_cons_False by (intros H; by apply H).
      apply NoDup_app in Hnd as (_ & H1 & H2). apply NoDup_cons in H2 as [H2 _].
      assert (∀ l : list Z, p ∉ l → filter (λ x, x ≠ p) l = l) as Hf.
      { induction l as [|x l IH]; [done|]. intros Hn. rewrite filter_cons_True by set_solver.
        f_equal. apply IH. set_solver. }
      rewrite !Hf; [done|done|]. intros Hp. apply (H1 p Hp). set_solver.
  - intros m t l1 p l2 q (-> & Hnd & Hnn) E Hq Hq0. eexists. split; [split; [reflexivity|]|];
      simpl; rewrite inorder_rename, E, fmap_app, fmap_cons, Z.eqb_refl; rewrite E in *;
      pose proof Hnd as (_ & H1 & H2)%NoDup_app; apply NoDup_cons in H2 as [H2 _];
      rewrite !rename_list by (done || (intros Hp; apply (H1 p Hp); set_solver)).
    + split; [|set_solver]. apply NoDup_put; [|set_solver].
      rewrite <- Permutation_middle in Hnd. by apply NoDup_cons in Hnd as [_ Hnd].
    + done.
Defined.

(** Integer keys; nodes are allocated at fresh addresses. *)
#[export] Instance demo_env : RBEnv Z Z := {|
  kcmp := Z.compare;
  links_off := 16;
  new_uninit h _ := if (size h <? 3)%nat then Some (1 + max_key h) else None;
|}.

#[export] Instance demo_env_spec : RBEnvSpec Z Z.
Proof.
  split; simpl.
  - apply Z.compare_eq_iff.
  - apply Z.compare_antisym.
  - intros a b c. rewrite !Z.compare_lt_iff. lia.
  - lia.
  - intros h fl p Hp. destruct (size h <? 3)%nat; [|done]. injection Hp as <-.
    pose proof (foldr_max_nonneg (map_to_list h).*1) as Hm. fold (max_key h) in Hm.
    split; [|lia]. destruct (h !! (1 + max_key h)) eqn:E; [|done]. apply max_key_ge in E. lia.
Qed.

Lemma empty_holds `{RLs : RbLibSpec} {K V} `{REs : RBEnvSpec K V} (h0 : gmap Z (option (K * V))) ds :
  rb_holds h0 (MkRSt rb_root_default h0 ds) [].
Proof.
  exists []. split; simpl; try done; try set_solver.
  - exists Leaf. split; [apply rb_wf_default|done].
  - constructor.
Qed.

(** ** Theorems *)

(** C3: the tree is an ordered map. For every behaviour of the kernel's library
    that its documentation allows, every total order on keys and every allocator
    of nodes, a sequence of operations on a tree that starts empty runs without
    undefined behaviour and refines the contract on lists sorted by key: inserting
    replaces and hands back, removal, lookup, writing through [get_mut], the
    smallest key at or above a bound, and the entry API. Searches stop within one
    step per node. *)
Theorem rbtree_program_refines `{RLs : RbLibSpec} {K V} `{REs : RBEnvSpec K V}
    (os : list (rop K V)) h0 :
  ∃ rs s' kvs, rexecs os (MkRSt rb_root_default h0 []) = Done (rs, s') ∧
    rsteps [] os rs kvs ∧ rb_holds h0 s' kvs ∧ StronglySorted key_lt kvs.
Proof.
  destruct (rexecs_ok os _ _ _ (empty_holds h0 [])) as (rs & s' & He & kvs & Hs & Hh & _).
  exists rs, s', kvs. split_and!; try done. destruct Hh as [ps Hh]. apply Hh.
Qed.

Definition demo_rops : list (rop Z Z) :=
  [RInsert 5 50 (MkFlags 0); RInsert 3 30 (MkFlags 0); REntry 9 90 (MkFlags 0); RInsert 5 55 (MkFlags 0);
   RGet 5; RLower 4; RRemove 3; RInsert 5 56 (MkFlags 0); RSet 9 91; RLower 10; RRemove 4].

Lemma rbtree_program_refines_witness :
  ∃ rs s' kvs, rexecs demo_rops (MkRSt (Leaf : @rbt ref_rb) ∅ []) = Done (rs, s') ∧
    rsteps [] demo_rops rs kvs ∧ @rb_holds _ ref_rb_spec _ _ _ ∅ s' kvs ∧
    StronglySorted key_lt kvs.
Proof. exact (@rbtree_program_refines _ ref_rb_spec _ _ _ demo_env_spec demo_rops ∅). Defined.

(** What the reference instance answers. *)
Example demo_rops_answers :
  match rexecs demo_rops (MkRSt (Leaf : @rbt ref_rb) ∅ []) with
  | Done (rs, _) => rs
  | _ => []
  end = [RKv None; RKv None; RNew true; RFail ENOMEM; RVal (Some 50); RKv (Some (5, 50)); RVal (Some 30);
         RKv (Some (5, 50)); RVal (Some 90); RKv None; RVal None].
Proof. reflexivity. Qed.



(** C17: a cursor walks the entries in key order. From the first or the last entry,
    any sequence of moves, peeks, writes of values, removals of neighbours and removals of
    the current entry gives the answers of an index into the sorted list; the cursor
    is live exactly when the index is (a removal leaves it on the next entry, or on
    the previous one if there is none), and the tree holds what remains. *)
Theorem cursor_refines_index `{RLs : RbLibSpec} {K V} `{REs : RBEnvSpec K V}
    (s : RSt K V) kvs h0 (os : list (kop V)) (front : bool)
    (Hh : rb_holds h0 s kvs) (Hne : kvs ≠ []) :
  ∃ p out s', (if front then rb_cursor_front else rb_cursor_back) s = Done (Some p, s) ∧
    kexecs (Some p) os s = Done (out, s') ∧
    let '(rs, kvs', c') := kspecs kvs (Some (if front then 0%nat else pred (length kvs))) os in
    fst out = rs ∧ rb_holds h0 s' kvs' ∧ (is_Some (snd out) ↔ is_Some c').
Proof.
  destruct Hh as [ps Hr]. pose proof (rep_length _ _ _ _ Hr) as Hlen.
  assert (0 < length kvs)%nat by (destruct kvs; simpl; [done|lia]).
  set (i := if front then 0%nat else pred (length kvs)).
  destruct (lookup_lt_is_Some_2 ps i) as [p Hp]; [destruct front; lia|].
  destruct (kexecs_ok os s ps kvs h0 (Some p) (Some i) Hr (symmetry Hp)) as (out & s' & He & Hk).
  { intros j [= <-]. destruct front; lia. }
  exists p, out, s'. split; [|split; [done|]].
  - rewrite <- Hp. destruct front; unfold i.
    + destruct (rb_cursor_front_ok _ _ _ _ Hr) as (r & s1 & Hc & -> & ->). by rewrite Hc, head_lookup.
    + destruct (rb_cursor_back_ok _ _ _ _ Hr) as (r & s1 & Hc & -> & ->).
      by rewrite Hc, last_lookup, Hlen.
  - destruct (kspecs _ _ os) as [[rs kvs'] c']. destruct Hk as (ps' & <- & Hr' & -> & Hix & Hd).
    split; [done|]. split; [by exists ps'|]. destruct c' as [j|]; simpl; [|done].
    split; [eauto|]. intros _. apply lookup_lt_is_Some_2.
    rewrite (rep_length _ _ _ _ Hr'). by apply Hix.
Qed.

(** A tree with three entries. *)
Definition demo_tree : RSt Z Z :=
  MkRSt (TNode (TNode Leaf 17 Leaf) 18 (TNode Leaf 19 Leaf) : @rbt ref_rb)
    (list_to_map [(1, Some (10, 100)); (2, Some (20, 200)); (3, Some (30, 300))]) [].

Lemma demo_tree_holds :
  @rb_holds _ ref_rb_spec _ _ _ ∅ demo_tree [(10, 100); (20, 200); (30, 300)].
Proof.
  exists [17; 18; 19]. split.
  - eexists. split; [split; [reflexivity|]|reflexivity]. simpl. split; [|set_solver].
    repeat (apply NoDup_cons; split; [set_solver|]). constructor.
  - repeat constructor.
  - repeat constructor.
  - intros x Hx. simpl in Hx. unfold container_of in Hx. simpl in Hx. simpl.
    rewrite !lookup_insert_ne by set_solver. done.
  - intros p Hp. apply lookup_empty.
  - intros p Hp. rewrite !elem_of_cons, elem_of_nil in Hp. unfold container_of. simpl. lia.
Qed.

Lemma cursor_refines_index_witness :
  ∃ p out s', rb_cursor_back demo_tree = Done (Some p, demo_tree) ∧
    kexecs (Some p) [KPeek Prev; KPeekSet Prev 7; KRemoveCurrent; KSet 8; KCurrent; KRemoveNeighbor Prev; KMove Next] demo_tree
      = Done (out, s') ∧
    fst out = [Some (20, 200); Some (20, 200); Some (30, 300); Some (20, 7); Some (20, 8); Some (10, 100); None] ∧
    @rb_holds _ ref_rb_spec _ _ _ ∅ s' [(20, 8)] ∧ (is_Some (snd out) ↔ is_Some (@None nat)).
Proof.
  exact (@cursor_refines_index _ ref_rb_spec _ _ _ demo_env_spec demo_tree
    [(10, 100); (20, 200); (30, 300)] ∅
    [KPeek Prev; KPeekSet Prev 7; KRemoveCurrent; KSet 8; KCurrent; KRemoveNeighbor Prev; KMove Next] false
    demo_tree_holds ltac:(done)).
Defined.

(** Iteration yields the entries in key order, each once, and changes nothing. *)
Theorem rbtree_iter_sorted `{RLs : RbLibSpec} {K V} `{REs : RBEnvSpec K V}
    (s : RSt K V) kvs h0 (Hh : rb_holds h0 s kvs) :
  (first ← rb_iter; rb_iter_collect (fuel_of s) first) s = Done (kvs, s) ∧
  StronglySorted key_lt kvs.
Proof.
  destruct Hh as [ps Hr]. split; [|apply Hr].
  assert (wp (first ← rb_iter; rb_iter_collect (fuel_of s) first) (λ r s', r = kvs ∧ s' = s) s)
    as (r & s' & He & -> & ->); [|done].
  apply wp_bind. unfold rb_iter. apply wp_bind, wp_lib_state, wp_ret.
  destruct (rr_tree _ _ _ _ Hr) as (t & Hw & Et). rewrite (rb_first_ok _ _ Hw), Et.
  apply (rb_iter_ok s [] (fuel_of s) ps [] kvs h0 Hr eq_refl).
  rewrite (rep_length _ _ _ _ Hr). by eapply fuel_enough.
Qed.

Lemma rbtree_iter_sorted_witness :
  (first ← rb_iter; rb_iter_collect (fuel_of demo_tree) first) demo_tree =
    Done ([(10, 100); (20, 200); (30, 300)], demo_tree) ∧
  StronglySorted key_lt [(10, 100); (20, 200); (30, 300)].
Proof.
  exact (@rbtree_iter_sorted _ ref_rb_spec _ _ _ demo_env_spec demo_tree _ ∅ demo_tree_holds).
Defined.

(** [keys] and [values] are the entries in key order, and a loop over [iter_mut] replaces every value,
    each once and with its key, and keeps the rest of the tree. *)
Theorem rbtree_iter_mut_maps `{RLs : RbLibSpec} {K V} `{REs : RBEnvSpec K V}
    (s : RSt K V) kvs h0 (f : K → V → V) (Hh : rb_holds h0 s kvs) :
  rb_keys (fuel_of s) s = Done (kvs.*1, s) ∧ rb_values (fuel_of s) s = Done (kvs.*2, s) ∧
  ∃ s', (first ← rb_iter_mut; rb_for_each f (fuel_of s) first) s = Done (tt, s') ∧
    rb_holds h0 s' (set_with f <$> kvs) ∧ rdropped s' = rdropped s.
Proof.
  destruct Hh as [ps Hr]. pose proof (rep_length _ _ _ _ Hr) as Hlen. pose proof (fuel_enough _ _ _ _ Hr) as Hfuel.
  destruct (rr_tree _ _ _ _ Hr) as (t & Hw & Et).
  assert (rb_first (klib s) = hdz null ps) as Hfirst by by rewrite (rb_first_ok _ _ Hw), Et.
  assert (wp (rb_iter_collect (fuel_of s) (hdz null ps)) (λ r s', r = kvs ∧ s' = s) s) as Hc.
  { apply (rb_iter_ok s [] (fuel_of s) ps [] kvs h0 Hr eq_refl). by rewrite Hlen. }
  split_and!.
  - apply wp_Done. apply wp_bind, wp_bind, wp_lib_state, wp_ret, wp_bind. rewrite Hfirst.
    eapply wp_mono; [exact Hc|]. intros r s' [-> ->]. by apply wp_ret.
  - apply wp_Done. apply wp_bind, wp_bind, wp_lib_state, wp_ret, wp_bind. rewrite Hfirst.
    eapply wp_mono; [exact Hc|]. intros r s' [-> ->]. by apply wp_ret.
  - assert (wp (first ← rb_iter_mut; rb_for_each f (fuel_of s) first) (λ _ s',
      rdropped s' = rdropped s ∧ rb_rep s' ps (set_with f <$> kvs) h0) s) as ([] & s' & He & Hd & H1).
    { apply wp_bind, wp_bind, wp_lib_state, wp_ret. rewrite Hfirst.
      apply (rb_for_each_ok f h0 (fuel_of s) s [] ps [] kvs Hr eq_refl). by rewrite Hlen. }
    exists s'. split_and!; [done|by exists ps|done].
Qed.

Lemma rbtree_iter_mut_maps_witness :
  rb_keys (fuel_of demo_tree) demo_tree = Done ([10; 20; 30], demo_tree) ∧
  ∃ s', (first ← rb_iter_mut; rb_for_each (λ k v, v - k) (fuel_of demo_tree) first) demo_tree = Done (tt, s') ∧
    @rb_holds _ ref_rb_spec _ _ _ ∅ s' [(10, 90); (20, 180); (30, 270)].
Proof.
  destruct (@rbtree_iter_mut_maps _ ref_rb_spec _ _ _ demo_env_spec demo_tree _ ∅ (λ k v, v - k) demo_tree_holds)
    as (H1 & _ & s' & H2 & H3 & _).
  split; [exact H1|]. exists s'. split; [exact H2|exact H3].
Defined.
