(* ===== verification/Bitmap.v ===== *)
(** * Bitmaps ([rust/src/bitmap.rs])

    A [BitmapVec] stores up to 64 bits inline and longer bitmaps behind a pointer,
    told apart only by [nbits] (the storage is an untagged union: reading the wrong
    variant is [UB]). The bit primitives are the kernel's; they act on the words of
    a bitmap, read here as one little-endian integer, and [BitOpsSpec] states what
    [linux/find.h] and [linux/bitmap.h] document of them. *)

From S2P Require Import Prelude Errors Alloc.

(** ** The kernel's bit operations *)

(** Memory of heap bitmaps: the contents and the number of bits allocated. *)
Record BMem := MkBMem { mbits : Z; mcap : Z }.

Class BitOps := {
  k_set_bit : Z → Z → Z;
  k_clear_bit : Z → Z → Z;
  (** the atomic versions: [set_bit] and [clear_bit] of C *)
  k_set_bit_atomic : Z → Z → Z;
  k_clear_bit_atomic : Z → Z → Z;
  bitmap_copy_and_extend : Z → Z → Z → Z → Z;
  _find_last_bit : Z → Z → Z;
  _find_next_bit : Z → Z → Z → Z;
  _find_next_zero_bit : Z → Z → Z → Z;
  bitmap_zalloc : gmap Z BMem → Z → Flags → option Z;
  (** the words after the first [n] bytes were filled *)
  get_random_bytes : Z → Z → Z;
}.

Class BitOpsSpec `{BitOps} : Prop := {
  set_bit_spec m i j : 0 ≤ i → Z.testbit (k_set_bit m i) j = (i =? j) || Z.testbit m j;
  clear_bit_spec m i j : 0 ≤ i → Z.testbit (k_clear_bit m i) j = negb (i =? j) && Z.testbit m j;
  set_bit_atomic_spec m i : k_set_bit_atomic m i = k_set_bit m i;
  clear_bit_atomic_spec m i : k_clear_bit_atomic m i = k_clear_bit m i;
  (** the first [count] bits of [src], then zeroes up to [size] *)
  copy_and_extend_spec dst src count size j : 0 ≤ j < size → 0 ≤ count ≤ size →
    Z.testbit (bitmap_copy_and_extend dst src count size) j = (j <? count) && Z.testbit src j;
  find_last_bit_spec m size r : _find_last_bit m size = r →
    (0 ≤ r < size ∧ Z.testbit m r = true ∧ ∀ j, r < j < size → Z.testbit m j = false) ∨
    (r = size ∧ ∀ j, 0 ≤ j < size → Z.testbit m j = false);
  find_next_bit_spec m size start r : 0 ≤ start → _find_next_bit m size start = r →
    (start ≤ r < size ∧ Z.testbit m r = true ∧ ∀ j, start ≤ j < r → Z.testbit m j = false) ∨
    (r = size ∧ ∀ j, start ≤ j < size → Z.testbit m j = false);
  find_next_zero_bit_spec m size start r : 0 ≤ start → _find_next_zero_bit m size start = r →
    (start ≤ r < size ∧ Z.testbit m r = false ∧ ∀ j, start ≤ j < r → Z.testbit m j = true) ∨
    (r = size ∧ ∀ j, start ≤ j < size → Z.testbit m j = true);
  zalloc_spec h n fl p : bitmap_zalloc h n fl = Some p → h !! p = None ∧ p ≠ null;
}.

(** ** Data *)

(** The untagged union [BitmapRepr]; the constructor records which field was
    written last. *)
Inductive BitmapRepr := RBitmap (w : Z) | RPtr (p : Z).

Record BitmapVec := MkBitmapVec { repr : BitmapRepr; nbits : Z }.

Definition MAX_LEN : Z := I32_MAX.
Definition MAX_INLINE_LEN : Z := 64.

Section Ops.
Context `{BO : BitOps}.
(** [CONFIG_RUST_BITMAP_HARDENED]. *)
Context (hardened : bool).
Local Abbreviation BM := (M (gmap Z BMem)).

Definition bitmap_len (v : BitmapVec) : Z := nbits v.

Definition new_inline : BitmapVec := MkBitmapVec (RBitmap 0) MAX_INLINE_LEN.

Definition bitmap_new (n : Z) (flags : Flags) : BM (result AllocError BitmapVec) :=
  if n <=? MAX_INLINE_LEN then mret (Ok (MkBitmapVec (RBitmap 0) n))
  else if MAX_LEN <? n then mret (Err MkAllocError)
  else if U32_MAX <? n then panic
  else
    h ← get;
    match bitmap_zalloc h n flags with
    | None => mret (Err MkAllocError)
    | Some p => _ ← put (<[p := MkBMem 0 n]> h); mret (Ok (MkBitmapVec (RPtr p) n))
    end.

(** The words behind [deref]. *)
Definition deref (v : BitmapVec) : BM Z :=
  if nbits v <=? MAX_INLINE_LEN then match repr v with RBitmap w => mret w | RPtr _ => ub end
  else
    match repr v with
    | RBitmap _ => ub
    | RPtr p =>
        h ← get;
        match h !! p with
        | Some b => if nbits v <=? mcap b then mret (mbits b) else ub
        | None => ub
        end
    end.

(** Stores the words back through [deref_mut]. *)
Definition deref_mut (v : BitmapVec) (w : Z) : BM BitmapVec :=
  if nbits v <=? MAX_INLINE_LEN then
    match repr v with RBitmap _ => mret (MkBitmapVec (RBitmap w) (nbits v)) | RPtr _ => ub end
  else
    match repr v with
    | RBitmap _ => ub
    | RPtr p =>
        h ← get;
        match h !! p with
        | Some b => if nbits v <=? mcap b then _ ← put (<[p := MkBMem w (mcap b)]> h); mret v else ub
        | None => ub
        end
    end.

(** [Drop for BitmapVec]. *)
Definition bitmap_drop (v : BitmapVec) : BM unit :=
  if nbits v <=? MAX_INLINE_LEN then mret tt
  else
    match repr v with
    | RBitmap _ => ub
    | RPtr p => h ← get; match h !! p with Some _ => put (delete p h) | None => ub end
    end.

(** [bitmap_assert_return!]: a failed check panics when hardened, and otherwise
    prints and returns. *)
Definition bitmap_assert_return (cond : bool) (v : BitmapVec) (k : BM BitmapVec) : BM BitmapVec :=
  if cond then k else if hardened then panic else mret v.
Definition bitmap_assert {A} (cond : bool) (k : BM A) : BM A :=
  if hardened && negb cond then panic else k.

Definition set_bit (v : BitmapVec) (index : Z) : BM BitmapVec :=
  bitmap_assert_return (index <? bitmap_len v) v
    (w ← deref v; deref_mut v (k_set_bit w index)).

Definition clear_bit (v : BitmapVec) (index : Z) : BM BitmapVec :=
  bitmap_assert_return (index <? bitmap_len v) v
    (w ← deref v; deref_mut v (k_clear_bit w index)).

Definition set_bit_atomic (v : BitmapVec) (index : Z) : BM BitmapVec :=
  bitmap_assert_return (index <? bitmap_len v) v
    (w ← deref v; deref_mut v (k_set_bit_atomic w index)).

Definition clear_bit_atomic (v : BitmapVec) (index : Z) : BM BitmapVec :=
  bitmap_assert_return (index <? bitmap_len v) v
    (w ← deref v; deref_mut v (k_clear_bit_atomic w index)).

(** The bytes of storage behind a bitmap: whole words. *)
Definition storage (v : BitmapVec) (h : gmap Z BMem) : Z :=
  match repr v with
  | RBitmap _ => 8
  | RPtr p => match h !! p with Some b => (mcap b + 63) / 64 * 8 | None => 0 end
  end.

(** [fill_random]; to write past the storage is undefined. *)
Definition fill_random (v : BitmapVec) : BM BitmapVec :=
  let n := (nbits v + 63) / 64 * 64 / 8 in
  w ← deref v;
  h ← get;
  if storage v h <? n then ub else deref_mut v (get_random_bytes w n).

Definition copy_and_extend (v src : BitmapVec) : BM BitmapVec :=
  let len := Z.min (bitmap_len src) (bitmap_len v) in
  d ← deref v;
  s ← deref src;
  deref_mut v (bitmap_copy_and_extend d s (wrap 32 len) (wrap 32 (bitmap_len v))).

Definition found_index (v : BitmapVec) (index : Z) : option Z :=
  if bitmap_len v <=? index then None else Some index.

Definition last_bit (v : BitmapVec) : BM (option Z) :=
  w ← deref v; mret (found_index v (_find_last_bit w (bitmap_len v))).

Definition next_bit (v : BitmapVec) (start : Z) : BM (option Z) :=
  bitmap_assert (start <? bitmap_len v)
    (w ← deref v; mret (found_index v (_find_next_bit w (bitmap_len v) start))).

Definition next_zero_bit (v : BitmapVec) (start : Z) : BM (option Z) :=
  bitmap_assert (start <? bitmap_len v)
    (w ← deref v; mret (found_index v (_find_next_zero_bit w (bitmap_len v) start))).
End Ops.

(** ** A bitmap is a set of indices *)

Section Specs.
Context `{BOs : BitOpsSpec}.
Implicit Types (h : gmap Z BMem) (v : BitmapVec) (S : gset Z).

(** The heap block a bitmap owns. *)
Definition bowned (v : BitmapVec) : option Z :=
  if nbits v <=? MAX_INLINE_LEN then None else match repr v with RPtr p => Some p | RBitmap _ => None end.

(** The words of a bitmap. *)
Definition words (h : gmap Z BMem) (v : BitmapVec) : option Z :=
  match repr v with
  | RBitmap w => if nbits v <=? MAX_INLINE_LEN then Some w else None
  | RPtr p =>
      if nbits v <=? MAX_INLINE_LEN then None
      else b ← h !! p; if nbits v <=? mcap b then Some (mbits b) else None
  end.

Record bitmap_rep (h : gmap Z BMem) (v : BitmapVec) (S : gset Z) : Prop := {
  br_len : 0 ≤ nbits v ≤ MAX_LEN;
  br_words : ∃ w, words h v = Some w ∧
    ∀ i, i ∈ S ↔ 0 ≤ i < nbits v ∧ Z.testbit w i = true
}.

Lemma wp_deref h v w Q : words h v = Some w → Q w h → wp (deref v) Q h.
Proof.
  intros Hw HQ. unfold deref, words in *. destruct (repr v) as [w'|p], (nbits v <=? MAX_INLINE_LEN);
    simplify_eq; [by apply wp_ret|]. apply wp_bind, wp_get.
  destruct (h !! p) as [b|]; [|done]. simpl in Hw. destruct (nbits v <=? mcap b); [|done].
  simplify_eq. by apply wp_ret.
Qed.

(** Changes of the words of [v] leave every other block alone. *)
Definition touches (v : BitmapVec) (h h' : gmap Z BMem) : Prop :=
  (∀ p, bowned v ≠ Some p → h' !! p = h !! p) ∧ dom h' = dom h.

Lemma wp_deref_mut h v w w' Q : words h v = Some w →
  (∀ v' h', words h' v' = Some w' → nbits v' = nbits v → bowned v' = bowned v → touches v h h' →
    Q v' h') →
  wp (deref_mut v w') Q h.
Proof.
  intros Hw HQ. unfold deref_mut, words in *.
  destruct (repr v) as [w0|p] eqn:Er, (nbits v <=? MAX_INLINE_LEN) eqn:El; simplify_eq.
  - apply wp_ret, HQ; [simpl; by rewrite El|done| |done]. unfold bowned. simpl. by rewrite El.
  - apply wp_bind, wp_get. destruct (h !! p) as [b|] eqn:Hp; [|done]. simpl in Hw.
    destruct (nbits v <=? mcap b) eqn:Ec; [|done]. apply wp_bind, wp_put, wp_ret, HQ; [|done..|].
    + rewrite Er, El, lookup_insert_eq. simpl. by rewrite Ec.
    + split; [|apply dom_insert_lookup_L; eauto]. intros q Hq. rewrite lookup_insert_ne; [done|].
      intros ->. apply Hq. unfold bowned. by rewrite El, Er.
Qed.

Lemma rep_intro h v w S : 0 ≤ nbits v ≤ MAX_LEN → words h v = Some w →
  (∀ i, i ∈ S ↔ 0 ≤ i < nbits v ∧ Z.testbit w i = true) → bitmap_rep h v S.
Proof. intros. split; eauto. Qed.

(** The result of a mutation of [v]. *)
Definition mutated (h : gmap Z BMem) (v : BitmapVec) (S' : gset Z) (v' : BitmapVec) (h' : gmap Z BMem) : Prop :=
  bitmap_rep h' v' S' ∧ nbits v' = nbits v ∧ bowned v' = bowned v ∧ touches v h h'.

Lemma bitmap_new_ok h n fl : 0 ≤ n →
  wp (bitmap_new n fl) (λ r h', match r with
    | Ok v => bitmap_rep h' v ∅ ∧ nbits v = n ∧ n ≤ MAX_LEN ∧
        (∀ p, bowned v = Some p → h !! p = None ∧ delete p h' = h) ∧ (bowned v = None → h' = h)
    | Err _ => h' = h ∧ MAX_INLINE_LEN < n
    end) h.
Proof.
  intros Hn. unfold bitmap_new, bowned.
  destruct (Z.leb_spec n MAX_INLINE_LEN) as [Hle|Hgt].
  - apply wp_ret. simpl. rewrite (proj2 (Z.leb_le _ _)) by done. split_and!; try done.
    + apply (rep_intro _ _ 0); unfold words; simpl.
      * unfold MAX_INLINE_LEN, MAX_LEN, I32_MAX in *. lia.
      * by rewrite (proj2 (Z.leb_le _ _)) by done.
      * intros i. rewrite Z.bits_0. set_solver.
    + unfold MAX_INLINE_LEN, MAX_LEN, I32_MAX in *. lia.
  - destruct (Z.ltb_spec MAX_LEN n); [by apply wp_ret|].
    rewrite (proj2 (Z.ltb_ge _ _)) by (unfold MAX_LEN, I32_MAX, U32_MAX in *; lia).
    apply wp_bind, wp_get. destruct (bitmap_zalloc h n fl) as [p|] eqn:E; [|by apply wp_ret].
    apply zalloc_spec in E as [Hp _]. apply wp_bind, wp_put, wp_ret. simpl.
    rewrite (proj2 (Z.leb_gt _ _)) by done. split_and!; try done.
    + apply (rep_intro _ _ 0); unfold words; simpl; [lia| |].
      * rewrite (proj2 (Z.leb_gt _ _)) by done. rewrite lookup_insert_eq. simpl. by rewrite Z.leb_refl.
      * intros i. rewrite Z.bits_0. set_solver.
    + intros q [= <-]. split; [done|]. by rewrite delete_insert_id.
Qed.

Lemma set_bit_ok hd h v S i : bitmap_rep h v S → 0 ≤ i →
  (i < nbits v → wp (set_bit hd v i) (mutated h v ({[i]} ∪ S)) h) ∧
  (nbits v ≤ i → if hd then set_bit hd v i h = Panic else set_bit hd v i h = Done (v, h)).
Proof.
  intros [Hl (w & Hw & HS)] Hi. unfold set_bit, bitmap_assert_return, bitmap_len. split; intros Hlt.
  - rewrite (proj2 (Z.ltb_lt _ _)) by done. apply wp_bind. eapply wp_deref; [done|].
    eapply wp_deref_mut; [done|]. intros v' h' Hw' Hn Ho Ht. split; [|done].
    eapply rep_intro; [by rewrite Hn|exact Hw'|]. intros j. rewrite set_bit_spec, Hn by done.
    rewrite elem_of_union, elem_of_singleton, HS. destruct (Z.eqb_spec i j); simpl; naive_solver lia.
  - rewrite (proj2 (Z.ltb_ge _ _)) by done. by destruct hd.
Qed.

Lemma clear_bit_ok hd h v S i : bitmap_rep h v S → 0 ≤ i →
  (i < nbits v → wp (clear_bit hd v i) (mutated h v (S ∖ {[i]})) h) ∧
  (nbits v ≤ i → if hd then clear_bit hd v i h = Panic else clear_bit hd v i h = Done (v, h)).
Proof.
  intros [Hl (w & Hw & HS)] Hi. unfold clear_bit, bitmap_assert_return, bitmap_len. split; intros Hlt.
  - rewrite (proj2 (Z.ltb_lt _ _)) by done. apply wp_bind. eapply wp_deref; [done|].
    eapply wp_deref_mut; [done|]. intros v' h' Hw' Hn Ho Ht. split; [|done].
    eapply rep_intro; [by rewrite Hn|exact Hw'|]. intros j. rewrite clear_bit_spec, Hn by done.
    rewrite elem_of_difference, elem_of_singleton, HS. destruct (Z.eqb_spec i j); simpl; naive_solver lia.
  - rewrite (proj2 (Z.ltb_ge _ _)) by done. by destruct hd.
Qed.

Lemma atomic_same hd v i h : set_bit_atomic hd v i h = set_bit hd v i h ∧ clear_bit_atomic hd v i h = clear_bit hd v i h.
Proof.
  unfold set_bit_atomic, set_bit, clear_bit_atomic, clear_bit, bitmap_assert_return, mbind, M_bind.
  split; case_match; [|done| |done]; destruct (deref v h) as [[w h']| |];
    [by rewrite set_bit_atomic_spec|done|done|by rewrite clear_bit_atomic_spec|done|done].
Qed.

(** Any set of indices may be the result; the storage holds all the bytes that are written. *)
Lemma fill_random_ok h v S : bitmap_rep h v S →
  wp (fill_random v) (λ v' h', ∃ S', (∀ i, i ∈ S' → 0 ≤ i < nbits v) ∧ mutated h v S' v' h') h.
Proof.
  intros [Hl (w & Hw & HS)]. unfold fill_random. apply wp_bind. eapply wp_deref; [done|]. apply wp_bind, wp_get.
  set (n := (nbits v + 63) / 64 * 64 / 8).
  assert (n = (nbits v + 63) / 64 * 8) as Hn.
  { unfold n. replace ((nbits v + 63) / 64 * 64) with ((nbits v + 63) / 64 * 8 * 8) by lia. by rewrite Z.div_mul. }
  assert (n ≤ storage v h) as Hst.
  { rewrite Hn. unfold storage, words in *. destruct (repr v) as [w0|p]; destruct (Z.leb_spec (nbits v) MAX_INLINE_LEN) as [Hle|Hgt];
      try done; unfold MAX_INLINE_LEN in *.
    - assert ((nbits v + 63) / 64 ≤ 127 / 64) by (apply Z.div_le_mono; lia). change (127 / 64) with 1 in *. lia.
    - destruct (h !! p) as [b|]; [|done]. simpl in Hw. destruct (Z.leb_spec (nbits v) (mcap b)); [|done].
      assert ((nbits v + 63) / 64 ≤ (mcap b + 63) / 64) by (apply Z.div_le_mono; lia). lia. }
  rewrite (proj2 (Z.ltb_ge _ _)) by done. eapply wp_deref_mut; [done|]. intros v' h' Hw' Hn' Ho Ht.
  exists (list_to_set (filter (λ i, Z.testbit (get_random_bytes w n) i = true) (seqZ 0 (nbits v)))).
  assert (∀ i, i ∈ (list_to_set (filter (λ i, Z.testbit (get_random_bytes w n) i = true) (seqZ 0 (nbits v))) : gset Z) ↔
    0 ≤ i < nbits v ∧ Z.testbit (get_random_bytes w n) i = true) as HS'.
  { intros i. rewrite elem_of_list_to_set, list_elem_of_filter, elem_of_seqZ. naive_solver lia. }
  split; [by intros i [? _]%HS'|]. split; [|done]. eapply rep_intro; [by rewrite Hn'|exact Hw'|].
  intros i. by rewrite Hn', HS'.
Qed.

Lemma copy_and_extend_ok h v S src T : bitmap_rep h v S → bitmap_rep h src T →
  wp (copy_and_extend v src) (mutated h v (filter (λ i, i < nbits v) T)) h.
Proof.
  intros [Hl (w & Hw & HS)] [Hls (ws & Hws & HT)]. unfold copy_and_extend, bitmap_len.
  apply wp_bind. eapply wp_deref; [done|]. apply wp_bind. eapply wp_deref; [done|].
  rewrite !wrap_id by (unfold MAX_LEN, I32_MAX in *; lia).
  eapply wp_deref_mut; [done|]. intros v' h' Hw' Hn Ho Ht. split; [|done].
  eapply rep_intro; [by rewrite Hn|exact Hw'|]. intros j. rewrite Hn, elem_of_filter, HT. split.
  - intros (H1 & H2 & H3). split; [lia|]. rewrite copy_and_extend_spec by lia.
    by rewrite (proj2 (Z.ltb_lt _ _)), H3 by lia.
  - intros (H1 & H2). rewrite copy_and_extend_spec in H2 by lia.
    apply andb_true_iff in H2 as [H2%Z.ltb_lt H3]. split_and!; [lia..|done].
Qed.

Lemma last_bit_ok h v S : bitmap_rep h v S →
  wp (last_bit v) (λ r h', h' = h ∧ match r with
    | Some i => i ∈ S ∧ ∀ j, j ∈ S → j ≤ i
    | None => S = ∅
    end) h.
Proof.
  intros [Hl (w & Hw & HS)]. unfold last_bit, found_index, bitmap_len. apply wp_bind.
  eapply wp_deref; [done|]. apply wp_ret. split; [done|].
  destruct (find_last_bit_spec w (nbits v) _ eq_refl) as [(H1 & H2 & H3)|[-> H3]].
  - rewrite (proj2 (Z.leb_gt _ _)) by lia. split; [by apply HS|]. intros j [Hj1 Hj2]%HS.
    destruct (decide (j ≤ _find_last_bit w (nbits v))) as [|Hgt]; [done|].
    rewrite H3 in Hj2 by lia. done.
  - rewrite Z.leb_refl. apply set_eq. intros i. split; [|set_solver]. intros [Hi1 Hi2]%HS.
    by rewrite H3 in Hi2.
Qed.

(** The least index from [start] on that is in, respectively not in, the set. *)
Lemma next_bit_ok hd h v S start : bitmap_rep h v S → 0 ≤ start → (hd = true → start < nbits v) →
  wp (next_bit hd v start) (λ r h', h' = h ∧ match r with
    | Some i => start ≤ i < nbits v ∧ i ∈ S ∧ ∀ j, start ≤ j < i → j ∉ S
    | None => ∀ j, start ≤ j → j ∉ S
    end) h.
Proof.
  intros [Hl (w & Hw & HS)] Hs Hhd. unfold next_bit, bitmap_assert, found_index, bitmap_len.
  assert (hd && negb (start <? nbits v) = false) as ->.
  { destruct hd; [|done]. by rewrite (proj2 (Z.ltb_lt _ _)) by auto. }
  apply wp_bind. eapply wp_deref; [done|]. apply wp_ret. split; [done|].
  destruct (find_next_bit_spec w (nbits v) start _ Hs eq_refl) as [(H1 & H2 & H3)|[-> H3]].
  - rewrite (proj2 (Z.leb_gt _ _)) by lia. split; [done|]. split; [apply HS; split; [lia|done]|].
    intros j Hj [_ Hj2]%HS. by rewrite H3 in Hj2.
  - rewrite Z.leb_refl. intros j Hj [Hj1 Hj2]%HS. rewrite H3 in Hj2; [done|lia].
Qed.

Lemma next_zero_bit_ok hd h v S start : bitmap_rep h v S → 0 ≤ start → (hd = true → start < nbits v) →
  wp (next_zero_bit hd v start) (λ r h', h' = h ∧ match r with
    | Some i => start ≤ i < nbits v ∧ (i ∉ S) ∧ ∀ j, start ≤ j < i → j ∈ S
    | None => ∀ j, start ≤ j < nbits v → j ∈ S
    end) h.
Proof.
  intros [Hl (w & Hw & HS)] Hs Hhd. unfold next_zero_bit, bitmap_assert, found_index, bitmap_len.
  assert (hd && negb (start <? nbits v) = false) as ->.
  { destruct hd; [|done]. by rewrite (proj2 (Z.ltb_lt _ _)) by auto. }
  apply wp_bind. eapply wp_deref; [done|]. apply wp_ret. split; [done|].
  destruct (find_next_zero_bit_spec w (nbits v) start _ Hs eq_refl) as [(H1 & H2 & H3)|[-> H3]].
  - rewrite (proj2 (Z.leb_gt _ _)) by lia. split; [done|].
    split; [intros [_ Hb]%HS; by rewrite H2 in Hb|].
    intros j Hj. apply HS. split; [lia|by apply H3].
  - rewrite Z.leb_refl. intros j Hj. apply HS. split; [lia|by apply H3].
Qed.

Lemma bitmap_drop_ok h v S : bitmap_rep h v S →
  wp (bitmap_drop v) (λ _ h', h' = match bowned v with Some p => delete p h | None => h end) h.
Proof.
  intros [_ (w & Hw & _)]. unfold bitmap_drop, bowned, words in *.
  destruct (repr v) as [w'|p], (nbits v <=? MAX_INLINE_LEN); simplify_eq; [by apply wp_ret|].
  apply wp_bind, wp_get. destruct (h !! p); [|done]. by apply wp_put.
Qed.

(** Another bitmap is unaffected by a change to blocks it does not own. *)
Lemma bitmap_rep_frame h h' v S :
  bitmap_rep h v S → (∀ p, bowned v = Some p → h' !! p = h !! p) → bitmap_rep h' v S.
Proof.
  intros [Hl (w & Hw & HS)] Hf. apply (rep_intro _ _ w); [done| |done].
  unfold words, bowned in *. destruct (repr v) as [w'|p], (nbits v <=? MAX_INLINE_LEN); try done.
  by rewrite Hf.
Qed.
End Specs.

(** ** A reference instance of the bit operations *)

Fixpoint search_up (f : Z → bool) (start : Z) (n : nat) : option Z :=
  match n with O => None | S n => if f start then Some start else search_up f (start + 1) n end.
Fixpoint search_down (f : Z → bool) (n : nat) : option Z :=
  match n with O => None | S n => if f (Z.of_nat n) then Some (Z.of_nat n) else search_down f n end.

Lemma search_up_ok f n : ∀ start, match search_up f start n with
  | Some r => start ≤ r < start + Z.of_nat n ∧ f r = true ∧ ∀ j, start ≤ j < r → f j = false
  | None => ∀ j, start ≤ j < start + Z.of_nat n → f j = false
  end.
Proof.
  induction n as [|n IH]; intros start; cbn [search_up]; [intros j Hj; lia|].
  destruct (f start) eqn:E; [split_and!; [lia..|done|intros j Hj; lia]|].
  specialize (IH (start + 1)). destruct (search_up f (start + 1) n) as [r|].
  - destruct IH as (H1 & H2 & H3). split_and!; [lia..|done|]. intros j Hj.
    destruct (decide (j = start)) as [->|]; [done|]. apply H3. lia.
  - intros j Hj. destruct (decide (j = start)) as [->|]; [done|]. apply IH. lia.
Qed.

Lemma search_down_ok f n : match search_down f n with
  | Some r => 0 ≤ r < Z.of_nat n ∧ f r = true ∧ ∀ j, r < j < Z.of_nat n → f j = false
  | None => ∀ j, 0 ≤ j < Z.of_nat n → f j = false
  end.
Proof.
  induction n as [|n IH]; cbn [search_down]; [intros j Hj; lia|].
  destruct (f (Z.of_nat n)) eqn:E; [split_and!; [lia..|done|intros j Hj; lia]|].
  destruct (search_down f n) as [r|].
  - destruct IH as (H1 & H2 & H3). split_and!; [lia..|done|]. intros j Hj.
    destruct (decide (j = Z.of_nat n)) as [->|]; [done|]. apply H3. lia.
  - intros j Hj. destruct (decide (j = Z.of_nat n)) as [->|]; [done|]. apply IH. lia.
Qed.

(** [bitmap_zalloc] refuses more than [limit] bits. *)
Definition ref_bitops (limit : Z) : BitOps := {|
  k_set_bit := Z.setbit;
  k_clear_bit := Z.clearbit;
  k_set_bit_atomic := Z.setbit;
  k_clear_bit_atomic := Z.clearbit;
  bitmap_copy_and_extend _ src count _ := Z.land src (Z.ones count);
  _find_last_bit m size := default size (search_down (Z.testbit m) (Z.to_nat size));
  _find_next_bit m size start :=
    default size (search_up (Z.testbit m) start (Z.to_nat (size - start)));
  _find_next_zero_bit m size start :=
    default size (search_up (λ i, negb (Z.testbit m i)) start (Z.to_nat (size - start)));
  bitmap_zalloc h n _ := if n <=? limit then Some (1 + max_key h) else None;
  get_random_bytes w n := Z.lxor w (2 ^ (8 * n) / 3);
|}.

#[export] Instance ref_bitops_spec limit : @BitOpsSpec (ref_bitops limit).
Proof.
  split; simpl.
  - intros m i j Hi. by rewrite Z.setbit_eqb.
  - intros m i j Hi. rewrite Z.clearbit_eqb by done. apply andb_comm.
  - done.
  - done.
  - intros _ src count size j Hj Hc. rewrite Z.land_spec. destruct (Z.ltb_spec j count).
    + rewrite Z.ones_spec_low by lia. simpl. by destruct (Z.testbit src j).
    + rewrite Z.ones_spec_high by lia. by rewrite andb_false_r.
  - intros m size r <-. pose proof (search_down_ok (Z.testbit m) (Z.to_nat size)) as H.
    destruct (search_down _ _) as [r|]; simpl; [left|right].
    + destruct H as (H1 & H2 & H3). split_and!; [lia..|done|]. intros j Hj. apply H3. lia.
    + split; [done|]. intros j Hj. apply H. lia.
  - intros m size start r Hs <-. pose proof (search_up_ok (Z.testbit m) (Z.to_nat (size - start)) start) as H.
    destruct (search_up _ _ _) as [r|]; simpl; [left|right].
    + destruct H as (H1 & H2 & H3). split_and!; [lia..|done|done].
    + split; [done|]. intros j Hj. apply H. lia.
  - intros m size start r Hs <-.
    pose proof (search_up_ok (λ i, negb (Z.testbit m i)) (Z.to_nat (size - start)) start) as H.
    destruct (search_up _ _ _) as [r|]; simpl; [left|right].
    + destruct H as (H1 & H2%negb_true_iff & H3). split_and!; [lia..|done|].
      intros j Hj. by apply negb_false_iff, H3.
    + split; [done|]. intros j Hj. apply negb_false_iff, H. lia.
  - intros h n fl p Hp. destruct (n <=? limit); [|done]. injection Hp as <-.
    pose proof (foldr_max_nonneg (map_to_list h).*1) as Hm. fold (max_key h) in Hm.
    split; [|unfold null; lia]. destruct (h !! (1 + max_key h)) eqn:E; [|done]. apply max_key_ge in E. lia.
Qed.

(** ** One operation against the set *)

Inductive bop :=
  BSet (i : Z) | BClear (i : Z) | BSetAtomic (i : Z) | BClearAtomic (i : Z) | BLast | BNext (i : Z) | BNextZero (i : Z) | BRandom.

(** The index that is range-checked. *)
Definition bop_index (o : bop) : option Z :=
  match o with
  | BSet i | BClear i | BSetAtomic i | BClearAtomic i | BNext i | BNextZero i => Some i
  | BLast | BRandom => None
  end.

Definition in_range (n : Z) (o : bop) : bool :=
  match bop_index o with Some i => i <? n | None => true end.

Definition bexec `{BitOps} (hardened : bool) (v : BitmapVec) (o : bop) :
    M (gmap Z BMem) (BitmapVec * option Z) :=
  match o with
  | BSet i => v' ← set_bit hardened v i; mret (v', None)
  | BClear i => v' ← clear_bit hardened v i; mret (v', None)
  | BSetAtomic i => v' ← set_bit_atomic hardened v i; mret (v', None)
  | BClearAtomic i => v' ← clear_bit_atomic hardened v i; mret (v', None)
  | BLast => r ← last_bit v; mret (v, r)
  | BNext i => r ← next_bit hardened v i; mret (v, r)
  | BNextZero i => r ← next_zero_bit hardened v i; mret (v, r)
  | BRandom => v' ← fill_random v; mret (v', None)
  end.

Definition set_op (i : Z) (o : bop) : Prop := o = BSet i ∨ o = BSetAtomic i.
Definition clear_op (i : Z) (o : bop) : Prop := o = BClear i ∨ o = BClearAtomic i.

(** The operations on a set of indices below [n]. *)
Inductive bstep (n : Z) (S : gset Z) : bop → option Z → gset Z → Prop :=
| bs_set i o : set_op i o → i < n → bstep n S o None ({[i]} ∪ S)
| bs_set_out i o : set_op i o → n ≤ i → bstep n S o None S
| bs_clear i o : clear_op i o → i < n → bstep n S o None (S ∖ {[i]})
| bs_clear_out i o : clear_op i o → n ≤ i → bstep n S o None S
| bs_last i : i ∈ S → (∀ j, j ∈ S → j ≤ i) → bstep n S BLast (Some i) S
| bs_last_none : S = ∅ → bstep n S BLast None S
| bs_next s i : s ≤ i < n → i ∈ S → (∀ j, s ≤ j < i → j ∉ S) → bstep n S (BNext s) (Some i) S
| bs_next_none s : (∀ j, s ≤ j → j ∉ S) → bstep n S (BNext s) None S
| bs_zero s i : s ≤ i < n → i ∉ S → (∀ j, s ≤ j < i → j ∈ S) → bstep n S (BNextZero s) (Some i) S
| bs_zero_none s : (∀ j, s ≤ j < n → j ∈ S) → bstep n S (BNextZero s) None S
| bs_random S' : (∀ i, i ∈ S' → 0 ≤ i < n) → bstep n S BRandom None S'.

Section Refinement.
Context `{BOs : BitOpsSpec}.

Lemma mutated_touches h v v' (S : gset Z) h' : mutated h v S v' h' →
  bitmap_rep h' v' S ∧ nbits v' = nbits v ∧ bowned v' = bowned v ∧ touches v h h'.
Proof. done. Qed.

Lemma touches_refl v h : touches v h h.
Proof. by split. Qed.

(** The two ways to set and to clear a bit. *)
Lemma bexec_set hd h v S i o : bitmap_rep h v S → 0 ≤ i → set_op i o → hd && negb (i <? nbits v) = false →
  wp (bexec hd v o) (λ out h', ∃ S', bstep (nbits v) S o (snd out) S' ∧ mutated h v S' (fst out) h') h.
Proof.
  intros Hr Hi Ho Hb. assert (mutated h v S v h) as Hsame by (split_and!; [done..|apply touches_refl]).
  assert (bexec hd v o h = (v' ← set_bit hd v i; mret (v', None)) h) as E.
  { destruct Ho as [-> | ->]; [done|]. simpl. unfold mbind, M_bind. by rewrite (proj1 (atomic_same hd v i h)). }
  unfold wp. rewrite E. apply wp_bind. destruct (set_bit_ok hd h v S i Hr Hi) as [H1 H2].
  destruct (Z.ltb_spec i (nbits v)) as [Hlt|Hge].
  - eapply wp_mono; [by apply H1|]. intros v' h' Hm. apply wp_ret. eexists. by split; [econstructor|].
  - destruct hd; [done|]. eexists _, _. split; [by apply H2|]. apply wp_ret. eexists. by split; [eapply bs_set_out|].
Qed.

Lemma bexec_clear hd h v S i o : bitmap_rep h v S → 0 ≤ i → clear_op i o → hd && negb (i <? nbits v) = false →
  wp (bexec hd v o) (λ out h', ∃ S', bstep (nbits v) S o (snd out) S' ∧ mutated h v S' (fst out) h') h.
Proof.
  intros Hr Hi Ho Hb. assert (mutated h v S v h) as Hsame by (split_and!; [done..|apply touches_refl]).
  assert (bexec hd v o h = (v' ← clear_bit hd v i; mret (v', None)) h) as E.
  { destruct Ho as [-> | ->]; [done|]. simpl. unfold mbind, M_bind. by rewrite (proj2 (atomic_same hd v i h)). }
  unfold wp. rewrite E. apply wp_bind. destruct (clear_bit_ok hd h v S i Hr Hi) as [H1 H2].
  destruct (Z.ltb_spec i (nbits v)) as [Hlt|Hge].
  - eapply wp_mono; [by apply H1|]. intros v' h' Hm. apply wp_ret. eexists. by split; [eapply bs_clear|].
  - destruct hd; [done|]. eexists _, _. split; [by apply H2|]. apply wp_ret. eexists. by split; [eapply bs_clear_out|].
Qed.

Lemma bexec_ok hd h v S o : bitmap_rep h v S → (∀ i, bop_index o = Some i → 0 ≤ i) →
  hd && negb (in_range (nbits v) o) = false →
  wp (bexec hd v o) (λ out h', ∃ S', bstep (nbits v) S o (snd out) S' ∧ mutated h v S' (fst out) h') h.
Proof.
  intros Hr Hi Hb.
  assert (mutated h v S v h) as Hsame by (split_and!; [done..|apply touches_refl]).
  unfold in_range in Hb. destruct o as [i|i|i|i| |i|i|]; simpl in Hi, Hb;
    [by eapply (bexec_set hd h v S i); [done|auto|left|]|by eapply (bexec_clear hd h v S i); [done|auto|left|]
    |by eapply (bexec_set hd h v S i); [done|auto|right|]|by eapply (bexec_clear hd h v S i); [done|auto|right|]|..];
    apply wp_bind.
  - eapply wp_mono; [by apply last_bit_ok|]. intros [i|] h' [-> Hl]; apply wp_ret; exists S; (split; [|done]).
    + destruct Hl. by constructor.
    + by constructor.
  - eapply wp_mono; [apply (next_bit_ok hd h v S i Hr); [by apply Hi|]|].
    { intros ->. destruct (Z.ltb_spec i (nbits v)); done. }
    intros [j|] h' [-> Hl]; apply wp_ret; exists S; (split; [|done]).
    + destruct Hl as (? & ? & ?). by constructor.
    + by constructor.
  - eapply wp_mono; [apply (next_zero_bit_ok hd h v S i Hr); [by apply Hi|]|].
    { intros ->. destruct (Z.ltb_spec i (nbits v)); done. }
    intros [j|] h' [-> Hl]; apply wp_ret; exists S; (split; [|done]).
    + destruct Hl as (? & ? & ?). by constructor.
    + by constructor.
  - eapply wp_mono; [by apply (fill_random_ok h v S)|]. intros v' h' (S' & HS' & Hm). apply wp_ret. exists S'.
    split; [by constructor|done].
Qed.

Lemma bexec_panic h v o : in_range (nbits v) o = false → bexec true v o h = Panic.
Proof.
  unfold in_range. destruct o as [i|i|i|i| |i|i|]; simpl; try done; intros E;
    unfold set_bit, clear_bit, set_bit_atomic, clear_bit_atomic, next_bit, next_zero_bit, bitmap_assert_return, bitmap_assert,
      bitmap_len, mbind, M_bind; by rewrite E.
Qed.
End Refinement.

(** ** Programs over several bitmaps *)

Inductive BmOp :=
| PNew (k : nat) (n : Z) (fl : Flags)
| PInline (k : nat)
| POp (k : nat) (o : bop)
| PCopy (k k' : nat)          (* from [k'] to [k] *)
| PDrop (k : nat).

Inductive BmOut := PNone | PFail | PRet (r : option Z).

Section Machine.
Context `{BO : BitOps} (hardened : bool).
Local Abbreviation BM := (M (gmap Z BMem)).

(** An operation on a name that is not bound (or bound already) does not type-check: it is skipped. *)
Definition bm_step (t : gmap nat BitmapVec) (op : BmOp) : BM (gmap nat BitmapVec * BmOut) :=
  match op with
  | PNew k n fl =>
      if t !! k is Some _ then mret (t, PNone)
      else
        r ← bitmap_new n fl;
        match r with Ok v => mret (<[k := v]> t, PNone) | Err _ => mret (t, PFail) end
  | PInline k => if t !! k is Some _ then mret (t, PNone) else mret (<[k := new_inline]> t, PNone)
  | POp k o =>
      if t !! k is Some v then out ← bexec hardened v o; mret (<[k := fst out]> t, PRet (snd out)) else mret (t, PNone)
  | PCopy k k' =>
      match t !! k, t !! k' with
      | Some v, Some src => if decide (k = k') then mret (t, PNone)
                            else v' ← copy_and_extend v src; mret (<[k := v']> t, PNone)
      | _, _ => mret (t, PNone)
      end
  | PDrop k => if t !! k is Some v then _ ← bitmap_drop v; mret (delete k t, PNone) else mret (t, PNone)
  end.

Fixpoint bm_run (t : gmap nat BitmapVec) (ops : list BmOp) : BM (gmap nat BitmapVec * list BmOut) :=
  match ops with
  | [] => mret (t, [])
  | op :: ops => o ← bm_step t op; r ← bm_run (fst o) ops; mret (fst r, snd o :: snd r)
  end.
End Machine.

(** The machine without memory: a length and a set for each name. *)
Abbreviation BSpec := (gmap nat (Z * gset Z)).

Definition bm_skips (A : BSpec) (op : BmOp) : bool :=
  match op with
  | PNew k _ _ | PInline k => bool_decide (is_Some (A !! k))
  | POp k _ | PDrop k => bool_decide (A !! k = None)
  | PCopy k k' => bool_decide (A !! k = None ∨ A !! k' = None ∨ k = k')
  end.

Inductive bm_spec (hardened : bool) (A : BSpec) : BmOp → BSpec → BmOut → Prop :=
| ms_new k n fl : A !! k = None → n ≤ MAX_LEN → bm_spec hardened A (PNew k n fl) (<[k := (n, ∅)]> A) PNone
| ms_fail k n fl : A !! k = None → MAX_INLINE_LEN < n → bm_spec hardened A (PNew k n fl) A PFail
| ms_inline k : A !! k = None → bm_spec hardened A (PInline k) (<[k := (MAX_INLINE_LEN, ∅)]> A) PNone
| ms_op k o n S r S' : A !! k = Some (n, S) → hardened && negb (in_range n o) = false → bstep n S o r S' →
    bm_spec hardened A (POp k o) (<[k := (n, S')]> A) (PRet r)
| ms_copy k k' n S n' T : k ≠ k' → A !! k = Some (n, S) → A !! k' = Some (n', T) →
    bm_spec hardened A (PCopy k k') (<[k := (n, filter (λ i, i < n) T)]> A) PNone
| ms_drop k a : A !! k = Some a → bm_spec hardened A (PDrop k) (delete k A) PNone
| ms_skip op : bm_skips A op = true → bm_spec hardened A op A PNone.

Inductive bm_exec (hardened : bool) : BSpec → list BmOp → BSpec → list BmOut → Prop :=
| me_nil A : bm_exec hardened A [] A []
| me_cons A op A' out ops A'' outs : bm_spec hardened A op A' out → bm_exec hardened A' ops A'' outs →
    bm_exec hardened A (op :: ops) A'' (out :: outs).

(** An index out of range, which the hardened configuration catches. *)
Definition out_of_range (A : BSpec) (op : BmOp) : Prop :=
  ∃ k o n S, op = POp k o ∧ A !! k = Some (n, S) ∧ in_range n o = false.

Definition bm_op_ok (op : BmOp) : Prop :=
  match op with PNew _ n _ => 0 ≤ n | POp _ o => ∀ i, bop_index o = Some i → 0 ≤ i | _ => True end.

Record bm_rep (h0 : gmap Z BMem) (t : gmap nat BitmapVec) (A : BSpec) (h : gmap Z BMem) : Prop := {
  bm_vals : ∀ k, option_Forall2 (λ v a, nbits v = a.1 ∧ bitmap_rep h v a.2) (t !! k) (A !! k);
  bm_own : ∀ k k' v v' p, t !! k = Some v → t !! k' = Some v' → bowned v = Some p → bowned v' = Some p → k = k';
  bm_fresh : ∀ k v p, t !! k = Some v → bowned v = Some p → h0 !! p = None;
  bm_frame : ∀ p, (∀ k v, t !! k = Some v → bowned v ≠ Some p) → h !! p = h0 !! p
}.

Section ProgramThms.
Context `{BOs : BitOpsSpec} (hd : bool).
Implicit Types (t : gmap nat BitmapVec) (A : BSpec) (h : gmap Z BMem).

Lemma bm_lookup h0 t A h k : bm_rep h0 t A h →
  (t !! k = None ∧ A !! k = None) ∨
  (∃ v n S, t !! k = Some v ∧ A !! k = Some (n, S) ∧ nbits v = n ∧ bitmap_rep h v S).
Proof.
  intros Hr. pose proof (bm_vals _ _ _ _ Hr k) as Hv0. inversion Hv0 as [v [n S] [Hn Hv] Ev Ea|]; [right|by left].
  by exists v, n, S.
Qed.

(** A new bitmap, with storage that no other one has. *)
Lemma bm_insert h0 t A h k v h' : bm_rep h0 t A h → t !! k = None → bitmap_rep h' v ∅ →
  (∀ p, bowned v = Some p → h !! p = None ∧ delete p h' = h) → (bowned v = None → h' = h) →
  bm_rep h0 (<[k := v]> t) (<[k := (nbits v, ∅)]> A) h'.
Proof.
  intros Hr Hk Hv Hown Hin. assert (∀ p, bowned v ≠ Some p → h' !! p = h !! p) as Hsame.
  { intros p Hp. destruct (bowned v) as [q|]; [|by rewrite Hin]. destruct (Hown q eq_refl) as [_ <-].
    rewrite lookup_delete_ne by congruence. done. }
  assert (∀ j w p, t !! j = Some w → bowned w = Some p → is_Some (h !! p)) as Hlive.
  { intros j w p Hj Hp. destruct (bm_lookup _ _ _ _ j Hr) as [[? _]|(v1 & n & S & E & _ & _ & [_ (x & Hx & _)])]; [congruence|].
    rewrite Hj in E. injection E as <-. unfold words, bowned in *. destruct (nbits w <=? MAX_INLINE_LEN); [done|].
    destruct (repr w); [done|]. injection Hp as ->. destruct (h !! p); [by eexists|done]. }
  assert (∀ j w p, t !! j = Some w → bowned w = Some p → bowned v ≠ Some p) as Hdis.
  { intros j w p Hj Hp Hq. destruct (Hlive _ _ _ Hj Hp) as [b Hb]. destruct (Hown p Hq) as [? _]. congruence. }
  split.
  - intros j. destruct (decide (j = k)) as [->|Hne]; [rewrite !lookup_insert_eq; by constructor|].
    rewrite !lookup_insert_ne by done. destruct (bm_lookup _ _ _ _ j Hr) as [[-> ->]|(w & n & S & Hj & -> & Hn & Hw)]; [constructor|].
    rewrite Hj. constructor. split; [done|]. eapply bitmap_rep_frame; [exact Hw|]. intros p Hp. apply Hsame. by eapply Hdis.
  - intros j j' w w' p [[<- <-]|[_ Hj]]%lookup_insert_Some [[<- <-]|[_ Hj']]%lookup_insert_Some Hp Hp';
      [done|by destruct (Hdis j' w' p)|by destruct (Hdis j w p)|by eapply (bm_own _ _ _ _ Hr)].
  - intros j w p Hj Hp. apply lookup_insert_Some in Hj as [[<- <-]|[Hne Hj]]; [|by eapply (bm_fresh _ _ _ _ Hr)].
    destruct (Hown p Hp) as [Hn _]. rewrite <- (bm_frame _ _ _ _ Hr); [done|]. intros j w Hj Hq.
    by destruct (Hdis j w p).
  - intros p Hp. rewrite Hsame by (apply (Hp k); by rewrite lookup_insert_eq). apply (bm_frame _ _ _ _ Hr).
    intros j w Hj. apply (Hp j). rewrite lookup_insert_ne; [done|congruence].
Qed.

(** A bitmap changes: its storage is its own. *)
Lemma bm_update h0 t A h k v v' S' h' : bm_rep h0 t A h → t !! k = Some v → mutated h v S' v' h' →
  bm_rep h0 (<[k := v']> t) (<[k := (nbits v, S')]> A) h'.
Proof.
  intros Hr Hk (Hv & Hn & Ho & Hf & _). split.
  - intros j. destruct (decide (j = k)) as [->|Hne]; [rewrite !lookup_insert_eq; by constructor|].
    rewrite !lookup_insert_ne by done. destruct (bm_lookup _ _ _ _ j Hr) as [[-> ->]|(w & n & S & Hj & -> & Hnw & Hw)]; [constructor|].
    rewrite Hj. constructor. split; [done|]. eapply bitmap_rep_frame; [exact Hw|]. intros p Hp. apply Hf. intros Hq.
    by destruct (bm_own _ _ _ _ Hr j k w v p).
  - intros j j' w w' p [[<- <-]|[_ Hj]]%lookup_insert_Some [[<- <-]|[_ Hj']]%lookup_insert_Some Hp Hp';
      rewrite ?Ho in *; [done|by eapply (bm_own _ _ _ _ Hr)..].
  - intros j w p [[<- <-]|[_ Hj]]%lookup_insert_Some Hp; rewrite ?Ho in *; by eapply (bm_fresh _ _ _ _ Hr).
  - intros p Hp. rewrite Hf by (rewrite <- Ho; apply (Hp k); by rewrite lookup_insert_eq). apply (bm_frame _ _ _ _ Hr).
    intros j w Hj. destruct (decide (j = k)) as [->|Hne]; [|apply (Hp j); by rewrite lookup_insert_ne].
    rewrite Hk in Hj. injection Hj as <-. rewrite <- Ho. apply (Hp k). by rewrite lookup_insert_eq.
Qed.

(** A bitmap goes away with its storage. *)
Lemma bm_delete h0 t A h k v : bm_rep h0 t A h → t !! k = Some v →
  bm_rep h0 (delete k t) (delete k A) (match bowned v with Some p => delete p h | None => h end).
Proof.
  intros Hr Hk. set (h' := match bowned v with Some p => _ | None => h end).
  assert (∀ p, bowned v ≠ Some p → h' !! p = h !! p) as Hsame.
  { intros p Hp. unfold h'. destruct (bowned v); [|done]. rewrite lookup_delete_ne; [done|congruence]. }
  split.
  - intros j. destruct (decide (j = k)) as [->|Hne]; [rewrite !lookup_delete_eq; constructor|].
    rewrite !lookup_delete_ne by done. destruct (bm_lookup _ _ _ _ j Hr) as [[-> ->]|(w & n & S & Hj & -> & Hnw & Hw)]; [constructor|].
    rewrite Hj. constructor. split; [done|]. eapply bitmap_rep_frame; [exact Hw|]. intros p Hp. apply Hsame. intros Hq.
    by destruct (bm_own _ _ _ _ Hr j k w v p).
  - intros j j' w w' p [_ Hj]%lookup_delete_Some [_ Hj']%lookup_delete_Some. by eapply (bm_own _ _ _ _ Hr).
  - intros j w p [_ Hj]%lookup_delete_Some. by eapply (bm_fresh _ _ _ _ Hr).
  - intros p Hp. destruct (decide (bowned v = Some p)) as [Hq|Hq].
    + unfold h'. rewrite Hq, lookup_delete_eq. symmetry. by eapply (bm_fresh _ _ _ _ Hr).
    + rewrite Hsame by done. apply (bm_frame _ _ _ _ Hr). intros j w Hj. destruct (decide (j = k)) as [->|Hne].
      * rewrite Hk in Hj. by injection Hj as <-.
      * apply (Hp j). by rewrite lookup_delete_ne.
Qed.
Lemma bm_step_ok h0 t A h op : bm_rep h0 t A h → bm_op_ok op → ¬ (hd = true ∧ out_of_range A op) →
  wp (bm_step hd t op) (λ out h', ∃ A', bm_spec hd A op A' (snd out) ∧ bm_rep h0 (fst out) A' h') h.
Proof.
  intros Hr Hop Hno. assert (bm_skips A op = true → wp (mret (t, PNone)) (λ out h', ∃ A',
    bm_spec hd A op A' (snd out) ∧ bm_rep h0 (fst out) A' h') h) as Hskip.
  { intros Hs. apply wp_ret. exists A. split; [by apply ms_skip|done]. }
  destruct op as [k n fl|k|k o|k k'|k]; cbn [bm_step] in *;
    destruct (bm_lookup _ _ _ _ k Hr) as [[Ht HA]|(v & m & S & Ht & HA & Hm & Hv)]; rewrite Ht;
    try (apply Hskip; cbn [bm_skips]; rewrite bool_decide_eq_true, HA; by eauto).
  - apply wp_bind. eapply wp_mono; [by apply bitmap_new_ok|]. intros [v|e] h'; simpl.
    + intros (Hv & Hn & Hmax & Hown & Hin). apply wp_ret. exists (<[k := (n, ∅)]> A). split; [by apply ms_new|].
      rewrite <- Hn. by eapply bm_insert.
    + intros [-> Hn]. apply wp_ret. exists A. split; [by apply ms_fail|done].
  - apply wp_ret. exists (<[k := (MAX_INLINE_LEN, ∅)]> A). split; [by apply ms_inline|].
    eapply (bm_insert h0 t A h k new_inline h); [done..| |done|done].
    apply (rep_intro _ _ 0); [vm_compute; split; congruence|done|]. intros i. rewrite Z.bits_0. set_solver.
  - assert (hd && negb (in_range (nbits v) o) = false) as Hb.
    { apply andb_false_iff. destruct (in_range (nbits v) o) eqn:E; [by right|]. left. apply not_true_is_false. intros Hhd.
      apply Hno. split; [done|]. exists k, o, m, S. split; [done|]. split; [done|]. by rewrite <- Hm. }
    apply wp_bind. eapply wp_mono; [by apply (bexec_ok hd h v S o)|]. intros [v' r] h' (S' & Hs & Hmu). apply wp_ret.
    exists (<[k := (nbits v, S')]> A). split; [|by eapply bm_update]. rewrite Hm in *. by eapply ms_op.
  - destruct (bm_lookup _ _ _ _ k' Hr) as [[Ht' HA']|(v' & m' & S' & Ht' & HA' & Hm' & Hv')]; rewrite Ht'.
    { apply Hskip. cbn [bm_skips]. rewrite bool_decide_eq_true, HA'. tauto. }
    case_decide as Hk; [apply Hskip; cbn [bm_skips]; rewrite bool_decide_eq_true; tauto|].
    apply wp_bind. eapply wp_mono; [by apply (copy_and_extend_ok h v S v' S')|]. intros w h' Hmu. apply wp_ret.
    exists (<[k := (nbits v, filter (λ i, i < nbits v) S')]> A). split; [|by eapply bm_update].
    rewrite Hm. by eapply ms_copy.
  - apply wp_bind. eapply wp_mono; [by apply (bitmap_drop_ok h v S)|]. intros [] h' ->. apply wp_ret.
    exists (delete k A). split; [by eapply ms_drop|]. by apply bm_delete.
Qed.

Lemma bm_step_panics h0 t A h op : bm_rep h0 t A h → hd = true → out_of_range A op → bm_step hd t op h = Panic.
Proof.
  intros Hr -> (k & o & n & S & -> & HA & Ho). simpl.
  destruct (bm_lookup _ _ _ _ k Hr) as [[_ ?]|(v & m & S' & -> & HA' & Hm & Hv)]; [congruence|].
  unfold mbind, M_bind. rewrite bexec_panic; [done|]. rewrite HA in HA'. injection HA' as <- <-. by rewrite Hm.
Qed.

Lemma in_out_range A op : out_of_range A op ∨ ¬ out_of_range A op.
Proof.
  destruct op as [| |k o| |]; try (right; intros (? & ? & ? & ? & ? & _); done).
  destruct (A !! k) as [[n S]|] eqn:E; [|right; intros (? & ? & ? & ? & [= <- <-] & ? & _); congruence].
  destruct (in_range n o) eqn:Er; [right|left; by exists k, o, n, S].
  intros (? & ? & ? & ? & [= <- <-] & ? & ?). congruence.
Qed.

Lemma bm_run_ok h0 ops : ∀ t A h, bm_rep h0 t A h → Forall bm_op_ok ops →
  (∃ t' outs h' A', bm_run hd t ops h = Done ((t', outs), h') ∧ bm_exec hd A ops A' outs ∧ bm_rep h0 t' A' h') ∨
  (hd = true ∧ bm_run hd t ops h = Panic ∧
   ∃ ops1 op ops2 A1 outs, ops = ops1 ++ op :: ops2 ∧ bm_exec hd A ops1 A1 outs ∧ out_of_range A1 op).
Proof.
  induction ops as [|op ops IH]; intros t A h Hr Hops; cbn [bm_run].
  { left. eexists _, _, _, A. split; [done|]. split; [constructor|done]. }
  inversion_clear Hops as [|?? Hop Hops']. unfold mbind, M_bind.
  destruct (decide (hd = true)) as [Hhd|Hhd]; [destruct (in_out_range A op) as [Hout|Hin]|].
  - right. split; [done|]. rewrite (bm_step_panics _ _ _ _ _ Hr Hhd Hout). split; [done|].
    exists [], op, ops, A, []. split; [done|]. split; [constructor|done].
  - destruct (bm_step_ok _ _ _ _ _ Hr Hop ltac:(tauto)) as ([t1 o1] & h1 & -> & A1 & Hs & Hr1). simpl in *.
    destruct (IH _ _ _ Hr1 Hops') as [(t' & outs & h' & A' & -> & He & Hr')|(_ & -> & ops1 & op' & ops2 & A2 & outs & -> & He & Ho)].
    + left. eexists _, _, _, A'. split; [done|]. split; [by econstructor|done].
    + right. split; [done|]. split; [done|]. exists (op :: ops1), op', ops2, A2, (o1 :: outs).
      split; [done|]. split; [by econstructor|done].
  - destruct (bm_step_ok _ _ _ _ _ Hr Hop ltac:(tauto)) as ([t1 o1] & h1 & -> & A1 & Hs & Hr1). simpl in *.
    destruct (IH _ _ _ Hr1 Hops') as [(t' & outs & h' & A' & -> & He & Hr')|[? _]]; [|done].
    left. eexists _, _, _, A'. split; [done|]. split; [by econstructor|done].
Qed.
End ProgramThms.

Lemma bm_rep_empty h : bm_rep h ∅ ∅ h.
Proof. split; intros; try done. by rewrite !lookup_empty; constructor. Qed.


(** Every operation of a bitmap is the operation on the set of its indices,
    inline or on the heap alike: no access goes through the wrong variant of the
    union or past the allocation, other bitmaps are untouched, and the searches
    return the greatest, respectively the least matching, index. An index out of
    range is ignored (and finds nothing) in the default configuration, and panics
    in the hardened one, searches included. *)
Theorem bitmap_refines_set `{BOs : BitOpsSpec} hardened h v S o
    (Hr : bitmap_rep h v S) (Hi : ∀ i, bop_index o = Some i → 0 ≤ i) :
  if hardened && negb (in_range (nbits v) o) then bexec hardened v o h = Panic
  else ∃ v' r h' S', bexec hardened v o h = Done ((v', r), h') ∧ bstep (nbits v) S o r S' ∧
    bitmap_rep h' v' S' ∧ nbits v' = nbits v ∧ touches v h h'.
Proof.
  destruct (hardened && negb (in_range (nbits v) o)) eqn:E.
  - apply andb_true_iff in E as [-> E%negb_true_iff]. by apply bexec_panic.
  - destruct (bexec_ok hardened h v S o Hr Hi E) as ([v' r] & h' & He & S' & Hs & Hm & Hn & _ & Ht).
    by exists v', r, h', S'.
Qed.

Lemma bitmap_refines_set_witness :
  let BO := ref_bitops 1000 in
  (∃ v' r h' S', bexec false new_inline (BSet 3) ∅ = Done ((v', r), h') ∧ bstep 64 ∅ (BSet 3) r S' ∧
    bitmap_rep h' v' S' ∧ nbits v' = 64 ∧ touches new_inline ∅ h') ∧
  bexec true new_inline (BNext 64) ∅ = Panic.
Proof.
  assert (bitmap_rep ∅ new_inline ∅) as Hr.
  { apply (rep_intro _ _ 0); [vm_compute; split; congruence|reflexivity|].
    intros i. rewrite Z.bits_0. set_solver. }
  split.
  - apply (@bitmap_refines_set (ref_bitops 1000) _ false ∅ new_inline ∅ (BSet 3) Hr).
    intros i [= <-]. lia.
  - apply (@bitmap_refines_set (ref_bitops 1000) _ true ∅ new_inline ∅ (BNext 64) Hr).
    intros i [= <-]. lia.
Defined.

(** A program over an inline and a long bitmap, as in the tests of the source. *)
Definition demo_bm_ops : list BmOp :=
  [PNew 0 256 GFP_KERNEL; POp 0 (BSet 3); POp 0 (BSetAtomic 200); PNew 1 32 GFP_KERNEL; POp 1 (BSet 17); PCopy 0 1;
   POp 0 (BNext 0); POp 0 BLast; POp 0 (BNextZero 17); POp 0 (BClearAtomic 2048); PNew 2 (2 ^ 31) GFP_KERNEL;
   POp 0 BRandom; PDrop 1; PDrop 0].

