(* ===== verification/IdPool.v ===== *)
(** * The id pool ([rust/src/id_pool.rs])

    An [IdPool] hands out the unset bits of a bitmap and is resized in two steps,
    so that the new bitmap can be allocated while the lock around the pool is
    released: requests and allocations of one thread interleave with operations of
    others. The system below makes this explicit: any number of resizers may be
    outstanding, and an event either runs an operation on the locked pool or
    allocates a resizer. *)

From S2P Require Import Prelude Errors Alloc Bitmap.

(** ** Operations

    An [IdPool] and a [PoolResizer] are their bitmaps, a [ReallocRequest] is the
    number of ids. *)

Section Ops.
Context `{BO : BitOps} (hardened : bool).
Local Abbreviation BM := (M (gmap Z BMem)).

Definition request_realloc (num_ids : Z) (flags : Flags) : BM (result AllocError BitmapVec) :=
  new ←? bitmap_new num_ids flags; mret (Ok new).

Definition pool_new : BitmapVec := new_inline.

Definition pool_with_capacity (num_ids : Z) (flags : Flags) : BM (result AllocError BitmapVec) :=
  map ←? bitmap_new (Z.max num_ids MAX_INLINE_LEN) flags; mret (Ok map).

Definition pool_capacity (pool : BitmapVec) : Z := bitmap_len pool.

Definition shrink_request (pool : BitmapVec) : BM (option Z) :=
  let cap := pool_capacity pool in
  if cap <=? MAX_INLINE_LEN then mret None
  else
    b ← last_bit pool;
    match b with
    | None => mret (Some MAX_INLINE_LEN)
    | Some bit =>
        if cap / 4 <=? bit then mret None
        else mret (Some (Z.max MAX_INLINE_LEN (cap / 2)))
    end.

Definition pool_shrink (pool resizer : BitmapVec) : BM BitmapVec :=
  updated ← shrink_request pool;
  match updated with
  | None => _ ← bitmap_drop resizer; mret pool
  | Some num_ids =>
      if bitmap_len resizer <? num_ids then _ ← bitmap_drop resizer; mret pool
      else
        new ← copy_and_extend resizer pool;
        _ ← bitmap_drop pool;
        mret new
  end.

Definition grow_request (pool : BitmapVec) : BM (option Z) :=
  num_ids ← lift (umul (pool_capacity pool) 2);
  if MAX_LEN <? num_ids then mret None else mret (Some num_ids).

Definition pool_grow (pool resizer : BitmapVec) : BM BitmapVec :=
  if bitmap_len resizer <=? pool_capacity pool then _ ← bitmap_drop resizer; mret pool
  else
    new ← copy_and_extend resizer pool;
    _ ← bitmap_drop pool;
    mret new.

Definition find_unused_id (pool : BitmapVec) (offset : Z) : BM (option Z) :=
  next_zero_bit hardened pool offset.

Definition release_id (pool : BitmapVec) (id : Z) : BM BitmapVec := clear_bit hardened pool id.

(** [UnusedId]. *)
Definition as_u32 (id : Z) : Z := wrap 32 id.
Definition acquire (pool : BitmapVec) (id : Z) : BM (Z * BitmapVec) :=
  p ← set_bit hardened pool id; mret (id, p).
End Ops.

(** ** The system: a pool under a lock and its outstanding resizers *)

Inductive pevent :=
| EAcquire (offset : Z) | ERelease (id : Z)
| EGrowRequest (fl : Flags) | EShrinkRequest (fl : Flags)
| EGrow (k : nat) | EShrink (k : nat).

(** [sheld] is the set of ids that clients hold. *)
Record Sys := MkSys {
  sheap : gmap Z BMem; spool : BitmapVec; sres : list BitmapVec; sheld : gset Z
}.

Section System.
Context `{BO : BitOps} (hardened : bool).
Local Abbreviation PM := (M Sys).

Definition on_heap {A} (m : M (gmap Z BMem) A) : PM A := λ s,
  match m (sheap s) with
  | Done (a, h) => Done (a, MkSys h (spool s) (sres s) (sheld s))
  | Panic => Panic
  | UB => UB
  end.

Definition set_pool (p : BitmapVec) (s : Sys) : Sys := MkSys (sheap s) p (sres s) (sheld s).
Definition set_res (l : list BitmapVec) (s : Sys) : Sys := MkSys (sheap s) (spool s) l (sheld s).
Definition set_held (S : gset Z) (s : Sys) : Sys := MkSys (sheap s) (spool s) (sres s) S.

(** Allocates a resizer for a request, outside of the lock. *)
Definition allocate (req : option Z) (fl : Flags) : PM (option Z) :=
  match req with
  | None => mret None
  | Some n =>
      r ← on_heap (request_realloc n fl);
      match r with
      | Err _ => mret None
      | Ok v => _ ← modify (λ s, set_res (v :: sres s) s); mret (Some n)
      end
  end.

(** Takes the [k]-th resizer and runs a resize with it. *)
Definition resize_with (f : BitmapVec → BitmapVec → M (gmap Z BMem) BitmapVec) (k : nat) : PM (option Z) :=
  s ← get;
  match sres s !! k with
  | None => mret None
  | Some r =>
      _ ← modify (set_res (delete k (sres s)));
      p ← on_heap (f (spool s) r);
      _ ← modify (set_pool p);
      mret (Some (bitmap_len p))
  end.

Definition pexec (e : pevent) : PM (option Z) :=
  match e with
  | EAcquire offset =>
      s ← get;
      u ← on_heap (find_unused_id hardened (spool s) offset);
      match u with
      | None => mret None
      | Some id =>
          out ← on_heap (acquire hardened (spool s) id);
          _ ← modify (set_pool (snd out));
          _ ← modify (λ s, set_held ({[fst out]} ∪ sheld s) s);
          mret (Some (fst out))
      end
  | ERelease id =>
      s ← get;
      if bool_decide (id ∈ sheld s) then
        p ← on_heap (release_id hardened (spool s) id);
        _ ← modify (set_pool p);
        _ ← modify (λ s, set_held (sheld s ∖ {[id]}) s);
        mret (Some id)
      else mret None
  | EGrowRequest fl => s ← get; r ← on_heap (grow_request (spool s)); allocate r fl
  | EShrinkRequest fl => s ← get; r ← on_heap (shrink_request (spool s)); allocate r fl
  | EGrow k => resize_with pool_grow k
  | EShrink k => resize_with pool_shrink k
  end.

Fixpoint pexecs (es : list pevent) : PM (list (option Z)) :=
  match es with
  | [] => mret []
  | e :: es => r ← pexec e; rs ← pexecs es; mret (r :: rs)
  end.
End System.

(** Offsets a client may search from: any in the default configuration, and in
    the hardened one those below the least capacity of a pool. *)
Definition event_ok (hardened : bool) (e : pevent) : Prop :=
  match e with
  | EAcquire off => 0 ≤ off ∧ (hardened = true → off < MAX_INLINE_LEN)
  | _ => True
  end.

(** The contract: what each event may answer and do to the set of held ids. *)
Inductive istep (held : gset Z) : pevent → option Z → gset Z → Prop :=
| is_acquire off id : off ≤ id ≤ I32_MAX → id ∉ held → (∀ j, off ≤ j < id → j ∈ held) →
    istep held (EAcquire off) (Some id) ({[id]} ∪ held)
| is_acquire_none off : istep held (EAcquire off) None held
| is_release id : id ∈ held → istep held (ERelease id) (Some id) (held ∖ {[id]})
| is_release_none id : id ∉ held → istep held (ERelease id) None held
| is_grow_request fl r : istep held (EGrowRequest fl) r held
| is_shrink_request fl r : istep held (EShrinkRequest fl) r held
| is_grow k r : istep held (EGrow k) r held
| is_shrink k r : istep held (EShrink k) r held.

Inductive isteps : gset Z → list pevent → list (option Z) → gset Z → Prop :=
| iss_nil held : isteps held [] [] held
| iss_cons held e r held1 es rs held2 :
    istep held e r held1 → isteps held1 es rs held2 → isteps held (e :: es) (r :: rs) held2.

Section Specs.
Context `{BOs : BitOpsSpec}.
Implicit Types (s : Sys) (h : gmap Z BMem).

(** The heap blocks of some bitmaps. *)
Definition blocks (vs : list BitmapVec) : list Z := omap bowned vs.
#[local] Arguments blocks : simpl never.

(** The bits of the pool are the held ids, the resizers are empty bitmaps, and the
    heap consists of the distinct blocks of the pool and the resizers. *)
Record sys_inv (s : Sys) : Prop := {
  si_pool : bitmap_rep (sheap s) (spool s) (sheld s);
  si_cap : MAX_INLINE_LEN ≤ nbits (spool s);
  si_res v : v ∈ sres s → bitmap_rep (sheap s) v ∅;
  si_nodup : NoDup (blocks (spool s :: sres s));
  si_dom : dom (sheap s) = list_to_set (blocks (spool s :: sres s))
}.

Lemma wp_on_heap {A} (m : M (gmap Z BMem) A) (Q : A → Sys → Prop) s :
  wp m (λ a h, Q a (MkSys h (spool s) (sres s) (sheld s))) (sheap s) → wp (on_heap m) Q s.
Proof. intros (a & h & Hm & HQ). eexists a, _. unfold on_heap. by rewrite Hm. Qed.

Lemma blocks_cons v vs : blocks (v :: vs) = option_list (bowned v) ++ blocks vs.
Proof. unfold blocks. simpl. by destruct (bowned v). Qed.

Lemma blocks_in v vs p : v ∈ vs → bowned v = Some p → p ∈ blocks vs.
Proof. intros Hv Hp. apply list_elem_of_omap. eauto. Qed.

(** The pool is replaced by one with the same block, after a change to it. *)
Lemma inv_mutated s p h S' :
  sys_inv s → mutated (sheap s) (spool s) S' p h → sys_inv (MkSys h p (sres s) S').
Proof.
  intros [Hp Hc Hr Hnd Hd] (Hrep & Hn & Ho & Ht & Hdom). split; simpl.
  - done.
  - by rewrite Hn.
  - intros v Hv. eapply bitmap_rep_frame; [by apply Hr|]. intros q Hq. apply Ht. intros Hq'.
    rewrite blocks_cons, Hq' in Hnd. simpl in Hnd. apply NoDup_cons in Hnd as [Hnd _].
    apply Hnd. by eapply blocks_in.
  - rewrite blocks_cons, Ho. by rewrite blocks_cons in Hnd.
  - rewrite blocks_cons, Ho. rewrite blocks_cons in Hd. by rewrite Hdom.
Qed.

(** The parts of the invariant that do not depend on the order of the bitmaps. *)
Definition owns (h : gmap Z BMem) (vs : list BitmapVec) : Prop :=
  NoDup (blocks vs) ∧ dom h = list_to_set (blocks vs).

Lemma owns_perm h vs ws : vs ≡ₚ ws → owns h vs → owns h ws.
Proof.
  intros Hp [H1 H2]. assert (blocks vs ≡ₚ blocks ws) as Hb by (unfold blocks; by rewrite Hp).
  split; [by rewrite <- Hb|]. by rewrite H2, Hb.
Qed.

#[local] Instance owns_proper h : Proper (Permutation ==> iff) (owns h).
Proof. intros vs ws Hp. split; by apply owns_perm. Qed.

Lemma owns_other h v vs w : owns h (v :: vs) → w ∈ vs → ∀ p, bowned w = Some p → bowned v ≠ Some p.
Proof.
  intros [Hnd _] Hw p Hp Hv. rewrite blocks_cons, Hv in Hnd. simpl in Hnd.
  apply NoDup_cons in Hnd as [Hnd _]. apply Hnd. by eapply blocks_in.
Qed.

(** Dropping one of the bitmaps. *)
Lemma drop_owned_ok h v vs T : owns h (v :: vs) → bitmap_rep h v T →
  wp (bitmap_drop v) (λ _ h', owns h' vs ∧
    ∀ w S', w ∈ vs → bitmap_rep h w S' → bitmap_rep h' w S') h.
Proof.
  intros Ho Hv. eapply wp_mono; [by eapply bitmap_drop_ok|]. intros _ h' ->. split.
  - destruct Ho as [Hnd Hd]. rewrite blocks_cons in Hnd, Hd. destruct (bowned v) as [p|]; simpl in *.
    + apply NoDup_cons in Hnd as [Hp Hnd]. split; [done|]. rewrite dom_delete_L, Hd. set_solver.
    + by split.
  - intros w S' Hw Hr. eapply bitmap_rep_frame; [done|]. intros q Hq.
    pose proof (owns_other _ _ _ _ Ho Hw q Hq). destruct (bowned v) as [p|]; [|done].
    rewrite lookup_delete_ne; [done|]. congruence.
Qed.

Lemma owns_mutated h v vs S' v' h' : owns h (v :: vs) → mutated h v S' v' h' →
  owns h' (v' :: vs) ∧ ∀ w T, w ∈ vs → bitmap_rep h w T → bitmap_rep h' w T.
Proof.
  intros Ho (_ & _ & Hb & Ht & Hd). split.
  - destruct Ho as [H1 H2]. rewrite blocks_cons in H1, H2. split; rewrite blocks_cons, Hb; [done|].
    by rewrite Hd.
  - intros w T Hw Hr. eapply bitmap_rep_frame; [done|]. intros q Hq. apply Ht.
    by eapply owns_other.
Qed.

(** Replacing the map of the pool by a resizer that is large enough. *)
Lemma swap_ok h pool r rs held : owns h (pool :: r :: rs) →
  bitmap_rep h pool held → bitmap_rep h r ∅ → (∀ i, i ∈ held → i < nbits r) →
  wp (new ← copy_and_extend r pool; _ ← bitmap_drop pool; mret new) (λ v h',
    owns h' (v :: rs) ∧ bitmap_rep h' v held ∧ nbits v = nbits r ∧
    ∀ w T, w ∈ rs → bitmap_rep h w T → bitmap_rep h' w T) h.
Proof.
  intros Ho Hp Hr Hlt. apply wp_bind. eapply wp_mono; [by eapply copy_and_extend_ok|].
  intros v h1 Hm. assert (filter (λ i, i < nbits r) held = held) as E by set_solver. rewrite E in Hm.
  assert (owns h (r :: pool :: rs)) as Ho' by (eapply owns_perm; [apply perm_swap|done]).
  destruct (owns_mutated _ _ _ _ _ _ Ho' Hm) as [Ho1 Hf1]. destruct Hm as (Hv & Hn & _).
  apply wp_bind. eapply wp_mono.
  { eapply (drop_owned_ok h1 pool (v :: rs)); [by eapply owns_perm; [apply perm_swap|]|].
    apply Hf1; [set_solver|done]. }
  intros _ h2 [Ho2 Hf2]. apply wp_ret. split_and!; [done| |done|].
  - apply Hf2; [set_solver|done].
  - intros w T Hw HT. apply Hf2; [set_solver|]. apply Hf1; [set_solver|done].
Qed.

Lemma shrink_request_ok h pool held : bitmap_rep h pool held →
  wp (shrink_request pool) (λ r h', h' = h ∧ match r with
    | None => True
    | Some n => MAX_INLINE_LEN ≤ n ≤ MAX_LEN ∧ ∀ i, i ∈ held → i < n
    end) h.
Proof.
  intros Hp. pose proof (br_len _ _ _ Hp) as Hl. unfold shrink_request, pool_capacity, bitmap_len.
  destruct (Z.leb_spec (nbits pool) MAX_INLINE_LEN); [by apply wp_ret|].
  apply wp_bind. eapply wp_mono; [by eapply last_bit_ok|]. intros [b|] h' [-> Hb].
  - destruct Hb as [Hin Hmax]. destruct (Z.leb_spec (nbits pool / 4) b); apply wp_ret; [done|].
    split; [done|]. unfold MAX_INLINE_LEN, MAX_LEN, I32_MAX in *. split; [split; Z.to_euclidean_division_equations; lia|].
    intros i Hi. specialize (Hmax i Hi). Z.to_euclidean_division_equations; lia.
  - apply wp_ret. split; [done|]. unfold MAX_INLINE_LEN, MAX_LEN, I32_MAX in *.
    split; [lia|]. intros i Hi. set_solver.
Qed.

Lemma grow_request_ok h pool held : bitmap_rep h pool held → MAX_INLINE_LEN ≤ nbits pool →
  wp (grow_request pool) (λ r h', h' = h ∧ match r with
    | None => True | Some n => MAX_INLINE_LEN ≤ n ≤ MAX_LEN
    end) h.
Proof.
  intros Hp Hc. pose proof (br_len _ _ _ Hp) as Hl. unfold grow_request, pool_capacity, bitmap_len.
  unfold MAX_INLINE_LEN, MAX_LEN, I32_MAX in *.
  eapply wp_bind, wp_lift; [apply umul_ok; usize|].
  destruct (Z.ltb_spec (2 ^ 31 - 1) (nbits pool * 2)); apply wp_ret; (split; [done|]); [done|lia].
Qed.

(** What a resize does with the resizer it is given. *)
Definition resized h (rs : list BitmapVec) (held : gset Z) (v : BitmapVec) (h' : gmap Z BMem) : Prop :=
  owns h' (v :: rs) ∧ bitmap_rep h' v held ∧ MAX_INLINE_LEN ≤ nbits v ∧
  ∀ w T, w ∈ rs → bitmap_rep h w T → bitmap_rep h' w T.

Lemma discard_ok h pool r rs held : owns h (pool :: r :: rs) →
  bitmap_rep h pool held → MAX_INLINE_LEN ≤ nbits pool → bitmap_rep h r ∅ →
  wp (_ ← bitmap_drop r; mret pool) (resized h rs held) h.
Proof.
  intros Ho Hp Hc Hr. apply wp_bind. eapply wp_mono.
  { eapply (drop_owned_ok h r (pool :: rs)); [by eapply owns_perm; [apply perm_swap|]|done]. }
  intros _ h' [Ho' Hf]. apply wp_ret. split_and!; [done|apply Hf; [set_solver|done]|done|].
  intros w T Hw. apply Hf. set_solver.
Qed.

Lemma pool_grow_ok h pool r rs held : owns h (pool :: r :: rs) →
  bitmap_rep h pool held → MAX_INLINE_LEN ≤ nbits pool → bitmap_rep h r ∅ →
  wp (pool_grow pool r) (resized h rs held) h.
Proof.
  intros Ho Hp Hc Hr. unfold pool_grow, pool_capacity, bitmap_len.
  destruct (Z.leb_spec (nbits r) (nbits pool)) as [Hle|Hgt]; [by apply discard_ok|].
  eapply wp_mono; [apply swap_ok; [done..|]|].
  - intros i Hi. destruct Hp as [_ (w & _ & HS)]. apply HS in Hi. lia.
  - intros v h' (H1 & H2 & H3 & H4). split_and!; [done..|lia|done].
Qed.

Lemma pool_shrink_ok h pool r rs held : owns h (pool :: r :: rs) →
  bitmap_rep h pool held → MAX_INLINE_LEN ≤ nbits pool → bitmap_rep h r ∅ →
  wp (pool_shrink pool r) (resized h rs held) h.
Proof.
  intros Ho Hp Hc Hr. unfold pool_shrink. apply wp_bind.
  eapply wp_mono; [by eapply shrink_request_ok|]. intros [n|] h' [-> Hn]; [|by apply discard_ok].
  destruct Hn as [Hn Hlt]. unfold bitmap_len.
  destruct (Z.ltb_spec (nbits r) n) as [Hl|Hge]; [by apply discard_ok|].
  eapply wp_mono; [apply swap_ok; [done..|]|].
  - intros i Hi. specialize (Hlt i Hi). lia.
  - intros v h' (H1 & H2 & H3 & H4). split_and!; [done..|lia|done].
Qed.

Lemma inv_owns s : sys_inv s → owns (sheap s) (spool s :: sres s).
Proof. intros []. by split. Qed.

Lemma inv_intro h p rs held : owns h (p :: rs) → bitmap_rep h p held → MAX_INLINE_LEN ≤ nbits p →
  (∀ v, v ∈ rs → bitmap_rep h v ∅) → sys_inv (MkSys h p rs held).
Proof. intros [H1 H2] H3 H4 H5. by split. Qed.

Lemma allocate_ok s req fl : sys_inv s → (∀ n, req = Some n → 0 ≤ n) →
  wp (allocate req fl) (λ _ s', sys_inv s' ∧ sheld s' = sheld s) s.
Proof.
  intros Hs Hn. destruct req as [n|]; simpl; [|by apply wp_ret]. apply wp_bind, wp_on_heap.
  unfold request_realloc. apply wp_try. eapply wp_mono; [by apply bitmap_new_ok, Hn|].
  intros [v|e] h'; [|intros [-> _]; apply wp_ret; by destruct s]. intros (Hv & _ & _ & Hb & Hb').
  apply wp_ret, wp_bind, wp_modify, wp_ret. simpl. split; [|done].
  destruct (inv_owns _ Hs) as [Hnd Hd].
  assert (∀ w T, w ∈ spool s :: sres s → bitmap_rep (sheap s) w T → bitmap_rep h' w T) as Hf.
  { intros w T Hw Hr. destruct (bowned v) as [p|] eqn:E; [|by rewrite (Hb' eq_refl)].
    destruct (Hb p eq_refl) as [Hp Ed]. eapply bitmap_rep_frame; [done|]. intros q Hq.
    rewrite <- Ed, lookup_delete_ne; [done|]. intros ->. apply not_elem_of_dom in Hp. apply Hp.
    rewrite Hd, elem_of_list_to_set. by eapply blocks_in. }
  destruct Hs as [H1 H2 H3 _ _]. apply inv_intro.
  - eapply owns_perm; [apply perm_swap|]. unfold owns. rewrite blocks_cons.
    destruct (bowned v) as [p|] eqn:E; simpl; [|by rewrite (Hb' eq_refl)].
    destruct (Hb p eq_refl) as [Hp Ed]. apply not_elem_of_dom in Hp. split.
    + apply NoDup_cons. split; [|done]. rewrite Hd, elem_of_list_to_set in Hp. done.
    + rewrite <- Hd, <- Ed, dom_delete_L. rewrite union_comm_L, difference_union_L.
      assert (p ∈ dom h'); [|set_solver]. destruct Hv as [_ (w & Hw & _)]. unfold words, bowned in *.
      destruct (repr v), (nbits v <=? MAX_INLINE_LEN); simplify_eq.
      apply elem_of_dom. by destruct (h' !! p).
  - apply Hf; [set_solver|done].
  - done.
  - intros w [->|Hw]%elem_of_cons; [done|]. apply Hf; [set_solver|by apply H3].
Qed.

Lemma resize_with_ok s f k :
  sys_inv s →
  (∀ h pool r rs held, owns h (pool :: r :: rs) → bitmap_rep h pool held →
     MAX_INLINE_LEN ≤ nbits pool → bitmap_rep h r ∅ → wp (f pool r) (resized h rs held) h) →
  wp (resize_with f k) (λ _ s', sys_inv s' ∧ sheld s' = sheld s) s.
Proof.
  intros Hs Hf. unfold resize_with. apply wp_bind, wp_get.
  destruct (sres s !! k) as [r|] eqn:Hk; [|by apply wp_ret]. apply wp_bind, wp_modify, wp_bind, wp_on_heap.
  pose proof (inv_owns _ Hs) as Ho. pose proof (delete_Permutation _ _ _ Hk) as Hp.
  rewrite Hp in Ho. destruct Hs as [H1 H2 H3 _ _]. simpl.
  eapply wp_mono; [apply (Hf _ _ _ (delete k (sres s)) (sheld s)); try done|].
  - apply H3. by eapply list_elem_of_lookup_2.
  - intros v h' (Ho' & Hv & Hc & Hr). apply wp_bind, wp_modify, wp_ret. split; [|done].
    apply inv_intro; try done. intros w Hw. apply Hr; [done|]. apply H3.
    rewrite Hp. set_solver.
Qed.

Lemma pexec_ok hd s e : sys_inv s → event_ok hd e →
  wp (pexec hd e) (λ r s', istep (sheld s) e r (sheld s') ∧ sys_inv s') s.
Proof.
  intros Hs He. pose proof Hs as [H1 H2 H3 _ _].
  destruct e as [off|id|fl|fl|k|k]; simpl in *.
  - destruct He as [Hoff Hhd]. apply wp_bind, wp_get, wp_bind, wp_on_heap.
    eapply wp_mono; [apply (next_zero_bit_ok hd _ _ _ off H1 Hoff); intros E; specialize (Hhd E); lia|].
    intros [id|] h' [-> Hid].
    + destruct Hid as (Hr & Hni & Hmin). apply wp_bind, wp_on_heap. unfold acquire. apply wp_bind.
      eapply wp_mono; [apply (set_bit_ok hd _ _ _ id H1); lia|]. intros p h' Hm.
      apply wp_ret. apply wp_bind, wp_modify, wp_bind, wp_modify, wp_ret. simpl. split.
      * constructor; [|done..]. pose proof (br_len _ _ _ H1). unfold MAX_LEN in *. lia.
      * by apply (inv_mutated s).
    + apply wp_ret. split; [constructor|]. by destruct s.
  - apply wp_bind, wp_get. case_bool_decide as Hin; [|by apply wp_ret; split; [constructor|]].
    apply wp_bind, wp_on_heap.
    assert (0 ≤ id < nbits (spool s)) as Hr by (destruct H1 as [_ (w & _ & HS)]; by apply HS).
    eapply wp_mono; [apply (clear_bit_ok hd _ _ _ id H1); lia|]. intros p h' Hm.
    apply wp_bind, wp_modify, wp_bind, wp_modify, wp_ret. simpl. split; [by constructor|].
    by apply (inv_mutated s).
  - apply wp_bind, wp_get, wp_bind, wp_on_heap. eapply wp_mono; [by eapply grow_request_ok|].
    intros r h' [-> Hr]. assert (MkSys (sheap s) (spool s) (sres s) (sheld s) = s) as -> by (by destruct s).
    eapply wp_mono; [apply allocate_ok; [done|]|].
    + intros n ->. unfold MAX_INLINE_LEN in *. lia.
    + intros x s' [Hi Hh]. rewrite Hh. split; [constructor|done].
  - apply wp_bind, wp_get, wp_bind, wp_on_heap. eapply wp_mono; [by eapply shrink_request_ok|].
    intros r h' [-> Hr]. assert (MkSys (sheap s) (spool s) (sres s) (sheld s) = s) as -> by (by destruct s).
    eapply wp_mono; [apply allocate_ok; [done|]|].
    + intros n ->. unfold MAX_INLINE_LEN in *. lia.
    + intros x s' [Hi Hh]. rewrite Hh. split; [constructor|done].
  - eapply wp_mono; [apply resize_with_ok; [done|]; intros; by apply pool_grow_ok|].
    intros x s' [Hi Hh]. rewrite Hh. split; [constructor|done].
  - eapply wp_mono; [apply resize_with_ok; [done|]; intros; by apply pool_shrink_ok|].
    intros x s' [Hi Hh]. rewrite Hh. split; [constructor|done].
Qed.

Lemma pexecs_ok hd es : ∀ s, sys_inv s → Forall (event_ok hd) es →
  wp (pexecs hd es) (λ rs s', isteps (sheld s) es rs (sheld s') ∧ sys_inv s') s.
Proof.
  induction es as [|e es IH]; intros s Hs Hok; simpl.
  - apply wp_ret. split; [constructor|done].
  - apply Forall_cons in Hok as [He Hok]. apply wp_bind. eapply wp_mono; [by apply pexec_ok|].
    intros r s1 [Hi1 Hs1]. apply wp_bind. eapply wp_mono; [by apply IH|].
    intros rs s2 [Hi2 Hs2]. apply wp_ret. split; [by econstructor|done].
Qed.

Lemma pool_new_inv : sys_inv (MkSys ∅ pool_new [] ∅).
Proof.
  apply inv_intro; [by split; [constructor|]| |done|set_solver].
  apply (rep_intro _ _ 0); [vm_compute; split; congruence|done|]. intros i. rewrite Z.bits_0. set_solver.
Qed.
End Specs.

(** C12: an id is never handed out twice and never lost. From a new pool, for
    every interleaving of acquisitions, releases, grow and shrink requests,
    allocations that may fail and resizes with any outstanding (possibly stale)
    resizer, the code runs without panic and without undefined behaviour; an
    acquired id is the least one from the offset on that nobody holds; resizing
    never changes the set of held ids; and at every point the heap is made of
    exactly the blocks of the pool and of the outstanding resizers, so a discarded
    resizer and a replaced map are freed once. *)
Theorem id_pool_concurrent_safety `{BOs : BitOpsSpec} hardened (es : list pevent)
    (Hok : Forall (event_ok hardened) es) :
  ∃ rs s', pexecs hardened es (MkSys ∅ pool_new [] ∅) = Done (rs, s') ∧
    isteps ∅ es rs (sheld s') ∧ sys_inv s'.
Proof.
  destruct (pexecs_ok hardened es _ pool_new_inv Hok) as (rs & s' & He & Hi & Hs). eauto.
Qed.

(** Two threads that grow and shrink at once. *)
Definition demo_events : list pevent :=
  [EAcquire 0; EAcquire 5; EGrowRequest (MkFlags 0); EGrowRequest (MkFlags 0); EGrow 1; EAcquire 100;
   EGrow 0; ERelease 100; EShrinkRequest (MkFlags 0); EAcquire 0; EShrink 0; ERelease 5].

Lemma id_pool_concurrent_safety_witness :
  let BO := ref_bitops 1000 in
  ∃ rs s', pexecs false demo_events (MkSys ∅ pool_new [] ∅) = Done (rs, s') ∧
    isteps ∅ demo_events rs (sheld s') ∧ sys_inv s'.
Proof.
  apply (@id_pool_concurrent_safety (ref_bitops 1000) _ false).
  repeat (apply Forall_cons_2; [vm_compute; intuition congruence|]). apply Forall_nil_2.
Defined.

(** The lowest free ids are reused, also across resizes. *)
Example demo_events_answers :
  match @pexecs (ref_bitops 1000) false demo_events (MkSys ∅ pool_new [] ∅) with
  | Done (rs, _) => rs
  | _ => []
  end = [Some 0; Some 5; Some 128; Some 128; Some 128; Some 100; Some 128; Some 100; Some 64; Some 1; Some 64; Some 5].
Proof. vm_compute. reflexivity. Qed.

