(* ===== verification/Str.v ===== *)
(** * Strings and formatting ([rust/src/str.rs])

    Byte strings and C strings are lists of bytes. Formatting an argument is the
    sequence of [write_str] calls it makes; writers consume such sequences.
    [CString::try_from_fmt] runs the formatter twice, first to measure and then
    into a buffer of that size, and nothing makes both runs produce the same text:
    the model takes the two runs separately. *)

From S2P Require Import Prelude Errors Alloc KVec.

Definition is_byte (b : Z) : Prop := 0 ≤ b < 256.

(** ** Display and Debug of [BStr] and [CStr] *)

Definition hex_digit (n : Z) : Z := if n <? 10 then 48 + n else 87 + n.
(** [\x{b:02x}]. *)
Definition hex_escape (b : Z) : list Z := [92; 120; hex_digit (b / 16); hex_digit (b mod 16)].
Definition printable (b : Z) : bool := (32 <=? b) && (b <=? 126).

(** The text written for one byte. *)
Definition bstr_display_byte (b : Z) : list Z :=
  if b =? 9 then [92; 116] else if b =? 10 then [92; 110] else if b =? 13 then [92; 114]
  else if printable b then [b] else hex_escape b.

Definition bstr_debug_byte (b : Z) : list Z :=
  if b =? 9 then [92; 116] else if b =? 10 then [92; 110] else if b =? 13 then [92; 114]
  else if b =? 34 then [92; 34] else if b =? 92 then [92; 92]
  else if printable b then [b] else hex_escape b.

Definition cstr_display_byte (c : Z) : list Z :=
  if (32 <=? c) && (c <? 127) then [c] else hex_escape c.

Definition cstr_debug_byte (c : Z) : list Z :=
  if c =? 34 then [92; 34] else if printable c then [c] else hex_escape c.

(** The calls of [write_str] and [write_char], in order. *)
Definition bstr_display (bs : list Z) : list (list Z) := bstr_display_byte <$> bs.
Definition bstr_debug (bs : list Z) : list (list Z) := [34] :: (bstr_debug_byte <$> bs) ++ [[34]].
Definition cstr_display (bs : list Z) : list (list Z) := cstr_display_byte <$> bs.
Definition cstr_debug (bs : list Z) : list (list Z) := [34] :: (cstr_debug_byte <$> bs) ++ [[34]].

(** ** [CStr]: the bytes with the terminator *)

Inductive CStrConvertError := InteriorNul | NotNulTerminated.

#[export] Instance from_CStrConvertError : IntoError CStrConvertError := λ _, EINVAL.

(** The type invariant. *)
Definition cstr_ok (s : list Z) : Prop := ∃ l, s = l ++ [0] ∧ 0 ∉ l.

Definition index_byte (bytes : list Z) (i : Z) : exec Z :=
  match bytes !! Z.to_nat i with Some b => Done b | None => Panic end.

Fixpoint nul_loop (bytes : list Z) (fuel : nat) (i : Z) : exec (result CStrConvertError (list Z)) :=
  match fuel with
  | O => UB
  | S fuel =>
      if i + 1 <? Z.of_nat (length bytes) then
        match index_byte bytes i with
        | Done b => if b =? 0 then Done (Err InteriorNul) else nul_loop bytes fuel (i + 1)
        | Panic => Panic
        | UB => UB
        end
      else Done (Ok bytes)
  end.

Definition from_bytes_with_nul (bytes : list Z) : exec (result CStrConvertError (list Z)) :=
  if (length bytes =? 0)%nat then Done (Err NotNulTerminated)
  else
    match index_byte bytes (Z.of_nat (length bytes) - 1) with
    | Done b => if negb (b =? 0) then Done (Err NotNulTerminated)
                else nul_loop bytes (S (length bytes)) 0
    | Panic => Panic
    | UB => UB
    end.

Definition len_with_nul (s : list Z) : exec Z :=
  if (length s =? 0)%nat then UB else Done (Z.of_nat (length s)).

Definition cstr_len (s : list Z) : exec Z :=
  match len_with_nul s with Done n => usub n 1 | Panic => Panic | UB => UB end.

(** [&s[..n]] and [&s[n..]]. *)
Definition slice_to (s : list Z) (n : Z) : exec (list Z) :=
  if n <=? Z.of_nat (length s) then Done (take (Z.to_nat n) s) else Panic.
Definition slice_from (s : list Z) (n : Z) : exec (list Z) :=
  if n <=? Z.of_nat (length s) then Done (drop (Z.to_nat n) s) else Panic.

Definition as_bytes (s : list Z) : exec (list Z) :=
  match cstr_len s with Done n => slice_to s n | Panic => Panic | UB => UB end.

(** [Index<RangeFrom>]: first checks the range against the bytes without the NUL. *)
Definition cstr_index_from (s : list Z) (start : Z) : exec (list Z) :=
  match as_bytes s with
  | Done b => match slice_from b start with Done _ => slice_from s start | Panic => Panic | UB => UB end
  | Panic => Panic
  | UB => UB
  end.

(** [slice::make_ascii_lowercase] and [make_ascii_uppercase]. *)
Definition ascii_lower (b : Z) : Z := if (65 <=? b) && (b <=? 90) then b + 32 else b.
Definition ascii_upper (b : Z) : Z := if (97 <=? b) && (b <=? 122) then b - 32 else b.
Definition make_ascii_lowercase (s : list Z) : list Z := ascii_lower <$> s.
Definition make_ascii_uppercase (s : list Z) : list Z := ascii_upper <$> s.

(** ** [RawFormatter] and [Formatter]

    [beg], [pos] and [end] are addresses; [fblk] is the allocation the pointer was
    made from. *)

#[local] Instance u8_type : RType Z := {| size_of := 1; align_of := 1; zst_value := None |}.

#[local] Instance u8_type_ok : RTypeOk Z.
Proof.
  split; simpl.
  - usize.
  - by exists 0.
  - lia.
  - by exists 1.
  - split; [done|]. intros [? ?]; done.
  - done.
Qed.

Record RawFormatter := MkRawFormatter { fbeg : Z; fpos : Z; fend : Z; fblk : Z }.

(** What formatting an argument does: the strings written and, at the end, whether
    the implementation of the trait reports success. *)
Record Arguments := MkArguments { chunks : list (list Z); aok : bool }.

Definition text (a : Arguments) : list Z := concat (chunks a).

Section Fmt.
Context {AL : Allocator Z}.
Local Abbreviation VM := (M (St Z Vec)).

Definition raw_new : RawFormatter := MkRawFormatter 0 0 0 0.

Definition from_buffer (buf len : Z) : RawFormatter :=
  MkRawFormatter buf buf (saturating_add buf len) buf.

Definition bytes_written (f : RawFormatter) : exec Z := usub (fpos f) (fbeg f).

Definition raw_write_str (f : RawFormatter) (s : list Z) : VM (RawFormatter * result FmtError unit) :=
  let pos_new := saturating_add (fpos f) (Z.of_nat (length s)) in
  let len_to_copy := saturating_sub (Z.min pos_new (fend f)) (fpos f) in
  _ ← (if 0 <? len_to_copy then write_slots (fblk f) (fpos f - fblk f) (take (Z.to_nat len_to_copy) s)
       else mret tt);
  mret (MkRawFormatter (fbeg f) pos_new (fend f) (fblk f), Ok tt).

Definition fmt_write_str (f : RawFormatter) (s : list Z) : VM (RawFormatter * result FmtError unit) :=
  out ← raw_write_str f s;
  match snd out with
  | Err e => mret out
  | Ok _ => if fend (fst out) <? fpos (fst out) then mret (fst out, Err MkFmtError) else mret (fst out, Ok tt)
  end.

(** [write_fmt]: stops at the first error of the writer. *)
Fixpoint write_chunks (w : RawFormatter → list Z → VM (RawFormatter * result FmtError unit))
    (f : RawFormatter) (cs : list (list Z)) : VM (RawFormatter * result FmtError unit) :=
  match cs with
  | [] => mret (f, Ok tt)
  | c :: cs =>
      out ← w f c;
      match snd out with Err e => mret out | Ok _ => write_chunks w (fst out) cs end
  end.

Definition write_fmt (w : RawFormatter → list Z → VM (RawFormatter * result FmtError unit))
    (f : RawFormatter) (a : Arguments) : VM (RawFormatter * result FmtError unit) :=
  out ← write_chunks w f (chunks a);
  match snd out with
  | Err e => mret out
  | Ok _ => mret (fst out, if aok a then Ok tt else Err MkFmtError)
  end.

(** ** [CString::try_from_fmt]; the local buffer is dropped on the error paths *)

Definition fail_with (e : Error) : VM (result Error unit) := _ ← vec_drop; mret (Err e).

(** [memchr] over the first [n] bytes of the buffer. *)
Definition buf_memchr (memchr : list Z → Z → option Z) (n : Z) : VM (option Z) :=
  v ← self;
  xs ← (fix go k i := match k with
        | O => mret []
        | S k => x ← read (vptr v) (off Z i); xs ← go k (i + 1); mret (x :: xs)
        end) (Z.to_nat n) 0;
  mret (memchr xs 0).

Definition try_from_fmt (memchr : list Z → Z → option Z) (args1 args2 : Arguments) :
    VM (result Error unit) :=
  o1 ← write_fmt raw_write_str raw_new args1;
  match snd o1 with
  | Err e => mret (Err (into_error e))
  | Ok _ =>
      o2 ← raw_write_str (fst o1) [0];
      size ← lift (bytes_written (fst o2));
      r ← with_capacity size GFP_KERNEL;
      match r with
      | Err e => mret (Err (into_error e))
      | Ok _ =>
          v ← self;
          o3 ← write_fmt fmt_write_str (from_buffer (vptr v) size) args2;
          match snd o3 with
          | Err e => fail_with (into_error e)
          | Ok _ =>
              o4 ← fmt_write_str (fst o3) [0];
              match snd o4 with
              | Err e => fail_with (into_error e)
              | Ok _ =>
                  n ← lift (bytes_written (fst o4));
                  _ ← inc_len n;
                  m ← lift (usub n 1);
                  p ← buf_memchr memchr m;
                  match p with
                  | Some _ => fail_with (code_error EINVAL)
                  | None => mret (Ok tt)
                  end
              end
          end
      end
  end.

(** [TryFrom<&CStr> for CString]. *)
Definition cstring_try_from (s : list Z) : VM (result AllocError unit) :=
  _ ← set_self (new Z);
  r ← extend_from_slice id s GFP_KERNEL;
  match r with Err e => _ ← vec_drop; mret (Err e) | Ok _ => mret (Ok tt) end.
End Fmt.

(** ** C strings *)

Lemma nul_loop_ok bytes fuel : ∀ i, (length bytes - i < fuel)%nat →
  nul_loop bytes fuel (Z.of_nat i) =
    Done (if decide (0 ∈ drop i (take (length bytes - 1) bytes)) then Err InteriorNul else Ok bytes).
Proof.
  induction fuel as [|fuel IH]; intros i Hlt; [lia|]. cbn [nul_loop].
  destruct (Z.ltb_spec (Z.of_nat i + 1) (Z.of_nat (length bytes))) as [Hl|Hg].
  - unfold index_byte. rewrite Nat2Z.id. destruct (lookup_lt_is_Some_2 bytes i) as [b Hb]; [lia|].
    rewrite Hb.
    assert (drop i (take (length bytes - 1) bytes) = b :: drop (S i) (take (length bytes - 1) bytes)) as E.
    { apply drop_S. rewrite lookup_take_lt by lia. done. }
    rewrite E. destruct (Z.eqb_spec b 0) as [->|Hne].
    + by rewrite decide_True by set_solver.
    + replace (Z.of_nat i + 1) with (Z.of_nat (S i)) by lia. rewrite IH by lia.
      f_equal. apply decide_ext. set_solver.
  - rewrite decide_False; [done|]. rewrite drop_ge; [set_solver|]. rewrite length_take. lia.
Qed.

Lemma cstr_ok_last s : cstr_ok s ↔ last s = Some 0 ∧ 0 ∉ take (length s - 1) s.
Proof.
  split.
  - intros (l & -> & Hl). rewrite last_snoc, length_app, take_app_length' by (simpl; lia). done.
  - destruct s as [|x l _] using rev_ind; [by intros [? _]|]. rewrite last_snoc, length_app.
    rewrite take_app_length' by (simpl; lia). intros [[= ->] Hl]. by exists l.
Qed.

Lemma cstr_as_bytes l : as_bytes (l ++ [0]) = Done l.
Proof.
  unfold as_bytes, cstr_len, len_with_nul, slice_to. rewrite length_app. simpl.
  rewrite (proj2 (Nat.eqb_neq _ _)) by lia. rewrite usub_ok by lia.
  rewrite (proj2 (Z.leb_le _ _)) by (rewrite ?length_app; simpl; lia).
  rewrite take_app_length'; [done|lia].
Qed.

(** [CStr::from_bytes_with_nul] accepts exactly the byte slices whose only NUL
    is the last byte, and tells the two ways of failing apart; and the unchecked
    construction in [Index<RangeFrom>] is justified: a suffix of a C string that
    starts within it is a C string, and a range that starts past the terminator
    panics before anything is constructed. *)
Theorem cstr_checked_and_sliced (bytes s : list Z) start (Hs : cstr_ok s) (H0 : 0 ≤ start) :
  from_bytes_with_nul bytes =
    Done (if decide (last bytes = Some 0) then
            if decide (0 ∈ take (length bytes - 1) bytes) then Err InteriorNul else Ok bytes
          else Err NotNulTerminated) ∧
  (from_bytes_with_nul bytes = Done (Ok bytes) ↔ cstr_ok bytes) ∧
  (if start <? Z.of_nat (length s)
   then ∃ t, cstr_index_from s start = Done t ∧ t = drop (Z.to_nat start) s ∧ cstr_ok t
   else cstr_index_from s start = Panic).
Proof.
  assert (from_bytes_with_nul bytes =
    Done (if decide (last bytes = Some 0) then
            if decide (0 ∈ take (length bytes - 1) bytes) then Err InteriorNul else Ok bytes
          else Err NotNulTerminated)) as E.
  { unfold from_bytes_with_nul. destruct bytes as [|x l _] using rev_ind; [done|].
    rewrite length_app. simpl. rewrite (proj2 (Nat.eqb_neq _ _)) by lia.
    unfold index_byte. replace (Z.to_nat (Z.of_nat (length l + 1) - 1)) with (length l) by lia.
    rewrite list_lookup_middle by done. rewrite last_snoc.
    destruct (Z.eqb_spec x 0) as [->|Hx]; simpl.
    - change (nul_loop (l ++ [0]) (S (length l + 1)) (Z.of_nat 0) = Done
        (if decide (0 ∈ take (length l + 1 - 1) (l ++ [0])) then Err InteriorNul else Ok (l ++ [0]))).
      rewrite nul_loop_ok by (rewrite length_app; simpl; lia). by rewrite length_app, drop_0.
    - rewrite decide_False by congruence. done. }
  split; [done|]. split.
  - rewrite E, cstr_ok_last. repeat case_decide; naive_solver.
  - destruct Hs as (l & -> & Hl). unfold cstr_index_from. rewrite cstr_as_bytes. unfold slice_from.
    rewrite length_app. simpl. destruct (Z.ltb_spec start (Z.of_nat (length l + 1))) as [Hlt|Hge].
    + rewrite (proj2 (Z.leb_le start (Z.of_nat (length l)))) by lia.
      rewrite (proj2 (Z.leb_le start (Z.of_nat (length l + 1)))) by lia.
      eexists. split; [done|]. split; [done|]. exists (drop (Z.to_nat start) l).
      split; [by rewrite drop_app_le by lia|]. intros Hin. apply Hl.
      rewrite <- (take_drop (Z.to_nat start) l). set_solver.
    + by rewrite (proj2 (Z.leb_gt start (Z.of_nat (length l)))) by lia.
Qed.

Lemma cstr_checked_and_sliced_witness :
  from_bytes_with_nul [104; 0; 105; 0] = Done (Err InteriorNul) ∧
  (∃ t, cstr_index_from [104; 105; 0] 1 = Done t ∧ t = [105; 0] ∧ cstr_ok t).
Proof.
  destruct (cstr_checked_and_sliced [104; 0; 105; 0] [104; 105; 0] 1) as (H1 & _ & H3).
  - exists [104; 105]. split; [done|]. set_solver.
  - lia.
  - split; [exact H1|exact H3].
Defined.

(** ** Quoting *)

Definition hex_value (c : Z) : Z := if c <? 58 then c - 48 else c - 87.

(** Reads a quoted byte string back. *)
Fixpoint unquote_tail (s : list Z) : option (list Z) :=
  match s with
  | [] => None
  | c :: r =>
      if c =? 34 then match r with [] => Some [] | _ => None end
      else if c =? 92 then
        match r with
        | d :: r =>
            if d =? 120 then
              match r with h :: l :: r => cons (16 * hex_value h + hex_value l) <$> unquote_tail r | _ => None end
            else
              cons (if d =? 116 then 9 else if d =? 110 then 10 else if d =? 114 then 13 else d)
                <$> unquote_tail r
        | [] => None
        end
      else cons c <$> unquote_tail r
  end.

Definition unquote (s : list Z) : option (list Z) :=
  match s with c :: r => if c =? 34 then unquote_tail r else None | [] => None end.

(** A property of all bytes, by evaluation. *)
Lemma byte_cases (f : Z → bool) : forallb f (seqZ 0 256) = true → ∀ b, is_byte b → f b = true.
Proof.
  rewrite forallb_forall. intros H b Hb. apply H, list_elem_of_In, elem_of_seqZ. unfold is_byte in Hb. lia.
Qed.

(** How the reader sees the text of one byte. *)
Definition byte_shape (b : Z) : bool :=
  match bstr_debug_byte b with
  | [c] => (c =? b) && negb (c =? 34) && negb (c =? 92)
  | [p; d] => (p =? 92) && negb (d =? 120) &&
      ((if d =? 116 then 9 else if d =? 110 then 10 else if d =? 114 then 13 else d) =? b)
  | [p; d; h; l] => (p =? 92) && (d =? 120) && (16 * hex_value h + hex_value l =? b)
  | _ => false
  end.

Lemma byte_shape_ok b : is_byte b → byte_shape b = true.
Proof. apply byte_cases. vm_compute. reflexivity. Qed.

Lemma unquote_byte b r : is_byte b →
  unquote_tail (bstr_debug_byte b ++ r) = cons b <$> unquote_tail r.
Proof.
  intros Hb. pose proof (byte_shape_ok b Hb) as Hs. unfold byte_shape in Hs.
  destruct (bstr_debug_byte b) as [|c [|d [|h [|l [|]]]]]; try done; cbn [app unquote_tail].
  - apply andb_true_iff in Hs as [[->%Z.eqb_eq ->%negb_true_iff]%andb_true_iff ->%negb_true_iff]. done.
  - apply andb_true_iff in Hs as [[->%Z.eqb_eq ->%negb_true_iff]%andb_true_iff ->%Z.eqb_eq]. done.
  - apply andb_true_iff in Hs as [[->%Z.eqb_eq ->%Z.eqb_eq]%andb_true_iff ->%Z.eqb_eq]. done.
Qed.

(** The [Debug] output of a byte string determines it: reading the quoted text
    back, with the escapes undone, gives the bytes. In particular no two byte
    strings print alike. *)
Theorem bstr_debug_roundtrip (bs : list Z) (Hb : Forall is_byte bs) :
  unquote (concat (bstr_debug bs)) = Some bs.
Proof.
  unfold bstr_debug. simpl. induction Hb as [|b bs Hb _ IH]; [done|].
  cbn [fmap list_fmap app concat]. rewrite unquote_byte by done. by rewrite IH.
Qed.

Lemma bstr_debug_roundtrip_witness :
  unquote (concat (bstr_debug [9; 34; 92; 120; 255; 0])) = Some [9; 34; 92; 120; 255; 0].
Proof.
  apply bstr_debug_roundtrip. repeat (apply Forall_cons_2; [vm_compute; split; congruence|]).
  apply Forall_nil_2.
Defined.

(** The [Debug] output of a C string does not: a backslash is not escaped. *)
Example cstr_debug_collides : concat (cstr_debug [92; 120; 48; 49]) = concat (cstr_debug [1]).
Proof. reflexivity. Qed.

(** ** Writers *)

Section FmtSpecs.
Context {AL : Allocator Z} {ALs : AllocatorSpec Z}.
Implicit Types (s : St Z Vec) (f : RawFormatter).

(** The measuring pass writes nothing. *)
Lemma raw_measure_ok s f c : fend f = 0 → 0 ≤ fpos f ≤ USIZE_MAX →
  raw_write_str f c s = Done ((MkRawFormatter (fbeg f) (Z.min (fpos f + Z.of_nat (length c)) USIZE_MAX) 0
    (fblk f), Ok tt), s).
Proof.
  intros He Hp. unfold raw_write_str, saturating_add, saturating_sub. rewrite He.
  rewrite (proj2 (Z.ltb_ge _ _)) by lia. done.
Qed.

Lemma measure_chunks_ok s cs : ∀ f, fend f = 0 → 0 ≤ fpos f ≤ USIZE_MAX →
  write_chunks raw_write_str f cs s =
    Done ((MkRawFormatter (fbeg f) (Z.min (fpos f + Z.of_nat (length (concat cs))) USIZE_MAX) 0 (fblk f),
      Ok tt), s).
Proof.
  induction cs as [|c cs IH]; intros f He Hp; cbn [write_chunks].
  - simpl. rewrite Z.add_0_r, Z.min_l by lia. rewrite <- He. by destruct f.
  - unfold mbind, M_bind. rewrite raw_measure_ok by done. cbn [snd fst]. rewrite IH by (simpl; lia).
    simpl. rewrite length_app. do 4 f_equal. lia.
Qed.

(** The bytes of [w] are in the buffer, the rest of [size] is free. *)
Definition filled s0 size (w : list Z) f s : Prop :=
  written s0 s 0 w ∧ fbeg f = vptr (obj s0) ∧ fblk f = vptr (obj s0) ∧
  fend f = vptr (obj s0) + size ∧ fpos f = vptr (obj s0) + Z.of_nat (length w) ∧
  Z.of_nat (length w) ≤ size.

Lemma fmt_write_str_ok s0 size w f s c :
  vec_rep s0 [] → size ≤ capacity Z (obj s0) → 0 ≤ vptr (obj s0) → vptr (obj s0) + size < USIZE_MAX →
  filled s0 size w f s →
  wp (fmt_write_str f c) (λ out s', match snd out with
    | Ok _ => filled s0 size (w ++ c) (fst out) s'
    | Err _ => size < Z.of_nat (length (w ++ c)) ∧ ∃ w', written s0 s' 0 w'
    end) s.
Proof.
  intros Hr Hcap H0 Haddr (Hw & Hb & Hk & He & Hp & Hle). pose proof Hw as (Hi & Ho & _).
  unfold fmt_write_str, raw_write_str, saturating_add, saturating_sub. apply wp_bind, wp_bind.
  rewrite He, Hp, Hk. set (p := vptr (obj s0)) in *.
  replace (p + Z.of_nat (length w) - p) with (Z.of_nat (length w)) by lia.
  assert (∀ k, Z.of_nat (length w) + Z.of_nat k ≤ size →
    wp (if 0 <? Z.of_nat k then write_slots p (Z.of_nat (length w)) (take k c) else mret tt)
      (λ _ s', written s0 s' 0 (w ++ take k c)) s) as Hwr.
  { intros k Hk'. destruct (Z.ltb_spec 0 (Z.of_nat k)) as [Hpos|Hz].
    - unfold p. rewrite <- Ho. apply wp_write_slots; [done|lia| |].
      + rewrite Ho, length_take. lia.
      + intros s' Hw'. by eapply written_app.
    - apply wp_ret. replace k with 0%nat by lia. by rewrite take_0, app_nil_r. }
  rewrite length_app. destruct (decide (Z.of_nat (length w) + Z.of_nat (length c) ≤ size)) as [Hfit|Hover].
  - rewrite (Z.min_l (p + _ + _) USIZE_MAX) by lia.
    replace (Z.max (Z.min (p + Z.of_nat (length w) + Z.of_nat (length c)) (p + size) -
      (p + Z.of_nat (length w))) 0) with (Z.of_nat (length c)) by lia.
    rewrite Nat2Z.id. eapply wp_mono; [by apply Hwr|]. intros u s' Hw'. simpl in Hw'. rewrite firstn_all in Hw'.
    apply wp_ret. cbn [snd fst fend fpos]. rewrite (proj2 (Z.ltb_ge _ _)) by lia. apply wp_ret.
    split_and!; simpl; try done; rewrite length_app; lia.
  - set (k := Z.to_nat (size - Z.of_nat (length w))).
    replace (Z.max (Z.min (Z.min (p + Z.of_nat (length w) + Z.of_nat (length c)) USIZE_MAX) (p + size) -
      (p + Z.of_nat (length w))) 0) with (Z.of_nat k) by lia.
    rewrite Nat2Z.id. eapply wp_mono; [apply Hwr; lia|]. intros u s' Hw'. apply wp_ret.
    cbn [snd fst fend fpos]. rewrite (proj2 (Z.ltb_lt _ _)) by lia. apply wp_ret. simpl.
    split; [lia|]. by exists (w ++ take k c).
Qed.

Lemma fmt_chunks_ok s0 size cs : ∀ w f s,
  vec_rep s0 [] → size ≤ capacity Z (obj s0) → 0 ≤ vptr (obj s0) → vptr (obj s0) + size < USIZE_MAX →
  filled s0 size w f s →
  wp (write_chunks fmt_write_str f cs) (λ out s', match snd out with
    | Ok _ => filled s0 size (w ++ concat cs) (fst out) s'
    | Err _ => size < Z.of_nat (length (w ++ concat cs)) ∧ ∃ w', written s0 s' 0 w'
    end) s.
Proof.
  induction cs as [|c cs IH]; intros w f s Hr Hcap H0 Haddr Hf; cbn [write_chunks].
  - apply wp_ret. simpl. by rewrite app_nil_r.
  - apply wp_bind. eapply wp_mono; [by apply (fmt_write_str_ok s0 size w)|]. intros [f' [[]|e]] s' Hs; simpl in *.
    + eapply wp_mono; [by apply (IH (w ++ c))|]. by rewrite <- app_assoc.
    + apply wp_ret. simpl. rewrite length_app in *. rewrite length_app. destruct Hs. split; [lia|done].
Qed.

(** An abandoned buffer is released. *)
Lemma fail_with_ok s0 s e w h : vec_rep s0 [] → rest s0 = h → written s0 s 0 w →
  wp (fail_with e) (λ r s', r = Err e ∧ hp s' = h) s.
Proof.
  intros Hr Hrest (Hi & Ho & _ & Hrest' & _). unfold fail_with. apply wp_bind.
  eapply (wp_vec_drop _ []).
  - split; [done|by rewrite Ho; apply Hr|by intros ? ?].
  - intros s' Hh _. apply wp_ret. split; [done|congruence].
Qed.

Lemma read_all_ok s l n : vec_rep s l → ∀ k i, (i + k = n)%nat → (n ≤ length l)%nat →
  wp ((fix go k i := match k with
        | O => mret []
        | S k => x ← read (vptr (obj s)) (off Z i); xs ← go k (i + 1); mret (x :: xs)
        end) k (Z.of_nat i)) (λ xs s', s' = s ∧ xs = take k (drop i l)) s.
Proof.
  intros Hr. induction k as [|k IH]; intros i Hik Hn.
  - by apply wp_ret.
  - destruct (lookup_lt_is_Some_2 l i) as [x Hx]; [lia|]. apply wp_bind.
    eapply wp_read with (x := x); [by apply (rep_read s l)|]. apply wp_bind.
    replace (Z.of_nat i + 1) with (Z.of_nat (S i)) by lia.
    eapply wp_mono; [apply IH; lia|]. intros xs s' [-> ->]. apply wp_ret.
    by rewrite (drop_S _ _ _ Hx).
Qed.

Lemma buf_memchr_ok s l memchr n : vec_rep s l → (n ≤ length l)%nat →
  wp (buf_memchr memchr (Z.of_nat n)) (λ r s', s' = s ∧ r = memchr (take n l) 0) s.
Proof.
  intros Hr Hn. unfold buf_memchr. apply wp_bind, wp_self, wp_bind. rewrite Nat2Z.id.
  eapply wp_mono; [apply (read_all_ok s l n Hr n 0); lia|]. intros xs s' [-> ->].
  apply wp_ret. by rewrite drop_0.
Qed.
End FmtSpecs.

Section CStringSpecs.
Context {AL : Allocator Z} {ALs : AllocatorSpec Z}.

(** The size the first pass arrives at. *)
Definition measured (a : Arguments) : Z := Z.min (Z.of_nat (length (text a)) + 1) USIZE_MAX.

Definition fmt_outcome (a1 a2 : Arguments) (h : gmap Z (block Z)) (r : result Error unit) (s' : St Z Vec) : Prop :=
  match r with
  | Ok _ => vec_rep s' (text a2 ++ [0]) ∧ cstr_ok (text a2 ++ [0]) ∧ rest s' = h ∧
      aok a1 = true ∧ aok a2 = true
  | Err e => hp s' = h ∧ (e = ENOMEM ∨ e = EINVAL ∧
      (aok a1 = false ∨ aok a2 = false ∨ 0 ∈ text a2 ∨
       measured a1 < Z.of_nat (length (text a2)) + 1))
  end.

(** The second pass, into a buffer of [size] bytes. *)
Lemma second_pass_ok memchr a1 a2 s0 h :
  (∀ l c, memchr l c = None ↔ c ∉ l) → aok a1 = true →
  vec_rep s0 [] → rest s0 = h → measured a1 ≤ capacity Z (obj s0) →
  0 ≤ vptr (obj s0) → vptr (obj s0) + measured a1 < USIZE_MAX →
  wp (o3 ← write_fmt fmt_write_str (from_buffer (vptr (obj s0)) (measured a1)) a2;
      match snd o3 with
      | Err e => fail_with (into_error e)
      | Ok _ =>
          o4 ← fmt_write_str (fst o3) [0];
          match snd o4 with
          | Err e => fail_with (into_error e)
          | Ok _ =>
              n ← lift (bytes_written (fst o4));
              _ ← inc_len n;
              m ← lift (usub n 1);
              p ← buf_memchr memchr m;
              match p with
              | Some _ => fail_with (code_error EINVAL)
              | None => mret (Ok tt)
              end
          end
      end) (fmt_outcome a1 a2 h) s0.
Proof.
  intros Hm Ha1 Hr Hrest Hcap H0 Haddr. assert (0 ≤ measured a1) by (unfold measured; usize).
  assert (filled s0 (measured a1) [] (from_buffer (vptr (obj s0)) (measured a1)) s0) as Hf.
  { unfold from_buffer, saturating_add. split_and!; simpl; try lia.
    split_and!; try done; [apply Hr|]. intros j. case_decide; [simpl in *; lia|done]. }
  apply wp_bind. unfold write_fmt. apply wp_bind.
  eapply wp_mono; [by apply (fmt_chunks_ok s0 (measured a1) (chunks a2) [])|].
  intros [f3 [[]|e3]] s3 H3; simpl in H3; apply wp_ret; cbn [snd fst].
  2: { destruct H3 as [Hlen (w' & Hw')]. eapply wp_mono; [by eapply fail_with_ok|].
       intros r s' [-> Hh]. split; [done|]. right. split; [by destruct e3|]. unfold text. do 3 right. lia. }
  destruct (aok a2) eqn:Ha2.
  2: { eapply wp_mono; [eapply fail_with_ok; [done|done|apply H3]|].
       intros r s' [-> Hh]. split; [done|]. right. split; [done|]. auto. }
  apply wp_bind. eapply wp_mono; [by eapply (fmt_write_str_ok s0 (measured a1))|].
  intros [f4 [[]|e4]] s4 H4; cbn [snd fst] in *.
  2: { destruct H4 as [Hlen (w' & Hw')]. eapply wp_mono; [by eapply fail_with_ok|].
       intros r s' [-> Hh]. split; [done|]. right. split; [by destruct e4|].
       rewrite length_app in Hlen. simpl in Hlen. unfold text. do 3 right. lia. }
  destruct H4 as (Hw & Hb & _ & _ & Hp & Hle). fold (text a2) in *.
  set (w := text a2 ++ [0]) in *.
  assert (bytes_written f4 = Done (Z.of_nat (length w))) as ->.
  { unfold bytes_written. rewrite usub_ok by lia. f_equal. lia. }
  eapply wp_bind, wp_lift; [done|]. apply wp_bind. pose proof Hw as (Hi & Ho & _).
  assert (vlen (obj s4) = 0) as Hl0 by (rewrite Ho; apply Hr).
  apply wp_inc_len; [done|rewrite Hl0, Ho; lia|].
  pose proof (rep_extend s0 s4 [] w Hr) as He. rewrite (rep_len _ _ Hr) in He.
  destruct He as (Hrep & Hrest4 & _); [simpl; lia|done|].
  assert (length w = S (length (text a2))) as Hlw by (unfold w; rewrite length_app; simpl; lia).
  eapply wp_bind, wp_lift; [apply usub_ok; lia|]. apply wp_bind.
  replace (Z.of_nat (length w) - 1) with (Z.of_nat (length (text a2))) by lia.
  eapply wp_mono; [apply (buf_memchr_ok _ w); [exact Hrep|lia]|]. intros r s5 [-> ->].
  assert (take (length (text a2)) w = text a2) as Et by (apply take_app_length).
  rewrite Et. destruct (memchr (text a2) 0) as [i|] eqn:Em.
  - unfold fail_with. apply wp_bind. eapply wp_vec_drop; [exact Hrep|]. intros s6 Hh _. apply wp_ret.
    split; [congruence|]. right. split; [done|]. right. right. left.
    destruct (decide (0 ∈ text a2)) as [|Hn]; [done|]. apply Hm in Hn. congruence.
  - apply Hm in Em. apply wp_ret. split_and!; try done.
    + by exists (text a2).
    + congruence.
Qed.

Lemma try_from_fmt_ok memchr a1 a2 s :
  (∀ l c, memchr l c = None ↔ c ∉ l) → heap_ok (hp s) →
  (∀ s1, with_capacity (measured a1) GFP_KERNEL s = Done (Ok tt, s1) →
     0 ≤ vptr (obj s1) ∧ vptr (obj s1) + measured a1 < USIZE_MAX) →
  wp (try_from_fmt memchr a1 a2) (fmt_outcome a1 a2 (hp s)) s.
Proof.
  intros Hm Hh Haddr. unfold try_from_fmt. apply wp_bind.
  eexists _, s. split.
  { unfold write_fmt, mbind, M_bind. rewrite measure_chunks_ok by (simpl; usize). reflexivity. }
  cbn [snd fst]. destruct (aok a1) eqn:Ha1.
  2: { apply wp_ret. split; [done|]. right. auto. }
  apply wp_bind. eexists _, s. split; [apply raw_measure_ok; [done|simpl; usize]|]. cbn [fst].
  assert (bytes_written (MkRawFormatter 0 (Z.min (Z.min (0 + Z.of_nat (length (concat (chunks a1)))) USIZE_MAX
    + Z.of_nat (length [0])) USIZE_MAX) 0 0) = Done (measured a1)) as Hbw.
  { unfold bytes_written, measured, text. simpl. rewrite usub_ok by usize. f_equal. usize. }
  simpl in Hbw |- *. eapply wp_bind, wp_lift; [exact Hbw|]. apply wp_bind.
  assert (is_usize (measured a1)) by (unfold measured; usize).
  destruct (with_capacity_ok s (measured a1) GFP_KERNEL) as (r & s1 & Hwc & Hpost); [done..|].
  exists r, s1. split; [done|]. destruct r as [[]|e].
  - destruct Hpost as (Hr & Hrest & _ & Hcap). destruct (Haddr s1 Hwc).
    apply wp_bind, wp_self. by apply second_pass_ok.
  - apply wp_ret. split; [apply Hpost|]. left. by destruct e.
Qed.
End CStringSpecs.

(** C24: [CString::try_from_fmt] is safe for every formatter. Whatever the two
    formatting passes write (they need not agree) and whether they report success,
    the code neither writes outside of the buffer nor panics; on success the result
    is a C string that holds exactly what the second pass wrote; on failure the
    buffer has been released, and the failure is an allocation failure or has a
    reason in the arguments: a pass reported an error, the text contains a NUL, or
    the second pass wrote more than the first one measured. *)
Theorem try_from_fmt_safe {AL : Allocator Z} {ALs : AllocatorSpec Z} memchr a1 a2 (s : St Z Vec)
    (Hm : ∀ l c, memchr l c = None ↔ c ∉ l) (Hh : heap_ok (hp s))
    (Haddr : ∀ s1, with_capacity (measured a1) GFP_KERNEL s = Done (Ok tt, s1) →
       0 ≤ vptr (obj s1) ∧ vptr (obj s1) + measured a1 < USIZE_MAX) :
  ∃ r s', try_from_fmt memchr a1 a2 s = Done (r, s') ∧ fmt_outcome a1 a2 (hp s) r s'.
Proof. exact (try_from_fmt_ok memchr a1 a2 s Hm Hh Haddr). Qed.

Definition ref_memchr (l : list Z) (c : Z) : option Z := Z.of_nat ∘ fst <$> list_find (.= c) l.

Lemma ref_memchr_ok l c : ref_memchr l c = None ↔ c ∉ l.
Proof.
  unfold ref_memchr. rewrite fmap_None, list_find_None, Forall_forall. split.
  - intros H Hc. by apply (H c).
  - intros H x Hx ->. done.
Qed.

Lemma try_from_fmt_safe_witness :
  let AL := Kmalloc (ref_realloc 4096) in
  let a1 := MkArguments [[104; 105]; [33]] true in
  let a2 := MkArguments [[104]; [111]] true in
  ∃ r s', try_from_fmt ref_memchr a1 a2 (MkSt ∅ (new Z) []) = Done (r, s') ∧
    fmt_outcome a1 a2 ∅ r s'.
Proof.
  apply (@try_from_fmt_safe (Kmalloc (ref_realloc 4096)) _ ref_memchr
    (MkArguments [[104; 105]; [33]] true) (MkArguments [[104]; [111]] true) (MkSt ∅ (new Z) [])).
  - apply ref_memchr_ok.
  - by intros ? ? ?.
  - intros s1 E. vm_compute in E. injection E as <-. vm_compute. split; congruence.
Defined.
