(* ===== verification/KBox.v ===== *)
(** * Boxes and in-place initialisation ([rust/src/alloc/kbox.rs],
      [rust/src/init.rs])

    A [Box] is a pointer to an allocation of its own. Its operations run over the
    heap and the allocator interface that [Vec] uses. An initialiser is code that
    fills a slot, at a byte offset of a block, or fails and leaves the slot without
    a value; [implements] is the contract of the traits [Init] and [PinInit]. *)

From S2P Require Import Prelude Errors Types Alloc KVec.

(** ** Initialisers *)

Section Initialisers.
Context {T : Type} {RT : RType T} {X E : Type}.
Local Abbreviation BM := (M (St T X)).

(** [__init] and [__pinned_init], on the slot at an offset of a block. *)
Definition Init : Type := Z → Z → BM (result E unit).

(** [impl Init for T]: the value itself. *)
Definition init_value (x : T) : Init := λ p o, _ ← write p o x; mret (Ok tt).

(** [uninit]: leaves the slot as it is. *)
Definition uninit : Init := λ _ _, mret (Ok tt).

(** [zeroed], for a type whose all-zero pattern is [zero]. *)
Definition zeroed (zero : T) : Init := λ p o, _ ← write p o zero; mret (Ok tt).

(** [chain]: the closure runs on the initialised slot. *)
Definition init_chain (i : Init) (f : T → T * result E unit) : Init := λ p o,
  _ ←? i p o;
  x ← read p o;
  _ ← write p o (fst (f x));
  match snd (f x) with
  | Ok _ => mret (Ok tt)
  | Err e => _ ← drop_in_place p o 1; mret (Err e)
  end.

(** [init_from_closure] of an initialiser whose error is converted. *)
Definition map_init_err {E'} (f : E → E') (i : Init) : Z → Z → BM (result E' unit) := λ p o,
  r ← i p o; mret (result_map_err f r).

(** [init_array_from_fn] and [pin_init_array_from_fn], which differ in the trait of their
    elements only: the guard counts the elements made, and drops them unless it is dismissed. *)
Fixpoint init_array_loop (make_init : Z → Init) (p o : Z) (init_count : ScopeGuard (St T X) Z) (n : nat) (i : Z) :
    BM (ScopeGuard (St T X) Z * result E unit) :=
  match n with
  | O => mret (init_count, Ok tt)
  | S n =>
      r ← make_init i p (o + off T i);
      match r with
      | Ok _ =>
          c ← scope_guard_deref init_count;
          c ← lift (uadd c 1);
          init_count ← scope_guard_deref_mut init_count c;
          init_array_loop make_init p o init_count n (i + 1)
      | Err e => mret (init_count, Err e)
      end
  end.

(** Behind the loop: the dismissal, or the drop of the guard that [?] leaves with. *)
Definition init_array_end (out : ScopeGuard (St T X) Z * result E unit) : BM (result E unit) :=
  match snd out with
  | Ok _ => _ ← dismiss (fst out); mret (Ok tt)
  | Err e => _ ← scope_guard_drop (fst out); mret (Err e)
  end.

Definition init_array_from_fn (make_init : Z → Init) (n : nat) (p o : Z) : BM (result E unit) :=
  out ← init_array_loop make_init p o (new_with_data 0 (drop_in_place p o)) n 0;
  init_array_end out.
End Initialisers.
Arguments Init T X E : clear implicits.

(** ** Boxes *)

Section Box.
Context {T : Type} {RT : RType T} {AL : Allocator T} {X : Type}.
Local Abbreviation BM := (M (St T X)).

Definition layout_of : Layout := MkLayout (size_of T) (align_of T).

(** [NonNull::new_unchecked] of null is undefined. *)
Definition from_raw (raw : Z) : BM Z := if is_null raw then ub else mret raw.

Definition into_raw (b : Z) : Z := b.

Definition new_uninit (flags : Flags) : BM (result AllocError Z) :=
  s ← get;
  let '(h, r) := alloc (hp s) layout_of flags in
  _ ← modify (set_hp h);
  out ←? mret r;
  mret (Ok (fst out)).

Definition assume_init (b : Z) : BM Z := from_raw (into_raw b).

Definition box_write (b : Z) (value : T) : BM Z := _ ← write b 0 value; assume_init b.

(** [x] is dropped when the allocation fails. *)
Definition box_new (x : T) (flags : Flags) : BM (result AllocError Z) :=
  r ← new_uninit flags;
  match r with
  | Ok b => b ← box_write b x; mret (Ok b)
  | Err e => _ ← modify (log_drop x); mret (Err e)
  end.

(** The drop of a [Box<MaybeUninit<T>>]: the contents have no destructor. *)
Definition uninit_drop (b : Z) : BM unit :=
  s ← get; modify (set_hp (free (hp s) b layout_of)).

Definition box_drop (b : Z) : BM unit := _ ← drop_in_place b 0 1; uninit_drop b.

Definition forget_contents (b : Z) : BM Z := from_raw (into_raw b).

Definition drop_contents (b : Z) : BM Z := _ ← drop_in_place b 0 1; forget_contents b.

Definition into_inner (b : Z) : BM T :=
  value ← read b 0;
  b ← forget_contents b;
  _ ← uninit_drop b;
  mret value.

Definition box_deref (b : Z) : BM T := read b 0.

(** [write_init]: [?] drops the uninitialised box. *)
Definition write_init {E} (init : Init T X E) (b : Z) : BM (result E Z) :=
  r ← init b 0;
  match r with
  | Ok _ => b ← assume_init b; mret (Ok b)
  | Err e => _ ← uninit_drop b; mret (Err e)
  end.

Definition try_init {E} (from : AllocError → E) (init : Init T X E) (flags : Flags) : BM (result E Z) :=
  r ← new_uninit flags;
  match r with
  | Ok b => write_init init b
  | Err e => mret (Err (from e))
  end.

(** [InPlaceInit::init]; [pin_init] is the same code. *)
Definition box_init {E} `{IntoError E} (init : Init T X E) (flags : Flags) : BM (result Error Z) :=
  try_init into_error (map_init_err into_error init) flags.

(** [Box::pin]: a pinned box is the box. *)
Definition box_pin (x : T) (flags : Flags) : BM (result AllocError Z) :=
  b ←? box_new x flags; mret (Ok b).

Definition box_leak (b : Z) : Z := into_raw b.

(** [ForeignOwnable] *)
Definition into_foreign (b : Z) : Z := into_raw b.
Definition from_foreign (ptr : Z) : BM Z := from_raw ptr.
Definition borrow (ptr : Z) : BM T := read ptr 0.

(** The implementation for [Box]; that for [Pin<Box>] is the same code. *)
Definition Box_foreign : ForeignOwnable (St T X) Z := {| foreign_into := into_foreign; foreign_from := from_foreign |}.

Definition Box_foreign_spec : @ForeignOwnableSpec (St T X) Z Box_foreign.
Proof.
  refine {| owned_value := λ b, is_null b = false |}; [done|].
  intros b s Hb. simpl. unfold from_foreign, from_raw, into_foreign, into_raw. by rewrite Hb.
Defined.
End Box.
Arguments layout_of T {_}.

(** ** The contract of initialisers *)

Section InitSpecs.
Context {T : Type} {RT : RType T} {RTok : RTypeOk T} {X E : Type}.
Implicit Types (s : St T X) (p o : Z).

(** The slot at offset [o] of the block at [p] may be written. *)
Definition slot_ok (h : gmap Z (block T)) p o : Prop :=
  zst_value T = None → ∃ b, h !! p = Some b ∧ in_bounds b o = true.

(** The heap with other contents of one slot. *)
Definition put_cell (h : gmap Z (block T)) p o (c : option T) : gmap Z (block T) :=
  match zst_value T with
  | Some _ => h
  | None =>
      match h !! p with
      | Some b => <[p := Block (bsize b) (partial_alter (λ _, c) o (bdata b))]> h
      | None => h
      end
  end.

Definition upd s (h : gmap Z (block T)) (D : list T) : St T X := MkSt h (obj s) (dropped s ++ D).

(** On success the slot holds the value; on failure it holds none that anyone
    owns; nothing else changes. [D] are the values dropped on the way. *)
Definition implements (i : Init T X E) (r : result E T) (D : list T) : Prop :=
  ∀ s p o, slot_ok (hp s) p o → ∃ c,
    i p o s = Done (result_map (λ _, tt) r, upd s (put_cell (hp s) p o c) D) ∧
    ∀ x, r = Ok x → c = Some x.

Lemma slot_put h p o c : slot_ok h p o → zst_value T = None → slot (put_cell h p o c) p o = c.
Proof.
  intros Hs Hz. destruct (Hs Hz) as (b & Hb & Hi). unfold put_cell, slot, read_at. rewrite Hz, Hb.
  rewrite lookup_insert_eq. unfold in_bounds in *. simpl. rewrite Hi, lookup_partial_alter_eq.
  by destruct c.
Qed.

Lemma slot_put_Some h p o x : slot_ok h p o → slot (put_cell h p o (Some x)) p o = Some x.
Proof.
  intros Hs. destruct (zst_value T) as [v|] eqn:Hz; [|by apply slot_put].
  unfold slot, read_at. rewrite Hz. f_equal. symmetry. by apply (zst_unique T _ _ Hz).
Qed.

Lemma slot_put_ne h p o o' c : o ≠ o' → slot (put_cell h p o c) p o' = slot h p o'.
Proof.
  intros Hne. unfold put_cell, slot, read_at. destruct (zst_value T); [done|].
  destruct (h !! p) as [b|] eqn:Hb; [|by rewrite Hb]. rewrite lookup_insert_eq. unfold in_bounds. simpl.
  by rewrite lookup_partial_alter_ne.
Qed.

Lemma slot_ok_put h p o c p' o' : slot_ok h p' o' → slot_ok (put_cell h p o c) p' o'.
Proof.
  intros Hs Hz. destruct (Hs Hz) as (b & Hb & Hi). unfold put_cell. rewrite Hz.
  destruct (h !! p) as [b0|] eqn:Hp; [|eauto]. rewrite lookup_insert.
  case_decide; [|eauto]. subst. rewrite Hb in Hp. injection Hp as <-. by eexists.
Qed.

Lemma put_slot h p o : slot_ok h p o → put_cell h p o (slot h p o) = h.
Proof.
  intros Hs. unfold put_cell, slot, read_at. destruct (zst_value T) eqn:Hz; [done|].
  destruct (Hs Hz) as (b & Hb & Hi). rewrite Hb, Hi. apply insert_id. rewrite Hb. f_equal.
  destruct b as [n d]. simpl. f_equal. apply map_eq. intros j. destruct (decide (o = j)) as [->|].
  - rewrite lookup_partial_alter_eq. by destruct (d !! j).
  - by rewrite lookup_partial_alter_ne.
Qed.

Lemma put_put h p o c c' : put_cell (put_cell h p o c) p o c' = put_cell h p o c'.
Proof.
  unfold put_cell. destruct (zst_value T); [done|]. destruct (h !! p) as [b|] eqn:Hp; [|by rewrite Hp].
  rewrite lookup_insert_eq, insert_insert_eq. simpl. f_equal. f_equal.
  apply map_eq. intros j. destruct (decide (o = j)) as [->|].
  - by rewrite !lookup_partial_alter_eq.
  - by rewrite !lookup_partial_alter_ne.
Qed.

Lemma write_put {Y} (s : St T Y) p o x Q :
  slot_ok (hp s) p o → Q tt (set_hp (put_cell (hp s) p o (Some x)) s) → wp (write p o x) Q s.
Proof.
  intros Hs HQ. unfold write. wp_steps. eapply wp_lift; [|by apply wp_modify].
  unfold write_at, put_cell. destruct (zst_value T) eqn:Hz; [done|].
  destruct (Hs Hz) as (b & -> & ->). done.
Qed.

(** [drop_in_place] of one value. *)
Lemma drop_one {Y} (s : St T Y) p o x Q :
  slot (hp s) p o = Some x → Q tt (log_drop x s) → wp (drop_in_place p o 1) Q s.
Proof.
  intros Hs HQ. unfold drop_in_place. change (seqZ 0 1) with [0].
  apply wp_drop_at with [x]; [|done]. repeat constructor. by rewrite Z.mul_0_l, Z.add_0_r.
Qed.

Lemma init_value_implements x : implements (init_value x) (Ok x) [].
Proof.
  intros s p o Hs. exists (Some x). split; [|by intros ? [= <-]]. apply wp_Done.
  apply wp_bind, write_put; [done|]. apply wp_ret. split; [done|].
  unfold upd, set_hp. by rewrite app_nil_r.
Qed.

(** The closure of a chained initialiser may fail: then the value is dropped. *)
Lemma init_chain_implements i f x D :
  implements i (Ok x) D →
  implements (init_chain i f) (result_map (λ _, fst (f x)) (snd (f x)))
    (D ++ match snd (f x) with Ok _ => [] | Err _ => [fst (f x)] end).
Proof.
  intros Hi s p o Hs. destruct (Hi s p o Hs) as (c & Hd & Hc). rewrite (Hc x eq_refl) in Hd.
  exists (Some (fst (f x))). split; [|by destruct (snd (f x)); intros ? [= <-]].
  apply wp_Done. eapply wp_bind. eexists _, _. split; [exact Hd|]. simpl.
  apply wp_bind. eapply wp_read; [by apply slot_put_Some|].
  apply wp_bind, write_put; [by apply slot_ok_put|]. simpl. rewrite put_put.
  destruct (snd (f x)) as [[]|e]; simpl.
  - apply wp_ret. by rewrite app_nil_r.
  - apply wp_bind. eapply drop_one; [by apply slot_put_Some|]. apply wp_ret.
    unfold log_drop, upd. simpl. by rewrite app_assoc.
Qed.

Lemma init_chain_fails i f e D : implements i (Err e) D → implements (init_chain i f) (Err e) D.
Proof.
  intros Hi s p o Hs. destruct (Hi s p o Hs) as (c & Hd & _). exists c. split; [|done].
  apply wp_Done. eapply wp_bind. eexists _, _. split; [exact Hd|]. simpl. by apply wp_ret.
Qed.

(** ** Arrays of initialisers *)

(** What a list of initialisers amounts to: all the values, or the first error and
    everything made before it dropped. *)
Fixpoint array_outcome (made : list T) (D : list T) (rs : list (result E T * list T)) :
    result E (list T) * list T :=
  match rs with
  | [] => (Ok made, D)
  | (Ok x, d) :: rs => array_outcome (made ++ [x]) (D ++ d) rs
  | (Err e, d) :: _ => (Err e, D ++ d ++ made)
  end.

Definition put_cells (h : gmap Z (block T)) p o (cs : list (option T)) : gmap Z (block T) :=
  foldl (λ h '(k, c), put_cell h p (o + off T (Z.of_nat k)) c) h (imap pair cs).

Lemma put_cells_snoc h p o cs c :
  put_cells h p o (cs ++ [c]) = put_cell (put_cells h p o cs) p (o + off T (Z.of_nat (length cs))) c.
Proof.
  unfold put_cells. rewrite imap_app, foldl_app. simpl. by rewrite Nat.add_0_r.
Qed.

Lemma slot_ok_puts h p o cs p' o' : slot_ok h p' o' → slot_ok (put_cells h p o cs) p' o'.
Proof.
  intros Hs. induction cs as [|c cs IH] using rev_ind; [done|].
  rewrite put_cells_snoc. by apply slot_ok_put.
Qed.

(** The elements written are there. *)
Lemma slot_puts h p o (xs : list T) (k : nat) x :
  (∀ j, (j < length xs)%nat → slot_ok h p (o + off T (Z.of_nat j))) →
  xs !! k = Some x → slot (put_cells h p o (Some <$> xs)) p (o + off T (Z.of_nat k)) = Some x.
Proof.
  induction xs as [|y xs IH] using rev_ind; intros Hok Hk; [done|].
  rewrite fmap_app. cbn [fmap list_fmap]. rewrite put_cells_snoc, length_fmap.
  rewrite length_app in Hok. simpl in Hok.
  apply lookup_app_Some in Hk as [Hk|[Hl Hk]].
  - apply lookup_lt_Some in Hk as Hlt. destruct (zst_value T) as [v|] eqn:Hz.
    + unfold slot, read_at. rewrite Hz. f_equal. symmetry. by apply (zst_unique T _ _ Hz).
    + rewrite slot_put_ne; [apply IH; [intros j Hj; apply Hok; lia|done]|].
      pose proof (size_of_pos Hz). unfold off. nia.
  - assert (k = length xs) as ->.
    { apply lookup_lt_Some in Hk. simpl in Hk. lia. }
    rewrite Nat.sub_diag in Hk. injection Hk as ->.
    apply slot_put_Some, slot_ok_puts, Hok. lia.
Qed.

Lemma drop_made s p o (xs : list T) Q :
  (∀ k x, xs !! k = Some x → slot (hp s) p (o + off T (Z.of_nat k)) = Some x) →
  Q tt (upd s (hp s) xs) → wp (drop_in_place p o (Z.of_nat (length xs))) Q s.
Proof.
  intros Hx HQ. apply wp_drop_at with xs; [|done].
  apply Forall2_fmap_l, Forall2_same_length_lookup. split; [rewrite length_seqZ; lia|].
  intros k i x Ho Hk. apply lookup_seqZ in Ho as [-> Hlt]. simpl. by rewrite <- (Hx k x Hk).
Qed.

Lemma init_array_loop_ok make_init p o (N : nat) : ∀ rs s0 s made D,
  (∀ j, (j < N)%nat → slot_ok (hp s0) p (o + off T (Z.of_nat j))) →
  (∀ k r d, rs !! k = Some (r, d) → implements (make_init (Z.of_nat (length made + k))) r d) →
  (length made + length rs = N)%nat → is_usize (Z.of_nat N) →
  s = upd s0 (put_cells (hp s0) p o (Some <$> made)) D →
  wp (init_array_loop make_init p o (new_with_data (Z.of_nat (length made)) (drop_in_place p o)) (length rs)
        (Z.of_nat (length made))) (λ out, wp (init_array_end out) (λ r s',
    r = result_map (λ _, tt) (fst (array_outcome made D rs)) ∧
    ∃ cs, s' = upd s0 (put_cells (hp s0) p o cs) (snd (array_outcome made D rs)) ∧
      (length cs ≤ N)%nat ∧ ∀ xs, fst (array_outcome made D rs) = Ok xs → cs = Some <$> xs)) s.
Proof.
  induction rs as [|[r d] rs IH]; intros s0 s made D Hok Him HN HNm ->; cbn [init_array_loop length].
  { apply wp_ret, wp_bind, wp_ret, wp_ret. split; [done|]. eexists. split; [done|]. rewrite length_fmap. simpl in HN.
    split; [lia|]. by intros xs [= <-]. }
  simpl in HN. apply wp_bind. pose proof (Him 0%nat r d eq_refl) as Hi. rewrite Nat.add_0_r in Hi.
  edestruct (Hi (upd s0 (put_cells (hp s0) p o (Some <$> made)) D) p) as (c & Hd & Hc).
  { apply slot_ok_puts, (Hok (length made)). lia. }
  eexists _, _. split; [exact Hd|]. assert (length made = length (Some <$> made)) as Hlm by (by rewrite length_fmap).
  destruct r as [x|e]; cbn [result_map array_outcome].
  - rewrite (Hc x eq_refl). cbn [scope_guard_deref scope_guard_deref_mut guarded new_with_data mret M_ret].
    apply wp_bind, wp_ret, wp_bind. eapply wp_lift; [apply uadd_ok; usize|]. apply wp_bind, wp_ret.
    replace (Z.of_nat (length made) + 1) with (Z.of_nat (length (made ++ [x])))
      by (rewrite length_app; simpl; lia).
    apply IH; [done| |rewrite length_app; simpl; lia|done|].
    + intros k r' d' Hk. rewrite length_app. replace (length made + length [x] + k)%nat with
        (length made + S k)%nat by (simpl; lia). by apply Him.
    + unfold upd. simpl. rewrite app_assoc, fmap_app. cbn [fmap list_fmap].
      rewrite put_cells_snoc, <- Hlm. done.
  - apply wp_ret, wp_bind. apply drop_made with (xs := made).
    + intros k x Hk. simpl. apply lookup_lt_Some in Hk as Hlt. destruct (zst_value T) as [v|] eqn:Hz.
      * unfold slot, read_at. rewrite Hz. f_equal. symmetry. by apply (zst_unique T _ _ Hz).
      * rewrite slot_put_ne by (pose proof (size_of_pos Hz); unfold off; nia).
        apply slot_puts; [|done]. intros j Hj. apply Hok. lia.
    + apply wp_ret. split; [done|]. exists ((Some <$> made) ++ [c]). split; [|split; [|done]].
      * rewrite put_cells_snoc, <- Hlm. unfold upd. simpl. by rewrite <- !app_assoc.
      * rewrite length_app, <- Hlm. simpl. lia.
Qed.
End InitSpecs.

Lemma map_init_err_implements {T} `{RTypeOk T} {X E E'} (f : E → E') (i : Init T X E) r D :
  implements i r D → implements (map_init_err f i : Init T X E') (result_map_err f r) D.
Proof.
  intros Hi s p o Hs. destruct (Hi s p o Hs) as (c & Hd & Hc). exists c. split.
  - unfold map_init_err, mbind, M_bind. rewrite Hd. by destruct r.
  - intros x Hx. apply Hc. destruct r; [|done]. by injection Hx as ->.
Qed.

(** [init_array_from_fn] is all or nothing. For every array of initialisers that
    keep the contract of [Init], the array ends up fully initialised with their
    values in order; or the first failing one determines the error, the ones after
    it never run and exactly the values made before it have been dropped. Nothing
    outside of the array changes. *)
Theorem init_array_all_or_nothing {T} `{RTypeOk T} {X E} (make_init : Z → Init T X E) p o
    (rs : list (result E T * list T)) (s : St T X)
    (Hok : ∀ j, (j < length rs)%nat → slot_ok (hp s) p (o + off T (Z.of_nat j)))
    (Him : ∀ k r d, rs !! k = Some (r, d) → implements (make_init (Z.of_nat k)) r d)
    (HN : is_usize (Z.of_nat (length rs))) :
  ∃ cs, init_array_from_fn make_init (length rs) p o s =
      Done (result_map (λ _, tt) (fst (array_outcome [] [] rs)),
            upd s (put_cells (hp s) p o cs) (snd (array_outcome [] [] rs))) ∧
    (length cs ≤ length rs)%nat ∧
    match fst (array_outcome [] [] rs) with
    | Ok xs => ∀ (k : nat) x, xs !! k = Some x →
        slot (put_cells (hp s) p o cs) p (o + off T (Z.of_nat k)) = Some x
    | Err _ => True
    end.
Proof.
  destruct (init_array_loop_ok make_init p o (length rs) rs s s [] []) as (out & s1 & Hl1 & r & s' & Hd & -> & cs & -> & Hl & Hcs).
  - done.
  - done.
  - done.
  - done.
  - unfold upd. simpl. by rewrite app_nil_r; destruct s.
  - exists cs. split; [change (Z.of_nat (length [])) with 0 in Hl1; unfold init_array_from_fn, mbind, M_bind; by rewrite Hl1|]. split; [done|].
    destruct (fst (array_outcome [] [] rs)) as [xs|e]; [|done]. intros k x Hk.
    rewrite (Hcs xs eq_refl). apply slot_puts; [|done]. intros j Hj. apply Hok.
    rewrite (Hcs xs eq_refl), length_fmap in Hl. lia.
Qed.

(** Three elements, the last of which fails after the chained closure rejects it. *)
Lemma init_array_all_or_nothing_witness :
  let f x := (x + 1, if x <? 20 then Ok tt else Err (code_error EINVAL)) in
  let mk i : Init Z unit Error := init_chain (init_value (10 * i)) f in
  let rs := [(Ok 1, []); (Ok 11, []); (Err (code_error EINVAL), [21])] in
  let s := MkSt {[ 4096 := Block 64 ∅ ]} tt [] in
  array_outcome [] [] rs = (Err (code_error EINVAL), [21; 1; 11]) ∧
  ∃ cs, init_array_from_fn mk 3 4096 8 s = Done (Err (code_error EINVAL), upd s (put_cells (hp s) 4096 8 cs) [21; 1; 11]) ∧
    (length cs ≤ 3)%nat ∧ True.
Proof.
  intros f mk rs s. split; [reflexivity|].
  apply (init_array_all_or_nothing mk 4096 8 rs s).
  - intros j Hj _. exists (Block 64 ∅). split; [reflexivity|].
    destruct j as [|[|[|j]]]; [reflexivity..|simpl in Hj; lia].
  - intros k r d Hk. destruct k as [|[|[|k]]]; simplify_eq/=.
    + exact (init_chain_implements (init_value 0) f 0 [] (init_value_implements 0)).
    + exact (init_chain_implements (init_value 10) f 10 [] (init_value_implements 10)).
    + exact (init_chain_implements (init_value 20) f 20 [] (init_value_implements 20)).
  - split; by vm_compute.
Defined.

(** ** Programs on boxes *)

Section BoxSpecs.
Context {T : Type} {RT : RType T} {RTok : RTypeOk T} {AL : Allocator T} {ALs : AllocatorSpec T} {X : Type}.
Implicit Types (s : St T X) (p : Z) (h : gmap Z (block T)).

(** What a client does with its boxes, named by numbers. *)
Inductive BoxOp :=
| BNew (k : nat) (x : T) (fl : Flags)
| BNewUninit (k : nat) (fl : Flags)
| BTryInit (k : nat) (init : Init T X Error) (r : result Error T) (D : list T) (fl : Flags)
| BWrite (k : nat) (x : T)
| BDeref (k : nat)
| BReplace (k : nat) (x : T)
| BForeign (k : nat)
| BDropContents (k : nat)
| BIntoInner (k : nat)
| BDrop (k : nat).

Inductive BoxOut := ONone | OFail (e : Error) | OVal (x : T).

(** The client's boxes: pointer and whether the type says initialised. *)
Local Abbreviation Boxes := (gmap nat (Z * bool)).

(** Records the outcome of a constructor. *)
Definition bind_box (t : Boxes) (k : nat) (i : bool) (r : result Error Z) : Boxes * BoxOut :=
  match r with Ok b => (<[k := (b, i)]> t, ONone) | Err e => (t, OFail e) end.

(** One operation; one that the types rule out is skipped. *)
Definition box_step (t : Boxes) (op : BoxOp) : M (St T X) (Boxes * BoxOut) :=
  match op with
  | BNew k x fl =>
      if t !! k is Some _ then mret (t, ONone)
      else r ← box_new x fl; mret (bind_box t k true (result_map_err into_error r))
  | BNewUninit k fl =>
      if t !! k is Some _ then mret (t, ONone)
      else r ← new_uninit fl; mret (bind_box t k false (result_map_err into_error r))
  | BTryInit k init _ _ fl =>
      if t !! k is Some _ then mret (t, ONone)
      else r ← try_init into_error init fl; mret (bind_box t k true r)
  | BWrite k x =>
      match t !! k with
      | Some (b, false) => b ← box_write b x; mret (<[k := (b, true)]> t, ONone)
      | _ => mret (t, ONone)
      end
  | BDeref k =>
      match t !! k with
      | Some (b, true) => x ← box_deref b; mret (t, OVal x)
      | _ => mret (t, ONone)
      end
  | BReplace k x =>
      match t !! k with
      | Some (b, true) => y ← box_deref b; _ ← write b 0 x; mret (t, OVal y)
      | _ => mret (t, ONone)
      end
  | BForeign k =>
      match t !! k with
      | Some (b, true) =>
          x ← borrow (into_foreign b); b ← from_foreign (into_foreign b);
          mret (<[k := (b, true)]> t, OVal x)
      | _ => mret (t, ONone)
      end
  | BDropContents k =>
      match t !! k with
      | Some (b, true) => b ← drop_contents b; mret (<[k := (b, false)]> t, ONone)
      | _ => mret (t, ONone)
      end
  | BIntoInner k =>
      match t !! k with
      | Some (b, true) => x ← into_inner b; mret (delete k t, OVal x)
      | _ => mret (t, ONone)
      end
  | BDrop k =>
      match t !! k with
      | Some (b, true) => _ ← box_drop b; mret (delete k t, ONone)
      | Some (b, false) => _ ← uninit_drop b; mret (delete k t, ONone)
      | None => mret (t, ONone)
      end
  end.

Fixpoint box_run (t : Boxes) (ops : list BoxOp) : M (St T X) (Boxes * list BoxOut) :=
  match ops with
  | [] => mret (t, [])
  | op :: ops =>
      '(t, o) ← box_step t op;
      '(t, os) ← box_run t ops;
      mret (t, o :: os)
  end.

(** *** The same on values *)

Local Abbreviation Vals := (gmap nat (option T)).

Definition spec_make (ok : bool) (v : Vals) (k : nat) (r : result Error (option T)) (Dfail D : list T) :
    Vals * BoxOut * list T :=
  if ok then
    match r with Ok c => (<[k := c]> v, ONone, D) | Err e => (v, OFail e, D) end
  else (v, OFail ENOMEM, Dfail).

(** [ok]: whether the allocator, if asked, has memory. The last component is what
    is dropped. *)
Definition box_spec (ok : bool) (v : Vals) (op : BoxOp) : Vals * BoxOut * list T :=
  match op with
  | BNew k x _ => if v !! k is Some _ then (v, ONone, []) else spec_make ok v k (Ok (Some x)) [x] []
  | BNewUninit k _ => if v !! k is Some _ then (v, ONone, []) else spec_make ok v k (Ok None) [] []
  | BTryInit k _ r D _ => if v !! k is Some _ then (v, ONone, []) else spec_make ok v k (result_map Some r) [] D
  | BWrite k x => match v !! k with Some None => (<[k := Some x]> v, ONone, []) | _ => (v, ONone, []) end
  | BDeref k | BForeign k => match v !! k with Some (Some x) => (v, OVal x, []) | _ => (v, ONone, []) end
  | BReplace k x => match v !! k with Some (Some y) => (<[k := Some x]> v, OVal y, []) | _ => (v, ONone, []) end
  | BDropContents k => match v !! k with Some (Some x) => (<[k := None]> v, ONone, [x]) | _ => (v, ONone, []) end
  | BIntoInner k => match v !! k with Some (Some x) => (delete k v, OVal x, []) | _ => (v, ONone, []) end
  | BDrop k => match v !! k with
      | Some c => (delete k v, ONone, option_list c)
      | None => (v, ONone, [])
      end
  end.

Inductive box_exec : Vals → list BoxOp → Vals → list BoxOut → list T → Prop :=
| exec_nil v : box_exec v [] v [] []
| exec_cons v op ops v1 o D v2 os D' ok :
    box_spec ok v op = (v1, o, D) → box_exec v1 ops v2 os D' →
    box_exec v (op :: ops) v2 (o :: os) (D ++ D').

(** *** Representation *)

(** The boxes of [v] live at distinct addresses outside of the frame [h0]. *)
Record boxes_rep h0 (t : Boxes) (v : Vals) h : Prop := {
  br_heap : heap_ok h;
  br_dom : ∀ k, (λ c : option T, bool_decide (is_Some c)) <$> v !! k = snd <$> t !! k;
  br_pos : ∀ k b i, t !! k = Some (b, i) → 0 < b;
  br_block : ∀ k b i, t !! k = Some (b, i) → zst_value T = None →
    h0 !! b = None ∧ ∃ bl, h !! b = Some bl ∧ size_of T ≤ bsize bl;
  br_val : ∀ k b i x, t !! k = Some (b, i) → v !! k = Some (Some x) → slot h b 0 = Some x;
  br_inj : ∀ k k' b i i', zst_value T = None → t !! k = Some (b, i) → t !! k' = Some (b, i') → k = k';
  br_frame : ∀ q, (zst_value T = None → ∀ k b i, t !! k = Some (b, i) → q ≠ b) → h !! q = h0 !! q
}.

(** *** Allocation *)

Lemma layout_of_ok : layout_ok (layout_of T).
Proof.
  pose proof (size_of_nonneg T). pose proof (array_layout_ok (T:=T) 1) as H1. unfold array_layout in H1.
  rewrite Z.mul_1_l in H1. apply H1; usize.
Qed.

Lemma align_pos : 0 < align_of T.
Proof. apply pow2_pos, (align_of_pow2 T). Qed.

(** The heap after an allocation at [b]. *)
Definition allocated h b h' : Prop :=
  0 < b ∧ heap_ok h' ∧
  (is_Some (zst_value T) → h' = h) ∧
  (zst_value T = None → h !! b = None ∧ ∃ bl, h' = <[b := bl]> h ∧ size_of T ≤ bsize bl).

Lemma wp_new_uninit s fl Q : heap_ok (hp s) →
  Q (Err MkAllocError) s →
  (∀ b h', allocated (hp s) b h' → Q (Ok b) (set_hp h' s)) →
  wp (new_uninit fl) Q s.
Proof.
  intros Hh Herr Hok. unfold new_uninit. wp_step. wp_step. unfold alloc.
  pose proof (realloc_spec (hp s) None (layout_of T) layout_unit fl) as Hp.
  destruct (realloc (hp s) None (layout_of T) layout_unit fl) as [h' r].
  assert (owned None layout_unit = None) as Ho by (unfold owned; by destruct (lsize layout_unit =? 0)).
  specialize (Hp ltac:(split_and!; [done|apply layout_of_ok|apply layout_unit_ok|by rewrite Ho])).
  wp_steps. destruct r as [[p n]|[]]; simpl in *.
  - apply wp_ret, Hok. rewrite Ho in Hp. simpl in Hp. pose proof align_pos as Ha.
    pose proof (zst_iff T) as Hz. destruct (Z.eqb_spec (size_of T) 0) as [E|E].
    + destruct Hp as [-> ->]. split_and!; [done..|]. intros HN. apply Hz in E as [? E]. congruence.
    + destruct Hp as (Hn & Hpos & _ & b' & -> & Hsz & _). split_and!; [done| | |].
      * apply heap_ok_insert; [done..|]. pose proof (size_of_nonneg T). lia.
      * intros HS. by apply Hz in HS.
      * intros _. split; [done|]. exists b'. split; [done|lia].
  - rewrite Hp. by destruct s.
Qed.

Definition freed h b : gmap Z (block T) := if zst_value T is Some _ then h else delete b h.

Lemma wp_uninit_drop s b Q : heap_ok (hp s) →
  (zst_value T = None → ∃ bl, hp s !! b = Some bl ∧ size_of T ≤ bsize bl) →
  Q tt (set_hp (freed (hp s) b) s) → wp (uninit_drop b) Q s.
Proof.
  intros Hh Hb HQ. unfold uninit_drop. wp_steps. unfold free.
  pose proof (realloc_unit (hp s) (Some b) (layout_of T) (MkFlags 0)) as Hu.
  pose proof (realloc_spec (hp s) (Some b) layout_unit (layout_of T) (MkFlags 0)) as Hp.
  destruct (realloc (hp s) (Some b) layout_unit (layout_of T) (MkFlags 0)) as [h' r].
  pose proof (zst_iff T) as Hz. assert (realloc_pre (hp s) (Some b) layout_unit (layout_of T)) as Hpre.
  { split_and!; [done|apply layout_unit_ok|apply layout_of_ok|]. unfold owned. simpl.
    destruct (Z.eqb_spec (size_of T) 0) as [E|E]; [done|]. intros p [= <-]. apply Hb.
    destruct (zst_value T) eqn:Ez; [|done]. exfalso. apply E, Hz. eauto. }
  specialize (Hp Hpre). destruct r as [[p n]|e]; [|done]. simpl in *. destruct Hp as [-> _].
  unfold freed, owned in *. simpl. destruct (Z.eqb_spec (size_of T) 0) as [E|E].
  - apply Hz in E as [v E]. by rewrite E in HQ.
  - destruct (zst_value T) eqn:Ez; [|done]. exfalso. apply E, Hz. eauto.
Qed.

(** *** The representation under the operations *)

Lemma rep_slot_ok h0 t v h k b i : boxes_rep h0 t v h → t !! k = Some (b, i) → slot_ok h b 0.
Proof.
  intros Hr Hk Hz. destruct (br_block _ _ _ _ Hr k b i Hk Hz) as (_ & bl & Hb & Hs).
  exists bl. split; [done|]. unfold in_bounds. simpl. apply Z.leb_le. lia.
Qed.

Lemma rep_alloc h0 t v h k b h' :
  boxes_rep h0 t v h → t !! k = None → allocated h b h' →
  boxes_rep h0 (<[k := (b, false)]> t) (<[k := None]> v) h'.
Proof.
  intros [Hh Hd Hp Hb Hv Hi Hf] Hk (Hpos & Hh' & Hz & Hn).
  assert (zst_value T = None → ∀ k' b' i, t !! k' = Some (b', i) → b' ≠ b) as Hne.
  { intros Ez k' b' i Ht ->. destruct (Hb _ _ _ Ht Ez) as (_ & bl & E & _).
    destruct (Hn Ez) as [E' _]. congruence. }
  split.
  - done.
  - intros k'. rewrite !lookup_insert. by case_decide.
  - intros k' b' i. rewrite lookup_insert_Some. intros [[_ [= <- _]]|[_ ?]]; eauto.
  - intros k' b' i Ht Ez. destruct (Hn Ez) as (Hfresh & bl & -> & Hs). revert Ht.
    rewrite lookup_insert_Some. intros [[_ [= <- _]]|[_ Ht]].
    + split; [|exists bl; by rewrite lookup_insert_eq]. rewrite <- Hf; [done|]. intros _ k2 b2 i2 Ht E.
      subst b2. by eapply Hne.
    + destruct (Hb _ _ _ Ht Ez) as (? & bl' & E & ?). split; [done|]. exists bl'.
      rewrite lookup_insert_ne; [done|]. intros ->. by eapply Hne.
  - intros k' b' i x. rewrite !lookup_insert. case_decide; [done|]. intros Ht Hx.
    specialize (Hv _ _ _ _ Ht Hx). destruct (zst_value T) as [z|] eqn:Ez; [by rewrite Hz|].
    destruct (Hn eq_refl) as (Hfresh & bl & -> & Hs). unfold slot, read_at in *. rewrite Ez in *.
    rewrite lookup_insert_ne; [done|]. intros ->. by eapply Hne.
  - intros k1 k2 b' i1 i2 Ez. rewrite !lookup_insert_Some.
    intros [[<- [= <- <-]]|[_ H1]] [[<- [= <-]]|[_ H2]]; try done; [| |by eapply Hi].
    + exfalso. by eapply Hne.
    + subst. exfalso. by eapply Hne.
  - intros q Hq. destruct (zst_value T) as [z|] eqn:Ez.
    + rewrite Hz by eauto. by apply Hf.
    + destruct (Hn eq_refl) as (Hfresh & bl & -> & Hs). rewrite lookup_insert_ne.
      * apply Hf. intros _ k' b' i Ht. apply (Hq eq_refl k' b' i). rewrite lookup_insert_ne; [done|congruence].
      * intros <-. apply (Hq eq_refl k b false); [apply lookup_insert_eq|done].
Qed.

(** Another content of a box; [c'] may be left over in an uninitialised slot. *)
Lemma rep_cell h0 t v h k b i c c' :
  boxes_rep h0 t v h → t !! k = Some (b, i) → (∀ x, c = Some x → c' = Some x) →
  boxes_rep h0 (<[k := (b, bool_decide (is_Some c))]> t) (<[k := c]> v) (put_cell h b 0 c').
Proof.
  intros Hr Hk Hc. pose proof (rep_slot_ok _ _ _ _ _ _ _ Hr Hk) as Hsl. destruct Hr as [Hh Hd Hp Hb Hv Hi Hf].
  assert (∀ k' b' i', <[k := (b, bool_decide (is_Some c))]> t !! k' = Some (b', i') →
    ∃ i'', t !! k' = Some (b', i'')) as Hold.
  { intros k' b' i'. rewrite lookup_insert_Some. intros [[<- [= <- _]]|[_ ?]]; eauto. }
  assert (∀ q, q ≠ b → put_cell h b 0 c' !! q = h !! q) as Hq.
  { intros q Hq. unfold put_cell. destruct (zst_value T); [done|]. destruct (h !! b); [|done].
    by rewrite lookup_insert_ne. }
  split.
  - unfold put_cell. destruct (zst_value T); [done|]. destruct (h !! b) as [bl|] eqn:E; [|done].
    apply Hh in E as E'. apply heap_ok_insert; [done|lia|simpl; lia].
  - intros k'. rewrite !lookup_insert. case_decide; [done|apply Hd].
  - intros k' b' i' [i'' Ht]%Hold. eauto.
  - intros k' b' i' [i'' Ht]%Hold Ez. destruct (Hb _ _ _ Ht Ez) as (? & bl & E & ?). split; [done|].
    unfold put_cell. rewrite Ez. destruct (h !! b) as [bl0|] eqn:E0; [|eauto].
    rewrite lookup_insert. case_decide; [|eauto]. subst. eexists. split; [done|]. simpl. congruence.
  - intros k' b' i' x. rewrite !lookup_insert. case_decide as Ek.
    + intros [= <- _] [= Hx]. rewrite (Hc x Hx). by apply slot_put_Some.
    + intros Ht Hx. specialize (Hv _ _ _ _ Ht Hx). unfold slot, read_at in *.
      destruct (zst_value T) eqn:Ez; [done|]. rewrite Hq; [done|]. intros ->. by eapply Ek, Hi.
  - intros k1 k2 b' i1 i2 Ez [? H1]%Hold [? H2]%Hold. by eapply Hi.
  - intros q Hne. destruct (zst_value T) as [z|] eqn:Ez.
    + unfold put_cell. rewrite Ez. by apply Hf.
    + rewrite Hq.
      * apply Hf. intros _ k' b' i' Ht. destruct (decide (k = k')) as [<-|].
        -- rewrite Hk in Ht. injection Ht as <- _. eapply (Hne eq_refl k). apply lookup_insert_eq.
        -- eapply (Hne eq_refl k'). by rewrite lookup_insert_ne.
      * eapply (Hne eq_refl k). apply lookup_insert_eq.
Qed.

Lemma rep_free h0 t v h k b i :
  boxes_rep h0 t v h → t !! k = Some (b, i) → boxes_rep h0 (delete k t) (delete k v) (freed h b).
Proof.
  intros [Hh Hd Hp Hb Hv Hi Hf] Hk.
  assert (zst_value T = None → ∀ k' b' i', delete k t !! k' = Some (b', i') → b' ≠ b) as Hne.
  { intros Ez k' b' i'. rewrite lookup_delete_Some. intros [Hkk Ht] ->. by eapply Hkk, Hi. }
  split.
  - unfold freed. destruct (zst_value T); [done|by apply heap_ok_delete].
  - intros k'. rewrite !lookup_delete. case_decide; [done|apply Hd].
  - intros k' b' i'. rewrite lookup_delete_Some. intros [_ ?]. eauto.
  - intros k' b' i' Ht Ez. specialize (Hne Ez _ _ _ Ht). apply lookup_delete_Some in Ht as [_ Ht].
    unfold freed. rewrite Ez, lookup_delete_ne by done. eauto.
  - intros k' b' i' x Ht. rewrite lookup_delete_Some. intros [_ Hx].
    unfold freed, slot, read_at in *. destruct (zst_value T) eqn:Ez.
    + apply lookup_delete_Some in Ht as [_ Ht]. by apply (Hv k' b' i').
    + specialize (Hne eq_refl _ _ _ Ht). apply lookup_delete_Some in Ht as [_ Ht].
      rewrite lookup_delete_ne by done. by apply (Hv k' b' i').
  - intros k1 k2 b' i1 i2 Ez. rewrite !lookup_delete_Some. intros [_ H1] [_ H2]. by eapply Hi.
  - intros q Hq. unfold freed. destruct (zst_value T) as [z|] eqn:Ez; [by apply Hf|].
    rewrite lookup_delete. case_decide as Eq.
    + subst. symmetry. by apply (Hb k q i Hk).
    + apply Hf. intros _ k' b' i' Ht. destruct (decide (k = k')) as [<-|Hkk].
      * congruence.
      * apply (Hq eq_refl k' b' i'). by rewrite lookup_delete_ne.
Qed.

Lemma rep_empty h0 v h : boxes_rep h0 ∅ v h → h = h0.
Proof. intros Hr. apply map_eq. intros q. by apply (br_frame _ _ _ _ Hr). Qed.

Lemma rep_init h : heap_ok h → boxes_rep h ∅ ∅ h.
Proof. intros Hh. split; try done. Qed.

Lemma rep_drop_pre h0 t v s k b i : boxes_rep h0 t v (hp s) → t !! k = Some (b, i) →
  zst_value T = None → ∃ bl, hp s !! b = Some bl ∧ size_of T ≤ bsize bl.
Proof. intros Hr Hk Ez. by apply (br_block _ _ _ _ Hr k b i Hk Ez). Qed.

Lemma wp_from_raw {Y} (s : St T Y) p Q : 0 < p → Q p s → wp (from_raw p) Q s.
Proof.
  intros Hp HQ. unfold from_raw, is_null, null. rewrite (proj2 (Z.eqb_neq _ _)) by lia. by apply wp_ret.
Qed.

(** *** Every operation *)

Definition op_ok (op : BoxOp) : Prop :=
  match op with BTryInit _ init r D _ => implements init r D | _ => True end.

Definition step_post h0 v s (op : BoxOp) (out : Boxes * BoxOut) s' : Prop :=
  ∃ ok v' D, box_spec ok v op = (v', snd out, D) ∧ boxes_rep h0 (fst out) v' (hp s') ∧
    dropped s' = dropped s ++ D.

(** The views of one box. *)
Lemma rep_view h0 t v h k : boxes_rep h0 t v h →
  match t !! k with
  | Some (b, true) => ∃ x, v !! k = Some (Some x) ∧ slot h b 0 = Some x
  | Some (_, false) => v !! k = Some None
  | None => v !! k = None
  end.
Proof.
  intros Hr. pose proof (br_dom _ _ _ _ Hr k) as Hd. pose proof (br_val _ _ _ _ Hr k) as Hv.
  destruct (t !! k) as [[b []]|], (v !! k) as [[x|]|]; simplify_eq/=; eauto.
Qed.

(** An operation that the types rule out. *)
Lemma step_skip h0 t v s op :
  boxes_rep h0 t v (hp s) → box_spec true v op = (v, ONone, []) →
  wp (mret (t, ONone)) (step_post h0 v s op) s.
Proof. intros Hr Hs. apply wp_ret. exists true, v, []. by rewrite app_nil_r. Qed.

Lemma step_new h0 t v s k x fl :
  boxes_rep h0 t v (hp s) → t !! k = None → v !! k = None →
  wp (r ← box_new x fl; mret (bind_box t k true (result_map_err into_error r)))
    (step_post h0 v s (BNew k x fl)) s.
Proof.
  intros Hr Ht Hv. apply wp_bind. unfold box_new. apply wp_bind. apply wp_new_uninit.
  - apply Hr.
  - wp_steps. exists false, v, [x]. simpl. rewrite Hv. done.
  - intros b h' Ha. pose proof (rep_alloc _ _ _ _ _ _ _ Hr Ht Ha) as Hr'.
    pose proof (lookup_insert_eq t k (b, false)) as Hk.
    apply wp_bind. unfold box_write. apply wp_bind, write_put; [by eapply rep_slot_ok|].
    apply wp_from_raw; [apply Ha|]. apply wp_ret, wp_ret. exists true. simpl. rewrite Hv.
    eexists _, []. split; [done|]. rewrite app_nil_r. split; [|done].
    pose proof (rep_cell _ _ _ _ _ _ _ (Some x) (Some x) Hr' Hk) as Hc.
    rewrite !insert_insert_eq in Hc. by apply Hc.
Qed.

Lemma step_new_uninit h0 t v s k fl :
  boxes_rep h0 t v (hp s) → t !! k = None → v !! k = None →
  wp (r ← new_uninit fl; mret (bind_box t k false (result_map_err into_error r)))
    (step_post h0 v s (BNewUninit k fl)) s.
Proof.
  intros Hr Ht Hv. apply wp_bind, wp_new_uninit.
  - apply Hr.
  - wp_steps. exists false, v, []. simpl. rewrite Hv, app_nil_r. done.
  - intros b h' Ha. apply wp_ret. exists true. simpl. rewrite Hv. eexists _, []. rewrite app_nil_r.
    split; [done|]. split; [|done]. by eapply rep_alloc.
Qed.

Lemma step_try_init h0 t v s k init r D fl :
  boxes_rep h0 t v (hp s) → t !! k = None → v !! k = None → implements init r D →
  wp (o ← try_init into_error init fl; mret (bind_box t k true o))
    (step_post h0 v s (BTryInit k init r D fl)) s.
Proof.
  intros Hr Ht Hv Hi. apply wp_bind. unfold try_init. apply wp_bind, wp_new_uninit.
  - apply Hr.
  - wp_steps. exists false, v, []. simpl. rewrite Hv, app_nil_r. done.
  - intros b h' Ha. pose proof (rep_alloc _ _ _ _ _ _ _ Hr Ht Ha) as Hr'.
    pose proof (lookup_insert_eq t k (b, false)) as Hk.
    unfold write_init. apply wp_bind.
    destruct (Hi (set_hp h' s) b 0) as (c & Hd & Hc); [by eapply rep_slot_ok|].
    eexists _, _. split; [exact Hd|]. destruct r as [x|e]; simpl.
    + apply wp_bind, wp_from_raw; [apply Ha|]. apply wp_ret, wp_ret. exists true. simpl. rewrite Hv.
      eexists _, D. split; [done|]. split; [|done].
      pose proof (rep_cell _ _ _ _ _ _ _ (Some x) c Hr' Hk) as Hcell.
      rewrite !insert_insert_eq in Hcell. apply Hcell. intros ? [= <-]. by apply Hc.
    + pose proof (rep_cell _ _ _ _ _ _ _ None c Hr' Hk ltac:(done)) as Hcell.
      rewrite !insert_insert_eq in Hcell.
      apply wp_bind, wp_uninit_drop; [apply Hcell|by eapply rep_drop_pre|].
      apply wp_ret, wp_ret. exists true. simpl. rewrite Hv. eexists v, D. split; [done|]. split; [|done].
      pose proof (rep_free _ _ _ _ _ _ _ Hcell Hk) as Hfree.
      by rewrite !delete_insert_id in Hfree.
Qed.

(** The operations on an existing box. *)
Lemma step_deref h0 t v s k b x :
  boxes_rep h0 t v (hp s) → v !! k = Some (Some x) → slot (hp s) b 0 = Some x →
  wp (y ← box_deref b; mret (t, OVal y)) (step_post h0 v s (BDeref k)) s.
Proof.
  intros Hr Hv Hsl. apply wp_bind. eapply wp_read; [done|]. apply wp_ret.
  exists true, v, []. simpl. by rewrite Hv, app_nil_r.
Qed.

Lemma step_replace h0 t v s k b x y :
  boxes_rep h0 t v (hp s) → t !! k = Some (b, true) → v !! k = Some (Some x) → slot (hp s) b 0 = Some x →
  wp (z ← box_deref b; _ ← write b 0 y; mret (t, OVal z)) (step_post h0 v s (BReplace k y)) s.
Proof.
  intros Hr Ht Hv Hsl. apply wp_bind. eapply wp_read; [done|].
  apply wp_bind, write_put; [by eapply rep_slot_ok|]. apply wp_ret.
  exists true, (<[k := Some y]> v), []. simpl. rewrite Hv, app_nil_r. split_and!; [done| |done].
  pose proof (rep_cell _ _ _ _ _ _ _ (Some y) (Some y) Hr Ht) as Hc.
  rewrite insert_id in Hc by done. by apply Hc.
Qed.

Lemma step_foreign h0 t v s k b x :
  boxes_rep h0 t v (hp s) → t !! k = Some (b, true) → v !! k = Some (Some x) → slot (hp s) b 0 = Some x →
  wp (y ← borrow (into_foreign b); b ← from_foreign (into_foreign b); mret (<[k := (b, true)]> t, OVal y))
    (step_post h0 v s (BForeign k)) s.
Proof.
  intros Hr Ht Hv Hsl. apply wp_bind. eapply wp_read; [done|].
  apply wp_bind, wp_from_raw; [by eapply (br_pos _ _ _ _ Hr)|]. apply wp_ret.
  exists true, v, []. simpl. rewrite Hv, app_nil_r, insert_id by done. done.
Qed.

Lemma step_drop_contents h0 t v s k b x :
  boxes_rep h0 t v (hp s) → t !! k = Some (b, true) → v !! k = Some (Some x) → slot (hp s) b 0 = Some x →
  wp (b ← drop_contents b; mret (<[k := (b, false)]> t, ONone)) (step_post h0 v s (BDropContents k)) s.
Proof.
  intros Hr Ht Hv Hsl. apply wp_bind. unfold drop_contents. apply wp_bind. eapply drop_one; [done|].
  apply wp_from_raw; [by eapply (br_pos _ _ _ _ Hr)|]. apply wp_ret.
  exists true, (<[k := None]> v), [x]. simpl. rewrite Hv. split_and!; [done| |done].
  pose proof (rep_cell _ _ _ _ _ _ _ None (slot (hp s) b 0) Hr Ht ltac:(done)) as Hc.
  rewrite put_slot in Hc; [exact Hc|by eapply rep_slot_ok].
Qed.

Lemma step_into_inner h0 t v s k b x :
  boxes_rep h0 t v (hp s) → t !! k = Some (b, true) → v !! k = Some (Some x) → slot (hp s) b 0 = Some x →
  wp (y ← into_inner b; mret (delete k t, OVal y)) (step_post h0 v s (BIntoInner k)) s.
Proof.
  intros Hr Ht Hv Hsl. apply wp_bind. unfold into_inner. apply wp_bind. eapply wp_read; [done|].
  apply wp_bind, wp_from_raw; [by eapply (br_pos _ _ _ _ Hr)|].
  apply wp_bind, wp_uninit_drop; [apply Hr|by eapply rep_drop_pre|]. apply wp_ret, wp_ret.
  exists true, (delete k v), []. simpl. rewrite Hv, app_nil_r. split_and!; [done| |done]. by eapply rep_free.
Qed.

Lemma step_drop h0 t v s k b x :
  boxes_rep h0 t v (hp s) → t !! k = Some (b, true) → v !! k = Some (Some x) → slot (hp s) b 0 = Some x →
  wp (_ ← box_drop b; mret (delete k t, ONone)) (step_post h0 v s (BDrop k)) s.
Proof.
  intros Hr Ht Hv Hsl. apply wp_bind. unfold box_drop. apply wp_bind. eapply drop_one; [done|].
  apply wp_uninit_drop; [apply Hr|by eapply rep_drop_pre|]. apply wp_ret.
  exists true, (delete k v), [x]. simpl. rewrite Hv. split_and!; [done| |done]. by eapply rep_free.
Qed.

Lemma step_drop_uninit h0 t v s k b :
  boxes_rep h0 t v (hp s) → t !! k = Some (b, false) → v !! k = Some None →
  wp (_ ← uninit_drop b; mret (delete k t, ONone)) (step_post h0 v s (BDrop k)) s.
Proof.
  intros Hr Ht Hv. apply wp_bind, wp_uninit_drop; [apply Hr|by eapply rep_drop_pre|]. apply wp_ret.
  exists true, (delete k v), []. simpl. rewrite Hv, app_nil_r. split_and!; [done| |done]. by eapply rep_free.
Qed.

Lemma step_write h0 t v s k b x :
  boxes_rep h0 t v (hp s) → t !! k = Some (b, false) → v !! k = Some None →
  wp (b ← box_write b x; mret (<[k := (b, true)]> t, ONone)) (step_post h0 v s (BWrite k x)) s.
Proof.
  intros Hr Ht Hv. apply wp_bind. unfold box_write. apply wp_bind, write_put; [by eapply rep_slot_ok|].
  apply wp_from_raw; [by eapply (br_pos _ _ _ _ Hr)|]. apply wp_ret.
  exists true, (<[k := Some x]> v), []. simpl. rewrite Hv, app_nil_r. split_and!; [done| |done].
  by apply (rep_cell _ _ _ _ _ _ _ (Some x) (Some x) Hr Ht).
Qed.

Lemma box_step_ok h0 t v s op :
  boxes_rep h0 t v (hp s) → op_ok op → wp (box_step t op) (step_post h0 v s op) s.
Proof.
  intros Hr Hop.
  destruct op as [k x fl|k fl|k init r D fl|k x|k|k x|k|k|k|k]; simpl; pose proof (rep_view _ _ _ _ k Hr) as Hk;
    destruct (t !! k) as [[b []]|] eqn:Ht; try destruct Hk as (y & Hk & Hsl);
    first
    [ by eapply step_new | by eapply step_new_uninit | by eapply step_try_init | by eapply step_write
    | by eapply step_deref | by eapply step_replace | by eapply step_foreign | by eapply step_drop_contents
    | by eapply step_into_inner | by eapply step_drop | by eapply step_drop_uninit
    | apply step_skip; [done|simpl; by rewrite Hk] ].
Qed.

Lemma box_run_ok h0 ops : ∀ t v s, boxes_rep h0 t v (hp s) → Forall op_ok ops →
  wp (box_run t ops) (λ out s', ∃ v' D, box_exec v ops v' (snd out) D ∧
    boxes_rep h0 (fst out) v' (hp s') ∧ dropped s' = dropped s ++ D) s.
Proof.
  induction ops as [|op ops IH]; intros t v s Hr Hops; simpl.
  - apply wp_ret. exists v, []. rewrite app_nil_r. split; [constructor|done].
  - apply Forall_cons in Hops as [Hop Hops]. apply wp_bind.
    eapply wp_mono; [by eapply box_step_ok|]. intros [t' o] s' (ok & v' & D & Hs & Hr' & Hd).
    apply wp_bind. eapply wp_mono; [by eapply IH|]. intros [t'' os] s'' (v'' & D' & He & Hr'' & Hd').
    apply wp_ret. exists v'', (D ++ D'). split; [by econstructor|]. split; [done|].
    simpl in *. by rewrite Hd', Hd, app_assoc.
Qed.
End BoxSpecs.

(** C11: every program on boxes runs without a panic and without undefined behaviour
    (no access to freed or uninitialised memory, no double free) over any allocator
    that keeps the contract of the trait; its outputs, and the values it drops in
    order, are those of the same program on plain values, where an allocation may
    fail; the boxes hold the values of that program; and once no box is left the
    heap is what it was. *)
Theorem box_program_refines {T} `{RTypeOk T} {AL : Allocator T} {ALs : AllocatorSpec T} {X}
    (ops : list (@BoxOp T X)) (s : St T X) (Hh : heap_ok (hp s)) (Hops : Forall op_ok ops) :
  ∃ t os s' v D, box_run ∅ ops s = Done ((t, os), s') ∧ box_exec ∅ ops v os D ∧
    dropped s' = dropped s ++ D ∧
    (∀ k x, v !! k = Some (Some x) → ∃ b, t !! k = Some (b, true) ∧ slot (hp s') b 0 = Some x) ∧
    (t = ∅ → hp s' = hp s).
Proof.
  destruct (box_run_ok (hp s) ops ∅ ∅ s) as ([t os] & s' & Hd & v & D & He & Hr & Hdr);
    [by apply rep_init|done|].
  exists t, os, s', v, D. split_and!; [done..| |].
  - intros k x Hx. pose proof (rep_view _ _ _ _ k Hr) as Hk. rewrite Hx in Hk. simpl in Hk.
    destruct (t !! k) as [[b []]|]; [|done..]. destruct Hk as (y & [= <-] & Hs). eauto.
  - simpl in Hr. intros ->. by eapply rep_empty.
Qed.

Lemma box_program_refines_witness :
  let AL := Kmalloc (ref_realloc 4096) in
  let ops : list (@BoxOp Z unit) :=
    [BNew 0 7 GFP_KERNEL; BNewUninit 1 GFP_KERNEL; BWrite 1 8; BReplace 0 9; BForeign 1; BDropContents 1;
     BTryInit 2 (init_value 5) (Ok 5) [] GFP_KERNEL; BIntoInner 0; BDrop 1; BDrop 2] in
  ∃ t os s' v D, box_run ∅ ops (MkSt ∅ tt []) = Done ((t, os), s') ∧ box_exec ∅ ops v os D ∧
    dropped s' = [] ++ D ∧
    (∀ k x, v !! k = Some (Some x) → ∃ b, t !! k = Some (b, true) ∧ slot (hp s') b 0 = Some x) ∧
    (t = ∅ → hp s' = ∅).
Proof.
  intros AL ops. apply (@box_program_refines Z _ _ AL _ unit ops (MkSt ∅ tt [])).
  - by intros ? ? ?.
  - repeat (apply Forall_cons_2; [first [exact I|apply init_value_implements]|]). apply Forall_nil_2.
Defined.
