(* ===== verification/Arc.v ===== *)
(** * Reference counting ([rust/src/sync/arc.rs], [rust/src/list/arc.rs])

    [Arc], [UniqueArc] and [ListArc] share one representation: a pointer to an
    [ArcInner], a refcount next to the data, in a box of its own. The refcount
    operations are the kernel's [refcount_t] and are a parameter ([Refcount]).

    Threads interleave between the atomic operations, so the operations that are
    not atomic are split at them: a drop is a decrement and, when it reached zero,
    the release of the box ([arc_drop] composes the two). The theorems are about
    every sequence of such steps. *)

From S2P Require Import Prelude Errors Types Alloc KVec KBox.

(** ** Refcounts *)

Class Refcount := {
  REFCOUNT_INIT : Z → Z;
  refcount_inc : Z → Z;
  refcount_dec_and_test : Z → bool * Z
}.

(** The documented behaviour: exact up to [REFCOUNT_MAX]; one more saturates, and a
    saturated counter stays so and never reports zero. *)
Definition REFCOUNT_MAX : Z := I32_MAX.
Definition REFCOUNT_SATURATED : Z := - 2 ^ 30.

Class RefcountSpec `{Refcount} : Prop := {
  init_ok : ∀ n, 0 ≤ n ≤ REFCOUNT_MAX → REFCOUNT_INIT n = n;
  inc_exact : ∀ n, 1 ≤ n < REFCOUNT_MAX → refcount_inc n = n + 1;
  inc_max : refcount_inc REFCOUNT_MAX = REFCOUNT_SATURATED;
  inc_sat : refcount_inc REFCOUNT_SATURATED = REFCOUNT_SATURATED;
  dec_last : refcount_dec_and_test 1 = (true, 0);
  dec_exact : ∀ n, 1 < n ≤ REFCOUNT_MAX → refcount_dec_and_test n = (false, n - 1);
  dec_sat : refcount_dec_and_test REFCOUNT_SATURATED = (false, REFCOUNT_SATURATED)
}.

(** ** [ArcInner] *)

(** [data] is [None] while it is uninitialised ([MaybeUninit]). *)
Record ArcInner (D : Type) := MkArcInner { refcount : Z; data : option D }.
Arguments MkArcInner {D} _ _.
Arguments refcount {D} _.
Arguments data {D} _.

Section Layouts.
Context (D : Type) {RD : RType D}.

(** The layout of [refcount_t] and [Layout::extend]: the offset of the next field. *)
Definition refcount_layout : Layout := MkLayout 4 4.
Definition extend (l next : Layout) : Layout * Z :=
  let o := round_up (lsize l) (lalign next) in
  (MkLayout (o + lsize next) (Z.max (lalign l) (lalign next)), o).

(** [#[repr(C)]] *)
Definition DATA_OFFSET : Z := snd (extend refcount_layout (layout_of D)).
Definition inner_layout : Layout := pad_to_align (fst (extend refcount_layout (layout_of D))).

#[export] Instance ArcInner_type : RType (ArcInner D) :=
  {| size_of := lsize inner_layout; align_of := lalign inner_layout; zst_value := None |}.
End Layouts.

(** ** The trackers of [ListArc] *)

Record AtomicTracker := MkAtomicTracker { inner : bool }.

Definition tracker_new : AtomicTracker := MkAtomicTracker false.
Definition tracker_on_create (t : AtomicTracker) : AtomicTracker := MkAtomicTracker true.
Definition tracker_on_drop (t : AtomicTracker) : AtomicTracker := MkAtomicTracker false.
(** [compare_exchange(false, true)] *)
Definition tracker_try_new (t : AtomicTracker) : bool * AtomicTracker :=
  if inner t then (false, t) else (true, MkAtomicTracker true).

(** The fields that [impl_list_arc_safe!] names, per list: [None] for [untracked]. *)
Class Tracked (D : Type) := {
  tracked : Z → bool;
  field : Z → D → AtomicTracker;
  set_field : Z → AtomicTracker → D → D
}.

Class TrackedOk (D : Type) `{Tracked D} : Prop := {
  field_set : ∀ i t d, tracked i = true → field i (set_field i t d) = t;
  set_same : ∀ i d, tracked i = true → set_field i (field i d) d = d;
  field_set_ne : ∀ i j t d, tracked i = true → tracked j = true → i ≠ j → field i (set_field j t d) = field i d
}.

Section ListArcSafe.
Context {D : Type} {TD : Tracked D}.

(** Both arms of [impl_list_arc_safe!]. *)
Definition on_create_list_arc_from_unique (id : Z) (d : D) : D :=
  if tracked id then set_field id (tracker_on_create (field id d)) d else d.
Definition on_drop_list_arc (id : Z) (d : D) : D :=
  if tracked id then set_field id (tracker_on_drop (field id d)) d else d.
(** Only for tracked lists. *)
Definition try_new_list_arc (id : Z) (d : D) : bool * D :=
  let '(b, t) := tracker_try_new (field id d) in (b, set_field id t d).
End ListArcSafe.

(** ** Operations *)

Section Ops.
Context {D : Type} {RD : RType D} {RC : Refcount} {AL : Allocator (ArcInner D)} {TD : Tracked D}.
Local Abbreviation AM := (M (St (ArcInner D) unit)).

(** Accesses to one field of the inner object. *)
Definition read_data (p : Z) : AM D :=
  i ← read p 0; match data i with Some d => mret d | None => ub end.
Definition write_data (p : Z) (d : D) : AM unit :=
  i ← read p 0; write p 0 (MkArcInner (refcount i) (Some d)).
Definition write_refcount (p : Z) (n : Z) : AM unit :=
  i ← read p 0; write p 0 (MkArcInner n (data i)).

(** *** [Arc] *)

Definition from_inner (inner : Z) : Z := inner.

Definition arc_new (contents : D) (flags : Flags) : AM (result AllocError Z) :=
  inner ←? box_new (MkArcInner (REFCOUNT_INIT 1) (Some contents)) flags;
  mret (Ok (from_inner (into_raw inner))).

(** [container_of], from the layout of the value. *)
Definition container_of (ptr : Z) : Z := ptr - snd (extend refcount_layout (layout_of D)).

Definition arc_into_raw (p : Z) : Z := p + DATA_OFFSET D.
Definition arc_from_raw (ptr : Z) : AM Z :=
  let p := container_of ptr in if is_null p then ub else mret (from_inner p).

Definition ptr_eq (this other : Z) : bool := this =? other.

Definition arc_deref (p : Z) : AM D := read_data p.

Definition arc_clone (p : Z) : AM Z :=
  i ← read p 0;
  _ ← write_refcount p (refcount_inc (refcount i));
  mret (from_inner p).

(** [refcount_dec_and_test]: one atomic step. *)
Definition arc_dec (p : Z) : AM bool :=
  i ← read p 0;
  let '(is_zero, n) := refcount_dec_and_test (refcount i) in
  _ ← write_refcount p n;
  mret is_zero.

(** [drop(KBox::from_raw(ptr))] *)
Definition arc_release (p : Z) : AM unit := b ← (from_raw p : AM Z); box_drop b.

Definition arc_drop (p : Z) : AM unit :=
  is_zero ← arc_dec p;
  if is_zero : bool then arc_release p else mret tt.

Definition into_unique_or_drop (p : Z) : AM (option Z) :=
  is_zero ← arc_dec p;
  if is_zero : bool then _ ← write_refcount p (REFCOUNT_INIT 1); mret (Some p) else mret None.

(** [NonNull::new(ptr).unwrap()] panics on null. *)
Definition arc_into_foreign (p : Z) : Z := p.
Definition arc_from_foreign (ptr : Z) : AM Z := if is_null ptr then panic else mret (from_inner ptr).
Definition arc_borrow (ptr : Z) : AM Z := if is_null ptr then panic else mret ptr.

(** [From<ArcBorrow> for Arc] *)
Definition arc_from_borrow (b : Z) : AM Z := arc_clone (from_inner b).

(** *** [UniqueArc] *)

Definition unique_new (value : D) (flags : Flags) : AM (result AllocError Z) := arc_new value flags.

(** [try_init!] with [init::uninit] for the data. *)
Definition unique_new_uninit (flags : Flags) : AM (result AllocError Z) :=
  inner ←? try_init (λ e, e) (init_value (MkArcInner (REFCOUNT_INIT 1) None)) flags;
  mret (Ok (from_inner (into_raw inner))).

Definition unique_assume_init (u : Z) : Z := from_inner u.

Definition unique_write (u : Z) (value : D) : AM Z :=
  _ ← write_data u value; mret (unique_assume_init u).

(** [init]: what the initialiser does with the slot of the data. On error the
    [UniqueArc<MaybeUninit<T>>] is dropped. *)
Definition init_with {E} (u : Z) (init : result E D) : AM (result E Z) :=
  match init with
  | Ok d => _ ← write_data u d; mret (Ok (unique_assume_init u))
  | Err e => _ ← arc_drop u; mret (Err e)
  end.

(** [InPlaceWrite] *)
Definition unique_write_init {E} (u : Z) (init : result E D) : AM (result E Z) :=
  match init with
  | Ok d => _ ← write_data u d; mret (Ok (unique_assume_init u))
  | Err e => _ ← arc_drop u; mret (Err e)
  end.

(** [InPlaceInit], for [UniqueArc] and for [Arc]; the pinned variants are the same code. *)
Definition unique_try_init {E} (from : AllocError → E) (init : result E D) (flags : Flags) : AM (result E Z) :=
  r ← unique_new_uninit flags;
  match r with Ok u => unique_write_init u init | Err e => mret (Err (from e)) end.

(** A change through [deref_mut]. *)
Definition unique_deref_mut (u : Z) (f : D → D) : AM unit := d ← read_data u; write_data u (f d).

Definition arc_from_unique (u : Z) : Z := u.

Definition arc_try_init {E} (from : AllocError → E) (init : result E D) (flags : Flags) : AM (result E Z) :=
  r ← unique_try_init from init flags; mret (result_map arc_from_unique r).

Definition arc_init_in_place {E} `{IntoError E} (init : result E D) (flags : Flags) : AM (result Error Z) :=
  arc_try_init into_error (result_map_err into_error init) flags.

Definition unique_init_in_place {E} `{IntoError E} (init : result E D) (flags : Flags) : AM (result Error Z) :=
  unique_try_init into_error (result_map_err into_error init) flags.

(** [ArcBorrow], which owns no reference. *)
Definition as_arc_borrow (p : Z) : Z := p.
Definition borrow_from_raw (ptr : Z) : Z := container_of ptr.
Definition borrow_deref (b : Z) : AM D := read_data b.

(** *** [ListArc] *)

Definition transmute_from_arc (p : Z) : Z := p.
Definition transmute_to_arc (p : Z) : Z := p.

Definition create_tracked (id u : Z) : AM unit := unique_deref_mut u (on_create_list_arc_from_unique id).

Definition list_arc_from_unique (id u : Z) : AM Z :=
  _ ← create_tracked id u; mret (transmute_from_arc (arc_from_unique u)).

Definition list_arc_new (id : Z) (contents : D) (flags : Flags) : AM (result AllocError Z) :=
  u ←? unique_new contents flags;
  p ← list_arc_from_unique id u;
  mret (Ok p).

Definition pair_from_unique (id id2 u : Z) : AM (Z * Z) :=
  _ ← create_tracked id u;
  _ ← create_tracked id2 u;
  let arc1 := arc_from_unique u in
  arc2 ← arc_clone arc1;
  mret (transmute_from_arc arc1, transmute_from_arc arc2).

(** The compare-and-exchange on the tracker. *)
Definition try_tracked (id p : Z) : AM bool :=
  d ← read_data p;
  let '(b, d') := try_new_list_arc id d in
  _ ← write_data p d';
  mret b.

(** [Ok] is the [ListArc], [Err] the [Arc]. *)
Definition try_from_arc (id p : Z) : AM (result Z Z) :=
  b ← try_tracked id p;
  if b : bool then mret (Ok (transmute_from_arc p)) else mret (Err p).

Definition try_from_arc_borrow (id p : Z) : AM (option Z) :=
  b ← try_tracked id p;
  if b : bool then q ← arc_from_borrow p; mret (Some (transmute_from_arc q)) else mret None.

Definition try_from_arc_or_drop (id p : Z) : AM (option Z) :=
  r ← try_from_arc id p;
  match r with
  | Ok l => mret (Some l)
  | Err arc =>
      o ← into_unique_or_drop arc;
      match o with
      | Some u => l ← list_arc_from_unique id u; mret (Some l)
      | None => mret None
      end
  end.

Definition drop_tracked (id p : Z) : AM unit :=
  d ← read_data p; write_data p (on_drop_list_arc id d).

Definition into_arc (id p : Z) : AM Z := _ ← drop_tracked id p; mret (transmute_to_arc p).

Definition clone_arc (p : Z) : AM Z := arc_clone p.

(** [Drop for ListArc], then the drop of its field. *)
Definition list_arc_drop (id p : Z) : AM unit := _ ← drop_tracked id p; arc_drop p.

Definition list_arc_into_raw (p : Z) : Z := arc_into_raw (transmute_to_arc p).
Definition list_arc_from_raw (ptr : Z) : AM Z := p ← arc_from_raw ptr; mret (transmute_from_arc p).

(** The implementation of [ForeignOwnable] for [Arc]. *)
Definition Arc_foreign : ForeignOwnable (St (ArcInner D) unit) Z :=
  {| foreign_into := arc_into_foreign; foreign_from := arc_from_foreign |}.

Definition Arc_foreign_spec : @ForeignOwnableSpec (St (ArcInner D) unit) Z Arc_foreign.
Proof.
  refine {| owned_value := λ p, is_null p = false |}; [done|].
  intros p s Hp. simpl. unfold arc_from_foreign, arc_into_foreign. by rewrite Hp.
Defined.
End Ops.
Arguments container_of D {_} _.
Arguments arc_into_raw D {_} _.
Arguments list_arc_into_raw D {_} _.

(** ** Programs: interleavings of atomic steps *)

Inductive kind :=
| KArc                (* an [Arc] *)
| KUnique             (* a [UniqueArc] *)
| KUninit             (* a [UniqueArc<MaybeUninit<T>>] *)
| KList (id : Z)      (* a [ListArc] of the list [id] *)
| KRelease            (* a drop that saw zero and has not released the box yet *)
| KClaim.             (* an [into_unique_or_drop] that saw zero *)

#[export] Instance kind_eq_dec : EqDecision kind.
Proof. solve_decision. Defined.

(** The handles in the program, by name: the object and what they are. *)
Abbreviation handles := (gmap nat (Z * kind)).

Section Machine.
Context {D : Type} {RD : RType D} {RC : Refcount} {AL : Allocator (ArcInner D)} {TD : Tracked D}.
Local Abbreviation AM := (M (St (ArcInner D) unit)).

Inductive ArcOp :=
| ANew (k : nat) (x : D) (fl : Flags)
| AUnique (k : nat) (x : D) (fl : Flags)
| AUninit (k : nat) (fl : Flags)
| AWrite (k : nat) (x : D)
| AInitWith (k : nat) (r : result Error D)
| AMut (k : nat) (f : D → D)
| AShare (k : nat)
| ADeref (k : nat)
| AClone (k k' : nat)
| ADec (k : nat)
| ARelease (k : nat)
| AIntoUnique (k : nat)
| AClaim (k : nat)
| AForeign (k : nat)
| ARaw (k : nat)
| AList (k : nat) (id : Z)
| APair (k k' : nat) (id id2 : Z)
| ATry (k : nat) (id : Z)
| ATryBorrow (k k' : nat) (id : Z)
| AIntoArc (k : nat).

Inductive ArcOut := ANone | AFail (e : Error) | AVal (d : D) | ABool (b : bool).

Definition bind_arc (t : handles) (k : nat) (kd : kind) (r : result Error Z) : handles * ArcOut :=
  match r with Ok p => (<[k := (p, kd)]> t, ANone) | Err e => (t, AFail e) end.

(** One step. [AIntoArc] is [ListArc::into_arc], and the first step of the drop of a
    [ListArc], whose second is the drop of an [Arc]. A step that the types rule out
    is skipped. *)
Definition arc_step (t : handles) (op : ArcOp) : AM (handles * ArcOut) :=
  match op with
  | ANew k x fl =>
      if t !! k is Some _ then mret (t, ANone)
      else r ← arc_new x fl; mret (bind_arc t k KArc (result_map_err into_error r))
  | AUnique k x fl =>
      if t !! k is Some _ then mret (t, ANone)
      else r ← unique_new x fl; mret (bind_arc t k KUnique (result_map_err into_error r))
  | AUninit k fl =>
      if t !! k is Some _ then mret (t, ANone)
      else r ← unique_new_uninit fl; mret (bind_arc t k KUninit (result_map_err into_error r))
  | AWrite k x =>
      if t !! k is Some (p, KUninit) then q ← unique_write p x; mret (<[k := (q, KUnique)]> t, ANone)
      else mret (t, ANone)
  | AInitWith k i =>
      if t !! k is Some (p, KUninit) then r ← init_with p i; mret (bind_arc (delete k t) k KUnique r)
      else mret (t, ANone)
  | AMut k f =>
      if t !! k is Some (p, KUnique) then _ ← unique_deref_mut p f; mret (t, ANone)
      else mret (t, ANone)
  | AShare k =>
      if t !! k is Some (p, KUnique) then mret (<[k := (arc_from_unique p, KArc)]> t, ANone)
      else mret (t, ANone)
  | ADeref k =>
      match t !! k with
      | Some (p, KArc) | Some (p, KUnique) | Some (p, KList _) => d ← arc_deref p; mret (t, AVal d)
      | _ => mret (t, ANone)
      end
  | AClone k k' =>
      match t !! k, t !! k' with
      | Some (p, KArc), None => q ← arc_clone p; mret (<[k' := (q, KArc)]> t, ANone)
      | Some (p, KList _), None => q ← clone_arc p; mret (<[k' := (q, KArc)]> t, ANone)
      | _, _ => mret (t, ANone)
      end
  | ADec k =>
      if t !! k is Some (p, KArc) then
        z ← arc_dec p; mret (if z : bool then <[k := (p, KRelease)]> t else delete k t, ABool z)
      else mret (t, ANone)
  | ARelease k =>
      if t !! k is Some (p, KRelease) then _ ← arc_release p; mret (delete k t, ANone)
      else mret (t, ANone)
  | AIntoUnique k =>
      if t !! k is Some (p, KArc) then
        z ← arc_dec p; mret (if z : bool then <[k := (p, KClaim)]> t else delete k t, ABool z)
      else mret (t, ANone)
  | AClaim k =>
      if t !! k is Some (p, KClaim) then
        _ ← write_refcount p (REFCOUNT_INIT 1); mret (<[k := (p, KUnique)]> t, ANone)
      else mret (t, ANone)
  | AForeign k =>
      if t !! k is Some (p, KArc) then
        b ← arc_borrow (arc_into_foreign p); d ← arc_deref b;
        q ← arc_from_foreign (arc_into_foreign p); mret (<[k := (q, KArc)]> t, AVal d)
      else mret (t, ANone)
  | ARaw k =>
      match t !! k with
      | Some (p, KArc) => q ← arc_from_raw (arc_into_raw D p); mret (<[k := (q, KArc)]> t, ANone)
      | Some (p, KList id) =>
          q ← list_arc_from_raw (list_arc_into_raw D p); mret (<[k := (q, KList id)]> t, ANone)
      | _ => mret (t, ANone)
      end
  | AList k id =>
      if t !! k is Some (p, KUnique) then
        q ← list_arc_from_unique id p; mret (<[k := (q, KList id)]> t, ANone)
      else mret (t, ANone)
  | APair k k' id id2 =>
      match t !! k, t !! k' with
      | Some (p, KUnique), None =>
          qs ← pair_from_unique id id2 p;
          mret (<[k' := (snd qs, KList id2)]> (<[k := (fst qs, KList id)]> t), ANone)
      | _, _ => mret (t, ANone)
      end
  | ATry k id =>
      match t !! k, tracked id with
      | Some (p, KArc), true =>
          r ← try_from_arc id p;
          match r with
          | Ok q => mret (<[k := (q, KList id)]> t, ABool true)
          | Err q => mret (<[k := (q, KArc)]> t, ABool false)
          end
      | _, _ => mret (t, ANone)
      end
  | ATryBorrow k k' id =>
      match t !! k, t !! k', tracked id with
      | Some (p, KArc), None, true =>
          r ← try_from_arc_borrow id p;
          match r with
          | Some q => mret (<[k' := (q, KList id)]> t, ABool true)
          | None => mret (t, ABool false)
          end
      | _, _, _ => mret (t, ANone)
      end
  | AIntoArc k =>
      if t !! k is Some (p, KList id) then q ← into_arc id p; mret (<[k := (q, KArc)]> t, ANone)
      else mret (t, ANone)
  end.

Fixpoint arc_run (t : handles) (ops : list ArcOp) : AM (handles * list ArcOut) :=
  match ops with
  | [] => mret (t, [])
  | op :: ops =>
      '(t, o) ← arc_step t op;
      '(t, os) ← arc_run t ops;
      mret (t, o :: os)
  end.
End Machine.
Arguments ArcOp : clear implicits.
Arguments ArcOut : clear implicits.

(** ** The abstract machine

    Handles, the data of the objects, and the objects whose counter is saturated
    (and which are never freed). There are no counters: whether a drop is the last
    one is read off the handles. *)

Definition strong (kd : kind) : bool := match kd with KRelease | KClaim => false | _ => true end.
(** Kinds that are alone on their object. *)
Definition exclusive (kd : kind) : bool := match kd with KArc | KList _ => false | _ => true end.

Definition on_obj (p : Z) (h : nat * (Z * kind)) : Prop := h.2.1 = p ∧ strong h.2.2 = true.

#[export] Instance on_obj_dec p h : Decision (on_obj p h).
Proof. unfold on_obj. apply _. Defined.

(** The references to an object. *)
Definition scnt (t : handles) (p : Z) : Z := Z.of_nat (size (filter (on_obj p) t)).

Record AState (D : Type) := MkAState { tbl : handles; objs : gmap Z (option D); sat : gset Z }.
Arguments MkAState {D} _ _ _.
Arguments tbl {D} _.
Arguments objs {D} _.
Arguments sat {D} _.

Section Spec.
Context {D : Type} {TD : Tracked D}.
Implicit Types (A : AState D) (p : Z).

Definition has_list (t : handles) (p id : Z) : Prop := map_Exists (λ _ h, h = (p, KList id)) t.

#[export] Instance has_list_dec t p id : Decision (has_list t p id).
Proof. unfold has_list. apply _. Defined.

(** The saturated objects after one more reference to [p]. *)
Definition sat_inc A p : gset Z :=
  if decide ((p ∉ sat A) ∧ scnt (tbl A) p = REFCOUNT_MAX) then {[p]} ∪ sat A else sat A.

(** [orc]: the address of a new object, [None] when the allocation fails. *)
Definition make (orc : option Z) A (k : nat) (kd : kind) (c : option D) : AState D * ArcOut D :=
  match orc with
  | Some p => (MkAState (<[k := (p, kd)]> (tbl A)) (<[p := c]> (objs A)) (sat A), ANone)
  | None => (A, AFail ENOMEM)
  end.

Definition retag A (k : nat) (p : Z) (kd : kind) : AState D :=
  MkAState (<[k := (p, kd)]> (tbl A)) (objs A) (sat A).

Definition set_data A (p : Z) (d : D) : AState D := MkAState (tbl A) (<[p := Some d]> (objs A)) (sat A).

(** The end of a reference; [kd] is what the last one turns into. *)
Definition spec_dec A (k : nat) (p : Z) (kd : kind) : AState D * ArcOut D :=
  if decide ((p ∉ sat A) ∧ scnt (tbl A) p = 1) then (retag A k p kd, ABool true)
  else (MkAState (delete k (tbl A)) (objs A) (sat A), ABool false).

Definition arc_spec (orc : option Z) A (op : ArcOp D) : AState D * ArcOut D :=
  match op with
  | ANew k x _ => if tbl A !! k is Some _ then (A, ANone) else make orc A k KArc (Some x)
  | AUnique k x _ => if tbl A !! k is Some _ then (A, ANone) else make orc A k KUnique (Some x)
  | AUninit k _ => if tbl A !! k is Some _ then (A, ANone) else make orc A k KUninit None
  | AWrite k x =>
      if tbl A !! k is Some (p, KUninit) then (set_data (retag A k p KUnique) p x, ANone) else (A, ANone)
  | AInitWith k r =>
      if tbl A !! k is Some (p, KUninit) then
        match r with
        | Ok x => (set_data (retag A k p KUnique) p x, ANone)
        | Err e => (MkAState (delete k (tbl A)) (delete p (objs A)) (sat A), AFail e)
        end
      else (A, ANone)
  | AMut k f =>
      if tbl A !! k is Some (p, KUnique) then
        if objs A !! p is Some (Some d) then (set_data A p (f d), ANone) else (A, ANone)
      else (A, ANone)
  | AShare k => if tbl A !! k is Some (p, KUnique) then (retag A k p KArc, ANone) else (A, ANone)
  | ADeref k =>
      match tbl A !! k with
      | Some (p, KArc) | Some (p, KUnique) | Some (p, KList _) =>
          if objs A !! p is Some (Some d) then (A, AVal d) else (A, ANone)
      | _ => (A, ANone)
      end
  | AForeign k =>
      if tbl A !! k is Some (p, KArc) then
        if objs A !! p is Some (Some d) then (A, AVal d) else (A, ANone)
      else (A, ANone)
  | ARaw k => (A, ANone)
  | AClone k k' =>
      match tbl A !! k, tbl A !! k' with
      | Some (p, KArc), None | Some (p, KList _), None =>
          (MkAState (<[k' := (p, KArc)]> (tbl A)) (objs A) (sat_inc A p), ANone)
      | _, _ => (A, ANone)
      end
  | ADec k => if tbl A !! k is Some (p, KArc) then spec_dec A k p KRelease else (A, ANone)
  | ARelease k =>
      if tbl A !! k is Some (p, KRelease) then
        (MkAState (delete k (tbl A)) (delete p (objs A)) (sat A), ANone)
      else (A, ANone)
  | AIntoUnique k => if tbl A !! k is Some (p, KArc) then spec_dec A k p KClaim else (A, ANone)
  | AClaim k => if tbl A !! k is Some (p, KClaim) then (retag A k p KUnique, ANone) else (A, ANone)
  | AList k id =>
      if tbl A !! k is Some (p, KUnique) then
        if objs A !! p is Some (Some d) then
          (set_data (retag A k p (KList id)) p (on_create_list_arc_from_unique id d), ANone)
        else (A, ANone)
      else (A, ANone)
  | APair k k' id id2 =>
      match tbl A !! k, tbl A !! k' with
      | Some (p, KUnique), None =>
          if objs A !! p is Some (Some d) then
            (set_data (retag (retag A k p (KList id)) k' p (KList id2)) p
              (on_create_list_arc_from_unique id2 (on_create_list_arc_from_unique id d)), ANone)
          else (A, ANone)
      | _, _ => (A, ANone)
      end
  | ATry k id =>
      match tbl A !! k, tracked id with
      | Some (p, KArc), true =>
          if objs A !! p is Some (Some d) then
            if decide (has_list (tbl A) p id) then (A, ABool false)
            else (set_data (retag A k p (KList id)) p (snd (try_new_list_arc id d)), ABool true)
          else (A, ANone)
      | _, _ => (A, ANone)
      end
  | ATryBorrow k k' id =>
      match tbl A !! k, tbl A !! k', tracked id with
      | Some (p, KArc), None, true =>
          if objs A !! p is Some (Some d) then
            if decide (has_list (tbl A) p id) then (A, ABool false)
            else (MkAState (<[k' := (p, KList id)]> (tbl A))
                    (<[p := Some (snd (try_new_list_arc id d))]> (objs A)) (sat_inc A p), ABool true)
          else (A, ANone)
      | _, _, _ => (A, ANone)
      end
  | AIntoArc k =>
      if tbl A !! k is Some (p, KList id) then
        if objs A !! p is Some (Some d) then (set_data (retag A k p KArc) p (on_drop_list_arc id d), ANone)
        else (A, ANone)
      else (A, ANone)
  end.

Inductive arc_exec : AState D → list (ArcOp D) → AState D → list (ArcOut D) → Prop :=
| arc_exec_nil A : arc_exec A [] A []
| arc_exec_cons A op ops A1 o A2 os orc :
    arc_spec orc A op = (A1, o) → (∀ p, orc = Some p → objs A !! p = None) →
    arc_exec A1 ops A2 os → arc_exec A (op :: ops) A2 (o :: os).

(** What holds of every state of the machine. *)
Record arc_inv A : Prop := {
  ai_live : ∀ k p kd, tbl A !! k = Some (p, kd) → ∃ o, objs A !! p = Some o ∧ (kd = KUninit ↔ o = None);
  ai_excl : ∀ k k' p kd kd', tbl A !! k = Some (p, kd) → tbl A !! k' = Some (p, kd') →
    exclusive kd = true → k' = k;
  ai_excl_sat : ∀ k p kd, tbl A !! k = Some (p, kd) → exclusive kd = true → p ∉ sat A;
  ai_list : ∀ k k' p id, tbl A !! k = Some (p, KList id) → tbl A !! k' = Some (p, KList id) → k' = k;
  ai_track : ∀ p d id, objs A !! p = Some (Some d) → tracked id = true →
    inner (field id d) = true ↔ has_list (tbl A) p id;
  ai_owned : ∀ p o, objs A !! p = Some o → p ∈ sat A ∨ ∃ k kd, tbl A !! k = Some (p, kd);
  ai_cnt : ∀ p, p ∉ sat A → scnt (tbl A) p ≤ REFCOUNT_MAX;
  ai_sat : ∀ p, p ∈ sat A → is_Some (objs A !! p)
}.

(** The values that enter the program have fresh trackers, mutation leaves trackers
    alone (they are private), and the two lists of a pair differ. *)
Definition fresh (d : D) : Prop := ∀ id, tracked id = true → field id d = tracker_new.
Definition arc_op_ok (op : ArcOp D) : Prop :=
  match op with
  | ANew _ x _ | AUnique _ x _ | AWrite _ x | AInitWith _ (Ok x) => fresh x
  | AMut _ f => ∀ id d, field id (f d) = field id d
  | APair _ _ id id2 => id ≠ id2
  | _ => True
  end.
End Spec.

(** *** Counting references *)

Section Counting.
Implicit Types (t : handles) (p : Z).

Definition weight (p : Z) (h : Z * kind) : Z := if decide (h.1 = p ∧ strong h.2 = true) then 1 else 0.

Lemma scnt_insert t k h p : t !! k = None → scnt (<[k := h]> t) p = scnt t p + weight p h.
Proof.
  intros Hk. unfold scnt, weight. case_decide as Hd.
  - rewrite map_filter_insert_True by done. rewrite map_size_insert_None; [lia|].
    apply map_lookup_filter_None_2. auto.
  - rewrite map_filter_insert_False by done. rewrite delete_id by done. lia.
Qed.

Lemma scnt_delete t k h p : t !! k = Some h → scnt (delete k t) p = scnt t p - weight p h.
Proof.
  intros Hk. rewrite <- (insert_delete_id t k h) at 2 by done.
  rewrite scnt_insert by apply lookup_delete_eq. lia.
Qed.

Lemma scnt_retag t k h h' p : t !! k = Some h → scnt (<[k := h']> t) p = scnt t p - weight p h + weight p h'.
Proof.
  intros Hk. rewrite <- insert_delete_eq, scnt_insert by apply lookup_delete_eq.
  by rewrite (scnt_delete _ _ h).
Qed.

Lemma scnt_nonneg t p : 0 ≤ scnt t p.
Proof. unfold scnt. lia. Qed.

Lemma weight_le p h : 0 ≤ weight p h ≤ 1.
Proof. unfold weight. case_decide; lia. Qed.

Lemma scnt_zero t p k kd : scnt t p = 0 → t !! k = Some (p, kd) → strong kd = false.
Proof.
  intros H0 Hk. destruct (strong kd) eqn:Hs; [|done]. exfalso.
  assert (size (filter (on_obj p) t) = 0%nat) as E by (unfold scnt in H0; lia).
  apply map_size_empty_iff in E. assert (filter (on_obj p) t !! k = Some (p, kd)) as F.
  { by apply map_lookup_filter_Some_2. }
  by rewrite E in F.
Qed.

Lemma scnt_pos t p k kd : t !! k = Some (p, kd) → strong kd = true → 1 ≤ scnt t p.
Proof.
  intros Hk Hs. pose proof (scnt_delete t k (p, kd) p Hk) as Hd. pose proof (scnt_nonneg (delete k t) p).
  unfold weight in Hd. rewrite decide_True in Hd by done. lia.
Qed.

(** A single reference. *)
Lemma scnt_one t p k k' kd kd' : scnt t p = 1 → t !! k = Some (p, kd) → strong kd = true →
  t !! k' = Some (p, kd') → strong kd' = true → k' = k.
Proof.
  intros H1 Hk Hs Hk' Hs'. destruct (decide (k' = k)) as [|Hne]; [done|].
  assert (scnt (delete k t) p = 0) as H0.
  { rewrite (scnt_delete t k (p, kd)) by done. unfold weight. rewrite decide_True by done. lia. }
  rewrite (scnt_zero _ p k' kd' H0) in Hs'; [done|]. by rewrite lookup_delete_ne.
Qed.
End Counting.

(** *** The invariant of the abstract machine *)

Section Invariant.
Context {D : Type} {TD : Tracked D} {TDok : TrackedOk D}.
Implicit Types (A : AState D) (p : Z).

Lemma has_list_alt t p id : has_list t p id ↔ ∃ k, t !! k = Some (p, KList id).
Proof.
  unfold has_list. split.
  - intros (k & h & Hk & ->). eauto.
  - intros (k & Hk). by exists k, (p, KList id).
Qed.

Lemma has_list_insert t k p q kd id :
  has_list (<[k := (q, kd)]> t) p id ↔
  (q = p ∧ kd = KList id) ∨ ∃ k', k' ≠ k ∧ t !! k' = Some (p, KList id).
Proof.
  rewrite has_list_alt. split.
  - intros (k' & Hk'). apply lookup_insert_Some in Hk' as [[_ [= -> ->]]|[? ?]]; eauto.
  - intros [[-> ->]|(k' & Hne & Hk')].
    + exists k. apply lookup_insert_eq.
    + exists k'. by rewrite lookup_insert_ne.
Qed.

Lemma has_list_delete t k p q kd id : t !! k = Some (q, kd) → (q ≠ p ∨ kd ≠ KList id) →
  has_list (delete k t) p id ↔ has_list t p id.
Proof.
  intros Hk Hne. rewrite !has_list_alt. split; intros (k' & Hk').
  - apply lookup_delete_Some in Hk' as [_ ?]. eauto.
  - exists k'. rewrite lookup_delete_ne; [done|]. intros ->. rewrite Hk' in Hk. naive_solver.
Qed.

Lemma scnt_pos_ex t p : 1 ≤ scnt t p → ∃ k kd, t !! k = Some (p, kd).
Proof.
  intros H1. destruct (map_choose (filter (on_obj p) t)) as (k & [q kd] & Hk).
  - intros E. unfold scnt in H1. rewrite E in H1. by rewrite map_size_empty in H1.
  - apply map_lookup_filter_Some in Hk as [Hk [Hq _]]. simpl in Hq. subst. eauto.
Qed.

Lemma inv_empty : arc_inv (MkAState ∅ ∅ ∅ : AState D).
Proof. by split. Qed.

(** A new object. *)
Lemma inv_new A k p kd c :
  arc_inv A → tbl A !! k = None → objs A !! p = None → kd ∈ [KArc; KUnique; KUninit] →
  (kd = KUninit ↔ c = None) → (∀ x, c = Some x → fresh x) →
  arc_inv (MkAState (<[k := (p, kd)]> (tbl A)) (<[p := c]> (objs A)) (sat A)).
Proof.
  intros [Hl He Hes Hli Ht Ho Hc Hs] Hk Hp Hkd Hu Hf.
  assert (∀ k' q kd', tbl A !! k' = Some (q, kd') → q ≠ p) as Hne.
  { intros k' q kd' H ->. destruct (Hl _ _ _ H) as (? & ? & _). congruence. }
  assert (p ∉ sat A) as Hps by (intros [? ?]%Hs; congruence).
  assert (∀ id, kd ≠ KList id) as Hkl by (intros id ->; set_solver).
  split; simpl.
  - intros k' q kd'. rewrite lookup_insert_Some. intros [[<- [= <- <-]]|[_ H]].
    + exists c. by rewrite lookup_insert_eq.
    + rewrite lookup_insert_ne by (symmetry; eauto). eauto.
  - intros k1 k2 q kd1 kd2. rewrite !lookup_insert_Some.
    intros [[<- [= <- <-]]|[_ H1]] [[<- E2]|[_ H2]] Hx.
    + done.
    + by edestruct Hne.
    + injection E2 as <- <-. by edestruct Hne.
    + by eapply He.
  - intros k' q kd'. rewrite lookup_insert_Some. intros [[<- [= <- <-]]|[_ H]]; [done|eauto].
  - intros k1 k2 q id. rewrite !lookup_insert_Some.
    intros [[<- [= _ E1]]|[_ H1]] [[<- [= _ E2]]|[_ H2]]; [by edestruct Hkl..|by eapply Hli].
  - intros q d id. rewrite has_list_insert, lookup_insert. case_decide as Eq.
    + intros [= Hd] Htr. subst q. rewrite (Hf d Hd id Htr). simpl. split; [done|].
      intros [[_ ?]|(k' & _ & H)]; [by edestruct Hkl|by edestruct Hne].
    + intros Hd Htr. rewrite (Ht q d id Hd Htr), has_list_alt. split.
      * intros (k' & H). right. exists k'. split; [congruence|done].
      * intros [[? _]|(k' & _ & H)]; [done|eauto].
  - intros q o. rewrite lookup_insert. case_decide as Eq.
    + intros _. right. exists k, kd. by rewrite lookup_insert_eq; subst.
    + intros [?|(k' & kd' & H)]%Ho; [auto|]. right. exists k', kd'. rewrite lookup_insert_ne; [done|congruence].
  - intros q Hq. rewrite scnt_insert by done. specialize (Hc q Hq). unfold weight. case_decide as Hw; [|lia].
    destruct Hw as [Hqp _]. simpl in Hqp. subst q.
    assert (scnt (tbl A) p < 1); [|unfold REFCOUNT_MAX; usize].
    destruct (decide (1 ≤ scnt (tbl A) p)) as [(k' & kd' & H)%scnt_pos_ex|]; [by edestruct Hne|lia].
  - intros q Hq. rewrite lookup_insert. case_decide; [eauto|by apply Hs].
Qed.

(** Another kind of handle, and other data, for one object. *)
Lemma inv_retag A k p kd kd' o d' :
  arc_inv A → tbl A !! k = Some (p, kd) → objs A !! p = Some o → kd' ≠ KUninit →
  (exclusive kd' = true → (p ∉ sat A) ∧ ∀ k2 kd2, tbl A !! k2 = Some (p, kd2) → k2 = k) →
  (∀ id, kd' = KList id → ∀ k2, k2 ≠ k → tbl A !! k2 ≠ Some (p, KList id)) →
  (∀ id, tracked id = true → inner (field id d') = true ↔ has_list (<[k := (p, kd')]> (tbl A)) p id) →
  (p ∉ sat A → scnt (<[k := (p, kd')]> (tbl A)) p ≤ REFCOUNT_MAX) →
  arc_inv (set_data (retag A k p kd') p d').
Proof.
  intros [Hl He Hes Hli Ht Ho Hc Hs] Hk Hp Hu Hx HL HT HC.
  split; simpl.
  - intros k' q kq. rewrite lookup_insert_Some. intros [[<- [= <- <-]]|[Hne H]].
    + exists (Some d'). by rewrite lookup_insert_eq.
    + destruct (decide (p = q)) as [<-|].
      * exists (Some d'). rewrite lookup_insert_eq. split; [done|]. split; [|done].
        intros ->. destruct Hne. by eapply (He _ _ _ _ _ H Hk).
      * rewrite lookup_insert_ne by done. eauto.
  - intros k1 k2 q kd1 kd2. rewrite !lookup_insert_Some.
    intros [[<- [= <- <-]]|[N1 H1]] [[<- E2]|[N2 H2]] Hx1; try done.
    + by apply Hx in H2.
    + injection E2 as <- <-. by eapply (He _ _ _ _ _ H1 Hk).
    + by eapply He.
  - intros k' q kq. rewrite lookup_insert_Some. intros [[<- [= <- <-]]|[_ H]]; [by apply Hx|eauto].
  - intros k1 k2 q id. rewrite !lookup_insert_Some.
    intros [[<- [= <- E1]]|[N1 H1]] [[<- E2]|[N2 H2]]; try done.
    + exfalso. by eapply (HL id E1 k2).
    + injection E2 as <- E2. exfalso. by eapply (HL id E2 k1).
    + by eapply Hli.
  - intros q d id. rewrite lookup_insert. case_decide as Eq.
    + intros [= <-] Htr. subst q. by apply HT.
    + intros Hd Htr. rewrite (Ht q d id Hd Htr), has_list_insert, has_list_alt. split.
      * intros (k' & H). right. exists k'. split; [congruence|done].
      * intros [[? _]|(k' & _ & H)]; [done|eauto].
  - intros q oq. rewrite lookup_insert. case_decide as Eq.
    + intros _. right. exists k, kd'. by rewrite lookup_insert_eq; subst.
    + intros [?|(k' & kq & H)]%Ho; [auto|]. right. exists k', kq. rewrite lookup_insert_ne; [done|congruence].
  - intros q Hq. destruct (decide (q = p)) as [->|Hne]; [by apply HC|].
    rewrite (scnt_retag _ _ (p, kd)) by done. specialize (Hc q Hq). unfold weight. simpl.
    rewrite !decide_False by naive_solver. lia.
  - intros q Hq. rewrite lookup_insert. case_decide; [eauto|by apply Hs].
Qed.

(** One more handle on a shared object. *)
Lemma inv_add A k k' p kd kd' d d' :
  arc_inv A → tbl A !! k = Some (p, kd) → exclusive kd = false → tbl A !! k' = None →
  objs A !! p = Some (Some d) → exclusive kd' = false →
  (∀ id, kd' = KList id → ¬ has_list (tbl A) p id) →
  (∀ id, tracked id = true → inner (field id d') = true ↔ has_list (<[k' := (p, kd')]> (tbl A)) p id) →
  arc_inv (MkAState (<[k' := (p, kd')]> (tbl A)) (<[p := Some d']> (objs A)) (sat_inc A p)).
Proof.
  intros [Hl He Hes Hli Ht Ho Hc Hs] Hk Hx Hk' Hp Hx' HL HT.
  assert (∀ k2 kd2, tbl A !! k2 = Some (p, kd2) → exclusive kd2 = false) as Hshared.
  { intros k2 kd2 H. destruct (exclusive kd2) eqn:E; [|done].
    assert (k = k2) as <- by (by eapply He). congruence. }
  assert (∀ q, q ∈ sat A → q ∈ sat_inc A p) as Hsub by (intros q; unfold sat_inc; case_decide; set_solver).
  assert (∀ q, q ∈ sat_inc A p → q = p ∨ q ∈ sat A) as Hsup by (intros q; unfold sat_inc; case_decide; set_solver).
  split; simpl.
  - intros k2 q kq. rewrite lookup_insert_Some. intros [[<- [= <- <-]]|[Hne H]].
    + exists (Some d'). rewrite lookup_insert_eq. split; [done|]. by split; [intros ->|].
    + destruct (decide (p = q)) as [<-|].
      * exists (Some d'). rewrite lookup_insert_eq. split; [done|]. split; [|done].
        intros ->. by apply Hshared in H.
      * rewrite lookup_insert_ne by done. eauto.
  - intros k1 k2 q kd1 kd2. rewrite !lookup_insert_Some.
    intros [[<- [= <- <-]]|[N1 H1]] [[<- E2]|[N2 H2]] Hx1; [congruence|congruence| |by eapply He].
    injection E2 as <- <-. by rewrite (Hshared _ _ H1) in Hx1.
  - intros k2 q kq. rewrite lookup_insert_Some. intros [[<- [= <- <-]]|[_ H]] Hxq; [congruence|].
    intros [->|Hq]%Hsup; [by rewrite (Hshared _ _ H) in Hxq|by eapply Hes].
  - intros k1 k2 q id. rewrite !lookup_insert_Some.
    intros [[<- [= <- E1]]|[N1 H1]] [[<- E2]|[N2 H2]]; [done| | |by eapply Hli].
    + destruct (HL id E1). apply has_list_alt. eauto.
    + injection E2 as <- E2. destruct (HL id E2). apply has_list_alt. eauto.
  - intros q d2 id. rewrite lookup_insert. case_decide as Eq.
    + intros [= <-] Htr. subst q. by apply HT.
    + intros Hd Htr. rewrite (Ht q d2 id Hd Htr), has_list_insert, has_list_alt. split.
      * intros (k2 & H). right. exists k2. split; [congruence|done].
      * intros [[? _]|(k2 & _ & H)]; [done|eauto].
  - intros q oq. rewrite lookup_insert. case_decide as Eq.
    + intros _. right. exists k', kd'. by rewrite lookup_insert_eq; subst.
    + intros [?|(k2 & kq & H)]%Ho; [auto|]. right. exists k2, kq. rewrite lookup_insert_ne; [done|congruence].
  - intros q Hq. rewrite scnt_insert by done. unfold weight. simpl. case_decide as Hw.
    + destruct Hw as [<- _]. unfold sat_inc in Hq. case_decide as Hm; [set_solver|].
      specialize (Hc p Hq). assert (scnt (tbl A) p ≠ REFCOUNT_MAX) by naive_solver. lia.
    + assert (q ∉ sat A) as Hq' by auto. specialize (Hc q Hq'). lia.
  - intros q Hq. rewrite lookup_insert. case_decide; [eauto|].
    apply Hsup in Hq as [->|Hq]; [done|by apply Hs].
Qed.

(** A reference goes away and is not the last one. *)
Lemma inv_remove A k p :
  arc_inv A → tbl A !! k = Some (p, KArc) → (p ∉ sat A → scnt (tbl A) p ≠ 1) →
  arc_inv (MkAState (delete k (tbl A)) (objs A) (sat A)).
Proof.
  intros [Hl He Hes Hli Ht Ho Hc Hs] Hk H1.
  split; simpl.
  - intros k2 q kq. rewrite lookup_delete_Some. intros [_ H]. eauto.
  - intros k1 k2 q kd1 kd2. rewrite !lookup_delete_Some. intros [_ ?] [_ ?]. eauto.
  - intros k2 q kq. rewrite lookup_delete_Some. intros [_ ?]. eauto.
  - intros k1 k2 q id. rewrite !lookup_delete_Some. intros [_ ?] [_ ?]. eauto.
  - intros q d id Hd Htr. rewrite (has_list_delete _ _ _ p KArc) by auto. by apply Ht.
  - intros q o Hq. destruct (decide (q = p)) as [->|Hne].
    + destruct (decide (p ∈ sat A)) as [|Hps]; [auto|right]. apply scnt_pos_ex.
      rewrite (scnt_delete _ _ (p, KArc)) by done. unfold weight. rewrite decide_True by done.
      specialize (H1 Hps). pose proof (scnt_pos _ _ _ _ Hk eq_refl). lia.
    + destruct (Ho q o Hq) as [|(k2 & kd & H)]; [auto|]. right. exists k2, kd.
      rewrite lookup_delete_ne; [done|]. congruence.
  - intros q Hq. rewrite (scnt_delete _ _ (p, KArc)) by done. specialize (Hc q Hq).
    pose proof (weight_le q (p, KArc)). lia.
  - done.
Qed.

(** The last handle goes away together with its object. *)
Lemma inv_free A k p kd :
  arc_inv A → tbl A !! k = Some (p, kd) → exclusive kd = true →
  arc_inv (MkAState (delete k (tbl A)) (delete p (objs A)) (sat A)).
Proof.
  intros [Hl He Hes Hli Ht Ho Hc Hs] Hk Hx. pose proof (Hes _ _ _ Hk Hx) as Hps.
  assert (∀ k2 q kq, delete k (tbl A) !! k2 = Some (q, kq) → q ≠ p) as Hne.
  { intros k2 q kq. rewrite lookup_delete_Some. intros [Hn H] ->. apply Hn. symmetry. by eapply He. }
  split; simpl.
  - intros k2 q kq H. rewrite lookup_delete_ne by (symmetry; eauto). apply lookup_delete_Some in H as [_ H]. eauto.
  - intros k1 k2 q kd1 kd2. rewrite !lookup_delete_Some. intros [_ ?] [_ ?]. eauto.
  - intros k2 q kq. rewrite lookup_delete_Some. intros [_ ?]. eauto.
  - intros k1 k2 q id. rewrite !lookup_delete_Some. intros [_ ?] [_ ?]. eauto.
  - intros q d id. rewrite lookup_delete_Some. intros [Hq Hd] Htr.
    rewrite (has_list_delete _ _ _ p kd) by auto. by apply Ht.
  - intros q o. rewrite lookup_delete_Some. intros [Hq Hd].
    destruct (Ho q o Hd) as [|(k2 & kd2 & H)]; [auto|]. right. exists k2, kd2.
    rewrite lookup_delete_ne; [done|]. congruence.
  - intros q Hq. rewrite (scnt_delete _ _ (p, kd)) by done. specialize (Hc q Hq).
    pose proof (weight_le q (p, kd)). lia.
  - intros q Hq. rewrite lookup_delete_ne by (intros ->; done). by apply Hs.
Qed.

Lemma set_data_id A p d : objs A !! p = Some (Some d) → set_data A p d = A.
Proof. intros Hp. unfold set_data. rewrite insert_id by done. by destruct A. Qed.

(** The trackers under the operations of [ListArcSafe]. *)
Lemma field_create i j d : tracked i = true →
  inner (field i (on_create_list_arc_from_unique j d)) = true ↔ i = j ∨ inner (field i d) = true.
Proof.
  intros Hi. unfold on_create_list_arc_from_unique. destruct (decide (i = j)) as [->|Hne].
  - rewrite Hi, field_set by done. simpl. naive_solver.
  - destruct (tracked j) eqn:Hj; [rewrite field_set_ne by done|]; naive_solver.
Qed.

Lemma field_drop i j d : tracked i = true →
  inner (field i (on_drop_list_arc j d)) = true ↔ i ≠ j ∧ inner (field i d) = true.
Proof.
  intros Hi. unfold on_drop_list_arc. destruct (decide (i = j)) as [->|Hne].
  - rewrite Hi, field_set by done. simpl. naive_solver.
  - destruct (tracked j) eqn:Hj; [rewrite field_set_ne by done|]; naive_solver.
Qed.

Lemma try_new_spec j d : tracked j = true →
  fst (try_new_list_arc j d) = negb (inner (field j d)) ∧
  ∀ i, tracked i = true → inner (field i (snd (try_new_list_arc j d))) = true ↔ i = j ∨ inner (field i d) = true.
Proof.
  intros Hj. unfold try_new_list_arc, tracker_try_new.
  destruct (inner (field j d)) eqn:E; simpl; (split; [done|]); intros i Htr;
    destruct (decide (i = j)) as [->|Hne].
  - rewrite field_set by done. naive_solver.
  - rewrite field_set_ne by done. naive_solver.
  - rewrite field_set by done. simpl. naive_solver.
  - rewrite field_set_ne by done. naive_solver.
Qed.

(** *** The handle that is alone *)

Definition lone (t : handles) (k : nat) (p : Z) : Prop := ∀ k2 kd2, t !! k2 = Some (p, kd2) → k2 = k.

Lemma excl_lone A k p kd : arc_inv A → tbl A !! k = Some (p, kd) → exclusive kd = true → lone (tbl A) k p.
Proof. intros Hi Hk Hx k2 kd2 H2. by eapply (ai_excl _ Hi). Qed.

Lemma last_lone A k p : arc_inv A → tbl A !! k = Some (p, KArc) → scnt (tbl A) p = 1 → lone (tbl A) k p.
Proof.
  intros Hi Hk H1 k2 kd2 H2. destruct (strong kd2) eqn:Hs; [by eapply scnt_one|].
  symmetry. eapply (ai_excl _ Hi); [done..|]. by destruct kd2.
Qed.

Lemma scnt_lone t k p h : lone t k p → scnt (<[k := h]> t) p ≤ 1.
Proof.
  intros Hl. rewrite <- insert_delete_eq, scnt_insert by apply lookup_delete_eq.
  assert (scnt (delete k t) p < 1); [|pose proof (weight_le p h); lia].
  destruct (decide (1 ≤ scnt (delete k t) p)) as [(k2 & kd2 & H2)%scnt_pos_ex|]; [|lia].
  apply lookup_delete_Some in H2 as [Hn H2]. by apply Hl in H2.
Qed.

Lemma has_list_lone t k p kd id : lone t k p → has_list (<[k := (p, kd)]> t) p id ↔ kd = KList id.
Proof.
  intros Hl. rewrite has_list_insert. split; [|auto]. intros [[_ ?]|(k2 & Hn & H2)]; [done|]. by apply Hl in H2.
Qed.

Lemma inv_retag_lone A k p kd kd' o d' :
  arc_inv A → tbl A !! k = Some (p, kd) → lone (tbl A) k p → (p ∉ sat A) → objs A !! p = Some o →
  kd' ≠ KUninit → (∀ id, tracked id = true → inner (field id d') = true ↔ kd' = KList id) →
  arc_inv (set_data (retag A k p kd') p d').
Proof.
  intros Hi Hk Hl Hps Hp Hu HT. eapply inv_retag; [done..| | | |].
  - done.
  - intros id -> k2 Hn H2. by apply Hl in H2.
  - intros id Htr. rewrite has_list_lone by done. by apply HT.
  - intros _. pose proof (scnt_lone _ _ p (p, kd') Hl). unfold REFCOUNT_MAX. usize.
Qed.

(** An object that no [ListArc] refers to has clear trackers. *)
Lemma lone_clear A k p kd d id :
  arc_inv A → tbl A !! k = Some (p, kd) → lone (tbl A) k p → (∀ i, kd ≠ KList i) →
  objs A !! p = Some (Some d) → tracked id = true → inner (field id d) = false.
Proof.
  intros Hi Hk Hl Hkd Hp Htr. apply not_true_iff_false. rewrite (ai_track _ Hi p d id Hp Htr), has_list_alt.
  intros (k2 & H2). pose proof (Hl _ _ H2) as ->. rewrite Hk in H2. injection H2 as ->. by eapply Hkd.
Qed.

(** The data of a handle whose type says that it is initialised. *)
Lemma inv_data A k p kd : arc_inv A → tbl A !! k = Some (p, kd) → kd ≠ KUninit →
  ∃ d, objs A !! p = Some (Some d).
Proof.
  intros Hi Hk Hu. destruct (ai_live _ Hi _ _ _ Hk) as ([d|] & Hp & Hiff); [eauto|]. by destruct Hu, Hiff; auto.
Qed.

Lemma inv_dec A k p kd A' o :
  arc_inv A → tbl A !! k = Some (p, KArc) → kd = KRelease ∨ kd = KClaim →
  spec_dec A k p kd = (A', o) → arc_inv A'.
Proof.
  intros Hi Hk Hkd. unfold spec_dec. case_decide as Hd; intros [= <- <-].
  - destruct Hd as [Hps H1]. destruct (inv_data _ _ _ _ Hi Hk) as [d Hp]; [done|].
    rewrite <- (set_data_id (retag A k p kd) p d) by done.
    pose proof (last_lone _ _ _ Hi Hk H1) as Hl.
    eapply inv_retag_lone; [done..| |]; [by destruct Hkd as [-> | ->]|]. intros id Htr.
    rewrite (lone_clear _ _ _ _ _ _ Hi Hk Hl ltac:(done) Hp Htr). by destruct Hkd as [-> | ->].
  - eapply inv_remove; [done..|]. intros Hps E. by apply Hd.
Qed.

Lemma inv_clone A k k' p kd : arc_inv A → tbl A !! k = Some (p, kd) → exclusive kd = false →
  tbl A !! k' = None → arc_inv (MkAState (<[k' := (p, KArc)]> (tbl A)) (objs A) (sat_inc A p)).
Proof.
  intros Hi Hk Hx Hk'. destruct (inv_data _ _ _ _ Hi Hk) as [d Hp]; [by intros ->|].
  rewrite <- (insert_id (objs A) p (Some d)) by done. eapply inv_add; [done..|].
  intros id Htr. rewrite (ai_track _ Hi p d id Hp Htr), has_list_insert, has_list_alt.
  split; [|naive_solver]. intros (k2 & H2). right. exists k2. split; [congruence|done].
Qed.

Lemma inv_list A k p d id : arc_inv A → tbl A !! k = Some (p, KUnique) → objs A !! p = Some (Some d) →
  arc_inv (set_data (retag A k p (KList id)) p (on_create_list_arc_from_unique id d)).
Proof.
  intros Hi Hk Hp. pose proof (excl_lone _ _ _ _ Hi Hk eq_refl) as Hl.
  eapply inv_retag_lone; [done..| |done|done|]; [by eapply (ai_excl_sat _ Hi)|].
  intros i Htr. rewrite field_create by done. rewrite (lone_clear _ _ _ _ _ _ Hi Hk Hl ltac:(done) Hp Htr).
  naive_solver.
Qed.

Lemma sat_inc_one A p : scnt (tbl A) p ≤ 1 → sat_inc A p = sat A.
Proof. intros H1. unfold sat_inc. rewrite decide_False; [done|]. intros [_ E]. unfold REFCOUNT_MAX in E. usize. Qed.

Lemma inv_pair A k k' p d id id2 : arc_inv A → id ≠ id2 → tbl A !! k = Some (p, KUnique) →
  tbl A !! k' = None → objs A !! p = Some (Some d) →
  arc_inv (set_data (retag (retag A k p (KList id)) k' p (KList id2)) p
    (on_create_list_arc_from_unique id2 (on_create_list_arc_from_unique id d))).
Proof.
  intros Hi Hne Hk Hk' Hp. pose proof (inv_list _ _ _ _ id Hi Hk Hp) as H1.
  pose proof (excl_lone _ _ _ _ Hi Hk eq_refl) as Hl. assert (k ≠ k') as Hkk by congruence.
  pose proof (inv_add _ k k' p (KList id) (KList id2) (on_create_list_arc_from_unique id d)
    (on_create_list_arc_from_unique id2 (on_create_list_arc_from_unique id d)) H1) as H2.
  simpl in H2. rewrite lookup_insert_eq, lookup_insert_ne in H2 by done.
  rewrite sat_inc_one in H2 by (by apply scnt_lone). rewrite insert_insert_eq in H2.
  apply (H2 eq_refl eq_refl Hk' (lookup_insert_eq _ _ _) eq_refl).
  - intros i [= <-]. rewrite has_list_lone by done. congruence.
  - intros i Htr. rewrite !field_create by done. rewrite (lone_clear _ _ _ _ _ _ Hi Hk Hl ltac:(done) Hp Htr).
    rewrite has_list_insert. split.
    + intros [-> | [-> |?]]; [auto| |done]. right. exists k. by rewrite lookup_insert_eq.
    + intros [[_ [= ->]]|(k2 & Hn & [[<- [= ->]]|[Hn2 E]]%lookup_insert_Some)]; [auto|auto|].
      by apply Hl in E.
Qed.

Lemma inv_try A k p d id : arc_inv A → tracked id = true → tbl A !! k = Some (p, KArc) → objs A !! p = Some (Some d) →
  ¬ has_list (tbl A) p id →
  arc_inv (set_data (retag A k p (KList id)) p (snd (try_new_list_arc id d))).
Proof.
  intros Hi Hid Hk Hp Hn. rewrite has_list_alt in Hn. eapply inv_retag; [done..| | |].
  - intros i [= <-] k2 _ H2. eauto.
  - intros i Htr. rewrite (proj2 (try_new_spec id d Hid) i Htr), (ai_track _ Hi p d i Hp Htr), has_list_insert, has_list_alt.
    split.
    + intros [-> |(k2 & H2)]; [auto|]. right. exists k2. split; [congruence|done].
    + intros [[_ [= ->]]|(k2 & _ & H2)]; eauto.
  - intros Hps. rewrite (scnt_retag _ _ (p, KArc)) by done. pose proof (ai_cnt _ Hi p Hps).
    unfold weight. rewrite !decide_True by done. lia.
Qed.

Lemma inv_try_borrow A k k' p d id : arc_inv A → tracked id = true → tbl A !! k = Some (p, KArc) → tbl A !! k' = None →
  objs A !! p = Some (Some d) → ¬ has_list (tbl A) p id →
  arc_inv (MkAState (<[k' := (p, KList id)]> (tbl A))
    (<[p := Some (snd (try_new_list_arc id d))]> (objs A)) (sat_inc A p)).
Proof.
  intros Hi Hid Hk Hk' Hp Hn. eapply inv_add; [done..| |].
  - by intros i [= <-].
  - intros i Htr. rewrite (proj2 (try_new_spec id d Hid) i Htr), (ai_track _ Hi p d i Hp Htr), has_list_insert, has_list_alt.
    split.
    + intros [-> |(k2 & H2)]; [auto|]. right. exists k2. split; [congruence|done].
    + intros [[_ [= ->]]|(k2 & _ & H2)]; eauto.
Qed.

Lemma inv_into_arc A k p d id : arc_inv A → tbl A !! k = Some (p, KList id) → objs A !! p = Some (Some d) →
  arc_inv (set_data (retag A k p KArc) p (on_drop_list_arc id d)).
Proof.
  intros Hi Hk Hp. eapply inv_retag; [done..| |].
  - intros i Htr. rewrite field_drop, (ai_track _ Hi p d i Hp Htr), has_list_insert, has_list_alt by done.
    split.
    + intros [Hne (k2 & H2)]. right. exists k2. split; [congruence|done].
    + intros [[_ ?]|(k2 & Hn & H2)]; [done|]. split; [|eauto]. intros ->. apply Hn. by eapply (ai_list _ Hi).
  - intros Hps. rewrite (scnt_retag _ _ (p, KList id)) by done. pose proof (ai_cnt _ Hi p Hps).
    unfold weight. rewrite !decide_True by done. lia.
Qed.
End Invariant.

(** ** Memory *)

Section Layouts.
Context {D : Type} {RD : RType D} {RDok : RTypeOk D}.

(** The compiler rejects a type whose size exceeds [isize::MAX]. *)
Hypothesis Hsize : size_of (ArcInner D) ≤ ISIZE_MAX.

Lemma pow2_max a b : pow2 a → pow2 b → pow2 (Z.max a b).
Proof. intros Ha Hb. destruct (Z.max_spec a b) as [[_ ->]|[_ ->]]; done. Qed.

Lemma ArcInner_type_ok : RTypeOk (ArcInner D).
Proof.
  pose proof (align_of_pow2 D) as Ha. pose proof (align_of_max D). pose proof (size_of_nonneg D).
  assert (pow2 4) as H4 by (by exists 2). pose proof (pow2_max _ _ H4 Ha) as Hm. pose proof (pow2_pos _ Ha) as Hp.
  pose proof (round_up_ge 4 (align_of D) Hp) as Hr.
  pose proof (round_up_ge (round_up 4 (align_of D) + size_of D) (Z.max 4 (align_of D)) ltac:(lia)) as Hr'.
  unfold size_of, align_of, ArcInner_type, inner_layout, pad_to_align, extend, refcount_layout, layout_of in *.
  simpl in *. split; simpl.
  - split; [|exact Hsize]. unfold size_of, align_of in *. lia.
  - done.
  - unfold size_of, align_of in *. lia.
  - apply round_up_div.
  - split; [|by intros [? ?]]. unfold size_of, align_of in *. lia.
  - done.
Qed.

(** [container_of] undoes [into_raw]. *)
Lemma container_of_data p : container_of D (arc_into_raw D p) = p.
Proof. unfold container_of, arc_into_raw, DATA_OFFSET. lia. Qed.
End Layouts.

Section Memory.
Context {D : Type} {RD : RType D} {RAok : RTypeOk (ArcInner D)}.
Context {AL : Allocator (ArcInner D)} {ALs : AllocatorSpec (ArcInner D)}.
Local Abbreviation state := (St (ArcInner D) unit).
Implicit Types (s : state) (p : Z) (h : gmap Z (block (ArcInner D))) (m : Z → option (ArcInner D)).

(** The inner objects [m] live outside of the frame [h0]. *)
Record mem_rep h0 m h : Prop := {
  mr_heap : heap_ok h;
  mr_obj : ∀ p i, m p = Some i → h0 !! p = None ∧ 0 < p ∧ slot h p 0 = Some i ∧
    ∃ bl, h !! p = Some bl ∧ size_of (ArcInner D) ≤ bsize bl;
  mr_frame : ∀ q, m q = None → h !! q = h0 !! q
}.

Definition upd_obj p (o : option (ArcInner D)) m : Z → option (ArcInner D) :=
  λ q, if decide (q = p) then o else m q.

Lemma mem_ext h0 m m' h : mem_rep h0 m h → (∀ q, m q = m' q) → mem_rep h0 m' h.
Proof.
  intros [Hh Ho Hf] E. split; [done| |].
  - intros p i. rewrite <- E. apply Ho.
  - intros q. rewrite <- E. apply Hf.
Qed.

Lemma slot_lookup_eq h h' p : h' !! p = h !! p → slot h' p 0 = slot h p 0.
Proof. intros E. unfold slot, read_at. by rewrite E. Qed.

Lemma mem_slot_ok h0 m h p i : mem_rep h0 m h → m p = Some i → slot_ok h p 0.
Proof.
  intros Hm Hp _. destruct (mr_obj _ _ _ Hm p i Hp) as (_ & _ & _ & bl & Hb & Hs).
  exists bl. split; [done|]. unfold in_bounds. simpl. apply Z.leb_le. exact Hs.
Qed.

Lemma wp_mem_read h0 m s p i Q : mem_rep h0 m (hp s) → m p = Some i → Q i s → wp (read p 0) Q s.
Proof. intros Hm Hp HQ. eapply wp_read; [|done]. by apply (mr_obj _ _ _ Hm). Qed.

Lemma put_lookup_ne h p c q : q ≠ p → put_cell h p 0 c !! q = h !! q.
Proof.
  intros Hq. unfold put_cell. simpl. destruct (h !! p); [|done]. by rewrite lookup_insert_ne.
Qed.

Lemma wp_mem_write h0 m s p i i' Q : mem_rep h0 m (hp s) → m p = Some i →
  (∀ s', mem_rep h0 (upd_obj p (Some i') m) (hp s') → Q tt s') → wp (write p 0 i') Q s.
Proof.
  intros Hm Hp HQ. pose proof (mem_slot_ok _ _ _ _ _ Hm Hp) as Hsl. apply write_put; [done|].
  apply HQ. destruct Hm as [Hh Ho Hf]. destruct (Ho p i Hp) as (H0 & Hpos & _ & bl & Hb & Hs).
  split; simpl.
  - unfold put_cell. simpl. rewrite Hb. apply heap_ok_insert; [done..|]. apply Hh in Hb. simpl. lia.
  - intros q j. unfold upd_obj. case_decide as Eq.
    + intros [= <-]. subst q. split_and!; [done|done|by apply slot_put_Some|].
      unfold put_cell. simpl. rewrite Hb, lookup_insert_eq. eexists. split; [done|exact Hs].
    + intros Hq. rewrite put_lookup_ne, (slot_lookup_eq (hp s)) by (done || by apply put_lookup_ne). by apply Ho.
  - intros q. unfold upd_obj. case_decide as Eq; [done|]. intros Hq. rewrite put_lookup_ne by done. by apply Hf.
Qed.

Lemma mem_alloc h0 m h p h' i : mem_rep h0 m h → allocated h p h' →
  m p = None ∧ mem_rep h0 (upd_obj p (Some i) m) (put_cell h' p 0 (Some i)).
Proof.
  intros [Hh Ho Hf] (Hpos & Hh' & _ & Hn). destruct (Hn eq_refl) as (Hfr & bl & -> & Hs).
  assert (m p = None) as Hmp.
  { destruct (m p) as [j|] eqn:E; [|done]. destruct (Ho p j E) as (_ & _ & _ & bl' & ? & _). congruence. }
  split; [done|]. assert (slot_ok (<[p := bl]> h) p 0) as Hsl.
  { intros _. exists bl. rewrite lookup_insert_eq. split; [done|]. unfold in_bounds. simpl. by apply Z.leb_le. }
  split.
  - unfold put_cell. simpl. rewrite lookup_insert_eq. apply heap_ok_insert; [done..|].
    pose proof (Hh' p bl (lookup_insert_eq _ _ _)). simpl. lia.
  - intros q j. unfold upd_obj. case_decide as Eq.
    + intros [= <-]. subst q. split_and!; [by rewrite <- Hf|done|by apply slot_put_Some|].
      unfold put_cell. simpl. rewrite !lookup_insert_eq. eexists. split; [done|exact Hs].
    + intros Hq. destruct (Ho q j Hq) as (? & ? & ? & bl' & ? & ?).
      rewrite (slot_lookup_eq h) by (by rewrite put_lookup_ne, lookup_insert_ne).
      split_and!; [done..|]. rewrite put_lookup_ne, lookup_insert_ne by done. eauto.
  - intros q. unfold upd_obj. case_decide as Eq; [done|]. intros Hq.
    rewrite put_lookup_ne, lookup_insert_ne by done. by apply Hf.
Qed.

Lemma wp_mem_new h0 m s i fl Q : mem_rep h0 m (hp s) →
  (∀ s', mem_rep h0 m (hp s') → Q (Err MkAllocError) s') →
  (∀ p s', m p = None → mem_rep h0 (upd_obj p (Some i) m) (hp s') → Q (Ok p) s') →
  wp (box_new i fl) Q s.
Proof.
  intros Hm Herr Hok. unfold box_new. apply wp_bind, wp_new_uninit; [apply Hm| |].
  - wp_steps. by apply Herr.
  - intros p h' Ha. destruct (mem_alloc _ _ _ _ _ i Hm Ha) as [Hp Hm'].
    apply wp_bind. unfold box_write. apply wp_bind, write_put.
    + intros _. destruct Ha as (_ & _ & _ & Hn). destruct (Hn eq_refl) as (_ & bl & -> & Hs).
      exists bl. simpl. rewrite lookup_insert_eq. split; [done|]. unfold in_bounds. simpl. by apply Z.leb_le.
    + apply wp_from_raw; [apply Ha|]. apply wp_ret. by apply Hok.
Qed.

Lemma wp_mem_free h0 m s p i Q : mem_rep h0 m (hp s) → m p = Some i →
  (∀ s', mem_rep h0 (upd_obj p None m) (hp s') → Q tt s') → wp (arc_release p) Q s.
Proof.
  intros Hm Hp HQ. destruct (mr_obj _ _ _ Hm p i Hp) as (H0 & Hpos & Hsl & bl & Hb & Hs).
  unfold arc_release. apply wp_bind, wp_from_raw; [done|]. unfold box_drop. apply wp_bind.
  eapply drop_one; [done|]. apply wp_uninit_drop; [apply Hm|simpl; eauto|]. apply HQ. simpl.
  unfold freed. simpl. destruct Hm as [Hh Ho Hf]. split.
  - by apply heap_ok_delete.
  - intros q j. unfold upd_obj. case_decide as Eq; [done|]. intros Hq.
    rewrite (slot_lookup_eq (hp s)) by (by rewrite lookup_delete_ne).
    rewrite lookup_delete_ne by done. by apply Ho.
  - intros q. unfold upd_obj. case_decide as Eq.
    + intros _. subst q. by rewrite lookup_delete_eq.
    + intros Hq. rewrite lookup_delete_ne by done. by apply Hf.
Qed.
End Memory.

(** ** Refinement *)

Section Refine.
Context {D : Type} {RD : RType D} {RAok : RTypeOk (ArcInner D)}.
Context {AL : Allocator (ArcInner D)} {ALs : AllocatorSpec (ArcInner D)}.
Context {RC : Refcount} {RCok : RefcountSpec} {TD : Tracked D} {TDok : TrackedOk D}.
Implicit Types (s : St (ArcInner D) unit) (p : Z) (A : AState D) (m : Z → option (ArcInner D)).

(** *** The operations on memory *)

Lemma wp_read_data h0 m s p n d Q : mem_rep h0 m (hp s) → m p = Some (MkArcInner n (Some d)) →
  Q d s → wp (read_data p) Q s.
Proof. intros Hm Hp HQ. unfold read_data. apply wp_bind. eapply wp_mem_read; [done..|]. by apply wp_ret. Qed.

Lemma wp_write_data h0 m s p n c d Q : mem_rep h0 m (hp s) → m p = Some (MkArcInner n c) →
  (∀ s', mem_rep h0 (upd_obj p (Some (MkArcInner n (Some d))) m) (hp s') → Q tt s') →
  wp (write_data p d) Q s.
Proof. intros Hm Hp HQ. unfold write_data. apply wp_bind. eapply wp_mem_read; [done..|]. by eapply wp_mem_write. Qed.

Lemma wp_write_refcount h0 m s p n c n' Q : mem_rep h0 m (hp s) → m p = Some (MkArcInner n c) →
  (∀ s', mem_rep h0 (upd_obj p (Some (MkArcInner n' c)) m) (hp s') → Q tt s') →
  wp (write_refcount p n') Q s.
Proof. intros Hm Hp HQ. unfold write_refcount. apply wp_bind. eapply wp_mem_read; [done..|]. by eapply wp_mem_write. Qed.

Lemma wp_arc_clone h0 m s p n c Q : mem_rep h0 m (hp s) → m p = Some (MkArcInner n c) →
  (∀ s', mem_rep h0 (upd_obj p (Some (MkArcInner (refcount_inc n) c)) m) (hp s') → Q p s') →
  wp (arc_clone p) Q s.
Proof.
  intros Hm Hp HQ. unfold arc_clone. apply wp_bind. eapply wp_mem_read; [done..|].
  apply wp_bind. eapply wp_write_refcount; [done..|]. intros s' Hm'. apply wp_ret. by apply HQ.
Qed.

Lemma wp_arc_dec h0 m s p n c z n' Q : mem_rep h0 m (hp s) → m p = Some (MkArcInner n c) →
  refcount_dec_and_test n = (z, n') →
  (∀ s', mem_rep h0 (upd_obj p (Some (MkArcInner n' c)) m) (hp s') → Q z s') →
  wp (arc_dec p) Q s.
Proof.
  intros Hm Hp Hn HQ. unfold arc_dec. apply wp_bind. eapply wp_mem_read; [done..|]. simpl. rewrite Hn.
  apply wp_bind. eapply wp_write_refcount; [done..|]. intros s' Hm'. apply wp_ret. by apply HQ.
Qed.

Lemma upd_obj_eq p o m : upd_obj p o m p = o.
Proof. unfold upd_obj. by rewrite decide_True. Qed.

Lemma wp_unique_deref_mut h0 m s p n d f Q : mem_rep h0 m (hp s) → m p = Some (MkArcInner n (Some d)) →
  (∀ s', mem_rep h0 (upd_obj p (Some (MkArcInner n (Some (f d)))) m) (hp s') → Q tt s') →
  wp (unique_deref_mut p f) Q s.
Proof.
  intros Hm Hp HQ. unfold unique_deref_mut. apply wp_bind. eapply wp_read_data; [done..|].
  by eapply wp_write_data.
Qed.

Lemma wp_try_tracked h0 m s id p n d Q : mem_rep h0 m (hp s) → m p = Some (MkArcInner n (Some d)) →
  (∀ s', mem_rep h0 (upd_obj p (Some (MkArcInner n (Some (snd (try_new_list_arc id d))))) m) (hp s') →
     Q (fst (try_new_list_arc id d)) s') →
  wp (try_tracked id p) Q s.
Proof.
  intros Hm Hp HQ. unfold try_tracked. apply wp_bind. eapply wp_read_data; [done..|].
  destruct (try_new_list_arc id d) as [b d'] eqn:E. apply wp_bind. eapply wp_write_data; [done..|].
  intros s' Hm'. apply wp_ret. by apply HQ.
Qed.

(** *** The objects of an abstract state *)

Definition rc A p : Z := if decide (p ∈ sat A) then REFCOUNT_SATURATED else scnt (tbl A) p.
Definition mem_of A p : option (ArcInner D) := MkArcInner (rc A p) <$> objs A !! p.

Definition arc_post h0 A (op : ArcOp D) (out : handles * ArcOut D) s : Prop :=
  ∃ orc A', arc_spec orc A op = (A', snd out) ∧ tbl A' = fst out ∧
    (∀ p, orc = Some p → objs A !! p = None) ∧ mem_rep h0 (mem_of A') (hp s).

Lemma weight_ne p q kd : p ≠ q → weight q (p, kd) = 0.
Proof. intros H. unfold weight. rewrite decide_False; naive_solver. Qed.

Lemma weight_eq p kd : weight p (p, kd) = if strong kd then 1 else 0.
Proof. unfold weight. simpl. destruct (strong kd); [by rewrite decide_True|rewrite decide_False; naive_solver]. Qed.

(** A handle of [p] comes, changes or goes: the other objects keep their counts. *)
Lemma mem_change h0 A A' p i h :
  mem_rep h0 (upd_obj p i (mem_of A)) h → mem_of A' p = i →
  (∀ q, q ≠ p → objs A' !! q = objs A !! q ∧ scnt (tbl A') q = scnt (tbl A) q ∧ (q ∈ sat A' ↔ q ∈ sat A)) →
  mem_rep h0 (mem_of A') h.
Proof.
  intros Hm Hp Hq. eapply mem_ext; [exact Hm|]. intros q. unfold upd_obj. case_decide as E; [by subst|].
  destruct (Hq q E) as (Ho & Hs & Hsat). unfold mem_of, rc. rewrite Ho, Hs. repeat case_decide; naive_solver.
Qed.

Lemma others_insert (t : handles) k p kd q : t !! k = None → q ≠ p → scnt (<[k := (p, kd)]> t) q = scnt t q.
Proof. intros Hk Hq. rewrite scnt_insert by done. rewrite weight_ne by done. lia. Qed.

Lemma others_retag (t : handles) k p kd kd' q : t !! k = Some (p, kd) → q ≠ p →
  scnt (<[k := (p, kd')]> t) q = scnt t q.
Proof. intros Hk Hq. rewrite (scnt_retag _ _ (p, kd)) by done. rewrite !weight_ne by done. lia. Qed.

Lemma others_delete (t : handles) k p kd q : t !! k = Some (p, kd) → q ≠ p → scnt (delete k t) q = scnt t q.
Proof. intros Hk Hq. rewrite (scnt_delete _ _ (p, kd)) by done. rewrite weight_ne by done. lia. Qed.

Lemma sat_inc_ne A p q : q ≠ p → q ∈ sat_inc A p ↔ q ∈ sat A.
Proof. intros Hq. unfold sat_inc. case_decide; set_solver. Qed.

(** The count of an exclusive handle. *)
Lemma scnt_excl A k p kd : arc_inv A → tbl A !! k = Some (p, kd) → exclusive kd = true →
  scnt (tbl A) p = if strong kd then 1 else 0.
Proof.
  intros Hi Hk Hx. pose proof (excl_lone _ _ _ _ Hi Hk Hx) as Hl.
  pose proof (scnt_lone _ _ p (p, KRelease) Hl) as H1. rewrite (scnt_retag _ _ (p, kd)), !weight_eq in H1 by done.
  pose proof (scnt_nonneg (<[k := (p, KRelease)]> (tbl A)) p) as H2.
  rewrite (scnt_retag _ _ (p, kd)), !weight_eq in H2 by done. simpl in *.
  assert (scnt (delete k (tbl A)) p < 1) as H3; [|rewrite (scnt_delete _ _ (p, kd)), weight_eq in H3 by done; lia].
  destruct (decide (1 ≤ scnt (delete k (tbl A)) p)) as [(k2 & kd2 & E)%scnt_pos_ex|]; [|lia].
  apply lookup_delete_Some in E as [Hn E]. by apply Hl in E.
Qed.

(** The counter after one more reference. *)
Lemma inc_rc A k p kd t' o' : arc_inv A → tbl A !! k = Some (p, kd) → strong kd = true →
  scnt t' p = scnt (tbl A) p + 1 →
  refcount_inc (rc A p) = rc (MkAState t' o' (sat_inc A p)) p.
Proof.
  intros Hi Hk Hs Ht. pose proof (scnt_pos _ _ _ _ Hk Hs) as H1. unfold rc, sat_inc. simpl.
  destruct (decide (p ∈ sat A)) as [Hp|Hp].
  - rewrite (decide_False (P := (p ∉ sat A) ∧ _)) by naive_solver. rewrite decide_True by done. apply inc_sat.
  - pose proof (ai_cnt _ Hi p Hp) as Hm. destruct (decide (scnt (tbl A) p = REFCOUNT_MAX)) as [E|E].
    + rewrite (decide_True (P := (p ∉ sat A) ∧ _)) by done. rewrite decide_True by set_solver. rewrite E. apply inc_max.
    + rewrite (decide_False (P := (p ∉ sat A) ∧ _)) by naive_solver. rewrite decide_False by done.
      rewrite inc_exact by lia. lia.
Qed.

(** *** New objects *)

Lemma init_one : REFCOUNT_INIT 1 = 1.
Proof. apply init_ok. unfold REFCOUNT_MAX. usize. Qed.

Lemma wp_arc_new h0 m s x fl Q : mem_rep h0 m (hp s) →
  (∀ s', mem_rep h0 m (hp s') → Q (Err MkAllocError) s') →
  (∀ p s', m p = None → mem_rep h0 (upd_obj p (Some (MkArcInner 1 (Some x))) m) (hp s') → Q (Ok p) s') →
  wp (arc_new x fl) Q s.
Proof.
  intros Hm Herr Hok. unfold arc_new. apply wp_try. rewrite init_one. eapply wp_mem_new; [done|done|].
  intros p s' Hp Hm'. apply wp_ret. by apply Hok.
Qed.

Lemma wp_new_uninit_arc h0 m s fl Q : mem_rep h0 m (hp s) →
  (∀ s', mem_rep h0 m (hp s') → Q (Err MkAllocError) s') →
  (∀ p s', m p = None → mem_rep h0 (upd_obj p (Some (MkArcInner 1 None)) m) (hp s') → Q (Ok p) s') →
  wp (unique_new_uninit fl) Q s.
Proof.
  intros Hm Herr Hok. unfold unique_new_uninit. apply wp_try. unfold try_init. apply wp_bind.
  apply wp_new_uninit; [apply Hm|apply wp_ret; by apply Herr|]. intros p h' Ha.
  destruct (mem_alloc _ _ _ _ _ (MkArcInner 1 None) Hm Ha) as [Hp Hm'].
  unfold write_init, init_value. apply wp_bind, wp_bind, write_put.
  - intros _. destruct Ha as (_ & _ & _ & Hn). destruct (Hn eq_refl) as (_ & bl & -> & Hs).
    exists bl. simpl. rewrite lookup_insert_eq. split; [done|]. unfold in_bounds. simpl. by apply Z.leb_le.
  - apply wp_ret. apply wp_bind, wp_from_raw; [apply Ha|]. apply wp_ret, wp_ret, Hok; [done|].
    by rewrite init_one.
Qed.

(** A constructor that initialises in place gives the object or changes nothing. *)
Lemma wp_arc_try_init {E} (from : AllocError → E) (init : result E D) h0 m s fl Q : mem_rep h0 m (hp s) →
  (∀ e s', (e = from MkAllocError ∨ init = Err e) → mem_rep h0 m (hp s') → Q (Err e) s') →
  (∀ p d s', init = Ok d → m p = None → mem_rep h0 (upd_obj p (Some (MkArcInner 1 (Some d))) m) (hp s') → Q (Ok p) s') →
  wp (arc_try_init from init fl) Q s.
Proof.
  intros Hm Herr Hok. unfold arc_try_init, unique_try_init. apply wp_bind, wp_bind. eapply wp_new_uninit_arc; [done| |].
  - intros s' Hm'. apply wp_ret, wp_ret, Herr; [by left|done].
  - intros p s' Hp Hm'. destruct init as [d|e]; cbn [unique_write_init].
    + apply wp_bind. eapply wp_write_data; [exact Hm'|apply upd_obj_eq|]. intros s2 Hm2. apply wp_ret, wp_ret.
      apply (Hok p d); [done|done|]. eapply mem_ext; [exact Hm2|]. intros q. unfold upd_obj. by case_decide.
    + apply wp_bind. unfold arc_drop. apply wp_bind. eapply wp_arc_dec; [exact Hm'|apply upd_obj_eq|apply dec_last|].
      intros s2 Hm2. eapply wp_mem_free; [exact Hm2|apply upd_obj_eq|]. intros s3 Hm3. apply wp_ret, wp_ret, Herr; [by right|].
      eapply mem_ext; [exact Hm3|]. intros q. unfold upd_obj. case_decide as E1; [by subst|done].
Qed.

Lemma mem_make h0 A k p kd c s : arc_inv A → tbl A !! k = None → strong kd = true → mem_of A p = None →
  mem_rep h0 (upd_obj p (Some (MkArcInner 1 c)) (mem_of A)) (hp s) →
  objs A !! p = None ∧
  mem_rep h0 (mem_of (MkAState (<[k := (p, kd)]> (tbl A)) (<[p := c]> (objs A)) (sat A))) (hp s).
Proof.
  intros Hi Hk Hkd Hp Hm. assert (objs A !! p = None) as Hop by (by apply fmap_None in Hp).
  split; [done|]. eapply mem_change; [exact Hm| |].
  - unfold mem_of, rc. simpl. rewrite lookup_insert_eq. simpl. do 2 f_equal.
    rewrite decide_False by (intros [? ?]%(ai_sat _ Hi); congruence).
    rewrite scnt_insert, weight_eq, Hkd by done.
    destruct (decide (1 ≤ scnt (tbl A) p)) as [(k2 & kd2 & E)%scnt_pos_ex|].
    + destruct (ai_live _ Hi _ _ _ E) as (? & ? & _). congruence.
    + pose proof (scnt_nonneg (tbl A) p). lia.
  - intros q Hq. simpl. rewrite lookup_insert_ne by done. rewrite others_insert by done. done.
Qed.

Lemma step_arc_new h0 A s k x fl kd :
  arc_inv A → mem_rep h0 (mem_of A) (hp s) → tbl A !! k = None → kd = KArc ∨ kd = KUnique →
  wp (r ← arc_new x fl; mret (bind_arc (tbl A) k kd (result_map_err into_error r)))
    (λ out s', ∃ orc A', make orc A k kd (Some x) = (A', snd out) ∧ tbl A' = fst out ∧
      (∀ p, orc = Some p → objs A !! p = None) ∧ mem_rep h0 (mem_of A') (hp s')) s.
Proof.
  intros Hi Hm Hk Hkd. apply wp_bind. eapply wp_arc_new; [done| |].
  - intros s' Hm'. apply wp_ret. exists None, A. by split_and!.
  - intros p s' Hp Hm'. apply wp_ret. apply (mem_make h0 A k p kd) in Hm' as [Hop Hm'];
      [|done|done|by destruct Hkd as [-> | ->]|done].
    exists (Some p). eexists. split; [done|]. split; [done|]. split; [by intros ? [= <-]|done].
Qed.

Lemma step_uninit h0 A s k fl :
  arc_inv A → mem_rep h0 (mem_of A) (hp s) → tbl A !! k = None →
  wp (r ← unique_new_uninit fl; mret (bind_arc (tbl A) k KUninit (result_map_err into_error r)))
    (arc_post h0 A (AUninit k fl)) s.
Proof.
  intros Hi Hm Hk. apply wp_bind. eapply wp_new_uninit_arc; [done| |].
  - intros s' Hm'. apply wp_ret. exists None, A. simpl. rewrite Hk. by split_and!.
  - intros p s' Hp Hm'. apply wp_ret. apply (mem_make h0 A k p KUninit) in Hm' as [Hop Hm']; [|done..].
    exists (Some p). simpl. rewrite Hk. eexists. split; [done|]. split; [done|]. split; [by intros ? [= <-]|done].
Qed.

(** *** Changes of one object *)

(** A handle changes kind and the object its data; the count stays. *)
Lemma mem_retag h0 A k p kd kd' c s :
  tbl A !! k = Some (p, kd) → strong kd' = strong kd →
  mem_rep h0 (upd_obj p (Some (MkArcInner (rc A p) (Some c))) (mem_of A)) (hp s) →
  mem_rep h0 (mem_of (set_data (retag A k p kd') p c)) (hp s).
Proof.
  intros Hk Hs Hm. eapply mem_change; [exact Hm| |].
  - unfold mem_of, rc. simpl. rewrite lookup_insert_eq. simpl. do 2 f_equal.
    rewrite (scnt_retag _ _ (p, kd)), !weight_eq, Hs by done. case_decide; [done|lia].
  - intros q Hq. simpl. rewrite lookup_insert_ne by done. by rewrite (others_retag _ _ _ kd).
Qed.

(** The same for a handle whose count the state [A'] shows. *)
Lemma mem_tag h0 A k p kd kd' n d s :
  tbl A !! k = Some (p, kd) → objs A !! p = Some d → (p ∉ sat A) →
  scnt (<[k := (p, kd')]> (tbl A)) p = n →
  mem_rep h0 (upd_obj p (Some (MkArcInner n d)) (mem_of A)) (hp s) →
  mem_rep h0 (mem_of (retag A k p kd')) (hp s).
Proof.
  intros Hk Hp Hs Hn Hm. eapply mem_change; [exact Hm| |].
  - unfold mem_of, rc. simpl. rewrite Hp. simpl. do 2 f_equal. by rewrite decide_False.
  - intros q Hq. simpl. by rewrite (others_retag _ _ _ kd).
Qed.

(** A handle and its object go away. *)
Lemma mem_gone h0 A k p kd s :
  tbl A !! k = Some (p, kd) → mem_rep h0 (upd_obj p None (mem_of A)) (hp s) →
  mem_rep h0 (mem_of (MkAState (delete k (tbl A)) (delete p (objs A)) (sat A))) (hp s).
Proof.
  intros Hk Hm. eapply mem_change; [exact Hm| |].
  - unfold mem_of. simpl. by rewrite lookup_delete_eq.
  - intros q Hq. simpl. rewrite lookup_delete_ne by done. by rewrite (others_delete _ _ p kd).
Qed.

Lemma mem_at A p o : objs A !! p = Some o → mem_of A p = Some (MkArcInner (rc A p) o).
Proof. intros Hp. unfold mem_of. by rewrite Hp. Qed.

Lemma rc_excl A k p kd : arc_inv A → tbl A !! k = Some (p, kd) → exclusive kd = true →
  rc A p = if strong kd then 1 else 0.
Proof.
  intros Hi Hk Hx. unfold rc. rewrite decide_False by (by eapply (ai_excl_sat _ Hi)). by eapply scnt_excl.
Qed.

Lemma inv_obj A k p kd : arc_inv A → tbl A !! k = Some (p, kd) →
  ∃ o, objs A !! p = Some o ∧ (kd = KUninit ↔ o = None).
Proof. intros Hi Hk. by eapply (ai_live _ Hi). Qed.

Lemma mem_pos h0 A h p o : mem_rep h0 (mem_of A) h → objs A !! p = Some o → 0 < p.
Proof. intros Hm Hp. by apply (mr_obj _ _ _ Hm p _ (mem_at _ _ _ Hp)). Qed.

Lemma upd_upd h0 p a b m h : mem_rep h0 (upd_obj p a (upd_obj p b m)) h → mem_rep h0 (upd_obj p a m) h.
Proof. intros Hm. eapply mem_ext; [done|]. intros q. unfold upd_obj. by case_decide. Qed.

Lemma upd_same h0 p i m h : mem_rep h0 (upd_obj p i m) h → m p = i → mem_rep h0 m h.
Proof. intros Hm Hp. eapply mem_ext; [done|]. intros q. unfold upd_obj. case_decide; [by subst|done]. Qed.

(** Closes a step that needs no new object. *)
Lemma post_intro h0 A A' op o t s : arc_spec None A op = (A', o) → tbl A' = t →
  mem_rep h0 (mem_of A') (hp s) → arc_post h0 A op (t, o) s.
Proof. intros Hs Ht Hm. exists None, A'. by split_and!. Qed.

Lemma post_skip h0 A op s : mem_rep h0 (mem_of A) (hp s) → arc_spec None A op = (A, ANone) →
  wp (mret (tbl A, ANone)) (arc_post h0 A op) s.
Proof. intros Hm Hs. apply wp_ret. by eapply post_intro. Qed.

Section Steps.
Context (h0 : gmap Z (block (ArcInner D))) (A : AState D) (s : St (ArcInner D) unit) (k : nat) (p : Z).
Hypothesis (Hi : arc_inv A) (Hm : mem_rep h0 (mem_of A) (hp s)).

Lemma step_arc_write x : tbl A !! k = Some (p, KUninit) →
  wp (q ← unique_write p x; mret (<[k := (q, KUnique)]> (tbl A), ANone)) (arc_post h0 A (AWrite k x)) s.
Proof.
  intros Hk. destruct (inv_obj _ _ _ _ Hi Hk) as (o & Hp & _). pose proof (mem_at _ _ _ Hp) as Ha.
  apply wp_bind. unfold unique_write. apply wp_bind. eapply wp_write_data; [done..|]. intros s' Hm'.
  apply wp_ret, wp_ret. eapply post_intro; [simpl; by rewrite Hk|done|]. by eapply mem_retag.
Qed.

Lemma step_init_with r : tbl A !! k = Some (p, KUninit) →
  wp (r' ← init_with p r; mret (bind_arc (delete k (tbl A)) k KUnique r')) (arc_post h0 A (AInitWith k r)) s.
Proof.
  intros Hk. destruct (inv_obj _ _ _ _ Hi Hk) as (o & Hp & _). pose proof (mem_at _ _ _ Hp) as Ha.
  apply wp_bind. unfold init_with. destruct r as [x|e].
  - apply wp_bind. eapply wp_write_data; [done..|]. intros s' Hm'. apply wp_ret, wp_ret.
    eapply post_intro; [simpl; by rewrite Hk|simpl; by rewrite insert_delete_eq|]. by eapply mem_retag.
  - rewrite (rc_excl _ _ _ _ Hi Hk) in Ha by done. simpl in Ha.
    apply wp_bind. unfold arc_drop. apply wp_bind. eapply wp_arc_dec; [done..|apply dec_last|].
    intros s' Hm'. eapply wp_mem_free; [done|apply upd_obj_eq|]. intros s2 Hm2%upd_upd. apply wp_ret, wp_ret.
    eapply post_intro; [simpl; by rewrite Hk|done|]. by eapply mem_gone.
Qed.

Lemma step_mut f : tbl A !! k = Some (p, KUnique) →
  wp (_ ← unique_deref_mut p f; mret (tbl A, ANone)) (arc_post h0 A (AMut k f)) s.
Proof.
  intros Hk. destruct (inv_data _ _ _ _ Hi Hk) as [d Hp]; [done|]. pose proof (mem_at _ _ _ Hp) as Ha.
  apply wp_bind. eapply wp_unique_deref_mut; [done..|]. intros s' Hm'. apply wp_ret.
  eapply post_intro; [simpl; by rewrite Hk, Hp|done|].
  eapply (mem_retag _ _ k p KUnique KUnique) in Hm'; [|done..]. unfold retag in Hm'.
  rewrite insert_id in Hm' by done. by destruct A.
Qed.

Lemma step_share : tbl A !! k = Some (p, KUnique) →
  wp (mret (<[k := (arc_from_unique p, KArc)]> (tbl A), ANone)) (arc_post h0 A (AShare k)) s.
Proof.
  intros Hk. destruct (inv_data _ _ _ _ Hi Hk) as [d Hp]; [done|].
  apply wp_ret. eapply post_intro; [simpl; by rewrite Hk|done|].
  rewrite <- (set_data_id (retag A k p KArc) p d) by done. eapply mem_retag; [done..|].
  eapply mem_ext; [exact Hm|]. intros q. unfold upd_obj. case_decide; [subst; by apply mem_at|done].
Qed.

Lemma step_arc_deref kd op : tbl A !! k = Some (p, kd) → kd ≠ KUninit →
  (∀ d, objs A !! p = Some (Some d) → arc_spec None A op = (A, AVal d)) →
  wp (d ← arc_deref p; mret (tbl A, AVal d)) (arc_post h0 A op) s.
Proof.
  intros Hk Hu Hs. destruct (inv_data _ _ _ _ Hi Hk Hu) as [d Hp].
  apply wp_bind. eapply wp_read_data; [done|by apply mem_at|]. apply wp_ret.
  by eapply post_intro; [apply Hs|..].
Qed.

Lemma step_arc_foreign : tbl A !! k = Some (p, KArc) →
  wp (b ← arc_borrow (arc_into_foreign p); d ← arc_deref b;
      q ← arc_from_foreign (arc_into_foreign p); mret (<[k := (q, KArc)]> (tbl A), AVal d))
    (arc_post h0 A (AForeign k)) s.
Proof.
  intros Hk. destruct (inv_data _ _ _ _ Hi Hk) as [d Hp]; [done|]. pose proof (mem_pos _ _ _ _ _ Hm Hp).
  unfold arc_borrow, arc_from_foreign, arc_into_foreign, is_null, null.
  rewrite (proj2 (Z.eqb_neq p 0)) by lia. apply wp_bind, wp_ret, wp_bind.
  eapply wp_read_data; [done|by apply mem_at|]. apply wp_bind, wp_ret, wp_ret.
  eapply post_intro; [simpl; by rewrite Hk, Hp|simpl; by rewrite insert_id|done].
Qed.

Lemma wp_raw_roundtrip Q : is_Some (objs A !! p) → Q p s → wp (arc_from_raw (arc_into_raw D p)) Q s.
Proof.
  intros [o Hp] HQ. pose proof (mem_pos _ _ _ _ _ Hm Hp). unfold arc_from_raw. rewrite container_of_data.
  unfold is_null, null. rewrite (proj2 (Z.eqb_neq p 0)) by lia. by apply wp_ret.
Qed.

Lemma step_raw kd : tbl A !! k = Some (p, kd) →
  wp (q ← arc_from_raw (arc_into_raw D p); mret (<[k := (q, kd)]> (tbl A), ANone)) (arc_post h0 A (ARaw k)) s.
Proof.
  intros Hk. destruct (inv_obj _ _ _ _ Hi Hk) as (o & Hp & _).
  apply wp_bind, wp_raw_roundtrip; [eauto|]. apply wp_ret.
  eapply post_intro; [done|simpl; by rewrite insert_id|done].
Qed.

Lemma step_arc_clone k' kd op : tbl A !! k = Some (p, kd) → exclusive kd = false → tbl A !! k' = None →
  arc_spec None A op = (MkAState (<[k' := (p, KArc)]> (tbl A)) (objs A) (sat_inc A p), ANone) →
  wp (q ← arc_clone p; mret (<[k' := (q, KArc)]> (tbl A), ANone)) (arc_post h0 A op) s.
Proof.
  intros Hk Hx Hk' Hs. destruct (inv_data _ _ _ _ Hi Hk) as [d Hp]; [by intros ->|].
  apply wp_bind. eapply wp_arc_clone; [done|by apply mem_at|]. intros s' Hm'. apply wp_ret.
  eapply post_intro; [exact Hs|done|]. eapply mem_change; [exact Hm'| |].
  - unfold mem_of. simpl. rewrite Hp. simpl. do 2 f_equal. symmetry. eapply inc_rc; [done..|by destruct kd|].
    rewrite scnt_insert, weight_eq by done. done.
  - intros q Hq. simpl. rewrite others_insert by done. by rewrite sat_inc_ne.
Qed.

Lemma step_dec kd op : tbl A !! k = Some (p, KArc) → strong kd = false →
  arc_spec None A op = spec_dec A k p kd →
  wp (z ← arc_dec p; mret (if z : bool then <[k := (p, kd)]> (tbl A) else delete k (tbl A), ABool z))
    (arc_post h0 A op) s.
Proof.
  intros Hk Hkd Hs. destruct (inv_data _ _ _ _ Hi Hk) as [d Hp]; [done|].
  pose proof (mem_at _ _ _ Hp) as Ha. pose proof (scnt_pos _ _ _ _ Hk eq_refl) as H1.
  unfold spec_dec in Hs. apply wp_bind. case_decide as Hd.
  - destruct Hd as [Hps Hone]. unfold rc in Ha. rewrite decide_False, Hone in Ha by done.
    eapply wp_arc_dec; [done..|apply dec_last|]. intros s' Hm'. apply wp_ret.
    eapply post_intro; [exact Hs|done|]. eapply mem_tag; [done..| |exact Hm'].
    rewrite (scnt_retag _ _ (p, KArc)), !weight_eq, Hkd by done. simpl. lia.
  - set (A' := MkAState (delete k (tbl A)) (objs A) (sat A)) in Hs.
    assert (refcount_dec_and_test (rc A p) = (false, rc A' p)) as Hdec.
    { unfold rc. simpl. case_decide as Hps; [apply dec_sat|].
      rewrite (scnt_delete _ _ (p, KArc)), weight_eq by done. simpl. apply dec_exact.
      pose proof (ai_cnt _ Hi p Hps). assert (scnt (tbl A) p ≠ 1) by naive_solver. lia. }
    eapply wp_arc_dec; [done..|]. intros s' Hm'. apply wp_ret.
    eapply post_intro; [exact Hs|done|]. eapply mem_change; [exact Hm'| |].
    + by apply mem_at.
    + intros q Hq. simpl. by rewrite (others_delete _ _ p KArc).
Qed.

Lemma step_release : tbl A !! k = Some (p, KRelease) →
  wp (_ ← arc_release p; mret (delete k (tbl A), ANone)) (arc_post h0 A (ARelease k)) s.
Proof.
  intros Hk. destruct (inv_data _ _ _ _ Hi Hk) as [d Hp]; [done|]. apply wp_bind.
  eapply wp_mem_free; [done|by apply mem_at|]. intros s' Hm'. apply wp_ret.
  eapply post_intro; [simpl; by rewrite Hk|done|]. by eapply mem_gone.
Qed.

Lemma step_claim : tbl A !! k = Some (p, KClaim) →
  wp (_ ← write_refcount p (REFCOUNT_INIT 1); mret (<[k := (p, KUnique)]> (tbl A), ANone))
    (arc_post h0 A (AClaim k)) s.
Proof.
  intros Hk. destruct (inv_data _ _ _ _ Hi Hk) as [d Hp]; [done|]. apply wp_bind. rewrite init_one.
  eapply wp_write_refcount; [done|by apply mem_at|]. intros s' Hm'. apply wp_ret.
  eapply post_intro; [simpl; by rewrite Hk|done|].
  eapply mem_tag; [done..|by eapply (ai_excl_sat _ Hi)| |exact Hm'].
  rewrite (scnt_retag _ _ (p, KClaim)), !weight_eq by done. simpl.
  pose proof (scnt_excl _ _ _ _ Hi Hk eq_refl) as E. simpl in E. lia.
Qed.

Lemma step_list id : tbl A !! k = Some (p, KUnique) →
  wp (q ← list_arc_from_unique id p; mret (<[k := (q, KList id)]> (tbl A), ANone)) (arc_post h0 A (AList k id)) s.
Proof.
  intros Hk. destruct (inv_data _ _ _ _ Hi Hk) as [d Hp]; [done|]. apply wp_bind. unfold list_arc_from_unique.
  apply wp_bind. eapply wp_unique_deref_mut; [done|by apply mem_at|]. intros s' Hm'. apply wp_ret, wp_ret.
  eapply post_intro; [simpl; by rewrite Hk, Hp|done|]. by eapply mem_retag.
Qed.

Lemma step_pair k' id id2 : tbl A !! k = Some (p, KUnique) → tbl A !! k' = None →
  wp (qs ← pair_from_unique id id2 p;
      mret (<[k' := (snd qs, KList id2)]> (<[k := (fst qs, KList id)]> (tbl A)), ANone))
    (arc_post h0 A (APair k k' id id2)) s.
Proof.
  intros Hk Hk'. destruct (inv_data _ _ _ _ Hi Hk) as [d Hp]; [done|]. apply wp_bind. unfold pair_from_unique.
  pose proof (mem_at _ _ _ Hp) as Ha. rewrite (rc_excl _ _ _ _ Hi Hk) in Ha by done. simpl in Ha.
  apply wp_bind. eapply wp_unique_deref_mut; [done..|]. intros s1 Hm1.
  apply wp_bind. eapply wp_unique_deref_mut; [done|apply upd_obj_eq|]. intros s2 Hm2%upd_upd.
  apply wp_bind. eapply wp_arc_clone; [done|apply upd_obj_eq|]. intros s3 Hm3%upd_upd. apply wp_ret, wp_ret.
  assert (k ≠ k') as Hkk by congruence.
  eapply post_intro; [simpl; by rewrite Hk, Hk', Hp|done|]. eapply mem_change; [exact Hm3| |].
  - unfold mem_of. simpl. rewrite lookup_insert_eq. simpl. do 2 f_equal. unfold rc. simpl.
    rewrite decide_False by (by eapply (ai_excl_sat _ Hi)).
    rewrite scnt_insert, (scnt_retag _ _ (p, KUnique)), !weight_eq by (done || by rewrite lookup_insert_ne).
    rewrite (scnt_excl _ _ _ _ Hi Hk eq_refl), inc_exact by (unfold REFCOUNT_MAX; usize). done.
  - intros q Hq. simpl. rewrite lookup_insert_ne by done.
    rewrite others_insert by (done || by rewrite lookup_insert_ne). by rewrite (others_retag _ _ p KUnique).
Qed.

(** The compare-and-exchange succeeds when there is no [ListArc]. *)
Lemma try_result d id : objs A !! p = Some (Some d) → tracked id = true →
  fst (try_new_list_arc id d) = negb (bool_decide (has_list (tbl A) p id)) ∧
  (has_list (tbl A) p id → snd (try_new_list_arc id d) = d).
Proof.
  intros Hp Htr. pose proof (ai_track _ Hi p d id Hp Htr) as Ht. rewrite (proj1 (try_new_spec id d Htr)).
  case_bool_decide as Hh; (split; [|]).
  - by rewrite (proj2 Ht Hh).
  - intros _. unfold try_new_list_arc, tracker_try_new. rewrite (proj2 Ht Hh). simpl. by apply set_same.
  - destruct (inner (field id d)); [by destruct Hh, Ht; auto|done].
  - done.
Qed.

Lemma step_try id : tbl A !! k = Some (p, KArc) → tracked id = true →
  wp (r ← try_from_arc id p;
      match r with
      | Ok q => mret (<[k := (q, KList id)]> (tbl A), ABool true)
      | Err q => mret (<[k := (q, KArc)]> (tbl A), ABool false)
      end) (arc_post h0 A (ATry k id)) s.
Proof.
  intros Hk Htr. destruct (inv_data _ _ _ _ Hi Hk) as [d Hp]; [done|]. pose proof (mem_at _ _ _ Hp) as Ha.
  destruct (try_result d id Hp Htr) as [Hb Hd]. apply wp_bind. unfold try_from_arc. apply wp_bind.
  eapply wp_try_tracked; [done..|]. rewrite Hb. intros s' Hm'. case_bool_decide as Hh; simpl; apply wp_ret, wp_ret.
  - rewrite Hd in Hm' by done.
    eapply post_intro; [simpl; by rewrite Hk, Htr, Hp, decide_True|simpl; by rewrite insert_id|].
    by eapply upd_same.
  - eapply post_intro; [simpl; by rewrite Hk, Htr, Hp, decide_False|done|]. by eapply mem_retag.
Qed.

Lemma step_try_borrow k' id : tbl A !! k = Some (p, KArc) → tbl A !! k' = None → tracked id = true →
  wp (r ← try_from_arc_borrow id p;
      match r with
      | Some q => mret (<[k' := (q, KList id)]> (tbl A), ABool true)
      | None => mret (tbl A, ABool false)
      end) (arc_post h0 A (ATryBorrow k k' id)) s.
Proof.
  intros Hk Hk' Htr. destruct (inv_data _ _ _ _ Hi Hk) as [d Hp]; [done|]. pose proof (mem_at _ _ _ Hp) as Ha.
  destruct (try_result d id Hp Htr) as [Hb Hd]. apply wp_bind. unfold try_from_arc_borrow. apply wp_bind.
  eapply wp_try_tracked; [done..|]. rewrite Hb. intros s' Hm'. case_bool_decide as Hh; simpl.
  - apply wp_ret, wp_ret. rewrite Hd in Hm' by done.
    eapply post_intro; [simpl; by rewrite Hk, Hk', Htr, Hp, decide_True|done|]. by eapply upd_same.
  - apply wp_bind. eapply wp_arc_clone; [done|apply upd_obj_eq|]. intros s2 Hm2%upd_upd. apply wp_ret, wp_ret.
    eapply post_intro; [simpl; by rewrite Hk, Hk', Htr, Hp, decide_False|done|]. eapply mem_change; [exact Hm2| |].
    + unfold mem_of. simpl. rewrite lookup_insert_eq. simpl. do 2 f_equal. symmetry.
      eapply inc_rc; [done..|]. rewrite scnt_insert, weight_eq by done. done.
    + intros q Hq. simpl. rewrite lookup_insert_ne, others_insert by done. by rewrite sat_inc_ne.
Qed.

Lemma step_into_arc id : tbl A !! k = Some (p, KList id) →
  wp (q ← into_arc id p; mret (<[k := (q, KArc)]> (tbl A), ANone)) (arc_post h0 A (AIntoArc k)) s.
Proof.
  intros Hk. destruct (inv_data _ _ _ _ Hi Hk) as [d Hp]; [done|]. apply wp_bind. unfold into_arc, drop_tracked.
  apply wp_bind, wp_bind. eapply wp_read_data; [done|by apply mem_at|].
  eapply wp_write_data; [done|by apply mem_at|]. intros s' Hm'. apply wp_ret, wp_ret.
  eapply post_intro; [simpl; by rewrite Hk, Hp|done|]. by eapply mem_retag.
Qed.
End Steps.

Lemma arc_step_ok h0 A s op : arc_inv A → mem_rep h0 (mem_of A) (hp s) →
  wp (arc_step (tbl A) op) (arc_post h0 A op) s.
Proof.
  intros Hi Hm.
  destruct op as [k x fl|k x fl|k fl|k x|k r|k f|k|k|k k'|k|k|k|k|k|k|k id|k k' id id2|k id|k k' id|k]; simpl;
    destruct (tbl A !! k) as [[p kd]|] eqn:Hk;
    try (apply post_skip; [done|simpl; by rewrite ?Hk]); try destruct kd as [| | |id'| |];
    try (apply post_skip; [done|simpl; by rewrite ?Hk]).
  - eapply wp_mono; [apply (step_arc_new h0 A s k x fl KArc); auto|]. intros out s' H.
    unfold arc_post. simpl. by rewrite Hk.
  - eapply wp_mono; [apply (step_arc_new h0 A s k x fl KUnique); auto|]. intros out s' H.
    unfold arc_post. simpl. by rewrite Hk.
  - by apply step_uninit.
  - by apply step_arc_write.
  - by apply step_init_with.
  - by apply step_mut.
  - by apply step_share.
  - eapply step_arc_deref; [done..|]. intros d Hp. simpl. by rewrite Hk, Hp.
  - eapply step_arc_deref; [done..|]. intros d Hp. simpl. by rewrite Hk, Hp.
  - eapply step_arc_deref; [done..|]. intros d Hp. simpl. by rewrite Hk, Hp.
  - destruct (tbl A !! k') eqn:Hk'; [apply post_skip; [done|simpl; by rewrite Hk, Hk']|].
    eapply step_arc_clone; [done..|]. simpl. by rewrite Hk, Hk'.
  - destruct (tbl A !! k') eqn:Hk'; [apply post_skip; [done|simpl; by rewrite Hk, Hk']|].
    eapply step_arc_clone; [done..|]. simpl. by rewrite Hk, Hk'.
  - eapply step_dec; [done..|]. simpl. by rewrite Hk.
  - by apply step_release.
  - eapply step_dec; [done..|]. simpl. by rewrite Hk.
  - by apply step_claim.
  - by apply step_arc_foreign.
  - by apply step_raw.
  - destruct (inv_obj _ _ _ _ Hi Hk) as (o & Hp & _). eapply wp_bind, wp_bind, wp_raw_roundtrip; [done|eauto|].
    apply wp_ret, wp_ret. eapply post_intro; [done|simpl; by rewrite insert_id|done].
  - by apply step_list.
  - destruct (tbl A !! k') eqn:Hk'; [apply post_skip; [done|simpl; by rewrite Hk, Hk']|]. by apply step_pair.
  - destruct (tracked id) eqn:Htr; [|apply post_skip; [done|simpl; by rewrite Hk, Htr]]. by apply step_try.
  - destruct (tbl A !! k') eqn:Hk'; [apply post_skip; [done|simpl; by rewrite Hk, Hk']|].
    destruct (tracked id) eqn:Htr; [|apply post_skip; [done|simpl; by rewrite Hk, Hk', Htr]]. by apply step_try_borrow.
  - by apply step_into_arc.
Qed.

(** Retagging a handle that is alone, with clear trackers. *)
Lemma inv_retag_clear A k p kd kd' o d : arc_inv A → tbl A !! k = Some (p, kd) → exclusive kd = true →
  objs A !! p = Some o → kd' = KUnique ∨ kd' = KArc →
  (∀ id, tracked id = true → inner (field id d) = false) →
  arc_inv (set_data (retag A k p kd') p d).
Proof.
  intros Hi Hk Hx Hp Hkd Hcl. eapply inv_retag_lone; [done..| | |done| |].
  - by eapply excl_lone.
  - by eapply (ai_excl_sat _ Hi).
  - by destruct Hkd as [-> | ->].
  - intros id Htr. rewrite Hcl by done. by destruct Hkd as [-> | ->].
Qed.

Lemma excl_clear A k p kd d id : arc_inv A → tbl A !! k = Some (p, kd) → exclusive kd = true →
  objs A !! p = Some (Some d) → tracked id = true → inner (field id d) = false.
Proof. intros Hi Hk Hx. eapply lone_clear; [done..|by eapply excl_lone|]. by intros i ->. Qed.

Lemma fresh_clear (x : D) id : fresh x → tracked id = true → inner (field id x) = false.
Proof. intros Hf Htr. by rewrite Hf. Qed.

Lemma inv_make orc A k kd c A' o : arc_inv A → tbl A !! k = None → kd ∈ [KArc; KUnique; KUninit] →
  (kd = KUninit ↔ c = None) → (∀ x, c = Some x → fresh x) →
  (∀ p, orc = Some p → objs A !! p = None) → make orc A k kd c = (A', o) → arc_inv A'.
Proof.
  intros Hi Hk Hkd Hu Hf Ho. destruct orc as [p|]; intros [= <- <-]; [|done]. apply inv_new; auto.
Qed.

Lemma arc_spec_inv orc A op A' o : arc_inv A → arc_op_ok op → (∀ p, orc = Some p → objs A !! p = None) →
  arc_spec orc A op = (A', o) → arc_inv A'.
Proof.
  intros Hi Hop Horc.
  destruct op as [k x fl|k x fl|k fl|k x|k r|k f|k|k|k k'|k|k|k|k|k|k|k id|k k' id id2|k id|k k' id|k]; simpl in *;
    destruct (tbl A !! k) as [[p kd]|] eqn:Hk; try (by intros [= <- _]); try destruct kd as [| | |id'| |];
    try (by intros [= <- _]);
    try (destruct (inv_data _ _ _ _ Hi Hk) as [d Hp]; [done|]; try rewrite Hp); try (by intros [= <- _]).
  - apply inv_make; [done|done|set_solver|done|by intros ? [= <-]|done].
  - apply inv_make; [done|done|set_solver|done|by intros ? [= <-]|done].
  - apply inv_make; [done|done|set_solver|done|done|done].
  - intros [= <- _]. destruct (inv_obj _ _ _ _ Hi Hk) as (c & Hp & _).
    eapply inv_retag_clear; [done..|auto|]. intros. by apply fresh_clear.
  - destruct (inv_obj _ _ _ _ Hi Hk) as (c & Hp & _). destruct r as [x|e]; intros [= <- _].
    + eapply inv_retag_clear; [done..|auto|]. intros. by apply fresh_clear.
    + by eapply inv_free.
  - intros [= <- _]. replace (set_data A p (f d)) with (set_data (retag A k p KUnique) p (f d)).
    + eapply inv_retag_clear; [done..|auto|]. intros id Htr. rewrite Hop. by eapply excl_clear.
    + unfold retag. rewrite insert_id by done. by destruct A.
  - intros [= <- _]. rewrite <- (set_data_id (retag A k p KArc) p d) by done.
    eapply inv_retag_clear; [done..|auto|]. intros id Htr. by eapply excl_clear.
  - destruct (tbl A !! k') eqn:Hk'; intros [= <- _]; [done|]. by eapply inv_clone.
  - destruct (tbl A !! k') eqn:Hk'; intros [= <- _]; [done|]. by eapply inv_clone.
  - eapply inv_dec; [done..|auto].
  - intros [= <- _]. by eapply inv_free.
  - eapply inv_dec; [done..|auto].
  - intros [= <- _]. rewrite <- (set_data_id (retag A k p KUnique) p d) by done.
    eapply inv_retag_clear; [done..|auto|]. intros id Htr. by eapply excl_clear.
  - intros [= <- _]. by apply inv_list.
  - destruct (tbl A !! k') eqn:Hk'; intros [= <- _]; [done|]. by apply inv_pair.
  - destruct (tracked id) eqn:Htr; [|by intros [= <- _]]. case_decide; intros [= <- _]; [done|]. by apply inv_try.
  - destruct (tbl A !! k') eqn:Hk'; [by intros [= <- _]|]. destruct (tracked id) eqn:Htr; [|by intros [= <- _]].
    case_decide; intros [= <- _]; [done|]. by eapply inv_try_borrow.
  - intros [= <- _]. by apply inv_into_arc.
Qed.

Lemma arc_run_ok h0 ops : ∀ A s, arc_inv A → mem_rep h0 (mem_of A) (hp s) → Forall arc_op_ok ops →
  wp (arc_run (tbl A) ops) (λ out s', ∃ A', arc_exec A ops A' (snd out) ∧ tbl A' = fst out ∧
    arc_inv A' ∧ mem_rep h0 (mem_of A') (hp s')) s.
Proof.
  induction ops as [|op ops IH]; intros A s Hi Hm Hops; simpl.
  - apply wp_ret. exists A. split; [constructor|done].
  - apply Forall_cons in Hops as [Hop Hops]. apply wp_bind. eapply wp_mono; [by apply arc_step_ok|].
    intros [t o] s' (orc & A1 & Hs & Ht & Ho & Hm'). simpl in *. subst t.
    apply wp_bind. eapply wp_mono; [apply IH; [by eapply arc_spec_inv|done..]|].
    intros [t os] s2 (A2 & He & Ht2 & Hi2 & Hm2). simpl in *. apply wp_ret. exists A2.
    split; [by econstructor|done].
Qed.
End Refine.

(** ** Theorems *)

Definition arc_init {D} : AState D := MkAState ∅ ∅ ∅.

(** C1: every interleaving of the atomic steps of [Arc], [UniqueArc] and [ListArc]
    operations runs without a panic and without undefined behaviour (no access to a
    freed or uninitialised object), for any refcount implementation and any
    allocator that behave as documented. It refines a machine without counters, in
    which a drop is the last one exactly when no other reference is left; every
    handle refers to a live object whose counter is the number of references to it,
    or is saturated; and once all handles are gone the heap is what it was, unless
    a counter saturated. *)
Theorem arc_program_refines {D} `{RTypeOk D} {AL : Allocator (ArcInner D)} {ALs : AllocatorSpec (ArcInner D)}
    `{RefcountSpec} `{TrackedOk D} (ops : list (ArcOp D)) (s : St (ArcInner D) unit)
    (Hsize : size_of (ArcInner D) ≤ ISIZE_MAX) (Hh : heap_ok (hp s)) (Hops : Forall arc_op_ok ops) :
  ∃ os s' A, arc_run ∅ ops s = Done ((tbl A, os), s') ∧ arc_exec arc_init ops A os ∧
    (∀ k p kd, tbl A !! k = Some (p, kd) → ∃ o, objs A !! p = Some o ∧
       slot (hp s') p 0 =
         Some (MkArcInner (if decide (p ∈ sat A) then REFCOUNT_SATURATED else scnt (tbl A) p) o)) ∧
    (tbl A = ∅ → sat A = ∅ → hp s' = hp s).
Proof.
  pose proof (ArcInner_type_ok Hsize) as RAok.
  destruct (arc_run_ok (hp s) ops arc_init s) as ([t os] & s' & Hd & A & He & Ht & Hi & Hm);
    [apply inv_empty|by split|done|].
  simpl in *. subst t. exists os, s', A. split_and!; [done..| |].
  - intros k p kd Hk. destruct (inv_obj _ _ _ _ Hi Hk) as (o & Hp & _). exists o. split; [done|].
    apply (mr_obj _ _ _ Hm p), (mem_at A p o Hp).
  - intros Ht Hs. apply map_eq. intros q. apply (mr_frame _ _ _ Hm). unfold mem_of.
    destruct (objs A !! q) as [o|] eqn:E; [|done]. apply (ai_owned _ Hi) in E as [E|(k & kd & E)].
    + rewrite Hs in E. set_solver.
    + by rewrite Ht in E.
Qed.

(** C9: exclusivity holds after every interleaving. A [UniqueArc], and a drop or an
    [into_unique_or_drop] that saw zero, is the only handle of its object; for each
    list there is at most one [ListArc] of an object; and the tracker that the
    object carries for a list is set exactly while that [ListArc] exists. *)
Theorem arc_exclusivity {D} `{RTypeOk D} {AL : Allocator (ArcInner D)} {ALs : AllocatorSpec (ArcInner D)}
    `{RefcountSpec} `{TrackedOk D} (ops : list (ArcOp D)) (s : St (ArcInner D) unit)
    (Hsize : size_of (ArcInner D) ≤ ISIZE_MAX) (Hh : heap_ok (hp s)) (Hops : Forall arc_op_ok ops) :
  ∃ t os s', arc_run ∅ ops s = Done ((t, os), s') ∧
    (∀ k k' p kd kd', t !! k = Some (p, kd) → exclusive kd = true → t !! k' = Some (p, kd') → k' = k) ∧
    (∀ k k' p id, t !! k = Some (p, KList id) → t !! k' = Some (p, KList id) → k' = k) ∧
    (∀ k p kd id n d, t !! k = Some (p, kd) → tracked id = true →
       slot (hp s') p 0 = Some (MkArcInner n (Some d)) →
       inner (field id d) = true ↔ ∃ k', t !! k' = Some (p, KList id)).
Proof.
  pose proof (ArcInner_type_ok Hsize) as RAok.
  destruct (arc_run_ok (hp s) ops arc_init s) as ([t os] & s' & Hd & A & He & Ht & Hi & Hm);
    [apply inv_empty|by split|done|].
  simpl in *. subst t. exists (tbl A), os, s'. split_and!; [done| | |].
  - intros k k' p kd kd' Hk Hx Hk'. by eapply (ai_excl _ Hi).
  - intros k k' p id. apply (ai_list _ Hi).
  - intros k p kd id n d Hk Htr Hs. rewrite <- has_list_alt. apply (ai_track _ Hi); [|done].
    destruct (inv_obj _ _ _ _ Hi Hk) as (o & Hp & _).
    destruct (mr_obj _ _ _ Hm p _ (mem_at A p o Hp)) as (_ & _ & Hs' & _). congruence.
Qed.

(** The handles after a sequence of steps. *)
Definition run_tbl {D} `{RType D} {AL : Allocator (ArcInner D)} `{Refcount} `{Tracked D}
    (t : handles) (ops : list (ArcOp D)) : M (St (ArcInner D) unit) handles :=
  '(t, _) ← arc_run t ops; mret t.

Section Composites.
Context {D : Type} {RD : RType D} {AL : Allocator (ArcInner D)} {RC : Refcount} {TD : Tracked D}.
Implicit Types (t : handles) (s : St (ArcInner D) unit).

Lemma run_tbl_nil t s : run_tbl (D := D) t [] s = Done (t, s).
Proof. done. Qed.

Lemma run_tbl_cons t op ops s :
  run_tbl t (op :: ops) s =
  match arc_step t op s with Done ((t', _), s') => run_tbl t' ops s' | Panic => Panic | UB => UB end.
Proof.
  unfold run_tbl. cbn [arc_run]. unfold mbind, M_bind. destruct (arc_step t op s) as [[[t' o] s']| |]; [|done..].
  destruct (arc_run t' ops s') as [[[t2 os] s2]| |]; done.
Qed.

End Composites.

Lemma bind_run {S A B} (m : M S A) (k : A → M S B) s :
  (m ≫= k) s = match m s with Done (a, s') => k a s' | Panic => Panic | UB => UB end.
Proof. done. Qed.

Lemma ret_run {S A} (a : A) (s : S) : mret (M := M S) a s = Done (a, s).
Proof. done. Qed.

(** Runs both sides of an equation, outcome by outcome. *)
Ltac run_head :=
  repeat first
    [ progress rewrite ?run_tbl_nil, ?bind_run, ?ret_run
    | progress cbn [fst snd bind_arc result_map_err]
    | progress unfold transmute_to_arc, transmute_from_arc, arc_from_unique
    | progress rewrite ?lookup_insert_eq, ?lookup_delete_eq, ?insert_insert_eq, ?delete_insert_eq, ?delete_delete_eq,
        ?insert_delete_eq
    | progress cbn beta iota match ].
Ltac run_step := rewrite run_tbl_cons; cbn [arc_step]; run_head.
Ltac run_on m := destruct m as [[? ?]| |]; [|done|done]; run_head.

(** The operations that are not atomic are the sequences of steps that the other
    theorems interleave: the drop of an [Arc], [into_unique_or_drop], the drop of a
    [ListArc], [try_from_arc_or_drop] and [ListArc::new]. *)
Theorem arc_composites {D} `{RType D} {AL : Allocator (ArcInner D)} `{Refcount} `{Tracked D}
    (t : handles) (k : nat) (p id : Z) (x : D) (fl : Flags) (s : St (ArcInner D) unit)
    (Htr : tracked id = true) :
  run_tbl (<[k := (p, KArc)]> t) [ADec k; ARelease k] s = (_ ← arc_drop p; mret (delete k t)) s ∧
  run_tbl (<[k := (p, KArc)]> t) [AIntoUnique k; AClaim k] s =
    (o ← into_unique_or_drop p; mret (if o is Some u then <[k := (u, KUnique)]> t else delete k t)) s ∧
  run_tbl (<[k := (p, KList id)]> t) [AIntoArc k; ADec k; ARelease k] s =
    (_ ← list_arc_drop id p; mret (delete k t)) s ∧
  run_tbl (<[k := (p, KArc)]> t) [ATry k id; AIntoUnique k; AClaim k; AList k id] s =
    (o ← try_from_arc_or_drop id p; mret (if o is Some l then <[k := (l, KList id)]> t else delete k t)) s ∧
  run_tbl (delete k t) [AUnique k x fl; AList k id] s =
    (r ← list_arc_new id x fl; mret (if r is Ok l then <[k := (l, KList id)]> t else delete k t)) s.
Proof.
  split_and!.
  - unfold arc_drop. run_step. run_on (arc_dec p s). destruct b; run_step; [|done].
    by run_on (arc_release p s0).
  - unfold into_unique_or_drop. run_step. run_on (arc_dec p s). destruct b; run_step; [|done].
    by run_on (write_refcount p (REFCOUNT_INIT 1) s0).
  - unfold list_arc_drop, arc_drop. run_step. unfold into_arc. run_head. run_on (drop_tracked id p s).
    run_step. run_on (arc_dec p s0). destruct b; run_step; [|done]. by run_on (arc_release p s1).
  - unfold try_from_arc_or_drop, into_unique_or_drop. run_step. rewrite Htr. run_head.
    run_on (try_from_arc id p s). destruct r as [q|q]; run_head; run_step; [by run_step; run_step|].
    run_on (arc_dec q s0). destruct b; run_step; [|by run_step].
    run_on (write_refcount q (REFCOUNT_INIT 1) s1). run_step. by run_on (list_arc_from_unique id q s2).
  - unfold list_arc_new, try_bind. run_step. run_on (unique_new x fl s). destruct r as [u|e]; run_head; run_step.
    + by run_on (list_arc_from_unique id u s0).
    + done.
Qed.

(** ** Concrete instances *)

(** The kernel's [refcount_t] on exact and saturated values. *)
Definition kernel_refcount : Refcount := {|
  REFCOUNT_INIT n := n;
  refcount_inc n := if (n <? 1) || (REFCOUNT_MAX <=? n) then REFCOUNT_SATURATED else n + 1;
  refcount_dec_and_test n :=
    if n =? 1 then (true, 0) else if n <? 1 then (false, REFCOUNT_SATURATED) else (false, n - 1)
|}.

Lemma kernel_refcount_ok : @RefcountSpec kernel_refcount.
Proof.
  split; unfold kernel_refcount; simpl; try done.
  - intros n Hn. rewrite (proj2 (Z.ltb_ge n 1)), (proj2 (Z.leb_gt REFCOUNT_MAX n)) by lia. done.
  - intros n Hn. rewrite (proj2 (Z.eqb_neq n 1)), (proj2 (Z.ltb_ge n 1)) by lia. done.
Qed.

(** A value with two tracked lists, 0 and 1. *)
Record Item := MkItem { val : Z; link0 : AtomicTracker; link1 : AtomicTracker }.

#[export] Instance Item_type : RType Item := {| size_of := 16; align_of := 8; zst_value := None |}.

#[export] Instance Item_type_ok : RTypeOk Item.
Proof.
  split; simpl.
  - usize.
  - by exists 3.
  - lia.
  - by exists 2.
  - split; [done|]. by intros [? ?].
  - done.
Qed.

#[export] Instance Item_tracked : Tracked Item := {|
  tracked id := (id =? 0) || (id =? 1);
  field id d := if id =? 0 then link0 d else link1 d;
  set_field id t d := if id =? 0 then MkItem (val d) t (link1 d) else MkItem (val d) (link0 d) t
|}.

#[export] Instance Item_tracked_ok : TrackedOk Item.
Proof.
  split; simpl.
  - intros i t d _. by destruct (i =? 0).
  - intros i [] _. by destruct (i =? 0).
  - intros i j t d. destruct (Z.eqb_spec i 0), (Z.eqb_spec j 0), (Z.eqb_spec i 1), (Z.eqb_spec j 1); done || lia.
Qed.

Definition item (z : Z) : Item := MkItem z tracker_new tracker_new.

(** Two threads share an item, race for its [ListArc], and drop it. *)
Definition demo_ops : list (ArcOp Item) :=
  [AUninit 0 GFP_KERNEL; AWrite 0 (item 5); AShare 0; AClone 0 1; ATry 1 0; ATry 0 0; ATryBorrow 0 2 1;
   AIntoArc 1; ADec 1; ADec 0; AIntoArc 2; AIntoUnique 2; AClaim 2; APair 2 3 0 1; ARaw 3].

Lemma demo_ops_ok : Forall arc_op_ok demo_ops.
Proof.
  repeat first [apply Forall_nil_2|apply Forall_cons_2; [|]]; try exact I; [|done].
  intros id Hid. simpl. by destruct (id =? 0).
Qed.

Lemma arc_program_refines_witness :
  let AL : Allocator (ArcInner Item) := Kmalloc (ref_realloc 4096) in
  let RC := kernel_refcount in
  ∃ os s' A, arc_run ∅ demo_ops (MkSt ∅ tt []) = Done ((tbl A, os), s') ∧ arc_exec arc_init demo_ops A os ∧
    (∀ k p kd, tbl A !! k = Some (p, kd) → ∃ o, objs A !! p = Some o ∧
       slot (hp s') p 0 =
         Some (MkArcInner (if decide (p ∈ sat A) then REFCOUNT_SATURATED else scnt (tbl A) p) o)) ∧
    (tbl A = ∅ → sat A = ∅ → hp s' = ∅).
Proof.
  apply (@arc_program_refines Item _ _ (Kmalloc (ref_realloc 4096)) _ kernel_refcount kernel_refcount_ok _ _
    demo_ops (MkSt ∅ tt [])).
  - vm_compute. congruence.
  - by intros ? ? ?.
  - exact demo_ops_ok.
Defined.

Lemma arc_exclusivity_witness :
  let AL : Allocator (ArcInner Item) := Kmalloc (ref_realloc 4096) in
  let RC := kernel_refcount in
  ∃ t os s', arc_run ∅ demo_ops (MkSt ∅ tt []) = Done ((t, os), s') ∧
    (∀ k k' p kd kd', t !! k = Some (p, kd) → exclusive kd = true → t !! k' = Some (p, kd') → k' = k) ∧
    (∀ k k' p id, t !! k = Some (p, KList id) → t !! k' = Some (p, KList id) → k' = k) ∧
    (∀ k p kd id n d, t !! k = Some (p, kd) → tracked id = true →
       slot (hp s') p 0 = Some (MkArcInner n (Some d)) →
       inner (field id d) = true ↔ ∃ k', t !! k' = Some (p, KList id)).
Proof.
  apply (@arc_exclusivity Item _ _ (Kmalloc (ref_realloc 4096)) _ kernel_refcount kernel_refcount_ok _ _
    demo_ops (MkSt ∅ tt [])).
  - vm_compute. congruence.
  - by intros ? ? ?.
  - exact demo_ops_ok.
Defined.

(** The race has one winner, and the last reference becomes unique. *)
Example demo_outputs :
  let AL : Allocator (ArcInner Item) := Kmalloc (ref_realloc 4096) in
  let RC := kernel_refcount in
  match arc_run ∅ demo_ops (MkSt ∅ tt []) with
  | Done ((_, os), _) => os =
      [ANone; ANone; ANone; ANone; ABool true; ABool false; ABool true; ANone; ABool false; ABool false;
       ANone; ABool true; ANone; ANone; ANone]
  | _ => False
  end.
Proof. vm_compute. reflexivity. Qed.

Lemma arc_composites_witness :
  let AL : Allocator (ArcInner Item) := Kmalloc (ref_realloc 4096) in
  let RC := kernel_refcount in
  let s : St (ArcInner Item) unit := MkSt {[ 8 := Block 64 {[ 0 := MkArcInner 1 (Some (item 1)) ]} ]} tt [] in
  run_tbl (<[0%nat := (8, KArc)]> ∅) [ADec 0; ARelease 0] s = (_ ← arc_drop 8; mret (delete 0%nat ∅)) s ∧
  arc_drop 8 s = Done (tt, MkSt ∅ tt [MkArcInner 0 (Some (item 1))]).
Proof.
  intros AL RC s. split; [|reflexivity].
  exact (proj1 (@arc_composites Item _ AL RC _ ∅ 0%nat 8 0 (item 1) GFP_KERNEL s eq_refl)).
Defined.
