(* ===== verification/ArcField.v ===== *)
(** * Fields owned by a [ListArc] ([rust/src/list/arc_field.rs])

    A [ListArcField] lies inside of a shared object, and yet is read and written without a
    lock: whoever has the [ListArc] of the right list may. The model extends the programs of
    Arc with references to such fields. A reference is a loan: it keeps the handle it was
    made from borrowed, as Rust's borrow checker would have it, handle by handle. That two
    references to the same field never conflict is not checked by anything: it follows from
    the exclusivity of [ListArc]. *)

From S2P Require Import Prelude Errors Alloc KVec KBox Arc.

(** ** The field *)

(** [UnsafeCell] is transparent. *)
Record ListArcField (F : Type) := MkListArcField { value : F }.
Arguments MkListArcField {F} _.
Arguments value {F} _.

Definition list_arc_field_new {F} (value : F) : ListArcField F := MkListArcField value.

(** The lists that have a field, where it is in an object, and what the other [Arc]s see of
    the object. *)
Class ArcFields (D F V : Type) := {
  owned : Z → bool;
  lget : Z → D → ListArcField F;
  lset : Z → ListArcField F → D → D;
  view : D → V
}.

(** Fields are distinct from each other and from the trackers. *)
Class ArcFieldsOk (D F V : Type) `{ArcFields D F V} `{Tracked D} : Prop := {
  lget_lset : ∀ i x d, owned i = true → lget i (lset i x d) = x;
  lget_lset_ne : ∀ i j x d, owned i = true → owned j = true → i ≠ j → lget i (lset j x d) = lget i d;
  field_lset : ∀ i j x d, field i (lset j x d) = field i d;
  lget_set_field : ∀ i j t d, lget i (set_field j t d) = lget i d
}.

(** ** Loans *)

(** A live reference to the field of the list [ln_id] in the object at [ln_loc], made from
    the handle [ln_key]; [ln_mut] for [&mut]. *)
Record Loan := MkLoan { ln_key : nat; ln_loc : Z; ln_id : Z; ln_mut : bool }.

Abbreviation loans := (gmap nat Loan).

(** The borrow checker: the handle [k] can be used as [&] ([excl = false]), or moved or used
    as [&mut] ([excl = true]). *)
Definition lent_ok (excl : bool) (k : nat) (ln : Loan) : Prop :=
  ln_key ln = k → excl = false ∧ ln_mut ln = false.

#[export] Instance lent_ok_dec excl k ln : Decision (lent_ok excl k ln).
Proof. unfold lent_ok. apply _. Defined.

Definition may_use (B : loans) (excl : bool) (k : nat) : bool :=
  bool_decide (map_Forall (λ _, lent_ok excl k) B).

(** The rules of the language: what is done through one reference must not conflict with
    another one that is live. *)
Definition conflicts (excl : bool) (p id : Z) (ln : Loan) : Prop :=
  ln_loc ln = p ∧ ln_id ln = id ∧ (excl = true ∨ ln_mut ln = true).

#[export] Instance conflicts_dec excl p id ln : Decision (conflicts excl p id ln).
Proof. unfold conflicts. apply _. Defined.

Definition race (B : loans) (excl : bool) (p id : Z) : bool :=
  bool_decide (map_Exists (λ _, conflicts excl p id) B).

(** Exclusive access to the whole object. *)
Definition race_any (B : loans) (p : Z) : bool := bool_decide (map_Exists (λ _ ln, ln_loc ln = p) B).

Section Fields.
Context {D F V : Type} {RD : RType D} {RC : Refcount} {AL : Allocator (ArcInner D)} {TD : Tracked D}.
Context {AF : ArcFields D F V}.
Local Abbreviation AM := (M (St (ArcInner D) unit)).

(** The two unsafe accessors make a reference to what is in the cell. *)
Definition assert_ref (B : loans) (id p : Z) : AM unit := if race B false p id then ub else mret tt.
Definition assert_mut (B : loans) (id p : Z) : AM unit := if race B true p id then ub else mret tt.

(** [get_mut], on [&mut] of the object. *)
Definition field_get_mut (B : loans) (id p : Z) : AM unit := if race_any B p then ub else mret tt.

(** The arms of [define_list_arc_field_getter!]; [**self] is the object. *)
Definition getter (B : loans) (id p : Z) : AM unit := _ ← arc_deref p; assert_ref B id p.
Definition getter_mut (B : loans) (id p : Z) : AM unit := _ ← arc_deref p; assert_mut B id p.

(** Reads and writes through a reference. *)
Definition ref_read (id p : Z) : AM F := d ← read_data p; mret (value (lget id d)).
Definition ref_write (id p : Z) (x : F) : AM unit :=
  d ← read_data p; write_data p (lset id (MkListArcField x) d).

(** ** Programs *)

Inductive FieldOp :=
| FArc (op : ArcOp D)
| FRef (r k : nat)                (* a getter with [&self] *)
| FMut (r k : nat)                (* a getter with [&mut self] *)
| FGetMut (r k : nat) (id : Z)    (* [get_mut], on a [UniqueArc] *)
| FRead (r : nat)
| FWrite (r : nat) (x : F)
| FEnd (r : nat).

Inductive FieldOut := FNone | FFail (e : Error) | FView (v : V) | FBool (b : bool) | FVal (x : F).

Definition out_view (o : ArcOut D) : FieldOut :=
  match o with ANone => FNone | AFail e => FFail e | AVal d => FView (view d) | ABool b => FBool b end.

(** The handle that an operation of Arc uses, and whether it moves it or needs [&mut]. *)
Definition op_use (op : ArcOp D) : bool * nat :=
  match op with
  | ADeref k | AClone k _ | ATryBorrow k _ _ => (false, k)
  | ANew k _ _ | AUnique k _ _ | AUninit k _ | AWrite k _ | AInitWith k _ | AMut k _ | AShare k
  | ADec k | ARelease k | AIntoUnique k | AClaim k | AForeign k | ARaw k | AList k _ | APair k _ _ _
  | ATry k _ | AIntoArc k => (true, k)
  end.

(** The operations that touch all of the object: mutation and the drop of the value. *)
Definition op_whole (t : handles) (op : ArcOp D) : option Z :=
  match op with
  | AMut k _ => if t !! k is Some (p, KUnique) then Some p else None
  | ARelease k => if t !! k is Some (p, KRelease) then Some p else None
  | _ => None
  end.

Definition field_step (t : handles) (B : loans) (op : FieldOp) : AM (handles * loans * FieldOut) :=
  match op with
  | FArc op =>
      if may_use B (fst (op_use op)) (snd (op_use op)) then
        _ ← (if op_whole t op is Some p then if race_any B p then ub else mret tt else mret tt);
        '(t, o) ← arc_step t op;
        mret (t, B, out_view o)
      else mret (t, B, FNone)
  | FRef r k =>
      match t !! k, B !! r, may_use B false k with
      | Some (p, KList id), None, true =>
          if owned id then _ ← getter B id p; mret (t, <[r := MkLoan k p id false]> B, FNone)
          else mret (t, B, FNone)
      | _, _, _ => mret (t, B, FNone)
      end
  | FMut r k =>
      match t !! k, B !! r, may_use B true k with
      | Some (p, KList id), None, true =>
          if owned id then _ ← getter_mut B id p; mret (t, <[r := MkLoan k p id true]> B, FNone)
          else mret (t, B, FNone)
      | _, _, _ => mret (t, B, FNone)
      end
  | FGetMut r k id =>
      match t !! k, B !! r, may_use B true k with
      | Some (p, KUnique), None, true =>
          if owned id then _ ← field_get_mut B id p; mret (t, <[r := MkLoan k p id true]> B, FNone)
          else mret (t, B, FNone)
      | _, _, _ => mret (t, B, FNone)
      end
  | FRead r =>
      if B !! r is Some ln then x ← ref_read (ln_id ln) (ln_loc ln); mret (t, B, FVal x)
      else mret (t, B, FNone)
  | FWrite r x =>
      if B !! r is Some (MkLoan _ p id true) then _ ← ref_write id p x; mret (t, B, FNone)
      else mret (t, B, FNone)
  | FEnd r => mret (t, delete r B, FNone)
  end.

Fixpoint field_run (t : handles) (B : loans) (ops : list FieldOp) : AM (handles * loans * list FieldOut) :=
  match ops with
  | [] => mret (t, B, [])
  | op :: ops =>
      '(t, B, o) ← field_step t B op;
      '(t, B, os) ← field_run t B ops;
      mret (t, B, o :: os)
  end.
End Fields.
Arguments FieldOp : clear implicits.
Arguments FieldOut : clear implicits.

(** ** The abstract machine

    A reference has a value of its own, taken when it is made. *)

Record FState (D F : Type) := MkFState { arcs : AState D; lent : loans; vals : gmap nat F }.
Arguments MkFState {D F} _ _ _.
Arguments arcs {D F} _.
Arguments lent {D F} _.
Arguments vals {D F} _.

Section FieldSpec.
Context {D F V : Type} {TD : Tracked D} {AF : ArcFields D F V}.
Implicit Types (S : FState D F) (A : AState D) (B : loans).

Definition lend S (r k : nat) (p id : Z) (m : bool) : FState D F :=
  if objs (arcs S) !! p is Some (Some d) then
    MkFState (arcs S) (<[r := MkLoan k p id m]> (lent S)) (<[r := value (lget id d)]> (vals S))
  else S.

Definition field_spec (orc : option Z) S (op : FieldOp D F) : FState D F * FieldOut F V :=
  match op with
  | FArc op =>
      if may_use (lent S) (fst (op_use op)) (snd (op_use op)) then
        let '(A', o) := arc_spec orc (arcs S) op in (MkFState A' (lent S) (vals S), out_view o)
      else (S, FNone)
  | FRef r k =>
      match tbl (arcs S) !! k, lent S !! r, may_use (lent S) false k with
      | Some (p, KList id), None, true => (if owned id then lend S r k p id false else S, FNone)
      | _, _, _ => (S, FNone)
      end
  | FMut r k =>
      match tbl (arcs S) !! k, lent S !! r, may_use (lent S) true k with
      | Some (p, KList id), None, true => (if owned id then lend S r k p id true else S, FNone)
      | _, _, _ => (S, FNone)
      end
  | FGetMut r k id =>
      match tbl (arcs S) !! k, lent S !! r, may_use (lent S) true k with
      | Some (p, KUnique), None, true => (if owned id then lend S r k p id true else S, FNone)
      | _, _, _ => (S, FNone)
      end
  | FRead r => (S, if vals S !! r is Some x then FVal x else FNone)
  | FWrite r x =>
      match lent S !! r with
      | Some (MkLoan _ p id true) =>
          (MkFState (if objs (arcs S) !! p is Some (Some d)
                     then set_data (arcs S) p (lset id (MkListArcField x) d) else arcs S)
             (lent S) (<[r := x]> (vals S)), FNone)
      | _ => (S, FNone)
      end
  | FEnd r => (MkFState (arcs S) (delete r (lent S)) (delete r (vals S)), FNone)
  end.

Inductive field_exec : FState D F → list (FieldOp D F) → FState D F → list (FieldOut F V) → Prop :=
| field_exec_nil S : field_exec S [] S []
| field_exec_cons S op ops S1 o S2 os orc :
    field_spec orc S op = (S1, o) → (∀ p, orc = Some p → objs (arcs S) !! p = None) →
    field_exec S1 ops S2 os → field_exec S (op :: ops) S2 (o :: os).

(** The loans are those of live handles, one [&mut] per handle excludes all others, and the
    value of a reference is what its field holds. *)
Record field_inv S : Prop := {
  fi_arc : arc_inv (arcs S);
  fi_key : ∀ r ln, lent S !! r = Some ln → ∃ kd, tbl (arcs S) !! ln_key ln = Some (ln_loc ln, kd) ∧
    (kd = KList (ln_id ln) ∨ kd = KUnique ∧ ln_mut ln = true) ∧ owned (ln_id ln) = true;
  fi_excl : ∀ r r' ln ln', lent S !! r = Some ln → lent S !! r' = Some ln' → ln_key ln' = ln_key ln →
    ln_mut ln = true → r' = r;
  fi_val : ∀ r ln, lent S !! r = Some ln → ∃ d, objs (arcs S) !! ln_loc ln = Some (Some d) ∧
    vals S !! r = Some (value (lget (ln_id ln) d));
  fi_dom : ∀ r, lent S !! r = None → vals S !! r = None
}.

Definition field_op_ok (op : FieldOp D F) : Prop := match op with FArc op => arc_op_ok op | _ => True end.
End FieldSpec.

Section FieldInv.
Context {D F V : Type} {RD : RType D} {RAok : RTypeOk (ArcInner D)}.
Context {AL : Allocator (ArcInner D)} {ALs : AllocatorSpec (ArcInner D)} {RC : Refcount} {RCok : RefcountSpec}.
Context {TD : Tracked D} {TDok : TrackedOk D} {AF : ArcFields D F V} {AFok : ArcFieldsOk D F V}.
Implicit Types (S : FState D F) (A : AState D) (B : loans).

Lemma may_use_spec B excl k : may_use B excl k = true ↔
  ∀ r ln, B !! r = Some ln → ln_key ln = k → excl = false ∧ ln_mut ln = false.
Proof. unfold may_use. rewrite bool_decide_eq_true. split; intros H r ln Hr; exact (H r ln Hr). Qed.

Lemma race_spec B excl p id : race B excl p id = false ↔
  ∀ r ln, B !! r = Some ln → ¬ conflicts excl p id ln.
Proof.
  unfold race. rewrite bool_decide_eq_false. split.
  - intros H r ln Hr Hc. apply H. by exists r, ln.
  - intros H (r & ln & Hr & Hc). by eapply H.
Qed.

Lemma race_any_spec B p : race_any B p = false ↔ ∀ r ln, B !! r = Some ln → ln_loc ln ≠ p.
Proof.
  unfold race_any. rewrite bool_decide_eq_false. split.
  - intros H r ln Hr Hc. apply H. by exists r, ln.
  - intros H (r & ln & Hr & Hc). by eapply H.
Qed.

(** A loan of the object of a handle that is alone is one of that handle. *)
Lemma loan_lone S k p kd r ln : field_inv S → tbl (arcs S) !! k = Some (p, kd) → exclusive kd = true →
  lent S !! r = Some ln → ln_loc ln = p → ln_key ln = k.
Proof.
  intros Hi Hk Hx Hr <-. destruct (fi_key _ Hi _ _ Hr) as (kd' & Hk' & _).
  by eapply (ai_excl _ (fi_arc _ Hi)).
Qed.

(** A loan of the field of a list is one of the [ListArc] of that list. *)
Lemma loan_list S k p id r ln : field_inv S → tbl (arcs S) !! k = Some (p, KList id) →
  lent S !! r = Some ln → ln_loc ln = p → ln_id ln = id → ln_key ln = k.
Proof.
  intros Hi Hk Hr <- <-. destruct (fi_key _ Hi _ _ Hr) as (kd' & Hk' & [-> | [-> _]] & _).
  - by eapply (ai_list _ (fi_arc _ Hi)).
  - pose proof (ai_excl _ (fi_arc _ Hi) _ _ _ _ _ Hk' Hk eq_refl) as ->. congruence.
Qed.

(** The borrow checker works handle by handle; with the exclusivity of [ListArc] this is
    enough for the fields. *)
Lemma list_no_race S k p id excl : field_inv S → tbl (arcs S) !! k = Some (p, KList id) →
  may_use (lent S) excl k = true → race (lent S) excl p id = false.
Proof.
  rewrite may_use_spec, race_spec. intros Hi Hk Hu r ln Hr (Hp & Hid & Hc).
  destruct (Hu r ln Hr) as [-> Hm]; [by eapply loan_list|]. rewrite Hm in Hc. by destruct Hc.
Qed.

Lemma lone_no_race S k p kd : field_inv S → tbl (arcs S) !! k = Some (p, kd) → exclusive kd = true →
  may_use (lent S) true k = true → race_any (lent S) p = false.
Proof.
  rewrite may_use_spec, race_any_spec. intros Hi Hk Hx Hu r ln Hr Hp.
  by destruct (Hu r ln Hr) as [? _]; [eapply loan_lone|].
Qed.

(** Two live references to a field are shared ones. *)
Lemma field_exclusive S r r' ln ln' : field_inv S → lent S !! r = Some ln → lent S !! r' = Some ln' →
  ln_loc ln' = ln_loc ln → ln_id ln' = ln_id ln → ln_mut ln = true → r' = r.
Proof.
  intros Hi Hr Hr' Hp Hid Hm. eapply (fi_excl _ Hi); [done..| |done].
  destruct (fi_key _ Hi _ _ Hr) as (kd & Hk & [-> | [-> _]] & _).
  - by eapply loan_list.
  - by eapply loan_lone.
Qed.

Lemma lget_create i j d : lget i (on_create_list_arc_from_unique j d) = lget i d.
Proof. unfold on_create_list_arc_from_unique. case_match; [apply lget_set_field|done]. Qed.

Lemma lget_drop i j d : lget i (on_drop_list_arc j d) = lget i d.
Proof. unfold on_drop_list_arc. case_match; [apply lget_set_field|done]. Qed.

Lemma lget_try i j d : lget i (snd (try_new_list_arc j d)) = lget i d.
Proof. unfold try_new_list_arc. destruct (tracker_try_new _). apply lget_set_field. Qed.

(** An operation that neither moves a handle that is lent nor needs [&mut] of it leaves the
    handle and the fields of its object alone. *)
Definition keeps_obj A A' (p : Z) : Prop :=
  ∀ d, objs A !! p = Some (Some d) → ∃ d', objs A' !! p = Some (Some d') ∧ ∀ i, lget i d' = lget i d.

Lemma keeps_obj_refl A A' p : objs A' !! p = objs A !! p → keeps_obj A A' p.
Proof. intros H d Hd. exists d. by rewrite H. Qed.

Lemma keeps_set A A' p q d d' : objs A !! q = Some (Some d) → objs A' = <[q := Some d']> (objs A) →
  (∀ i, lget i d' = lget i d) → keeps_obj A A' p.
Proof.
  intros Hq E Hd d0 H0. rewrite E. destruct (decide (q = p)) as [->|].
  - exists d'. rewrite lookup_insert_eq. split; [done|]. intros i. rewrite Hd. congruence.
  - exists d0. by rewrite lookup_insert_ne.
Qed.

Lemma keeps_new A A' p q o : objs A !! q = None → objs A' = <[q := o]> (objs A) → keeps_obj A A' p.
Proof.
  intros Hq E d Hd. exists d. rewrite E, lookup_insert_ne; [done|]. intros ->. congruence.
Qed.

Lemma keeps_other A A' p q : q ≠ p → (∀ p', p' ≠ q → objs A' !! p' = objs A !! p') → keeps_obj A A' p.
Proof. intros Hq E. apply keeps_obj_refl. by apply E. Qed.

Lemma make_lent orc A k0 kd0 c A' o k p kd : make orc A k0 kd0 c = (A', o) → tbl A !! k0 = None →
  (∀ p, orc = Some p → objs A !! p = None) → tbl A !! k = Some (p, kd) →
  tbl A' !! k = Some (p, kd) ∧ keeps_obj A A' p.
Proof.
  intros Hm Hk0 Ho Hk. destruct orc as [q|]; injection Hm as <- <-; [|split; [done|by apply keeps_obj_refl]].
  simpl. rewrite lookup_insert_ne by congruence. split; [done|]. by eapply keeps_new; [apply Ho|].
Qed.

Lemma dec_lent A k0 q kd0 A' o k p kd : spec_dec A k0 q kd0 = (A', o) → k0 ≠ k → tbl A !! k = Some (p, kd) →
  tbl A' !! k = Some (p, kd) ∧ keeps_obj A A' p.
Proof.
  intros Hd Hne Hk. unfold spec_dec in Hd. case_decide; injection Hd as <- <-; simpl;
    rewrite ?lookup_insert_ne, ?lookup_delete_ne by done; (split; [done|by apply keeps_obj_refl]).
Qed.

(** A step whose effect on the other handles and objects shows. *)
Ltac kept_obj :=
  simplify_eq/=; rewrite ?lookup_insert_ne, ?lookup_delete_ne by congruence; split; [done|];
  first
    [ by apply keeps_obj_refl
    | by eapply keeps_set; [eassumption|done|intros i; rewrite ?lget_create, ?lget_try, ?lget_drop]
    | by eapply keeps_other; [eassumption|intros ? ?; simpl; rewrite ?lookup_insert_ne, ?lookup_delete_ne] ].

Lemma arc_spec_lent orc A op A' o k p kd : arc_inv A → arc_spec orc A op = (A', o) →
  (∀ q, orc = Some q → objs A !! q = None) → tbl A !! k = Some (p, kd) → op_use op ≠ (true, k) →
  tbl A' !! k = Some (p, kd) ∧ keeps_obj A A' p.
Proof.
  intros Hi Hs Horc Hk Hu.
  assert (∀ k0 q kd0, tbl A !! k0 = Some (q, kd0) → exclusive kd0 = true → k0 ≠ k → q ≠ p) as Hex.
  { intros k0 q kd0 Hk0 Hx Hne ->. apply Hne. symmetry. by eapply (ai_excl _ Hi). }
  assert (tbl A !! k = Some (p, kd) ∧ keeps_obj A A p) as Hid by (split; [done|by apply keeps_obj_refl]).
  destruct op as [k0 x fl|k0 x fl|k0 fl|k0 x|k0 r|k0 f|k0|k0|k0 k'|k0|k0|k0|k0|k0|k0|k0 id|k0 k' id id2|k0 id|k0 k' id|k0];
    simpl in Hs, Hu; destruct (tbl A !! k0) as [[q kd0]|] eqn:Hk0; try (by injection Hs as <- <-);
    try destruct kd0 as [| | |id'| |]; try (by injection Hs as <- <-);
    try (destruct (inv_data _ _ _ _ Hi Hk0) as [d Hq]; [done|]; try rewrite Hq in Hs);
    try (by injection Hs as <- <-);
    try (by eapply make_lent); try (assert (k0 ≠ k) as Hne by congruence); try (by eapply dec_lent);
    try (pose proof (Hex _ _ _ Hk0 eq_refl Hne)); repeat case_match; by kept_obj.
Qed.

(** *** The invariant *)

Lemma inv_arc_step orc S op A' o : field_inv S → arc_op_ok op → (∀ q, orc = Some q → objs (arcs S) !! q = None) →
  may_use (lent S) (fst (op_use op)) (snd (op_use op)) = true → arc_spec orc (arcs S) op = (A', o) →
  field_inv (MkFState A' (lent S) (vals S)).
Proof.
  intros Hi Hop Horc Hu Hs. rewrite may_use_spec in Hu.
  assert (∀ r ln, lent S !! r = Some ln → ∃ kd, tbl A' !! ln_key ln = Some (ln_loc ln, kd) ∧
    ((kd = KList (ln_id ln) ∨ kd = KUnique ∧ ln_mut ln = true) ∧ owned (ln_id ln) = true) ∧ keeps_obj (arcs S) A' (ln_loc ln)) as Hk.
  { intros r ln Hr. destruct (fi_key _ Hi _ _ Hr) as (kd & Hk & Hkd). exists kd.
    destruct (arc_spec_lent _ _ _ _ _ _ _ _ (fi_arc _ Hi) Hs Horc Hk) as [? ?]; [|done].
    intros E. rewrite E in Hu. by destruct (Hu _ _ Hr eq_refl). }
  split; simpl.
  - by eapply arc_spec_inv; [apply Hi|..].
  - intros r ln Hr. destruct (Hk _ _ Hr) as (kd & ? & ? & _). by exists kd.
  - apply Hi.
  - intros r ln Hr. destruct (Hk _ _ Hr) as (kd & _ & _ & Hkeep). destruct (fi_val _ Hi _ _ Hr) as (d & Hd & Hv).
    destruct (Hkeep d Hd) as (d' & Hd' & Hl). exists d'. by rewrite Hl.
  - apply Hi.
Qed.

Lemma inv_lend S r k p id m kd : field_inv S → owned id = true → tbl (arcs S) !! k = Some (p, kd) →
  (kd = KList id ∨ kd = KUnique ∧ m = true) → lent S !! r = None → may_use (lent S) m k = true →
  field_inv (lend S r k p id m).
Proof.
  intros Hi Ho Hk Hkd Hr Hu. rewrite may_use_spec in Hu. unfold lend.
  destruct (inv_data _ _ _ _ (fi_arc _ Hi) Hk) as [d Hd]; [by destruct Hkd as [-> | [-> _]]|].
  rewrite Hd. split; simpl.
  - apply Hi.
  - intros r' ln. rewrite lookup_insert_Some. intros [[<- <-]|[_ Hr']]; [by exists kd|by apply (fi_key _ Hi r')].
  - intros r1 r2 l1 l2. rewrite !lookup_insert_Some. intros [[<- <-]|[_ H1]] [[<- <-]|[_ H2]] Hkey Hm; simpl in *; [done|..].
    + subst m. by destruct (Hu _ _ H2 Hkey).
    + destruct (Hu _ _ H1 (eq_sym Hkey)). congruence.
    + by eapply (fi_excl _ Hi).
  - intros r' ln. rewrite lookup_insert_Some. intros [[<- <-]|[Hne Hr']]; simpl.
    { exists d. by rewrite lookup_insert_eq. }
    destruct (fi_val _ Hi _ _ Hr') as (d' & ? & ?). exists d'. by rewrite lookup_insert_ne.
  - intros r'. rewrite !lookup_insert_None. intros [? ?]. split; [|done]. by apply Hi.
Qed.

Lemma inv_set_fields A p d d' : arc_inv A → objs A !! p = Some (Some d) → (∀ id, field id d' = field id d) →
  arc_inv (set_data A p d').
Proof.
  intros Hi Hp Hf. destruct Hi as [H1 H2 H3 H4 H5 H6 H7 H8]. split; simpl; [|done|done|done| | |done|].
  - intros k q kd Hk. destruct (H1 _ _ _ Hk) as (o & Ho & Hu). destruct (decide (p = q)) as [->|].
    + exists (Some d'). rewrite lookup_insert_eq. split; [done|]. rewrite Hu. split; congruence.
    + exists o. by rewrite lookup_insert_ne.
  - intros q d0 id. rewrite lookup_insert_Some. intros [[-> [= <-]]|[_ Hq]]; [|by apply H5]. rewrite Hf. by apply H5.
  - intros q o. rewrite lookup_insert_Some. intros [[<- _]|[_ Hq]]; by eapply H6.
  - intros q Hq. destruct (decide (p = q)) as [->|]; [rewrite lookup_insert_eq; eauto|].
    rewrite lookup_insert_ne by done. by apply H8.
Qed.

Lemma inv_write_field S r k p id x d : field_inv S → lent S !! r = Some (MkLoan k p id true) →
  objs (arcs S) !! p = Some (Some d) →
  field_inv (MkFState (set_data (arcs S) p (lset id (MkListArcField x) d)) (lent S) (<[r := x]> (vals S))).
Proof.
  intros Hi Hr Hd. split; simpl.
  - eapply inv_set_fields; [apply Hi|done|]. intros i. apply field_lset.
  - apply Hi.
  - apply Hi.
  - intros r' ln Hr'. destruct (fi_val _ Hi _ _ Hr') as (d' & Hd' & Hv). destruct (decide (r = r')) as [<-|Hne].
    + assert (ln = MkLoan k p id true) as -> by congruence. simpl. rewrite !lookup_insert_eq.
      eexists. split; [done|].
      destruct (fi_key _ Hi _ _ Hr) as (_ & _ & _ & Ho). by rewrite lget_lset.
    + rewrite (lookup_insert_ne (vals S)) by done. destruct (decide (p = ln_loc ln)) as [->|].
      * rewrite lookup_insert_eq. eexists. split; [done|]. rewrite Hv. do 2 f_equal.
        destruct (fi_key _ Hi _ _ Hr) as (_ & _ & _ & Ho). destruct (fi_key _ Hi _ _ Hr') as (_ & _ & _ & Ho').
        rewrite lget_lset_ne; [congruence|done..|]. intros Hid. apply Hne. symmetry.
        by eapply (field_exclusive S r r').
      * exists d'. by rewrite lookup_insert_ne.
  - intros r' Hr'. rewrite lookup_insert_ne by congruence. by apply Hi.
Qed.

Lemma inv_end S r : field_inv S → field_inv (MkFState (arcs S) (delete r (lent S)) (delete r (vals S))).
Proof.
  intros Hi. split; simpl; [apply Hi| | | |].
  - intros r' ln. rewrite lookup_delete_Some. intros [_ Hr']. by apply (fi_key _ Hi r').
  - intros r1 r2 l1 l2. rewrite !lookup_delete_Some. intros [_ H1] [_ H2]. by eapply (fi_excl _ Hi).
  - intros r' ln. rewrite lookup_delete_Some. intros [Hne Hr']. destruct (fi_val _ Hi _ _ Hr') as (d & ? & ?).
    exists d. by rewrite lookup_delete_ne.
  - intros r'. rewrite !lookup_delete_None. intros [?|?]; [by left|right]. by apply Hi.
Qed.
End FieldInv.

Section FieldOk.
Context {D F V : Type} {RD : RType D} {RAok : RTypeOk (ArcInner D)}.
Context {AL : Allocator (ArcInner D)} {ALs : AllocatorSpec (ArcInner D)} {RC : Refcount} {RCok : RefcountSpec}.
Context {TD : Tracked D} {TDok : TrackedOk D} {AF : ArcFields D F V} {AFok : ArcFieldsOk D F V}.
Implicit Types (S : FState D F) (s : St (ArcInner D) unit).

Definition field_post h0 S (op : FieldOp D F) (out : handles * loans * FieldOut F V) s : Prop :=
  ∃ orc S', field_spec orc S op = (S', snd out) ∧ (∀ p, orc = Some p → objs (arcs S) !! p = None) ∧
    tbl (arcs S') = fst (fst out) ∧ lent S' = snd (fst out) ∧ field_inv S' ∧
    mem_rep h0 (mem_of (arcs S')) (hp s).

Section FieldSteps.
Context (h0 : gmap Z (block (ArcInner D))) (S : FState D F) (s : St (ArcInner D) unit).
Hypothesis (Hi : field_inv S) (Hm : mem_rep h0 (mem_of (arcs S)) (hp s)).

Lemma field_post_pure S' op o : field_spec None S op = (S', o) → arcs S' = arcs S → field_inv S' →
  field_post h0 S op (tbl (arcs S), lent S', o) s.
Proof. intros Hs Ha Hi'. exists None, S'. rewrite Ha. by split_and!. Qed.

Lemma field_skip op o : field_spec None S op = (S, o) →
  wp (mret (tbl (arcs S), lent S, o)) (field_post h0 S op) s.
Proof. intros Hs. apply wp_ret. by eapply field_post_pure. Qed.

Lemma lend_parts r k p id m kd : tbl (arcs S) !! k = Some (p, kd) → kd ≠ KUninit →
  lent (lend S r k p id m) = <[r := MkLoan k p id m]> (lent S) ∧ arcs (lend S r k p id m) = arcs S.
Proof.
  intros Hk Hkd. destruct (inv_data _ _ _ _ (fi_arc _ Hi) Hk Hkd) as [d Hd]. unfold lend. by rewrite Hd.
Qed.

Lemma field_lent r k p id m kd op : owned id = true → tbl (arcs S) !! k = Some (p, kd) →
  (kd = KList id ∨ kd = KUnique ∧ m = true) → lent S !! r = None → may_use (lent S) m k = true →
  field_spec None S op = (lend S r k p id m, FNone) →
  field_post h0 S op (tbl (arcs S), <[r := MkLoan k p id m]> (lent S), FNone) s.
Proof.
  intros Ho Hk Hkd Hr Hu Hs.
  destruct (lend_parts r k p id m kd) as [<- Ha]; [done|by destruct Hkd as [-> | [-> _]]|].
  apply field_post_pure; [done|done|by eapply inv_lend].
Qed.

(** The object of a handle that is not empty can be read. *)
Lemma wp_loan_deref k p kd Q : tbl (arcs S) !! k = Some (p, kd) → kd ≠ KUninit → (∀ d, Q d s) → wp (arc_deref p) Q s.
Proof.
  intros Hk Hkd HQ. destruct (inv_data _ _ _ _ (fi_arc _ Hi) Hk Hkd) as [d Hd].
  eapply wp_read_data; [done|by apply mem_at|done].
Qed.

Lemma step_getter r k p id (excl : bool) op (acc : loans → Z → Z → M (St (ArcInner D) unit) unit) :
  owned id = true → tbl (arcs S) !! k = Some (p, KList id) → lent S !! r = None → may_use (lent S) excl k = true →
  (∀ B i q, acc B i q = if race B excl q i then ub else mret tt) →
  field_spec None S op = (lend S r k p id excl, FNone) →
  wp (_ ← (_ ← arc_deref p; acc (lent S) id p);
      mret (tbl (arcs S), <[r := MkLoan k p id excl]> (lent S), FNone)) (field_post h0 S op) s.
Proof.
  intros Ho Hk Hr Hu Hacc Hs. apply wp_bind, wp_bind. eapply wp_loan_deref; [done..|]. intros d.
  rewrite Hacc, (list_no_race _ k) by done. apply wp_ret, wp_ret. eapply field_lent; eauto.
Qed.

Lemma step_get_mut r k p id : owned id = true → tbl (arcs S) !! k = Some (p, KUnique) → lent S !! r = None →
  may_use (lent S) true k = true →
  wp (_ ← field_get_mut (lent S) id p; mret (tbl (arcs S), <[r := MkLoan k p id true]> (lent S), FNone))
    (field_post h0 S (FGetMut r k id)) s.
Proof.
  intros Ho Hk Hr Hu. apply wp_bind. unfold field_get_mut. rewrite (lone_no_race _ k _ KUnique) by done.
  apply wp_ret, wp_ret. eapply field_lent; [done|done|auto|done..|]. simpl. by rewrite Hk, Hr, Hu, Ho.
Qed.

Lemma step_ref_read r ln : lent S !! r = Some ln →
  wp (x ← ref_read (ln_id ln) (ln_loc ln); mret (tbl (arcs S), lent S, FVal x)) (field_post h0 S (FRead r)) s.
Proof.
  intros Hr. destruct (fi_val _ Hi _ _ Hr) as (d & Hd & Hv). apply wp_bind. unfold ref_read. apply wp_bind.
  eapply wp_read_data; [done|by apply mem_at|]. apply wp_ret, field_skip. simpl. by rewrite Hv.
Qed.

Lemma step_ref_write r k p id x : lent S !! r = Some (MkLoan k p id true) →
  wp (_ ← ref_write id p x; mret (tbl (arcs S), lent S, FNone)) (field_post h0 S (FWrite r x)) s.
Proof.
  intros Hr. destruct (fi_val _ Hi _ _ Hr) as (d & Hd & Hv). simpl in *.
  destruct (fi_key _ Hi _ _ Hr) as (kd & Hk & _). simpl in *.
  apply wp_bind. unfold ref_write. apply wp_bind. eapply wp_read_data; [done|by apply mem_at|].
  eapply wp_write_data; [done|by apply mem_at|]. intros s' Hm'. apply wp_ret.
  eexists None, _. simpl. rewrite Hr, Hd. split_and!; [done|done|done|done|by eapply inv_write_field|].
  eapply (mem_retag _ _ k p kd kd) in Hm'; [|done..]. unfold retag in Hm'. rewrite insert_id in Hm' by done.
  by destruct (arcs S).
Qed.

(** Operations on the whole object go through a handle that is alone and not lent. *)
Lemma whole_no_race (op : ArcOp D) p : may_use (lent S) (fst (op_use op)) (snd (op_use op)) = true →
  op_whole (tbl (arcs S)) op = Some p → race_any (lent S) p = false.
Proof.
  destruct op; simpl; try done; intros Hu; destruct (tbl (arcs S) !! k) as [[q []]|] eqn:Hk; try done;
    intros [= <-]; by eapply lone_no_race.
Qed.

Lemma step_field_arc op : arc_op_ok op →
  wp (field_step (tbl (arcs S)) (lent S) (FArc op)) (field_post h0 S (FArc op)) s.
Proof.
  intros Hop. simpl. destruct (may_use _ _ _) eqn:Hu; [|apply field_skip; simpl; by rewrite Hu].
  apply wp_bind.
  assert ((if op_whole (tbl (arcs S)) op is Some p then if race_any (lent S) p then ub else mret tt else mret tt) =
    (mret tt : M (St (ArcInner D) unit) unit)) as ->.
  { destruct (op_whole _ _) eqn:E; [by rewrite (whole_no_race _ _ Hu E)|done]. }
  apply wp_ret, wp_bind. eapply wp_mono; [by eapply arc_step_ok; [apply Hi|]|].
  intros [t o] s' (orc & A' & Hs & Ht & Ho & Hm'). simpl in *. apply wp_ret.
  exists orc, (MkFState A' (lent S) (vals S)). simpl. rewrite Hu, Hs.
  split_and!; [done..|by eapply inv_arc_step|done].
Qed.

Lemma field_step_ok op : field_op_ok op →
  wp (field_step (tbl (arcs S)) (lent S) op) (field_post h0 S op) s.
Proof.
  intros Hop. destruct op as [op|r k|r k|r k id|r|r x|r]; [by apply step_field_arc|..]; simpl.
  1-3: destruct (tbl (arcs S) !! k) as [[p kd]|] eqn:Hk; [|apply field_skip; simpl; by rewrite Hk];
    destruct kd; try (apply field_skip; simpl; by rewrite Hk);
    (destruct (lent S !! r) eqn:Hr; [apply field_skip; simpl; by rewrite Hk, Hr|]);
    destruct (may_use _ _ _) eqn:Hu; try (apply field_skip; simpl; by rewrite Hk, Hr, Hu).
  - destruct (owned id) eqn:Ho; [|apply field_skip; simpl; by rewrite Hk, Hr, Hu, Ho].
    apply step_getter; [done..|]. simpl. by rewrite Hk, Hr, Hu, Ho.
  - destruct (owned id) eqn:Ho; [|apply field_skip; simpl; by rewrite Hk, Hr, Hu, Ho].
    apply step_getter; [done..|]. simpl. by rewrite Hk, Hr, Hu, Ho.
  - destruct (owned id) eqn:Ho; [|apply field_skip; simpl; by rewrite Hk, Hr, Hu, Ho]. by apply step_get_mut.
  - destruct (lent S !! r) as [ln|] eqn:Hr; [by apply step_ref_read|].
    apply field_skip. simpl. by rewrite (fi_dom _ Hi).
  - destruct (lent S !! r) as [[k p id []]|] eqn:Hr; [by eapply step_ref_write| |];
      apply field_skip; simpl; by rewrite Hr.
  - apply wp_ret. by eapply (field_post_pure (MkFState _ (delete r (lent S)) _)); [|done|apply inv_end].
Qed.
End FieldSteps.

Lemma field_run_ok h0 ops : ∀ S s, field_inv S → mem_rep h0 (mem_of (arcs S)) (hp s) → Forall field_op_ok ops →
  wp (field_run (tbl (arcs S)) (lent S) ops) (λ out s', ∃ S', field_exec S ops S' (snd out) ∧
    tbl (arcs S') = fst (fst out) ∧ lent S' = snd (fst out) ∧ field_inv S' ∧
    mem_rep h0 (mem_of (arcs S')) (hp s')) s.
Proof.
  induction ops as [|op ops IH]; intros S s Hi Hm Hops; simpl.
  - apply wp_ret. exists S. split; [constructor|done].
  - apply Forall_cons in Hops as [Hop Hops]. apply wp_bind. eapply wp_mono; [by apply field_step_ok|].
    intros [[t B] o] s' (orc & S1 & Hs & Ho & Ht & HB & Hi1 & Hm1). simpl in *. subst t B.
    apply wp_bind. eapply wp_mono; [by apply IH|].
    intros [[t B] os] s2 (S2 & He & Ht2 & HB2 & Hi2 & Hm2). simpl in *. apply wp_ret. exists S2.
    split; [by econstructor|done].
Qed.
End FieldOk.

(** ** Theorems *)

Definition field_init {D F} : FState D F := MkFState arc_init ∅ ∅.

Lemma field_inv_init {D F V} `{Tracked D} {AF : ArcFields D F V} : field_inv (field_init (D := D) (F := F)).
Proof. split; [apply inv_empty|done..]. Qed.

(** C38: the fields that [ListArc]s own need no lock. In every interleaving of operations
    on [Arc]s, [UniqueArc]s and [ListArc]s with references to such fields, where each
    handle obeys the borrow checker, no reference is made or used while a conflicting one
    is live, no object is mutated or freed under a reference, and there is no panic. The
    run refines a machine in which each reference has a value of its own: what is read
    through a reference is what was in the field when it was made, or was last written
    through it, whatever the other [Arc]s of the object do. *)
Theorem list_arc_fields_exclusive {D F V} `{RTypeOk D} {AL : Allocator (ArcInner D)} {ALs : AllocatorSpec (ArcInner D)}
    `{RefcountSpec} `{TrackedOk D} {AF : ArcFields D F V} {AFok : ArcFieldsOk D F V}
    (ops : list (FieldOp D F)) (s : St (ArcInner D) unit)
    (Hsize : size_of (ArcInner D) ≤ ISIZE_MAX) (Hh : heap_ok (hp s)) (Hops : Forall field_op_ok ops) :
  ∃ os s' S, field_run ∅ ∅ ops s = Done ((tbl (arcs S), lent S, os), s') ∧
    field_exec field_init ops S os ∧
    (∀ r r' ln ln', lent S !! r = Some ln → lent S !! r' = Some ln' → ln_loc ln' = ln_loc ln →
       ln_id ln' = ln_id ln → ln_mut ln = true → r' = r) ∧
    (∀ r ln, lent S !! r = Some ln → ∃ n d, slot (hp s') (ln_loc ln) 0 = Some (MkArcInner n (Some d)) ∧
       vals S !! r = Some (value (lget (ln_id ln) d))).
Proof.
  pose proof (ArcInner_type_ok Hsize) as RAok.
  destruct (field_run_ok (hp s) ops field_init s) as ([[t B] os] & s' & Hd & S & He & Ht & HB & Hi & Hm);
    [apply field_inv_init|by split|done|].
  simpl in *. subst t B. exists os, s', S. split_and!; [done..| |].
  - intros r r' ln ln'. by apply field_exclusive.
  - intros r ln Hr. destruct (fi_val _ Hi _ _ Hr) as (d & Hp & Hv). exists (rc (arcs S) (ln_loc ln)), d.
    split; [|done]. apply (mr_obj _ _ _ Hm _), (mem_at _ _ _ Hp).
Qed.

(** ** A concrete run *)

(** A list item whose list 0 owns a position. *)
Record Entry := MkEntry { name : Z; link : AtomicTracker; pos : ListArcField Z; other : ListArcField Z }.

#[export] Instance Entry_type : RType Entry := {| size_of := 32; align_of := 8; zst_value := None |}.

#[export] Instance Entry_type_ok : RTypeOk Entry.
Proof.
  split; simpl.
  - usize.
  - by exists 3.
  - lia.
  - by exists 4.
  - split; [done|]. by intros [? ?].
  - done.
Qed.

#[export] Instance Entry_tracked : Tracked Entry := {|
  tracked id := id =? 0;
  field _ d := link d;
  set_field _ t d := MkEntry (name d) t (pos d) (other d)
|}.

#[export] Instance Entry_tracked_ok : TrackedOk Entry.
Proof.
  split; simpl; try done.
  - by intros i [] _.
  - intros i j t d. destruct (Z.eqb_spec i 0), (Z.eqb_spec j 0); done || lia.
Qed.

#[export] Instance Entry_fields : ArcFields Entry Z Z := {|
  owned id := (id =? 0) || (id =? 1);
  lget id d := if id =? 0 then pos d else other d;
  lset id x d := if id =? 0 then MkEntry (name d) (link d) x (other d)
                 else MkEntry (name d) (link d) (pos d) x;
  view := name
|}.

#[export] Instance Entry_fields_ok : ArcFieldsOk Entry Z Z.
Proof.
  split; simpl.
  - intros i x d _. by destruct (i =? 0).
  - intros i j x d. destruct (Z.eqb_spec i 0), (Z.eqb_spec j 0), (Z.eqb_spec i 1), (Z.eqb_spec j 1); done || lia.
  - intros i j x d. by destruct (j =? 0).
  - done.
Qed.

Definition entry (z : Z) : Entry :=
  MkEntry z tracker_new (list_arc_field_new 0) (list_arc_field_new 0).

(** The fields are set while the entry is unique. Then one owner has the [ListArc] of list
    0 and another one that of list 1; each works on its own field while the other does, and
    a third handle looks on. The attempts to use a handle that is lent are refused. *)
Definition demo_field_ops : list (FieldOp Entry Z) :=
  [FArc (AUnique 0 (entry 7) GFP_KERNEL); FGetMut 0 0 0; FWrite 0 5; FArc (AShare 0); FEnd 0;
   FArc (APair 0 1 0 1); FArc (AClone 0 2);
   FMut 1 0; FRef 2 1; FRef 3 1; FWrite 1 6; FRead 2; FRead 1; FArc (ADeref 2); FArc (AIntoArc 0); FMut 4 1;
   FArc (ADec 2); FEnd 1; FArc (AIntoArc 0); FRead 3; FEnd 2; FEnd 3; FMut 4 1; FWrite 4 9; FRead 4].

Example demo_field_outputs :
  let AL : Allocator (ArcInner Entry) := Kmalloc (ref_realloc 4096) in
  let RC := kernel_refcount in
  match field_run ∅ ∅ demo_field_ops (MkSt ∅ tt []) with
  | Done ((_, B, os), _) => os =
      [FNone; FNone; FNone; FNone; FNone; FNone; FNone;
       FNone; FNone; FNone; FNone; FVal 0; FVal 6; FView 7; FNone; FNone;
       FBool false; FNone; FNone; FVal 0; FNone; FNone; FNone; FNone; FVal 9] ∧
      B = {[ 4%nat := MkLoan 1 (match B !! 4%nat with Some ln => ln_loc ln | None => 0 end) 1 true ]}
  | _ => False
  end.
Proof. vm_compute. split; reflexivity. Qed.

Lemma demo_field_ops_ok : Forall field_op_ok demo_field_ops.
Proof. repeat first [apply Forall_nil_2|apply Forall_cons_2; [|]]; try exact I; done. Qed.

Lemma list_arc_fields_exclusive_witness :
  let AL : Allocator (ArcInner Entry) := Kmalloc (ref_realloc 4096) in
  let RC := kernel_refcount in
  ∃ os s' S, field_run ∅ ∅ demo_field_ops (MkSt ∅ tt []) = Done ((tbl (arcs S), lent S, os), s') ∧
    field_exec field_init demo_field_ops S os ∧
    (∀ r r' ln ln', lent S !! r = Some ln → lent S !! r' = Some ln' → ln_loc ln' = ln_loc ln →
       ln_id ln' = ln_id ln → ln_mut ln = true → r' = r) ∧
    (∀ r ln, lent S !! r = Some ln → ∃ n d, slot (hp s') (ln_loc ln) 0 = Some (MkArcInner n (Some d)) ∧
       vals S !! r = Some (value (lget (ln_id ln) d))).
Proof.
  apply (@list_arc_fields_exclusive Entry Z Z _ _ (Kmalloc (ref_realloc 4096)) _ kernel_refcount kernel_refcount_ok
    _ _ _ _ demo_field_ops (MkSt ∅ tt [])).
  - vm_compute. congruence.
  - by intros ? ? ?.
  - exact demo_field_ops_ok.
Defined.
