(* ===== verification/UAccess.v ===== *)
(** * User memory and pages ([rust/src/uaccess.rs], [rust/src/page.rs],
      [rust/src/page_size_compat.rs])

    A user slice is an address range of user space that another thread can change
    at any time. The kernel's copy routines are a parameter ([UserSpace]) over a
    state of which nothing is assumed, and every call is recorded in a trace: the
    theorems say which addresses the code touches, and in which order. *)

From S2P Require Import Prelude Errors Alloc KVec.

(** ** The copy routines *)

(** [copy_from_user] returns the bytes of the destination and how many could not be
    copied; [copy_to_user] the latter; [strncpy_from_user] the bytes written and
    the length or a negative error. *)
Class UserSpace (U : Type) := {
  copy_from_user : U → Z → Z → (list Z * Z) * U;
  copy_to_user : U → Z → list Z → Z * U;
  strncpy_from_user : U → Z → Z → (list Z * Z) * U
}.

(** The destination is filled, with zeros for what could not be copied. *)
Class UserSpaceSpec (U : Type) `{UserSpace U} : Prop := {
  from_user_len : ∀ u a n, 0 ≤ n → Z.of_nat (length (copy_from_user u a n).1.1) = n;
  strncpy_len : ∀ u a n, 0 ≤ n → Z.of_nat (length (strncpy_from_user u a n).1.1) ≤ n;
  strncpy_res : ∀ u a n, 0 ≤ n → let r := (strncpy_from_user u a n).1.2 in
    0 ≤ r ≤ n ∨ - 4095 ≤ r ≤ -1
}.

(** A call: address, length, and whether it transferred everything. *)
Inductive Access := URead (a n : Z) (ok : bool) | UWrite (a : Z) (bs : list Z) (ok : bool).

Record UState (U : Type) := MkUState { ust : U; trace : list Access }.
Arguments MkUState {U} _ _.
Arguments ust {U} _.
Arguments trace {U} _.

(** ** Readers and writers *)

(** [UserSlice], [UserSliceReader] and [UserSliceWriter] have the same fields. *)
Record UserSlice := MkUserSlice { uptr : Z; ulength : Z }.

Section Ops.
Context {U : Type} {US : UserSpace U}.
Local Abbreviation UM := (M (UState U)).

Definition call_from_user (a n : Z) : UM (list Z * Z) :=
  s ← get;
  let '(out, u) := copy_from_user (ust s) a n in
  _ ← put (MkUState u (trace s ++ [URead a n (snd out =? 0)]));
  mret out.

Definition call_to_user (a : Z) (bs : list Z) : UM Z :=
  s ← get;
  let '(res, u) := copy_to_user (ust s) a bs in
  _ ← put (MkUState u (trace s ++ [UWrite a bs (res =? 0)]));
  mret res.

Definition slice_new (ptr length : Z) : UserSlice := MkUserSlice ptr length.
Definition reader (s : UserSlice) : UserSlice := MkUserSlice (uptr s) (ulength s).
Definition writer (s : UserSlice) : UserSlice := MkUserSlice (uptr s) (ulength s).
Definition reader_writer (s : UserSlice) : UserSlice * UserSlice :=
  (MkUserSlice (uptr s) (ulength s), MkUserSlice (uptr s) (ulength s)).
Definition clone_reader (r : UserSlice) : UserSlice := MkUserSlice (uptr r) (ulength r).
Definition slice_len (r : UserSlice) : Z := ulength r.
Definition slice_is_empty (r : UserSlice) : bool := ulength r =? 0.

Definition skip (r : UserSlice) (num_skip : Z) : UserSlice * result Error unit :=
  match ok_or (checked_sub (ulength r) num_skip) (code_error EFAULT) with
  | Ok length => (MkUserSlice (wrapping_add (uptr r) num_skip) length, Ok tt)
  | Err e => (r, Err e)
  end.

(** [self.ptr = self.ptr.wrapping_add(len); self.length -= len] *)
Definition advance (r : UserSlice) (len : Z) : exec UserSlice :=
  match usub (ulength r) len with
  | Done n => Done (MkUserSlice (wrapping_add (uptr r) len) n)
  | Panic => Panic
  | UB => UB
  end.

(** [out]: the contents of the destination, which may be uninitialised. *)
Definition read_raw (r : UserSlice) (out : list (option Z)) :
    UM (UserSlice * list (option Z) * result Error unit) :=
  let len := Z.of_nat (length out) in
  if ulength r <? len then mret (r, out, Err (code_error EFAULT))
  else
    '(bs, res) ← call_from_user (uptr r) len;
    if negb (res =? 0) then mret (r, Some <$> bs, Err (code_error EFAULT))
    else r' ← lift (advance r len); mret (r', Some <$> bs, Ok tt).

Definition read_slice (r : UserSlice) (out : list Z) : UM (UserSlice * list (option Z) * result Error unit) :=
  read_raw r (Some <$> out).

(** [read], for a type that any bytes of its size make a value of. *)
Definition read_value {T} `{RType T} (from_bytes : list Z → T) (r : UserSlice) :
    UM (UserSlice * result Error T) :=
  let len := size_of T in
  if ulength r <? len then mret (r, Err (code_error EFAULT))
  else
    '(bs, res) ← call_from_user (uptr r) len;
    if negb (res =? 0) then mret (r, Err (code_error EFAULT))
    else r' ← lift (advance r len); mret (r', Ok (from_bytes bs)).

Definition strncpy (r : UserSlice) (buf : list Z) : UM (list Z * result Error Z) :=
  let max := sext 64 (Z.min (ulength r) (Z.of_nat (length buf))) in
  s ← get;
  let '((bs, res), u) := strncpy_from_user (ust s) (uptr r) max in
  _ ← put (MkUState u (trace s ++ [URead (uptr r) max (0 <=? res)]));
  let buf' := bs ++ drop (length bs) buf in
  if 0 <=? res then mret (buf', Ok res) else mret (buf', Err (from_errno (sext 32 res))).

Definition write_slice (w : UserSlice) (data : list Z) : UM (UserSlice * result Error unit) :=
  let len := Z.of_nat (length data) in
  if ulength w <? len then mret (w, Err (code_error EFAULT))
  else
    res ← call_to_user (uptr w) data;
    if negb (res =? 0) then mret (w, Err (code_error EFAULT))
    else w' ← lift (advance w len); mret (w', Ok tt).

Definition write_value {T} `{RType T} (as_bytes : T → list Z) (w : UserSlice) (value : T) :
    UM (UserSlice * result Error unit) :=
  let len := size_of T in
  if ulength w <? len then mret (w, Err (code_error EFAULT))
  else
    res ← call_to_user (uptr w) (as_bytes value);
    if negb (res =? 0) then mret (w, Err (code_error EFAULT))
    else w' ← lift (advance w len); mret (w', Ok tt).
End Ops.

(** Code over one part of a pair of states. *)
Definition on_fst {S1 S2 A} (m : M S1 A) : M (S1 * S2) A := λ s,
  match m s.1 with Done (a, s1) => Done (a, (s1, s.2)) | Panic => Panic | UB => UB end.
Definition on_snd {S1 S2 A} (m : M S2 A) : M (S1 * S2) A := λ s,
  match m s.2 with Done (a, s2) => Done (a, (s.1, s2)) | Panic => Panic | UB => UB end.

Section ReadAll.
Context {U : Type} {US : UserSpace U} {RT : RType Z} {AL : Allocator Z}.

(** [read_all] into a [Vec<u8>]: the destination is its spare capacity. *)
Definition read_all (r : UserSlice) (flags : Flags) : M (St Z Vec * UState U) (result Error unit) :=
  let len := ulength r in
  e ← on_fst (reserve len flags);
  match e with
  | Err e => mret (Err (into_error e))
  | Ok _ =>
      '(start, n) ← on_fst spare_capacity_mut;
      if n <? len then panic
      else
        '(_, out, res) ← on_snd (read_raw r (replicate (Z.to_nat len) None));
        v ← on_fst self;
        _ ← on_fst (write_slots (vptr v) start (omap id out));
        match res with
        | Err e => mret (Err e)
        | Ok _ => _ ← on_fst (inc_len len); mret (Ok tt)
        end
  end.

Definition slice_read_all (s : UserSlice) (flags : Flags) : M (St Z Vec * UState U) (result Error unit) :=
  read_all (reader s) flags.
End ReadAll.

(** ** Pages *)

Definition PAGE_SHIFT : Z := 12.
Definition PAGE_MASK : Z := wrap 64 (Z.lnot (PAGE_SIZE - 1)).

Definition page_align (addr : Z) : exec Z :=
  match uadd addr (PAGE_SIZE - 1) with Done a => Done (Z.land a PAGE_MASK) | Panic => Panic | UB => UB end.

(** Emulated pages: [compat] is the shift of the boot parameter, when enabled. *)
Definition __page_shift (compat : option Z) : exec Z :=
  match compat with
  | Some shift => if (0 <=? shift) && (shift <=? USIZE_MAX) then Done shift else Panic
  | None => Done PAGE_SHIFT
  end.

(** A shift by the width or more is an overflow. *)
Definition __page_size (compat : option Z) : exec Z :=
  match __page_shift compat with
  | Done shift => if shift <? 64 then Done (Z.shiftl 1 shift) else Panic
  | Panic => Panic
  | UB => UB
  end.

Definition __page_mask (compat : option Z) : exec Z :=
  match __page_size compat with Done n => Done (wrap 64 (Z.lnot (n - 1))) | Panic => Panic | UB => UB end.

Definition __page_align (compat : option Z) (addr : Z) : exec Z :=
  match __page_size compat with
  | Done n =>
      let mask := wrap 64 (Z.lnot (n - 1)) in
      match uadd addr (n - 1) with Done a => Done (Z.land a mask) | Panic => Panic | UB => UB end
  | Panic => Panic
  | UB => UB
  end.

Definition __page_align_down (compat : option Z) (addr : Z) : exec Z :=
  match __page_mask compat with Done mask => Done (Z.land addr mask) | Panic => Panic | UB => UB end.

(** The pages by address, the stack of local mappings, and user space. *)
Record PState (U : Type) := MkPState { pages : gmap Z (list Z); mapped : list Z; us : UState U }.
Arguments MkPState {U} _ _ _.
Arguments pages {U} _.
Arguments mapped {U} _.
Arguments us {U} _.

Section Pages.
Context {U : Type} {US : UserSpace U}.
Local Abbreviation PM := (M (PState U)).

(** [alloc_pages(flags, 0)]: the address and the contents of a page. *)
Definition alloc_page (alloc_pages : gmap Z (list Z) → Flags → option (Z * list Z)) (flags : Flags) :
    PM (result AllocError Z) :=
  s ← get;
  match alloc_pages (pages s) flags with
  | Some (p, bs) => _ ← put (MkPState (<[p := bs]> (pages s)) (mapped s) (us s)); mret (Ok p)
  | None => mret (Err MkAllocError)
  end.

Definition page_drop (p : Z) : PM unit :=
  modify (λ s, MkPState (delete p (pages s)) (mapped s) (us s)).

Definition kmap_local (p : Z) : PM unit :=
  modify (λ s, MkPState (pages s) (p :: mapped s) (us s)).
(** Local mappings are released in reverse order. *)
Definition kunmap_local (p : Z) : PM unit :=
  s ← get;
  match mapped s with
  | q :: m => if q =? p then put (MkPState (pages s) m (us s)) else ub
  | [] => ub
  end.

Definition with_page_mapped {A} (p : Z) (f : PM A) : PM A :=
  _ ← kmap_local p; res ← f; _ ← kunmap_local p; mret res.

Definition with_pointer_into_page {A} (p off len : Z) (f : Z → PM (result Error A)) : PM (result Error A) :=
  bounds_ok ← (if (off <=? PAGE_SIZE) && (len <=? PAGE_SIZE)
               then lift (match uadd off len with Done n => Done (n <=? PAGE_SIZE) | Panic => Panic | UB => UB end)
               else mret false);
  if bounds_ok : bool then with_page_mapped p (f off) else mret (Err (code_error EINVAL)).

(** Accesses through a mapping: out of the page, or not mapped, is undefined. *)
Definition page_load (p off len : Z) : PM (list Z) :=
  s ← get;
  match pages s !! p with
  | Some bs =>
      if bool_decide (p ∈ mapped s) && (0 <=? off) && (0 <=? len) && (off + len <=? Z.of_nat (length bs))
      then mret (take (Z.to_nat len) (drop (Z.to_nat off) bs)) else ub
  | None => ub
  end.

Definition splice (bs : list Z) (off : nat) (new : list Z) : list Z :=
  take off bs ++ new ++ drop (off + length new) bs.

Definition page_store (p off : Z) (new : list Z) : PM unit :=
  s ← get;
  match pages s !! p with
  | Some bs =>
      if bool_decide (p ∈ mapped s) && (0 <=? off) && (off + Z.of_nat (length new) <=? Z.of_nat (length bs))
      then put (MkPState (<[p := splice bs (Z.to_nat off) new]> (pages s)) (mapped s) (us s)) else ub
  | None => ub
  end.

(** The bytes that end up at [dst]. *)
Definition page_read_raw (p offset len : Z) : PM (result Error (list Z)) :=
  with_pointer_into_page p offset len (λ src, bs ← page_load p src len; mret (Ok bs)).

(** [src]: the [len] bytes at the source. *)
Definition page_write_raw (p : Z) (src : list Z) (offset : Z) : PM (result Error unit) :=
  with_pointer_into_page p offset (Z.of_nat (length src)) (λ dst, _ ← page_store p dst src; mret (Ok tt)).

Definition fill_zero_raw (p offset len : Z) : PM (result Error unit) :=
  with_pointer_into_page p offset len (λ dst, _ ← page_store p dst (replicate (Z.to_nat len) 0); mret (Ok tt)).

Definition on_us {A} (m : M (UState U) A) : PM A := λ s,
  match m (us s) with
  | Done (a, u) => Done (a, MkPState (pages s) (mapped s) u)
  | Panic => Panic
  | UB => UB
  end.

(** The reader afterwards and the result; the destination is the page. *)
Definition copy_from_user_slice_raw (p : Z) (r : UserSlice) (offset len : Z) : PM (UserSlice * result Error unit) :=
  o ← with_pointer_into_page p offset len (λ dst,
        old ← page_load p dst len;
        '(r', out, res) ← on_us (read_raw r (Some <$> old));
        _ ← page_store p dst (omap id out);
        mret (Ok (r', res)));
  match o with Ok (r', res) => mret (r', res) | Err e => mret (r, Err e) end.
End Pages.

(** ** Programs on a reader or a writer *)

Section Programs.
Context {U : Type} {US : UserSpace U}.
Local Abbreviation UM := (M (UState U)).

(** [XRead n] stands for [read_raw], [read_slice] and [read] of [n] bytes: they make
    the same call. *)
Inductive SliceOp := XSkip (n : Z) | XRead (out : list (option Z)) | XWrite (data : list Z).

Definition slice_step (r : UserSlice) (op : SliceOp) : UM (UserSlice * result Error unit) :=
  match op with
  | XSkip n => mret (skip r n)
  | XRead out => '(r, _, res) ← read_raw r out; mret (r, res)
  | XWrite data => write_slice r data
  end.

Fixpoint slice_run (r : UserSlice) (ops : list SliceOp) : UM (UserSlice * list (result Error unit)) :=
  match ops with
  | [] => mret (r, [])
  | op :: ops =>
      '(r, o) ← slice_step r op;
      '(r, os) ← slice_run r ops;
      mret (r, o :: os)
  end.

(** The calls of a program on the slice [ptr, len): the first one at or after the
    offset [pos], each inside of the slice, and after one that succeeded the next
    begins behind it. *)
Definition call_ok (ptr len pos : Z) (c : Access) : option Z :=
  let '(a, n, ok) := match c with URead a n ok => (a, n, ok) | UWrite a bs ok => (a, Z.of_nat (length bs), ok) end in
  let o := (a - ptr) mod 2 ^ 64 in
  if (pos <=? o) && (0 <=? n) && (o + n <=? len) then Some (if ok then o + n else o) else None.

Fixpoint calls_ok (ptr len pos : Z) (cs : list Access) : bool :=
  match cs with
  | [] => true
  | c :: cs => match call_ok ptr len pos c with Some pos => calls_ok ptr len pos cs | None => false end
  end.

(** The bytes, as offsets, that calls that succeeded transferred. *)
Definition fetched (ptr : Z) (c : Access) : list Z :=
  match c with
  | URead a n true => seqZ ((a - ptr) mod 2 ^ 64) n
  | UWrite a bs true => seqZ ((a - ptr) mod 2 ^ 64) (Z.of_nat (length bs))
  | _ => []
  end.
End Programs.

Section ProgramSpecs.
Context {U : Type} {US : UserSpace U} {USs : UserSpaceSpec U}.
Implicit Types (s : UState U) (r : UserSlice).

(** A slice at offset [pos] of the range that starts at [ptr]. *)
Definition slice_at (ptr len pos : Z) r : Prop :=
  0 ≤ pos ≤ len ∧ uptr r = wrapping_add ptr pos ∧ ulength r = len - pos.

Lemma offset_of ptr pos : is_usize ptr → 0 ≤ pos < 2 ^ 64 → (wrapping_add ptr pos - ptr) mod 2 ^ 64 = pos.
Proof.
  intros Hp Hpos. unfold wrapping_add, wrap, USIZE_BITS.
  rewrite Zminus_mod_idemp_l. replace (ptr + pos - ptr) with pos by lia. by apply Z.mod_small.
Qed.

Lemma advance_ok ptr len pos r n : is_usize ptr → slice_at ptr len pos r → 0 ≤ n → n ≤ ulength r →
  ∃ r', advance r n = Done r' ∧ slice_at ptr len (pos + n) r'.
Proof.
  intros Hptr (Hpos & Hp & Hl) Hn Hle. unfold advance. rewrite usub_ok by lia. eexists. split; [done|].
  split_and!; simpl; [lia..| |lia]. rewrite Hp. unfold wrapping_add, wrap.
  rewrite Zplus_mod_idemp_l. f_equal. lia.
Qed.

(** The calls made, and the position afterwards. *)
Definition moves ptr len pos s (r' : UserSlice) s' : Prop :=
  ∃ cs pos', trace s' = trace s ++ cs ∧ slice_at ptr len pos' r' ∧ pos ≤ pos' ∧
    (cs = [] ∨ ∃ c, cs = [c] ∧ call_ok ptr len pos c = Some pos').

Definition op_usize (op : SliceOp) : Prop := match op with XSkip n => is_usize n | _ => True end.

Lemma call_read_ok ptr len pos n (ok : bool) : is_usize ptr → is_usize len → 0 ≤ pos → 0 ≤ n → pos + n ≤ len →
  call_ok ptr len pos (URead (wrapping_add ptr pos) n ok) = Some (if ok then pos + n else pos).
Proof.
  intros Hp Hl H0 Hn Hle. unfold call_ok. rewrite offset_of by (done || usize).
  rewrite !(proj2 (Z.leb_le _ _)) by lia. done.
Qed.

Lemma call_write_ok ptr len pos bs (ok : bool) : is_usize ptr → is_usize len → 0 ≤ pos →
  pos + Z.of_nat (length bs) ≤ len →
  call_ok ptr len pos (UWrite (wrapping_add ptr pos) bs ok) = Some (if ok then pos + Z.of_nat (length bs) else pos).
Proof.
  intros Hp Hl H0 Hle. unfold call_ok. rewrite offset_of by (done || usize).
  rewrite !(proj2 (Z.leb_le _ _)) by lia. done.
Qed.

Lemma read_raw_ok ptr len pos s r out : is_usize ptr → is_usize len → slice_at ptr len pos r →
  wp (read_raw r out) (λ o s', let '(r', out', res) := o in
    moves ptr len pos s r' s' ∧ length out' = length out ∧
    match res with
    | Ok _ => slice_at ptr len (pos + Z.of_nat (length out)) r' ∧
        trace s' = trace s ++ [URead (uptr r) (Z.of_nat (length out)) true] ∧
        out' = Some <$> (copy_from_user (ust s) (uptr r) (Z.of_nat (length out))).1.1
    | Err e => e = EFAULT ∧ r' = r ∧
        (ulength r < Z.of_nat (length out) ∧ s' = s ∧ out' = out ∨
         trace s' = trace s ++ [URead (uptr r) (Z.of_nat (length out)) false] ∧ ∃ bs, out' = Some <$> bs)
    end) s.
Proof.
  intros Hptr Hlen Hat. pose proof Hat as (Hpos & Hp & Hl). unfold read_raw.
  destruct (Z.ltb_spec (ulength r) (Z.of_nat (length out))) as [Hlt|Hle].
  { apply wp_ret. split_and!; [|done|done|done|auto]. exists [], pos. rewrite app_nil_r. split_and!; auto; lia. }
  apply wp_bind. unfold call_from_user. wp_step. wp_step.
  pose proof (from_user_len (ust s) (uptr r) (Z.of_nat (length out)) ltac:(lia)) as Hbs.
  destruct (copy_from_user (ust s) (uptr r) (Z.of_nat (length out))) as [[bs res] u]. simpl in Hbs.
  wp_steps. rewrite Hp in *. pose proof (call_read_ok ptr len pos (Z.of_nat (length out)) (res =? 0)) as Hc.
  destruct (Z.eqb_spec res 0) as [->|Hres]; simpl.
  - destruct (advance_ok ptr len pos r (Z.of_nat (length out))) as (r' & Ha & Hat'); [done..|lia|lia|].
    eapply wp_bind, wp_lift; [exact Ha|]. apply wp_ret. split_and!; [|rewrite length_fmap; lia|done..].
    eexists [_], _. split_and!; [done|exact Hat'|lia|]. right. eexists. split; [done|]. apply Hc; done || lia.
  - apply wp_ret. split_and!; [|rewrite length_fmap; lia|done|done|right; eauto].
    eexists [_], pos. split_and!; [done|done|lia|]. right. eexists. split; [done|]. apply Hc; done || lia.
Qed.

Lemma write_slice_ok ptr len pos s w data : is_usize ptr → is_usize len → slice_at ptr len pos w →
  wp (write_slice w data) (λ o s', moves ptr len pos s (fst o) s') s.
Proof.
  intros Hptr Hlen Hat. pose proof Hat as (Hpos & Hp & Hl). unfold write_slice.
  destruct (Z.ltb_spec (ulength w) (Z.of_nat (length data))) as [Hlt|Hle].
  { apply wp_ret. exists [], pos. rewrite app_nil_r. split_and!; auto; lia. }
  apply wp_bind. unfold call_to_user. wp_step. wp_step.
  destruct (copy_to_user (ust s) (uptr w) data) as [res u].
  wp_steps. rewrite Hp in *. pose proof (call_write_ok ptr len pos data (res =? 0)) as Hc.
  destruct (Z.eqb_spec res 0) as [->|Hres]; simpl.
  - destruct (advance_ok ptr len pos w (Z.of_nat (length data))) as (r' & Ha & Hat'); [done..|lia|lia|].
    eapply wp_bind, wp_lift; [exact Ha|]. apply wp_ret.
    eexists [_], _. split_and!; [done|exact Hat'|lia|]. right. eexists. split; [done|]. apply Hc; done || lia.
  - apply wp_ret. eexists [_], pos. split_and!; [done|done|lia|]. right. eexists. split; [done|].
    apply Hc; done || lia.
Qed.

Lemma skip_ok ptr len pos s r n : is_usize ptr → is_usize n → slice_at ptr len pos r →
  moves ptr len pos s (fst (skip r n)) s.
Proof.
  intros Hptr Hn Hat. pose proof Hat as (Hpos & Hp & Hl). unfold skip, checked_sub.
  destruct (Z.leb_spec n (ulength r)) as [Hle|Hgt]; simpl.
  - exists [], (pos + n). rewrite app_nil_r. split_and!; [done| |usize|auto].
    split_and!; [usize|lia| |simpl; lia].
    simpl. rewrite Hp. unfold wrapping_add, wrap. rewrite Zplus_mod_idemp_l. f_equal. lia.
  - exists [], pos. rewrite app_nil_r. split_and!; auto; lia.
Qed.

Lemma slice_step_ok ptr len pos s r op : is_usize ptr → is_usize len → op_usize op → slice_at ptr len pos r →
  wp (slice_step r op) (λ o s', moves ptr len pos s (fst o) s') s.
Proof.
  intros Hptr Hlen Hop Hat. destruct op as [n|out|data]; simpl.
  - apply wp_ret. by apply skip_ok.
  - apply wp_bind. eapply wp_mono; [by apply (read_raw_ok ptr len pos)|]. intros [[r' out'] res] s' (Hm & _). by apply wp_ret.
  - by apply write_slice_ok.
Qed.

Lemma call_ok_mono ptr len pos pos' c q : pos ≤ pos' → call_ok ptr len pos' c = Some q → call_ok ptr len pos c = Some q.
Proof.
  intros Hle. unfold call_ok. destruct c as [a n ok|a bs ok]; intros E.
  - destruct (Z.leb_spec pos' ((a - ptr) mod 2 ^ 64)); [|done].
    by rewrite (proj2 (Z.leb_le pos _)) by lia.
  - destruct (Z.leb_spec pos' ((a - ptr) mod 2 ^ 64)); [|done].
    by rewrite (proj2 (Z.leb_le pos _)) by lia.
Qed.

Lemma calls_ok_mono ptr len pos pos' cs : pos ≤ pos' → calls_ok ptr len pos' cs = true → calls_ok ptr len pos cs = true.
Proof.
  intros Hle. destruct cs as [|c cs]; [done|]. simpl.
  destruct (call_ok ptr len pos' c) as [q|] eqn:E; [|done]. by rewrite (call_ok_mono _ _ _ _ _ _ Hle E).
Qed.

Lemma slice_run_ok ptr len ops : is_usize ptr → is_usize len → Forall op_usize ops → ∀ pos s r,
  slice_at ptr len pos r →
  wp (slice_run r ops) (λ o s', ∃ cs pos', trace s' = trace s ++ cs ∧ slice_at ptr len pos' (fst o) ∧
    calls_ok ptr len pos cs = true) s.
Proof.
  intros Hptr Hlen. induction 1 as [|op ops Hop Hops IH]; intros pos s r Hat; simpl.
  - apply wp_ret. exists [], pos. by rewrite app_nil_r.
  - apply wp_bind. eapply wp_mono; [by apply (slice_step_ok ptr len pos)|].
    intros [r1 o] s1 (cs & pos1 & Ht & Hat1 & Hle & Hcs). simpl in *.
    apply wp_bind. eapply wp_mono; [by eapply IH|]. intros [r2 os] s2 (cs2 & pos2 & Ht2 & Hat2 & Hcs2). simpl in *.
    apply wp_ret. exists (cs ++ cs2), pos2. rewrite Ht2, Ht, app_assoc. split_and!; [done..|].
    destruct Hcs as [->|(c & -> & Hc)]; simpl; [by eapply calls_ok_mono|by rewrite Hc].
Qed.

(** No byte is transferred twice. *)
Lemma calls_ok_nodup ptr len cs : ∀ pos, calls_ok ptr len pos cs = true →
  NoDup (concat (fetched ptr <$> cs)) ∧ Forall (λ o, pos ≤ o < len) (concat (fetched ptr <$> cs)).
Proof.
  induction cs as [|c cs IH]; intros pos H; [by split; constructor|].
  simpl in H. destruct (call_ok ptr len pos c) as [q|] eqn:E; [|done]. specialize (IH q H) as [Hn Hf].
  assert (∃ o n, pos ≤ o ∧ 0 ≤ n ∧ o + n ≤ len ∧
    ((fetched ptr c = seqZ o n ∧ q = o + n) ∨ (fetched ptr c = [] ∧ pos ≤ q))) as (o & n & Ho & Hn0 & Hle & Hc).
  { unfold call_ok in E. destruct c as [a n ok|a bs ok].
    - exists ((a - ptr) mod 2 ^ 64), n. destruct (Z.leb_spec pos ((a - ptr) mod 2 ^ 64)), (Z.leb_spec 0 n),
        (Z.leb_spec ((a - ptr) mod 2 ^ 64 + n) len); simpl in E; try done.
      split_and!; [done..|]. destruct ok; injection E as <-; [left|right]; done.
    - exists ((a - ptr) mod 2 ^ 64), (Z.of_nat (length bs)).
      destruct (Z.leb_spec pos ((a - ptr) mod 2 ^ 64)), (Z.leb_spec 0 (Z.of_nat (length bs))),
        (Z.leb_spec ((a - ptr) mod 2 ^ 64 + Z.of_nat (length bs)) len); simpl in E; try done.
      split_and!; [done..|]. destruct ok; injection E as <-; [left|right]; done. }
  cbn [fmap list_fmap concat]. destruct Hc as [[-> ->]|[-> Hq]].
  - split.
    + apply NoDup_app. split_and!; [apply NoDup_seqZ| |done].
      intros x Hx Hx'. apply elem_of_seqZ in Hx. rewrite Forall_forall in Hf. apply Hf in Hx'. lia.
    + apply Forall_app. split.
      * apply Forall_forall. intros x Hx%elem_of_seqZ. lia.
      * eapply Forall_impl; [done|]. simpl. lia.
  - split; [done|]. simpl. eapply Forall_impl; [done|]. simpl. lia.
Qed.
End ProgramSpecs.

(** C14: a program on a reader or a writer touches user memory only inside of its slice
    and in increasing order, whatever user space does: it never panics, every call
    lies in the slice behind all calls that succeeded before it, and no byte is
    transferred twice (so that a value that was checked cannot be fetched again). *)
Theorem user_slice_single_fetch {U} `{UserSpaceSpec U} (ptr len : Z) (ops : list SliceOp) (s : UState U)
    (Hptr : is_usize ptr) (Hlen : is_usize len) (Hops : Forall op_usize ops) :
  ∃ r os s' cs, slice_run (reader (slice_new ptr len)) ops s = Done ((r, os), s') ∧
    trace s' = trace s ++ cs ∧ calls_ok ptr len 0 cs = true ∧
    NoDup (concat (fetched ptr <$> cs)) ∧ Forall (λ o, 0 ≤ o < len) (concat (fetched ptr <$> cs)) ∧
    0 ≤ slice_len r ≤ len.
Proof.
  destruct (slice_run_ok ptr len ops Hptr Hlen Hops 0 s (reader (slice_new ptr len)))
    as ([r os] & s' & Hr & cs & pos & Ht & (Hpos & _ & Hl) & Hc).
  { split_and!; simpl; [lia|usize| |lia]. unfold wrapping_add, wrap, USIZE_BITS. rewrite Z.add_0_r, Z.mod_small; usize. }
  exists r, os, s', cs. destruct (calls_ok_nodup _ _ _ _ Hc). simpl in *. unfold slice_len.
  split_and!; done || lia.
Qed.

Lemma user_slice_single_fetch_witness :
  let US : UserSpace nat := {|
    copy_from_user u a n := ((replicate (Z.to_nat n) (Z.of_nat u), if a <? 4096 then 1 else 0), S u);
    copy_to_user u a bs := (0, S u);
    strncpy_from_user u a n := (([], 0), S u)
  |} in
  let ops := [XRead [None; None]; XSkip 3; XRead [Some 0]; XWrite [1; 2; 3]] in
  ∃ r os s' cs, slice_run (reader (slice_new 4090 10)) ops (MkUState 0%nat []) = Done ((r, os), s') ∧
    trace s' = [] ++ cs ∧ calls_ok 4090 10 0 cs = true ∧
    NoDup (concat (fetched 4090 <$> cs)) ∧ Forall (λ o, 0 ≤ o < 10) (concat (fetched 4090 <$> cs)) ∧
    0 ≤ slice_len r ≤ 10.
Proof.
  intros US ops.
  assert (UserSpaceSpec nat) as USs.
  { split; simpl; intros; [rewrite length_replicate; lia|lia|lia]. }
  apply (@user_slice_single_fetch nat US USs 4090 10 ops (MkUState 0%nat [])).
  - usize.
  - usize.
  - repeat (apply Forall_cons_2; [simpl; first [exact I|usize]|]). apply Forall_nil_2.
Defined.

(** ** [read_all] *)

Section ReadAllSpec.
Context {U : Type} {US : UserSpace U} {USs : UserSpaceSpec U}.
Context {RT : RType Z} {RTok : RTypeOk Z} {AL : Allocator Z} {ALs : AllocatorSpec Z}.

Lemma wp_on_fst {S1 S2 A} (m : M S1 A) (Q : A → S1 * S2 → Prop) s :
  wp m (λ a s1, Q a (s1, s.2)) s.1 → wp (on_fst m) Q s.
Proof. intros (a & s1 & Hm & HQ). exists a, (s1, s.2). unfold on_fst. by rewrite Hm. Qed.

Lemma wp_on_snd {S1 S2 A} (m : M S2 A) (Q : A → S1 * S2 → Prop) s :
  wp m (λ a s2, Q a (s.1, s2)) s.2 → wp (on_snd m) Q s.
Proof. intros (a & s2 & Hm & HQ). exists a, (s.1, s2). unfold on_snd. by rewrite Hm. Qed.

Lemma omap_Some_id (xs : list Z) : omap id (Some <$> xs) = xs.
Proof. induction xs as [|x xs IH]; [done|]. simpl. by f_equal. Qed.

(** Bytes behind the elements change nothing. *)
Lemma rep_written (s s' : St Z Vec) l xs : vec_rep s l → written s s' (vlen (obj s)) xs → keeps s s' l.
Proof.
  intros [Hi Hl Hc] (Hi' & Ho & Hd & Hr & Hcells). split_and!; [|done..].
  split; [done|by rewrite Ho|]. intros i x Hx. rewrite Hcells. apply lookup_lt_Some in Hx as Hlt.
  rewrite decide_False by lia. by apply Hc.
Qed.

Definition read_all_post (r : UserSlice) (s : St Z Vec) (u : UState U) (l : list Z)
    (e : result Error unit) (s' : St Z Vec * UState U) : Prop :=
  match e with
  | Ok _ =>
      keeps s s'.1 (l ++ (copy_from_user (ust u) (uptr r) (ulength r)).1.1) ∧
      trace s'.2 = trace u ++ [URead (uptr r) (ulength r) true]
  | Err e => keeps s s'.1 l ∧ (e = ENOMEM ∧ s'.2 = u ∨
      e = EFAULT ∧ trace s'.2 = trace u ++ [URead (uptr r) (ulength r) false])
  end.

Lemma uread_all_ok r s u l fl : vec_rep s l → is_usize (uptr r) → is_usize (ulength r) →
  wp (read_all r fl) (read_all_post r s u l) (s, u).
Proof.
  intros Hr Hp Hlen. unfold read_all. apply wp_bind, wp_on_fst. simpl.
  eapply wp_mono; [by apply (reserve_ok s l)|]. intros [[]|e] s1 Hres; simpl in Hres.
  2: { apply wp_ret. subst. split; [by apply keeps_refl|]. left. by destruct e. }
  destruct Hres as (Hk & Hroom & _). pose proof Hk as (Hr1 & _). pose proof (rep_inv _ _ Hr1) as Hi1.
  pose proof (inv_len s1 Hi1) as Hl1.
  apply wp_bind, wp_on_fst. simpl. apply wp_spare; [done|]. rewrite (proj2 (Z.ltb_ge _ _)) by lia.
  apply wp_bind, wp_on_snd. simpl.
  assert (Z.of_nat (length (replicate (Z.to_nat (ulength r)) (@None Z))) = ulength r) as Hrep.
  { rewrite length_replicate. usize. }
  assert (slice_at (uptr r) (ulength r) 0 r) as Hat.
  { split_and!; [lia|usize| |lia]. unfold wrapping_add, wrap, USIZE_BITS. rewrite Z.add_0_r, Z.mod_small; usize. }
  eapply wp_mono; [by apply (read_raw_ok (uptr r) (ulength r) 0)|].
  intros [[r' out] res] u' (_ & Hlo & Hres). rewrite Hrep in Hres.
  assert (∃ bs, out = Some <$> bs ∧ Z.of_nat (length bs) = ulength r) as (bs & -> & Hbs).
  { assert (∃ bs, out = Some <$> bs) as [bs ->].
    { destruct res; [destruct Hres as (_ & _ & ->); eauto|]. destruct Hres as (_ & _ & [[? _]|[_ ?]]); [lia|done]. }
    exists bs. split; [done|]. rewrite length_fmap, length_replicate in Hlo. usize. }
  rewrite omap_Some_id. apply wp_bind, wp_on_fst, wp_self. simpl.
  apply wp_bind, wp_on_fst, wp_write_slots; [done|lia|simpl; lia|]. intros s2 Hw. simpl in Hw |- *.
  destruct res as [[]|e].
  - destruct Hres as (_ & Ht & Hout). apply (inj (fmap Some)) in Hout.
    pose proof Hw as (Hi2 & Ho2 & _). apply wp_bind, wp_on_fst, wp_inc_len; [done|simpl; rewrite Ho2; simpl; lia|].
    apply wp_ret. split; [|done]. rewrite <- Hout. eapply keeps_trans; [exact Hk|]. rewrite <- Hbs.
    apply rep_extend; [done|simpl in *; lia|done].
  - destruct Hres as (-> & _ & [[? _]|[Ht _]]); [lia|]. apply wp_ret. split; [|auto].
    eapply keeps_trans; [exact Hk|]. by eapply rep_written.
Qed.
End ReadAllSpec.

(** [read_all] appends exactly the bytes of one copy of the whole slice, or fails and
    leaves the contents of the vector alone; it makes one call on user memory, and
    none when the vector cannot grow. *)
Theorem read_all_appends {U} `{UserSpaceSpec U} {RT : RType Z} {RTok : RTypeOk Z} {AL : Allocator Z}
    {ALs : AllocatorSpec Z} (ptr len : Z) (fl : Flags) (s : St Z Vec) (l : list Z) (u : UState U)
    (Hr : vec_rep s l) (Hptr : is_usize ptr) (Hlen : is_usize len) :
  ∃ e s', slice_read_all (slice_new ptr len) fl (s, u) = Done (e, s') ∧
    read_all_post (slice_new ptr len) s u l e s'.
Proof. exact (uread_all_ok (slice_new ptr len) s u l fl Hr Hptr Hlen). Qed.

Lemma read_all_appends_witness :
  let US : UserSpace unit := {|
    copy_from_user u a n := ((replicate (Z.to_nat n) 7, 0), tt);
    copy_to_user u a bs := (0, tt);
    strncpy_from_user u a n := (([], 0), tt)
  |} in
  let AL : Allocator Z := Kmalloc (ref_realloc 4096) in
  ∃ e s', slice_read_all (slice_new 4096 3) GFP_KERNEL (MkSt ∅ (new Z) [], MkUState tt []) = Done (e, s') ∧
    read_all_post (slice_new 4096 3) (MkSt ∅ (new Z) []) (MkUState tt []) [] e s'.
Proof.
  intros US AL.
  assert (UserSpaceSpec unit) as USs.
  { split; simpl; intros; [rewrite length_replicate; lia|lia|lia]. }
  apply (@read_all_appends unit US USs u64_type u64_type_ok AL _ 4096 3 GFP_KERNEL (MkSt ∅ (new Z) []) []
    (MkUState tt [])).
  - apply new_rep. by intros ? ? ?.
  - usize.
  - usize.
Defined.

(** ** Pages *)

Section PageSpecs.
Context {U : Type} {US : UserSpace U} {USs : UserSpaceSpec U}.
Implicit Types (s : PState U) (p off len : Z).

Definition set_page s p (bs : list Z) : PState U := MkPState (<[p := bs]> (pages s)) (mapped s) (us s).

(** The closure runs on the mapped page, and leaves the stack of mappings alone. *)
Lemma wp_with_pointer {A} p off len (f : Z → M (PState U) (result Error A)) Q s :
  is_usize off → is_usize len →
  (off + len ≤ PAGE_SIZE → wp (f off) (λ r s', mapped s' = p :: mapped s ∧
     Q r (MkPState (pages s') (mapped s) (us s'))) (MkPState (pages s) (p :: mapped s) (us s))) →
  (PAGE_SIZE < off + len → Q (Err (code_error EINVAL)) s) →
  wp (with_pointer_into_page p off len f) Q s.
Proof.
  intros Ho Hl Hin Hout. unfold with_pointer_into_page. apply wp_bind.
  assert (∀ b : bool, wp (if b then with_page_mapped p (f off) else mret (Err (code_error EINVAL))) Q s →
    b = (off + len <=? PAGE_SIZE) →
    wp (if (off <=? PAGE_SIZE) && (len <=? PAGE_SIZE)
        then lift match uadd off len with Done n => Done (n <=? PAGE_SIZE) | Panic => Panic | UB => UB end
        else mret false)
      (λ b s', wp (if b : bool then with_page_mapped p (f off) else mret (Err (code_error EINVAL))) Q s') s) as Hb.
  { intros b Hw ->. destruct (Z.leb_spec off PAGE_SIZE), (Z.leb_spec len PAGE_SIZE); simpl.
    - eapply wp_lift; [|exact Hw]. rewrite uadd_ok by (unfold PAGE_SIZE in *; usize). done.
    - apply wp_ret. rewrite (proj2 (Z.leb_gt _ _)) in Hw by usize. exact Hw.
    - apply wp_ret. rewrite (proj2 (Z.leb_gt _ _)) in Hw by usize. exact Hw.
    - apply wp_ret. rewrite (proj2 (Z.leb_gt _ _)) in Hw by usize. exact Hw. }
  eapply Hb; [|done]. destruct (Z.leb_spec (off + len) PAGE_SIZE) as [Hle|Hgt]; [|by apply wp_ret, Hout].
  unfold with_page_mapped, kmap_local. apply wp_bind, wp_modify, wp_bind.
  eapply wp_mono; [by apply Hin|]. intros r s' [Hm HQ]. apply wp_bind. unfold kunmap_local.
  wp_step. wp_step. rewrite Hm, Z.eqb_refl. wp_step. by apply wp_ret.
Qed.

Lemma wp_page_load p off len bs Q s : pages s !! p = Some bs → p ∈ mapped s → 0 ≤ off → 0 ≤ len →
  off + len ≤ Z.of_nat (length bs) → Q (take (Z.to_nat len) (drop (Z.to_nat off) bs)) s →
  wp (page_load p off len) Q s.
Proof.
  intros Hp Hm Ho Hl Hle HQ. unfold page_load. wp_step. wp_step. rewrite Hp, bool_decide_true by done.
  rewrite !(proj2 (Z.leb_le _ _)) by lia. by apply wp_ret.
Qed.

Lemma wp_page_store p off bs new Q s : pages s !! p = Some bs → p ∈ mapped s → 0 ≤ off →
  off + Z.of_nat (length new) ≤ Z.of_nat (length bs) →
  Q tt (set_page s p (splice bs (Z.to_nat off) new)) → wp (page_store p off new) Q s.
Proof.
  intros Hp Hm Ho Hle HQ. unfold page_store. wp_step. wp_step. rewrite Hp, bool_decide_true by done.
  rewrite !(proj2 (Z.leb_le _ _)) by lia. by apply wp_put.
Qed.

Lemma wp_on_us {A} (m : M (UState U) A) Q s :
  wp m (λ a u, Q a (MkPState (pages s) (mapped s) u)) (us s) → wp (on_us m) Q s.
Proof. intros (a & u & Hm & HQ). eexists _, _. unfold on_us. rewrite Hm. done. Qed.

Lemma page_read_ok p off len bs s : pages s !! p = Some bs → Z.of_nat (length bs) = PAGE_SIZE →
  is_usize off → is_usize len →
  page_read_raw p off len s =
    Done (if off + len <=? PAGE_SIZE then Ok (take (Z.to_nat len) (drop (Z.to_nat off) bs))
          else Err (code_error EINVAL), s).
Proof.
  intros Hp Hbs Ho Hl. apply wp_Done. unfold page_read_raw. apply wp_with_pointer; [done..| |].
  - intros Hle. rewrite (proj2 (Z.leb_le _ _)) by done. apply wp_bind.
    apply wp_page_load with bs; [done|simpl; set_solver|usize|usize|lia|].
    apply wp_ret. simpl. split_and!; [done..|]. by destruct s.
  - intros Hgt. by rewrite (proj2 (Z.leb_gt _ _)) by done.
Qed.

Lemma page_write_ok p (src : list Z) off bs s : pages s !! p = Some bs → Z.of_nat (length bs) = PAGE_SIZE →
  is_usize off → is_usize (Z.of_nat (length src)) →
  page_write_raw p src off s =
    Done (if off + Z.of_nat (length src) <=? PAGE_SIZE then (Ok tt, set_page s p (splice bs (Z.to_nat off) src))
          else (Err (code_error EINVAL), s)).
Proof.
  intros Hp Hbs Ho Hl. destruct (Z.leb_spec (off + Z.of_nat (length src)) PAGE_SIZE) as [Hle|Hgt];
    apply wp_Done; unfold page_write_raw; apply wp_with_pointer; try done; try lia.
  intros _. apply wp_bind. apply wp_page_store with bs; [done|simpl; set_solver|usize|lia|]. by apply wp_ret.
Qed.

Lemma fill_zero_ok p off len bs s : pages s !! p = Some bs → Z.of_nat (length bs) = PAGE_SIZE →
  is_usize off → is_usize len →
  fill_zero_raw p off len s =
    Done (if off + len <=? PAGE_SIZE then
            (Ok tt, set_page s p (splice bs (Z.to_nat off) (replicate (Z.to_nat len) 0)))
          else (Err (code_error EINVAL), s)).
Proof.
  intros Hp Hbs Ho Hl. destruct (Z.leb_spec (off + len) PAGE_SIZE) as [Hle|Hgt];
    apply wp_Done; unfold fill_zero_raw; apply wp_with_pointer; try done; try lia.
  intros _. apply wp_bind. apply wp_page_store with bs; [done|simpl; set_solver|usize| |].
  - rewrite length_replicate. usize.
  - by apply wp_ret.
Qed.

Lemma splice_length bs (off : nat) new : (off + length new ≤ length bs)%nat → length (splice bs off new) = length bs.
Proof. intros H. unfold splice. rewrite !length_app, length_take, length_drop. lia. Qed.

(** What was written is read back, and the rest of the page is as before. *)
Lemma splice_lookup bs (off : nat) new (i : nat) : (off + length new ≤ length bs)%nat →
  splice bs off new !! i = if decide (off ≤ i < off + length new)%nat then new !! (i - off)%nat else bs !! i.
Proof.
  intros H. unfold splice. destruct (decide (i < off)%nat) as [H1|H1].
  - rewrite lookup_app_l by (rewrite length_take; lia). rewrite lookup_take_lt by lia. by rewrite decide_False by lia.
  - rewrite lookup_app_r by (rewrite length_take; lia). rewrite length_take, Nat.min_l by lia.
    destruct (decide (i < off + length new)%nat) as [H2|H2].
    + rewrite lookup_app_l by lia. by rewrite decide_True by lia.
    + rewrite lookup_app_r by lia. rewrite lookup_drop, decide_False by lia. f_equal. lia.
Qed.

(** The reader's bytes go to the page; a read that fails half way leaves zeros, one that
    is too long leaves the page alone. *)
Lemma copy_from_user_ok p off len bs s r : pages s !! p = Some bs → Z.of_nat (length bs) = PAGE_SIZE →
  is_usize off → is_usize len → is_usize (uptr r) → is_usize (ulength r) →
  wp (copy_from_user_slice_raw p r off len) (λ o s', mapped s' = mapped s ∧
    match snd o with
    | Ok _ => off + len ≤ PAGE_SIZE ∧ len ≤ ulength r ∧ ulength (fst o) = ulength r - len ∧
        pages s' = <[p := splice bs (Z.to_nat off) (copy_from_user (ust (us s)) (uptr r) len).1.1]> (pages s)
    | Err e => fst o = r ∧
        ((e = EINVAL ∧ PAGE_SIZE < off + len ∧ s' = s) ∨
         (e = EFAULT ∧ ∃ new, Z.of_nat (length new) = len ∧
            pages s' = <[p := splice bs (Z.to_nat off) new]> (pages s)))
    end) s.
Proof.
  intros Hp Hbs Ho Hl Hup Hul. unfold copy_from_user_slice_raw. apply wp_bind, wp_with_pointer; [done..| |].
  2: { intros Hgt. apply wp_ret. split; [done|]. split; [done|]. by left. }
  intros Hle. apply wp_bind. apply wp_page_load with bs; [done|simpl; set_solver|usize|usize|lia|].
  set (old := take (Z.to_nat len) (drop (Z.to_nat off) bs)).
  assert (length old = Z.to_nat len) as Hold.
  { unfold old. rewrite length_take, length_drop. unfold PAGE_SIZE in *. usize. }
  assert (slice_at (uptr r) (ulength r) 0 r) as Hat.
  { split_and!; [lia|usize| |lia]. unfold wrapping_add, wrap, USIZE_BITS. rewrite Z.add_0_r, Z.mod_small; usize. }
  apply wp_bind, wp_on_us. eapply wp_mono; [by apply (read_raw_ok (uptr r) (ulength r) 0)|].
  rewrite length_fmap, Hold, Z2Nat.id by usize. intros [[r' out] res] u' (_ & Hlo & Hres). simpl.
  assert (∃ new, out = Some <$> new) as [new ->].
  { destruct res; [destruct Hres as (_ & _ & ->); eauto|]. destruct Hres as (_ & _ & [(_ & _ & ->)|[_ ?]]); eauto. }
  rewrite length_fmap in Hlo. rewrite omap_Some_id.
  apply wp_bind. apply wp_page_store with bs; [done|simpl; set_solver|usize|rewrite Hlo; usize|].
  apply wp_ret. simpl. split; [done|]. apply wp_ret. destruct res as [[]|e]; simpl.
  - destruct Hres as ((Hpos & _ & Hlr) & _ & Hnew). apply (inj (fmap Some)) in Hnew. simpl in Hnew. rewrite <- Hnew.
    split_and!; [done..| | |]; [lia|lia|done].
  - destruct Hres as (-> & -> & _). split_and!; [done..|]. right. split; [done|]. exists new.
    split; [usize|done].
Qed.
End PageSpecs.

(** C31: the accesses to a page stay inside of it, for all offsets and lengths. Reads and
    writes of a range that fits return or replace exactly that range, without an
    overflow in the check; other ranges fail with [EINVAL] and change nothing; a copy
    from user memory replaces exactly the range, also when it fails half way; and the
    temporary mapping of the page is gone afterwards. *)
Theorem page_accesses_bounded {U} `{UserSpaceSpec U} (p off len : Z) (src bs : list Z) (r : UserSlice)
    (s : PState U) (Hp : pages s !! p = Some bs) (Hbs : Z.of_nat (length bs) = PAGE_SIZE)
    (Hoff : is_usize off) (Hlen : is_usize len) (Hsrc : Z.of_nat (length src) = len)
    (Hr : is_usize (uptr r) ∧ is_usize (ulength r)) :
  let fits := off + len <=? PAGE_SIZE in
  let at_range new := if fits then (Ok tt, set_page s p (splice bs (Z.to_nat off) new))
                      else (Err (code_error EINVAL), s) in
  page_read_raw p off len s =
    Done (if fits then Ok (take (Z.to_nat len) (drop (Z.to_nat off) bs)) else Err (code_error EINVAL), s) ∧
  page_write_raw p src off s = Done (at_range src) ∧
  fill_zero_raw p off len s = Done (at_range (replicate (Z.to_nat len) 0)) ∧
  (∃ o s', copy_from_user_slice_raw p r off len s = Done (o, s') ∧ mapped s' = mapped s ∧
     match snd o with
     | Ok _ => fits = true ∧ ulength (fst o) = ulength r - len ∧
         pages s' = <[p := splice bs (Z.to_nat off) (copy_from_user (ust (us s)) (uptr r) len).1.1]> (pages s)
     | Err e => fst o = r ∧ ((e = EINVAL ∧ fits = false ∧ s' = s) ∨
         (e = EFAULT ∧ ∃ new, Z.of_nat (length new) = len ∧
            pages s' = <[p := splice bs (Z.to_nat off) new]> (pages s)))
     end) ∧
  (fits = true → ∀ i : nat, splice bs (Z.to_nat off) src !! i =
     if decide (off ≤ Z.of_nat i < off + len) then src !! (i - Z.to_nat off)%nat else bs !! i).
Proof.
  intros fits at_range. subst len. split_and!.
  - by apply page_read_ok.
  - by apply page_write_ok.
  - by apply fill_zero_ok.
  - destruct Hr as [Hup Hul].
    destruct (copy_from_user_ok p off (Z.of_nat (length src)) bs s r) as (o & s' & Hd & Hm & Ho); [done..|].
    exists o, s'. split_and!; [done..|]. unfold fits. destruct (snd o) as [[]|e].
    + destruct Ho as (H1 & H2 & H3 & H4). split_and!; [by apply Z.leb_le|done..].
    + destruct Ho as (H1 & [(H2 & H3 & H4)|H2]); [|auto]. split; [done|]. left.
      split_and!; [done|by apply Z.leb_gt|done].
  - intros Hf i. apply Z.leb_le in Hf. rewrite splice_lookup by (unfold PAGE_SIZE in *; usize).
    do 2 case_decide; done || usize.
Qed.

Lemma page_accesses_bounded_witness :
  let US : UserSpace unit := {|
    copy_from_user u a n := ((replicate (Z.to_nat n) 7, 0), tt);
    copy_to_user u a bs := (0, tt);
    strncpy_from_user u a n := (([], 0), tt)
  |} in
  let bs := replicate 4096 0 in
  let s := MkPState {[ 1 := bs ]} [] (MkUState tt []) in
  page_write_raw 1 [5; 6] 4094 s =
    Done (if 4094 + 2 <=? PAGE_SIZE then (Ok tt, set_page s 1 (splice bs (Z.to_nat 4094) [5; 6]))
          else (Err (code_error EINVAL), s)).
Proof.
  intros US bs s.
  assert (UserSpaceSpec unit) as USs.
  { split; simpl; intros; [rewrite length_replicate; lia|lia|lia]. }
  assert (Z.of_nat (length bs) = PAGE_SIZE) as Hbs by reflexivity.
  assert (pages s !! 1 = Some bs) as Hs by reflexivity.
  clearbody bs.
  refine (proj1 (proj2 (@page_accesses_bounded unit US USs 1 4094 2 [5; 6] bs (slice_new 0 8) s Hs Hbs _ _ eq_refl _))).
  - usize.
  - usize.
  - simpl. split; usize.
Defined.

(** ** Alignment *)

(** Clearing the low bits of a [usize]. *)
Lemma land_mask a k : is_usize a → 0 ≤ k ≤ 64 → Z.land a (wrap 64 (Z.lnot (2 ^ k - 1))) = a / 2 ^ k * 2 ^ k.
Proof.
  intros Ha Hk. unfold wrap. rewrite <- Z.land_ones by lia.
  replace (2 ^ k - 1) with (Z.ones k) by (rewrite Z.ones_equiv; lia).
  rewrite (Z.land_comm (Z.lnot _)), Z.land_assoc, Z.land_ones by lia.
  rewrite Z.mod_small by usize. rewrite <- Z.ldiff_land, Z.ldiff_ones_r by lia.
  by rewrite Z.shiftl_mul_pow2, Z.shiftr_div_pow2 by lia.
Qed.

(** The next multiple at or above, when it can be computed. *)
Definition aligned_up (addr n : Z) (o : exec Z) : Prop :=
  if addr + (n - 1) <=? USIZE_MAX then ∃ r, o = Done r ∧ (n | r) ∧ addr ≤ r < addr + n else o = Panic.

Lemma align_up_ok a k : is_usize a → 0 ≤ k < 64 →
  aligned_up a (2 ^ k) match uadd a (2 ^ k - 1) with
    | Done b => Done (Z.land b (wrap 64 (Z.lnot (2 ^ k - 1)))) | Panic => Panic | UB => UB end.
Proof.
  intros Ha Hk. unfold aligned_up, uadd, checked_add. assert (0 < 2 ^ k) by (apply Z.pow_pos_nonneg; lia).
  destruct (Z.leb_spec (a + (2 ^ k - 1)) USIZE_MAX) as [Hle|Hgt]; [|done].
  eexists. split; [done|]. rewrite land_mask by usize. split; [by eexists|].
  pose proof (Z.div_mod (a + (2 ^ k - 1)) (2 ^ k) ltac:(lia)).
  pose proof (Z.mod_pos_bound (a + (2 ^ k - 1)) (2 ^ k) ltac:(lia)). lia.
Qed.

(** Page alignment is exact. [page_align] and [__page_align] return the least multiple
    of the page size at or above the address, and panic exactly when the addition
    overflows; [__page_align_down] the greatest multiple at or below; without emulation
    the emulated page size is the real one; a shift that does not fit is a panic. *)
Theorem page_align_exact (addr : Z) (compat : option Z) (Haddr : is_usize addr) :
  aligned_up addr PAGE_SIZE (page_align addr) ∧
  __page_align None addr = page_align addr ∧
  match __page_size compat with
  | Done n => (∃ k, 0 ≤ k < 64 ∧ n = 2 ^ k) ∧ aligned_up addr n (__page_align compat addr) ∧
      ∃ r, __page_align_down compat addr = Done r ∧ (n | r) ∧ r ≤ addr < r + n
  | Panic => ∃ k, compat = Some k ∧ ¬ 0 ≤ k < 64
  | UB => False
  end.
Proof.
  split; [exact (align_up_ok addr 12 Haddr ltac:(lia))|]. split; [reflexivity|].
  assert (∀ k, 0 ≤ k < 64 → __page_size compat = Done (2 ^ k) →
    (∃ k', 0 ≤ k' < 64 ∧ 2 ^ k = 2 ^ k') ∧ aligned_up addr (2 ^ k) (__page_align compat addr) ∧
    ∃ r, __page_align_down compat addr = Done r ∧ (2 ^ k | r) ∧ r ≤ addr < r + 2 ^ k) as Hok.
  { intros k Hk Hs. split_and!; [eauto| |].
    - unfold __page_align. rewrite Hs. by apply align_up_ok.
    - unfold __page_align_down, __page_mask. rewrite Hs. eexists. split; [done|].
      assert (0 < 2 ^ k) by (apply Z.pow_pos_nonneg; lia). rewrite land_mask by (done || lia).
      split; [by eexists|]. pose proof (Z.div_mod addr (2 ^ k) ltac:(lia)).
      pose proof (Z.mod_pos_bound addr (2 ^ k) ltac:(lia)). lia. }
  destruct compat as [k|]; [|exact (Hok 12 ltac:(lia) eq_refl)].
  unfold __page_size, __page_shift in *. destruct (Z.leb_spec 0 k), (Z.leb_spec k USIZE_MAX); simpl in *;
    try (exists k; split; [done|usize]).
  destruct (Z.ltb_spec k 64); [|exists k; split; [done|lia]].
  rewrite Z.shiftl_1_l in *. by apply Hok.
Qed.

Lemma page_align_exact_witness :
  aligned_up 5000 PAGE_SIZE (page_align 5000) ∧ __page_align None 5000 = page_align 5000 ∧
  page_align 5000 = Done 8192 ∧ __page_align (Some 14) 5000 = Done 16384.
Proof.
  destruct (page_align_exact 5000 (Some 14)) as (H1 & H2 & _); [usize|]. split_and!; done.
Defined.

(** [strncpy_from_user] fills at most the smaller of the slice and the buffer, keeps
    the rest of the buffer, returns a length within both, and turns a negative result
    of the C routine into the error that it encodes. *)
Theorem strncpy_bounded {U} `{UserSpaceSpec U} (r : UserSlice) (buf : list Z) (s : UState U)
    (Hr : is_usize (ulength r)) (Hbuf : Z.of_nat (length buf) ≤ ISIZE_MAX) :
  ∃ buf' o s', strncpy r buf s = Done ((buf', o), s') ∧ length buf' = length buf ∧
    (∃ m, Z.of_nat m ≤ Z.min (ulength r) (Z.of_nat (length buf)) ∧ drop m buf' = drop m buf) ∧
    match o with
    | Ok n => 0 ≤ n ≤ Z.min (ulength r) (Z.of_nat (length buf))
    | Err e => to_errno e = (strncpy_from_user (ust s) (uptr r) (Z.min (ulength r) (Z.of_nat (length buf)))).1.2
    end.
Proof.
  assert (sext 64 (Z.min (ulength r) (Z.of_nat (length buf))) = Z.min (ulength r) (Z.of_nat (length buf))) as Hmax.
  { apply sext_id; usize. }
  set (max := Z.min (ulength r) (Z.of_nat (length buf))) in *.
  assert (0 ≤ max) as Hm0 by (unfold max; usize).
  pose proof (strncpy_len (ust s) (uptr r) max Hm0) as Hl. pose proof (strncpy_res (ust s) (uptr r) max Hm0) as Hres.
  unfold strncpy. fold max. rewrite Hmax. unfold mbind, M_bind, mret, M_ret, get, put. simpl in *.
  destruct (strncpy_from_user (ust s) (uptr r) max) as [[bs res] u]. simpl in *.
  assert (length (bs ++ drop (length bs) buf) = length buf) as Hlen.
  { rewrite length_app, length_drop. unfold max in Hl. lia. }
  assert (drop (length bs) (bs ++ drop (length bs) buf) = drop (length bs) buf) as Hd by apply drop_app_length.
  destruct (Z.leb_spec 0 res) as [Hr0|Hr0].
  - eexists _, (Ok res), _. split_and!; [done..|eauto|lia|lia].
  - eexists _, (Err _), _. split_and!; [done..|eauto|].
    rewrite sext_id by lia. unfold from_errno, MAX_ERRNO. rewrite Z.geb_leb.
    rewrite (proj2 (Z.ltb_ge _ _)), (proj2 (Z.leb_gt _ _)) by lia. done.
Qed.

Lemma strncpy_bounded_witness :
  let US : UserSpace unit := {|
    copy_from_user u a n := ((replicate (Z.to_nat n) 7, 0), tt);
    copy_to_user u a bs := (0, tt);
    strncpy_from_user u a n := (([], -14), tt)
  |} in
  ∃ buf' o s', strncpy (slice_new 4096 9) [1; 2; 3] (MkUState tt []) = Done ((buf', o), s') ∧
    length buf' = 3%nat ∧ (∃ m, Z.of_nat m ≤ 3 ∧ drop m buf' = drop m [1; 2; 3]) ∧
    match o with Ok n => 0 ≤ n ≤ 3 | Err e => to_errno e = -14 end.
Proof.
  intros US.
  assert (UserSpaceSpec unit) as USs.
  { split; simpl; intros; [rewrite length_replicate; lia|lia|lia]. }
  apply (@strncpy_bounded unit US USs (slice_new 4096 9) [1; 2; 3] (MkUState tt [])).
  - simpl. usize.
  - simpl. usize.
Defined.
