(* ===== verification/BlockMq.v ===== *)
(** * The block layer ([rust/src/block/mq/], and [ARef] of [rust/src/types.rs])

    Requests with their reference count, the writer for fixed buffers, and the
    builder of disks. The C side is a parameter: the disks that exist are state, and
    what the C routines return is an argument. *)

From S2P Require Import Prelude Errors Str.

(** ** [AlwaysRefCounted] and [ARef] *)

(** The trait, for objects in the state [S]. *)
Class AlwaysRefCounted (S : Type) := { inc_ref : M S unit; dec_ref : M S unit }.

Section ARef.
Context {S : Type} {RC : AlwaysRefCounted S}.

(** The pointer is left out: all references are to the object of [S]. *)
Definition rq_aref_clone : M S unit := inc_ref.
Definition aref_from : M S unit := inc_ref.
Definition rq_aref_drop : M S unit := dec_ref.
End ARef.

(** ** Requests *)

Inductive RqCall := CStart | CEnd (status : Z).

(** The private data of a request, and the calls made on it. *)
Record Rq := MkRq { rq_refcount : Z; rq_calls : list RqCall }.

Definition BLK_STS_OK : Z := 0.

Definition store_refcount (n : Z) : M Rq unit := modify (λ s, MkRq n (rq_calls s)).
Definition rq_call (c : RqCall) : M Rq unit := modify (λ s, MkRq (rq_refcount s) (rq_calls s ++ [c])).

(** [fetch_update]: one atomic step. *)
Definition atomic_relaxed_op_return (op : Z → exec Z) : M Rq Z :=
  s ← get;
  new ← lift (op (rq_refcount s));
  _ ← store_refcount new;
  lift (op (rq_refcount s)).

Definition atomic_relaxed_op_unless (op : Z → exec Z) (pred : Z) : M Rq bool :=
  s ← get;
  if rq_refcount s =? pred then mret false
  else new ← lift (op (rq_refcount s)); _ ← store_refcount new; mret true.

Section Requests.
(** [CONFIG_DEBUG_MISC] *)
Context (debug : bool).

Definition rq_inc_ref : M Rq unit :=
  updated ← atomic_relaxed_op_unless (λ x, uadd x 1) 0;
  if debug && negb updated then panic else mret tt.

Definition rq_dec_ref : M Rq unit :=
  new_refcount ← atomic_relaxed_op_return (λ x, usub x 1);
  if debug && (new_refcount =? 0) then panic else mret tt.

#[export] Instance Request_refcounted : AlwaysRefCounted Rq := {| inc_ref := rq_inc_ref; dec_ref := rq_dec_ref |}.

(** [compare_exchange(2, 0)]; on success the reference is forgotten. *)
Definition try_set_end : M Rq bool :=
  s ← get;
  if rq_refcount s =? 2 then _ ← store_refcount 0; mret true else mret false.

Definition start_unchecked : M Rq unit := rq_call CStart.
Definition end_request : M Rq unit := rq_call (CEnd BLK_STS_OK).

(** [false]: the reference is given back. *)
Definition end_ok : M Rq bool :=
  ok ← try_set_end;
  if ok : bool then _ ← end_request; mret true else mret false.

Definition init_request_callback : M Rq Z := _ ← store_refcount 0; mret (from_result (λ _, Ok 0)).

(** Up to the call of the driver. *)
Definition queue_begin : M Rq unit := _ ← store_refcount 2; start_unchecked.

(** [queue_rq]: the driver, which owns one reference; [to_blk_status] is C code. *)
Definition queue_rq_callback (to_blk_status : Error → Z) (queue_rq : M Rq (result Error unit)) : M Rq Z :=
  _ ← queue_begin;
  ret ← queue_rq;
  match ret with Err e => mret (to_blk_status e) | Ok _ => mret BLK_STS_OK end.

(** *** Interleavings *)

(** Who owns the request: the block layer, the driver, or a thread of the driver
    between the two steps of [end_ok]. *)
Inductive owner := Block | Driver | Ending.

Record Life := MkLife { who : owner; arefs : nat }.

(** [RReject]: the driver's [queue_rq] returns an error. *)
Inductive RqOp := RQueue | RClone | RDrop | RTryEnd | REnd | RReject.

(** One atomic step; a step that cannot happen is skipped. *)
Definition rq_step (l : Life) (op : RqOp) : M Rq (Life * option bool) :=
  match op, who l, arefs l with
  | RQueue, Block, n => _ ← queue_begin; mret (MkLife Driver (S n), None)
  | RClone, w, S n => _ ← rq_aref_clone; mret (MkLife w (S (S n)), None)
  | RDrop, w, S n => _ ← rq_aref_drop; mret (MkLife w n, None)
  | RTryEnd, w, S n =>
      ok ← try_set_end;
      mret (if ok : bool then MkLife Ending n else l, Some ok)
  | REnd, Ending, n => _ ← end_request; mret (MkLife Block n, None)
  | RReject, Driver, n => mret (MkLife Block n, None)
  | _, _, _ => mret (l, None)
  end.

Fixpoint rq_run (l : Life) (ops : list RqOp) : M Rq (Life * list (option bool)) :=
  match ops with
  | [] => mret (l, [])
  | op :: ops =>
      '(l, o) ← rq_step l op;
      '(l, os) ← rq_run l ops;
      mret (l, o :: os)
  end.
End Requests.

(** ** [RawWriter] *)

Record RawWriter := MkRawWriter { rbuffer : list Z; rpos : Z }.

(** [from_raw_parts] and [new]: the last byte becomes zero. *)
Definition raw_writer_new (buffer : list Z) : result Error RawWriter :=
  match last buffer with
  | None => Err (code_error EINVAL)
  | Some _ => Ok (MkRawWriter (<[(length buffer - 1)%nat := 0]> buffer) 0)
  end.

(** The slice of the buffer that is replaced is checked by the language. *)
Definition raw_writer_write_str (w : RawWriter) (bytes : list Z) : exec (RawWriter * result FmtError unit) :=
  let len := Z.of_nat (length bytes) in
  match uadd (rpos w) len, usub (Z.of_nat (length (rbuffer w))) 1 with
  | Done new_pos, Done last =>
      if last <? new_pos then Done (w, Err MkFmtError)
      else if (rpos w <=? new_pos) && (new_pos <=? Z.of_nat (length (rbuffer w))) then
        Done (MkRawWriter (take (Z.to_nat (rpos w)) (rbuffer w) ++ bytes ++
                           drop (Z.to_nat new_pos) (rbuffer w)) new_pos, Ok tt)
      else Panic
  | _, _ => Panic
  end.

(** [write_fmt]: stops at the first error. *)
Fixpoint raw_writer_chunks (w : RawWriter) (cs : list (list Z)) : exec (RawWriter * result FmtError unit) :=
  match cs with
  | [] => Done (w, Ok tt)
  | c :: cs =>
      match raw_writer_write_str w c with
      | Done (w, Ok _) => raw_writer_chunks w cs
      | o => o
      end
  end.

Definition raw_writer_write_fmt (w : RawWriter) (a : Arguments) : exec (RawWriter * result FmtError unit) :=
  match raw_writer_chunks w (chunks a) with
  | Done (w, Ok _) => Done (w, if aok a then Ok tt else Err MkFmtError)
  | o => o
  end.

(** ** Disks *)

Definition DISK_NAME_LEN : nat := 32.

Record GenDiskBuilder := MkBuilder {
  b_rotational : bool;
  b_logical_block_size : Z;
  b_physical_block_size : Z;
  b_capacity_sectors : Z
}.

Definition builder_new : GenDiskBuilder := MkBuilder false 4096 4096 0.

Definition rotational (b : GenDiskBuilder) (r : bool) : GenDiskBuilder :=
  MkBuilder r (b_logical_block_size b) (b_physical_block_size b) (b_capacity_sectors b).

Definition is_power_of_two (n : Z) : bool := (0 <? n) && (Z.land n (n - 1) =? 0).

Definition validate_block_size (size : Z) : result Error unit :=
  if negb ((512 <=? size) && (size <=? 4096)) || negb (is_power_of_two size) then Err (code_error EINVAL)
  else Ok tt.

Definition logical_block_size (b : GenDiskBuilder) (block_size : Z) : result Error GenDiskBuilder :=
  match validate_block_size block_size with
  | Ok _ => Ok (MkBuilder (b_rotational b) block_size (b_physical_block_size b) (b_capacity_sectors b))
  | Err e => Err e
  end.

Definition physical_block_size (b : GenDiskBuilder) (block_size : Z) : result Error GenDiskBuilder :=
  match validate_block_size block_size with
  | Ok _ => Ok (MkBuilder (b_rotational b) (b_logical_block_size b) block_size (b_capacity_sectors b))
  | Err e => Err e
  end.

Definition capacity_sectors (b : GenDiskBuilder) (capacity : Z) : GenDiskBuilder :=
  MkBuilder (b_rotational b) (b_logical_block_size b) (b_physical_block_size b) capacity.

(** A disk of the C side. *)
Record Disk := MkDisk { d_fops : bool; d_name : list Z; d_capacity : Z; d_added : bool }.

Section GenDisk.
Context {EP : ErrPtrOps}.
Abbreviation disks := (gmap Z Disk).
Local Abbreviation DM := (M disks).

(** [rs_blk_mq_alloc_disk_with_limits]: a pointer, null or an error pointer; [name0] is
    what the buffer of the name holds at first. *)
Context (alloc_disk : disks → GenDiskBuilder → Z) (name0 : list Z).
(** [device_add_disk]: zero or a negative error. *)
Context (device_add_disk : disks → Z → Z).

Definition on_disk (p : Z) (f : Disk → Disk) : DM unit :=
  s ← get; match s !! p with Some d => put (<[p := f d]> s) | None => ub end.

(** What the writer leaves in the buffer of the name. *)
Definition write_name (p : Z) (w : RawWriter) : DM unit :=
  on_disk p (λ d, MkDisk (d_fops d) (rbuffer w) (d_capacity d) (d_added d)).

Definition gen_disk_build (b : GenDiskBuilder) (name : Arguments) : DM (result Error Z) :=
  s ← get;
  gendisk ←? mret (from_err_ptr (alloc_disk s b));
  if is_null gendisk then mret (Err (code_error ENOMEM))
  else
    _ ← put (<[gendisk := MkDisk false name0 0 false]> s);
    _ ← on_disk gendisk (λ d, MkDisk true (d_name d) (d_capacity d) (d_added d));
    s ← get;
    match raw_writer_new (default [] (d_name <$> s !! gendisk)) with
    | Err e => mret (Err e)
    | Ok w =>
        _ ← write_name gendisk w;
        '(w, r) ← lift (raw_writer_write_fmt w name);
        _ ← write_name gendisk w;
        match r with
        | Err e => mret (Err (into_error e))
        | Ok _ =>
            '(w, r) ← lift (raw_writer_write_str w [0]);
            _ ← write_name gendisk w;
            match r with
            | Err e => mret (Err (into_error e))
            | Ok _ =>
                _ ← on_disk gendisk (λ d, MkDisk (d_fops d) (d_name d) (b_capacity_sectors b) (d_added d));
                s ← get;
                _ ←? mret (to_result (device_add_disk s gendisk));
                _ ← on_disk gendisk (λ d, MkDisk (d_fops d) (d_name d) (d_capacity d) true);
                mret (Ok gendisk)
            end
        end
    end.

(** [del_gendisk] *)
Definition gen_disk_drop (p : Z) : DM unit :=
  on_disk p (λ d, MkDisk (d_fops d) (d_name d) (d_capacity d) false).
End GenDisk.

(** ** Specification of requests *)

(** The life of a request without a counter: ending succeeds for the only reference. *)
Definition life_spec (l : Life) (op : RqOp) : Life * option bool :=
  match op, who l, arefs l with
  | RQueue, Block, n => (MkLife Driver (S n), None)
  | RClone, w, S n => (MkLife w (S (S n)), None)
  | RDrop, w, S n => (MkLife w n, None)
  | RTryEnd, w, S n => if decide (n = 0%nat) then (MkLife Ending 0, Some true) else (l, Some false)
  | REnd, Ending, n => (MkLife Block n, None)
  | RReject, Driver, n => (MkLife Block n, None)
  | _, _, _ => (l, None)
  end.

Fixpoint life_run (l : Life) (ops : list RqOp) : Life * list (option bool) :=
  match ops with
  | [] => (l, [])
  | op :: ops =>
      let '(l, o) := life_spec l op in
      let '(l, os) := life_run l ops in (l, o :: os)
  end.

(** A driver that returns an error has dropped its references. *)
Fixpoint disciplined (l : Life) (ops : list RqOp) : bool :=
  match ops with
  | [] => true
  | op :: ops =>
      match op, who l, arefs l with RReject, Driver, S _ => false | _, _, _ => disciplined (life_spec l op).1 ops end
  end.

(** Every end belongs to a start of its own. *)
Fixpoint protocol (started : bool) (cs : list RqCall) : bool :=
  match cs with
  | [] => true
  | CStart :: cs => protocol true cs
  | CEnd _ :: cs => started && protocol false cs
  end.

(** Whether the last call is a start. *)
Definition in_flight (cs : list RqCall) : bool := if last cs is Some CStart then true else false.

Lemma protocol_start cs : ∀ b, protocol b cs = true → protocol b (cs ++ [CStart]) = true.
Proof.
  induction cs as [|[|st] cs IH]; intros b H; simpl in *; [done|auto|].
  apply andb_true_iff in H as [-> H]. simpl. by apply IH.
Qed.

Lemma protocol_end st cs : ∀ b, protocol b cs = true → (cs = [] → b = true) → (cs ≠ [] → in_flight cs = true) →
  protocol b (cs ++ [CEnd st]) = true.
Proof.
  induction cs as [|c cs IH]; intros b H Hb Hi; simpl in *; [by rewrite Hb|].
  specialize (Hi ltac:(done)). destruct c as [|st'].
  - apply IH; [done|done|]. intros Hn. unfold in_flight in *. destruct cs; [done|]. exact Hi.
  - apply andb_true_iff in H as [-> H]. simpl. apply IH; [done| |].
    + intros ->. unfold in_flight in Hi. simpl in Hi. done.
    + intros Hn. unfold in_flight in *. destruct cs; [done|]. exact Hi.
Qed.

Section RequestSpecs.
Context (debug : bool).

(** The documented states of the counter. *)
Definition rq_inv (rejected : bool) (l : Life) (s : Rq) : Prop :=
  match who l with
  | Driver => rq_refcount s = Z.of_nat (arefs l) + 1
  | Ending => rq_refcount s = 0 ∧ arefs l = 0%nat
  | Block => arefs l = 0%nat ∧ (rq_refcount s = 0 ∨ rejected = true ∧ rq_refcount s = 1)
  end ∧ protocol false (rq_calls s) = true ∧ (who l ≠ Block → in_flight (rq_calls s) = true).

Lemma wp_inc s Q : 0 < rq_refcount s < USIZE_MAX →
  Q tt (MkRq (rq_refcount s + 1) (rq_calls s)) → wp (rq_inc_ref debug) Q s.
Proof.
  intros Hs HQ. unfold rq_inc_ref, atomic_relaxed_op_unless. apply wp_bind, wp_bind, wp_get.
  rewrite (proj2 (Z.eqb_neq _ _)) by lia. eapply wp_bind, wp_lift; [apply uadd_ok; lia|].
  apply wp_bind, wp_modify, wp_ret. rewrite andb_false_r. by apply wp_ret.
Qed.

Lemma wp_dec s Q : 1 < rq_refcount s →
  Q tt (MkRq (rq_refcount s - 1) (rq_calls s)) → wp (rq_dec_ref debug) Q s.
Proof.
  intros Hs HQ. unfold rq_dec_ref, atomic_relaxed_op_return. apply wp_bind, wp_bind, wp_get.
  eapply wp_bind, wp_lift; [apply usub_ok; lia|]. apply wp_bind, wp_modify.
  eapply wp_lift; [apply usub_ok; lia|]. rewrite (proj2 (Z.eqb_neq (_ - 1) _)) by lia.
  rewrite andb_false_r. by apply wp_ret.
Qed.

Lemma rq_step_ok rej l op s :
  rq_inv rej l s → Z.of_nat (arefs l) + 2 < USIZE_MAX → disciplined l [op] = true →
  wp (rq_step debug l op) (λ o s', o = life_spec l op ∧
    rq_inv (rej || if op is RReject then true else false) (fst o) s') s.
Proof.
  intros Hi Hb Hd. destruct l as [w n], s as [rc cs]. unfold rq_inv in *. simpl in *.
  destruct Hi as (Hc & Hp & Hf).
  destruct op, w, n; simpl in *; try (by apply wp_ret; rewrite ?orb_false_r); try lia; try (by destruct Hc).
  all: rewrite ?orb_false_r, ?orb_true_r.
  - apply wp_bind. unfold queue_begin, start_unchecked. apply wp_bind, wp_modify, wp_modify, wp_ret.
    split_and!; [done|done|by apply protocol_start|]. intros _. unfold in_flight. simpl. by rewrite last_snoc.
  - apply wp_bind, wp_inc; [simpl; lia|]. apply wp_ret. split_and!; [done|simpl; lia|done|done].
  - apply wp_bind, wp_dec; [simpl; lia|]. apply wp_ret. split_and!; [done|simpl; lia|done|done].
  - apply wp_bind. unfold try_set_end. apply wp_bind, wp_get. simpl.
    destruct (Z.eqb_spec rc 2) as [->|Hne].
    + assert (n = 0%nat) as -> by lia. apply wp_bind, wp_modify, wp_ret, wp_ret.
      rewrite decide_True by done. simpl. split_and!; try done. intros _. by apply Hf.
    + apply wp_ret, wp_ret. rewrite decide_False by lia. simpl. by split_and!.
  - destruct Hc as [-> _]. apply wp_bind, wp_modify, wp_ret. simpl. split_and!; [done|done|by left| |done].
    assert (in_flight cs = true) as Hfl by auto. apply protocol_end; [done| |done].
    intros ->. done.
  - apply wp_ret. simpl. split_and!; [done|naive_solver..].
  - apply wp_ret. simpl. split_and!; [done|done| |done|done]. right. split; [done|lia].
Qed.

Lemma life_arefs l op : (arefs (life_spec l op).1 ≤ S (arefs l))%nat.
Proof. destruct l as [w n], op, w, n; simpl; try lia; case_decide; simpl; lia. Qed.

Lemma disciplined_cons l op ops : disciplined l (op :: ops) = true →
  disciplined l [op] = true ∧ disciplined (life_spec l op).1 ops = true.
Proof. simpl. by destruct op, (who l), (arefs l). Qed.

Lemma rq_run_ok ops : ∀ rej l s, rq_inv rej l s →
  Z.of_nat (arefs l) + Z.of_nat (length ops) + 2 < USIZE_MAX → disciplined l ops = true →
  wp (rq_run debug l ops) (λ o s', o = life_run l ops ∧
    rq_inv (rej || existsb (λ op, if op is RReject then true else false) ops) (fst o) s') s.
Proof.
  induction ops as [|op ops IH]; intros rej l s Hi Hb Hd; cbn [rq_run life_run existsb].
  - apply wp_ret. by rewrite orb_false_r.
  - apply disciplined_cons in Hd as [Hd1 Hd2]. pose proof (life_arefs l op) as Hle. simpl in Hb.
    apply wp_bind. eapply wp_mono; [apply rq_step_ok; [done|lia|done]|]. intros [l' o] s' [E Hi'].
    simpl in Hi'. rewrite <- E in *. simpl in *.
    apply wp_bind. eapply wp_mono; [apply IH; [done|lia|done]|]. intros [l2 os] s2 [E2 Hi2].
    apply wp_ret. rewrite <- E2. by rewrite orb_assoc.
Qed.
End RequestSpecs.

(** Requests are handed back exactly once and never while a reference is left. For
    every interleaving of the reference operations of a driver (which drops its
    references before it rejects a request), no step panics, also with
    [CONFIG_DEBUG_MISC]; ending succeeds exactly for the only reference; the counter is
    one more than the number of references while the driver owns the request, and zero
    while the block layer does, one if the driver rejected it; and every end of a
    request follows a start of its own. *)
Theorem request_lifecycle (debug : bool) (ops : list RqOp)
    (Hlen : Z.of_nat (length ops) < 2 ^ 63) (Hd : disciplined (MkLife Block 0) ops = true) :
  ∃ l os s, life_run (MkLife Block 0) ops = (l, os) ∧
    rq_run debug (MkLife Block 0) ops (MkRq 0 []) = Done ((l, os), s) ∧
    (who l = Driver → rq_refcount s = Z.of_nat (arefs l) + 1) ∧
    (who l = Block → arefs l = 0%nat ∧ (rq_refcount s = 0 ∨ RReject ∈ ops ∧ rq_refcount s = 1)) ∧
    (who l = Ending → arefs l = 0%nat ∧ rq_refcount s = 0) ∧
    protocol false (rq_calls s) = true.
Proof.
  destruct (rq_run_ok debug ops false (MkLife Block 0) (MkRq 0 [])) as ([l os] & s & Hr & E & Hi & Hp & _).
  - unfold rq_inv. simpl. split_and!; [done|by left|done|done].
  - simpl. usize.
  - done.
  - exists l, os, s. split_and!; [done|done| | | |done]; intros Hw; simpl in Hi; rewrite Hw in Hi.
    + done.
    + destruct Hi as [H1 [H2|[H2 H3]]]; [by auto|]. split; [done|]. right. split; [|done].
      apply existsb_exists in H2 as (op & Hin & H2). apply list_elem_of_In. by destruct op.
    + by destruct Hi.
Qed.

Lemma request_lifecycle_witness :
  let ops := [RQueue; RClone; RTryEnd; RDrop; RTryEnd; REnd; RQueue; RDrop; RReject] in
  ∃ l os s, life_run (MkLife Block 0) ops = (l, os) ∧
    rq_run true (MkLife Block 0) ops (MkRq 0 []) = Done ((l, os), s) ∧
    (who l = Driver → rq_refcount s = Z.of_nat (arefs l) + 1) ∧
    (who l = Block → arefs l = 0%nat ∧ (rq_refcount s = 0 ∨ RReject ∈ ops ∧ rq_refcount s = 1)) ∧
    (who l = Ending → arefs l = 0%nat ∧ rq_refcount s = 0) ∧
    protocol false (rq_calls s) = true.
Proof. intros ops. apply (request_lifecycle true ops); [simpl; lia|reflexivity]. Defined.

(** A driver that keeps a reference and returns an error: when the block layer queues the
    request again, the stored count no longer covers the old reference, and the request
    is ended while it is still held. *)
Example rejected_reference_outlives :
  rq_run false (MkLife Block 0) [RQueue; RReject; RQueue; RTryEnd] (MkRq 0 []) =
    Done ((MkLife Ending 1, [None; None; None; Some true]), MkRq 0 [CStart; CStart]).
Proof. reflexivity. Qed.

(** After a rejected request the block layer owns it, with a count of one. *)
Example rejected_count :
  rq_run false (MkLife Block 0) [RQueue; RDrop; RReject] (MkRq 0 []) =
    Done ((MkLife Block 0, [None; None; None]), MkRq 1 [CStart]).
Proof. reflexivity. Qed.

(** ** The raw writer *)

(** The buffer of [n] bytes ends with a zero and starts with what was written. *)
Definition rw_inv (n : nat) (w : RawWriter) (written : list Z) : Prop :=
  length (rbuffer w) = n ∧ rpos w = Z.of_nat (length written) ∧ (length written + 1 ≤ n)%nat ∧
  take (length written) (rbuffer w) = written ∧ rbuffer w !! (n - 1)%nat = Some 0.

Definition small (c : list Z) : Prop := Z.of_nat (length c) ≤ ISIZE_MAX.

Lemma raw_writer_new_ok buf : buf ≠ [] → ∃ w, raw_writer_new buf = Ok w ∧ rw_inv (length buf) w [].
Proof.
  intros Hb. unfold raw_writer_new. destruct (last buf) eqn:E; [|by apply last_None in E].
  eexists. split; [done|]. split_and!; simpl.
  - by rewrite length_insert.
  - done.
  - destruct buf; [done|simpl; lia].
  - done.
  - apply list_lookup_insert_eq. destruct buf; [done|simpl; lia].
Qed.

Lemma raw_write_str_ok n w t c : rw_inv n w t → Z.of_nat n ≤ ISIZE_MAX → small c →
  ∃ w' r, raw_writer_write_str w c = Done (w', r) ∧
    if decide (length t + length c + 1 ≤ n)%nat then r = Ok tt ∧ rw_inv n w' (t ++ c)
    else r = Err MkFmtError ∧ w' = w.
Proof.
  intros (Hl & Hp & Ht & Htk & Hz) Hn Hc. unfold raw_writer_write_str, small in *. rewrite Hp, Hl.
  rewrite uadd_ok by usize. rewrite usub_ok by lia.
  destruct (Z.ltb_spec (Z.of_nat n - 1) (Z.of_nat (length t) + Z.of_nat (length c))) as [Hlt|Hge].
  { eexists _, _. split; [done|]. by rewrite decide_False by lia. }
  rewrite !(proj2 (Z.leb_le _ _)) by lia. eexists _, _. split; [done|]. rewrite decide_True by lia. split; [done|].
  rewrite Nat2Z.id. replace (Z.to_nat (Z.of_nat (length t) + Z.of_nat (length c))) with (length t + length c)%nat by lia.
  rewrite Htk. split_and!; simpl.
  - rewrite !length_app, length_drop. lia.
  - rewrite length_app. lia.
  - rewrite length_app. lia.
  - rewrite app_assoc. by apply take_app_length.
  - rewrite app_assoc, lookup_app_r, length_app, lookup_drop by (rewrite length_app; lia).
    rewrite <- Hz. f_equal. lia.
Qed.

Lemma raw_chunks_ok n cs : ∀ w t, rw_inv n w t → Z.of_nat n ≤ ISIZE_MAX → Forall small cs →
  ∃ w' r, raw_writer_chunks w cs = Done (w', r) ∧ (∃ t', rw_inv n w' t') ∧
    if decide (length t + length (concat cs) + 1 ≤ n)%nat then r = Ok tt ∧ rw_inv n w' (t ++ concat cs)
    else r = Err MkFmtError.
Proof.
  induction cs as [|c cs IH]; intros w t Hw Hn Hcs; simpl.
  - eexists _, _. split; [done|]. split; [eauto|]. rewrite app_nil_r. rewrite decide_True; [done|]. destruct Hw as (_ & _ & ? & _). lia.
  - apply Forall_cons in Hcs as [Hc Hcs]. destruct (raw_write_str_ok n w t c Hw Hn Hc) as (w1 & r1 & -> & H1).
    case_decide as Hd.
    + destruct H1 as [-> H1]. destruct (IH w1 (t ++ c) H1 Hn Hcs) as (w2 & r2 & -> & Hex & H2).
      eexists _, _. split; [done|]. split; [done|]. rewrite length_app in *.
      rewrite <- app_assoc in H2. by replace (length t + (length c + length (concat cs)) + 1)%nat with
        (length t + length c + length (concat cs) + 1)%nat by lia.
    + destruct H1 as [-> ->]. eexists _, _. split; [done|]. split; [eauto|].
      rewrite length_app, decide_False by lia. done.
Qed.

(** ** Disks *)

Lemma validate_ok size : validate_block_size size = Ok tt ↔ ∃ k, 9 ≤ k ≤ 12 ∧ size = 2 ^ k.
Proof.
  assert (∀ n, 512 ≤ n ≤ 4096 → is_power_of_two n = true → n = 512 ∨ n = 1024 ∨ n = 2048 ∨ n = 4096) as Hp.
  { assert (forallb (λ n, negb (is_power_of_two n) || (n =? 512) || (n =? 1024) || (n =? 2048) || (n =? 4096))
      (seqZ 512 3585) = true) as Hall by (vm_compute; reflexivity).
    intros n Hn Hp. assert (In n (seqZ 512 3585)) as Hin by (apply list_elem_of_In, elem_of_seqZ; lia).
    apply (proj1 (forallb_forall _ _) Hall) in Hin. cbv beta in Hin. rewrite Hp in Hin.
    rewrite !orb_true_iff, !Z.eqb_eq in Hin. destruct Hin as [[[[Hin|?]|?]|?]|?]; [done|lia..]. }
  unfold validate_block_size. split.
  - destruct (Z.leb_spec 512 size), (Z.leb_spec size 4096); simpl; try done.
    destruct (is_power_of_two size) eqn:E; simpl; [|done]. intros _.
    destruct (Hp size ltac:(lia) E) as [-> |[-> |[-> | ->]]]; [exists 9|exists 10|exists 11|exists 12]; done.
  - intros (k & Hk & ->). assert (k = 9 ∨ k = 10 ∨ k = 11 ∨ k = 12) as [-> |[-> |[-> | ->]]] by lia; done.
Qed.

Section DiskSpecs.
Context {EP : ErrPtrOps} (alloc_disk : gmap Z Disk → GenDiskBuilder → Z) (name0 : list Z)
  (device_add_disk : gmap Z Disk → Z → Z).
Hypothesis Hname0 : length name0 = DISK_NAME_LEN.
(** A pointer that is neither null nor an error is that of a new disk. *)
Hypothesis Hfresh : ∀ s b, IS_ERR (alloc_disk s b) = false → alloc_disk s b ≠ 0 → s !! alloc_disk s b = None.

Definition build_post (b : GenDiskBuilder) (name : Arguments) (s : gmap Z Disk) (r : result Error Z)
    (s' : gmap Z Disk) : Prop :=
  match r with
  | Ok p => s !! p = None ∧ ∃ nm, s' = <[p := MkDisk true nm (b_capacity_sectors b) true]> s ∧
      length nm = DISK_NAME_LEN ∧ take (S (length (text name))) nm = text name ++ [0] ∧
      (length (text name) ≤ 30)%nat ∧ aok name = true
  | Err _ => s' = s ∨ ∃ p d, s !! p = None ∧ s' = <[p := d]> s ∧ d_added d = false
  end.

Lemma wp_on_disk p f d Q (s : gmap Z Disk) : s !! p = Some d → Q tt (<[p := f d]> s) → wp (on_disk p f) Q s.
Proof. intros Hp HQ. unfold on_disk. wp_step. wp_step. rewrite Hp. by apply wp_put. Qed.

Lemma gen_disk_build_ok b name s : Forall small (chunks name) →
  wp (gen_disk_build alloc_disk name0 device_add_disk b name) (build_post b name s) s.
Proof.
  intros Hch. unfold gen_disk_build. wp_step. wp_step. apply wp_try, wp_ret. unfold from_err_ptr.
  pose proof (Hfresh s b) as Hf. destruct (IS_ERR (alloc_disk s b)); [by left|].
  set (p := alloc_disk s b) in *. unfold is_null, null. destruct (Z.eqb_spec p 0) as [|Hp0]; [apply wp_ret; by left|].
  specialize (Hf eq_refl Hp0).
  assert (∀ nm c e, build_post b name s (Err e) (<[p := MkDisk true nm c false]> s)) as Herr.
  { intros nm c e. right. eexists p, _. by split_and!. }
  apply wp_bind, wp_put, wp_bind. eapply wp_on_disk; [apply lookup_insert_eq|]. rewrite insert_insert_eq. simpl.
  wp_step. wp_step. rewrite lookup_insert_eq. simpl.
  destruct (raw_writer_new_ok name0) as (w0 & -> & Hw0); [by intros ->|].
  assert (∀ w nm (k : M (gmap Z Disk) (result Error Z)),
    wp k (build_post b name s) (<[p := MkDisk true (rbuffer w) 0 false]> s) →
    wp (_ ← write_name p w; k) (build_post b name s) (<[p := MkDisk true nm 0 false]> s)) as Hwn.
  { intros w nm k Hk. apply wp_bind. unfold write_name. eapply wp_on_disk; [apply lookup_insert_eq|].
    by rewrite insert_insert_eq. }
  apply Hwn. unfold raw_writer_write_fmt. rewrite Hname0 in Hw0.
  destruct (raw_chunks_ok DISK_NAME_LEN (chunks name) w0 [] Hw0 ltac:(unfold DISK_NAME_LEN; usize) Hch)
    as (w1 & r1 & -> & _ & H1). simpl in H1.
  destruct r1 as [[]|[]].
  2: { apply wp_bind. eapply wp_lift; [done|]. apply Hwn. by apply wp_ret. }
  apply wp_bind. eapply wp_lift; [done|]. apply Hwn. destruct (aok name) eqn:Ha; [|by apply wp_ret].
  case_decide as Hlen; [|done]. destruct H1 as [_ H1].
  destruct (raw_write_str_ok DISK_NAME_LEN w1 (concat (chunks name)) [0] H1) as (w2 & r2 & -> & H2);
    [unfold DISK_NAME_LEN; usize|unfold small; simpl; usize|].
  apply wp_bind. eapply wp_lift; [done|]. apply Hwn. destruct r2 as [[]|[]]; [|by apply wp_ret].
  case_decide as Hlen2; [|by destruct H2]. destruct H2 as [_ (Hl & _ & _ & Htk & _)].
  apply wp_bind. eapply wp_on_disk; [apply lookup_insert_eq|]. rewrite insert_insert_eq. simpl.
  wp_step. wp_step. apply wp_try, wp_ret. unfold to_result. destruct (device_add_disk _ _ <? 0); [apply Herr|].
  apply wp_bind. eapply wp_on_disk; [apply lookup_insert_eq|]. rewrite insert_insert_eq. simpl. apply wp_ret.
  split; [done|]. exists (rbuffer w2). unfold text. rewrite length_app in Htk. simpl in *.
  unfold DISK_NAME_LEN in *. split_and!; [done|done| |lia|done].
  by rewrite Nat.add_1_r in Htk.
Qed.
End DiskSpecs.

(** [GenDiskBuilder::build] is total and names the disk correctly. On success there is
    one new disk, added with the capacity asked for, whose name buffer holds the
    formatted name and a terminating zero, and the name has at most 30 bytes; every
    other disk is as before. On failure no disk was added; but a disk that had been
    allocated is still there. The block sizes of a builder are powers of two from 512
    to the page size. *)
Theorem gen_disk_build_correct {EP : ErrPtrOps} (alloc_disk : gmap Z Disk → GenDiskBuilder → Z)
    (name0 : list Z) (device_add_disk : gmap Z Disk → Z → Z) (b : GenDiskBuilder) (name : Arguments)
    (s : gmap Z Disk) (size : Z)
    (Hname0 : length name0 = DISK_NAME_LEN)
    (Hfresh : ∀ s b, IS_ERR (alloc_disk s b) = false → alloc_disk s b ≠ 0 → s !! alloc_disk s b = None)
    (Hch : Forall small (chunks name)) :
  (∃ r s', gen_disk_build alloc_disk name0 device_add_disk b name s = Done (r, s') ∧ build_post b name s r s') ∧
  ((∃ b', logical_block_size b size = Ok b') ↔ ∃ k, 9 ≤ k ≤ 12 ∧ size = 2 ^ k) ∧
  ((∃ b', physical_block_size b size = Ok b') ↔ ∃ k, 9 ≤ k ≤ 12 ∧ size = 2 ^ k).
Proof.
  split; [by apply gen_disk_build_ok|]. rewrite <- !validate_ok. unfold logical_block_size, physical_block_size.
  destruct (validate_block_size size) as [[]|e]; split; split; naive_solver.
Qed.

Lemma gen_disk_build_correct_witness :
  let alloc (s : gmap Z Disk) (b : GenDiskBuilder) := if s !! 8 is Some _ then 0 else 8 in
  let name := MkArguments [[114]; [98; 100]] true in
  (∃ r s', gen_disk_build alloc (replicate 32 7) (λ _ _, 0) builder_new name ∅ = Done (r, s') ∧
     build_post builder_new name ∅ r s').
Proof.
  intros alloc name.
  refine (proj1 (gen_disk_build_correct alloc (replicate 32 7) (λ _ _, 0) builder_new name ∅ 512 eq_refl _ _)).
  - intros s b. unfold alloc. destruct (s !! 8) eqn:E; [done|]. done.
  - repeat (apply Forall_cons_2; [unfold small; simpl; usize|]). apply Forall_nil_2.
Defined.

(** A name that does not fit: the error leaves an allocated disk that no one owns. *)
Example gen_disk_name_leak :
  gen_disk_build (λ s b, 8) (replicate 32 7) (λ _ _, 0) builder_new (MkArguments [replicate 31 65] true) ∅ =
    Done (Err (code_error EINVAL),
      {[ 8 := MkDisk true (replicate 31 65 ++ [0]) 0 false ]}).
Proof. vm_compute. reflexivity. Qed.
