(* ===== verification/Macros.v ===== *)
(** * Procedural macros ([rust/macros])

    The macro crate is compile-time code: functions from token streams to token
    streams, whose panics are build errors. This file models the token trees of
    [proc_macro], the token helpers and [parse_generics] ([helpers.rs]), [#[pin_data]]
    ([pin_data.rs]), [#[pinned_drop]] ([pinned_drop.rs]), [#[derive(Zeroable)]]
    ([zeroable.rs]), [concat_idents!] ([concat_idents.rs]) and [paste!] ([paste.rs]).
    A [quote!] is written as the tokens that [quote.rs] builds for it. *)

From Stdlib Require Import Ascii String.
From stdpp Require Import strings.
From S2P Require Import Prelude.

(** ** Token trees *)

(** The two hygiene spans the macros use, and the places of the input. *)
Inductive Span := CallSite | MixedSite | At (pos : Z).
Inductive Delimiter := Parenthesis | Brace | Bracket | NoDelim.
Inductive Spacing := Joint | Alone.

Inductive TokenTree :=
| Group (delimiter : Delimiter) (stream : list TokenTree) (span : Span)
| Ident (name : string) (span : Span)
| Punct (ch : ascii) (spacing : Spacing) (span : Span)
| Literal (text : string) (span : Span).

Abbreviation TokenStream := (list TokenTree).

#[export] Instance Span_eq_dec : EqDecision Span.
Proof. solve_decision. Defined.
#[export] Instance Delimiter_eq_dec : EqDecision Delimiter.
Proof. solve_decision. Defined.
#[export] Instance Spacing_eq_dec : EqDecision Spacing.
Proof. solve_decision. Defined.

Definition is_punct (c : ascii) (tk : TokenTree) : bool :=
  if tk is Punct d _ _ then Ascii.eqb d c else false.
Definition is_ident (s : string) (tk : TokenTree) : bool :=
  if tk is Ident i _ then String.eqb i s else false.

(** The constructors of [proc_macro] set the call-site span. *)
Definition group_new (d : Delimiter) (ts : TokenStream) : TokenTree := Group d ts CallSite.
Definition punct_new (c : ascii) (sp : Spacing) : TokenTree := Punct c sp CallSite.
Definition set_span (sp : Span) (tk : TokenTree) : TokenTree :=
  match tk with
  | Group d ts _ => Group d ts sp
  | Ident s _ => Ident s sp
  | Punct c s _ => Punct c s sp
  | Literal s _ => Literal s sp
  end.

(** What [quote!] makes of an identifier, of a punctuation and of [::]. *)
Definition qi (s : string) : TokenTree := Ident s MixedSite.
Definition qp (c : ascii) : TokenTree := punct_new c Alone.
Definition q2 : TokenStream := [punct_new ":" Joint; punct_new ":" Alone].

(** ** [helpers.rs]: reading tokens off an iterator *)

Abbreviation PM := (M TokenStream).

Definition next : PM (option TokenTree) := λ it,
  match it with
  | [] => Done (None, [])
  | tk :: it => Done (Some tk, it)
  end.

Definition try_ident : PM (option string) :=
  t ← next; mret (if t is Some (Ident i _) then Some i else None).

Definition try_literal : PM (option string) :=
  t ← next; mret (if t is Some (Literal l _) then Some l else None).

(** Operations of [str]; strings are their UTF-8 bytes. *)
Definition dquote : ascii := Ascii.ascii_of_nat 34.
Definition backslash : ascii := Ascii.ascii_of_nat 92.

Definition first_char (s : string) : option ascii := String.get 0 s.
Definition last_char (s : string) : option ascii := String.get (String.length s - 1) s.

Fixpoint contains_char (c : ascii) (s : string) : bool :=
  match s with
  | EmptyString => false
  | String d s => Ascii.eqb c d || contains_char c s
  end.

Fixpoint is_ascii (s : string) : bool :=
  match s with
  | EmptyString => true
  | String c s => (Ascii.nat_of_ascii c <? 128)%nat && is_ascii s
  end.

(** The closure of [try_string]; the slice [1..len - 1] panics on a lone quote. *)
Definition string_content (s : string) : exec (option string) :=
  if bool_decide (first_char s = Some dquote) && bool_decide (last_char s = Some dquote) then
    if (String.length s <? 2)%nat then Panic
    else
      let content := substring 1 (String.length s - 2) s in
      if contains_char backslash content then Panic else Done (Some content)
  else if String.prefix (String "r" (String dquote EmptyString)) s then Panic
  else Done None.

Definition try_string : PM (option string) :=
  l ← try_literal;
  match l with
  | Some s => lift (string_content s)
  | None => mret None
  end.

Definition expect {S A} (m : M S (option A)) : M S A :=
  o ← m; match o with Some a => mret a | None => panic end.

Definition expect_ident : PM string := expect try_ident.

Definition expect_punct : PM ascii :=
  t ← expect next;
  if t is Punct c _ _ then mret c else panic.

Definition expect_string : PM string := expect try_string.

Definition expect_string_ascii : PM string :=
  s ← expect try_string;
  if is_ascii s then mret s else panic.

Definition expect_group : PM (Delimiter * TokenStream) :=
  t ← expect next;
  if t is Group d ts _ then mret (d, ts) else panic.

Definition expect_end : PM unit :=
  t ← next; if t is Some _ then panic else mret tt.

(** ** [helpers.rs]: [parse_generics] *)

Record Generics := MkGenerics {
  decl_generics : TokenStream;
  impl_generics : TokenStream;
  ty_generics : TokenStream
}.

(** The locals of the loop. *)
Record GState := MkGState {
  gens : Generics;
  grest : TokenStream;
  nesting : nat;
  at_start : bool;
  skip_until_comma : bool
}.

Definition push_decl (tk : TokenTree) (g : Generics) : Generics :=
  MkGenerics (decl_generics g ++ [tk]) (impl_generics g) (ty_generics g).
Definition push_impl (tk : TokenTree) (g : Generics) : Generics :=
  MkGenerics (decl_generics g) (impl_generics g ++ [tk]) (ty_generics g).
Definition push_ty (tk : TokenTree) (g : Generics) : Generics :=
  MkGenerics (decl_generics g) (impl_generics g) (ty_generics g ++ [tk]).

Definition with_gens (f : Generics → Generics) (s : GState) : GState :=
  MkGState (f (gens s)) (grest s) (nesting s) (at_start s) (skip_until_comma s).
Definition push_rest (tk : TokenTree) (s : GState) : GState :=
  MkGState (gens s) (grest s ++ [tk]) (nesting s) (at_start s) (skip_until_comma s).
Definition set_nesting (n : nat) (s : GState) : GState :=
  MkGState (gens s) (grest s) n (at_start s) (skip_until_comma s).
Definition set_at_start (b : bool) (s : GState) : GState :=
  MkGState (gens s) (grest s) (nesting s) b (skip_until_comma s).
Definition set_skip (b : bool) (s : GState) : GState :=
  MkGState (gens s) (grest s) (nesting s) (at_start s) b.

(** The inner [match] at nesting 1, [const] apart. *)
Definition param_token (tk : TokenTree) (s : GState) : GState :=
  match tk with
  | Ident _ _ =>
      if at_start s then set_at_start false (with_gens (push_ty tk ∘ push_impl tk) s)
      else with_gens (push_impl tk) s
  | _ =>
      if is_punct "," tk then set_at_start true (with_gens (push_ty tk ∘ push_impl tk) s)
      else if is_punct "'" tk && at_start s then with_gens (push_ty tk ∘ push_impl tk) s
      else if is_punct "=" tk then set_skip true s
      else with_gens (push_impl tk) s
  end.

(** [while let Some(tt) = toks.next()]: the state and the tokens left at the end. *)
Fixpoint generics_loop (toks : TokenStream) (s : GState) : GState * TokenStream :=
  match toks with
  | [] => (s, [])
  | tk :: toks =>
      if (nesting s =? 1)%nat && is_punct ">" tk then (s, toks)
      else
        let s := if (1 <=? nesting s)%nat then with_gens (push_decl tk) s else s in
        if is_punct "<" tk then
          let s := if (1 <=? nesting s)%nat && negb (skip_until_comma s) then with_gens (push_impl tk) s else s in
          generics_loop toks (set_nesting (nesting s + 1) s)
        else if is_punct ">" tk then
          if (nesting s =? 0)%nat then (s, toks)
          else
            let s := set_nesting (nesting s - 1) s in
            generics_loop toks
              (if (1 <=? nesting s)%nat && negb (skip_until_comma s) then with_gens (push_impl tk) s else s)
        else if skip_until_comma s && is_punct "," tk then
          generics_loop toks
            (if (nesting s =? 1)%nat
             then set_skip false (with_gens (push_impl tk ∘ push_impl tk) s) else s)
        else if skip_until_comma s then generics_loop toks s
        else if (nesting s =? 0)%nat then generics_loop toks (push_rest tk s)
        else if (nesting s =? 1)%nat then
          if is_ident "const" tk && at_start s then
            match toks with
            | [] => (s, [])
            | name :: toks =>
                generics_loop toks (set_at_start false
                  (with_gens (push_decl name ∘ push_ty name ∘ push_impl name ∘ push_impl tk) s))
            end
          else generics_loop toks (param_token tk s)
        else generics_loop toks (with_gens (push_impl tk) s)
  end.

Definition parse_generics (input : TokenStream) : Generics * TokenStream :=
  let '(s, toks) := generics_loop input (MkGState (MkGenerics [] [] []) [] 0 true false) in
  (gens s, grest s ++ toks).

(** ** [pin_data.rs] *)

Definition type_def_keywords : list string := ["enum"; "trait"; "struct"; "union"; "impl"]%string.

(** [::core::compile_error!("..");] as the lexer reads it. *)
Definition compile_error_tokens (msg : string) : TokenStream :=
  q2 ++ [Ident "core" CallSite] ++ q2 ++ [Ident "compile_error" CallSite; punct_new "!" Alone;
  group_new Parenthesis [Literal (String dquote msg +:+ String dquote EmptyString) CallSite];
  punct_new ";" Alone].

Definition deny_error (i : string) (sp : Span) : TokenStream :=
  set_span sp <$> compile_error_tokens
    ("Cannot use `" +:+ i +:+ "` inside of struct definition with `#[pin_data]`.").

(** Returns the tokens and what is appended to [errs]. *)
Fixpoint replace_self_and_deny_type_defs (struct_name : TokenStream) (tk : TokenTree) :
    TokenStream * TokenStream :=
  match tk with
  | Ident i sp =>
      if bool_decide (i ∈ type_def_keywords) then ([tk], deny_error i sp)
      else if String.eqb i "Self" then (struct_name, [])
      else ([tk], [])
  | Literal _ _ | Punct _ _ _ => ([tk], [])
  | Group d ts _ =>
      let '(ts, errs) :=
        (fix go (ts : TokenStream) : TokenStream * TokenStream :=
           match ts with
           | [] => ([], [])
           | t :: ts =>
               let '(t, e) := replace_self_and_deny_type_defs struct_name t in
               let '(ts, es) := go ts in
               (t ++ ts, e ++ es)
           end) ts in
      ([group_new d ts], errs)
  end.

(** [flat_map] of a function that also appends to [errs]. *)
Fixpoint flat_map_errs (f : TokenTree → TokenStream * TokenStream) (ts : TokenStream) :
    TokenStream * TokenStream :=
  match ts with
  | [] => ([], [])
  | t :: ts =>
      let '(t, e) := f t in
      let '(ts, es) := flat_map_errs f ts in
      (t ++ ts, e ++ es)
  end.

(** [skip_while(..).nth(1)] *)
Fixpoint skip_while (p : TokenTree → bool) (ts : TokenStream) : TokenStream :=
  match ts with
  | [] => []
  | t :: ts => if p t then skip_while p ts else t :: ts
  end.

Definition struct_name_of (ty_generics rest : TokenStream) : option TokenStream :=
  match skip_while (negb ∘ is_ident "struct") rest !! 1%nat with
  | Some (Ident i sp) =>
      Some (Ident i sp ::
            if bool_decide (ty_generics = []) then []
            else q2 ++ [punct_new "<" Alone] ++ ty_generics ++ [punct_new ">" Alone])
  | _ => None
  end.

(** [rest.pop()]: what remains and the last token. *)
Definition vec_pop {A} (l : list A) : list A * option A := (take (length l - 1) l, last l).

Definition quote_opt (o : option TokenTree) : TokenStream := match o with Some t => [t] | None => [] end.

(** An [@key(..),] entry of the macro call that is generated. *)
Definition entry (key : string) (ts : TokenStream) : TokenStream :=
  [qp "@"; qi key; group_new Parenthesis ts; qp ","].

(** The [quote!] of the call of [__pin_data!]. *)
Definition pin_data_call (args sig impl ty decl body : TokenStream) : TokenStream :=
  q2 ++ [qi "kernel"] ++ q2 ++ [qi "__pin_data"; qp "!"; group_new Brace (
    [qi "parse_input"; qp ":"] ++
    entry "args" args ++
    entry "sig" sig ++
    entry "impl_generics" impl ++
    entry "ty_generics" ty ++
    entry "decl_generics" decl ++
    entry "body" body)].

Definition pin_data (args input : TokenStream) : TokenStream :=
  let '(g, rest) := parse_generics input in
  let '(struct_name, errs0) :=
    match struct_name_of (ty_generics g) rest with
    | Some n => (n, [])
    | None => ([Ident "Self" CallSite], compile_error_tokens "Could not locate type name.")
    end in
  let replace := replace_self_and_deny_type_defs struct_name in
  let '(impl_generics, errs1) := flat_map_errs replace (impl_generics g) in
  let '(rest, errs2) :=
    flat_map_errs (λ t, if is_ident "struct" t then ([t], []) else replace t) rest in
  let '(rest, last) := vec_pop rest in
  pin_data_call args rest impl_generics (ty_generics g) (decl_generics g) (quote_opt last) ++ (errs0 ++ errs1 ++ errs2).

(** ** [pinned_drop.rs] *)

(** The [for] loop: the index of [PinnedDrop]. *)
Fixpoint pinned_drop_loop (i nesting : nat) (toks : TokenStream) : exec (option nat) :=
  match toks with
  | [] => Done None
  | tk :: toks =>
      if is_punct ">" tk then
        match nesting with O => Panic | S n => pinned_drop_loop (i + 1) n toks end
      else
        let nesting := if is_punct "<" tk then S nesting else nesting in
        if (1 <=? i)%nat && (nesting =? 0)%nat then
          if is_ident "PinnedDrop" tk then Done (Some i) else Panic
        else pinned_drop_loop (i + 1) nesting toks
  end.

Definition pinned_drop (input : TokenStream) : exec TokenStream :=
  match input with
  | t :: _ =>
      if is_ident "impl" t then
        match pinned_drop_loop 0 0 input with
        | Done (Some idx) =>
            let toks := take idx input ++ q2 ++ [qi "kernel"] ++ q2 ++ [qi "init"] ++ q2 ++ drop idx input in
            let '(toks, last) := vec_pop toks in
            match last with
            | Some (Group _ body _) =>
                Done (q2 ++ [qi "kernel"] ++ q2 ++ [qi "__pinned_drop"; qp "!"; group_new Brace (
                  entry "impl_sig" toks ++ entry "impl_body" body)])
            | _ => Done toks
            end
        | Done None => Panic
        | Panic => Panic
        | UB => UB
        end
      else Panic
  | [] => Panic
  end.

(** ** [zeroable.rs] *)

Definition zeroable_path : TokenStream :=
  q2 ++ [qi "kernel"] ++ q2 ++ [qi "init"] ++ q2 ++ [qi "Zeroable"].
Definition zeroable_bound : TokenStream := qp ":" :: zeroable_path.
Definition zeroable_plus : TokenStream := zeroable_path ++ [qp "+"].

(** The loop over [impl_generics]: the new generics, with [in_generic], [inserted]
    and [nested]. *)
Fixpoint zeroable_loop (ts new_impl_generics : TokenStream) (in_generic inserted : bool) (nested : nat) :
    exec (TokenStream * bool * bool * nat) :=
  match ts with
  | [] => Done (new_impl_generics, in_generic, inserted, nested)
  | tk :: ts =>
      if (nested =? 0)%nat && is_punct "," tk then
        let new := if in_generic && negb inserted then new_impl_generics ++ zeroable_bound else new_impl_generics in
        zeroable_loop ts (new ++ [tk]) true false nested
      else if (nested =? 0)%nat && is_punct "'" tk then
        zeroable_loop ts (new_impl_generics ++ [tk]) false inserted nested
      else if (nested =? 0)%nat && is_punct ":" tk then
        if in_generic then zeroable_loop ts (new_impl_generics ++ [tk] ++ zeroable_plus) in_generic true nested
        else zeroable_loop ts (new_impl_generics ++ [tk]) in_generic inserted nested
      else if is_punct "<" tk then zeroable_loop ts (new_impl_generics ++ [tk]) in_generic inserted (S nested)
      else if is_punct ">" tk then
        match nested with
        | O => Panic
        | S n => zeroable_loop ts (new_impl_generics ++ [tk]) in_generic inserted n
        end
      else zeroable_loop ts (new_impl_generics ++ [tk]) in_generic inserted nested
  end.

Definition zeroable_generics (impl_generics : TokenStream) : exec TokenStream :=
  match zeroable_loop impl_generics [] (negb (bool_decide (impl_generics = []))) false 0 with
  | Done (new, in_generic, inserted, nested) =>
      if (nested =? 0)%nat then
        Done (if in_generic && negb inserted then new ++ zeroable_bound else new)
      else Panic
  | Panic => Panic
  | UB => UB
  end.

(** The [quote!] of the call of [__derive_zeroable!]. *)
Definition zeroable_call (sig impl ty body : TokenStream) : TokenStream :=
  q2 ++ [qi "kernel"] ++ q2 ++ [qi "__derive_zeroable"; qp "!"; group_new Parenthesis (
    [qi "parse_input"; qp ":"] ++
    entry "sig" sig ++
    entry "impl_generics" impl ++
    entry "ty_generics" ty ++
    entry "body" body); qp ";"].

Definition zeroable_derive (input : TokenStream) : exec TokenStream :=
  let '(g, rest) := parse_generics input in
  let '(rest, last) := vec_pop rest in
  match zeroable_generics (impl_generics g) with
  | Done new_impl_generics =>
      Done (zeroable_call rest new_impl_generics (ty_generics g) (quote_opt last))
  | Panic => Panic
  | UB => UB
  end.

(** ** [concat_idents.rs] and [paste.rs] *)

(** The Unicode tables behind the standard library and the lexer. *)
Class Unicode := {
  to_uppercase : string → string;
  to_lowercase : string → string;
  valid_ident : string → bool
}.

Section Paste.
Context `{Unicode}.

(** [Ident::new] panics on a string that is not an identifier. *)
Definition ident_new (s : string) (sp : Span) : exec TokenTree :=
  if valid_ident s then Done (Ident s sp) else Panic.

Definition concat_idents (ts : TokenStream) : exec TokenStream :=
  match ts with
  | Ident a _ :: Punct c _ _ :: Ident b sp :: [] =>
      if Ascii.eqb c "," then
        match ident_new (a +:+ b) sp with
        | Done res => Done [res]
        | Panic => Panic
        | UB => UB
        end
      else Panic
  | _ => Panic
  end.

(** [value.remove(0); value.pop()], and the removal of [r#]. *)
Definition strip_quotes (s : string) : string :=
  if bool_decide (first_char s = Some dquote) && bool_decide (last_char s = Some dquote)
  then substring 1 (String.length s - 2) s else s.
Definition strip_raw (s : string) : string :=
  if String.prefix "r#" s then substring 2 (String.length s - 2) s else s.

(** The loop of [concat]: the segments and the span of the [span] modifier. *)
Fixpoint concat_loop (tokens : TokenStream) (segments : list (string * Span)) (span : option Span) :
    exec (list (string * Span) * option Span) :=
  match tokens with
  | [] => Done (segments, span)
  | Literal l sp :: tokens => concat_loop tokens (segments ++ [(strip_quotes l, sp)]) span
  | Ident i sp :: tokens => concat_loop tokens (segments ++ [(strip_raw i, sp)]) span
  | Punct c _ _ :: tokens =>
      if Ascii.eqb c ":" then
        match tokens with
        | Ident m _ :: tokens =>
            match vec_pop segments with
            | (_, None) => Panic
            | (segments, Some (value, sp)) =>
                if String.eqb m "span" then
                  match span with
                  | Some _ => Panic
                  | None => concat_loop tokens (segments ++ [(value, sp)]) (Some sp)
                  end
                else if String.eqb m "lower" then
                  concat_loop tokens (segments ++ [(to_lowercase value, sp)]) span
                else if String.eqb m "upper" then
                  concat_loop tokens (segments ++ [(to_uppercase value, sp)]) span
                else Panic
            end
        | _ => Panic
        end
      else Panic
  | Group _ _ _ :: _ => Panic
  end.

Definition concat (tokens : TokenStream) (group_span : Span) : exec TokenTree :=
  match concat_loop tokens [] None with
  | Done (segments, span) => ident_new (String.concat "" (fst <$> segments)) (default group_span span)
  | Panic => Panic
  | UB => UB
  end.

(** [tokens.splice(i..i + 1, ts)] *)
Definition splice_at (i : nat) (ts tokens : TokenStream) : TokenStream :=
  take i tokens ++ ts ++ drop (S i) tokens.

Definition splice_group (i : nat) (tokens : TokenStream) : exec TokenStream :=
  match tokens !! i with
  | Some (Group NoDelim ts _) => Done (splice_at i ts tokens)
  | Some _ => Done tokens
  | None => Panic
  end.

(** One iteration of the loop over the paths; an index out of range panics. *)
Definition path_step (tokens : TokenStream) (i : nat) : exec TokenStream :=
  match tokens !! (i + 1)%nat, tokens !! (i + 2)%nat with
  | Some (Punct a s _), Some (Punct b _ _) =>
      if Ascii.eqb a ":" && bool_decide (s = Joint) && Ascii.eqb b ":" then
        exec_bind (splice_group (i + 3) tokens) (splice_group i)
      else Done tokens
  | Some _, Some _ => Done tokens
  | _, _ => Panic
  end.

Fixpoint path_steps (idx : list nat) (tokens : TokenStream) : exec TokenStream :=
  match idx with
  | [] => Done tokens
  | i :: idx => exec_bind (path_step tokens i) (path_steps idx)
  end.

Definition fix_paths (tokens : TokenStream) : exec TokenStream :=
  path_steps (rev (seq 0 (length tokens - 3))) tokens.

(** [[< .. >]] *)
Definition is_paste_group (d : Delimiter) (stream : TokenStream) : bool :=
  bool_decide (d = Bracket) && (3 <=? length stream)%nat &&
  match head stream, last stream with
  | Some a, Some b => is_punct "<" a && is_punct ">" b
  | _, _ => false
  end.

Fixpoint expand_token (tk : TokenTree) : exec TokenTree :=
  match tk with
  | Group d stream sp =>
      if is_paste_group d stream then concat (take (length stream - 2) (drop 1 stream)) sp
      else
        exec_bind
          ((fix go (ts : TokenStream) : exec TokenStream :=
              match ts with
              | [] => Done []
              | t :: ts => exec_bind (expand_token t) (λ t, exec_bind (go ts) (λ ts, Done (t :: ts)))
              end) stream)
          (λ ts, exec_bind (fix_paths ts) (λ ts, Done (Group d ts sp)))
  | _ => Done tk
  end.

Fixpoint expand_tokens (ts : TokenStream) : exec TokenStream :=
  match ts with
  | [] => Done []
  | t :: ts => exec_bind (expand_token t) (λ t, exec_bind (expand_tokens ts) (λ ts, Done (t :: ts)))
  end.

Definition paste_expand (tokens : TokenStream) : exec TokenStream := exec_bind (expand_tokens tokens) fix_paths.
End Paste.
