(* ===== verification/MacrosThms.v ===== *)
(** * Correctness of the procedural macros ([rust/macros])

    The grammar of generic parameters that [parse_generics] handles, with the proof
    that it splits a type definition as [Generics] documents; what [#[pin_data]] and
    [#[derive(Zeroable)]] make of such a definition; and the inputs on which the code
    does not do what it is documented to. *)

From Stdlib Require Import Ascii String.
From stdpp Require Import strings.
From S2P Require Import Prelude Macros.

(** ** The grammar of generics *)

Inductive PHead :=
| HLifetime (tick name : TokenTree)
| HType (name : TokenTree)
| HConst (kw name : TokenTree).

(** A parameter: its head, its bounds (or the type of a constant) with the colon, its
    default with the equals sign. *)
Record Param := MkParam { phead : PHead; pbounds : TokenStream; pdefault : TokenStream }.

Definition plain_ident (tk : TokenTree) : bool := if tk is Ident i _ then negb (String.eqb i "const") else false.

Definition head_wf (h : PHead) : bool :=
  match h with
  | HLifetime t n => is_punct "'" t && plain_ident n
  | HType n => plain_ident n
  | HConst k n => is_ident "const" k && plain_ident n
  end.
Definition head_impl (h : PHead) : TokenStream :=
  match h with HLifetime t n => [t; n] | HType n => [n] | HConst k n => [k; n] end.
Definition head_ty (h : PHead) : TokenStream :=
  match h with HLifetime t n => [t; n] | HType n => [n] | HConst _ n => [n] end.

(** Angle brackets are balanced from depth [d], and no token of [stops] occurs outside
    of them. *)
Fixpoint flat (stops : list ascii) (d : nat) (ts : TokenStream) : bool :=
  match ts with
  | [] => (d =? 0)%nat
  | tk :: ts =>
      if is_punct "<" tk then flat stops (S d) ts
      else if is_punct ">" tk then match d with O => false | S d => flat stops d ts end
      else if (d =? 0)%nat && existsb (λ c, is_punct c tk) stops then false
      else flat stops d ts
  end.

Definition bounds_wf (ts : TokenStream) : bool := flat [","; "="]%char 0 ts.
Definition default_wf (ts : TokenStream) : bool :=
  match ts with [] => true | eq :: ts => is_punct "=" eq && flat [","]%char 0 ts end.
Definition param_wf (p : Param) : bool :=
  head_wf (phead p) && bounds_wf (pbounds p) && default_wf (pdefault p).

Definition param_decl (p : Param) : TokenStream := head_impl (phead p) ++ pbounds p ++ pdefault p.
Definition param_impl (p : Param) : TokenStream := head_impl (phead p) ++ pbounds p.
Definition param_ty (p : Param) : TokenStream := head_ty (phead p).

(** Parameters separated by commas, with a trailing comma or not. *)
Fixpoint sep (comma : TokenTree) (trailing : bool) (f : Param → TokenStream) (ps : list Param) : TokenStream :=
  match ps with
  | [] => []
  | [p] => f p ++ (if trailing then [comma] else [])
  | p :: ps => f p ++ comma :: sep comma trailing f ps
  end.

(** A default is supported on the last parameter, without a trailing comma. *)
Fixpoint params_wf (trailing : bool) (ps : list Param) : bool :=
  match ps with
  | [] => true
  | [p] => param_wf p && (negb trailing || bool_decide (pdefault p = []))
  | p :: ps => param_wf p && bool_decide (pdefault p = []) && params_wf trailing ps
  end.

Definition no_angle (tk : TokenTree) : bool := negb (is_punct "<" tk) && negb (is_punct ">" tk).

(** ** [parse_generics] *)

Lemma is_punct_inj c d tk : is_punct c tk = true → is_punct d tk = Ascii.eqb c d.
Proof. destruct tk as [| |e|]; simpl; try done. intros ->%Ascii.eqb_eq. done. Qed.

Lemma is_punct_inv c tk : is_punct c tk = true → ∃ s sp, tk = Punct c s sp.
Proof. destruct tk as [| |d s sp|]; simpl; try done. intros ->%Ascii.eqb_eq. eauto. Qed.

Lemma plain_ident_inv tk : plain_ident tk = true → ∃ i sp, tk = Ident i sp ∧ i ≠ "const"%string.
Proof.
  destruct tk as [|i sp| |]; simpl; try done. intros H%negb_true_iff%String.eqb_neq. by exists i, sp.
Qed.

Local Abbreviation ST D I T R n a k := (MkGState (MkGenerics D I T) R n a k).

(** Computes with the state of the loop. *)
Ltac gst := repeat (progress (cbn;
  unfold set_nesting, with_gens, push_decl, push_impl, push_ty, push_rest, set_at_start, set_skip, compose)); cbn.
Ltac gapp := rewrite <- ?app_assoc, ?app_nil_r; cbn [app]; try done.

Lemma param_token_plain tk D I T R n k :
  is_punct "," tk = false → is_punct "=" tk = false →
  param_token tk (ST D I T R n false k) = ST D (I ++ [tk]) T R n false k.
Proof.
  intros Hc He. destruct tk; gst; try done. cbn in *. unfold param_token. cbn. by rewrite Hc, He, andb_false_r.
Qed.

(** Bounds go to the declaration and to the [impl]; a default to the declaration only. *)
Lemma loop_bounds ts D I T R d k :
  flat [","; "="]%char d ts = true →
  generics_loop (ts ++ k) (ST D I T R (S d) false false) =
  generics_loop k (ST (D ++ ts) (I ++ ts) T R 1 false false).
Proof.
  revert D I d. induction ts as [|tk ts IH]; intros D I d Hf; simpl in Hf.
  - apply Nat.eqb_eq in Hf as ->. by rewrite !app_nil_r.
  - rewrite <- app_comm_cons. cbn [generics_loop nesting].
    destruct (is_punct "<" tk) eqn:Hlt.
    { rewrite (is_punct_inj _ ">" _ Hlt), andb_false_r. gst. rewrite Nat.add_1_r, IH by done. gapp. }
    destruct (is_punct ">" tk) eqn:Hgt.
    { destruct d as [|d]; [done|]. gst. rewrite IH by done. gapp. }
    rewrite andb_false_r. gst. destruct d as [|d]; gst.
    + destruct (is_punct "," tk) eqn:Hc, (is_punct "=" tk) eqn:He; try done. rewrite andb_false_r.
      rewrite param_token_plain, IH by done. gapp.
    + rewrite IH by done. gapp.
Qed.

Lemma loop_default ts D I T R d a k :
  flat [","]%char d ts = true →
  generics_loop (ts ++ k) (ST D I T R (S d) a true) = generics_loop k (ST (D ++ ts) I T R 1 a true).
Proof.
  revert D d. induction ts as [|tk ts IH]; intros D d Hf; simpl in Hf.
  - apply Nat.eqb_eq in Hf as ->. by rewrite !app_nil_r.
  - rewrite <- app_comm_cons. cbn [generics_loop nesting].
    destruct (is_punct "<" tk) eqn:Hlt.
    { rewrite (is_punct_inj _ ">" _ Hlt), andb_false_r. gst. rewrite Nat.add_1_r, IH by done. gapp. }
    destruct (is_punct ">" tk) eqn:Hgt.
    { destruct d as [|d]; [done|]. gst. rewrite IH by done. gapp. }
    rewrite andb_false_r. gst. destruct d as [|d]; gst; destruct (is_punct "," tk); try done.
    all: rewrite IH by done; gapp.
Qed.

Lemma loop_head h D I T R k :
  head_wf h = true →
  generics_loop (head_impl h ++ k) (ST D I T R 1 true false) =
  generics_loop k (ST (D ++ head_impl h) (I ++ head_impl h) (T ++ head_ty h) R 1 false false).
Proof.
  destruct h as [t n|n|w n]; simpl; intros H.
  - apply andb_true_iff in H as [Ht (i & sp & -> & Hi)%plain_ident_inv].
    apply is_punct_inv in Ht as (s & sp' & ->). gst. rewrite (proj2 (String.eqb_neq _ _) Hi). gst. gapp.
  - apply plain_ident_inv in H as (i & sp & -> & Hi). gst.
    rewrite (proj2 (String.eqb_neq _ _) Hi). gst. gapp.
  - apply andb_true_iff in H as [Hw (i & sp & -> & Hi)%plain_ident_inv].
    destruct w as [|j| |]; try done. gst. cbn in Hw. rewrite Hw. gst. gapp.
Qed.

(** One parameter up to its default. *)
Lemma loop_impl p D I T R k :
  param_wf p = true →
  generics_loop (param_impl p ++ k) (ST D I T R 1 true false) =
  generics_loop k (ST (D ++ param_impl p) (I ++ param_impl p) (T ++ param_ty p) R 1 false false).
Proof.
  intros [[Hh Hb]%andb_true_iff _]%andb_true_iff. unfold param_impl.
  rewrite <- app_assoc, loop_head by done. rewrite loop_bounds by done. gapp.
Qed.

Lemma loop_close gt D I T R a b tl :
  is_punct ">" gt = true → generics_loop (gt :: tl) (ST D I T R 1 a b) = (ST D I T R 1 a b, tl).
Proof. intros H. gst. by rewrite H. Qed.

Lemma loop_comma c D I T R k :
  is_punct "," c = true →
  generics_loop (c :: k) (ST D I T R 1 false false) = generics_loop k (ST (D ++ [c]) (I ++ [c]) (T ++ [c]) R 1 true false).
Proof.
  intros (s & sp & ->)%is_punct_inv. by gst.
Qed.

Lemma loop_params c tr gt ps D I T R tl :
  is_punct "," c = true → is_punct ">" gt = true → params_wf tr ps = true →
  ∃ a b, generics_loop (sep c tr param_decl ps ++ gt :: tl) (ST D I T R 1 true false) =
    (ST (D ++ sep c tr param_decl ps) (I ++ sep c tr param_impl ps) (T ++ sep c tr param_ty ps) R 1 a b, tl).
Proof.
  intros Hc Hg. revert D I T. induction ps as [|p ps IH]; intros D I T Hw.
  - exists true, false. cbn [sep app]. rewrite loop_close by done. gapp.
  - destruct ps as [|q ps].
    + simpl in *. apply andb_true_iff in Hw as [Hp Hd].
      assert (param_decl p = param_impl p ++ pdefault p) as -> by (unfold param_decl, param_impl; gapp).
      rewrite <- !app_assoc, loop_impl by done. destruct tr; simpl in Hd.
      * apply bool_decide_eq_true in Hd as ->. exists true, false. cbn [app].
        rewrite loop_comma, loop_close by done. gapp.
      * unfold param_wf in Hp. apply andb_true_iff in Hp as [_ Hp].
        destruct (pdefault p) as [|e d]; simpl in Hp.
        -- exists false, false. cbn [app]. rewrite loop_close by done. gapp.
        -- apply andb_true_iff in Hp as [(s & sp & ->)%is_punct_inv Hf].
           exists false, true. gst. rewrite loop_default, loop_close by done. gapp.
    + cbn [params_wf] in Hw. apply andb_true_iff in Hw as [[Hp Hd]%andb_true_iff Hw].
      apply bool_decide_eq_true in Hd.
      assert (param_decl p = param_impl p) as Hpd by (unfold param_decl, param_impl; rewrite Hd; gapp).
      change (sep c tr param_decl (p :: q :: ps)) with (param_decl p ++ c :: sep c tr param_decl (q :: ps)).
      rewrite Hpd, <- app_assoc, loop_impl, <- app_comm_cons, loop_comma by done.
      destruct (IH (((D ++ param_impl p) ++ [c])) (((I ++ param_impl p) ++ [c]))
        (((T ++ param_ty p) ++ [c])) Hw) as (a & b & ->).
      exists a, b. gapp.
Qed.

Lemma loop_prefix hdr R k a :
  forallb no_angle hdr = true →
  generics_loop (hdr ++ k) (ST [] [] [] R 0 a false) = generics_loop k (ST [] [] [] (R ++ hdr) 0 a false).
Proof.
  revert R. induction hdr as [|t hdr IH]; intros R H; simpl in H; [gapp|].
  apply andb_true_iff in H as [[Hl%negb_true_iff Hr%negb_true_iff]%andb_true_iff H].
  cbn [app generics_loop]. rewrite Hl, Hr. gst. rewrite IH by done. gapp.
Qed.

(** The three renderings of the parameters, and the definition without them. *)
Lemma parse_generics_ok hdr lt c tr ps gt tl :
  forallb no_angle hdr = true → is_punct "<" lt = true → is_punct "," c = true → is_punct ">" gt = true →
  params_wf tr ps = true →
  parse_generics (hdr ++ lt :: sep c tr param_decl ps ++ gt :: tl) =
  (MkGenerics (sep c tr param_decl ps) (sep c tr param_impl ps) (sep c tr param_ty ps), hdr ++ tl).
Proof.
  intros Hh Hl Hc Hg Hw. unfold parse_generics. rewrite loop_prefix by done.
  assert (∀ R k, generics_loop (lt :: k) (ST [] [] [] R 0 true false) =
    generics_loop k (ST [] [] [] R 1 true false)) as ->.
  { intros R k. cbn [generics_loop]. rewrite !(is_punct_inj _ _ _ Hl). by gst. }
  destruct (loop_params c tr gt ps [] [] [] ([] ++ hdr) tl Hc Hg Hw) as (a & b & ->). done.
Qed.

(** A definition without generics is left as it is. *)
Lemma parse_generics_none ts : forallb no_angle ts = true → parse_generics ts = (MkGenerics [] [] [], ts).
Proof.
  intros H. unfold parse_generics. rewrite <- (app_nil_r ts) at 1. rewrite loop_prefix by done.
  simpl. by rewrite app_nil_r.
Qed.

(** ** [#[derive(Zeroable)]] *)

(** The parameters it supports: lifetimes, and types whose bounds contain no path. *)
Definition zeroable_wf (p : Param) : bool :=
  match phead p, pbounds p with
  | HType _, c :: b => is_punct ":" c && flat [":"; ","]%char 0 b
  | HType _, [] => true
  | HLifetime _ _, _ => true
  | HConst _ _, _ => false
  end.

(** A type parameter gets the bound, before the ones it has. *)
Definition param_zeroable (p : Param) : TokenStream :=
  match phead p, pbounds p with
  | HType n, [] => n :: zeroable_bound
  | HType n, c :: b => n :: c :: zeroable_plus ++ b
  | _, _ => param_impl p
  end.

Lemma flat_mono st st' d ts : (∀ c, c ∈ st' → c ∈ st) → flat st d ts = true → flat st' d ts = true.
Proof.
  intros Hs. revert d. induction ts as [|tk ts IH]; intros d; simpl; [done|].
  destruct (is_punct "<" tk); [auto|]. destruct (is_punct ">" tk); [destruct d; [done|auto]|].
  destruct (d =? 0)%nat; simpl; [|auto].
  destruct (existsb _ st) eqn:E; [done|]. intros H.
  assert (existsb (λ c, is_punct c tk) st' = false) as ->; [|auto].
  apply not_true_iff_false. intros (c & Hc%list_elem_of_In & Hp)%existsb_exists.
  apply not_true_iff_false in E. apply E, existsb_exists. exists c. rewrite <- list_elem_of_In. auto.
Qed.

(** Bounds pass through once the parameter needs no insertion. *)
Lemma zeroable_skip ts N ig ins d k :
  ig && negb ins = false → flat (if ig then [":"; ","] else [","])%char d ts = true →
  ∃ ig', zeroable_loop (ts ++ k) N ig ins d = zeroable_loop k (N ++ ts) ig' ins 0 ∧ ig' && negb ins = false.
Proof.
  revert N ig d. induction ts as [|tk ts IH]; intros N ig d Hi Hf; simpl in Hf.
  - apply Nat.eqb_eq in Hf as ->. exists ig. by rewrite app_nil_r.
  - assert (N ++ tk :: ts = (N ++ [tk]) ++ ts) as -> by (by rewrite <- app_assoc).
    cbn [app zeroable_loop]. destruct (is_punct "<" tk) eqn:Hlt.
    { apply is_punct_inv in Hlt as (s & sp & ->). cbn. rewrite !andb_false_r. by apply IH. }
    destruct (is_punct ">" tk) eqn:Hgt.
    { apply is_punct_inv in Hgt as (s & sp & ->). destruct d as [|d]; [done|]. cbn. by apply IH. }
    destruct d as [|d]; simpl in *; [|by apply IH].
    destruct (is_punct "," tk) eqn:Hc; [by destruct ig; simpl in Hf; rewrite Hc, ?orb_true_r in Hf|].
    destruct (is_punct "'" tk) eqn:Hq.
    { apply IH; [done|]. apply is_punct_inv in Hq as (s & sp & ->). destruct ig; [|done].
      simpl in Hf. apply (flat_mono [":"; ","]%char); [set_solver|done]. }
    destruct (is_punct ":" tk) eqn:Hl, ig; simpl in Hf; rewrite ?Hc, ?Hl in Hf; try done; by apply IH.
Qed.

Lemma zeroable_param p N k :
  param_wf p = true → zeroable_wf p = true →
  ∃ N' ig ins, zeroable_loop (param_impl p ++ k) N true false 0 = zeroable_loop k N' ig ins 0 ∧
    (if ig && negb ins then N' ++ zeroable_bound else N') = N ++ param_zeroable p.
Proof.
  intros [[Hh Hb]%andb_true_iff _]%andb_true_iff Hz. unfold param_impl, param_zeroable, zeroable_wf in *.
  destruct p as [[t n|n|w n] b def]; simpl in *; [| |done].
  - apply andb_true_iff in Hh as [(s & sp & ->)%is_punct_inv (i & sp' & -> & _)%plain_ident_inv]. cbn.
    destruct (zeroable_skip b ((N ++ [Punct "'" s sp]) ++ [Ident i sp']) false false 0 k) as (ig & -> & Hig).
    { done. } { eapply flat_mono; [|exact Hb]. set_solver. }
    eexists _, ig, false. split; [done|]. rewrite Hig. by rewrite <- !app_assoc.
  - apply plain_ident_inv in Hh as (i & sp' & -> & _). cbn. destruct b as [|c b].
    + exists (N ++ [Ident i sp']), true, false. split; [done|]. simpl. by rewrite <- app_assoc.
    + apply andb_true_iff in Hz as [(s & sp & ->)%is_punct_inv Hz]. cbn.
      destruct (zeroable_skip b (((N ++ [Ident i sp']) ++ Punct ":" s sp :: zeroable_plus)) true true 0 k) as (ig & Hl & Hig).
      { done. } { exact Hz. }
      unfold zeroable_plus, zeroable_path in *. simpl in Hl. rewrite Hl.
      eexists _, ig, true. split; [done|]. rewrite Hig. by rewrite <- !app_assoc.
Qed.

Lemma zeroable_generics_ok c ps :
  is_punct "," c = true → params_wf false ps = true → forallb zeroable_wf ps = true →
  zeroable_generics (sep c false param_impl ps) = Done (sep c false param_zeroable ps).
Proof.
  intros (s & sp & ->)%is_punct_inv Hw Hz. unfold zeroable_generics.
  destruct ps as [|p ps]; [done|]. rewrite bool_decide_eq_false_2; simpl negb.
  2:{ destruct p as [[]]; destruct ps; done. }
  assert (∀ N, ∃ N' ig ins, zeroable_loop (sep (Punct "," s sp) false param_impl (p :: ps)) N true false 0 =
    Done (N', ig, ins, 0%nat) ∧ (if ig && negb ins then N' ++ zeroable_bound else N') =
    N ++ sep (Punct "," s sp) false param_zeroable (p :: ps)) as Hl.
  { revert p Hw Hz. induction ps as [|q ps IH]; intros p Hw Hz N.
    - cbn [params_wf] in Hw. apply andb_true_iff in Hw as [Hw _]. simpl in Hz. rewrite andb_true_r in Hz.
      destruct (zeroable_param p N [] Hw Hz) as (N' & ig & ins & Hl & HN).
      exists N', ig, ins. cbn [sep]. rewrite Hl. by rewrite app_nil_r.
    - cbn [params_wf] in Hw. apply andb_true_iff in Hw as [[Hp _]%andb_true_iff Hw].
      cbn [forallb] in Hz. apply andb_true_iff in Hz as [Hz Hz'].
      change (sep ?c ?b ?f (p :: q :: ps)) with (f p ++ c :: sep c b f (q :: ps)).
      destruct (zeroable_param p N (Punct "," s sp :: sep (Punct "," s sp) false param_impl (q :: ps)) Hp Hz)
        as (N' & ig & ins & Hl & HN).
      rewrite Hl. cbn [zeroable_loop is_punct]. cbn [Nat.eqb andb Ascii.eqb Bool.eqb].
      rewrite HN. destruct (IH q Hw Hz' ((N ++ param_zeroable p) ++ [Punct "," s sp])) as (N2 & ig2 & ins2 & Hl2 & HN2).
      exists N2, ig2, ins2. split; [exact Hl2|]. rewrite HN2. by rewrite <- !app_assoc. }
  destruct (Hl []) as (N' & ig & ins & -> & HN). simpl. by rewrite HN.
Qed.

(** ** [#[pin_data]] *)

(** Induction on token trees, through the streams of the groups. *)
Lemma TokenTree_rect_deep (P : TokenTree → Prop) :
  (∀ d ts sp, Forall P ts → P (Group d ts sp)) → (∀ i sp, P (Ident i sp)) →
  (∀ c s sp, P (Punct c s sp)) → (∀ l sp, P (Literal l sp)) → ∀ tk, P tk.
Proof.
  intros HG HI HP HL. fix IH 1. intros [d ts sp|i sp|c s sp|l sp]; [|auto..].
  apply HG. induction ts as [|t ts IHts]; constructor; auto.
Qed.

(** An identifier of [P] occurs in the token, at any depth. *)
Fixpoint mentions (P : string → bool) (tk : TokenTree) : bool :=
  match tk with
  | Ident i _ => P i
  | Group _ ts _ => existsb (mentions P) ts
  | _ => false
  end.

Definition is_self (i : string) : bool := String.eqb i "Self".
Definition is_type_def (i : string) : bool := bool_decide (i ∈ type_def_keywords).

Lemma existsb_false_Forall {A} (f : A → bool) l : existsb f l = false ↔ Forall (λ x, f x = false) l.
Proof.
  induction l as [|x l IH]; simpl; [done|]. by rewrite orb_false_iff, IH, Forall_cons.
Qed.

(** The loop inside a group is [flat_map_errs]. *)
Lemma replace_group n d ts sp :
  replace_self_and_deny_type_defs n (Group d ts sp) =
  let '(ts, es) := flat_map_errs (replace_self_and_deny_type_defs n) ts in ([group_new d ts], es).
Proof.
  cbn. match goal with |- (let (_, _) := ?f _ in _) = _ => assert (∀ l, f l = flat_map_errs (replace_self_and_deny_type_defs n) l) as H end.
  { induction l as [|t l IH]; [done|]. cbn. destruct (replace_self_and_deny_type_defs n t). by rewrite IH. }
  by rewrite H.
Qed.

Lemma flat_map_errs_ok (Q : TokenTree → Prop) (bad : TokenTree → bool) f ts :
  Forall (λ t, Forall Q (fst (f t)) ∧ (snd (f t) = [] ↔ bad t = false)) ts →
  Forall Q (fst (flat_map_errs f ts)) ∧ (snd (flat_map_errs f ts) = [] ↔ existsb bad ts = false).
Proof.
  induction 1 as [|t ts [Hq Hb] _ [IHq IHb]]; simpl; [done|].
  destruct (f t) as [a e], (flat_map_errs f ts) as [b es]; simpl in *. split; [by apply Forall_app|].
  rewrite orb_false_iff, <- Hb, <- IHb. split; [by intros ?%app_eq_nil|by intros [-> ->]].
Qed.

(** No [Self] is left, and an error is reported exactly for a nested type definition. *)
Lemma replace_self_ok n tk :
  Forall (λ t, mentions is_self t = false) n →
  Forall (λ t, mentions is_self t = false) (fst (replace_self_and_deny_type_defs n tk)) ∧
  (snd (replace_self_and_deny_type_defs n tk) = [] ↔ mentions is_type_def tk = false).
Proof.
  intros Hn. induction tk as [d ts sp IH|i sp|c s sp|l sp] using TokenTree_rect_deep.
  - rewrite replace_group. apply flat_map_errs_ok with (bad := mentions is_type_def) in IH as [Hq Hb].
    destruct (flat_map_errs _ ts) as [ts' es]; simpl in *. split; [|done]. apply Forall_singleton. simpl.
    by apply existsb_false_Forall.
  - simpl. unfold is_type_def. case_bool_decide as Hk; simpl.
    { split; [|done]. apply Forall_singleton. simpl. unfold is_self. destruct (String.eqb_spec i "Self"); [|done].
      subst. by unfold type_def_keywords in Hk; set_unfold in Hk; naive_solver. }
    destruct (String.eqb_spec i "Self"); simpl; [by split|]. split; [|done]. apply Forall_singleton.
    simpl. unfold is_self. by rewrite (proj2 (String.eqb_neq _ _)).
  - split; [by repeat constructor|done].
  - split; [by repeat constructor|done].
Qed.

(** The substitution of the type for [Self]. *)
Fixpoint subst_self (n : TokenStream) (tk : TokenTree) : TokenStream :=
  match tk with
  | Ident i sp => if is_self i then n else [tk]
  | Group d ts _ => [Group d (flat_map (subst_self n) ts) CallSite]
  | _ => [tk]
  end.

Lemma flat_map_errs_fst f g ts : Forall (λ t, fst (f t) = g t) ts → fst (flat_map_errs f ts) = flat_map g ts.
Proof.
  induction 1 as [|t ts Ht _ IH]; simpl; [done|]. destruct (f t), (flat_map_errs f ts); simpl in *. by subst.
Qed.

Lemma replace_self_subst n tk : fst (replace_self_and_deny_type_defs n tk) = subst_self n tk.
Proof.
  induction tk as [d ts sp IH|i sp|c s sp|l sp] using TokenTree_rect_deep; [|simpl|done|done].
  - rewrite replace_group. apply flat_map_errs_fst in IH. cbn [subst_self]. rewrite <- IH. by destruct (flat_map_errs _ ts).
  - case_bool_decide as Hk; unfold is_self; destruct (String.eqb_spec i "Self"); try done.
    subst. by unfold type_def_keywords in Hk; set_unfold in Hk; naive_solver.
Qed.

(** The whole definition: [struct] itself is exempt at the top level. *)
Definition top_replace (n : TokenStream) (t : TokenTree) : TokenStream * TokenStream :=
  if is_ident "struct" t then ([t], []) else replace_self_and_deny_type_defs n t.
Definition nested_def (t : TokenTree) : bool := negb (is_ident "struct" t) && mentions is_type_def t.

Lemma top_replace_ok n ts :
  Forall (λ t, mentions is_self t = false) n →
  fst (flat_map_errs (top_replace n) ts) = flat_map (subst_self n) ts ∧
  Forall (λ t, mentions is_self t = false) (flat_map (subst_self n) ts) ∧
  (snd (flat_map_errs (top_replace n) ts) = [] ↔ existsb nested_def ts = false).
Proof.
  intros Hn.
  assert (∀ t, fst (top_replace n t) = subst_self n t) as Hs.
  { intros t. unfold top_replace. destruct (is_ident "struct" t) eqn:E; [|apply replace_self_subst].
    destruct t; simpl in *; try done. by apply String.eqb_eq in E as ->. }
  assert (∀ t, Forall (λ t, mentions is_self t = false) (fst (top_replace n t)) ∧
    (snd (top_replace n t) = [] ↔ nested_def t = false)) as Hq.
  { intros t. unfold top_replace, nested_def. destruct (is_ident "struct" t) eqn:E; [|by apply replace_self_ok].
    destruct t; simpl in *; try done. apply String.eqb_eq in E as ->. split; [by repeat constructor|done]. }
  destruct (flat_map_errs_ok (λ t, mentions is_self t = false) nested_def (top_replace n) ts) as [H1 H2].
  { apply Forall_true. done. }
  rewrite (flat_map_errs_fst _ (subst_self n)) in H1 |- * by (by apply Forall_true). done.
Qed.

Lemma replace_all_ok n ts :
  Forall (λ t, mentions is_self t = false) n →
  fst (flat_map_errs (replace_self_and_deny_type_defs n) ts) = flat_map (subst_self n) ts ∧
  Forall (λ t, mentions is_self t = false) (flat_map (subst_self n) ts) ∧
  (snd (flat_map_errs (replace_self_and_deny_type_defs n) ts) = [] ↔ existsb (mentions is_type_def) ts = false).
Proof.
  intros Hn. destruct (flat_map_errs_ok (λ t, mentions is_self t = false) (mentions is_type_def)
    (replace_self_and_deny_type_defs n) ts) as [H1 H2].
  { apply Forall_true. intros t. by apply replace_self_ok. }
  rewrite (flat_map_errs_fst _ (subst_self n)) in H1 |- * by (apply Forall_true, replace_self_subst). done.
Qed.

Lemma vec_pop_snoc {A} (l : list A) x : vec_pop (l ++ [x]) = (l, Some x).
Proof.
  unfold vec_pop. rewrite last_snoc, length_app. simpl. rewrite Nat.add_sub, take_app_length. done.
Qed.

Lemma skip_while_app p l k : forallb p l = true → skip_while p (l ++ k) = skip_while p k.
Proof. induction l as [|t l IH]; simpl; [done|]. by intros [-> H]%andb_true_iff; auto. Qed.

Lemma struct_name_ok attrs kw nm nsp ty tl :
  forallb (negb ∘ is_ident "struct") attrs = true → is_ident "struct" kw = true → ty ≠ [] →
  struct_name_of ty (attrs ++ kw :: Ident nm nsp :: tl) =
  Some (Ident nm nsp :: q2 ++ punct_new "<" Alone :: ty ++ [punct_new ">" Alone]).
Proof.
  intros Ha Hk Ht. unfold struct_name_of. rewrite skip_while_app by done. simpl. unfold compose. rewrite Hk. simpl.
  by rewrite bool_decide_eq_false_2.
Qed.

(** ** [paste!] *)

Section Paste.
Context `{Unicode}.

(** A segment of [[<..>]]: a name or a literal, and the modifiers that follow it. *)
Inductive Modifier := Upper | Lower.
Record Seg := MkSeg { sbase : TokenTree; smods : list Modifier }.

Definition mod_tokens (m : Modifier) : TokenStream :=
  [Punct ":" Alone CallSite; Ident (match m with Upper => "upper" | Lower => "lower" end) CallSite].
Definition seg_tokens (s : Seg) : TokenStream := sbase s :: flat_map mod_tokens (smods s).

Definition base_value (t : TokenTree) : option (string * Span) :=
  match t with
  | Ident i sp => Some (strip_raw i, sp)
  | Literal l sp => Some (strip_quotes l, sp)
  | _ => None
  end.
Definition apply_mod (v : string) (m : Modifier) : string :=
  match m with Upper => to_uppercase v | Lower => to_lowercase v end.
Definition seg_value (s : Seg) : option string :=
  (λ v, foldl apply_mod (fst v) (smods s)) <$> base_value (sbase s).

Lemma concat_mods ms v sp segs k :
  concat_loop (flat_map mod_tokens ms ++ k) (segs ++ [(v, sp)]) None =
  concat_loop k (segs ++ [(foldl apply_mod v ms, sp)]) None.
Proof.
  revert v. induction ms as [|m ms IH]; intros v; [done|].
  destruct m; cbn [flat_map mod_tokens app concat_loop]; rewrite vec_pop_snoc; simpl; apply IH.
Qed.

Lemma concat_segs segs vs acc :
  mapM seg_value segs = Some vs →
  ∃ out, concat_loop (flat_map seg_tokens segs) acc None = Done (acc ++ out, None) ∧ out.*1 = vs.
Proof.
  revert vs acc. induction segs as [|[b ms] segs IH]; intros vs acc Hv.
  - injection Hv as <-. exists []. by rewrite app_nil_r.
  - apply mapM_Some in Hv. apply Forall2_cons_inv_l in Hv as (w & ws & Hw & Hv & ->).
    apply mapM_Some in Hv. unfold seg_value in Hw. simpl in Hw.
    apply fmap_Some in Hw as ([v sp] & Hb & ->).
    destruct (IH ws (acc ++ [(foldl apply_mod v ms, sp)]) Hv) as (out & Ho & <-).
    exists ((foldl apply_mod v ms, sp) :: out). split; [|done].
    cbn [flat_map]. unfold seg_tokens at 1. simpl. destruct b; simplify_eq/=.
    all: rewrite concat_mods, Ho, <- app_assoc; done.
Qed.

(** What the expansion does, from the leaves up. *)
Definition no_delim (t : TokenTree) : bool := if t is Group NoDelim _ _ then true else false.

Inductive Expands : TokenTree → TokenTree → Prop :=
| ExpandsPaste segs vs sp :
    segs ≠ [] → mapM seg_value segs = Some vs → valid_ident (String.concat "" vs) = true →
    Expands (Group Bracket (punct_new "<" Alone :: flat_map seg_tokens segs ++ [punct_new ">" Alone]) sp) (Ident (String.concat "" vs) sp)
| ExpandsGroup d ts ts' sp :
    is_paste_group d ts = false → Forall2 Expands ts ts' → forallb (negb ∘ no_delim) ts' = true →
    Expands (Group d ts sp) (Group d ts' sp)
| ExpandsLeaf t : (∀ d ts sp, t ≠ Group d ts sp) → Expands t t.

Lemma path_steps_id idx ts :
  forallb (negb ∘ no_delim) ts = true → Forall (λ i, (i + 3 < length ts)%nat) idx → path_steps idx ts = Done ts.
Proof.
  intros Hn. induction 1 as [|i idx Hi _ IH]; [done|]. simpl.
  assert (∀ j, (j < length ts)%nat → splice_group j ts = Done ts) as Hs.
  { intros j Hj. unfold splice_group. destruct (lookup_lt_is_Some_2 ts j Hj) as [t Ht]. rewrite Ht.
    rewrite forallb_forall in Hn. specialize (Hn t). destruct t as [[]| | |]; try done.
    exfalso. discriminate Hn. apply list_elem_of_In. by eapply list_elem_of_lookup_2. }
  assert (path_step ts i = Done ts) as ->; [|done]. unfold path_step.
  destruct (lookup_lt_is_Some_2 ts (i + 1)) as [a ->]; [lia|].
  destruct (lookup_lt_is_Some_2 ts (i + 2)) as [b ->]; [lia|].
  destruct a, b; try done. destruct (_ && _ && _); [|done]. rewrite Hs by lia. simpl. apply Hs. lia.
Qed.

Lemma fix_paths_id ts : forallb (negb ∘ no_delim) ts = true → fix_paths ts = Done ts.
Proof.
  intros Hn. apply path_steps_id; [done|]. apply Forall_rev, Forall_seq. lia.
Qed.
Lemma is_paste_group_ok segs :
  segs ≠ [] → is_paste_group Bracket (punct_new "<" Alone :: flat_map seg_tokens segs ++ [punct_new ">" Alone]) = true.
Proof.
  intros Hs. unfold is_paste_group. rewrite app_comm_cons, last_snoc.
  assert ((3 <=? length ((punct_new "<" Alone :: flat_map seg_tokens segs) ++ [punct_new ">" Alone]))%nat = true) as ->; [|done].
  apply Nat.leb_le. rewrite length_app. destruct segs as [|[b ms] segs]; [done|]. simpl. lia.
Qed.

Lemma expand_group d ts sp :
  is_paste_group d ts = false →
  expand_token (Group d ts sp) =
  exec_bind (expand_tokens ts) (λ ts, exec_bind (fix_paths ts) (λ ts, Done (Group d ts sp))).
Proof.
  intros Hp. cbn [expand_token]. rewrite Hp. f_equal.
Qed.

Lemma expands_ok t t' : Expands t t' → expand_token t = Done t'.
Proof.
  revert t t'. fix IH 3. intros t t' [segs vs sp Hs Hv Hi|d ts ts' sp Hp Hts Hn|u Hu].
  - cbn [expand_token]. rewrite is_paste_group_ok by done. unfold concat. cbn [drop length].
    rewrite length_app, drop_0. simpl length.
    replace (S (length (flat_map seg_tokens segs) + 1) - 2)%nat with (length (flat_map seg_tokens segs)) by lia.
    rewrite take_app_length. destruct (concat_segs segs vs [] Hv) as (out & -> & <-). simpl. unfold ident_new.
    by rewrite Hi.
  - rewrite expand_group by done.
    assert (expand_tokens ts = Done ts') as ->.
    { clear Hp Hn. induction Hts as [|a b l k Hab Hlk IHl]; [done|]. cbn [expand_tokens].
      rewrite (IH a b Hab). simpl. by rewrite IHl. }
    simpl. by rewrite fix_paths_id.
  - destruct u as [d ts sp| | |]; try done. by destruct (Hu d ts sp).
Qed.

End Paste.

(** ** The theorems *)

(** A generic type definition: attributes and visibility, [struct] and the name, the
    parameters, what follows them (a [where] clause), and the body. *)
Record TypeDef := MkTypeDef {
  attrs : TokenStream; kw : TokenTree; tname : string; tspan : Span;
  lt : TokenTree; comma : TokenTree; trailing : bool; params : list Param; gt : TokenTree;
  tail : TokenStream; bdelim : Delimiter; bstream : TokenStream; bspan : Span
}.

Definition typedef_tokens (d : TypeDef) : TokenStream :=
  (attrs d ++ [kw d; Ident (tname d) (tspan d)]) ++
  lt d :: sep (comma d) (trailing d) param_decl (params d) ++
  gt d :: tail d ++ [Group (bdelim d) (bstream d) (bspan d)].

(** The definition without its parameters. *)
Definition typedef_sig (d : TypeDef) : TokenStream := attrs d ++ kw d :: Ident (tname d) (tspan d) :: tail d.

Definition typedef_wf (d : TypeDef) : bool :=
  forallb (λ t, no_angle t && negb (is_ident "struct" t)) (attrs d) && is_ident "struct" (kw d) &&
  is_punct "<" (lt d) && is_punct "," (comma d) && is_punct ">" (gt d) &&
  negb (bool_decide (params d = [])) && params_wf (trailing d) (params d).

Definition decl_of (d : TypeDef) : TokenStream := sep (comma d) (trailing d) param_decl (params d).
Definition impl_of (d : TypeDef) : TokenStream := sep (comma d) (trailing d) param_impl (params d).
Definition ty_of (d : TypeDef) : TokenStream := sep (comma d) (trailing d) param_ty (params d).

(** [Name::<ty_generics>] *)
Definition self_type (d : TypeDef) : TokenStream :=
  Ident (tname d) (tspan d) :: q2 ++ punct_new "<" Alone :: ty_of d ++ [punct_new ">" Alone].

Lemma typedef_parse d :
  typedef_wf d = true →
  parse_generics (typedef_tokens d) =
    (MkGenerics (decl_of d) (impl_of d) (ty_of d), typedef_sig d ++ [Group (bdelim d) (bstream d) (bspan d)]) ∧
  forallb (negb ∘ is_ident "struct") (attrs d) = true ∧ is_ident "struct" (kw d) = true ∧ ty_of d ≠ [].
Proof.
  intros [[[[[[Ha Hk]%andb_true_iff Hl]%andb_true_iff Hc]%andb_true_iff Hg]%andb_true_iff Hp]%andb_true_iff
    Hw]%andb_true_iff.
  assert (forallb no_angle (attrs d) = true ∧ forallb (negb ∘ is_ident "struct") (attrs d) = true) as [Ha1 Ha2].
  { clear - Ha. induction (attrs d) as [|t l IH]; simpl in *; [done|]. unfold compose.
    apply andb_true_iff in Ha as [[-> ->]%andb_true_iff Ha]. auto. }
  split_and!; [|done|done|].
  - unfold typedef_tokens, typedef_sig. rewrite parse_generics_ok; [|rewrite forallb_app, Ha1; simpl|done..].
    + f_equal. by rewrite <- !app_assoc.
    + destruct (kw d); done.
  - unfold ty_of. destruct (params d) as [|[[]] [|]]; done.
Qed.

#[local] Opaque pin_data_call.

Lemma pin_data_ok args d :
  typedef_wf d = true → is_self (tname d) || existsb (mentions is_self) (ty_of d) = false →
  ∃ errs,
    pin_data args (typedef_tokens d) =
      pin_data_call args (flat_map (subst_self (self_type d)) (typedef_sig d))
        (flat_map (subst_self (self_type d)) (impl_of d)) (ty_of d) (decl_of d)
        [Group (bdelim d) (flat_map (subst_self (self_type d)) (bstream d)) CallSite] ++ errs ∧
    Forall (λ t, mentions is_self t = false)
      (flat_map (subst_self (self_type d)) (impl_of d ++ typedef_sig d ++ bstream d)) ∧
    (errs = [] ↔ existsb (mentions is_type_def) (impl_of d ++ bstream d) || existsb nested_def (typedef_sig d) = false).
Proof.
  intros Hwf Hself.
  destruct (typedef_parse d Hwf) as (Hpg & Ha & Hk & Hty). apply orb_false_iff in Hself as [Hnm Hs].
  assert (Forall (λ t, mentions is_self t = false) (self_type d)) as Hn.
  { unfold self_type. constructor; [done|]. repeat (constructor; [done|]). apply Forall_app.
    split; [by apply existsb_false_Forall|by repeat constructor]. }
  unfold pin_data. rewrite Hpg. simpl. unfold typedef_sig at 1 2.
  rewrite <- app_assoc, <- !app_comm_cons, struct_name_ok by done. fold (self_type d).
  change (attrs d ++ kw d :: Ident (tname d) (tspan d) :: tail d ++ ?l) with (attrs d ++ (kw d :: Ident (tname d) (tspan d) :: tail d) ++ l).
  rewrite (app_assoc (attrs d)). fold (typedef_sig d). fold (top_replace (self_type d)).
  destruct (replace_all_ok (self_type d) (impl_of d) Hn) as (Hi1 & Hi2 & Hi3).
  destruct (top_replace_ok (self_type d) (typedef_sig d ++ [Group (bdelim d) (bstream d) (bspan d)]) Hn) as (Hr1 & Hr2 & Hr3).
  destruct (flat_map_errs _ (impl_of d)) as [I1 e1], (flat_map_errs _ (typedef_sig d ++ _)) as [R1 e2]; simpl in *.
  subst I1 R1. rewrite flat_map_app in Hr2 |- *. cbn [flat_map subst_self app] in Hr2 |- *.
  rewrite last_snoc, length_app, Nat.add_sub, take_app_length. exists (e1 ++ e2). split; [done|].
  apply Forall_app in Hr2 as [Hr2 Hb]. apply (proj1 (Forall_singleton _ _)) in Hb. cbn [mentions] in Hb.
  rewrite !flat_map_app, !Forall_app. split; [split_and!; [done|done|exact (proj1 (existsb_false_Forall _ _) Hb)]|].
  rewrite existsb_app in Hr3. rewrite existsb_app, !orb_false_iff. simpl in Hr3. rewrite orb_false_r, orb_false_iff in Hr3.
  unfold nested_def in Hr3 at 2. simpl in Hr3.
  split; [intros [->%Hi3 [? ?]%Hr3]%app_eq_nil; done|].
  intros [[H1 H2] H3]. by rewrite (proj2 Hi3 H1), (proj2 Hr3 (conj H3 H2)).
Qed.

(** [#[pin_data]] on a generic struct: the macro call it produces holds the three
    renderings of the generic parameters that [Generics] documents, and the definition
    without them; every [Self] of the definition, at any depth of nesting, is replaced
    by the type, and none is left; an error is emitted if and only if a type is defined
    inside of the struct. *)
Theorem pin_data_correct args d
    (Hwf : typedef_wf d = true)
    (Hself : is_self (tname d) || existsb (mentions is_self) (ty_of d) = false) :
  ∃ errs,
    pin_data args (typedef_tokens d) =
      pin_data_call args (flat_map (subst_self (self_type d)) (typedef_sig d))
        (flat_map (subst_self (self_type d)) (impl_of d)) (ty_of d) (decl_of d)
        [Group (bdelim d) (flat_map (subst_self (self_type d)) (bstream d)) CallSite] ++ errs ∧
    Forall (λ t, mentions is_self t = false)
      (flat_map (subst_self (self_type d)) (impl_of d ++ typedef_sig d ++ bstream d)) ∧
    (errs = [] ↔ existsb (mentions is_type_def) (impl_of d ++ bstream d) || existsb nested_def (typedef_sig d) = false).
Proof. by apply pin_data_ok. Qed.

(** [#[derive(Zeroable)]] on a generic struct whose parameters are lifetimes and
    types with path-free bounds: every type parameter gets the bound
    [::kernel::init::Zeroable], before the bounds it has, and nothing else changes. *)
Theorem derive_zeroable_correct d
    (Hwf : typedef_wf d = true) (Htr : trailing d = false) (Hz : forallb zeroable_wf (params d) = true) :
  zeroable_derive (typedef_tokens d) =
  Done (zeroable_call (typedef_sig d) (sep (comma d) false param_zeroable (params d)) (ty_of d)
    [Group (bdelim d) (bstream d) (bspan d)]).
Proof.
  destruct (typedef_parse d Hwf) as (Hpg & _). unfold zeroable_derive. rewrite Hpg, vec_pop_snoc. simpl.
  unfold impl_of. rewrite Htr, zeroable_generics_ok; [done| | |done].
  - unfold typedef_wf in Hwf. by repeat (apply andb_true_iff in Hwf as [Hwf ?]).
  - unfold typedef_wf in Hwf. rewrite Htr in Hwf. by apply andb_true_iff in Hwf as [_ ?].
Qed.

(** ** Examples *)

Definition id (s : string) : TokenTree := Ident s (At 0).
Definition pu (c : ascii) : TokenTree := Punct c Alone (At 0).

Definition type_param (s : string) (bounds def : TokenStream) : Param := MkParam (HType (id s)) bounds def.
Definition lifetime_a : Param := MkParam (HLifetime (pu "'") (id "a")) [] [].
Definition const_param (s : string) (def : TokenStream) : Param :=
  MkParam (HConst (id "const") (id s)) [pu ":"; id "usize"] def.

(** [pub struct Buf<..> where T: Copy { next: Option<Self> }] *)
Definition buf (ps : list Param) (tr : bool) : TypeDef :=
  MkTypeDef [id "pub"] (id "struct") "Buf" (At 0) (pu "<") (pu ",") tr ps (pu ">")
    [id "where"; id "T"; pu ":"; id "Copy"] Brace
    [id "next"; pu ":"; id "Option"; pu "<"; id "Self"; pu ">"] (At 0).

Definition buf_params : list Param :=
  [lifetime_a; type_param "T" [pu ":"; id "Into"; pu "<"; id "u8"; pu ","; id "u8"; pu ">"] [];
   const_param "N" [pu "="; id "4"]].

Lemma pin_data_correct_witness :
  let d := buf buf_params false in
  typedef_wf d = true ∧
  ∃ errs,
    pin_data [] (typedef_tokens d) =
      pin_data_call [] (flat_map (subst_self (self_type d)) (typedef_sig d))
        (flat_map (subst_self (self_type d)) (impl_of d)) (ty_of d) (decl_of d)
        [Group Brace (flat_map (subst_self (self_type d)) (bstream d)) CallSite] ++ errs ∧
    Forall (λ t, mentions is_self t = false)
      (flat_map (subst_self (self_type d)) (impl_of d ++ typedef_sig d ++ bstream d)) ∧
    (errs = [] ↔ existsb (mentions is_type_def) (impl_of d ++ bstream d) || existsb nested_def (typedef_sig d) = false).
Proof.
  intros d. split; [vm_compute; reflexivity|].
  apply (pin_data_correct [] d); vm_compute; reflexivity.
Defined.

Lemma derive_zeroable_correct_witness :
  let d := buf [lifetime_a; type_param "T" [pu ":"; id "Copy"] []; type_param "U" [] []] false in
  typedef_wf d = true ∧ forallb zeroable_wf (params d) = true ∧
  zeroable_derive (typedef_tokens d) =
  Done (zeroable_call (typedef_sig d) (sep (pu ",") false param_zeroable (params d)) (ty_of d)
    [Group Brace (bstream d) (At 0)]).
Proof.
  intros d. split; [vm_compute; reflexivity|]. split; [vm_compute; reflexivity|].
  apply (derive_zeroable_correct d); vm_compute; reflexivity.
Defined.

(** A default that is not on the last parameter: the comma after it goes twice to the
    [impl] generics, and the parameters after it are missing from the type generics. *)
Lemma default_before_param :
  parse_generics (typedef_tokens (buf [type_param "T" [] [pu "="; id "u8"]; type_param "U" [] []] false)) =
  (MkGenerics [id "T"; pu "="; id "u8"; pu ","; id "U"] [id "T"; pu ","; pu ","; id "U"] [id "T"],
   typedef_sig (buf [] false) ++ [Group Brace (bstream (buf [] false)) (At 0)]).
Proof. vm_compute. reflexivity. Qed.

(** The [>] of an arrow in a bound is taken for the end of the parameters. *)
Lemma arrow_in_bound :
  fst (parse_generics ([id "struct"; id "S"; pu "<"; id "F"; pu ":"; id "Fn"; Group Parenthesis [] (At 0);
    Punct "-" Joint (At 0); pu ">"; id "u8"; pu ">"])) =
  MkGenerics [id "F"; pu ":"; id "Fn"; Group Parenthesis [] (At 0); Punct "-" Joint (At 0)]
    [id "F"; pu ":"; id "Fn"; Group Parenthesis [] (At 0); Punct "-" Joint (At 0)] [id "F"].
Proof. vm_compute. reflexivity. Qed.

(** [derive(Zeroable)] puts the bound on the type of a constant parameter, after every
    colon of a path, and after a trailing comma. *)
Lemma zeroable_const_param :
  zeroable_generics (param_impl (const_param "N" [])) =
  Done ([id "const"; id "N"; pu ":"] ++ zeroable_plus ++ [id "usize"]).
Proof. vm_compute. reflexivity. Qed.

Lemma zeroable_path_bound :
  zeroable_generics [id "T"; pu ":"; id "fmt"; Punct ":" Joint (At 0); pu ":"; id "Debug"] =
  Done ([id "T"; pu ":"] ++ zeroable_plus ++ [id "fmt"; Punct ":" Joint (At 0)] ++ zeroable_plus ++
        [pu ":"] ++ zeroable_plus ++ [id "Debug"]).
Proof. vm_compute. reflexivity. Qed.

Lemma zeroable_trailing_comma :
  zeroable_generics [id "T"; pu ","] = Done (id "T" :: zeroable_bound ++ pu "," :: zeroable_bound).
Proof. vm_compute. reflexivity. Qed.

(** The ASCII part of the tables, for the examples. *)
Definition ascii_upper (c : ascii) : ascii :=
  let n := Ascii.nat_of_ascii c in
  if (97 <=? n)%nat && (n <=? 122)%nat then Ascii.ascii_of_nat (n - 32) else c.
Fixpoint map_string (f : ascii → ascii) (s : string) : string :=
  match s with EmptyString => EmptyString | String c s => String (f c) (map_string f s) end.
#[local] Instance Ascii_tables : Unicode :=
  {| to_uppercase := map_string ascii_upper; to_lowercase := λ s, s; valid_ident := λ s, negb (String.eqb s "") |}.


(** Two empty invisible groups around [::] make the loop over the paths index past the
    end of the tokens. *)
Lemma paste_empty_groups_panic :
  paste_expand [id "x"; Group NoDelim [] (At 0); Punct ":" Joint (At 0); pu ":"; Group NoDelim [] (At 0)] = Panic.
Proof. vm_compute. reflexivity. Qed.
