(* ===== verification/Quote.v ===== *)
(** * Token quoting ([rust/macros/quote.rs])

    [quote_spanned!] is a macro by example: its arms consume a template from the left and push the
    tokens that they stand for. The templates are those of the macros of this crate, and what they
    expand to is what Macros writes down. *)

From Stdlib Require Import Ascii String.
From stdpp Require Import strings.
From S2P Require Import Prelude Macros.

(** ** Templates and interpolated values *)

(** The tokens of a template, as a [macro_rules!] arm sees them. [MOther]: any token that no arm
    mentions. *)
Inductive MTok :=
| MHash | MStar | MPathSep | MColon | MComma | MAt | MBang | MSemi | MPlus
| MIdent (name : string)
| MGroup (d : Delimiter) (inner : list MTok)
| MOther (text : string).

(** Values with [ToTokens]: a [Group] is a [TokenTree] here. *)
Inductive Quotable := QTree (t : TokenTree) | QStream (ts : TokenStream) | QOption (o : option Quotable).

Fixpoint to_tokens (q : Quotable) (tokens : TokenStream) : TokenStream :=
  match q with
  | QTree t => tokens ++ [t]
  | QStream ts => tokens ++ ts
  | QOption (Some q) => to_tokens q tokens
  | QOption None => tokens
  end.

(** What the name of an interpolation is bound to: a value, or something that is iterated. *)
Inductive Binding := BValue (q : Quotable) | BMany (qs : list Quotable).

Section Quote.
Context (env : string → option Binding).

(** [@proc]: the first arm that matches; [None] is a build error. *)
Fixpoint quote_group (span : Span) (t : MTok) : option TokenStream :=
  match t with
  | MGroup _ inner =>
      (fix proc (v : TokenStream) (tts : list MTok) : option TokenStream :=
         match tts with
         | [] => Some v
         | MHash :: MIdent id :: tts =>
             match env id with
             | Some (BValue q) => let ts := to_tokens q [] in proc (v ++ ts) tts
             | _ => None
             end
         | MHash :: MGroup Parenthesis [MHash; MIdent id] :: MStar :: tts =>
             match env id with
             | Some (BMany qs) => proc (foldl (λ v token, v ++ to_tokens token []) v qs) tts
             | _ => None
             end
         | (MGroup Parenthesis _ as g) :: tts => tokens ← quote_group span g; proc (v ++ [group_new Parenthesis tokens]) tts
         | (MGroup Bracket _ as g) :: tts => tokens ← quote_group span g; proc (v ++ [group_new Bracket tokens]) tts
         | (MGroup Brace _ as g) :: tts => tokens ← quote_group span g; proc (v ++ [group_new Brace tokens]) tts
         | MPathSep :: tts => proc (v ++ [punct_new ":" Joint] ++ [punct_new ":" Alone]) tts
         | MColon :: tts => proc (v ++ [punct_new ":" Alone]) tts
         | MComma :: tts => proc (v ++ [punct_new "," Alone]) tts
         | MAt :: tts => proc (v ++ [punct_new "@" Alone]) tts
         | MBang :: tts => proc (v ++ [punct_new "!" Alone]) tts
         | MSemi :: tts => proc (v ++ [punct_new ";" Alone]) tts
         | MPlus :: tts => proc (v ++ [punct_new "+" Alone]) tts
         | MIdent id :: tts => proc (v ++ [Ident id span]) tts
         | _ => None
         end) [] inner
  | _ => None
  end.

Definition quote_spanned (span : Span) (tts : list MTok) : option TokenStream := quote_group span (MGroup NoDelim tts).
Definition quote (tts : list MTok) : option TokenStream := quote_spanned MixedSite tts.
End Quote.

(** ** The templates of the macros *)

(** [@key(..),] *)
Definition m_entry (key : string) (inner : list MTok) : list MTok := [MAt; MIdent key; MGroup Parenthesis inner; MComma].
Definition m_rep (id : string) : list MTok := [MHash; MGroup Parenthesis [MHash; MIdent id]; MStar].

(** [pin_data.rs] *)
Definition pin_data_template : list MTok :=
  [MPathSep; MIdent "kernel"; MPathSep; MIdent "__pin_data"; MBang; MGroup Brace (
    [MIdent "parse_input"; MColon] ++
    m_entry "args" [MHash; MIdent "args"] ++
    m_entry "sig" (m_rep "rest") ++
    m_entry "impl_generics" (m_rep "impl_generics") ++
    m_entry "ty_generics" (m_rep "ty_generics") ++
    m_entry "decl_generics" (m_rep "decl_generics") ++
    m_entry "body" [MHash; MIdent "last"])].

(** [pinned_drop.rs] *)
Definition pinned_drop_path : list MTok := [MPathSep; MIdent "kernel"; MPathSep; MIdent "init"; MPathSep].
Definition pinned_drop_template : list MTok :=
  [MPathSep; MIdent "kernel"; MPathSep; MIdent "__pinned_drop"; MBang; MGroup Brace (
    m_entry "impl_sig" (m_rep "toks") ++ m_entry "impl_body" [MHash; MIdent "last"])].

(** [zeroable.rs] *)
Definition zeroable_bound_template : list MTok :=
  [MColon; MPathSep; MIdent "kernel"; MPathSep; MIdent "init"; MPathSep; MIdent "Zeroable"].
Definition zeroable_plus_template : list MTok :=
  [MPathSep; MIdent "kernel"; MPathSep; MIdent "init"; MPathSep; MIdent "Zeroable"; MPlus].
Definition zeroable_template : list MTok :=
  [MPathSep; MIdent "kernel"; MPathSep; MIdent "__derive_zeroable"; MBang; MGroup Parenthesis (
    [MIdent "parse_input"; MColon] ++
    m_entry "sig" (m_rep "rest") ++
    m_entry "impl_generics" (m_rep "new_impl_generics") ++
    m_entry "ty_generics" (m_rep "ty_generics") ++
    m_entry "body" [MHash; MIdent "last"]); MSemi].

(** An environment from a list of bindings. *)
Fixpoint env_of (l : list (string * Binding)) (id : string) : option Binding :=
  match l with
  | [] => None
  | (x, b) :: l => if String.eqb x id then Some b else env_of l id
  end.
Definition many (ts : TokenStream) : Binding := BMany (QTree <$> ts).
Definition opt (o : option TokenTree) : Binding := BValue (QOption (QTree <$> o)).

(** A repetition pushes the tokens in order. *)
Lemma quote_many ts : ∀ v, foldl (λ v token, v ++ to_tokens token []) v (QTree <$> ts) = v ++ ts.
Proof.
  induction ts as [|t ts IH]; intros v; cbn; [by rewrite app_nil_r|]. rewrite IH. simpl. by rewrite <- app_assoc.
Qed.

Lemma quote_option o : to_tokens (QOption (QTree <$> o)) [] = quote_opt o.
Proof. by destruct o. Qed.

Ltac quote_expand :=
  unfold quote, quote_spanned; cbn -[foldl to_tokens quote_opt fmap];
  repeat (rewrite ?quote_many, ?quote_option; progress (unfold mbind, option_bind; cbn -[foldl to_tokens quote_opt fmap])).

(** What the macros emit is what their templates say. *)
Theorem quotes_expand (args last_body : TokenStream) (rest impl ty decl toks new : TokenStream) (last : option TokenTree) :
  quote (env_of [("args", BValue (QStream args)); ("rest", many rest); ("impl_generics", many impl);
                 ("ty_generics", many ty); ("decl_generics", many decl); ("last", opt last)]%string) pin_data_template =
    Some (pin_data_call args rest impl ty decl (quote_opt last)) ∧
  quote (env_of []) pinned_drop_path = Some (q2 ++ [qi "kernel"] ++ q2 ++ [qi "init"] ++ q2) ∧
  quote (env_of [("toks", many toks); ("last", BValue (QStream last_body))]%string) pinned_drop_template =
    Some (q2 ++ [qi "kernel"] ++ q2 ++ [qi "__pinned_drop"; qp "!"; group_new Brace (
      entry "impl_sig" toks ++ entry "impl_body" last_body)]) ∧
  quote (env_of []) zeroable_bound_template = Some zeroable_bound ∧
  quote (env_of []) zeroable_plus_template = Some zeroable_plus ∧
  quote (env_of [("rest", many rest); ("new_impl_generics", many new); ("ty_generics", many ty); ("last", opt last)]%string)
    zeroable_template = Some (zeroable_call rest new ty (quote_opt last)).
Proof. by split_and!; quote_expand. Qed.
