(* ===== verification/PinMacros.v ===== *)
(** * The macros behind [#[pin_data]], [#[pinned_drop]] and [derive(Zeroable)] ([init/macros.rs])

    The procedural macros of Macros end in calls of [__pin_data!], [__pinned_drop!] and
    [__derive_zeroable!], whose rules are here as functions on tokens: what they match, field by
    field, and the items that they expand to. The theorems put both stages together. Bound
    fragments are spliced in; a type is bound as a whole, in a group without delimiters. The
    parser of types is the compiler's and a parameter. *)

From Stdlib Require Import Ascii String.
From stdpp Require Import strings.
From S2P Require Import Prelude Macros MacrosThms.
#[local] Open Scope string_scope.
#[local] Open Scope list_scope.

(** ** Templates *)

(** The tokens of a text; [$x] is an identifier here. *)
Definition word_char (c : ascii) : bool :=
  let n := Ascii.nat_of_ascii c in
  ((48 <=? n) && (n <=? 57) || (65 <=? n) && (n <=? 90) || (97 <=? n) && (n <=? 122) || (n =? 95) || (n =? 36))%nat.
Definition opening (c : ascii) : bool := Ascii.eqb c "(" || Ascii.eqb c "[" || Ascii.eqb c "{".
Definition closing (c : ascii) : option Delimiter :=
  if Ascii.eqb c ")" then Some Parenthesis else if Ascii.eqb c "]" then Some Bracket
  else if Ascii.eqb c "}" then Some Brace else None.
Definition joins (s : string) : bool :=
  match s with
  | String c _ => negb (word_char c || opening c || bool_decide (is_Some (closing c)) || Ascii.eqb c " " || Ascii.eqb c "'")
  | EmptyString => false
  end.

Definition flush (word : string) (cur : TokenStream) : TokenStream :=
  match word with EmptyString => cur | _ => cur ++ [qi word] end.

Fixpoint lex (s word : string) (cur : TokenStream) (outer : list TokenStream) : TokenStream :=
  match s with
  | EmptyString => flush word cur
  | String c s =>
      if word_char c then lex s (word +:+ String c EmptyString) cur outer
      else if Ascii.eqb c " " then lex s EmptyString (flush word cur) outer
      else if opening c then lex s EmptyString [] (flush word cur :: outer)
      else match closing c, outer with
        | Some d, o :: outer => lex s EmptyString (o ++ [group_new d (flush word cur)]) outer
        | _, _ => lex s EmptyString (flush word cur ++ [punct_new c (if joins s || Ascii.eqb c "'" then Joint else Alone)]) outer
        end
  end.

(** The fragments that are bound, by name. *)
Abbreviation Frags := (list (string * TokenStream)).

Fixpoint frag (env : Frags) (x : string) : option TokenStream :=
  match env with
  | [] => None
  | (y, ts) :: env => if String.eqb y x then Some ts else frag env x
  end.

Fixpoint substitute (env : Frags) (t : TokenTree) : TokenStream :=
  match t with
  | Ident x _ => match frag env x with Some ts => ts | None => [t] end
  | Group d ts sp => [Group d (flat_map (substitute env) ts) sp]
  | _ => [t]
  end.

Definition template (env : Frags) (s : string) : TokenStream := flat_map (substitute env) (lex s EmptyString [] []).

(** A string literal. *)
Definition str_lit (s : string) : TokenTree := Literal (String dquote (s +:+ String dquote EmptyString)) MixedSite.

(** ** Matching *)

Definition strip_ident (s : string) (ts : TokenStream) : option TokenStream :=
  match ts with t :: ts => if is_ident s t then Some ts else None | [] => None end.
Definition strip_punct (c : ascii) (ts : TokenStream) : option TokenStream :=
  match ts with t :: ts => if is_punct c t then Some ts else None | [] => None end.
(** [::] *)
Definition strip_sep (ts : TokenStream) : option TokenStream :=
  match ts with
  | Punct c Joint _ :: d :: ts => if Ascii.eqb c ":" && is_punct ":" d then Some ts else None
  | _ => None
  end.

(** A single colon. *)
Definition strip_colon (ts : TokenStream) : option TokenStream :=
  match strip_sep ts with Some _ => None | None => strip_punct ":" ts end.

(** [$x:ident] *)
Definition take_ident (ts : TokenStream) : option (TokenTree * TokenStream) :=
  match ts with
  | Ident i sp :: ts => if String.eqb i "_" then None else Some (Ident i sp, ts)
  | _ => None
  end.

(** [$v:vis] *)
Definition take_vis (ts : TokenStream) : TokenStream * TokenStream :=
  match ts with
  | t :: ((Group Parenthesis _ _ as g) :: ts2) as ts1 => if is_ident "pub" t then ([t; g], ts2) else ([], ts)
  | t :: ts1 => if is_ident "pub" t then ([t], ts1) else ([], ts)
  | [] => ([], [])
  end.

(** [$(#[$($attr:tt)*])*], as it is written back. *)
Definition attr_tokens (body : TokenStream) : TokenStream := [qp "#"; group_new Bracket body].

Fixpoint take_attrs (ts : TokenStream) : TokenStream * TokenStream :=
  match ts with
  | h :: Group Bracket g _ :: ts' =>
      if is_punct "#" h then let '(attrs, rest) := take_attrs ts' in (attr_tokens g ++ attrs, rest) else ([], ts)
  | _ => ([], ts)
  end.

(** [@key(..),] *)
Definition take_entry (key : string) (ts : TokenStream) : option (TokenStream * TokenStream) :=
  ts ← strip_punct "@" ts; ts ← strip_ident key ts;
  match ts with
  | Group Parenthesis inner _ :: ts => ts ← strip_punct "," ts; Some (inner, ts)
  | _ => None
  end.

(** An optional [where] with everything behind it. *)
Definition take_where (ts : TokenStream) : option TokenStream :=
  match ts with [] => Some [] | _ => strip_ident "where" ts end.

Definition strip_end (ts : TokenStream) : option unit := match ts with [] => Some tt | _ => None end.

Section Rules.
(** The parser of a type at the start: the type, and the rest. *)
Context (ty : TokenStream → option (TokenStream * TokenStream)).

(** [$t:ty]; one that was bound before is a group of its own. *)
Definition take_ty (ts : TokenStream) : option (TokenTree * TokenStream) :=
  match ts with
  | Group NoDelim t sp :: ts => Some (Group NoDelim t sp, ts)
  | _ => '(t, ts) ← ty ts; Some (group_new NoDelim t, ts)
  end.

(** ** [__pinned_drop!] *)

Definition pinned_drop_rules (ts : TokenStream) : option TokenStream :=
  '(impl_sig, ts) ← take_entry "impl_sig" ts;
  '(impl_body, ts) ← take_entry "impl_body" ts;
  _ ← strip_end ts;
  let '(attrs, body) := take_attrs impl_body in
  body ← strip_ident "fn" body; body ← strip_ident "drop" body;
  match body with
  | [Group Parenthesis sig _; Group Brace inner _] =>
      Some (template [("$impl_sig", impl_sig); ("$attrs", attrs); ("$sig", sig); ("$inner", inner)]
        "unsafe $impl_sig { $attrs fn drop($sig, _: $crate::init::__internal::OnlyCallFromDrop) { $inner } }")
  | _ => None
  end.

(** ** [__pin_data!] *)

(** The parameters of [find_pinned_fields] that change; [s_errors] are the items that it has
    emitted. *)
Record PinState := MkPinState {
  s_pinned : TokenStream; s_not_pinned : TokenStream; s_fields : TokenStream;
  s_accum : TokenStream; s_is_pinned : bool; s_errors : TokenStream
}.

Definition push_field (pin : bool) (f : TokenStream) (s : PinState) : PinState :=
  MkPinState (if pin then s_pinned s ++ f else s_pinned s) (if pin then s_not_pinned s else s_not_pinned s ++ f)
    (s_fields s ++ f) [] false (s_errors s).
Definition push_accum (ts : TokenStream) (s : PinState) : PinState :=
  MkPinState (s_pinned s) (s_not_pinned s) (s_fields s) (s_accum s ++ ts) (s_is_pinned s) (s_errors s).
Definition mark_pinned (s : PinState) : PinState :=
  MkPinState (s_pinned s) (s_not_pinned s) (s_fields s) (s_accum s) true (s_errors s).
Definition push_error (f : TokenTree) (s : PinState) : PinState :=
  MkPinState (s_pinned s) (s_not_pinned s) (s_fields s) (s_accum s) (s_is_pinned s)
    (s_errors s ++ template [("$field", [f]); ("$before", [str_lit "The field `"]);
        ("$after", [str_lit "` of type `PhantomPinned` only has an effect, if it has the `#[pin]` attribute."])]
      "::core::compile_error!(concat!($before, stringify!($field), $after,));").

(** [$($($(::)?core::)?marker::)?PhantomPinned,] *)
Definition strip_core (ts : TokenStream) : option TokenStream :=
  ts ← strip_ident "core" (default ts (strip_sep ts)); strip_sep ts.
Definition strip_marker (ts : TokenStream) : option TokenStream :=
  ts ← strip_ident "marker" (default ts (strip_core ts)); strip_sep ts.
Definition strip_phantom (ts : TokenStream) : option TokenStream :=
  ts ← strip_ident "PhantomPinned" (default ts (strip_marker ts)); strip_punct "," ts.

(** [$field: $type,] *)
Definition typed_field (accum : TokenStream) (f : TokenTree) (t : TokenStream) : TokenStream :=
  accum ++ [f; qp ":"] ++ t ++ [qp ","].

Definition is_pin (body : TokenStream) : bool := match body with [t] => is_ident "pin" t | _ => false end.

(** The rules of [find_pinned_fields] in order. One that calls itself with the same fields runs
    into the recursion limit of the compiler, like [fuel]. *)
Fixpoint find_pinned_rules (fuel : nat) (munch : TokenStream) (s : PinState) : option PinState :=
  match fuel with
  | O => None
  | S fuel =>
      match ('(f, ts) ← take_ident munch; ts ← strip_colon ts; Some (f, ts)) with
      | Some (f, ts) =>
          match (if s_is_pinned s then None else strip_phantom ts) with
          | Some ts =>
              let fd := typed_field (s_accum s) f (template [] "::core::marker::PhantomPinned") in
              find_pinned_rules fuel ts (push_field true fd (push_error f s))
          | None =>
              '(t, ts) ← take_ty ts; ts ← strip_punct "," ts;
              find_pinned_rules fuel ts (push_field (s_is_pinned s) (typed_field (s_accum s) f [t]) s)
          end
      | None =>
          match munch with
          | h :: Group Bracket g _ :: ts =>
              if is_punct "#" h then
                find_pinned_rules fuel ts (if is_pin g then mark_pinned s else push_accum (attr_tokens g) s)
              else None
          | _ =>
              let '(v, ts) := take_vis munch in
              match take_ident ts with
              | Some _ => find_pinned_rules fuel ts (push_accum v s)
              | None =>
                  match munch, s_accum s, s_is_pinned s with
                  | [], [], false => Some s
                  | [t], [], false => if is_punct "," t then Some s else None
                  | _, _, _ => None
                  end
              end
          end
      end
  end.

(** A field in the lists, as [make_pin_data] takes them apart. *)
Record Member := MkMember { m_attrs : TokenStream; m_vis : TokenStream; m_name : TokenTree; m_type : TokenTree }.

(** [$(.. $field:ident : $type:ty),* $(,)?] *)
Fixpoint take_members (fuel : nat) (ts : TokenStream) : option (list Member) :=
  match fuel, ts with
  | _, [] => Some []
  | O, _ => None
  | S fuel, _ =>
      let '(attrs, ts) := take_attrs ts in
      let '(v, ts) := take_vis ts in
      '(f, ts) ← take_ident ts; ts ← strip_colon ts; '(t, ts) ← take_ty ts;
      match ts with
      | [] => Some [MkMember attrs v f t]
      | _ => ts ← strip_punct "," ts; ms ← take_members fuel ts; Some (MkMember attrs v f t :: ms)
      end
  end.

(** What stays the same: the struct without its fields. *)
Record Header := MkHeader {
  h_attrs : TokenStream; h_vis : TokenStream; h_name : TokenTree;
  h_impl : TokenStream; h_ty : TokenStream; h_decl : TokenStream; h_where : TokenStream;
  h_drop : TokenStream
}.

Definition header_frags (h : Header) : Frags :=
  [("$struct_attrs", h_attrs h); ("$vis", h_vis h); ("$name", [h_name h]); ("$impl_generics", h_impl h);
   ("$ty_generics", h_ty h); ("$decl_generics", h_decl h); ("$whr", h_where h)].

Definition projection (trait_ method : string) (m : Member) : TokenStream :=
  template [("$attrs", m_attrs m); ("$fvis", m_vis m); ("$field", [m_name m]); ("$type", [m_type m]);
            ("$trait", [qi trait_]); ("$method", [qi method])]
    ("$attrs $fvis unsafe fn $field<E>(self, slot: *mut $type, init: impl $crate::init::$trait<$type, E>,)"
     +:+ " -> ::core::result::Result<(), E> { unsafe { $crate::init::$trait::$method(init, slot) } }").

(** [make_pin_data] *)
Definition make_pin_data (h : Header) (pinned not_pinned : list Member) : TokenStream :=
  template (("$projections", flat_map (projection "PinInit" "__pinned_init") pinned ++
      flat_map (projection "Init" "__init") not_pinned) :: header_frags h)
    ("#[allow(dead_code)] #[expect(clippy::missing_safety_doc)]"
     +:+ " impl<$impl_generics> __ThePinData<$ty_generics> where $whr { $projections }").

(** [drop_prevention] *)
Definition wrong_parameters (rest : TokenStream) : TokenStream :=
  template [("$rest", rest);
      ("$message", [str_lit "Wrong parameters to `#[pin_data]`, expected nothing or `PinnedDrop`, got '{}'."])]
    "compile_error!($message, stringify!($rest),);".

Definition drop_prevention_rules (h : Header) : TokenStream :=
  match h_drop h with
  | [] => template (header_frags h)
      ("trait MustNotImplDrop {} #[expect(drop_bounds)] impl<T: ::core::ops::Drop> MustNotImplDrop for T {}"
       +:+ " impl<$impl_generics> MustNotImplDrop for $name<$ty_generics> where $whr {}"
       +:+ " #[expect(non_camel_case_types)] trait UselessPinnedDropImpl_you_need_to_specify_PinnedDrop {}"
       +:+ " impl<T: $crate::init::PinnedDrop> UselessPinnedDropImpl_you_need_to_specify_PinnedDrop for T {}"
       +:+ " impl<$impl_generics> UselessPinnedDropImpl_you_need_to_specify_PinnedDrop for $name<$ty_generics>"
       +:+ " where $whr {}")
  | [t] =>
      if is_ident "PinnedDrop" t then template (header_frags h)
        ("impl<$impl_generics> ::core::ops::Drop for $name<$ty_generics> where $whr { fn drop(&mut self) {"
         +:+ " let pinned = unsafe { ::core::pin::Pin::new_unchecked(self) };"
         +:+ " let token = unsafe { $crate::init::__internal::OnlyCallFromDrop::new() };"
         +:+ " $crate::init::PinnedDrop::drop(pinned, token); } }")
      else wrong_parameters [t]
  | ts => wrong_parameters ts
  end.

(** The items of the last rule of [find_pinned_fields]. *)
Definition pin_data_items (h : Header) (fields pinned : TokenStream) (ps ns : list Member) : TokenStream :=
  template (("$fields", fields) :: header_frags h) "$struct_attrs $vis struct $name <$decl_generics> where $whr { $fields }" ++
  template (("$pinned", pinned) :: ("$make_pin_data", make_pin_data h ps ns) :: ("$drop_prevention", drop_prevention_rules h)
      :: header_frags h)
    ("const _: () = { $vis struct __ThePinData<$impl_generics> where $whr { __phantom: ::core::marker::PhantomData<"
     +:+ "fn($name<$ty_generics>) -> $name<$ty_generics> >, }"
     +:+ " impl<$impl_generics> ::core::clone::Clone for __ThePinData<$ty_generics> where $whr"
     +:+ " { fn clone(&self) -> Self { *self } }"
     +:+ " impl<$impl_generics> ::core::marker::Copy for __ThePinData<$ty_generics> where $whr {}"
     +:+ " $make_pin_data"
     +:+ " unsafe impl<$impl_generics> $crate::init::__internal::HasPinData for $name<$ty_generics> where $whr"
     +:+ " { type PinData = __ThePinData<$ty_generics>; unsafe fn __pin_data() -> Self::PinData"
     +:+ " { __ThePinData { __phantom: ::core::marker::PhantomData } } }"
     +:+ " unsafe impl<$impl_generics> $crate::init::__internal::PinData for __ThePinData<$ty_generics> where $whr"
     +:+ " { type Datee = $name<$ty_generics>; }"
     +:+ " #[allow(dead_code)] struct __Unpin <'__pin, $impl_generics> where $whr"
     +:+ " { __phantom_pin: ::core::marker::PhantomData<fn(&'__pin ()) -> &'__pin ()>,"
     +:+ " __phantom: ::core::marker::PhantomData<fn($name<$ty_generics>) -> $name<$ty_generics> >, $pinned }"
     +:+ " #[doc(hidden)] impl<'__pin, $impl_generics> ::core::marker::Unpin for $name<$ty_generics> where"
     +:+ " __Unpin<'__pin, $ty_generics>: ::core::marker::Unpin, $whr {}"
     +:+ " $drop_prevention };").

(** [parse_input], and the rules behind it. *)
Definition pin_data_rules (ts : TokenStream) : option TokenStream :=
  ts ← strip_ident "parse_input" ts; ts ← strip_colon ts;
  '(args, ts) ← take_entry "args" ts; '(sig, ts) ← take_entry "sig" ts;
  '(impl, ts) ← take_entry "impl_generics" ts; '(tyg, ts) ← take_entry "ty_generics" ts;
  '(decl, ts) ← take_entry "decl_generics" ts; '(body, ts) ← take_entry "body" ts;
  _ ← strip_end ts;
  _ ← match args with [] => Some tt | _ => '(_, rest) ← take_ident args; strip_end rest end;
  let '(attrs, sig) := take_attrs sig in
  let '(v, sig) := take_vis sig in
  sig ← strip_ident "struct" sig; '(name, sig) ← take_ident sig; whr ← take_where sig;
  match body with
  | [Group Brace fields _] =>
      s ← find_pinned_rules (2 + length fields) (fields ++ [qp ","]) (MkPinState [] [] [] [] false []);
      ps ← take_members (length (s_pinned s)) (s_pinned s);
      ns ← take_members (length (s_not_pinned s)) (s_not_pinned s);
      Some (s_errors s ++ pin_data_items (MkHeader attrs v name impl tyg decl whr args) (s_fields s) (s_pinned s) ps ns)
  | _ => None
  end.

(** ** [__derive_zeroable!] *)

(** [$($(#[$($field_attr:tt)*])* $field:ident : $field_ty:ty),* $(,)?] *)
Fixpoint take_zfields (fuel : nat) (ts : TokenStream) : option (list TokenTree) :=
  match fuel, ts with
  | _, [] => Some []
  | O, _ => None
  | S fuel, _ =>
      let '(_, ts) := take_attrs ts in
      '(f, ts) ← take_ident ts; ts ← strip_colon ts; '(t, ts) ← take_ty ts;
      match ts with
      | [] => Some [t]
      | _ => ts ← strip_punct "," ts; rest ← take_zfields fuel ts; Some (t :: rest)
      end
  end.

(** The expansion; every type of a field is checked. *)
Definition zeroable_items (name : TokenTree) (impl tyg whr : TokenStream) (tys : list TokenTree) : TokenStream :=
  template [("$name", [name]); ("$impl_generics", impl); ("$ty_generics", tyg); ("$whr", whr);
      ("$checks", flat_map (λ t, template [("$field_ty", [t])] "assert_zeroable::<$field_ty>();") tys)]
    ("#[automatically_derived] unsafe impl<$impl_generics> $crate::init::Zeroable for $name<$ty_generics>"
     +:+ " where $whr {} const _: () = {"
     +:+ " fn assert_zeroable<T: ?::core::marker::Sized + $crate::init::Zeroable>() {}"
     +:+ " fn ensure_zeroable<$impl_generics>() where $whr { $checks } };").

Definition derive_zeroable_rules (ts : TokenStream) : option TokenStream :=
  ts ← strip_ident "parse_input" ts; ts ← strip_colon ts;
  '(sig, ts) ← take_entry "sig" ts; '(impl, ts) ← take_entry "impl_generics" ts;
  '(tyg, ts) ← take_entry "ty_generics" ts; '(body, ts) ← take_entry "body" ts;
  _ ← strip_end ts;
  let '(_, sig) := take_attrs sig in
  let '(v, sig) := take_vis sig in
  sig ← strip_ident "struct" sig; '(name, sig) ← take_ident sig; whr ← take_where sig;
  match body with
  | [Group Brace fields _] =>
      tys ← take_zfields (length fields) fields;
      Some (zeroable_items name impl tyg whr tys)
  | _ => None
  end.
End Rules.

(** ** Struct declarations *)

(** An attribute as it is written. *)
Record Attr := MkAttr { at_hash : TokenTree; at_body : TokenStream; at_span : Span }.
Definition attr_src (a : Attr) : TokenStream := [at_hash a; Group Bracket (at_body a) (at_span a)].
Definition attrs_src (l : list Attr) : TokenStream := flat_map attr_src l.
Definition attrs_out (l : list Attr) : TokenStream := flat_map (λ a, attr_tokens (at_body a)) l.
Definition attr_wf (a : Attr) : Prop := is_punct "#" (at_hash a) = true.

Inductive vis_wf : TokenStream → Prop :=
| vis_none : vis_wf []
| vis_pub t : is_ident "pub" t = true → vis_wf [t]
| vis_in t g sp : is_ident "pub" t = true → vis_wf [t; Group Parenthesis g sp].

(** A field: attributes, visibility, name, colon and type, and the comma behind it. *)
Record FDecl := MkFDecl {
  fd_attrs : list Attr; fd_vis : TokenStream; fd_name : string; fd_span : Span;
  fd_colon : Spacing; fd_colon_span : Span; fd_ty : TokenStream; fd_phantom : bool; fd_comma : TokenTree
}.

Definition fd_ident (d : FDecl) : TokenTree := Ident (fd_name d) (fd_span d).
Definition fd_head (d : FDecl) : TokenStream :=
  attrs_src (fd_attrs d) ++ fd_vis d ++ fd_ident d :: Punct ":" (fd_colon d) (fd_colon_span d) :: fd_ty d.
Definition fd_src (d : FDecl) : TokenStream := fd_head d ++ [fd_comma d].

Section Declarations.
Context (ty : TokenStream → option (TokenStream * TokenStream)).

(** The type is one that the parser takes up to the comma, and [fd_phantom] says whether it is
    written like [PhantomPinned]. *)
Record fd_wf (d : FDecl) : Prop := {
  fw_attrs : Forall attr_wf (fd_attrs d);
  fw_vis : vis_wf (fd_vis d);
  fw_name : String.eqb (fd_name d) "_" = false;
  fw_pub : String.eqb (fd_name d) "pub" = false;
  fw_colon : match fd_colon d, fd_ty d with Joint, t :: _ => is_punct ":" t = false | Joint, [] => False | Alone, _ => True end;
  fw_type rest : is_punct "," (fd_comma d) = true → take_ty ty (fd_ty d ++ fd_comma d :: rest) =
    Some (group_new NoDelim (fd_ty d), fd_comma d :: rest);
  fw_phantom rest : strip_phantom (fd_ty d ++ fd_comma d :: rest) = if fd_phantom d then Some rest else None;
  fw_comma : is_punct "," (fd_comma d) = true
}.

Definition fd_pinned (d : FDecl) : bool := existsb (λ a, is_pin (at_body a)) (fd_attrs d).
(** [#[pin]] is not an attribute of the struct that is declared. *)
Definition fd_kept (d : FDecl) : list Attr := filter (λ a, is_pin (at_body a) = false) (fd_attrs d).
(** A [PhantomPinned] that has no effect. *)
Definition fd_bad (d : FDecl) : bool := fd_phantom d && negb (fd_pinned d).

Definition fd_out (d : FDecl) : TokenStream :=
  typed_field (attrs_out (fd_kept d) ++ fd_vis d) (fd_ident d)
    (if fd_bad d then template [] "::core::marker::PhantomPinned" else [group_new NoDelim (fd_ty d)]).
Definition fd_member (d : FDecl) : Member :=
  MkMember (attrs_out (fd_kept d)) (fd_vis d) (fd_ident d) (group_new NoDelim (fd_ty d)).

Definition after_field (s : PinState) (d : FDecl) : PinState :=
  push_field (fd_pinned d || fd_bad d) (fd_out d) (if fd_bad d then push_error (fd_ident d) s else s).

(** ** Munching *)

Definition with_attrs (l : list Attr) (s : PinState) : PinState :=
  MkPinState (s_pinned s) (s_not_pinned s) (s_fields s)
    (s_accum s ++ attrs_out (filter (λ a, is_pin (at_body a) = false) l))
    (s_is_pinned s || existsb (λ a, is_pin (at_body a)) l) (s_errors s).

Lemma munch_rule_attrs l fuel munch s : Forall attr_wf l →
  find_pinned_rules ty (length l + fuel) (attrs_src l ++ munch) s = find_pinned_rules ty fuel munch (with_attrs l s).
Proof.
  intros Hl. revert s. induction Hl as [|a l Ha _ IH]; intros s.
  - simpl. f_equal. unfold with_attrs. simpl. rewrite app_nil_r, orb_false_r. by destruct s.
  - cbn [length plus attrs_src flat_map attr_src app find_pinned_rules]. unfold attr_wf in Ha.
    destruct (at_hash a) as [| |c sp0 sp1|] eqn:Eh; try done. cbn [take_ident mbind option_bind]. rewrite Ha.
    change (flat_map attr_src l) with (attrs_src l). rewrite IH. f_equal. unfold with_attrs. cbn [existsb].
    destruct (is_pin (at_body a)) eqn:Ep; cbn [s_pinned s_not_pinned s_fields s_accum s_is_pinned s_errors mark_pinned push_accum].
    + rewrite filter_cons_False by congruence. by rewrite orb_true_r.
    + rewrite filter_cons_True by done. unfold attrs_out. cbn [flat_map]. by rewrite <- (assoc_L (++)).
Qed.

Lemma strip_colon_other t ts : is_punct ":" t = false → strip_colon (t :: ts) = None.
Proof.
  intros Ht. unfold strip_colon. cbn [strip_punct]. rewrite Ht. destruct (strip_sep (t :: ts)); done.
Qed.

Lemma munch_vis v fuel f sp munch s : vis_wf v → String.eqb f "_" = false →
  v ≠ [] → find_pinned_rules ty (S fuel) (v ++ Ident f sp :: munch) s =
  find_pinned_rules ty fuel (Ident f sp :: munch) (push_accum v s).
Proof.
  intros Hv Hf Hne. destruct Hv as [|t Ht|t g gs Ht]; [done|..]; destruct t as [|i isp| |]; try done;
    cbn [app find_pinned_rules take_ident]; destruct (String.eqb i "_") eqn:Ei;
    try (apply String.eqb_eq in Ei; subst; done); cbn [mbind option_bind];
    rewrite strip_colon_other by done; cbn [take_vis]; rewrite Ht; cbn [take_ident]; by rewrite Hf.
Qed.

Lemma colon_stripped d rest : fd_wf d →
  strip_colon (Punct ":" (fd_colon d) (fd_colon_span d) :: fd_ty d ++ fd_comma d :: rest) = Some (fd_ty d ++ fd_comma d :: rest).
Proof.
  intros Hd. unfold strip_colon. pose proof (fw_colon _ Hd) as Hc. cbn [strip_punct is_punct].
  destruct (fd_colon d), (fd_ty d) as [|t l]; try done. cbn [strip_sep app]. by rewrite Hc, andb_false_r.
Qed.

Lemma munch_name d fuel rest s : fd_wf d →
  find_pinned_rules ty (S fuel) (fd_ident d :: Punct ":" (fd_colon d) (fd_colon_span d) :: fd_ty d ++ fd_comma d :: rest) s =
  find_pinned_rules ty fuel rest
    (if fd_phantom d && negb (s_is_pinned s)
     then push_field true (typed_field (s_accum s) (fd_ident d) (template [] "::core::marker::PhantomPinned")) (push_error (fd_ident d) s)
     else push_field (s_is_pinned s) (typed_field (s_accum s) (fd_ident d) [group_new NoDelim (fd_ty d)]) s).
Proof.
  intros Hd. cbn [find_pinned_rules take_ident fd_ident]. rewrite (fw_name _ Hd). cbn [mbind option_bind].
  rewrite (colon_stripped _ _ Hd). cbn [mbind option_bind].
  destruct (s_is_pinned s).
  - rewrite andb_false_r, (fw_type _ Hd) by apply Hd. cbn [mbind option_bind strip_punct]. by rewrite (fw_comma _ Hd).
  - rewrite andb_true_r, (fw_phantom _ Hd). destruct (fd_phantom d); [done|].
    rewrite (fw_type _ Hd) by apply Hd. cbn [mbind option_bind strip_punct]. by rewrite (fw_comma _ Hd).
Qed.

Lemma attrs_length l : length (attrs_src l) = (2 * length l)%nat.
Proof. unfold attrs_src. induction l as [|a l IH]; [done|]. cbn [flat_map attr_src app length]. rewrite IH. lia. Qed.

Definition idle (s : PinState) : Prop := s_accum s = [] ∧ s_is_pinned s = false.

Lemma munch_field d s : fd_wf d → idle s → ∃ n, (n ≤ length (fd_src d))%nat ∧
  ∀ fuel rest, find_pinned_rules ty (n + fuel) (fd_src d ++ rest) s = find_pinned_rules ty fuel rest (after_field s d).
Proof.
  intros Hd [Ha Hp].
  assert (∀ rest, fd_src d ++ rest = attrs_src (fd_attrs d) ++ fd_vis d ++
    fd_ident d :: Punct ":" (fd_colon d) (fd_colon_span d) :: fd_ty d ++ fd_comma d :: rest) as Hsrc.
  { intros rest. unfold fd_src, fd_head. rewrite <- !(assoc_L (++)). simpl. by rewrite <- ?(assoc_L (++)). }
  assert (∀ fuel rest, find_pinned_rules ty (S fuel)
      (fd_ident d :: Punct ":" (fd_colon d) (fd_colon_span d) :: fd_ty d ++ fd_comma d :: rest) (push_accum (fd_vis d) (with_attrs (fd_attrs d) s)) =
    find_pinned_rules ty fuel rest (after_field s d)) as Hname.
  { intros fuel rest. rewrite (munch_name _ _ _ _ Hd). unfold with_attrs, push_accum, after_field, fd_bad, fd_out, fd_bad, fd_kept.
    cbn [s_pinned s_not_pinned s_fields s_accum s_is_pinned s_errors]. rewrite Ha, Hp. simpl. fold (fd_pinned d).
    destruct (fd_phantom d && negb (fd_pinned d)) eqn:Eb.
    - by rewrite orb_true_r.
    - rewrite orb_false_r. done. }
  pose proof (attrs_length (fd_attrs d)) as Hl.
  assert (length (fd_src d) = 2 * length (fd_attrs d) + length (fd_vis d) + 3 + length (fd_ty d))%nat as Hlen.
  { unfold fd_src, fd_head. rewrite !length_app, Hl. simpl. lia. }
  destruct (decide (fd_vis d = [])) as [Hv|Hv].
  - exists (length (fd_attrs d) + 1)%nat. split; [lia|]. intros fuel rest. rewrite Hsrc, <- Nat.add_assoc, munch_rule_attrs by apply Hd.
    rewrite <- Hname. rewrite Hv. cbn [app plus]. f_equal. unfold push_accum. rewrite app_nil_r. by destruct (with_attrs _ s).
  - exists (length (fd_attrs d) + 2)%nat. split; [lia|]. intros fuel rest. rewrite Hsrc, <- Nat.add_assoc, munch_rule_attrs by apply Hd.
    cbn [plus]. unfold fd_ident at 1. rewrite munch_vis; [|apply Hd|apply Hd|done]. apply Hname.
Qed.

Lemma after_idle s d : idle (after_field s d).
Proof. done. Qed.

Lemma munch_fields ds s tail : Forall fd_wf ds → idle s → tail = [] ∨ (∃ t, tail = [t] ∧ is_punct "," t = true) →
  ∀ fuel, (length (flat_map fd_src ds) < fuel)%nat →
  find_pinned_rules ty fuel (flat_map fd_src ds ++ tail) s = Some (foldl after_field s ds).
Proof.
  intros Hds Hi Ht. revert s Hi. induction Hds as [|d ds Hd _ IH]; intros s [Ha Hp] fuel Hf.
  - destruct fuel as [|fuel]; [simpl in Hf; lia|]. cbn [flat_map app foldl].
    destruct Ht as [->|(t & -> & Htc)]; [cbn; by rewrite Ha, Hp|].
    destruct t as [| |c sp0 sp1|]; try done. cbn. rewrite Ha, Hp. simpl in Htc. by rewrite Htc.
  - destruct (munch_field d s Hd (conj Ha Hp)) as (n & Hn & Hm). cbn [flat_map foldl] in *. rewrite length_app in Hf.
    rewrite <- (assoc_L (++)). replace fuel with (n + (fuel - n))%nat by lia. rewrite Hm. apply IH; [apply after_idle|lia].
Qed.

(** The lists in the end. *)
Definition fd_error (d : FDecl) : TokenStream := s_errors (push_error (fd_ident d) (MkPinState [] [] [] [] false [])).

Lemma after_fields ds s : idle s →
  foldl after_field s ds =
  MkPinState (s_pinned s ++ flat_map fd_out (filter (λ d, fd_pinned d || fd_bad d = true) ds))
    (s_not_pinned s ++ flat_map fd_out (filter (λ d, fd_pinned d || fd_bad d = false) ds))
    (s_fields s ++ flat_map fd_out ds) [] false (s_errors s ++ flat_map fd_error (filter (λ d, fd_bad d = true) ds)).
Proof.
  revert s. induction ds as [|d ds IH]; intros s [Ha Hp].
  - simpl. rewrite !app_nil_r. destruct s; simpl in *; by subst.
  - cbn [foldl]. rewrite (IH _ (after_idle s d)). rewrite !filter_cons. unfold after_field, push_field.
    destruct (fd_bad d) eqn:Eb.
    + rewrite orb_true_r. rewrite !decide_True, decide_False by done. unfold fd_error at 2.
      cbn [flat_map s_pinned s_not_pinned s_fields s_accum s_is_pinned s_errors push_error app]. by rewrite <- !(assoc_L (++)).
    + rewrite orb_false_r. rewrite (decide_False (P := false = true)) by done.
      destruct (fd_pinned d); [rewrite decide_True, decide_False by done|rewrite decide_False, decide_True by done];
        cbn [flat_map s_pinned s_not_pinned s_fields s_accum s_is_pinned s_errors app]; by rewrite <- !(assoc_L (++)).
Qed.

(** ** Taking the lists apart *)

Lemma take_attrs_out l ts : take_attrs ts = ([], ts) → take_attrs (attrs_out l ++ ts) = (attrs_out l, ts).
Proof.
  intros Ht. induction l as [|a l IH]; [done|]. unfold attrs_out in *. cbn [flat_map]. rewrite <- (assoc_L (++)).
  cbn [attr_tokens app take_attrs qp punct_new group_new is_punct]. rewrite IH. done.
Qed.

Lemma take_attrs_src l ts : Forall attr_wf l → take_attrs ts = ([], ts) → take_attrs (attrs_src l ++ ts) = (attrs_out l, ts).
Proof.
  intros Hl Ht. induction Hl as [|a l Ha _ IH]; [done|]. unfold attrs_src, attrs_out in *. cbn [flat_map attr_src app take_attrs].
  unfold attr_wf in Ha. by rewrite Ha, IH.
Qed.

Lemma take_attrs_vis v i sp ts : vis_wf v → match ts with Group Bracket _ _ :: _ => False | _ => True end →
  take_attrs (v ++ Ident i sp :: ts) = ([], v ++ Ident i sp :: ts).
Proof.
  intros Hv Hts. destruct Hv as [|t Ht|t g gs Ht]; [|done|done]. cbn [app take_attrs is_punct].
  destruct ts as [|[[] g gs| | |] ts]; done.
Qed.

Lemma take_vis_ident v i sp ts : vis_wf v → String.eqb i "pub" = false →
  take_vis (v ++ Ident i sp :: ts) = (v, Ident i sp :: ts).
Proof.
  intros Hv Hi. destruct Hv as [|t Ht|t g gs Ht]; cbn [app take_vis].
  - cbn [is_ident]. rewrite Hi. by destruct ts as [|[[]| | |]].
  - by rewrite Ht.
  - by rewrite Ht.
Qed.

Lemma take_member d fuel rest : fd_wf d → fd_bad d = false →
  take_members ty (S fuel) (fd_out d ++ rest) = ms ← take_members ty fuel rest; Some (fd_member d :: ms).
Proof.
  intros Hd Hb. unfold fd_out. rewrite Hb. unfold typed_field.
  assert (((attrs_out (fd_kept d) ++ fd_vis d) ++ [fd_ident d; qp ":"] ++ [group_new NoDelim (fd_ty d)] ++ [qp ","]) ++ rest =
    attrs_out (fd_kept d) ++ fd_vis d ++ fd_ident d :: qp ":" :: group_new NoDelim (fd_ty d) :: qp "," :: rest) as ->.
  { rewrite <- !(assoc_L (++)). done. }
  remember (attrs_out (fd_kept d) ++ fd_vis d ++ fd_ident d :: qp ":" :: group_new NoDelim (fd_ty d) :: qp "," :: rest) as X eqn:EX.
  cbn [take_members]. destruct X as [|t X]; [by destruct (attrs_out (fd_kept d)), (fd_vis d)|]. rewrite EX. clear EX.
  rewrite take_attrs_out by (apply take_attrs_vis; [apply Hd|done]). unfold fd_ident at 1.
  rewrite take_vis_ident by apply Hd. cbn [take_ident]. rewrite (fw_name _ Hd). cbn [mbind option_bind].
  assert (strip_colon (qp ":" :: group_new NoDelim (fd_ty d) :: qp "," :: rest) = Some (group_new NoDelim (fd_ty d) :: qp "," :: rest)) as ->
    by done.
  cbn [mbind option_bind take_ty group_new strip_punct qp punct_new is_punct Ascii.eqb]. done.
Qed.

Lemma take_members_ok ds : Forall fd_wf ds → Forall (λ d, fd_bad d = false) ds → ∀ fuel, (length ds ≤ fuel)%nat →
  take_members ty fuel (flat_map fd_out ds) = Some (fd_member <$> ds).
Proof.
  intros Hds Hbs. induction Hds as [|d ds Hd _ IH]; intros fuel Hf; [by destruct fuel|].
  apply Forall_cons in Hbs as [Hb Hbs]. destruct fuel as [|fuel]; [simpl in Hf; lia|]. cbn [flat_map].
  rewrite take_member, IH by (simpl in Hf; done || lia). done.
Qed.

(** ** The rules on a whole struct *)

Lemma take_entry_ok key inner ts : take_entry key (entry key inner ++ ts) = Some (inner, ts).
Proof.
  unfold take_entry, entry. cbn [app strip_punct qp punct_new is_punct Ascii.eqb Bool.eqb mbind option_bind strip_ident qi is_ident].
  rewrite String.eqb_refl. done.
Qed.

Definition args_wf (args : TokenStream) : Prop := args = [] ∨ ∃ i sp, args = [Ident i sp] ∧ String.eqb i "_" = false.
Inductive where_wf : TokenStream → TokenStream → Prop :=
| where_none : where_wf [] []
| where_some w whr : is_ident "where" w = true → where_wf (w :: whr) whr.

Lemma take_where_ok tl whr : where_wf tl whr → take_where tl = Some whr.
Proof. intros [|w whr' Hw]; [done|]. cbn. by rewrite Hw. Qed.

Definition inner_of (args sig impl tyg decl body : TokenStream) : TokenStream :=
  [qi "parse_input"; qp ":"] ++ entry "args" args ++ entry "sig" sig ++ entry "impl_generics" impl ++
  entry "ty_generics" tyg ++ entry "decl_generics" decl ++ entry "body" body.

Definition struct_sig (l : list Attr) (v : TokenStream) (kw : TokenTree) (name : string) (sp : Span) (tl : TokenStream) : TokenStream :=
  attrs_src l ++ v ++ kw :: Ident name sp :: tl.

Lemma parse_sig l v k name sp tl whr : Forall attr_wf l → vis_wf v → is_ident "struct" k = true →
  String.eqb name "_" = false → where_wf tl whr →
  take_attrs (struct_sig l v k name sp tl) = (attrs_out l, v ++ k :: Ident name sp :: tl) ∧
  take_vis (v ++ k :: Ident name sp :: tl) = (v, k :: Ident name sp :: tl) ∧
  strip_ident "struct" (k :: Ident name sp :: tl) = Some (Ident name sp :: tl) ∧
  take_ident (Ident name sp :: tl) = Some (Ident name sp, tl) ∧ take_where tl = Some whr.
Proof.
  intros Hl Hv Hk Hn Hw. destruct k as [|i isp| |]; try done. cbn [is_ident] in Hk. apply String.eqb_eq in Hk as ->.
  split_and!.
  - unfold struct_sig. rewrite take_attrs_src; [done|done|]. by apply take_attrs_vis.
  - by apply take_vis_ident.
  - done.
  - cbn. by rewrite Hn.
  - by apply take_where_ok.
Qed.

Lemma filter_good ds c : Forall (λ d, fd_bad d = false) ds →
  filter (λ d, fd_pinned d || fd_bad d = c) ds = filter (λ d, fd_pinned d = c) ds.
Proof.
  induction 1 as [|d ds Hd _ IH]; [done|]. rewrite !filter_cons, IH. rewrite Hd, orb_false_r. done.
Qed.

Lemma fd_out_length ds : (length ds ≤ length (flat_map fd_out ds))%nat.
Proof.
  induction ds as [|d ds IH]; [done|]. cbn [flat_map length]. rewrite length_app.
  assert (1 ≤ length (fd_out d))%nat; [|lia]. unfold fd_out, typed_field. rewrite !length_app. simpl. lia.
Qed.

Lemma rules_ok args l v k name sp tl whr impl tyg decl fields bsp ds tail :
  args_wf args → Forall attr_wf l → vis_wf v → is_ident "struct" k = true → String.eqb name "_" = false → where_wf tl whr →
  fields ++ [qp ","] = flat_map fd_src ds ++ tail → tail = [] ∨ tail = [qp ","] → Forall fd_wf ds →
  let h := MkHeader (attrs_out l) v (Ident name sp) impl tyg decl whr args in
  let pinned := filter (λ d, fd_pinned d = true) ds in
  let not_pinned := filter (λ d, fd_pinned d = false) ds in
  match filter (λ d, fd_bad d = true) ds with
  | [] => pin_data_rules ty (inner_of args (struct_sig l v k name sp tl) impl tyg decl [Group Brace fields bsp]) =
      Some (pin_data_items h (flat_map fd_out ds) (flat_map fd_out pinned) (fd_member <$> pinned) (fd_member <$> not_pinned))
  | bad => ∀ out, pin_data_rules ty (inner_of args (struct_sig l v k name sp tl) impl tyg decl [Group Brace fields bsp]) = Some out →
      ∃ rest, out = flat_map fd_error bad ++ rest
  end.
Proof.
  intros Hargs Hl Hv Hk Hn Hw Hfs Ht Hds h pinned not_pinned.
  destruct (parse_sig l v k name sp tl whr Hl Hv Hk Hn Hw) as (E1 & E2 & E3 & E4 & E5).
  set (s0 := MkPinState [] [] [] [] false []).
  assert (find_pinned_rules ty (2 + length fields) (fields ++ [qp ","]) s0 = Some (foldl after_field s0 ds)) as Hfind.
  { rewrite Hfs. apply munch_fields; [done|done| |].
    - destruct Ht as [->| ->]; [by left|right; by exists (qp ",")].
    - apply (f_equal length) in Hfs. rewrite !length_app in Hfs. simpl in Hfs. destruct Ht as [->| ->]; simpl in Hfs; lia. }
  rewrite after_fields in Hfind by done. unfold s0 in Hfind at 2 3 4 5. cbn [s_pinned s_not_pinned s_fields s_errors app] in Hfind.
  assert (pin_data_rules ty (inner_of args (struct_sig l v k name sp tl) impl tyg decl [Group Brace fields bsp]) =
    s ← find_pinned_rules ty (2 + length fields) (fields ++ [qp ","]) s0;
    ps ← take_members ty (length (s_pinned s)) (s_pinned s);
    ns ← take_members ty (length (s_not_pinned s)) (s_not_pinned s);
    Some (s_errors s ++ pin_data_items h (s_fields s) (s_pinned s) ps ns)) as ->.
  { unfold pin_data_rules, inner_of. cbn [app strip_ident qi is_ident String.eqb Ascii.eqb Bool.eqb mbind option_bind].
    assert (∀ ts, strip_colon (qp ":" :: entry "args" args ++ ts) = Some (entry "args" args ++ ts)) as Hcol by done.
    rewrite Hcol. cbn [mbind option_bind]. rewrite !take_entry_ok. cbn [mbind option_bind]. rewrite take_entry_ok. cbn [mbind option_bind].
    rewrite take_entry_ok. cbn [mbind option_bind]. rewrite take_entry_ok. cbn [mbind option_bind]. rewrite take_entry_ok.
    cbn [mbind option_bind]. rewrite <- (app_nil_r (entry "body" _)), take_entry_ok. cbn [mbind option_bind strip_end].
    assert (match args with [] => Some tt | _ => '(_, rest) ← take_ident args; strip_end rest end = Some tt) as ->.
    { destruct Hargs as [->|(i & isp & -> & Hi)]; [done|]. cbn. by rewrite Hi. }
    cbn [mbind option_bind]. rewrite E1, E2, E3. cbn [mbind option_bind]. rewrite E4. cbn [mbind option_bind]. rewrite E5. done. }
  rewrite Hfind. cbn [mbind option_bind s_pinned s_not_pinned s_fields s_errors].
  destruct (filter (λ d, fd_bad d = true) ds) as [|b bs] eqn:Eb.
  - assert (Forall (λ d, fd_bad d = false) ds) as Hgood.
    { apply Forall_forall. intros d Hd. destruct (fd_bad d) eqn:Ed; [|done].
      assert (d ∈ filter (λ d, fd_bad d = true) ds) as Hin by (by apply list_elem_of_filter). rewrite Eb in Hin. by apply not_elem_of_nil in Hin. }
    rewrite !(filter_good _ _ Hgood). fold pinned not_pinned.
    rewrite (take_members_ok pinned), (take_members_ok not_pinned); [done|..]; try apply fd_out_length;
      apply Forall_forall; intros d [_ Hd]%list_elem_of_filter; 
      first [exact (proj1 (Forall_forall _ _) Hds d Hd)|exact (proj1 (Forall_forall _ _) Hgood d Hd)].
  - intros out Ho. apply bind_Some in Ho as (ps & _ & Ho). apply bind_Some in Ho as (ns & _ & Ho). injection Ho as <-. eauto.
Qed.
End Declarations.

(** ** Both stages of [#[pin_data]] *)

(** [Self] is replaced in all parts of the declaration. *)
Definition sub (n : TokenStream) : TokenStream → TokenStream := flat_map (subst_self n).
Definition sub_attr (n : TokenStream) (a : Attr) : Attr := MkAttr (at_hash a) (sub n (at_body a)) CallSite.
Definition sub_decl (n : TokenStream) (d : FDecl) : FDecl :=
  MkFDecl (sub_attr n <$> fd_attrs d) (sub n (fd_vis d)) (fd_name d) (fd_span d) (fd_colon d) (fd_colon_span d)
    (sub n (fd_ty d)) (fd_phantom d) (fd_comma d).

Lemma sub_app n l k : sub n (l ++ k) = sub n l ++ sub n k.
Proof. apply flat_map_app. Qed.

Lemma sub_ident n i sp ts : is_self i = false → sub n (Ident i sp :: ts) = Ident i sp :: sub n ts.
Proof. intros Hi. unfold sub. cbn [flat_map subst_self]. by rewrite Hi. Qed.

Lemma sub_punct n c t ts : is_punct c t = true → sub n (t :: ts) = t :: sub n ts.
Proof. by destruct t. Qed.

Lemma sub_keyword n s t ts : is_ident s t = true → is_self s = false → sub n (t :: ts) = t :: sub n ts.
Proof.
  destruct t as [|i sp| |]; try done. cbn [is_ident]. intros ->%String.eqb_eq Hs. by apply sub_ident.
Qed.

Lemma sub_attrs n l : Forall attr_wf l → sub n (attrs_src l) = attrs_src (sub_attr n <$> l).
Proof.
  induction 1 as [|a l Ha _ IH]; [done|]. unfold attrs_src in *. cbn [flat_map]. rewrite fmap_cons. cbn [flat_map].
  rewrite sub_app, IH. f_equal. unfold attr_src. by rewrite (sub_punct n "#") by exact Ha.
Qed.

Lemma sub_attrs_wf n l : Forall attr_wf l → Forall attr_wf (sub_attr n <$> l).
Proof. intros Hl. by apply Forall_fmap. Qed.

Lemma sub_vis n v : vis_wf v → vis_wf (sub n v).
Proof.
  intros [|t Ht|t g sp Ht]; [constructor|..].
  - rewrite (sub_keyword n "pub") by done. by constructor.
  - rewrite (sub_keyword n "pub") by done. by constructor.
Qed.

Lemma sub_src n d : Forall attr_wf (fd_attrs d) → is_self (fd_name d) = false → is_punct "," (fd_comma d) = true →
  sub n (fd_src d) = fd_src (sub_decl n d).
Proof.
  intros Ha Hn Hc. unfold fd_src, fd_head. rewrite !sub_app, sub_attrs by done. rewrite (sub_punct n "," (fd_comma d)) by done.
  unfold fd_ident. rewrite sub_ident by done. by rewrite (sub_punct n ":" (Punct ":" _ _)) by done.
Qed.

(** A struct with attributes, visibility, a [where] clause and fields; [tl]: a comma behind the
    last field is optional. *)
Record struct_wf (ty : TokenStream → option (TokenStream * TokenStream)) (args : TokenStream) (d : TypeDef)
    (l : list Attr) (v whr : TokenStream) (ds : list FDecl) (tl : TokenStream) : Prop := {
  sw_def : typedef_wf d = true;
  sw_self : is_self (tname d) || existsb (mentions is_self) (ty_of d) = false;
  sw_name : String.eqb (tname d) "_" = false;
  sw_attrs : attrs d = attrs_src l ++ v;
  sw_attrs_wf : Forall attr_wf l;
  sw_vis : vis_wf v;
  sw_where : where_wf (tail d) whr;
  sw_brace : bdelim d = Brace;
  sw_fields : bstream d ++ [qp ","] = flat_map fd_src ds ++ tl;
  sw_tail : tl = [] ∨ tl = [qp ","];
  sw_args : args_wf args;
  sw_names : Forall (λ f, is_self (fd_name f) = false ∧ Forall attr_wf (fd_attrs f)) ds;
  sw_decls : Forall (fd_wf ty) (sub_decl (self_type d) <$> ds)
}.


(** ** Both stages of [#[pinned_drop]] *)

(** Replaces texts by their tokens. *)
Ltac lex_texts :=
  repeat match goal with
  | |- context [lex (String ?c ?s) EmptyString [] []] =>
      let t := eval vm_compute in (lex (String c s) EmptyString [] []) in change (lex (String c s) EmptyString [] []) with t
  end.

(** Generics from the first angle bracket to the last. *)
Fixpoint angled (nesting : nat) (ts : TokenStream) : bool :=
  match ts with
  | [] => false
  | t :: ts =>
      if is_punct ">" t then match nesting with S O => bool_decide (ts = []) | S n => angled n ts | O => false end
      else if is_punct "<" t then angled (S nesting) ts
      else (1 <=? nesting)%nat && angled nesting ts
  end.

Lemma angled_loop ts : ∀ i n more, angled n ts = true → (1 <= i)%nat →
  pinned_drop_loop i n (ts ++ more) = pinned_drop_loop (i + length ts) 0 more.
Proof.
  induction ts as [|t ts IH]; intros i n more Ha Hi; [done|]. cbn [angled] in Ha. cbn [app pinned_drop_loop length].
  rewrite Nat.add_succ_r, <- Nat.add_succ_l.
  destruct (is_punct ">" t) eqn:Eg.
  - destruct n as [|[|n]]; [done| |].
    + apply bool_decide_eq_true in Ha as ->. simpl. f_equal. lia.
    + rewrite IH by (done || lia). f_equal. lia.
  - destruct (is_punct "<" t) eqn:El.
    + assert (((1 <=? i)%nat && (S n =? 0)%nat) = false) as -> by apply andb_false_r. rewrite IH by (done || lia). f_equal. lia.
    + apply andb_true_iff in Ha as [Hn Ha]. apply Nat.leb_le in Hn.
      assert ((n =? 0)%nat = false) as -> by (apply Nat.eqb_neq; lia). rewrite andb_false_r, IH by (done || lia). f_equal. lia.
Qed.

Definition generics_wf (g : TokenStream) : bool :=
  match g with [] => true | t :: g => is_punct "<" t && angled 1 g end.

Lemma pinned_drop_index t g p more : is_ident "impl" t = true → generics_wf g = true → is_ident "PinnedDrop" p = true →
  pinned_drop_loop 0 0 (t :: g ++ p :: more) = Done (Some (1 + length g))%nat.
Proof.
  intros Ht Hg Hp.
  assert (∀ i, (1 <= i)%nat → pinned_drop_loop i 0 (p :: more) = Done (Some i)) as Hlast.
  { intros i Hi. destruct p as [|s sp| |]; try done. cbn [pinned_drop_loop is_punct]. apply Nat.leb_le in Hi. rewrite Hi. simpl.
    cbn [is_ident] in Hp. by rewrite Hp. }
  destruct t as [|s sp| |]; try done. cbn [pinned_drop_loop is_punct]. simpl.
  destruct g as [|a g]; [by apply Hlast|]. apply andb_true_iff in Hg as [Ha Hg]. cbn [app pinned_drop_loop].
  destruct a as [| |c ssp asp|]; try done. cbn [is_punct] in *. apply Ascii.eqb_eq in Ha as ->. simpl.
  rewrite (angled_loop g) by (done || lia). rewrite Hlast by lia. done.
Qed.

(** [#[pinned_drop]] on an [impl] of [PinnedDrop]: an [unsafe impl] of the trait by its full path,
    whose [drop] takes the token that user code cannot make. *)
Theorem pinned_drop_expands t g p more bsp l kfn kdrop sig ssp inner isp :
  is_ident "impl" t = true → generics_wf g = true → is_ident "PinnedDrop" p = true →
  Forall attr_wf l → is_ident "fn" kfn = true → is_ident "drop" kdrop = true →
  let body := attrs_src l ++ [kfn; kdrop; Group Parenthesis sig ssp; Group Brace inner isp] in
  ∃ args,
    pinned_drop (t :: g ++ p :: more ++ [Group Brace body bsp]) =
      Done (q2 ++ [qi "kernel"] ++ q2 ++ [qi "__pinned_drop"; qp "!"; group_new Brace args]) ∧
    pinned_drop_rules args =
      Some ([qi "unsafe"] ++ t :: g ++ q2 ++ [qi "kernel"] ++ q2 ++ [qi "init"] ++ q2 ++ p :: more ++
        [group_new Brace (attrs_out l ++ [qi "fn"; qi "drop";
           group_new Parenthesis (sig ++ lex ", _: $crate::init::__internal::OnlyCallFromDrop" EmptyString [] []); group_new Brace inner])]).
Proof.
  intros Ht Hg Hp Hl Hfn Hdrop body.
  set (toks := t :: g ++ q2 ++ [qi "kernel"] ++ q2 ++ [qi "init"] ++ q2 ++ p :: more).
  exists (entry "impl_sig" toks ++ entry "impl_body" body). split.
  - unfold pinned_drop. rewrite Ht, (pinned_drop_index t g p) by done.
    assert (take (1 + length g) (t :: g ++ p :: more ++ [Group Brace body bsp]) = t :: g) as ->.
    { simpl. f_equal. by rewrite take_app_length. }
    assert (drop (1 + length g) (t :: g ++ p :: more ++ [Group Brace body bsp]) = p :: more ++ [Group Brace body bsp]) as ->.
    { simpl. by rewrite drop_app_length. }
    assert ((t :: g) ++ q2 ++ [qi "kernel"] ++ q2 ++ [qi "init"] ++ q2 ++ p :: more ++ [Group Brace body bsp] =
      toks ++ [Group Brace body bsp]) as ->.
    { unfold toks. rewrite <- !app_comm_cons. f_equal. rewrite <- (assoc_L (++)). f_equal. }
    by rewrite vec_pop_snoc.
  - unfold pinned_drop_rules. rewrite take_entry_ok. cbn [mbind option_bind].
    rewrite <- (app_nil_r (entry "impl_body" body)), take_entry_ok. cbn [mbind option_bind strip_end].
    assert (take_attrs body = (attrs_out l, [kfn; kdrop; Group Parenthesis sig ssp; Group Brace inner isp])) as ->.
    { apply take_attrs_src; [done|]. by destruct kfn, kdrop. }
    cbn [strip_ident]. rewrite Hfn. cbn [mbind option_bind strip_ident]. rewrite Hdrop. cbn [mbind option_bind].
    f_equal. unfold toks, template. lex_texts. cbn. rewrite ?app_nil_r. by rewrite <- ?(assoc_L (++)).
Qed.

(** ** Both stages of [derive(Zeroable)] *)

(** A field without visibility, as the rule wants it. *)
Definition fd_private (d : FDecl) : Prop := fd_vis d = [].

Lemma take_zfields_ok ty ds : Forall (fd_wf ty) ds → Forall fd_private ds → ∀ fuel, (length (flat_map fd_src ds) <= fuel)%nat →
  take_zfields ty fuel (flat_map fd_src ds) = Some ((λ d, group_new NoDelim (fd_ty d)) <$> ds).
Proof.
  induction 1 as [|d ds Hd _ IH]; intros Hp fuel Hfuel; [by destruct fuel|].
  apply Forall_cons in Hp as [Hv Hp]. cbn [flat_map] in *. rewrite length_app in Hfuel.
  assert (1 <= length (fd_src d))%nat as Hlen by (unfold fd_src; rewrite length_app; simpl; lia).
  destruct fuel as [|fuel]; [lia|].
  assert (fd_src d ++ flat_map fd_src ds = attrs_src (fd_attrs d) ++
    fd_ident d :: Punct ":" (fd_colon d) (fd_colon_span d) :: fd_ty d ++ fd_comma d :: flat_map fd_src ds) as Hsrc.
  { unfold fd_src, fd_head. rewrite Hv. cbn [app]. by rewrite <- !(assoc_L (++)). }
  assert (∃ t ts, fd_src d ++ flat_map fd_src ds = t :: ts) as (t0 & ts0 & Ht0).
  { destruct (fd_src d ++ flat_map fd_src ds) eqn:E; [|eauto]. apply app_eq_nil in E as [E _]. rewrite E in Hlen. simpl in Hlen. lia. }
  assert (take_attrs (fd_src d ++ flat_map fd_src ds) = (attrs_out (fd_attrs d),
    fd_ident d :: Punct ":" (fd_colon d) (fd_colon_span d) :: fd_ty d ++ fd_comma d :: flat_map fd_src ds)) as Ha.
  { rewrite Hsrc. by apply take_attrs_src; [apply Hd|]. }
  rewrite Ht0 in Ha |- *. cbn [take_zfields]. rewrite Ha. cbn [take_ident fd_ident]. rewrite (fw_name _ _ Hd).
  cbn [mbind option_bind]. rewrite (colon_stripped ty d (flat_map fd_src ds) Hd). cbn [mbind option_bind].
  rewrite (fw_type _ _ Hd) by apply Hd. cbn [mbind option_bind strip_punct]. rewrite (fw_comma _ _ Hd). cbn [mbind option_bind].
  rewrite IH by (done || lia). done.
Qed.

(** A visibility in front of a field matches no rule. *)
Theorem zeroable_pub_field_refused ty fuel l v f sp more :
  Forall attr_wf l → vis_wf v → v ≠ [] → String.eqb f "_" = false →
  take_zfields ty fuel (attrs_src l ++ v ++ Ident f sp :: more) = None.
Proof.
  intros Hl Hv Hne Hf. destruct fuel as [|fuel].
  { destruct l; [|done]. destruct Hv; done. }
  assert (∃ t ts, v ++ Ident f sp :: more = t :: ts ∧ is_ident "pub" t = true ∧ strip_colon ts = None) as (t & ts & Hts & Ht & Hc).
  { destruct Hv as [|t Ht|t g gs Ht]; [done|..]; eexists _, _; (split; [reflexivity|split; [exact Ht|done]]). }
  rewrite Hts. destruct t as [|i isp| |]; try done.
  assert (take_attrs (attrs_src l ++ Ident i isp :: ts) = (attrs_out l, Ident i isp :: ts)) as Ha by (apply take_attrs_src; [done|cbn [take_attrs]; by destruct ts as [|[[]| | |] ts]]).
  destruct (attrs_src l ++ Ident i isp :: ts) as [|t0 ts0] eqn:E; [by destruct (attrs_src l)|].
  cbn [take_zfields]. rewrite Ha. cbn [take_ident]. destruct (String.eqb i "_"); [done|]. cbn [mbind option_bind]. by rewrite Hc.
Qed.

(** [derive(Zeroable)] from the attribute to the items: the [impl] has the bound on every type
    parameter, and each type of a field is checked under the same bounds. *)
Theorem zeroable_expands ty d l v whr ds :
  typedef_wf d = true → trailing d = false → forallb zeroable_wf (params d) = true →
  String.eqb (tname d) "_" = false → attrs d = attrs_src l ++ v → Forall attr_wf l → vis_wf v → where_wf (tail d) whr →
  bdelim d = Brace → bstream d = flat_map fd_src ds → Forall (fd_wf ty) ds → Forall fd_private ds →
  ∃ args,
    zeroable_derive (typedef_tokens d) =
      Done (q2 ++ [qi "kernel"] ++ q2 ++ [qi "__derive_zeroable"; qp "!"; group_new Parenthesis args; qp ";"]) ∧
    derive_zeroable_rules ty args =
      Some (zeroable_items (Ident (tname d) (tspan d)) (sep (comma d) false param_zeroable (params d)) (ty_of d) whr
        ((λ f, group_new NoDelim (fd_ty f)) <$> ds)).
Proof.
  intros Hd Htr Hz Hn Ha Hl Hv Hw Hb Hf Hds Hp.
  assert (typedef_sig d = struct_sig l v (kw d) (tname d) (tspan d) (tail d)) as Hsig.
  { unfold typedef_sig, struct_sig. by rewrite Ha, <- (assoc_L (++)). }
  pose proof Hd as [[[[[[_ Hk]%andb_true_iff _]%andb_true_iff _]%andb_true_iff _]%andb_true_iff _]%andb_true_iff _]%andb_true_iff.
  destruct (parse_sig l v (kw d) (tname d) (tspan d) (tail d) whr Hl Hv Hk Hn Hw) as (E1 & E2 & E3 & E4 & E5).
  eexists. split; [by rewrite derive_zeroable_correct|]. rewrite Hsig, Hb, Hf. unfold derive_zeroable_rules.
  cbn [app strip_ident qi is_ident String.eqb Ascii.eqb Bool.eqb mbind option_bind].
  assert (∀ ts, strip_colon (qp ":" :: entry "sig" (struct_sig l v (kw d) (tname d) (tspan d) (tail d)) ++ ts) =
    Some (entry "sig" (struct_sig l v (kw d) (tname d) (tspan d) (tail d)) ++ ts)) as -> by done.
  cbn [mbind option_bind]. do 3 (rewrite take_entry_ok; cbn [mbind option_bind]).
  rewrite <- (app_nil_r (entry "body" _)), take_entry_ok. cbn [mbind option_bind strip_end].
  rewrite E1, E2, E3. cbn [mbind option_bind]. rewrite E4. cbn [mbind option_bind]. rewrite E5. cbn [mbind option_bind].
  by rewrite take_zfields_ok.
Qed.

(** ** Examples *)

(** A parser of types: the tokens up to a comma outside of [<..>]. *)
Fixpoint demo_type (nesting : nat) (ts : TokenStream) : TokenStream * TokenStream :=
  match ts with
  | [] => ([], [])
  | t :: ts' =>
      if is_punct "," t && (nesting =? 0)%nat then ([], ts)
      else
        let n := if is_punct "<" t then S nesting else if is_punct ">" t then pred nesting else nesting in
        let '(a, rest) := demo_type n ts' in (t :: a, rest)
  end.
Definition demo_ty (ts : TokenStream) : option (TokenStream * TokenStream) :=
  match demo_type 0 ts with ([], _) => None | r => Some r end.

Definition demo_attr (body : TokenStream) : Attr := MkAttr (pu "#") body (At 0).
Definition demo_field (l : list Attr) (v : TokenStream) (x : string) (t : TokenStream) (phantom : bool) : FDecl :=
  MkFDecl l v x (At 0) Alone (At 0) t phantom (pu ",").

(** [#[repr(C)] pub struct Queue<'a, T: Into<u8, u8>, const N = 4> where T: Copy { #[pin] lock:
    Mutex<T>, pub(crate) #[doc] next: Option<Self>, #[pin] _pin: PhantomPinned }] *)
Definition queue_attrs : list Attr := [demo_attr [id "repr"; Group Parenthesis [id "C"] (At 0)]].
Definition queue_fields : list FDecl :=
  [demo_field [demo_attr [id "pin"]] [] "lock" [id "Mutex"; pu "<"; id "T"; pu ">"] false;
   demo_field [demo_attr [id "doc"]] [id "pub"; Group Parenthesis [id "crate"] (At 0)] "next" [id "Option"; pu "<"; id "Self"; pu ">"] false;
   MkFDecl [demo_attr [id "pin"]] [] "_pin" (At 0) Alone (At 0) [id "PhantomPinned"] true (qp ",")].
Definition queue : TypeDef :=
  MkTypeDef (attrs_src queue_attrs ++ [id "pub"]) (id "struct") "Queue" (At 0) (pu "<") (pu ",") false buf_params (pu ">")
    [id "where"; id "T"; pu ":"; id "Copy"] Brace
    (take 25 (flat_map fd_src queue_fields)) (At 0).

