(* ===== verification/MacroModule.v ===== *)
(** * The [module!] and [#[vtable]] macros ([rust/macros/module.rs], [vtable.rs])

    [ModuleInfo::parse] reads the fields of a [module!] call; the builder of the
    [.modinfo] entries; the [__init] and [__exit] functions of the generated code; the
    constants that [#[vtable]] adds to a trait or to an implementation. *)

From Stdlib Require Import Ascii String.
From stdpp Require Import strings.
From S2P Require Import Prelude Errors Macros.

(** ** [ModuleInfo] *)

Record ModuleInfo := MkModuleInfo {
  mtype : string; license : string; mname : string; author : option string;
  description : option string; alias : option (list string); firmware : option (list string)
}.

Definition info_default : ModuleInfo :=
  MkModuleInfo EmptyString EmptyString EmptyString None None None None.

Definition assert {S} (b : bool) : M S unit := if b then mret tt else panic.

(** The loop of [expect_string_array] over the tokens of the group. *)
Fixpoint string_array_loop (fuel : nat) : PM (list string) :=
  match fuel with
  | O => ub
  | S fuel =>
      v ← try_string;
      match v with
      | None => mret []
      | Some val =>
          _ ← assert (is_ascii val);
          t ← next;
          match t with
          | Some (Punct c _ _) =>
              _ ← assert (Ascii.eqb c ",");
              vals ← string_array_loop fuel;
              mret (val :: vals)
          | None => mret [val]
          | Some _ => panic
          end
      end
  end.

(** The iterator over the group is a new one. *)
Definition expect_string_array : PM (list string) :=
  g ← expect_group;
  _ ← assert (bool_decide (fst g = Bracket));
  lift (match string_array_loop (S (length (snd g))) (snd g) with
        | Done (v, _) => Done v
        | Panic => Panic
        | UB => UB
        end).

(** The [match] on the key. *)
Definition parse_value (key : string) (i : ModuleInfo) : PM ModuleInfo :=
  if String.eqb key "type" then
    v ← expect_ident; mret (MkModuleInfo v (license i) (mname i) (author i) (description i) (alias i) (firmware i))
  else if String.eqb key "name" then
    v ← expect_string_ascii; mret (MkModuleInfo (mtype i) (license i) v (author i) (description i) (alias i) (firmware i))
  else if String.eqb key "author" then
    v ← expect_string; mret (MkModuleInfo (mtype i) (license i) (mname i) (Some v) (description i) (alias i) (firmware i))
  else if String.eqb key "description" then
    v ← expect_string; mret (MkModuleInfo (mtype i) (license i) (mname i) (author i) (Some v) (alias i) (firmware i))
  else if String.eqb key "license" then
    v ← expect_string_ascii; mret (MkModuleInfo (mtype i) v (mname i) (author i) (description i) (alias i) (firmware i))
  else if String.eqb key "alias" then
    v ← expect_string_array; mret (MkModuleInfo (mtype i) (license i) (mname i) (author i) (description i) (Some v) (firmware i))
  else if String.eqb key "firmware" then
    v ← expect_string_array; mret (MkModuleInfo (mtype i) (license i) (mname i) (author i) (description i) (alias i) (Some v))
  else panic.

Definition EXPECTED_KEYS : list string :=
  ["type"; "name"; "author"; "description"; "license"; "alias"; "firmware"]%string.
Definition REQUIRED_KEYS : list string := ["type"; "name"; "license"]%string.

(** The [loop]; every iteration consumes a token. *)
Fixpoint parse_loop (fuel : nat) (info : ModuleInfo) (seen_keys : list string) : PM (ModuleInfo * list string) :=
  match fuel with
  | O => ub
  | S fuel =>
      t ← next;
      match t with
      | None => mret (info, seen_keys)
      | Some (Ident key _) =>
          _ ← assert (negb (bool_decide (key ∈ seen_keys)));
          c ← expect_punct;
          _ ← assert (Ascii.eqb c ":");
          info ← parse_value key info;
          c ← expect_punct;
          _ ← assert (Ascii.eqb c ",");
          parse_loop fuel info (seen_keys ++ [key])
      | Some _ => panic
      end
  end.

Definition module_info_parse : PM ModuleInfo :=
  it ← get;
  r ← parse_loop (S (length it)) info_default [];
  let '(info, seen_keys) := r in
  _ ← expect_end;
  _ ← assert (forallb (λ k, bool_decide (k ∈ seen_keys)) REQUIRED_KEYS);
  let ordered_keys := filter (λ k, k ∈ seen_keys) EXPECTED_KEYS in
  _ ← assert (bool_decide (seen_keys = ordered_keys));
  mret info.

(** ** [ModInfoBuilder] *)

Section ModInfo.
Context `{Unicode}.

(** An entry of the buffer: the static that [emit_base] writes. *)
Record ModInfoStatic := MkStatic {
  sbuiltin : bool;
  ssymbol : string;
  scounter : nat;
  slength : nat;
  sbytes : string
}.

Record ModInfoBuilder := MkModInfo { bmodule : string; counter : nat; buffer : list ModInfoStatic }.

Definition modinfo_new (module : string) : ModInfoBuilder := MkModInfo module 0 [].

Definition NUL : string := String (Ascii.ascii_of_nat 0) EmptyString.

Definition emit_base (field content : string) (builtin : bool) (b : ModInfoBuilder) : ModInfoBuilder :=
  let string := if builtin then bmodule b +:+ "." +:+ field +:+ "=" +:+ content +:+ NUL
                else field +:+ "=" +:+ content +:+ NUL in
  MkModInfo (bmodule b) (counter b + 1)
    (buffer b ++ [MkStatic builtin (to_uppercase (bmodule b)) (counter b) (String.length string) string]).

Definition emit_only_builtin (field content : string) : ModInfoBuilder → ModInfoBuilder := emit_base field content true.
Definition emit_only_loadable (field content : string) : ModInfoBuilder → ModInfoBuilder := emit_base field content false.
Definition emit (field content : string) (b : ModInfoBuilder) : ModInfoBuilder :=
  emit_only_loadable field content (emit_only_builtin field content b).

Definition emit_opt (field : string) (o : option string) (b : ModInfoBuilder) : ModInfoBuilder :=
  match o with Some c => emit field c b | None => b end.
Definition emit_all (field : string) (o : option (list string)) (b : ModInfoBuilder) : ModInfoBuilder :=
  match o with Some l => foldl (λ b c, emit field c b) b l | None => b end.

(** The entries of [module]; [file] is the environment variable [RUST_MODFILE]. *)
Definition module_modinfo (info : ModuleInfo) (file : string) : ModInfoBuilder :=
  let b := modinfo_new (mname info) in
  let b := emit_opt "author" (author info) b in
  let b := emit_opt "description" (description info) b in
  let b := emit "license" (license info) b in
  let b := emit_all "alias" (alias info) b in
  let b := emit_all "firmware" (firmware info) b in
  emit_only_builtin "file" file b.
End ModInfo.

(** ** The generated [__init] and [__exit] *)

Section Init.
Context {S T : Type}.
(** The rest of the system, the static [__MOD], and what dropping a module does. *)
Variable kunit_init : M S unit.
Variable init : M S (result Error T).
Variable drop_mod : T → M S unit.

Definition on_sys {A} (m : M S A) : M (S * option T) A := λ s,
  match m (fst s) with
  | Done (a, s') => Done (a, (s', snd s))
  | Panic => Panic
  | UB => UB
  end.

(** An assignment to [__MOD] drops the value it held. *)
Definition set_mod (v : option T) : M (S * option T) unit :=
  s ← get;
  _ ← modify (λ s, (fst s, v));
  match snd s with Some m => on_sys (drop_mod m) | None => mret tt end.

Definition module_init : M (S * option T) Z :=
  _ ← on_sys kunit_init;
  r ← on_sys init;
  match r with
  | Ok m => _ ← set_mod (Some m); mret 0
  | Err e => mret (to_errno e)
  end.

Definition module_exit : M (S * option T) unit := set_mod None.
End Init.

(** ** [vtable.rs] *)

(** [find_map] over the identifiers. *)
Fixpoint vtable_is_trait (tokens : TokenStream) : option bool :=
  match tokens with
  | [] => None
  | Ident i _ :: tokens =>
      if String.eqb i "trait" then Some true
      else if String.eqb i "impl" then Some false
      else vtable_is_trait tokens
  | _ :: tokens => vtable_is_trait tokens
  end.

(** The loop over the body: the functions in order, and the constants. *)
Fixpoint vtable_scan (body_it : TokenStream) (functions : list string) (consts : gset string) :
    list string * gset string :=
  match body_it with
  | [] => (functions, consts)
  | tk :: body_it =>
      if is_ident "fn" tk then
        match body_it with
        | Ident fn_name _ :: body_it => vtable_scan body_it (functions ++ [fn_name]) consts
        | _ :: body_it => vtable_scan body_it functions consts
        | [] => (functions, consts)
        end
      else if is_ident "const" tk then
        match body_it with
        | Ident const_name _ :: body_it => vtable_scan body_it functions ({[const_name]} ∪ consts)
        | _ :: body_it => vtable_scan body_it functions consts
        | [] => (functions, consts)
        end
      else vtable_scan body_it functions consts
  end.

Section VTable.
Context `{Unicode}.
(** [TokenStream::from_str]. *)
Variable lex : string → exec TokenStream.

Definition gen_const_name (f : string) : string := "HAS_" +:+ to_uppercase f.

(** The functions for which a constant is written. *)
Fixpoint trait_consts (functions : list string) (consts : gset string) : list string :=
  match functions with
  | [] => []
  | f :: functions =>
      if bool_decide (gen_const_name f ∈ consts) then trait_consts functions consts
      else f :: trait_consts functions ({[gen_const_name f]} ∪ consts)
  end.

Definition impl_consts (functions : list string) (consts : gset string) : list string :=
  filter (λ f, gen_const_name f ∉ consts) functions.

Definition trait_const_item (f : string) : string :=
  "/// Indicates if the `" +:+ f +:+ "` method is overridden by the implementor.
                const " +:+ gen_const_name f +:+ ": bool = false;".
Definition impl_const_item (f : string) : string := "const " +:+ gen_const_name f +:+ ": bool = true;".

Definition vtable_const_items (is_trait : bool) (functions : list string) (consts : gset string) : string :=
  if is_trait then
    "
                /// A marker to prevent implementors from forgetting to use [`#[vtable]`](vtable)
                /// attribute when implementing this trait.
                const USE_VTABLE_ATTR: ();
        " +:+ String.concat "" (trait_const_item <$> trait_consts functions consts)
  else "const USE_VTABLE_ATTR: () = ();" +:+ String.concat "" (impl_const_item <$> impl_consts functions consts).

Definition vtable (ts : TokenStream) : exec TokenStream :=
  match vtable_is_trait ts with
  | None => Panic
  | Some is_trait =>
      match vec_pop ts with
      | (tokens, Some (Group Brace stream _)) =>
          let '(functions, consts) := vtable_scan stream [] ∅ in
          exec_bind (lex (vtable_const_items is_trait functions consts)) (λ items,
          Done (tokens ++ [group_new Brace (items ++ stream)]))
      | _ => Panic
      end
  end.
End VTable.

(** ** [module!]: the calls that are accepted *)

(** The code reads exactly one token. *)
Definition one_token {A} (m : PM A) : Prop :=
  m [] = Panic ∧
  ∀ t it, m (t :: it) = match m [t] with Done (a, _) => Done (a, it) | Panic => Panic | UB => UB end.

Lemma one_token_map {A B} (m : PM A) (f : A → B) : one_token m → one_token (v ← m; mret (f v)).
Proof.
  intros [H0 H1]. unfold one_token, mbind, M_bind, mret, M_ret. split; [by rewrite H0|].
  intros t it. rewrite H1. by destruct (m [t]) as [[a r]| |].
Qed.

Lemma one_token_panic {A} : one_token (panic : PM A).
Proof. done. Qed.

Lemma one_token_ident : one_token expect_ident.
Proof. split; [done|]. by intros [] it. Qed.
Lemma one_token_string : one_token expect_string.
Proof.
  split; [done|]. intros [] it; try done.
  unfold expect_string, expect, try_string, try_literal, mbind, M_bind, mret, M_ret, lift. simpl.
  by destruct (string_content _) as [[]| |].
Qed.
Lemma one_token_ascii : one_token expect_string_ascii.
Proof.
  split; [done|]. intros [] it; try done.
  unfold expect_string_ascii, expect, try_string, try_literal, mbind, M_bind, mret, M_ret, lift. simpl.
  destruct (string_content _) as [[s|]| |]; try done. by destruct (is_ascii s).
Qed.
Lemma one_token_array : one_token expect_string_array.
Proof.
  split; [done|]. intros [d ts sp| | |] it; try done.
  unfold expect_string_array, expect_group, expect, assert, mbind, M_bind, mret, M_ret, lift.
  cbn [next fst snd]. case_bool_decide; [|done]. by destruct (string_array_loop _ ts) as [[]| |].
Qed.
#[local] Hint Resolve one_token_map one_token_panic one_token_ident one_token_string one_token_ascii one_token_array : core.

Lemma one_token_value key info : one_token (parse_value key info).
Proof. unfold parse_value. repeat case_match; auto. Qed.

(** A field of the call: key, colon, value, comma. *)
Record Field := MkField {
  fkey : string; fkspan : Span; fcolon : Spacing * Span; fvalue : TokenTree; fcomma : Spacing * Span
}.
Definition field_tokens (f : Field) : TokenStream :=
  [Ident (fkey f) (fkspan f); Punct ":" (fst (fcolon f)) (snd (fcolon f)); fvalue f;
   Punct "," (fst (fcomma f)) (snd (fcomma f))].

(** The fields one after the other, each value read from its token. *)
Fixpoint read_fields (fs : list Field) (info : ModuleInfo) : option ModuleInfo :=
  match fs with
  | [] => Some info
  | f :: fs => match parse_value (fkey f) info [fvalue f] with Done (info, _) => read_fields fs info | _ => None end
  end.

Definition keys_ok (keys : list string) : Prop :=
  keys = filter (λ k, k ∈ keys) EXPECTED_KEYS ∧ Forall (λ k, k ∈ keys) REQUIRED_KEYS.

Lemma keys_ok_nodup keys : keys_ok keys → NoDup keys.
Proof. intros [-> _]. apply NoDup_filter. by repeat constructor; set_unfold; intuition congruence. Qed.

Lemma bind_eq {S A B} (m : M S A) (k : A → M S B) s a s' : m s = Done (a, s') → (m ≫= k) s = k a s'.
Proof. intros H. unfold mbind, M_bind. by rewrite H. Qed.

Lemma bind_inv {S A B} (m : M S A) (k : A → M S B) s r :
  (m ≫= k) s = Done r → ∃ a s', m s = Done (a, s') ∧ k a s' = Done r.
Proof. unfold mbind, M_bind. destruct (m s) as [[a s']| |]; try done. eauto. Qed.

Lemma assert_eq {S} b (s : S) : b = true → assert b s = Done (tt, s).
Proof. by intros ->. Qed.
Lemma assert_inv {S} b (s : S) r : assert b s = Done r → b = true ∧ r = (tt, s).
Proof. destruct b; [|done]. by intros [= <-]. Qed.

Lemma expect_punct_inv it c it' : expect_punct it = Done (c, it') → ∃ s sp, it = Punct c s sp :: it'.
Proof. destruct it as [|[| |d s sp|] it]; try done. intros [= <- <-]. eauto. Qed.

Lemma parse_loop_complete fs info info' seen fuel :
  read_fields fs info = Some info' → NoDup (seen ++ (fkey <$> fs)) → (length fs < fuel)%nat →
  parse_loop fuel info seen (flat_map field_tokens fs) = Done (info', seen ++ (fkey <$> fs), []).
Proof.
  revert info seen fuel. induction fs as [|f fs IH]; intros info seen fuel Hr Hn Hf; (destruct fuel as [|fuel]; [simpl in Hf; lia|]).
  - injection Hr as ->. simpl. by rewrite app_nil_r.
  - cbn [flat_map field_tokens app parse_loop read_fields] in *.
    destruct (parse_value _ _ [_]) as [[i r]| |] eqn:Hv; [|done..].
    assert (fkey f ∉ seen) as Hk. { intros Hk. apply NoDup_app in Hn as (_ & Hn & _). apply (Hn _ Hk). set_solver. }
    erewrite bind_eq by done. cbn beta iota.
    erewrite bind_eq by (apply assert_eq; by rewrite bool_decide_eq_false_2).
    erewrite bind_eq by done. erewrite bind_eq by done.
    erewrite bind_eq by (rewrite (proj2 (one_token_value (fkey f) info)), Hv; done).
    erewrite bind_eq by done. erewrite bind_eq by done.
    rewrite (IH i (seen ++ [fkey f]) fuel); [by rewrite <- app_assoc|done| |simpl in Hf; lia].
    by rewrite <- app_assoc.
Qed.

Lemma parse_loop_sound fuel info seen ts info' seen' r :
  parse_loop fuel info seen ts = Done (info', seen', r) →
  r = [] ∧ ∃ fs, ts = flat_map field_tokens fs ∧ read_fields fs info = Some info' ∧ seen' = seen ++ (fkey <$> fs).
Proof.
  revert info seen ts. induction fuel as [|fuel IH]; intros info seen ts; [done|]. cbn [parse_loop].
  intros (t & it & Hn & H)%bind_inv. destruct ts as [|t' ts]; injection Hn as <- <-.
  - injection H as <- <- <-. split; [done|]. exists []. by rewrite app_nil_r.
  - destruct t' as [|key sp| |]; try done.
    apply bind_inv in H as ([] & it & [_ [= ->]]%assert_inv & H).
    apply bind_inv in H as (c & it & (s1 & sp1 & ->)%expect_punct_inv & H).
    apply bind_inv in H as ([] & it' & [->%Ascii.eqb_eq [= ->]]%assert_inv & H).
    apply bind_inv in H as (i & it' & Hv & H).
    destruct it as [|v it]; [by rewrite (proj1 (one_token_value key info)) in Hv|].
    rewrite (proj2 (one_token_value key info)) in Hv.
    destruct (parse_value key info [v]) as [[i0 r0]| |] eqn:Hv'; simplify_eq.
    apply bind_inv in H as (c & it & (s2 & sp2 & ->)%expect_punct_inv & H).
    apply bind_inv in H as ([] & it' & [->%Ascii.eqb_eq [= ->]]%assert_inv & H).
    apply IH in H as (-> & fs & -> & Hr & ->). split; [done|].
    exists (MkField key sp (s1, sp1) v (s2, sp2) :: fs). cbn -[parse_value]. rewrite Hv'. by rewrite <- app_assoc.
Qed.

Lemma module_info_parse_iff ts info r :
  module_info_parse ts = Done (info, r) ↔
  r = [] ∧ ∃ fs, ts = flat_map field_tokens fs ∧ keys_ok (fkey <$> fs) ∧ read_fields fs info_default = Some info.
Proof.
  unfold module_info_parse. erewrite bind_eq by done. split.
  - intros ([i seen] & it & (-> & fs & -> & Hr & ->)%parse_loop_sound & H)%bind_inv.
    erewrite bind_eq in H by done.
    apply bind_inv in H as ([] & it & [Hq [= ->]]%assert_inv & H).
    apply bind_inv in H as ([] & it & [Ho%bool_decide_eq_true [= ->]]%assert_inv & H).
    injection H as <- <-. split; [done|]. exists fs. split_and!; [done| |done]. split; [done|].
    apply Forall_forall. intros k Hk%list_elem_of_In. rewrite forallb_forall in Hq.
    by apply Hq, bool_decide_eq_true in Hk.
  - intros (-> & fs & -> & Hk & Hr).
    erewrite bind_eq.
    2:{ apply (parse_loop_complete fs info_default info []); [done|by apply keys_ok_nodup|].
        clear. induction fs; simpl in *; lia. }
    destruct Hk as [Hk Hq]. cbn beta iota. erewrite bind_eq by done.
    erewrite bind_eq.
    2:{ apply assert_eq, forallb_forall. intros k Hin%list_elem_of_In. rewrite Forall_forall in Hq.
        by apply bool_decide_eq_true, Hq. }
    erewrite bind_eq by (apply assert_eq; by rewrite bool_decide_eq_true_2). done.
Qed.

(** ** Printing a call *)

Definition quote_string (s : string) : TokenTree :=
  Literal (String dquote (s +:+ String dquote EmptyString)) CallSite.
Fixpoint array_tokens (l : list string) : TokenStream :=
  match l with
  | [] => []
  | [s] => [quote_string s]
  | s :: l => quote_string s :: Punct "," Alone CallSite :: array_tokens l
  end.
Definition field_new (key : string) (v : TokenTree) : Field :=
  MkField key CallSite (Alone, CallSite) v (Alone, CallSite).
Definition opt_field {A} (key : string) (f : A → TokenTree) (o : option A) : list Field :=
  match o with Some a => [field_new key (f a)] | None => [] end.
Definition array_group (l : list string) : TokenTree := Group Bracket (array_tokens l) CallSite.

Definition info_fields (i : ModuleInfo) : list Field :=
  [field_new "type" (Ident (mtype i) CallSite); field_new "name" (quote_string (mname i))] ++
  opt_field "author" quote_string (author i) ++
  opt_field "description" quote_string (description i) ++
  [field_new "license" (quote_string (license i))] ++
  opt_field "alias" array_group (alias i) ++
  opt_field "firmware" array_group (firmware i).

(** Strings without escapes; ASCII where the code asks for it. *)
Definition plain_string (s : string) : bool := negb (contains_char backslash s).
Definition ascii_string (s : string) : bool := plain_string s && is_ascii s.
Definition opt_all {A} (p : A → bool) (o : option A) : bool := match o with Some a => p a | None => true end.
Definition info_wf (i : ModuleInfo) : bool :=
  ascii_string (mname i) && opt_all plain_string (author i) && opt_all plain_string (description i) &&
  ascii_string (license i) && opt_all (forallb ascii_string) (alias i) && opt_all (forallb ascii_string) (firmware i).

Lemma get_app_length s c : String.get (String.length s) (s +:+ String c EmptyString) = Some c.
Proof. induction s; simpl; auto. Qed.
Lemma substring_app s t : substring 0 (String.length s) (s +:+ t) = s.
Proof. induction s as [|c s IH]; simpl; [by destruct t|]. by rewrite IH. Qed.

Lemma string_content_ok s :
  plain_string s = true → string_content (String dquote (s +:+ String dquote EmptyString)) = Done (Some s).
Proof.
  intros Hp%negb_true_iff. unfold string_content, last_char.
  assert (String.length (s +:+ String dquote EmptyString) = S (String.length s)) as Hl.
  { clear. induction s; simpl in *; [done|]. by f_equal. }
  cbn [String.length first_char]. rewrite Hl. rewrite !bool_decide_eq_true_2; [|cbn; apply get_app_length|done].
  cbn -[dquote backslash]. rewrite Nat.sub_0_r, substring_app. by rewrite Hp.
Qed.

Lemma array_loop_ok l fuel :
  forallb ascii_string l = true → (length l < fuel)%nat →
  string_array_loop fuel (array_tokens l) = Done (l, []).
Proof.
  revert fuel. induction l as [|s l IH]; intros fuel Hl Hf; (destruct fuel as [|fuel]; [simpl in Hf; lia|]); [done|].
  simpl in Hl. apply andb_true_iff in Hl as [[Hp Ha]%andb_true_iff Hl].
  assert (∀ it, try_string (quote_string s :: it) = Done (Some s, it)) as Ht.
  { intros it. unfold try_string. erewrite bind_eq by done. unfold quote_string. cbn beta iota. unfold lift. by rewrite string_content_ok. }
  cbn [string_array_loop]. destruct l as [|s' l]; cbn [array_tokens].
  - erewrite bind_eq by apply Ht. cbn beta iota. by erewrite bind_eq by (by apply assert_eq).
  - erewrite bind_eq by apply Ht. cbn beta iota. erewrite bind_eq by (by apply assert_eq).
    erewrite bind_eq by done. cbn beta iota. erewrite bind_eq by done.
    erewrite bind_eq by (apply IH; [done|simpl in *; lia]). done.
Qed.

Lemma expect_string_ok s : plain_string s = true → expect_string [quote_string s] = Done (s, []).
Proof.
  intros H. unfold expect_string, expect, try_string, try_literal, mbind, M_bind, mret, M_ret, lift. simpl.
  by rewrite string_content_ok.
Qed.
Lemma expect_ascii_ok s : ascii_string s = true → expect_string_ascii [quote_string s] = Done (s, []).
Proof.
  intros [H Ha]%andb_true_iff. unfold expect_string_ascii. erewrite bind_eq by (by apply expect_string_ok).
  by rewrite Ha.
Qed.
Lemma expect_array_ok l : forallb ascii_string l = true → expect_string_array [array_group l] = Done (l, []).
Proof.
  intros H. unfold expect_string_array. erewrite bind_eq by done. cbn [fst snd].
  erewrite bind_eq by done. unfold lift. rewrite array_loop_ok; [done..|].
  clear. destruct l as [|s l]; simpl; [lia|]. revert s. induction l as [|s' l IH]; intros s; simpl in *; [lia|].
  specialize (IH s'). lia.
Qed.

(** The value of each key, from its printed token. *)
Lemma value_type i s : parse_value "type" i [Ident s CallSite] =
  Done (MkModuleInfo s (license i) (mname i) (author i) (description i) (alias i) (firmware i), []).
Proof. done. Qed.
Lemma value_name i s : ascii_string s = true → parse_value "name" i [quote_string s] =
  Done (MkModuleInfo (mtype i) (license i) s (author i) (description i) (alias i) (firmware i), []).
Proof. intros H. unfold parse_value. cbn [String.eqb Ascii.eqb Bool.eqb]. by erewrite bind_eq by (by apply expect_ascii_ok). Qed.
Lemma value_author i s : plain_string s = true → parse_value "author" i [quote_string s] =
  Done (MkModuleInfo (mtype i) (license i) (mname i) (Some s) (description i) (alias i) (firmware i), []).
Proof. intros H. unfold parse_value. cbn [String.eqb Ascii.eqb Bool.eqb]. by erewrite bind_eq by (by apply expect_string_ok). Qed.
Lemma value_description i s : plain_string s = true → parse_value "description" i [quote_string s] =
  Done (MkModuleInfo (mtype i) (license i) (mname i) (author i) (Some s) (alias i) (firmware i), []).
Proof. intros H. unfold parse_value. cbn [String.eqb Ascii.eqb Bool.eqb]. by erewrite bind_eq by (by apply expect_string_ok). Qed.
Lemma value_license i s : ascii_string s = true → parse_value "license" i [quote_string s] =
  Done (MkModuleInfo (mtype i) s (mname i) (author i) (description i) (alias i) (firmware i), []).
Proof. intros H. unfold parse_value. cbn [String.eqb Ascii.eqb Bool.eqb]. by erewrite bind_eq by (by apply expect_ascii_ok). Qed.
Lemma value_alias i l : forallb ascii_string l = true → parse_value "alias" i [array_group l] =
  Done (MkModuleInfo (mtype i) (license i) (mname i) (author i) (description i) (Some l) (firmware i), []).
Proof. intros H. unfold parse_value. cbn [String.eqb Ascii.eqb Bool.eqb]. by erewrite bind_eq by (by apply expect_array_ok). Qed.
Lemma value_firmware i l : forallb ascii_string l = true → parse_value "firmware" i [array_group l] =
  Done (MkModuleInfo (mtype i) (license i) (mname i) (author i) (description i) (alias i) (Some l), []).
Proof. intros H. unfold parse_value. cbn [String.eqb Ascii.eqb Bool.eqb]. by erewrite bind_eq by (by apply expect_array_ok). Qed.

#[local] Opaque parse_value.

Lemma opt_keys {A} key (f : A → TokenTree) o : fkey <$> opt_field key f o = match o with Some _ => [key] | None => [] end.
Proof. by destruct o. Qed.

Lemma read_fields_app fs gs i : read_fields (fs ++ gs) i = read_fields fs i ≫= read_fields gs.
Proof. revert i. induction fs as [|f fs IH]; intros i; [done|]. simpl. by destruct (parse_value _ _ _) as [[]| |]. Qed.

Lemma info_fields_ok i : info_wf i = true → keys_ok (fkey <$> info_fields i) ∧ read_fields (info_fields i) info_default = Some i.
Proof.
  intros [[[[[Hn Ha]%andb_true_iff Hd]%andb_true_iff Hl]%andb_true_iff Hal]%andb_true_iff Hf]%andb_true_iff.
  destruct i as [ty li na au de al fi]. simpl in Hn, Ha, Hd, Hl, Hal, Hf. split.
  - unfold info_fields. rewrite !fmap_app, !opt_keys. split.
    + destruct au, de, al, fi; vm_compute; reflexivity.
    + destruct au, de, al, fi; repeat constructor; simpl; set_solver.
  - unfold info_fields. rewrite !read_fields_app. cbn. rewrite value_type. cbn. rewrite value_name by done. cbn.
    destruct au; cbn; [rewrite value_author by done; cbn|].
    all: destruct de; cbn; [rewrite value_description by done; cbn|].
    all: rewrite value_license by done; cbn.
    all: destruct al; cbn; [rewrite value_alias by done; cbn|].
    all: destruct fi; cbn; [rewrite value_firmware by done; cbn|]; done.
Qed.


#[local] Transparent parse_value.

(** A non-string element ends the array: it and what follows are ignored silently. *)
Lemma array_ignores_rest :
  expect_string_array [Group Bracket [quote_string "a"; Punct "," Alone CallSite; Ident "b" CallSite;
    Punct "," Alone CallSite; quote_string "c"] CallSite] = Done (["a"%string], []).
Proof. vm_compute. reflexivity. Qed.

(** ** [.modinfo], [__init] and [__exit], [#[vtable]] *)

Section Lemmas.
Context `{Unicode}.

Definition builder_inv (b : ModInfoBuilder) : Prop :=
  counter b = length (buffer b) ∧ scounter <$> buffer b = seq 0 (length (buffer b)) ∧
  Forall (λ e, slength e = String.length (sbytes e) ∧ last_char (sbytes e) = Some (Ascii.ascii_of_nat 0)) (buffer b).

Lemma last_char_app s c : last_char (s +:+ String c EmptyString) = Some c.
Proof.
  unfold last_char. assert (String.length (s +:+ String c EmptyString) = S (String.length s)) as ->.
  { induction s; simpl in *; [done|]. by f_equal. }
  rewrite Nat.sub_succ, Nat.sub_0_r. apply get_app_length.
Qed.

Lemma string_app_assoc a b c : a +:+ (b +:+ c) = (a +:+ b) +:+ c.
Proof. induction a as [|x a IH]; [done|]. change (String x (a +:+ (b +:+ c)) = String x ((a +:+ b) +:+ c)). by rewrite IH. Qed.

Lemma last_char_NUL l : last_char (foldr String.append NUL l) = Some (Ascii.ascii_of_nat 0).
Proof.
  assert (∃ p, foldr String.append NUL l = p +:+ NUL) as [p ->]; [|apply last_char_app].
  induction l as [|s l [p IH]]; [by exists EmptyString|]. exists (s +:+ p). simpl. by rewrite IH, string_app_assoc.
Qed.

Lemma emit_base_inv field content builtin b : builder_inv b → builder_inv (emit_base field content builtin b).
Proof.
  intros (Hc & Hs & Hf). unfold builder_inv, emit_base; simpl. rewrite length_app, fmap_app, Hs, seq_app, Hc. simpl.
  split_and!; [done|done|]. apply Forall_app. split; [done|]. apply Forall_singleton. split; [done|].
  destruct builtin.
  - exact (last_char_NUL [bmodule b; "."; field; "="; content]%string).
  - exact (last_char_NUL [field; "="; content]%string).
Qed.

Lemma emit_inv field content b : builder_inv b → builder_inv (emit field content b).
Proof. intros Hb. by apply emit_base_inv, emit_base_inv. Qed.

Lemma emit_all_inv field o b : builder_inv b → builder_inv (emit_all field o b).
Proof.
  destruct o as [l|]; [|done]. simpl. revert b. induction l as [|c l IH]; intros b Hb; [done|].
  by apply IH, emit_inv.
Qed.

(** The statics of a module have distinct names, the length they declare and a final NUL. *)
Lemma module_modinfo_ok info file : builder_inv (module_modinfo info file).
Proof.
  unfold module_modinfo. apply emit_base_inv, emit_all_inv, emit_all_inv, emit_inv.
  assert (∀ f o b, builder_inv b → builder_inv (emit_opt f o b)) as Ho.
  { intros f [c|] b Hb; [by apply emit_inv|done]. }
  by apply Ho, Ho.
Qed.

(** In a trait every method gets one constant, written by the user or by the macro. *)
Lemma trait_consts_ok functions consts :
  NoDup (gen_const_name <$> trait_consts functions consts) ∧
  (∀ f, f ∈ trait_consts functions consts → f ∈ functions ∧ gen_const_name f ∉ consts) ∧
  (∀ f, f ∈ functions → gen_const_name f ∈ consts ∨ gen_const_name f ∈ gen_const_name <$> trait_consts functions consts).
Proof.
  revert consts. induction functions as [|f functions IH]; intros consts; simpl.
  { split_and!; [constructor|by intros f ?%elem_of_nil..]. }
  case_bool_decide as Hf.
  - destruct (IH consts) as (H1 & H2 & H3). split_and!; [done| |].
    + intros g Hg. destruct (H2 g Hg). split; [by apply elem_of_cons; right|done].
    + intros g [->|Hg]%elem_of_cons; [by left|auto].
  - destruct (IH ({[gen_const_name f]} ∪ consts)) as (H1 & H2 & H3). split_and!.
    + rewrite fmap_cons. constructor; [|done]. intros (g & Hg & [_ Hin]%H2)%list_elem_of_fmap.
      apply Hin, elem_of_union_l, elem_of_singleton. done.
    + intros g [->|Hg]%elem_of_cons; [by split; [apply elem_of_cons; left|]|].
      destruct (H2 g Hg) as [Hin Hc]. split; [by apply elem_of_cons; right|].
      intros ?. by apply Hc, elem_of_union_r.
    + rewrite fmap_cons. intros g [->|Hg]%elem_of_cons; [by right; apply elem_of_cons; left|].
      destruct (H3 g Hg) as [[->%elem_of_singleton|?]%elem_of_union|?].
      * right. apply elem_of_cons. by left.
      * by left.
      * right. apply elem_of_cons. by right.
Qed.

(** An implementation gets the constants of its methods that the user did not write. *)
Lemma impl_consts_ok functions consts f :
  f ∈ impl_consts functions consts ↔ f ∈ functions ∧ gen_const_name f ∉ consts.
Proof. unfold impl_consts. rewrite list_elem_of_filter. tauto. Qed.
End Lemmas.

(** A module that fails to initialise is not stored; one that does is dropped on exit. *)
Lemma module_lifecycle {S T} (kunit_init : M S unit) (init : M S (result Error T)) drop_mod s s1 s2 :
  kunit_init s = Done (tt, s1) →
  (∀ e, init s1 = Done (Err e, s2) → module_init kunit_init init drop_mod (s, None) = Done (to_errno e, (s2, None))) ∧
  (∀ m s3, init s1 = Done (Ok m, s2) → drop_mod m s2 = Done (tt, s3) →
     module_init kunit_init init drop_mod (s, None) = Done (0, (s2, Some m)) ∧
     module_exit drop_mod (s2, Some m) = Done (tt, (s3, None))).
Proof.
  intros Hk. unfold module_init, module_exit, set_mod, on_sys, mbind, M_bind, get, modify, mret, M_ret. simpl. rewrite Hk. simpl.
  split; [by intros e ->|]. intros m s3 -> Hd. simpl. by rewrite Hd.
Qed.
