(* ===== verification/ModuleText.v ===== *)
(** * The text of [module!] ([rust/macros/module.rs])

    [module!] writes its output as text and has it parsed. The two templates are those of the
    source, with their comments, and [rust_format] is [format!] on named arguments. The lexer
    and the display of byte strings are those of the compiler. *)

From Stdlib Require Import Ascii String.
From stdpp Require Import strings pretty.
From S2P Require Import Prelude Errors Macros MacroModule.

(** ** [format!] *)

Inductive Seg := Lit (s : string) | Hole (name : string).

#[export] Instance seg_eq_dec : EqDecision Seg.
Proof. solve_decision. Defined.

Definition push_char (c : ascii) (l : list Seg) : list Seg :=
  match l with Lit s :: l => Lit (String c s) :: l | l => Lit (String c EmptyString) :: l end.
Definition push_hole (c : ascii) (l : list Seg) : list Seg :=
  match l with Hole s :: l => Hole (String c s) :: l | l => l end.

(** [inside]: after an opening brace. A brace that is not closed, or not doubled, is a build
    error: [None]. *)
Fixpoint parse_template (inside : bool) (s : string) : option (list Seg) :=
  match s with
  | EmptyString => if inside then None else Some []
  | String c s' =>
      if inside then
        if Ascii.eqb c "}" then cons (Hole EmptyString) <$> parse_template false s'
        else push_hole c <$> parse_template true s'
      else if Ascii.eqb c "{" then
        match s' with
        | String d s2 => if Ascii.eqb d "{" then push_char c <$> parse_template false s2 else parse_template true s'
        | EmptyString => None
        end
      else if Ascii.eqb c "}" then
        match s' with
        | String d s2 => if Ascii.eqb d "}" then push_char c <$> parse_template false s2 else None
        | EmptyString => None
        end
      else push_char c <$> parse_template false s'
  end.

(** An argument that is missing is a build error. *)
Fixpoint fill (env : string → option string) (l : list Seg) : option string :=
  match l with
  | [] => Some EmptyString
  | Lit s :: l => String.append s <$> fill env l
  | Hole n :: l => a ← env n; String.append a <$> fill env l
  end.

Definition rust_format (template : string) (env : string → option string) : option string :=
  parse_template false template ≫= fill env.

Definition holes (l : list Seg) : list string :=
  l ≫= λ s, match s with Hole n => [n] | Lit _ => [] end.

(** The named arguments. *)
Fixpoint args (l : list (string * string)) (n : string) : option string :=
  match l with [] => None | (m, a) :: l => if String.eqb m n then Some a else args l n end.

(** ** The templates *)

Definition dq : string := String dquote EmptyString.

Definition modinfo_template : string :=
String.concat dq ["
                {cfg}
                #[doc(hidden)]
                #[link_section = ";
".modinfo";
"]
                #[used]
                pub static __{module}_{counter}: [u8; {length}] = *{string};
            "]%string.

Definition module_template : string :=
String.concat dq ["
            /// The module name.
            ///
            /// Used by the printing macros, e.g. [`info!`].
            const __LOG_PREFIX: &[u8] = b";
"{name}\0";
";

            // SAFETY: `__this_module` is constructed by the kernel at load time and will not be
            // freed until the module is unloaded.
            #[cfg(MODULE)]
            static THIS_MODULE: kernel::ThisModule = unsafe {{
                extern ";
"C";
" {{
                    static __this_module: kernel::types::Opaque<kernel::bindings::module>;
                }}

                kernel::ThisModule::from_ptr(__this_module.get())
            }};
            #[cfg(not(MODULE))]
            static THIS_MODULE: kernel::ThisModule = unsafe {{
                kernel::ThisModule::from_ptr(core::ptr::null_mut())
            }};

            // Double nested modules, since then nobody can access the public items inside.
            mod __module_init {{
                mod __module_init {{
                    use super::super::{type_};

                    /// The ";
"Rust loadable module";
" mark.
                    //
                    // This may be best done another way later on, e.g. as a new modinfo
                    // key or a new section. For the moment, keep it simple.
                    #[cfg(MODULE)]
                    #[doc(hidden)]
                    #[used]
                    static __IS_RUST_MODULE: () = ();

                    static mut __MOD: Option<{type_}> = None;

                    // Loadable modules need to export the `{{init,cleanup}}_module` identifiers.
                    /// # Safety
                    ///
                    /// This function must not be called after module initialization, because it may be
                    /// freed after that completes.
                    #[cfg(MODULE)]
                    #[doc(hidden)]
                    #[no_mangle]
                    #[link_section = ";
".init.text";
"]
                    pub unsafe extern ";
"C";
" fn init_module() -> kernel::ffi::c_int {{
                        // SAFETY: This function is inaccessible to the outside due to the double
                        // module wrapping it. It is called exactly once by the C side via its
                        // unique name.
                        unsafe {{ __init() }}
                    }}

                    #[cfg(MODULE)]
                    #[doc(hidden)]
                    #[used]
                    #[link_section = ";
".init.data";
"]
                    static __UNIQUE_ID___addressable_init_module: unsafe extern ";
"C";
" fn() -> i32 = init_module;

                    #[cfg(MODULE)]
                    #[doc(hidden)]
                    #[no_mangle]
                    #[link_section = ";
".exit.text";
"]
                    pub extern ";
"C";
" fn cleanup_module() {{
                        // SAFETY:
                        // - This function is inaccessible to the outside due to the double
                        //   module wrapping it. It is called exactly once by the C side via its
                        //   unique name,
                        // - furthermore it is only called after `init_module` has returned `0`
                        //   (which delegates to `__init`).
                        unsafe {{ __exit() }}
                    }}

                    #[cfg(MODULE)]
                    #[doc(hidden)]
                    #[used]
                    #[link_section = ";
".exit.data";
"]
                    static __UNIQUE_ID___addressable_cleanup_module: extern ";
"C";
" fn() = cleanup_module;

                    // Built-in modules are initialized through an initcall pointer
                    // and the identifiers need to be unique.
                    #[cfg(not(MODULE))]
                    #[cfg(not(CONFIG_HAVE_ARCH_PREL32_RELOCATIONS))]
                    #[doc(hidden)]
                    #[link_section = ";
"{initcall_section}";
"]
                    #[used]
                    pub static __{name}_initcall: extern ";
"C";
" fn() -> kernel::ffi::c_int = __{name}_init;

                    #[cfg(not(MODULE))]
                    #[cfg(CONFIG_HAVE_ARCH_PREL32_RELOCATIONS)]
                    core::arch::global_asm!(
                        r#";
".section ";
"{initcall_section}";
", ";
"a";
"
                        __{name}_initcall:
                            .long   __{name}_init - .
                            .previous
                        ";
"#
                    );

                    #[cfg(not(MODULE))]
                    #[doc(hidden)]
                    #[no_mangle]
                    pub extern ";
"C";
" fn __{name}_init() -> kernel::ffi::c_int {{
                        // SAFETY: This function is inaccessible to the outside due to the double
                        // module wrapping it. It is called exactly once by the C side via its
                        // placement above in the initcall section.
                        unsafe {{ __init() }}
                    }}

                    #[cfg(not(MODULE))]
                    #[doc(hidden)]
                    #[no_mangle]
                    pub extern ";
"C";
" fn __{name}_exit() {{
                        // SAFETY:
                        // - This function is inaccessible to the outside due to the double
                        //   module wrapping it. It is called exactly once by the C side via its
                        //   unique name,
                        // - furthermore it is only called after `__{name}_init` has returned `0`
                        //   (which delegates to `__init`).
                        unsafe {{ __exit() }}
                    }}

                    /// # Safety
                    ///
                    /// This function must only be called once.
                    unsafe fn __init() -> kernel::ffi::c_int {{
                        // Initialize any Rust KUnit suites registered in this
                        // module before the KUnit module notifier sees them.
                        kernel::kunit::init_test_suites(&super::super::THIS_MODULE);

                        match <{type_} as kernel::Module>::init(&super::super::THIS_MODULE) {{
                            Ok(m) => {{
                                // SAFETY: No data race, since `__MOD` can only be accessed by this
                                // module and there only `__init` and `__exit` access it. These
                                // functions are only called once and `__exit` cannot be called
                                // before or during `__init`.
                                unsafe {{
                                    __MOD = Some(m);
                                }}
                                return 0;
                            }}
                            Err(e) => {{
                                return e.to_errno();
                            }}
                        }}
                    }}

                    /// # Safety
                    ///
                    /// This function must
                    /// - only be called once,
                    /// - be called after `__init` has been called and returned `0`.
                    unsafe fn __exit() {{
                        // SAFETY: No data race, since `__MOD` can only be accessed by this module
                        // and there only `__init` and `__exit` access it. These functions are only
                        // called once and `__init` was already called.
                        unsafe {{
                            // Invokes `drop()` on `__MOD`, which should be used for cleanup.
                            __MOD = None;
                        }}
                    }}

                    {modinfo}
                }}
            }}
        "]%string.


(** ** The macro *)

Section Module.
Context `{Unicode}.
(** [Literal::byte_string] as text, and [TokenStream::from_str]. *)
Variable byte_string : string → string.
Variable lex : string → exec TokenStream.

(** What [emit_base] writes for an entry. *)
Definition modinfo_text (e : ModInfoStatic) : option string :=
  rust_format modinfo_template (args
    [("cfg", if sbuiltin e then "#[cfg(not(MODULE))]" else "#[cfg(MODULE)]");
     ("module", ssymbol e); ("counter", pretty (N.of_nat (scounter e)));
     ("length", pretty (N.of_nat (slength e))); ("string", byte_string (sbytes e))])%string.

Definition buffer_text (b : ModInfoBuilder) : option string := String.concat EmptyString <$> mapM modinfo_text (buffer b).

Definition module_text (info : ModuleInfo) (modinfo : string) : option string :=
  rust_format module_template (args
    [("type_", mtype info); ("name", mname info); ("modinfo", modinfo);
     ("initcall_section", ".initcall6.init")])%string.

(** The whole of [module!]; [RUST_MODFILE] is the environment variable. *)
Definition module (RUST_MODFILE : option string) (ts : TokenStream) : exec TokenStream :=
  match module_info_parse ts with
  | Done (info, _) =>
      match RUST_MODFILE with
      | None => Panic
      | Some file =>
          match buffer_text (module_modinfo info file) ≫= module_text info with
          | Some text => lex text
          | None => Panic
          end
      end
  | Panic => Panic
  | UB => UB
  end.

(** ** The templates are well formed *)

Lemma fill_total env l : Forall (λ n, is_Some (env n)) (holes l) → is_Some (fill env l).
Proof.
  induction l as [|[s|n] l IH]; simpl; [by eauto| |].
  - intros Hl. destruct (IH Hl) as [t ->]. by eexists.
  - rewrite Forall_cons. intros [[a ->] Hl]. destruct (IH Hl) as [t ->]. by eexists.
Qed.

(** Where the arguments go. *)
Lemma modinfo_holes :
  holes <$> parse_template false modinfo_template = Some ["cfg"; "module"; "counter"; "length"; "string"]%string.
Proof. vm_compute. reflexivity. Qed.

Lemma module_holes :
  holes <$> parse_template false module_template = Some
    ["name"; "type_"; "type_"; "initcall_section"; "name"; "name"; "initcall_section"; "name"; "name"; "name";
     "name"; "name"; "type_"; "modinfo"]%string.
Proof. vm_compute. reflexivity. Qed.

Lemma format_total t ns env : holes <$> parse_template false t = Some ns → Forall (λ n, is_Some (env n)) ns →
  is_Some (rust_format t env).
Proof.
  unfold rust_format. destruct (parse_template false t) as [l|]; [|done]. intros [= <-]. apply fill_total.
Qed.

Lemma modinfo_text_total e : is_Some (modinfo_text e).
Proof. eapply format_total; [exact modinfo_holes|]. repeat (apply Forall_cons_2; [eexists; reflexivity|]). by apply Forall_nil_2. Qed.

Lemma module_text_total info modinfo : is_Some (module_text info modinfo).
Proof. eapply format_total; [exact module_holes|]. repeat (apply Forall_cons_2; [eexists; reflexivity|]). by apply Forall_nil_2. Qed.

Lemma buffer_text_total b : is_Some (buffer_text b).
Proof.
  unfold buffer_text. destruct (mapM modinfo_text (buffer b)) as [l|] eqn:E; [by eexists|].
  apply mapM_None_1, Exists_exists in E as (e & _ & He). destruct (modinfo_text_total e) as [t Ht]. congruence.
Qed.

End Module.

(** [module!] is total on the calls that its parser accepts: for the call of every well-formed
    [ModuleInfo] it has the instantiated template lexed, which is never missing an argument,
    and it is a build error on every other input and without the name of the file. *)
Theorem module_expands `{Unicode} (byte_string : string → string) (lex : string → exec TokenStream) :
  (∀ info file, info_wf info = true →
     ∃ entries text, mapM (modinfo_text byte_string) (buffer (module_modinfo info file)) = Some entries ∧
       module_text info (String.concat EmptyString entries) = Some text ∧
       module byte_string lex (Some file) (flat_map field_tokens (info_fields info)) = lex text) ∧
  (∀ file ts, (∀ info, module_info_parse ts ≠ Done (info, [])) →
     module byte_string lex file ts = Panic ∨ module byte_string lex file ts = UB) ∧
  (∀ ts out, module byte_string lex None ts ≠ Done out).
Proof.
  split_and!.
  - intros info file [Hk Hr]%info_fields_ok.
    assert (module_info_parse (flat_map field_tokens (info_fields info)) = Done (info, [])) as Hp.
    { apply module_info_parse_iff. split; [done|]. by exists (info_fields info). }
    destruct (buffer_text_total byte_string (module_modinfo info file)) as [b Hb].
    unfold module. rewrite Hp, Hb. unfold buffer_text in Hb.
    destruct (mapM _ _) as [entries|]; [|done]. injection Hb as <-.
    destruct (module_text_total info (String.concat EmptyString entries)) as [text Ht].
    exists entries, text. split_and!; [done|done|]. cbn [mbind option_bind]. by rewrite Ht.
  - intros file ts Hts. unfold module. destruct (module_info_parse ts) as [[info r]| |] eqn:E; [|by left|by right].
    exfalso. pose proof (proj1 (module_info_parse_iff ts info r) E) as [-> _]. by eapply Hts.
  - intros ts out. unfold module. by destruct (module_info_parse ts) as [[info r]| |].
Qed.

(** An instance of the templates. *)
Example modinfo_text_demo :
  modinfo_text (λ _, "b"%string) (MkStatic true "DEMO" 3 12 "demo.a=b") = Some (String.concat dq ["
                #[cfg(not(MODULE))]
                #[doc(hidden)]
                #[link_section = ";
".modinfo";
"]
                #[used]
                pub static __DEMO_3: [u8; 12] = *b;
            "]%string).
Proof. vm_compute. reflexivity. Qed.
