(* ===== verification/KUnit.v ===== *)
(** * KUnit support ([rust/macros/kunit.rs], [rust/src/kunit.rs], [src/shim_kunit.c])

    The [#[kunit_tests]] attribute collects the tests of a module and generates the
    metadata of a suite; [init_test_suites] turns the metadata of every suite into the
    arrays that KUnit walks and registers the functions; the C dispatcher finds the
    function of a case by name. The three are modelled and composed. *)

From Stdlib Require Import Ascii String.
From stdpp Require Import strings pretty.
From S2P Require Import Prelude Macros.

(** ** The attribute macro *)

(** A group that prints as [[test]]. *)
Definition is_test_group (tk : TokenTree) : bool :=
  match tk with
  | Group Bracket [Ident i _] _ => String.eqb i "test"
  | _ => false
  end.

(** The loop that collects the names of the tests. *)
Fixpoint collect_tests (body_it : TokenStream) : list string :=
  match body_it with
  | [] => []
  | tk :: body_it =>
      if is_test_group tk then
        match body_it with
        | [] => []
        | t :: body_it =>
            if is_ident "fn" t then
              match body_it with
              | [] => []
              | Ident n _ :: body_it => n :: collect_tests body_it
              | _ :: body_it => collect_tests body_it
              end
            else collect_tests body_it
        end
      else collect_tests body_it
  end.

(** The loop that removes the [#[test]] attributes. *)
Fixpoint remove_test_attrs (body_it : TokenStream) : TokenStream :=
  match body_it with
  | [] => []
  | tk :: body_it =>
      if is_punct "#" tk then
        match body_it with
        | [] => [tk]
        | t :: body_it => if is_test_group t then remove_test_attrs body_it else tk :: t :: remove_test_attrs body_it
        end
      else tk :: remove_test_attrs body_it
  end.

Definition nl : string := String (Ascii.ascii_of_nat 10) EmptyString.
Definition dq : string := String dquote EmptyString.

Definition wrapper_name (test : string) : string := "kunit_rust_wrapper_" +:+ test.
Definition wrapper_text (test : string) : string :=
  "unsafe extern " +:+ dq +:+ "C" +:+ dq +:+ " fn " +:+ wrapper_name test +:+
  "(_test: *mut kernel::bindings::kunit) { " +:+ test +:+ "(); }" +:+ nl.
Definition case_text (test : string) : string :=
  "    kernel::kunit::KUnitCaseMeta::new(kernel::c_str!(" +:+ dq +:+ test +:+ dq +:+ ").as_char_ptr(), " +:+
  wrapper_name test +:+ ")," +:+ nl.
Definition kunit_macros_text (attr : string) (tests : list string) : string :=
  let n := pretty (N.of_nat (length tests + 1)) in
  String.concat EmptyString (wrapper_text <$> tests) +:+ nl +:+
  "static mut TEST_CASES: [kernel::kunit::KUnitCaseMeta; " +:+ n +:+ "] = [" +:+ nl +:+
  String.concat EmptyString (case_text <$> tests) +:+ "    kernel::kunit::KUnitCaseMeta::null()," +:+ nl +:+ "];" +:+ nl +:+
  "kernel::kunit_unsafe_test_suite!(" +:+ attr +:+ ", TEST_CASES, " +:+ n +:+ ");" +:+ nl.

Section Attribute.
(** [TokenStream::from_str]. *)
Variable lex : string → exec TokenStream.

(** [attr] is the text of the attribute's argument. *)
Definition kunit_tests (attr : string) (ts : TokenStream) : exec TokenStream :=
  if (String.length attr =? 0)%nat || (255 <? String.length attr)%nat then Panic
  else if negb (existsb (is_ident "mod") ts) then Panic
  else
    match vec_pop ts with
    | (tokens, Some (Group Brace stream _)) =>
        let tests := collect_tests stream in
        exec_bind (lex "#[cfg(CONFIG_KUNIT)]") (λ config_kunit,
        exec_bind (lex (kunit_macros_text attr tests)) (λ kunit_macros,
        Done ((group_new NoDelim config_kunit :: tokens) ++
              [group_new Brace (remove_test_attrs stream ++ kunit_macros)])))
    | _ => Panic
    end.
End Attribute.

(** ** The runtime *)

Definition KUNIT_MAX_TEST_CASES : nat := 128.
Definition KUNIT_CASE_STORAGE_SIZE : nat := 64.
Definition RS_KUNIT_MAX_TEST_CASES : nat := 256.
#[local] Opaque KUNIT_MAX_TEST_CASES KUNIT_CASE_STORAGE_SIZE RS_KUNIT_MAX_TEST_CASES.

(** Functions are named; a null pointer is [None]. *)
Record KUnitCaseMeta := MkCaseMeta { cname : option string; run_case : option string }.
Definition case_meta_new (name run : string) : KUnitCaseMeta := MkCaseMeta (Some name) (Some run).
Definition case_meta_null : KUnitCaseMeta := MkCaseMeta None None.

(** [KUnitSuiteSlot] with its metadata; [test_cases] names the pool of the suite. *)
Record KUnitSuiteSlot := MkSlot {
  suite_name : string; test_cases : nat; case_meta : list KUnitCaseMeta; num_cases : nat
}.

(** An entry of the registry of the C shim. *)
Record TestEntry := MkEntry { owner : Z; ename : string; erun : string }.

(** The pools of C test cases (a written slot holds the name of its case, or the null
    delimiter), the suites that were initialised, the registry. *)
Record KState := MkKState {
  pools : gmap nat (gmap nat (option string));
  inited : gmap nat string;
  registry : list TestEntry
}.

Section Runtime.
(** [sizeof(struct kunit_case)]. *)
Variable case_size : nat.

(** A write of slot [j] must be inside of the pool. *)
Definition write_case (cases j : nat) (v : option string) : M KState unit := λ s,
  if ((j + 1) * case_size <=? KUNIT_MAX_TEST_CASES * KUNIT_CASE_STORAGE_SIZE)%nat then
    Done (tt, MkKState (<[cases := <[j := v]> (default ∅ (pools s !! cases))]> (pools s)) (inited s) (registry s))
  else UB.

Definition rs_kunit_case_array_init (cases j : nat) (name : option string) : M KState unit := write_case cases j name.
Definition rs_kunit_case_array_init_null (cases j : nat) : M KState unit := write_case cases j None.

(** A full registry drops the case with a warning. *)
Definition rs_kunit_register_case (mdl : Z) (name run : option string) : M KState unit :=
  match name, run with
  | Some n, Some r => modify (λ s,
      if (RS_KUNIT_MAX_TEST_CASES <=? length (registry s))%nat then s
      else MkKState (pools s) (inited s) (registry s ++ [MkEntry mdl n r]))
  | _, _ => mret tt
  end.

Definition rs_kunit_suite_init_rust (cases : nat) (name : string) : M KState unit :=
  modify (λ s, MkKState (pools s) (<[cases := name]> (inited s)) (registry s)).

Definition rs_kunit_unregister_module (mdl : Z) : M KState unit :=
  modify (λ s, MkKState (pools s) (inited s) (filter (λ e, owner e ≠ mdl) (registry s))).

(** The search of the dispatcher: the first entry of that name. *)
Definition rs_kunit_run_case (s : KState) (name : string) : option string :=
  erun <$> head (filter (λ e, ename e = name) (registry s)).

(** [for j in 0..num_cases] *)
Fixpoint init_cases (mdl : Z) (slot : KUnitSuiteSlot) (js : list nat) : M KState unit :=
  match js with
  | [] => mret tt
  | j :: js =>
      match case_meta slot !! j with
      | None => ub
      | Some meta =>
          _ ← match cname meta with
              | None => rs_kunit_case_array_init_null (test_cases slot) j
              | Some n =>
                  _ ← rs_kunit_case_array_init (test_cases slot) j (Some n);
                  rs_kunit_register_case mdl (Some n) (run_case meta)
              end;
          init_cases mdl slot js
      end
  end.

(** The entries of the section; a null entry is skipped. *)
Fixpoint init_test_suites (mdl : Z) (suites : list (option KUnitSuiteSlot)) : M KState unit :=
  match suites with
  | [] => mret tt
  | None :: suites => init_test_suites mdl suites
  | Some slot :: suites =>
      _ ← init_cases mdl slot (seq 0 (num_cases slot));
      _ ← rs_kunit_suite_init_rust (test_cases slot) (suite_name slot);
      init_test_suites mdl suites
  end.
End Runtime.

(** What the attribute generates for the tests of a suite. *)
Definition generated_slot (name : string) (pool : nat) (tests : list string) : KUnitSuiteSlot :=
  MkSlot name pool (((λ t, case_meta_new t (wrapper_name t)) <$> tests) ++ [case_meta_null]) (length tests + 1).

(** ** The cases of every suite are ready to run *)

Section Ready.
Variable case_size : nat.
Hypothesis case_size_ok : (case_size ≤ KUNIT_CASE_STORAGE_SIZE)%nat.

Implicit Types s : KState.

(** The pool of a suite holds its tests in order and the delimiter. *)
Definition pool_ok (tests : list string) (m : gmap nat (option string)) : Prop :=
  (∀ j t, tests !! j = Some t → m !! j = Some (Some t)) ∧ m !! length tests = Some None.

Definition set_registry (r : list TestEntry) s : KState := MkKState (pools s) (inited s) r.
Definition entries (mdl : Z) (tests : list string) : list TestEntry := (λ t, MkEntry mdl t (wrapper_name t)) <$> tests.

Lemma write_case_ok cases j v s :
  (j < KUNIT_MAX_TEST_CASES)%nat →
  write_case case_size cases j v s =
  Done (tt, MkKState (<[cases := <[j := v]> (default ∅ (pools s !! cases))]> (pools s)) (inited s) (registry s)).
Proof.
  intros Hj. unfold write_case. assert (((j + 1) * case_size <=? KUNIT_MAX_TEST_CASES * KUNIT_CASE_STORAGE_SIZE)%nat = true) as ->; [|done].
  apply Nat.leb_le. apply Nat.mul_le_mono; [lia|done].
Qed.

(** The pool of a suite; it starts zeroed. *)
Definition pool s (p : nat) : gmap nat (option string) := default ∅ (pools s !! p).

Lemma pool_write s p j v i r q :
  pool (MkKState (<[p := <[j := v]> (default ∅ (pools s !! p))]> (pools s)) i r) q =
  if decide (q = p) then <[j := v]> (pool s p) else pool s q.
Proof.
  unfold pool. simpl. case_decide; subst; [by rewrite lookup_insert_eq|by rewrite lookup_insert_ne].
Qed.

Lemma init_cases_ok mdl nm p tests n i s :
  (i + n = length tests + 1)%nat → (length tests < KUNIT_MAX_TEST_CASES)%nat →
  (length (registry s) + length (drop i tests) ≤ RS_KUNIT_MAX_TEST_CASES)%nat →
  wp (init_cases case_size mdl (generated_slot nm p tests) (seq i n)) (λ _ s',
    registry s' = registry s ++ entries mdl (drop i tests) ∧ inited s' = inited s ∧
    (∀ q, q ≠ p → pool s' q = pool s q) ∧
    (∀ j, (j < i)%nat → pool s' p !! j = pool s p !! j) ∧
    (∀ j t, (i ≤ j)%nat → tests !! j = Some t → pool s' p !! j = Some (Some t)) ∧
    ((i ≤ length tests)%nat → pool s' p !! length tests = Some None)) s.
Proof.
  revert i s. induction n as [|n IH]; intros i s Hi Hl Hr; simpl.
  - apply wp_ret. rewrite drop_ge by lia. rewrite app_nil_r. split_and!; try done; [|lia].
    intros j t Hj Ht%lookup_lt_Some. lia.
  - assert (∀ v, wp (write_case case_size p i v) (λ _ s1, registry s1 = registry s ∧ inited s1 = inited s ∧
      ∀ q, pool s1 q = if decide (q = p) then <[i := v]> (pool s p) else pool s q) s) as Hw.
    { intros v. eexists _, _. split; [apply write_case_ok; lia|]. split_and!; [done..|]. intros q. apply pool_write. }
    destruct (tests !! i) as [t|] eqn:Ht.
    + pose proof (lookup_lt_Some _ _ _ Ht) as Hlt.
      rewrite lookup_app_l by (by rewrite length_fmap). rewrite list_lookup_fmap, Ht. simpl.
      rewrite (drop_S _ _ _ Ht) in *. simpl in Hr.
      apply wp_bind, wp_bind. eapply wp_mono; [apply Hw|]. intros [] s1 (Hr1 & Hi1 & Hp1).
      apply wp_modify. rewrite Hr1. rewrite (proj2 (Nat.leb_gt _ _)) by lia.
      eapply wp_mono; [apply IH; [lia|done|simpl; rewrite length_app; simpl; lia]|].
      intros [] s2 (Hr2 & Hi2 & Hq2 & Hlo & Hhi & Hend). simpl in *.
      assert (∀ q, pool (MkKState (pools s1) (inited s1) (registry s ++ [MkEntry mdl t (wrapper_name t)])) q = pool s1 q) as Hpool by done.
      split_and!.
      * rewrite Hr2, <- app_assoc. done.
      * congruence.
      * intros q Hq. rewrite Hq2, Hpool, Hp1 by done. by rewrite decide_False.
      * intros j Hj. rewrite Hlo, Hpool, Hp1, decide_True, lookup_insert_ne by (done || lia). done.
      * intros j t' Hj Ht'. destruct (decide (j = i)) as [->|].
        -- rewrite Hlo, Hpool, Hp1, decide_True, lookup_insert_eq by (done || lia). congruence.
        -- apply Hhi; [lia|done].
      * intros _. apply Hend. lia.
    + apply lookup_ge_None in Ht. assert (i = length tests) as -> by lia. assert (n = 0%nat) as -> by lia.
      rewrite lookup_app_r by (rewrite length_fmap; lia). rewrite length_fmap, Nat.sub_diag. simpl.
      apply wp_bind. eapply wp_mono; [apply Hw|]. intros [] s1 (Hr1 & Hi1 & Hp1). apply wp_ret.
      rewrite drop_ge by lia. simpl. rewrite app_nil_r. split_and!; [done|done| | | |].
      * intros q Hq. rewrite Hp1. by rewrite decide_False.
      * intros j Hj. rewrite Hp1, decide_True, lookup_insert_ne by (done || lia). done.
      * intros j t Hj Htj%lookup_lt_Some. lia.
      * intros _. by rewrite Hp1, decide_True, lookup_insert_eq.
Qed.

(** The suites of a module: each is a name and its tests, and has a pool of its own. *)
Definition section (suites : list (string * list string)) : list (option KUnitSuiteSlot) :=
  imap (λ p x, Some (generated_slot (fst x) p (snd x))) suites.

Lemma init_suites_ok mdl suites off s :
  Forall (λ x, (length (snd x) < KUNIT_MAX_TEST_CASES)%nat) suites →
  (length (registry s) + length (mjoin suites.*2) ≤ RS_KUNIT_MAX_TEST_CASES)%nat →
  wp (init_test_suites case_size mdl (imap (λ p x, Some (generated_slot (fst x) (off + p) (snd x))) suites)) (λ _ s',
    registry s' = registry s ++ entries mdl (mjoin suites.*2) ∧
    (∀ q, (q < off)%nat → pool s' q = pool s q ∧ inited s' !! q = inited s !! q) ∧
    (∀ p x, suites !! p = Some x → pool_ok (snd x) (pool s' (off + p)) ∧ inited s' !! (off + p)%nat = Some (fst x))) s.
Proof.
  revert off s. induction suites as [|[nm tests] suites IH]; intros off s Hf Hr; simpl.
  - apply wp_ret. by rewrite app_nil_r.
  - apply Forall_cons in Hf as [Hlen Hf]. simpl in Hlen, Hr. rewrite length_app in Hr.
    apply wp_bind. eapply wp_mono; [apply init_cases_ok; [done|done|rewrite drop_0; lia]|].
    intros [] s1 (Hr1 & Hi1 & Hq1 & _ & Ht1 & Hd1). rewrite drop_0 in Hr1.
    apply wp_bind, wp_modify. change (list_fmap _ _ snd suites) with (suites.*2) in *.
    rewrite (imap_ext _ (λ p x, Some (generated_slot (fst x) (S off + p) (snd x)))) by (intros; unfold compose; by rewrite Nat.add_succ_r).
    eapply wp_mono; [apply IH; [done|simpl; rewrite Hr1, length_app; unfold entries; rewrite length_fmap; lia]|].
    intros [] s2 (Hr2 & Hlo & Hhi). simpl in *. rewrite !Nat.add_0_r in *.
    assert (∀ q, pool (MkKState (pools s1) (<[off := nm]> (inited s1)) (registry s1)) q = pool s1 q) as Hpool by done.
    split_and!.
    + rewrite Hr2, Hr1, <- app_assoc. unfold entries. by rewrite fmap_app.
    + intros q Hq. destruct (Hlo q) as [Hp Hin]; [lia|]. rewrite Hp, Hpool, Hin, Hq1, lookup_insert_ne, Hi1 by lia. done.
    + intros [|p] x Hx; simpl in Hx.
      * injection Hx as <-. rewrite Nat.add_0_r. destruct (Hlo off) as [Hp Hin]; [lia|].
        rewrite Hp, Hpool, Hin, lookup_insert_eq. simpl. split; [|done]. split; [intros j t; apply Ht1; lia|apply Hd1; lia].
      * replace (off + S p)%nat with (S off + p)%nat by lia. by apply Hhi.
Qed.

Lemma dispatch_ok l mdl tests t :
  NoDup (ename <$> l ++ entries mdl tests) → t ∈ tests →
  erun <$> head (filter (λ e, ename e = t) (l ++ entries mdl tests)) = Some (wrapper_name t).
Proof.
  intros Hn Ht. rewrite filter_app. rewrite fmap_app in Hn. apply NoDup_app in Hn as (_ & Hd & Hn).
  assert (∀ e, e ∈ l → ename e ≠ t) as Hl.
  { intros e He <-. apply (Hd (ename e)); [by apply list_elem_of_fmap_2|].
    unfold entries. rewrite <- list_fmap_compose. apply list_elem_of_fmap. by exists (ename e). }
  assert (filter (λ e, ename e = t) l = []) as ->.
  { clear - Hl. induction l as [|e l IH]; [done|]. rewrite filter_cons_False by (apply Hl; left). apply IH.
    intros e' He'. apply Hl. by right. }
  simpl. clear Hd Hn. induction tests as [|u tests IH]; [by apply elem_of_nil in Ht|].
  unfold entries. rewrite fmap_cons, filter_cons. simpl. case_decide as He; [by subst|].
  apply IH. by apply elem_of_cons in Ht as [->|].
Qed.
(** From the metadata that [#[kunit_tests]] generates, [init_test_suites] writes the
    cases of every suite, in order and followed by the null delimiter, inside of its
    pool, and the dispatcher runs for each case the wrapper of its own test; provided
    that a suite has fewer than 128 tests, that the registry has room, and that the
    names of all tests are distinct. *)
Theorem kunit_suites_ready mdl suites s
    (Hcap : Forall (λ x, (length (snd x) < KUNIT_MAX_TEST_CASES)%nat) suites)
    (Hreg : (length (registry s) + length (mjoin suites.*2) ≤ RS_KUNIT_MAX_TEST_CASES)%nat)
    (Hnames : NoDup ((ename <$> registry s) ++ mjoin suites.*2)) :
  wp (init_test_suites case_size mdl (section suites)) (λ _ s', ∀ p nm tests,
    suites !! p = Some (nm, tests) →
    inited s' !! p = Some nm ∧ pool_ok tests (pool s' p) ∧
    ∀ t, t ∈ tests → rs_kunit_run_case s' t = Some (wrapper_name t)) s.
Proof.
  eapply wp_mono; [apply (init_suites_ok mdl suites 0 s Hcap Hreg)|]. intros [] s' (Hr & _ & Hp) p nm tests Hl.
  destruct (Hp p _ Hl) as [Hpool Hi]. split_and!; [done|done|]. intros t Ht. unfold rs_kunit_run_case. rewrite Hr.
  apply dispatch_ok.
  - rewrite fmap_app. unfold entries. rewrite <- list_fmap_compose. by rewrite list_fmap_id.
  - apply list_elem_of_join. exists tests. split; [done|]. apply list_elem_of_fmap. exists (nm, tests).
    split; [done|]. by eapply list_elem_of_lookup_2.
Qed.
End Ready.

#[local] Transparent KUNIT_MAX_TEST_CASES KUNIT_CASE_STORAGE_SIZE RS_KUNIT_MAX_TEST_CASES.

Definition kunit_empty : KState := MkKState ∅ ∅ [].

Lemma kunit_suites_ready_witness :
  wp (init_test_suites 56 7 (section [("a"%string, ["t1"; "t2"]%string); ("b"%string, [])])) (λ _ s', ∀ p nm tests,
    [("a"%string, ["t1"; "t2"]%string); ("b"%string, [])] !! p = Some (nm, tests) →
    inited s' !! p = Some nm ∧ pool_ok tests (pool s' p) ∧
    ∀ t, t ∈ tests → rs_kunit_run_case s' t = Some (wrapper_name t)) kunit_empty.
Proof.
  apply (kunit_suites_ready 56).
  - apply Nat.leb_le. reflexivity.
  - repeat constructor; apply Nat.leb_le; reflexivity.
  - apply Nat.leb_le. reflexivity.
  - apply (bool_decide_unpack _). vm_compute. exact I.
Defined.

(** The attribute does not bound the number of tests: with 128 of them, the delimiter is
    written behind the pool. *)
Definition many_tests (n : nat) : list string := (λ i, "t" +:+ pretty (N.of_nat i)) <$> seq 0 n.
Lemma kunit_pool_overflow :
  init_test_suites 64 7 (section [("a"%string, many_tests 128)]) kunit_empty = UB.
Proof. vm_compute. reflexivity. Qed.

(** Two suites with a test of the same name: both cases are run by the first function. *)
Lemma kunit_same_name s :
  s = MkKState ∅ ∅ [MkEntry 1 "works" "suite_a_works"; MkEntry 2 "works" "suite_b_works"] →
  rs_kunit_run_case s "works" = Some "suite_a_works"%string.
Proof. by intros ->. Qed.

(** The collected tests are those of the attribute, and their markers are removed. *)
Lemma collect_and_remove name params body sp k :
  let t := [Punct "#" Alone sp; Group Bracket [Ident "test" sp] sp; Ident "fn" sp; Ident name sp; params; body] in
  is_punct "#" params = false → is_punct "#" body = false → is_test_group params = false → is_test_group body = false →
  collect_tests (t ++ k) = name :: collect_tests k ∧
  remove_test_attrs (t ++ k) = [Ident "fn" sp; Ident name sp; params; body] ++ remove_test_attrs k.
Proof. intros t H1 H2 H3 H4. simpl. by rewrite H1, H2, H3, H4. Qed.
