(* ===== verification/Sync.v ===== *)
(** * Locks and condition variables ([rust/src/sync/lock.rs], [lock/mutex.rs],
      [lock/spinlock.rs], [lock/global.rs], [locked_by.rs], [condvar.rs], [poll.rs])

    The C locks are a parameter, [RawLock], with what the kernel documents of them; the
    two backends are built on it and discharge the contract of the [Backend] trait, against
    which [Lock], [Guard] and [CondVar] are proved. Threads are sequences of the atomic
    actions that the operations consist of, and run interleaved by a scheduler. *)

From S2P Require Import Prelude.

(** ** The [Backend] trait *)

(** A [lock] that cannot be taken blocks: [None]. The guard states of both backends are
    [()]. *)
Class Backend := {
  BState : Type;
  b_init : BState;
  b_lock : nat → BState → option BState;
  b_try_lock : nat → BState → option unit * BState;
  b_unlock : nat → BState → BState;
  (** The provided method: [*guard_state = lock(ptr)]. *)
  b_relock : nat → BState → option BState := b_lock
}.

(** The contract of the trait: while a context owns the lock no other can take it, only the
    owner unlocks it, and an attempt is successful exactly on a free lock. *)
Class BackendOk (B : Backend) := {
  holder : BState → option nat;
  init_free : holder b_init = None;
  lock_free t s : holder s = None → ∃ s', b_lock t s = Some s' ∧ holder s' = Some t;
  lock_held t u s : holder s = Some u → b_lock t s = None;
  try_lock_free t s : holder s = None → ∃ s', b_try_lock t s = (Some tt, s') ∧ holder s' = Some t;
  try_lock_held t u s : holder s = Some u → ∃ s', b_try_lock t s = (None, s') ∧ holder s' = Some u;
  unlock_ok t s : holder s = Some t → holder (b_unlock t s) = None
}.

(** A C lock: [mutex_lock] and the like, [mutex_trylock] returning an [int]. *)
Record RawLock := MkRaw {
  raw : Type;
  raw_init : raw;
  raw_lock : nat → raw → option raw;
  raw_trylock : nat → raw → Z * raw;
  raw_unlock : nat → raw → raw
}.

Definition MutexBackend (k : RawLock) : Backend := {|
  BState := raw k;
  b_init := raw_init k;
  b_lock := raw_lock k;
  b_try_lock := λ t s, let '(result, s) := raw_trylock k t s in (if negb (result =? 0) then Some tt else None, s);
  b_unlock := raw_unlock k
|}.

Definition SpinLockBackend (k : RawLock) : Backend := {|
  BState := raw k;
  b_init := raw_init k;
  b_lock := raw_lock k;
  b_try_lock := λ t s, let '(result, s) := raw_trylock k t s in (if negb (result =? 0) then Some tt else None, s);
  b_unlock := raw_unlock k
|}.

(** ** [Lock] and [Guard] *)

Section Lock.
Context `{Backend} {D : Type}.

Record Lock := MkLock { lstate : BState; ldata : D }.

Definition lock_new (t : D) : Lock := MkLock b_init t.
Definition lock_lock (t : nat) (l : Lock) : option Lock :=
  match b_lock t (lstate l) with Some s => Some (MkLock s (ldata l)) | None => None end.
Definition lock_try_lock (t : nat) (l : Lock) : option unit * Lock :=
  let '(r, s) := b_try_lock t (lstate l) in (r, MkLock s (ldata l)).
Definition guard_drop (t : nat) (l : Lock) : Lock := MkLock (b_unlock t (lstate l)) (ldata l).
(** [Deref] and [DerefMut]. *)
Definition guard_deref (l : Lock) : D := ldata l.
Definition guard_deref_mut (f : D → D) (l : Lock) : Lock := MkLock (lstate l) (f (ldata l)).
(** The two halves of [do_unlocked] around the callback. *)
Definition guard_unlock (t : nat) (l : Lock) : Lock := MkLock (b_unlock t (lstate l)) (ldata l).
Definition guard_relock (t : nat) (l : Lock) : option Lock :=
  match b_relock t (lstate l) with Some s => Some (MkLock s (ldata l)) | None => None end.

(** [GlobalLock]: the state is uninitialised until [init]; using it before is undefined. *)
Record GlobalLock := MkGlobal { gstate : option BState; gdata : D }.
Definition global_new (data : D) : GlobalLock := MkGlobal None data.
Definition global_init (g : GlobalLock) : GlobalLock := MkGlobal (Some b_init) (gdata g).
Definition global_inner (g : GlobalLock) : exec Lock :=
  match gstate g with Some s => Done (MkLock s (gdata g)) | None => UB end.
Definition global_lock (t : nat) (g : GlobalLock) : exec (option GlobalLock) :=
  match global_inner g with
  | Done l => Done ((λ l, MkGlobal (Some (lstate l)) (ldata l)) <$> lock_lock t l)
  | Panic => Panic
  | UB => UB
  end.
Definition global_try_lock (t : nat) (g : GlobalLock) : exec (option unit * GlobalLock) :=
  match global_inner g with
  | Done l => let '(r, l) := lock_try_lock t l in Done (r, MkGlobal (Some (lstate l)) (ldata l))
  | Panic => Panic
  | UB => UB
  end.
End Lock.
Arguments Lock {_} D.
Arguments GlobalLock {_} D.

(** ** [LockedBy] *)

(** [owner] is the address of the data of the lock. *)
Record LockedBy (T : Type) := MkLockedBy { lb_owner : Z; lb_data : T }.
Arguments MkLockedBy {T}.
Arguments lb_owner {T}.
Arguments lb_data {T}.

Definition locked_by_new {T} (owner_data : Z) (data : T) : LockedBy T := MkLockedBy owner_data data.
Definition locked_by_access {T} (lb : LockedBy T) (owner : Z) : exec T :=
  if negb (owner =? lb_owner lb) then Panic else Done (lb_data lb).
Definition locked_by_access_mut {T} (lb : LockedBy T) (owner : Z) (f : T → T) : exec (LockedBy T) :=
  if negb (owner =? lb_owner lb) then Panic else Done (MkLockedBy (lb_owner lb) (f (lb_data lb))).

(** ** The actions of the operations *)

Section Threads.
Context `{Backend} {D : Type}.

Inductive Act :=
| Acquire
| TryAcquire (body : list Act)
| Release
| Access (f : D → D)
| Unlock
| Relock
| Prepare
| Schedule
| Finish
| WakeUp (nr : nat).

(** [Guard::do_unlocked]: the callback between unlock and relock. *)
Definition do_unlocked (cb : list Act) : list Act := [Unlock] ++ cb ++ [Relock].

(** [wait_internal]: [prepare_to_wait_exclusive], [schedule_timeout] with the lock released,
    [finish_wait]. *)
Definition wait_internal : list Act := [Prepare] ++ do_unlocked [Schedule] ++ [Finish].

(** [__wake_up] with the number of exclusive waiters to wake; 0 is all of them. *)
Definition notify (count : nat) : list Act := [WakeUp count].
Definition notify_one : list Act := notify 1.
Definition notify_all : list Act := notify 0.
(** [__wake_up_sync] wakes one. *)
Definition notify_sync : list Act := [WakeUp 1].

(** Code that uses a lock: the scope of a guard is a block. *)
Inductive Inner := IAccess (f : D → D) | IWait | INotify (count : nat).
Inductive Stmt := SLock (body : list Inner) | STryLock (body : list Inner) | SNotify (count : nat).

Definition inner_acts (i : Inner) : list Act :=
  match i with IAccess f => [Access f] | IWait => wait_internal | INotify n => notify n end.
Definition stmt_acts (s : Stmt) : list Act :=
  match s with
  | SLock body => [Acquire] ++ flat_map inner_acts body ++ [Release]
  | STryLock body => [TryAcquire (flat_map inner_acts body ++ [Release])]
  | SNotify n => notify n
  end.
Definition thread_acts (p : list Stmt) : list Act := flat_map stmt_acts p.

(** ** Interleaved execution *)

Inductive Event := EvAcquire (t : nat) | EvAccess (t : nat) | EvRelease (t : nat).

(** The lock with its data, the wait queue of the condition variable, the threads that are
    awake, what each has left to do, and the history of the lock. *)
Record Sys := MkSys {
  slock : Lock D;
  waitq : list nat;
  awake : gset nat;
  progs : list (list Act);
  events : list Event
}.

(** The walk of [__wake_up] over the queue: a waiter that is already awake stays and is not
    counted, one that sleeps is woken and leaves the queue; the walk ends when [nr] were
    woken. *)
Fixpoint wake_list (nr : nat) (q : list nat) (aw : gset nat) : list nat * gset nat :=
  match q with
  | [] => ([], aw)
  | u :: q =>
      if bool_decide (u ∈ aw) then let '(q, aw) := wake_list nr q aw in (u :: q, aw)
      else if (nr =? 1)%nat then (q, {[u]} ∪ aw)
      else wake_list (nr - 1) q ({[u]} ∪ aw)
  end.

Definition wake_up (nr : nat) (s : Sys) : Sys :=
  let '(q, aw) := wake_list nr (waitq s) (awake s) in MkSys (slock s) q aw (progs s) (events s).

Definition with_lock (l : Lock D) (es : list Event) (s : Sys) : Sys :=
  MkSys l (waitq s) (awake s) (progs s) (events s ++ es).
Definition set_prog (t : nat) (p : list Act) (s : Sys) : Sys :=
  MkSys (slock s) (waitq s) (awake s) (<[t := p]> (progs s)) (events s).

(** One action of thread [t]; [None] if it blocks. *)
Definition act_step (t : nat) (a : Act) (rest : list Act) (s : Sys) : option Sys :=
  match a with
  | Acquire => (λ l, set_prog t rest (with_lock l [EvAcquire t] s)) <$> lock_lock t (slock s)
  | TryAcquire body =>
      match lock_try_lock t (slock s) with
      | (Some _, l) => Some (set_prog t (body ++ rest) (with_lock l [EvAcquire t] s))
      | (None, l) => Some (set_prog t rest (with_lock l [] s))
      end
  | Release => Some (set_prog t rest (with_lock (guard_drop t (slock s)) [EvRelease t] s))
  | Access f => Some (set_prog t rest (with_lock (guard_deref_mut f (slock s)) [EvAccess t] s))
  | Unlock => Some (set_prog t rest (with_lock (guard_unlock t (slock s)) [EvRelease t] s))
  | Relock => (λ l, set_prog t rest (with_lock l [EvAcquire t] s)) <$> guard_relock t (slock s)
  | Prepare => Some (set_prog t rest (MkSys (slock s) (waitq s ++ [t]) (awake s ∖ {[t]}) (progs s) (events s)))
  | Schedule => if bool_decide (t ∈ awake s) then Some (set_prog t rest s) else None
  | Finish => Some (set_prog t rest (MkSys (slock s) (filter (λ u, u ≠ t) (waitq s)) ({[t]} ∪ awake s) (progs s) (events s)))
  | WakeUp nr => Some (set_prog t rest (wake_up nr s))
  end.

Definition thread_step (t : nat) (s : Sys) : option Sys :=
  match progs s !! t with
  | Some (a :: rest) => act_step t a rest s
  | _ => None
  end.

(** The scheduler picks a thread, or a sleeper is woken by a signal, a timeout or
    spuriously. *)
Inductive Sched := Run (t : nat) | Interrupt (t : nat).

Definition sched_step (c : Sched) (s : Sys) : Sys :=
  match c with
  | Run t => default s (thread_step t s)
  | Interrupt t => MkSys (slock s) (waitq s) ({[t]} ∪ awake s) (progs s) (events s)
  end.

Definition sys_init (d : D) (ps : list (list Stmt)) : Sys :=
  MkSys (lock_new d) [] ∅ (thread_acts <$> ps) [].

(** [sys_run σ n s]: the state after the first [n] choices of the schedule [σ]. *)
Fixpoint sys_run (σ : nat → Sched) (n : nat) (s : Sys) : Sys :=
  match n with O => s | S n => sched_step (σ n) (sys_run σ n s) end.
End Threads.
Arguments Act : clear implicits.
Arguments Stmt : clear implicits.
Arguments Sys {_} D.

(** ** The results of the waits *)

Definition MAX_SCHEDULE_TIMEOUT : Z := ISIZE_MAX.

Inductive CondVarTimeoutResult := TimedOut | WokenUp (jiffies : Z) | Signaled (jiffies : Z).

(** [jiffies.try_into().unwrap_or(MAX_SCHEDULE_TIMEOUT)] *)
Definition timeout_arg (jiffies : Z) : Z := if jiffies <=? ISIZE_MAX then jiffies else MAX_SCHEDULE_TIMEOUT.

(** The [match] of [wait_interruptible_timeout] on the result of [schedule_timeout]. *)
Definition timeout_result (res : Z) (signal_pending : bool) : CondVarTimeoutResult :=
  let jiffies := wrap 64 res in
  if signal_pending then Signaled jiffies
  else if jiffies =? 0 then TimedOut else WokenUp jiffies.

(** [schedule_timeout] and [signal_pending] are the kernel's. *)
Definition wait_interruptible_timeout (schedule_timeout : Z → Z) (signal_pending : bool) (jiffies : Z) :
    CondVarTimeoutResult :=
  timeout_result (schedule_timeout (timeout_arg jiffies)) signal_pending.
Definition wait_interruptible (signal_pending : bool) : bool := signal_pending.

(** ** The backends satisfy the contract of the trait *)

(** What the kernel documents of a lock: [trylock] returns non-zero on success. *)
Class RawLockOk (k : RawLock) := {
  raw_holder : raw k → option nat;
  raw_init_free : raw_holder (raw_init k) = None;
  raw_lock_free t s : raw_holder s = None → ∃ s', raw_lock k t s = Some s' ∧ raw_holder s' = Some t;
  raw_lock_held t u s : raw_holder s = Some u → raw_lock k t s = None;
  raw_try_free t s : raw_holder s = None → ∃ r s', raw_trylock k t s = (r, s') ∧ r ≠ 0 ∧ raw_holder s' = Some t;
  raw_try_held t u s : raw_holder s = Some u → ∃ s', raw_trylock k t s = (0, s') ∧ raw_holder s' = Some u;
  raw_unlock_ok t s : raw_holder s = Some t → raw_holder (raw_unlock k t s) = None
}.

#[export] Instance mutex_backend_ok k `{!RawLockOk k} : BackendOk (MutexBackend k).
Proof.
  refine {| holder := raw_holder : @BState (MutexBackend k) → option nat |}; simpl.
  - apply raw_init_free.
  - apply raw_lock_free.
  - apply raw_lock_held.
  - intros t s (r & s' & -> & Hr & Hh)%(raw_try_free t). exists s'. by rewrite (proj2 (Z.eqb_neq _ _) Hr).
  - intros t u s (s' & -> & Hh)%(raw_try_held t). by exists s'.
  - apply raw_unlock_ok.
Qed.

#[export] Instance spinlock_backend_ok k `{!RawLockOk k} : BackendOk (SpinLockBackend k) := mutex_backend_ok k.

(** ** The invariant *)

Section Inv.
Context `{!Backend, !BackendOk _} {D : Type}.
Implicit Types s : Sys D.

(** Where a thread is: outside, in a critical section, or in the steps of a wait. *)
Inductive Mode := Out | In | Queued | Asleep | Woken | Relocked.
Definition holds (m : Mode) : bool := match m with In | Queued | Relocked => true | _ => false end.
Definition waits (m : Mode) : bool := match m with Queued | Asleep => true | _ => false end.

Inductive typed : Mode → list (Act D) → Prop :=
| ty_nil : typed Out []
| ty_acquire p : typed In p → typed Out (Acquire :: p)
| ty_try b p : typed In (b ++ p) → typed Out p → typed Out (TryAcquire b :: p)
| ty_release p : typed Out p → typed In (Release :: p)
| ty_access f p : typed In p → typed In (Access f :: p)
| ty_prepare p : typed Queued p → typed In (Prepare :: p)
| ty_unlock p : typed Asleep p → typed Queued (Unlock :: p)
| ty_schedule p : typed Woken p → typed Asleep (Schedule :: p)
| ty_relock p : typed Relocked p → typed Woken (Relock :: p)
| ty_finish p : typed In p → typed Relocked (Finish :: p)
| ty_wake_out n p : typed Out p → typed Out (WakeUp n :: p)
| ty_wake_in n p : typed In p → typed In (WakeUp n :: p).

Lemma inner_typed body p : typed In p → typed In (flat_map inner_acts body ++ p).
Proof.
  intros Hp. induction body as [|[f| |n] body IH]; simpl; [done|by constructor|by repeat constructor|by constructor].
Qed.

Lemma thread_typed p : typed Out (thread_acts (D:=D) p).
Proof.
  induction p as [|[b|b|n] p IH]; simpl; [constructor| | |by constructor].
  - rewrite <- app_assoc. constructor. apply inner_typed. by constructor.
  - constructor; [|done]. rewrite <- app_assoc. apply inner_typed. by constructor.
Qed.

(** The critical sections of the history do not overlap; the result is the owner. *)
Fixpoint exclusive (h : option nat) (es : list Event) : option (option nat) :=
  match es with
  | [] => Some h
  | EvAcquire t :: es => if h is None then exclusive (Some t) es else None
  | EvAccess t :: es => if bool_decide (h = Some t) then exclusive h es else None
  | EvRelease t :: es => if bool_decide (h = Some t) then exclusive None es else None
  end.

Lemma exclusive_app h es es' : exclusive h (es ++ es') = exclusive h es ≫= λ h', exclusive h' es'.
Proof. revert h. induction es as [|[t|t|t] es IH]; intros h; simpl; [done|destruct h; simpl; auto|case_bool_decide; simpl; auto..]. Qed.

Definition owner s : option nat := holder (lstate (slock s)).

Record inv (ms : list Mode) s : Prop := {
  inv_typed : Forall2 typed ms (progs s);
  inv_owner t : owner s = Some t ↔ holds <$> ms !! t = Some true;
  inv_queue t m : ms !! t = Some m → waits m = true → t ∈ awake s ∨ t ∈ waitq s;
  inv_history : exclusive None (events s) = Some (owner s)
}.

Lemma wake_list_ok nr q aw :
  let r := wake_list nr q aw in
  (∀ t, t ∈ aw → t ∈ snd r) ∧ (∀ t, t ∈ q → t ∈ snd r ∨ t ∈ fst r) ∧ (∀ t, t ∈ snd r → t ∈ aw ∨ t ∈ q) ∧ (∀ t, t ∈ fst r → t ∈ q).
Proof.
  revert nr aw. induction q as [|u q IH]; intros nr aw; simpl; [set_solver|].
  case_bool_decide as Hu.
  - destruct (wake_list nr q aw) as [q' aw'] eqn:E. specialize (IH nr aw). rewrite E in IH. simpl in *. set_solver.
  - case_match; simpl; [set_solver|].
    destruct (wake_list (nr - 1) q ({[u]} ∪ aw)) as [q' aw'] eqn:E. specialize (IH (nr - 1)%nat ({[u]} ∪ aw)).
    rewrite E in IH. simpl in *. set_solver.
Qed.

(** A step of thread [t] from mode [m] to [m']. *)
Lemma inv_step ms s s' t m m' p :
  inv ms s → ms !! t = Some m → typed m' p → progs s' = <[t := p]> (progs s) →
  (holds m' = true → holds m = true ∨ owner s = None) →
  owner s' = (if holds m' then Some t else if holds m then None else owner s) →
  (∀ u, u ≠ t → u ∈ awake s ∨ u ∈ waitq s → u ∈ awake s' ∨ u ∈ waitq s') →
  (waits m' = true → t ∈ awake s' ∨ t ∈ waitq s') →
  exclusive None (events s') = Some (owner s') → inv (<[t := m']> ms) s'.
Proof.
  intros [Ht Ho Hq Hh] Hm Hty Hp Hacq Hown Hoth Hself Hev.
  pose proof (lookup_lt_Some _ _ _ Hm) as Hlt.
  assert (owner s = Some t ↔ holds m = true) as Hot. { rewrite Ho, Hm. simpl. split; [by intros [= ?]|by intros ->]. }
  split.
  - rewrite Hp. by apply Forall2_insert.
  - intros u. rewrite Hown. destruct (decide (u = t)) as [->|Hne].
    + rewrite list_lookup_insert_eq by done. simpl. destruct (holds m') eqn:Em'; [done|].
      destruct (holds m) eqn:Em; [done|]. split; [intros Hx%Hot; congruence|done].
    + rewrite list_lookup_insert_ne, <- Ho by done. destruct (holds m') eqn:Em'.
      { split; [congruence|]. destruct (Hacq eq_refl) as [Hx%Hot|Hx]; congruence. }
      destruct (holds m) eqn:Em; [|done]. assert (owner s = Some t) as -> by (by apply Hot). split; congruence.
  - intros u mu. destruct (decide (u = t)) as [->|Hne].
    + rewrite list_lookup_insert_eq by done. intros [= <-]. done.
    + rewrite list_lookup_insert_ne by done. intros Hu Hw. apply Hoth; [done|]. by eapply Hq.
  - done.
Qed.

Lemma lock_lock_ok t (l l' : Lock D) :
  lock_lock t l = Some l' → holder (lstate l) = None ∧ holder (lstate l') = Some t ∧ ldata l' = ldata l.
Proof.
  unfold lock_lock. destruct (holder (lstate l)) as [u|] eqn:E.
  - by rewrite (lock_held t u).
  - destruct (lock_free t _ E) as (s' & -> & Hs). intros [= <-]. done.
Qed.

Lemma inv_wake ms s t m p n :
  inv ms s → ms !! t = Some m → typed m p → waits m = false →
  inv (<[t := m]> ms) (set_prog t p (wake_up n s)).
Proof.
  intros Hi Hm Hty Hw. unfold wake_up. pose proof (wake_list_ok n (waitq s) (awake s)) as (H1 & H2 & _).
  destruct (wake_list n (waitq s) (awake s)) as [q aw]. simpl in *.
  apply (inv_step ms s _ t m m p); simpl; try done.
  - auto.
  - unfold owner; simpl. destruct (holds m) eqn:E; [|done]. apply (inv_owner _ _ Hi). by rewrite Hm; simpl; rewrite E.
  - intros u _ [Hu|Hu]; [left; auto|auto].
  - by rewrite Hw.
  - apply (inv_history _ _ Hi).
Qed.

Lemma inv_thread_step ms s t s' :
  inv ms s → thread_step t s = Some s' → ∃ ms', inv ms' s'.
Proof.
  intros Hi. pose proof Hi as [Ht Ho Hq Hh]. unfold thread_step.
  destruct (progs s !! t) as [[|a rest]|] eqn:Hp; try done.
  destruct (Forall2_lookup_r _ _ _ _ _ Ht Hp) as (m & Hm & Hty).
  assert (owner s = Some t ↔ holds m = true) as Hot. { rewrite Ho, Hm. simpl. split; [by intros [= ?]|by intros ->]. }
  assert (∀ es, exclusive None (events s ++ es) = exclusive (owner s) es) as Hev.
  { intros es. rewrite exclusive_app, Hh. done. }
  assert (∀ m' p s1, typed m' p → progs s1 = <[t := p]> (progs s) →
    (holds m' = true → holds m = true ∨ owner s = None) →
    owner s1 = (if holds m' then Some t else if holds m then None else owner s) →
    awake s1 = awake s → waitq s1 = waitq s → (waits m' = true → waits m = true) →
    exclusive None (events s1) = Some (owner s1) → ∃ ms', inv ms' s1) as Hkeep.
  { intros m' p s1 Hty1 Hp1 Hacq Hown Haw Hwq Hw Hev1. exists (<[t := m']> ms).
    apply (inv_step ms s s1 t m m' p); try done; rewrite Haw, Hwq; [by intros|]. intros Hx%Hw. by eapply Hq. }
  intros Hs. inversion Hty as [|p0 Hty'|b p0 Hb Hty'|p0 Hty'|f p0 Hty'|p0 Hty'|p0 Hty'|p0 Hty'|p0 Hty'|p0 Hty'|n p0 Hty'|n p0 Hty'];
    subst; simpl in Hs.
  - apply fmap_Some in Hs as (l & (Hf & Hl & _)%lock_lock_ok & ->).
    apply (Hkeep In rest); simpl; try done; [by right|]. rewrite Hev. unfold owner. simpl. by rewrite Hf, Hl.
  - unfold lock_try_lock in Hs. destruct (holder (lstate (slock s))) as [u|] eqn:E.
    + destruct (try_lock_held t u _ E) as (s1 & Hs1 & Hh1). rewrite Hs1 in Hs. injection Hs as <-.
      apply (Hkeep Out rest); simpl; try done; unfold owner; simpl; [by rewrite Hh1, E|].
      rewrite Hev. unfold owner. simpl. by rewrite E, Hh1.
    + destruct (try_lock_free t _ E) as (s1 & Hs1 & Hh1). rewrite Hs1 in Hs. injection Hs as <-.
      apply (Hkeep In (b ++ rest)); simpl; try done; [by right|]. rewrite Hev. unfold owner. simpl. by rewrite E, Hh1.
  - injection Hs as <-. assert (owner s = Some t) as Hown by (by apply Hot). pose proof (unlock_ok t _ Hown) as Hu.
    apply (Hkeep Out rest); simpl; try done. rewrite Hev, Hown. unfold owner. simpl.
    by rewrite bool_decide_eq_true_2, Hu.
  - injection Hs as <-. assert (owner s = Some t) as Hown by (by apply Hot).
    apply (Hkeep In rest); simpl; try done; [by left|]. rewrite Hev, Hown. unfold owner in *. simpl.
    by rewrite bool_decide_eq_true_2, Hown.
  - injection Hs as <-. assert (owner s = Some t) as Hown by (by apply Hot). exists (<[t := Queued]> ms).
    apply (inv_step ms s _ t In Queued rest); simpl; try done; [by left| |].
    + intros u Hu. set_solver.
    + intros _. set_solver.
  - injection Hs as <-. assert (owner s = Some t) as Hown by (by apply Hot). pose proof (unlock_ok t _ Hown) as Hu.
    apply (Hkeep Asleep rest); simpl; try done. rewrite Hev, Hown. unfold owner. simpl.
    by rewrite bool_decide_eq_true_2, Hu.
  - case_bool_decide; [|done]. injection Hs as <-. apply (Hkeep Woken rest); done.
  - apply fmap_Some in Hs as (l & (Hf & Hl & _)%lock_lock_ok & ->).
    apply (Hkeep Relocked rest); simpl; try done; [by right|]. rewrite Hev. unfold owner. simpl. by rewrite Hf, Hl.
  - injection Hs as <-. assert (owner s = Some t) as Hown by (by apply Hot). exists (<[t := In]> ms).
    apply (inv_step ms s _ t Relocked In rest); simpl; try done; [by left|].
    intros u Hu [?|?]; [set_solver|]. right. by apply list_elem_of_filter.
  - injection Hs as <-. exists (<[t := Out]> ms). apply (inv_wake ms s t Out rest n); done.
  - injection Hs as <-. exists (<[t := In]> ms). apply (inv_wake ms s t In rest n); done.
Qed.

(** From the start, under every schedule. *)
Lemma inv_init d ps : ∃ ms, inv ms (sys_init d ps).
Proof.
  exists (const Out <$> ps). split; simpl.
  - induction ps as [|p ps IH]; simpl; constructor; [apply thread_typed|done].
  - intros t. unfold owner, sys_init. simpl. rewrite init_free, list_lookup_fmap. by destruct (ps !! t).
  - intros t m. rewrite list_lookup_fmap. by destruct (ps !! t); intros [= <-].
  - unfold owner. simpl. by rewrite init_free.
Qed.

Lemma inv_sched ms s c : inv ms s → ∃ ms', inv ms' (sched_step c s).
Proof.
  intros Hi. destruct c as [t|t]; simpl.
  - destruct (thread_step t s) as [s'|] eqn:E; simpl; [by eapply inv_thread_step|by exists ms].
  - exists ms. destruct Hi as [Ht Ho Hq Hh]. split; try done. intros u m Hu Hw. simpl. set_solver.
Qed.

Lemma inv_run σ n d ps : ∃ ms, inv ms (sys_run σ n (sys_init d ps)).
Proof.
  induction n as [|n [ms IH]]; [apply inv_init|]. simpl. by eapply inv_sched.
Qed.

(** ** Progress *)

Fixpoint weight (a : Act D) : nat :=
  match a with TryAcquire b => S (list_sum (weight <$> b)) | _ => 1 end.
Definition weights (p : list (Act D)) : nat := list_sum (weight <$> p).
Definition total s : nat := list_sum (weights <$> progs s).

Lemma list_sum_insert (l : list nat) i x y :
  l !! i = Some x → (list_sum (<[i := y]> l) + x = list_sum l + y)%nat.
Proof.
  revert i. induction l as [|z l IH]; intros [|i] Hl; simplify_eq/=; [lia|]. specialize (IH i Hl). lia.
Qed.

Lemma weights_app p q : weights (p ++ q) = (weights p + weights q)%nat.
Proof. unfold weights. by rewrite fmap_app, list_sum_app. Qed.

Lemma weight_pos a : (0 < weight a)%nat.
Proof. destruct a; simpl; lia. Qed.

(** Every step of a thread consumes work. *)
Lemma thread_step_total t s s' : thread_step t s = Some s' → (total s' < total s)%nat.
Proof.
  unfold thread_step. destruct (progs s !! t) as [[|a rest]|] eqn:Hp; try done.
  assert (∀ s1 p, progs s1 = <[t := p]> (progs s) → (weights p < weights (a :: rest))%nat → (total s1 < total s)%nat) as Hdec.
  { intros s1 p Hs1 Hw. unfold total. rewrite Hs1, list_fmap_insert.
    assert ((weights <$> progs s) !! t = Some (weights (a :: rest))) as Hl by (by rewrite list_lookup_fmap, Hp).
    pose proof (list_sum_insert _ _ _ (weights p) Hl). lia. }
  assert (weights (a :: rest) = (weight a + weights rest)%nat) as Hw by done. pose proof (weight_pos a).
  destruct a as [|b| |f| | | | | |n]; simpl.
  - intros (l & _ & ->)%fmap_Some. apply (Hdec _ rest); [done|lia].
  - destruct (lock_try_lock t (slock s)) as [[[]|] l]; intros [= <-].
    + apply (Hdec _ (b ++ rest)); [done|]. rewrite weights_app, Hw. simpl. fold (weights b). lia.
    + apply (Hdec _ rest); [done|lia].
  - intros [= <-]. apply (Hdec _ rest); [done|lia].
  - intros [= <-]. apply (Hdec _ rest); [done|lia].
  - intros [= <-]. apply (Hdec _ rest); [done|lia].
  - intros (l & _ & ->)%fmap_Some. apply (Hdec _ rest); [done|lia].
  - intros [= <-]. apply (Hdec _ rest); [done|lia].
  - case_bool_decide; [|done]. intros [= <-]. apply (Hdec _ rest); [done|lia].
  - intros [= <-]. apply (Hdec _ rest); [done|lia].
  - intros [= <-]. apply (Hdec _ rest); [|lia]. unfold wake_up. by destruct (wake_list _ _ _).
Qed.

(** Every thread has finished, or sleeps in a wait that nobody has notified. *)
Definition quiescent s : Prop :=
  ∀ t p, progs s !! t = Some p → p = [] ∨ ∃ rest, p = Schedule :: rest ∧ t ∉ awake s.

Definition blocked (t : nat) s : Prop := thread_step t s = None.
#[local] Instance blocked_dec t s : Decision (blocked t s).
Proof. unfold blocked. destruct (thread_step t s); [right|left]; done. Defined.

Lemma holder_enabled ms s t m p :
  inv ms s → ms !! t = Some m → progs s !! t = Some p → holds m = true → ¬ blocked t s.
Proof.
  intros Hi Hm Hp Hh. pose proof (Forall2_lookup_lr _ _ _ _ _ _ (inv_typed _ _ Hi) Hm Hp) as Hty.
  unfold blocked, thread_step. rewrite Hp. inversion Hty; subst; done.
Qed.

(** No deadlock: when no thread can run, all are done or asleep, and the lock is free. *)
Lemma all_blocked_quiescent ms s :
  inv ms s → (∀ t, blocked t s) → quiescent s ∧ owner s = None.
Proof.
  intros Hi Hb. assert (owner s = None) as Hfree.
  { destruct (owner s) as [u|] eqn:E; [|done]. pose proof (proj1 (inv_owner _ _ Hi u) E) as Hu.
    apply fmap_Some in Hu as (m & Hm & Hh). destruct (Forall2_lookup_l _ _ _ _ _ (inv_typed _ _ Hi) Hm) as (p & Hp & _).
    by destruct (holder_enabled ms s u m p Hi Hm Hp (eq_sym Hh) (Hb u)). }
  split; [|done]. intros t p Hp. specialize (Hb t). unfold blocked, thread_step in Hb. rewrite Hp in Hb.
  destruct p as [|a rest]; [by left|]. right. exists rest. destruct (lock_free t _ Hfree) as (s1 & Hl & _).
  destruct a; simpl in Hb; try done.
  - unfold lock_lock in Hb. by rewrite Hl in Hb.
  - by destruct (lock_try_lock t (slock s)) as [[] ?].
  - unfold guard_relock in Hb. unfold b_relock in Hb. by rewrite Hl in Hb.
  - by case_bool_decide.
Qed.

Lemma enabled_or_quiescent ms s : inv ms s → (∃ t, ¬ blocked t s) ∨ (quiescent s ∧ owner s = None).
Proof.
  intros Hi. destruct (decide (Exists (λ t, ¬ blocked t s) (seq 0 (length (progs s))))) as [Hx|Hx].
  - left. apply Exists_exists in Hx as (t & _ & Ht). by exists t.
  - right. apply (all_blocked_quiescent ms); [done|]. intros t.
    destruct (decide (t < length (progs s))%nat).
    + apply not_Exists_Forall in Hx; [|intros x; apply _]. rewrite Forall_forall in Hx.
      apply dec_stable, Hx, elem_of_seq. lia.
    + unfold blocked, thread_step. by rewrite lookup_ge_None_2 by lia.
Qed.

Lemma interrupt_enabled t u s : ¬ blocked t s → ¬ blocked t (sched_step (Interrupt u) s).
Proof.
  unfold blocked, thread_step. simpl. destruct (progs s !! t) as [[|a rest]|]; try done.
  destruct a; simpl; try done.
  - by destruct (lock_lock _ _).
  - by destruct (lock_try_lock _ _) as [[] ?].
  - by destruct (guard_relock _ _).
  - repeat case_bool_decide; try done. set_solver.
Qed.

(** A choice of the scheduler is a step, or it changes nothing that was enabled. *)
Lemma sched_cases c s t :
  (total (sched_step c s) < total s)%nat ∨
  (total (sched_step c s) = total s ∧ (¬ blocked t s → ¬ blocked t (sched_step c s))).
Proof.
  destruct c as [u|u].
  - simpl. destruct (thread_step u s) as [s'|] eqn:E; simpl; [left; by apply thread_step_total in E|by right].
  - right. split; [done|]. apply interrupt_enabled.
Qed.

(** Each of [N] threads is scheduled again and again. *)
Definition fair (N : nat) (σ : nat → Sched) : Prop := ∀ t n, (t < N)%nat → ∃ m, (n ≤ m)%nat ∧ σ m = Run t.

Lemma thread_step_length t s s' : thread_step t s = Some s' → length (progs s') = length (progs s).
Proof.
  unfold thread_step. destruct (progs s !! t) as [[|a rest]|]; try done.
  destruct a as [|b| |f| | | | | |k]; simpl.
  2: destruct (lock_try_lock t (slock s)) as [[[]|] l].
  all: first [intros (l' & _ & ->)%fmap_Some|case_bool_decide; [|done]; intros [= <-]|intros [= <-]].
  all: unfold wake_up; try destruct (wake_list _ _ _); simpl; apply length_insert.
Qed.

Section Fair.
Variable σ : nat → Sched.
Variables (d : D) (ps : list (list (Stmt D))).
Hypothesis Hfair : fair (length ps) σ.
Local Abbreviation at_ n := (sys_run σ n (sys_init d ps)).

Lemma total_or_enabled t n k :
  ¬ blocked t (at_ n) →
  (∃ i, (n ≤ i ≤ n + k)%nat ∧ (total (at_ i) < total (at_ n))%nat) ∨
  (total (at_ (n + k)) = total (at_ n) ∧ ¬ blocked t (at_ (n + k))).
Proof.
  intros Hn. induction k as [|k [(i & Hi & Ht)|[Ht Hb]]].
  - right. by rewrite Nat.add_0_r.
  - left. exists i. split; [lia|done].
  - rewrite Nat.add_succ_r. destruct (sched_cases (σ (n + k)) (at_ (n + k)) t) as [Hlt|[Heq He]].
    + left. exists (S (n + k)). split; [lia|]. simpl. lia.
    + right. simpl. split; [lia|auto].
Qed.

Lemma length_progs n : length (progs (at_ n)) = length ps.
Proof.
  induction n as [|n IH]; simpl; [by rewrite length_fmap|]. destruct (σ n) as [t|t]; simpl; [|done].
  destruct (thread_step t _) as [s'|] eqn:E; simpl; [|done]. apply thread_step_length in E. lia.
Qed.

Lemma eventually_less n : (∃ t, ¬ blocked t (at_ n)) → ∃ i, (n ≤ i)%nat ∧ (total (at_ i) < total (at_ n))%nat.
Proof.
  intros [t Ht]. assert (t < length ps)%nat as Hlt.
  { rewrite <- (length_progs n). apply not_ge. intros Hge. apply Ht. unfold blocked, thread_step.
    by rewrite lookup_ge_None_2 by lia. }
  destruct (Hfair t n Hlt) as (m & Hm & Hσ). replace m with (n + (m - n))%nat in Hσ by lia.
  destruct (total_or_enabled t n (m - n) Ht) as [(i & Hi & Hless)|[Heq Hb]]; [by exists i; split; [lia|]|].
  exists (S (n + (m - n))). split; [lia|]. simpl. rewrite Hσ. simpl. unfold blocked in Hb.
  destruct (thread_step t (at_ (n + (m - n)))) as [s'|] eqn:E; [|done]. simpl. apply thread_step_total in E. lia.
Qed.

Lemma eventually_quiescent n : ∃ m, (n ≤ m)%nat ∧ quiescent (at_ m) ∧ owner (at_ m) = None.
Proof.
  remember (total (at_ n)) as k eqn:Hk. revert n Hk. induction k as [k IH] using lt_wf_ind. intros n ->.
  destruct (inv_run σ n d ps) as [ms Hi]. destruct (enabled_or_quiescent ms _ Hi) as [He|Hq].
  - destruct (eventually_less n He) as (i & Hi' & Hlt). destruct (IH _ Hlt i eq_refl) as (m & Hm & Hq).
    exists m. split; [lia|done].
  - by exists n.
Qed.
End Fair.

Lemma quiescent_blocked s t : quiescent s → blocked t s.
Proof.
  intros Hq. unfold blocked, thread_step. destruct (progs s !! t) as [p|] eqn:Hp; [|done].
  destruct (Hq t p Hp) as [->|(rest & -> & Ha)]; [done|]. simpl. by rewrite bool_decide_eq_false_2.
Qed.

Lemma quiescent_stable σ d ps n m :
  quiescent (sys_run σ n (sys_init d ps)) → (n ≤ m)%nat →
  (∀ k, (n ≤ k < m)%nat → ∃ t, σ k = Run t) → sys_run σ m (sys_init d ps) = sys_run σ n (sys_init d ps).
Proof.
  intros Hq Hm Hr. induction Hm as [|m Hm IH]; [done|]. simpl. rewrite IH by (intros; apply Hr; lia).
  destruct (Hr m) as [t ->]; [lia|]. simpl. by rewrite (quiescent_blocked _ t Hq).
Qed.

(** Programs that never wait. *)
Definition waitless (p : list (Stmt D)) : bool :=
  forallb (λ st, match st with SLock b | STryLock b => forallb (λ i, if i is IWait then false else true) b | _ => true end) p.
Fixpoint sleepless (a : Act D) : bool :=
  match a with Schedule => false | TryAcquire b => forallb sleepless b | _ => true end.

Lemma waitless_sleepless p : waitless p = true → forallb sleepless (thread_acts p) = true.
Proof.
  assert (∀ b : list Inner, forallb (λ i, if i is IWait then false else true) b = true →
    forallb sleepless (flat_map inner_acts b) = true) as Hb.
  { induction b as [|[f| |n] b IH]; simpl; auto. }
  unfold thread_acts. induction p as [|[b|b|n] p IH]; simpl; [done|intros [H1 H2]%andb_true_iff..|auto].
  - rewrite !forallb_app, Hb, IH by done. done.
  - rewrite forallb_app, Hb, IH by done. done.
Qed.

Lemma sleepless_run σ d ps n :
  Forall (λ p, waitless p = true) ps → Forall (λ p, forallb sleepless p = true) (progs (sys_run σ n (sys_init d ps))).
Proof.
  intros Hw. induction n as [|n IH]; simpl.
  { apply Forall_fmap. eapply Forall_impl; [exact Hw|]. apply waitless_sleepless. }
  destruct (σ n) as [t|t]; simpl; [|done]. destruct (thread_step t _) as [s'|] eqn:E; simpl; [|done].
  revert IH E. generalize (sys_run σ n (sys_init d ps)). intros s IH. unfold thread_step.
  destruct (progs s !! t) as [[|a rest]|] eqn:Hp; try done.
  rewrite Forall_lookup in IH. pose proof (IH _ _ Hp) as Hs. simpl in Hs. apply andb_true_iff in Hs as [Ha Hr].
  assert (∀ p s1, progs s1 = <[t := p]> (progs s) → forallb sleepless p = true → Forall (λ p, forallb sleepless p = true) (progs s1)) as Hi.
  { intros p s1 -> Hp1. apply Forall_insert; [by apply Forall_lookup|done]. }
  destruct a as [|b| |f| | | | | |k]; simpl in *.
  - intros (l & _ & ->)%fmap_Some. by apply (Hi rest).
  - destruct (lock_try_lock t (slock s)) as [[[]|] l]; intros [= <-]; [|by apply (Hi rest)].
    apply (Hi (b ++ rest)); [done|]. by rewrite forallb_app, Ha, Hr.
  - intros [= <-]. by apply (Hi rest).
  - intros [= <-]. by apply (Hi rest).
  - intros [= <-]. by apply (Hi rest).
  - intros (l & _ & ->)%fmap_Some. by apply (Hi rest).
  - intros [= <-]. by apply (Hi rest).
  - done.
  - intros [= <-]. by apply (Hi rest).
  - intros [= <-]. apply (Hi rest); [|done]. unfold wake_up. by destruct (wake_list _ _ _).
Qed.

(** ** What a notification does *)

(** [notify_all] wakes every waiter. *)
Lemma wake_all_ok q aw t : t ∈ q → t ∈ snd (wake_list 0 q aw).
Proof.
  revert aw. induction q as [|u q IH]; intros aw; [by intros ?%elem_of_nil|]. simpl.
  pose proof (wake_list_ok 0 q) as Hmono.
  case_bool_decide as Hu; intros [->|Ht]%elem_of_cons.
  - destruct (Hmono aw) as (Hm & _). destruct (wake_list 0 q aw). simpl in *. auto.
  - specialize (IH aw Ht). by destruct (wake_list 0 q aw).
  - apply (Hmono ({[u]} ∪ aw)). set_solver.
  - auto.
Qed.

(** [notify_one] wakes the first waiter that sleeps, and no other. *)
Lemma wake_one_ok q1 u q2 aw :
  Forall (.∈ aw) q1 → u ∉ aw → wake_list 1 (q1 ++ u :: q2) aw = (q1 ++ q2, {[u]} ∪ aw).
Proof.
  induction 1 as [|x q1 Hx _ IH]; intros Hu; simpl.
  - by rewrite bool_decide_eq_false_2.
  - rewrite bool_decide_eq_true_2 by done. by rewrite (IH Hu).
Qed.


End Inv.

(** ** [LockedBy], [GlobalLock] and the timeouts *)

(** Data is reachable exactly through the lock it was created with. *)
Lemma locked_by_ok {T} (lock other : Z) (data : T) (f : T → T) :
  (locked_by_access (locked_by_new lock data) other = if bool_decide (other = lock) then Done data else Panic) ∧
  (other = lock → ∃ lb, locked_by_access_mut (locked_by_new lock data) other f = Done lb ∧
     locked_by_access lb other = Done (f data)).
Proof.
  unfold locked_by_access, locked_by_access_mut, locked_by_new. simpl. split.
  - case_bool_decide; [subst; by rewrite Z.eqb_refl|by rewrite (proj2 (Z.eqb_neq _ _))].
  - intros ->. rewrite Z.eqb_refl. simpl. eexists. split; [done|]. simpl. by rewrite Z.eqb_refl.
Qed.

(** A global lock must be initialised, and is then a lock. *)
Lemma global_lock_ok `{!Backend, !BackendOk _} {D} t (d : D) :
  global_lock t (global_new d) = UB ∧
  ∃ g, global_lock t (global_init (global_new d)) = Done (Some g) ∧ gdata g = d ∧
    ∀ u, global_lock u g = Done None.
Proof.
  split; [done|]. destruct (lock_free t b_init init_free) as (s & Hs & Hh).
  exists (MkGlobal (Some s) d). unfold global_lock, global_init, global_new. simpl. unfold lock_lock. simpl.
  rewrite Hs. split_and!; [done|done|]. intros u. by rewrite (lock_held u t s Hh).
Qed.

(** The three outcomes of a wait with a timeout, when [schedule_timeout] returns what is
    left of it; the time left is at most the time asked for. *)
Lemma timeout_ok (schedule_timeout : Z → Z) signal jiffies :
  is_usize jiffies → (∀ j, 0 ≤ j → 0 ≤ schedule_timeout j ≤ j) →
  match wait_interruptible_timeout schedule_timeout signal jiffies with
  | TimedOut => signal = false ∧ schedule_timeout (timeout_arg jiffies) = 0
  | WokenUp j => signal = false ∧ 0 < j ≤ jiffies
  | Signaled j => signal = true ∧ 0 ≤ j ≤ jiffies
  end.
Proof.
  intros Hj Hs. unfold wait_interruptible_timeout, timeout_result.
  assert (0 ≤ timeout_arg jiffies ≤ jiffies ∧ timeout_arg jiffies ≤ ISIZE_MAX) as Ha.
  { unfold timeout_arg, MAX_SCHEDULE_TIMEOUT. zcases; usize. }
  specialize (Hs (timeout_arg jiffies) ltac:(lia)). rewrite wrap_id by usize.
  destruct signal; [split; [done|lia]|]. zcases; split; try done; lia.
Qed.

(** ** Examples *)

(** A lock that remembers its owner. *)
Definition owner_lock : RawLock := {|
  raw := option nat; raw_init := None;
  raw_lock := λ t s, match s with None => Some (Some t) | Some _ => None end;
  raw_trylock := λ t s, match s with None => (1, Some t) | Some u => (0, Some u) end;
  raw_unlock := λ _ _, None |}.
#[export] Instance owner_lock_ok : RawLockOk owner_lock.
Proof.
  refine {| raw_holder := λ s : raw owner_lock, s |}; simpl; try done.
  - intros t s ->. by eexists.
  - intros t u s ->. done.
  - intros t s ->. by eexists _, _.
  - intros t u s ->. by eexists.
Defined.

(** Two threads take turns; the first waits, the second changes the data and notifies. *)
Definition turns (n : nat) : Sched := Run (n `mod` 2)%nat.
Definition pair_prog : list (list (Stmt nat)) :=
  [[SLock [IAccess S; IWait; IAccess S]]; [STryLock [IAccess S]; SLock [IAccess S; INotify 0]]].


(** Here everything finishes, and the three increments of the data are seen. *)
Lemma pair_prog_result :
  let s := sys_run (H := MutexBackend owner_lock) turns 40 (sys_init 0%nat pair_prog) in
  progs s = [[]; []] ∧ ldata (slock s) = 3%nat.
Proof. vm_compute. done. Qed.

