(* ===== verification/LockData.v ===== *)
(** * Data behind locks ([sync/lock.rs], [sync/lock/global.rs], [sync/locked_by.rs])

    A [Guard] gives access to the data in its lock; a [LockedBy] lies outside of the lock and
    asks for a reference to the lock's data as evidence, which it recognises by its address; a
    [GlobalLockedBy] asks for a guard of the right type. The model extends the locks of Sync
    with the references that are live. The program obeys the borrow checker and the types, and
    memory can be freed and used again: locks come and go, other values of the lock's data type
    may later lie at the same address. *)

From S2P Require Import Prelude Sync.

(** ** [GlobalLockedBy] *)

(** The type parameter is the backend of one global lock, named by the lock. *)
Record GlobalLockedBy (T : Type) := MkGlobalLockedBy { gl_backend : nat; gl_value : T }.
Arguments MkGlobalLockedBy {T}.
Arguments gl_backend {T}.
Arguments gl_value {T}.

Definition global_locked_by_new {T} (backend : nat) (val : T) : GlobalLockedBy T := MkGlobalLockedBy backend val.

(** ** What the compiler and the allocator see *)

(** A guard of a lock held by a thread, one that [do_unlocked] has unlocked for a while, and a
    value of the data type outside of any lock, by its address. *)
Inductive Handle := HGuard (t l : nat) | HAsleep (t l : nat) | HPlain (a : Z).

(** What a container is tied to: the address of the lock's data, or the type of a global lock. *)
Inductive Tie := TAddr (a : Z) | TGlobal (l : nat).

(** The data of a lock, and that of a container. *)
Abbreviation Place := (nat + nat)%type.
Abbreviation PLock := (@inl nat nat).
Abbreviation PCell := (@inr nat nat).

(** A live reference: the handle it was made from ([None] for [get_mut], which is made from
    [&mut] of the container), what it points to, and [&mut]. *)
Record Borrow := MkBorrow { bw_from : option nat; bw_place : Place; bw_mut : bool }.

Abbreviation borrow_map := (gmap nat Borrow).

(** Locks with the address of their data, [true] for a global one. *)
Record Stat := MkStat {
  lk_at : gmap nat (Z * bool);
  cell_of : gmap nat Tie;
  handles : gmap nat Handle;
  borrows : borrow_map
}.

Definition set_locks x (s : Stat) : Stat := MkStat x (cell_of s) (handles s) (borrows s).
Definition set_cells x (s : Stat) : Stat := MkStat (lk_at s) x (handles s) (borrows s).
Definition set_handles x (s : Stat) : Stat := MkStat (lk_at s) (cell_of s) x (borrows s).
Definition set_borrows x (s : Stat) : Stat := MkStat (lk_at s) (cell_of s) (handles s) x.

(** The address of the data that a handle gives a reference to. *)
Definition handle_addr (s : Stat) (h : Handle) : option Z :=
  match h with HGuard _ l => fst <$> lk_at s !! l | HAsleep _ _ => None | HPlain a => Some a end.

Definition lock_of (h : Handle) : option nat :=
  match h with HGuard _ l | HAsleep _ l => Some l | HPlain _ => None end.

#[export] Instance Handle_eq_dec : EqDecision Handle.
Proof. solve_decision. Defined.

#[export] Instance Tie_eq_dec : EqDecision Tie.
Proof. solve_decision. Defined.

(** Live objects do not overlap. The assertion of the code that the data is not zero-sized is
    what makes their addresses distinct. *)
Definition addr_free (s : Stat) (a : Z) : bool :=
  bool_decide (map_Forall (λ _ x, x.1 ≠ a) (lk_at s)) && bool_decide (map_Forall (λ _ h, h ≠ HPlain a) (handles s)).

(** The borrow checker on handles and on containers. *)
Definition handle_usable (s : Stat) (excl : bool) (k : nat) : bool :=
  bool_decide (map_Forall (λ _ b, bw_from b = Some k → excl = false ∧ bw_mut b = false) (borrows s)).
Definition cell_unborrowed (s : Stat) (c : nat) : bool :=
  bool_decide (map_Forall (λ _ b, bw_place b ≠ PCell c) (borrows s)).
Definition cell_usable (s : Stat) (c : nat) : bool :=
  bool_decide (map_Forall (λ _ b, bw_place b = PCell c → bw_from b ≠ None) (borrows s)).

(** The rules of the language: a reference must not conflict with another that is live. *)
Definition data_race (B : borrow_map) (excl : bool) (p : Place) : bool :=
  bool_decide (map_Exists (λ _ b, bw_place b = p ∧ (excl = true ∨ bw_mut b = true)) B).

(** ** Programs *)

Inductive DataOp (V : Type) :=
| DNewLock (l : nat) (a : Z) (d : V)
| DNewGlobal (l : nat) (a : Z) (d : V)      (* a static, and its [init] *)
| DDropLock (l : nat)
| DNewPlain (k : nat) (a : Z)
| DDropPlain (k : nat)
| DNewLockedBy (c l : nat) (v : V)
| DNewGlobalLockedBy (c l : nat) (v : V)
| DDropCell (c : nat)
| DLock (k t l : nat)
| DTryLock (k t l : nat)
| DUnlock (k : nat)
| DSleep (k : nat)                          (* the two halves of [do_unlocked] *)
| DWake (k : nat)
| DDeref (r k : nat) (m : bool)             (* [Deref] and [DerefMut] of guards *)
| DAccess (r k c : nat) (m : bool)          (* [access], [access_mut], [as_ref], [as_mut] *)
| DGetMut (r c : nat)
| DRead (r : nat)
| DWrite (r : nat) (v : V)
| DEnd (r : nat).
Arguments DNewLock {V}. Arguments DNewGlobal {V}. Arguments DDropLock {V}. Arguments DNewPlain {V}.
Arguments DDropPlain {V}. Arguments DNewLockedBy {V}. Arguments DNewGlobalLockedBy {V}. Arguments DDropCell {V}.
Arguments DLock {V}. Arguments DTryLock {V}. Arguments DUnlock {V}. Arguments DSleep {V}. Arguments DWake {V}.
Arguments DDeref {V}. Arguments DAccess {V}. Arguments DGetMut {V}. Arguments DRead {V}. Arguments DWrite {V}.
Arguments DEnd {V}.

Inductive DataOut (V : Type) := DSkip | DUnit | DBlocked | DBool (b : bool) | DVal (v : V).
Arguments DSkip {V}. Arguments DUnit {V}. Arguments DBlocked {V}. Arguments DBool {V}. Arguments DVal {V}.

Definition is_guard (o : option Handle) : bool := match o with Some (HGuard _ _) => true | _ => false end.
Definition no_handles (s : Stat) (l : nat) : bool :=
  bool_decide (map_Forall (λ _ h, lock_of h ≠ Some l) (handles s)).
Definition fresh_in {A} (m : gmap nat A) (k : nat) : bool := bool_decide (m !! k = None).

(** What compiles, and what an allocator can answer. *)
Definition permitted {V} (s : Stat) (op : DataOp V) : bool :=
  match op with
  | DNewLock l a _ | DNewGlobal l a _ => fresh_in (lk_at s) l && addr_free s a
  | DDropLock l => match lk_at s !! l with Some (_, false) => no_handles s l | _ => false end
  | DNewPlain k a => fresh_in (handles s) k && addr_free s a
  | DDropPlain k => match handles s !! k with Some (HPlain _) => handle_usable s true k | _ => false end
  | DNewLockedBy c l _ => fresh_in (cell_of s) c && match lk_at s !! l with Some (_, false) => true | _ => false end
  | DNewGlobalLockedBy c l _ => fresh_in (cell_of s) c && match lk_at s !! l with Some (_, true) => true | _ => false end
  | DDropCell c => negb (fresh_in (cell_of s) c) && cell_unborrowed s c
  | DLock k _ l | DTryLock k _ l => fresh_in (handles s) k && negb (fresh_in (lk_at s) l)
  | DUnlock k | DSleep k => is_guard (handles s !! k) && handle_usable s true k
  | DWake k => match handles s !! k with Some (HAsleep _ _) => true | _ => false end
  | DDeref r k m => fresh_in (borrows s) r && is_guard (handles s !! k) && handle_usable s m k
  | DAccess r k c m =>
      fresh_in (borrows s) r && handle_usable s m k && cell_usable s c &&
      match cell_of s !! c, handles s !! k with
      | Some (TAddr _), Some (HGuard _ _) | Some (TAddr _), Some (HPlain _) => true
      | Some (TGlobal b), Some (HGuard _ l) => (b =? l)%nat
      | _, _ => false
      end
  | DGetMut r c =>
      fresh_in (borrows s) r && cell_unborrowed s c &&
      match cell_of s !! c with Some (TGlobal _) => true | _ => false end
  | DRead r => negb (fresh_in (borrows s) r)
  | DWrite r _ => match borrows s !! r with Some b => bw_mut b | None => false end
  | DEnd _ => true
  end.

Definition add_borrow (r : nat) (b : Borrow) (s : Stat) : Stat := set_borrows (<[r := b]> (borrows s)) s.

(** The handles and references after an operation that answered [o]. *)
Definition stat_after {V} (s : Stat) (op : DataOp V) (o : DataOut V) : Stat :=
  match op, o with
  | DNewLock l a _, _ => set_locks (<[l := (a, false)]> (lk_at s)) s
  | DNewGlobal l a _, _ => set_locks (<[l := (a, true)]> (lk_at s)) s
  | DDropLock l, _ => set_locks (delete l (lk_at s)) s
  | DNewPlain k a, _ => set_handles (<[k := HPlain a]> (handles s)) s
  | DDropPlain k, _ => set_handles (delete k (handles s)) s
  | DNewLockedBy c l _, _ => if lk_at s !! l is Some (a, _) then set_cells (<[c := TAddr a]> (cell_of s)) s else s
  | DNewGlobalLockedBy c l _, _ => set_cells (<[c := TGlobal l]> (cell_of s)) s
  | DDropCell c, _ => set_cells (delete c (cell_of s)) s
  | DLock k t l, DUnit | DTryLock k t l, DBool true => set_handles (<[k := HGuard t l]> (handles s)) s
  | DUnlock k, _ => set_handles (delete k (handles s)) s
  | DSleep k, _ => if handles s !! k is Some (HGuard t l) then set_handles (<[k := HAsleep t l]> (handles s)) s else s
  | DWake k, DUnit => if handles s !! k is Some (HAsleep t l) then set_handles (<[k := HGuard t l]> (handles s)) s else s
  | DDeref r k m, _ => if handles s !! k is Some (HGuard _ l) then add_borrow r (MkBorrow (Some k) (PLock l) m) s else s
  | DAccess r k c m, _ => add_borrow r (MkBorrow (Some k) (PCell c) m) s
  | DGetMut r c, _ => add_borrow r (MkBorrow None (PCell c) true) s
  | DEnd r, _ => set_borrows (delete r (borrows s)) s
  | _, _ => s
  end.

(** ** The code *)

Section Code.
Context `{Backend} {V : Type}.

Inductive AnyLock := ALocal (l : Lock V) | AGlobal (g : GlobalLock V).
Inductive Cell := CLocked (lb : LockedBy V) | CGlobal (gl : GlobalLockedBy V).

Record Mem := MkMem { locks : gmap nat AnyLock; cells : gmap nat Cell }.
Local Abbreviation SM := (M Mem).

Definition set_mlocks x (m : Mem) : Mem := MkMem x (cells m).
Definition set_mcells x (m : Mem) : Mem := MkMem (locks m) x.

(** [Lock::lock] and [GlobalLock::lock], and so on. *)
Definition any_lock (t : nat) (a : AnyLock) : exec (option AnyLock) :=
  match a with
  | ALocal l => Done (ALocal <$> lock_lock t l)
  | AGlobal g => exec_bind (global_lock t g) (λ o, Done (AGlobal <$> o))
  end.

Definition any_try_lock (t : nat) (a : AnyLock) : exec (option unit * AnyLock) :=
  match a with
  | ALocal l => let '(r, l) := lock_try_lock t l in Done (r, ALocal l)
  | AGlobal g => exec_bind (global_try_lock t g) (λ x, Done (fst x, AGlobal (snd x)))
  end.

(** [f] on the [Lock] inside. *)
Definition on_inner {A} (f : Lock V → A * Lock V) (a : AnyLock) : exec (A * AnyLock) :=
  match a with
  | ALocal l => let '(x, l) := f l in Done (x, ALocal l)
  | AGlobal g =>
      exec_bind (global_inner g) (λ l, let '(x, l) := f l in Done (x, AGlobal (MkGlobal (Some (lstate l)) (ldata l))))
  end.

Definition any_unlock (t : nat) (a : AnyLock) : exec (unit * AnyLock) := on_inner (λ l, (tt, guard_drop t l)) a.
Definition any_sleep (t : nat) (a : AnyLock) : exec (unit * AnyLock) := on_inner (λ l, (tt, guard_unlock t l)) a.
Definition any_wake (t : nat) (a : AnyLock) : exec (bool * AnyLock) :=
  on_inner (λ l, match guard_relock t l with Some l' => (true, l') | None => (false, l) end) a.
Definition any_read (a : AnyLock) : exec (V * AnyLock) := on_inner (λ l, (guard_deref l, l)) a.
Definition any_write (v : V) (a : AnyLock) : exec (unit * AnyLock) := on_inner (λ l, (tt, guard_deref_mut (λ _, v) l)) a.

(** A lock that is gone is undefined behaviour. *)
Definition at_lock {A} (l : nat) (f : AnyLock → exec (A * AnyLock)) : SM A := λ m,
  match locks m !! l with
  | Some a => exec_bind (f a) (λ x, Done (fst x, set_mlocks (<[l := snd x]> (locks m)) m))
  | None => UB
  end.

Definition at_cell {A} (c : nat) (f : Cell → exec (A * Cell)) : SM A := λ m,
  match cells m !! c with
  | Some x => exec_bind (f x) (λ y, Done (fst y, set_mcells (<[c := snd y]> (cells m)) m))
  | None => UB
  end.

(** To make a reference that conflicts with another is undefined. *)
Definition make_ref (B : borrow_map) (excl : bool) (p : Place) : SM unit :=
  if data_race B excl p then ub else mret tt.

(** [LockedBy::access] and [access_mut]. *)
Definition lb_access (B : borrow_map) (m : bool) (c : nat) (owner : Z) (lb : LockedBy V) : SM unit :=
  _ ← lift (if m then exec_bind (locked_by_access_mut lb owner id) (λ _, Done tt)
            else exec_bind (locked_by_access lb owner) (λ _, Done tt));
  make_ref B m (PCell c).

(** [GlobalLockedBy::as_ref] and [as_mut]: the guard is only evidence. *)
Definition gl_as_ref (B : borrow_map) (c : nat) : SM unit := make_ref B false (PCell c).
Definition gl_as_mut (B : borrow_map) (c : nat) : SM unit := make_ref B true (PCell c).
Definition gl_get_mut (B : borrow_map) (c : nat) : SM unit := make_ref B true (PCell c).

Definition cell_value (x : Cell) : V := match x with CLocked lb => lb_data lb | CGlobal gl => gl_value gl end.
Definition cell_put (v : V) (x : Cell) : Cell :=
  match x with
  | CLocked lb => CLocked (MkLockedBy (lb_owner lb) v)
  | CGlobal gl => CGlobal (MkGlobalLockedBy (gl_backend gl) v)
  end.

Definition place_read (p : Place) : SM V :=
  match p with
  | inl l => at_lock l any_read
  | inr c => at_cell c (λ x, Done (cell_value x, x))
  end.
Definition place_write (p : Place) (v : V) : SM unit :=
  match p with
  | inl l => at_lock l (any_write v)
  | inr c => at_cell c (λ x, Done (tt, cell_put v x))
  end.

Definition data_exec (s : Stat) (op : DataOp V) : SM (DataOut V) :=
  match op with
  | DNewLock l a d => _ ← modify (λ m, set_mlocks (<[l := ALocal (lock_new d)]> (locks m)) m); mret DUnit
  | DNewGlobal l a d =>
      _ ← modify (λ m, set_mlocks (<[l := AGlobal (global_init (global_new d))]> (locks m)) m); mret DUnit
  | DDropLock l => _ ← modify (λ m, set_mlocks (delete l (locks m)) m); mret DUnit
  | DNewPlain k a => mret DUnit
  | DDropPlain k => mret DUnit
  | DNewLockedBy c l v =>
      match lk_at s !! l with
      | Some (a, _) => _ ← modify (λ m, set_mcells (<[c := CLocked (locked_by_new a v)]> (cells m)) m); mret DUnit
      | None => ub
      end
  | DNewGlobalLockedBy c l v =>
      _ ← modify (λ m, set_mcells (<[c := CGlobal (global_locked_by_new l v)]> (cells m)) m); mret DUnit
  | DDropCell c => _ ← modify (λ m, set_mcells (delete c (cells m)) m); mret DUnit
  | DLock k t l =>
      b ← at_lock l (λ a, exec_bind (any_lock t a) (λ o, Done (match o with Some a' => (true, a') | None => (false, a) end)));
      mret (if b : bool then DUnit else DBlocked)
  | DTryLock k t l =>
      r ← at_lock l (any_try_lock t);
      mret (DBool (bool_decide (r = Some tt)))
  | DUnlock k =>
      match handles s !! k with Some (HGuard t l) => _ ← at_lock l (any_unlock t); mret DUnit | _ => ub end
  | DSleep k =>
      match handles s !! k with Some (HGuard t l) => _ ← at_lock l (any_sleep t); mret DUnit | _ => ub end
  | DWake k =>
      match handles s !! k with
      | Some (HAsleep t l) => b ← at_lock l (any_wake t); mret (if b : bool then DUnit else DBlocked)
      | _ => ub
      end
  | DDeref r k m =>
      match handles s !! k with Some (HGuard t l) => _ ← make_ref (borrows s) m (PLock l); mret DUnit | _ => ub end
  | DAccess r k c m =>
      x ← at_cell c (λ x, Done (x, x));
      match x, handles s !! k ≫= handle_addr s with
      | CLocked lb, Some owner => _ ← lb_access (borrows s) m c owner lb; mret DUnit
      | CGlobal _, _ => _ ← (if m then gl_as_mut (borrows s) c else gl_as_ref (borrows s) c); mret DUnit
      | _, None => ub
      end
  | DGetMut r c => _ ← gl_get_mut (borrows s) c; mret DUnit
  | DRead r =>
      match borrows s !! r with Some b => v ← place_read (bw_place b); mret (DVal v) | None => ub end
  | DWrite r v =>
      match borrows s !! r with Some b => _ ← place_write (bw_place b) v; mret DUnit | None => ub end
  | DEnd r => mret DUnit
  end.

(** One operation of some thread; one that is not permitted is skipped. *)
Definition data_step (s : Stat) (op : DataOp V) : SM (Stat * DataOut V) :=
  if permitted s op then o ← data_exec s op; mret (stat_after s op o, o) else mret (s, DSkip).

Fixpoint data_run (s : Stat) (ops : list (DataOp V)) : SM (Stat * list (DataOut V)) :=
  match ops with
  | [] => mret (s, [])
  | op :: ops => '(s, o) ← data_step s op; '(s, os) ← data_run s ops; mret (s, o :: os)
  end.
End Code.
Arguments AnyLock {_} V.
Arguments Cell : clear implicits.
Arguments Mem {_} V.

(** ** The specification

    No lock words and no addresses in containers: a lock is held exactly while it has a guard,
    every place has a value, and every reference has one of its own. *)

Record DSpec (V : Type) := MkDSpec { stat : Stat; pvals : gmap Place V; rvals : gmap nat V }.
Arguments MkDSpec {V}.
Arguments stat {V}.
Arguments pvals {V}.
Arguments rvals {V}.

Definition guards_on (l : nat) (h : Handle) : Prop := match h with HGuard _ l' => l' = l | _ => False end.

#[export] Instance guards_on_dec l h : Decision (guards_on l h).
Proof. unfold guards_on. destruct h; apply _. Defined.

Definition held (s : Stat) (l : nat) : bool := bool_decide (map_Exists (λ _ h, guards_on l h) (handles s)).

Section DataSpec.
Context {V : Type}.

Definition set_pv x (S : DSpec V) : DSpec V := MkDSpec (stat S) x (rvals S).
Definition set_rv x (S : DSpec V) : DSpec V := MkDSpec (stat S) (pvals S) x.

(** A new reference to [p] takes its value. *)
Definition refer (S : DSpec V) (r : nat) (p : Place) : DSpec V :=
  if pvals S !! p is Some v then set_rv (<[r := v]> (rvals S)) S else S.

(** The answer and the new values; [None] is a panic. *)
Definition spec_exec (S : DSpec V) (op : DataOp V) : option (DataOut V * DSpec V) :=
  let s := stat S in
  match op with
  | DNewLock l _ d | DNewGlobal l _ d => Some (DUnit, set_pv (<[PLock l := d]> (pvals S)) S)
  | DDropLock l => Some (DUnit, set_pv (delete (PLock l) (pvals S)) S)
  | DNewPlain _ _ | DDropPlain _ | DUnlock _ | DSleep _ => Some (DUnit, S)
  | DNewLockedBy c _ v | DNewGlobalLockedBy c _ v => Some (DUnit, set_pv (<[PCell c := v]> (pvals S)) S)
  | DDropCell c => Some (DUnit, set_pv (delete (PCell c) (pvals S)) S)
  | DLock _ _ l => Some (if held s l then DBlocked else DUnit, S)
  | DTryLock _ _ l => Some (DBool (negb (held s l)), S)
  | DWake k =>
      match handles s !! k with Some (HAsleep _ l) => Some (if held s l then DBlocked else DUnit, S) | _ => None end
  | DDeref r k _ => match handles s !! k with Some (HGuard _ l) => Some (DUnit, refer S r (PLock l)) | _ => None end
  | DAccess r k c _ =>
      match cell_of s !! c with
      | Some (TAddr a) =>
          if bool_decide (handles s !! k ≫= handle_addr s = Some a) then Some (DUnit, refer S r (PCell c)) else None
      | _ => Some (DUnit, refer S r (PCell c))
      end
  | DGetMut r c => Some (DUnit, refer S r (PCell c))
  | DRead r => (λ v, (DVal v, S)) <$> rvals S !! r
  | DWrite r v =>
      b ← borrows s !! r;
      Some (DUnit, MkDSpec s (<[bw_place b := v]> (pvals S)) (<[r := v]> (rvals S)))
  | DEnd r => Some (DUnit, set_rv (delete r (rvals S)) S)
  end.

Definition spec_step (S : DSpec V) (op : DataOp V) : option (DataOut V * DSpec V) :=
  if permitted (stat S) op then
    '(o, S') ← spec_exec S op;
    Some (o, MkDSpec (stat_after (stat S) op o) (pvals S') (rvals S'))
  else Some (DSkip, S).

Fixpoint spec_run (S : DSpec V) (ops : list (DataOp V)) : option (list (DataOut V) * DSpec V) :=
  match ops with
  | [] => Some ([], S)
  | op :: ops => '(o, S) ← spec_step S op; '(os, S) ← spec_run S ops; Some (o :: os, S)
  end.
End DataSpec.

(** ** The invariant *)

(** What a handle gives access to. *)
Definition reaches (s : Stat) (h : Handle) (p : Place) : Prop :=
  match p with
  | inl l => guards_on l h
  | inr c =>
      match cell_of s !! c with
      | Some (TAddr a) => handle_addr s h = Some a
      | Some (TGlobal l) => guards_on l h
      | None => False
      end
  end.

Record stat_inv (s : Stat) : Prop := {
  si_locks : ∀ l l' a g g', lk_at s !! l = Some (a, g) → lk_at s !! l' = Some (a, g') → l' = l;
  si_plain : ∀ k l a g, handles s !! k = Some (HPlain a) → lk_at s !! l ≠ Some (a, g);
  si_plains : ∀ k k' a, handles s !! k = Some (HPlain a) → handles s !! k' = Some (HPlain a) → k' = k;
  si_live : ∀ k h l, handles s !! k = Some h → lock_of h = Some l → is_Some (lk_at s !! l);
  si_guard : ∀ k k' h h' l, handles s !! k = Some h → handles s !! k' = Some h' → guards_on l h → guards_on l h' →
    k' = k;
  si_from : ∀ r b, borrows s !! r = Some b →
    match bw_from b with
    | Some k => ∃ h, handles s !! k = Some h ∧ reaches s h (bw_place b)
    | None => bw_mut b = true ∧ ∃ c, bw_place b = PCell c ∧ is_Some (cell_of s !! c)
    end;
  si_excl : ∀ r r' b b' k, borrows s !! r = Some b → borrows s !! r' = Some b' →
    bw_from b = Some k → bw_from b' = Some k → bw_mut b = true → r' = r;
  si_getmut : ∀ r r' b b', borrows s !! r = Some b → borrows s !! r' = Some b' → bw_from b = None →
    bw_place b' = bw_place b → r' = r
}.

(** Two handles that reach the same place are the same: this is where the locks, and the
    addresses, come in. *)
Lemma reaches_unique s k k' h h' p : stat_inv s → handles s !! k = Some h → handles s !! k' = Some h' →
  reaches s h p → reaches s h' p → k' = k.
Proof.
  intros Hi Hk Hk' Hp Hp'. destruct p as [l|c]; simpl in *; [by eapply (si_guard _ Hi)|].
  destruct (cell_of s !! c) as [[a|l]|]; [|by eapply (si_guard _ Hi)|done].
  destruct h as [t l|t l|a1], h' as [t' l'|t' l'|a2]; simpl in *; try done.
  - destruct (lk_at s !! l) as [[a1 g]|] eqn:E, (lk_at s !! l') as [[a2 g']|] eqn:E'; simplify_eq/=.
    assert (l' = l) as -> by (by eapply (si_locks _ Hi)). by eapply (si_guard _ Hi).
  - destruct (lk_at s !! l) as [[a1 g]|] eqn:E; simplify_eq/=. by edestruct (si_plain _ Hi k' l a).
  - destruct (lk_at s !! l') as [[a2 g]|] eqn:E; simplify_eq/=. by edestruct (si_plain _ Hi k l' a).
  - simplify_eq. by eapply (si_plains _ Hi).
Qed.

(** Two live references to one place are shared ones. *)
Lemma borrow_exclusive s r r' b b' : stat_inv s → borrows s !! r = Some b → borrows s !! r' = Some b' →
  bw_place b' = bw_place b → bw_mut b = true → r' = r.
Proof.
  intros Hi Hr Hr' Hp Hm. pose proof (si_from _ Hi _ _ Hr) as Hf. pose proof (si_from _ Hi _ _ Hr') as Hf'.
  destruct (bw_from b) as [k|] eqn:Eb; [|by eapply (si_getmut _ Hi r r')].
  destruct (bw_from b') as [k'|] eqn:Eb'; [|symmetry; by eapply (si_getmut _ Hi r' r)].
  destruct Hf as (h & Hk & Hh), Hf' as (h' & Hk' & Hh'). rewrite Hp in Hh'.
  assert (k' = k) as -> by (by eapply reaches_unique). by eapply (si_excl _ Hi r r').
Qed.

(** ** The operations preserve it *)

Lemma handle_usable_spec s e k r b : handle_usable s e k = true → borrows s !! r = Some b → bw_from b = Some k →
  e = false ∧ bw_mut b = false.
Proof. intros Hu%bool_decide_eq_true Hr Hk. exact (Hu r b Hr Hk). Qed.

(** The handle [k] becomes [o], while nothing is borrowed from it. *)
Lemma si_handle s k o : stat_inv s →
  (∀ r b, borrows s !! r = Some b → bw_from b ≠ Some k) →
  (∀ h, o = Some h →
    (∀ a, h = HPlain a → addr_free s a = true) ∧
    (∀ l, lock_of h = Some l → is_Some (lk_at s !! l)) ∧
    (∀ l k' h', guards_on l h → handles s !! k' = Some h' → guards_on l h' → k' = k)) →
  stat_inv (set_handles (partial_alter (λ _, o) k (handles s)) s).
Proof.
  intros [H1 H2 H3 H4 H5 H6 H7 H8] Hb Ho.
  assert (∀ k' h, partial_alter (λ _, o) k (handles s) !! k' = Some h →
    (k' = k ∧ o = Some h) ∨ (k' ≠ k ∧ handles s !! k' = Some h)) as Hl.
  { intros k' h. destruct (decide (k' = k)) as [->|Hne]; [rewrite lookup_partial_alter_eq|rewrite lookup_partial_alter_ne by done]; auto. }
  split; cbn [set_handles lk_at cell_of handles borrows].
  - done.
  - intros k' l a g [[-> Hh]|[_ Hh]]%Hl; [|by eapply H2].
    destruct (Ho _ Hh) as (Ha & _). specialize (Ha a eq_refl). intros Hx.
    apply andb_prop in Ha as [Ha _]. apply bool_decide_eq_true in Ha. by apply (Ha _ _ Hx).
  - intros k1 k2 a [[-> Hh]|[Hn Hh]]%Hl [[-> Hh']|[Hn' Hh']]%Hl; [done|..|by eapply H3].
    all: destruct (Ho _ ltac:(eassumption)) as (Ha & _); specialize (Ha a eq_refl).
    all: apply andb_prop in Ha as [_ Ha]; apply bool_decide_eq_true in Ha.
    + by destruct (Ha _ _ Hh').
    + by destruct (Ha _ _ Hh).
  - intros k' h l [[-> Hh]|[_ Hh]]%Hl; [by apply (Ho _ Hh)|by eapply H4].
  - intros k1 k2 h h' l [[-> Hh]|[Hn Hh]]%Hl [[-> Hh']|[Hn' Hh']]%Hl Hg Hg'; [done|..|by eapply H5].
    + by eapply (Ho _ Hh).
    + symmetry. by eapply (Ho _ Hh').
  - intros r b Hr. specialize (H6 r b Hr). specialize (Hb r b Hr). destruct (bw_from b) as [k'|]; [|done].
    rewrite lookup_partial_alter_ne by congruence. done.
  - done.
  - done.
Qed.

Lemma si_set_handle s k h : stat_inv s → (∀ r b, borrows s !! r = Some b → bw_from b ≠ Some k) →
  (∀ a, h = HPlain a → addr_free s a = true) → (∀ l, lock_of h = Some l → is_Some (lk_at s !! l)) →
  (∀ l k' h', guards_on l h → handles s !! k' = Some h' → guards_on l h' → k' = k) →
  stat_inv (set_handles (<[k := h]> (handles s)) s).
Proof. intros Hi Hb H1 H2 H3. apply si_handle; [done..|]. by intros ? [= <-]. Qed.

Lemma si_delete_handle s k : stat_inv s → handle_usable s true k = true →
  stat_inv (set_handles (delete k (handles s)) s).
Proof. intros Hi Hu. apply si_handle; [done| |done]. intros r b Hr Hk. by destruct (handle_usable_spec _ _ _ _ _ Hu Hr Hk). Qed.

(** Nothing is borrowed from a handle that does not exist or sleeps. *)
Lemma no_borrow s k r b : stat_inv s → (∀ h, handles s !! k = Some h → ∃ t l, h = HAsleep t l) →
  borrows s !! r = Some b → bw_from b ≠ Some k.
Proof.
  intros Hi Hk Hr Hb. pose proof (si_from _ Hi _ _ Hr) as Hf. rewrite Hb in Hf. destruct Hf as (h & Hh & Hp).
  destruct (Hk _ Hh) as (t & l & ->). destruct (bw_place b) as [l'|c]; simpl in Hp; [done|].
  destruct (cell_of s !! c) as [[a|l']|]; done.
Qed.

(** Locks and containers come and go, what is reached stays as it is. *)
Lemma si_set_locks s lk : stat_inv s →
  (∀ k h l, handles s !! k = Some h → lock_of h = Some l → lk !! l = lk_at s !! l) →
  (∀ l l' a g g', lk !! l = Some (a, g) → lk !! l' = Some (a, g') → l' = l) →
  (∀ k l a g, handles s !! k = Some (HPlain a) → lk !! l ≠ Some (a, g)) → stat_inv (set_locks lk s).
Proof.
  intros [H1 H2 H3 H4 H5 H6 H7 H8] Hh Hu Hp. split; cbn [set_locks lk_at cell_of handles borrows]; try done.
  - intros k h l Hk Hl. rewrite (Hh _ _ _ Hk Hl). by eapply H4.
  - intros r b Hr. specialize (H6 r b Hr). destruct (bw_from b) as [k|]; [|done].
    destruct H6 as (h & Hk & Hr'). exists h. split; [done|]. destruct (bw_place b) as [l|c]; simpl in *; [done|].
    destruct (cell_of s !! c) as [[a|l]|]; [|done..]. destruct h as [t l|t l|a']; simpl in *; [|done..].
    by rewrite (Hh _ _ _ Hk eq_refl).
Qed.

Lemma addr_free_spec s a : addr_free s a = true →
  (∀ l g, lk_at s !! l ≠ Some (a, g)) ∧ (∀ k, handles s !! k ≠ Some (HPlain a)).
Proof.
  intros [H1%bool_decide_eq_true H2%bool_decide_eq_true]%andb_prop.
  split; intros ? **; intros Hx; [exact (H1 _ _ Hx eq_refl)|exact (H2 _ _ Hx eq_refl)].
Qed.

Lemma si_new_lock s l a g : stat_inv s → fresh_in (lk_at s) l && addr_free s a = true →
  stat_inv (set_locks (<[l := (a, g)]> (lk_at s)) s).
Proof.
  intros Hi [Hf%bool_decide_eq_true [Ha Hb]%addr_free_spec]%andb_prop. apply si_set_locks; [done|..].
  - intros k h l' Hk Hl. destruct (si_live _ Hi _ _ _ Hk Hl) as [x Hx]. by rewrite lookup_insert_ne by congruence.
  - intros l1 l2 a' g1 g2 [[<- E1]|[_ E1]]%lookup_insert_Some [[<- E2]|[_ E2]]%lookup_insert_Some; simplify_eq; try done.
    + by destruct (Ha l2 g2).
    + by destruct (Ha l1 g1).
    + by eapply (si_locks _ Hi).
  - intros k l' a' g' Hk [[<- [= <- <-]]|[_ E1]]%lookup_insert_Some; [by destruct (Hb k)|by eapply (si_plain _ Hi)].
Qed.

Lemma si_drop_lock s l : stat_inv s → no_handles s l = true → stat_inv (set_locks (delete l (lk_at s)) s).
Proof.
  intros Hi Hn%bool_decide_eq_true. apply si_set_locks; [done|..].
  - intros k h l' Hk Hl. rewrite lookup_delete_ne; [done|]. intros ->. exact (Hn _ _ Hk Hl).
  - intros l1 l2 a g1 g2 [_ E1]%lookup_delete_Some [_ E2]%lookup_delete_Some. by eapply (si_locks _ Hi).
  - intros k l' a g Hk [_ E]%lookup_delete_Some. by eapply (si_plain _ Hi).
Qed.

Lemma si_set_cells s cs : stat_inv s →
  (∀ r b c, borrows s !! r = Some b → bw_place b = PCell c → cs !! c = cell_of s !! c) → stat_inv (set_cells cs s).
Proof.
  intros [H1 H2 H3 H4 H5 H6 H7 H8] Hc. split; cbn [set_cells lk_at cell_of handles borrows]; try done.
  intros r b Hr. specialize (H6 r b Hr). specialize (Hc r b). destruct (bw_from b) as [k|].
  - destruct H6 as (h & Hk & Hr'). exists h. split; [done|]. destruct (bw_place b) as [l|c]; simpl in *; [done|].
    by rewrite (Hc c).
  - destruct H6 as (Hm & c & Hp & Hx). split; [done|]. exists c. by rewrite (Hc c).
Qed.

Lemma borrow_cell s r b c : stat_inv s → borrows s !! r = Some b → bw_place b = PCell c → is_Some (cell_of s !! c).
Proof.
  intros Hi Hr Hp. pose proof (si_from _ Hi _ _ Hr) as Hf. rewrite Hp in Hf. destruct (bw_from b).
  - destruct Hf as (h & _ & Hh). simpl in Hh. by destruct (cell_of s !! c).
  - by destruct Hf as (_ & c' & [= ->] & Hc).
Qed.

Lemma si_new_cell s c t : stat_inv s → fresh_in (cell_of s) c = true → stat_inv (set_cells (<[c := t]> (cell_of s)) s).
Proof.
  intros Hi Hf%bool_decide_eq_true. apply si_set_cells; [done|]. intros r b c' Hr Hp.
  destruct (borrow_cell _ _ _ _ Hi Hr Hp). by rewrite lookup_insert_ne by congruence.
Qed.

Lemma si_drop_cell s c : stat_inv s → cell_unborrowed s c = true → stat_inv (set_cells (delete c (cell_of s)) s).
Proof.
  intros Hi Hf%bool_decide_eq_true. apply si_set_cells; [done|]. intros r b c' Hr Hp.
  rewrite lookup_delete_ne; [done|]. intros ->. exact (Hf _ _ Hr Hp).
Qed.

(** New references. *)
Lemma si_borrow s r k h p m : stat_inv s → handle_usable s m k = true → handles s !! k = Some h → reaches s h p →
  (∀ c, p = PCell c → cell_usable s c = true) → stat_inv (add_borrow r (MkBorrow (Some k) p m) s).
Proof.
  intros [H1 H2 H3 H4 H5 H6 H7 H8] Hu Hk Hp Hc. split; cbn [add_borrow set_borrows lk_at cell_of handles borrows]; try done.
  - intros r' b [[<- <-]|[_ Hr]]%lookup_insert_Some; [|by apply (H6 r')]. by exists h.
  - intros r1 r2 b1 b2 k' [[<- <-]|[_ Hr1]]%lookup_insert_Some [[<- <-]|[_ Hr2]]%lookup_insert_Some; simpl; try done.
    + intros [= <-] E Hm. destruct (handle_usable_spec _ _ _ _ _ Hu Hr2 E). congruence.
    + intros E [= <-] Hm. destruct (handle_usable_spec _ _ _ _ _ Hu Hr1 E). congruence.
    + by eapply H7.
  - intros r1 r2 b1 b2 [[<- <-]|[_ Hr1]]%lookup_insert_Some [[<- <-]|[_ Hr2]]%lookup_insert_Some; simpl; try done.
    + intros E Hpl. pose proof (H6 _ _ Hr1) as Hf. rewrite E in Hf. destruct Hf as (_ & c & Hpc & _).
      specialize (Hc c ltac:(congruence)). apply bool_decide_eq_true in Hc. by destruct (Hc _ _ Hr1 Hpc).
    + by eapply H8.
Qed.

Lemma si_get_mut s r c : stat_inv s → cell_unborrowed s c = true → is_Some (cell_of s !! c) →
  stat_inv (add_borrow r (MkBorrow None (PCell c) true) s).
Proof.
  intros [H1 H2 H3 H4 H5 H6 H7 H8] Hu%bool_decide_eq_true Hc.
  split; cbn [add_borrow set_borrows lk_at cell_of handles borrows]; try done.
  - intros r' b [[<- <-]|[_ Hr]]%lookup_insert_Some; [|by apply (H6 r')]. simpl. eauto.
  - intros r1 r2 b1 b2 k' [[<- <-]|[_ Hr1]]%lookup_insert_Some [[<- <-]|[_ Hr2]]%lookup_insert_Some; simpl; try done.
    by eapply H7.
  - intros r1 r2 b1 b2 [[<- <-]|[_ Hr1]]%lookup_insert_Some [[<- <-]|[_ Hr2]]%lookup_insert_Some; simpl; try done.
    + intros _ Hp. by destruct (Hu _ _ Hr2).
    + intros _ Hp. by destruct (Hu _ _ Hr1).
    + by eapply H8.
Qed.

Lemma si_end s r : stat_inv s → stat_inv (set_borrows (delete r (borrows s)) s).
Proof.
  intros [H1 H2 H3 H4 H5 H6 H7 H8]. split; cbn [set_borrows lk_at cell_of handles borrows]; try done.
  - intros r' b [_ Hr]%lookup_delete_Some. by apply (H6 r').
  - intros r1 r2 b1 b2 k [_ Hr1]%lookup_delete_Some [_ Hr2]%lookup_delete_Some. by eapply H7.
  - intros r1 r2 b1 b2 [_ Hr1]%lookup_delete_Some [_ Hr2]%lookup_delete_Some. by eapply H8.
Qed.

(** The references that the code makes are allowed. *)
Lemma no_race s k h p m : stat_inv s → handle_usable s m k = true → handles s !! k = Some h → reaches s h p →
  (∀ c, p = PCell c → cell_usable s c = true) → data_race (borrows s) m p = false.
Proof.
  intros Hi Hu Hk Hp Hc. apply bool_decide_eq_false. intros (r & b & Hr & Hpl & Hm).
  pose proof (si_from _ Hi _ _ Hr) as Hf. destruct (bw_from b) as [k'|] eqn:E.
  - destruct Hf as (h' & Hk' & Hp'). rewrite Hpl in Hp'. assert (k' = k) as -> by (by eapply reaches_unique).
    destruct (handle_usable_spec _ _ _ _ _ Hu Hr E). intuition congruence.
  - destruct Hf as (_ & c & Hpc & _). specialize (Hc c ltac:(congruence)). apply bool_decide_eq_true in Hc.
    by destruct (Hc _ _ Hr Hpc).
Qed.

Lemma no_race_get_mut s c : cell_unborrowed s c = true → data_race (borrows s) true (PCell c) = false.
Proof. intros Hu%bool_decide_eq_true. apply bool_decide_eq_false. intros (r & b & Hr & Hp & _). by destruct (Hu _ _ Hr). Qed.

(** ** The code refines the specification *)

(** Runs of monadic code. *)
Lemma dbind_run {S A B} (c : M S A) (k : A → M S B) m : (c ≫= k) m = match c m with Done (a, m) => k a m | Panic => Panic | UB => UB end.
Proof. unfold mbind, M_bind. by destruct (c m) as [[]| |]. Qed.
Lemma dret_run {S A} (a : A) (m : S) : mret (M := M S) a m = Done (a, m).
Proof. done. Qed.

Section Refine.
Context `{!Backend, !BackendOk _} {V : Type}.
Implicit Types (s : Stat) (m : Mem V) (S : DSpec V) (x : AnyLock V).

Definition any_state x : option BState := match x with ALocal l => Some (lstate l) | AGlobal g => gstate g end.
Definition any_data x : V := match x with ALocal l => ldata l | AGlobal g => gdata g end.
Definition put_inner x (l : Lock V) : AnyLock V :=
  match x with ALocal _ => ALocal l | AGlobal _ => AGlobal (MkGlobal (Some (lstate l)) (ldata l)) end.
Definition cell_tie (c : Cell V) : Tie :=
  match c with CLocked lb => TAddr (lb_owner lb) | CGlobal gl => TGlobal (gl_backend gl) end.

(** The lock word says which guard there is. *)
Definition lock_rep s (l : nat) x : Prop :=
  ∃ st, any_state x = Some st ∧ ∀ t, holder st = Some t ↔ ∃ k, handles s !! k = Some (HGuard t l).

Record rep m S : Prop := {
  rp_inv : stat_inv (stat S);
  rp_lock l : is_Some (lk_at (stat S) !! l) →
    ∃ x, locks m !! l = Some x ∧ lock_rep (stat S) l x ∧ pvals S !! PLock l = Some (any_data x);
  rp_cell c t : cell_of (stat S) !! c = Some t →
    ∃ y, cells m !! c = Some y ∧ cell_tie y = t ∧ pvals S !! PCell c = Some (cell_value y);
  rp_refs r : rvals S !! r = borrows (stat S) !! r ≫= λ b, pvals S !! bw_place b
}.

Lemma lock_rep_held s l x st : lock_rep s l x → any_state x = Some st →
  if held s l then ∃ u, holder st = Some u else holder st = None.
Proof.
  intros (st' & E & Hr) E'. rewrite E in E'. injection E' as ->. unfold held. case_bool_decide as Hh.
  - destruct Hh as (k & h & Hk & Hg). destruct h as [t l'|t l'|a]; simpl in Hg; [|done..]. subst l'.
    exists t. apply Hr. eauto.
  - destruct (holder st) as [u|] eqn:Eu; [|done]. destruct Hh. destruct (proj1 (Hr u) eq_refl) as [k Hk].
    by exists k, (HGuard u l).
Qed.

Lemma put_inner_state x (l : Lock V) : any_state (put_inner x l) = Some (lstate l).
Proof. by destruct x. Qed.
Lemma put_inner_data x (l : Lock V) : any_data (put_inner x l) = ldata l.
Proof. by destruct x. Qed.

(** A lock changes its word, or the guards of it change. *)
Lemma rep_lock m S l x s' : rep m S → lk_at s' = lk_at (stat S) → cell_of s' = cell_of (stat S) →
  borrows s' = borrows (stat S) → stat_inv s' → lock_rep s' l x → pvals S !! PLock l = Some (any_data x) →
  (∀ l' t k, l' ≠ l → handles s' !! k = Some (HGuard t l') ↔ handles (stat S) !! k = Some (HGuard t l')) →
  rep (set_mlocks (<[l := x]> (locks m)) m) (MkDSpec s' (pvals S) (rvals S)).
Proof.
  intros [Hi Hl Hc Hr] E1 E2 E3 Hi' Hx Hd Hg. split; cbn [stat pvals rvals set_mlocks locks cells]; [done|..].
  - intros l' Hl'. destruct (decide (l' = l)) as [->|Hne].
    + exists x. by rewrite lookup_insert_eq.
    + rewrite E1 in Hl'. destruct (Hl l' Hl') as (x' & Hx' & (st & Est & Hst) & Hd'). exists x'.
      rewrite lookup_insert_ne by done. split; [done|]. split; [|done]. exists st. split; [done|].
      intros t. rewrite Hst. split; intros [k Hk]; exists k; by apply Hg.
  - rewrite E2. apply Hc.
  - rewrite E3. apply Hr.
Qed.

Lemma on_inner_run {A} (f : Lock V → A * Lock V) x st : any_state x = Some st →
  on_inner f x = Done (fst (f (MkLock st (any_data x))), put_inner x (snd (f (MkLock st (any_data x))))).
Proof.
  destruct x as [[st' d]|[st' d]]; simpl.
  - intros [= ->]. by destruct (f (MkLock st d)).
  - intros ->. unfold global_inner; simpl. by destruct (f (MkLock st d)).
Qed.

Lemma any_lock_run t x st : any_state x = Some st →
  any_lock t x = Done (put_inner x <$> lock_lock t (MkLock st (any_data x))).
Proof.
  destruct x as [[st' d]|[st' d]]; simpl; [by intros [= ->]|].
  intros ->. unfold global_lock, global_inner; simpl. by destruct (lock_lock t (MkLock st d)).
Qed.

Lemma any_try_lock_run t x st : any_state x = Some st →
  any_try_lock t x = Done (fst (lock_try_lock t (MkLock st (any_data x))), put_inner x (snd (lock_try_lock t (MkLock st (any_data x))))).
Proof.
  destruct x as [[st' d]|[st' d]]; simpl.
  - intros [= ->]. by destruct (lock_try_lock t (MkLock st d)).
  - intros ->. unfold global_try_lock, global_inner; simpl. by destruct (lock_try_lock t (MkLock st d)).
Qed.

Definition sim m S (op : DataOp V) : Prop :=
  match spec_exec S op with
  | Some (o, S') => ∃ m', data_exec (stat S) op m = Done (o, m') ∧
      rep m' (MkDSpec (stat_after (stat S) op o) (pvals S') (rvals S'))
  | None => data_exec (stat S) op m = Panic
  end.

(** Taking a lock that is free, by the first attempt or after [do_unlocked]. *)
Lemma rep_taken m S l x k t st s' : rep m S → lk_at s' = lk_at (stat S) → cell_of s' = cell_of (stat S) →
  borrows s' = borrows (stat S) → stat_inv s' → handles s' = <[k := HGuard t l]> (handles (stat S)) →
  (∀ u l', handles (stat S) !! k ≠ Some (HGuard u l')) → held (stat S) l = false →
  pvals S !! PLock l = Some (any_data x) → any_state x = Some st → holder st = Some t →
  rep (set_mlocks (<[l := x]> (locks m)) m) (MkDSpec s' (pvals S) (rvals S)).
Proof.
  intros Hrep E1 E2 E3 Hi Eh Hk Hh Hd Est Hst. apply rep_lock; try done.
  - exists st. split; [done|]. intros u. rewrite Hst, Eh. split.
    + intros [= <-]. exists k. by rewrite lookup_insert_eq.
    + intros [k' [[_ [= ->]]|[_ Hk']]%lookup_insert_Some]; [done|].
      apply bool_decide_eq_false in Hh. destruct Hh. by exists k', (HGuard u l).
  - intros l' u k' Hne. rewrite Eh. destruct (decide (k' = k)) as [->|Hn].
    + rewrite lookup_insert_eq. split; [congruence|]. intros Hx. by destruct (Hk _ _ Hx).
    + by rewrite lookup_insert_ne by done.
Qed.

(** Releasing it. *)
Lemma rep_released m S l x k t st s' o : rep m S → lk_at s' = lk_at (stat S) → cell_of s' = cell_of (stat S) →
  borrows s' = borrows (stat S) → stat_inv s' → handles s' = partial_alter (λ _, o) k (handles (stat S)) →
  (∀ u l', o ≠ Some (HGuard u l')) → handles (stat S) !! k = Some (HGuard t l) →
  pvals S !! PLock l = Some (any_data x) → any_state x = Some st → holder st = None →
  rep (set_mlocks (<[l := x]> (locks m)) m) (MkDSpec s' (pvals S) (rvals S)).
Proof.
  intros Hrep E1 E2 E3 Hi Eh Ho Hk Hd Est Hst.
  assert (∀ k' u l', handles s' !! k' = Some (HGuard u l') ↔ k' ≠ k ∧ handles (stat S) !! k' = Some (HGuard u l')) as Hl.
  { intros k' u l'. rewrite Eh. destruct (decide (k' = k)) as [->|Hn].
    - rewrite lookup_partial_alter_eq. split; [intros Hx; by destruct (Ho _ _ Hx)|by intros []].
    - rewrite lookup_partial_alter_ne by done. tauto. }
  apply rep_lock; try done.
  - exists st. split; [done|]. intros u. rewrite Hst. split; [done|]. intros [k' [Hn Hk']%Hl].
    destruct Hn. by apply (si_guard _ (rp_inv _ _ Hrep) k k' (HGuard t l) (HGuard u l) l).
  - intros l' u k' Hne. rewrite Hl. split; [tauto|]. intros Hx. split; [|done]. intros ->. congruence.
Qed.

Lemma at_lock_run {A} l x (f : AnyLock V → exec (A * AnyLock V)) m : locks m !! l = Some x →
  at_lock l f m = exec_bind (f x) (λ y, Done (fst y, set_mlocks (<[l := snd y]> (locks m)) m)).
Proof. intros E. unfold at_lock. by rewrite E. Qed.
Lemma at_cell_run {A} c cx (f : Cell V → exec (A * Cell V)) m : cells m !! c = Some cx →
  at_cell c f m = exec_bind (f cx) (λ y, Done (fst y, set_mcells (<[c := snd y]> (cells m)) m)).
Proof. intros E. unfold at_cell. by rewrite E. Qed.

Lemma fresh_in_true {A} (mm : gmap nat A) k : fresh_in mm k = true → mm !! k = None.
Proof. apply bool_decide_eq_true. Qed.
Lemma fresh_in_false {A} (mm : gmap nat A) k : negb (fresh_in mm k) = true → is_Some (mm !! k).
Proof. intros Hn%negb_true_iff%bool_decide_eq_false. by apply not_eq_None_Some. Qed.

(** A guard for [k], whose lock is free. *)
Lemma si_guard_new s k t l : stat_inv s → is_Some (lk_at s !! l) → held s l = false →
  (∀ h, handles s !! k = Some h → ∃ t l, h = HAsleep t l) → stat_inv (set_handles (<[k := HGuard t l]> (handles s)) s).
Proof.
  intros Hi Hl Hh%bool_decide_eq_false Hk. apply si_set_handle; try done.
  - intros r b Hr. by eapply no_borrow.
  - by intros l' [= <-].
  - intros l' k' h' <- Hk' Hg. destruct Hh. by exists k', h'.
Qed.

Lemma rep_same m S l x : rep m S → lock_rep (stat S) l x → pvals S !! PLock l = Some (any_data x) →
  rep (set_mlocks (<[l := x]> (locks m)) m) (MkDSpec (stat S) (pvals S) (rvals S)).
Proof. intros Hr Hx Hd. apply rep_lock; try done. apply Hr. Qed.

(** The two ways to wait for a lock. *)
Lemma acquire_ok m S l x k t : rep m S → is_Some (lk_at (stat S) !! l) →
  locks m !! l = Some x → lock_rep (stat S) l x → pvals S !! PLock l = Some (any_data x) →
  (∀ h, handles (stat S) !! k = Some h → ∃ t l, h = HAsleep t l) →
  match lock_lock t (MkLock (default b_init (any_state x)) (any_data x)) with
  | None => held (stat S) l = true ∧ rep (set_mlocks (<[l := x]> (locks m)) m) (MkDSpec (stat S) (pvals S) (rvals S))
  | Some l' => held (stat S) l = false ∧
      rep (set_mlocks (<[l := put_inner x l']> (locks m)) m)
        (MkDSpec (set_handles (<[k := HGuard t l]> (handles (stat S))) (stat S)) (pvals S) (rvals S))
  end.
Proof.
  intros Hrep Hlk Hl Hx Hd Hk. destruct Hx as (st & Est & Hst).
  pose proof (lock_rep_held _ _ x st ltac:(by exists st) Est) as Hh. rewrite Est. simpl. unfold lock_lock; simpl.
  destruct (held (stat S) l) eqn:Eh.
  - destruct Hh as [u Hu]. rewrite (lock_held t u _ Hu). split; [done|]. apply rep_same; [done|by exists st|done].
  - destruct (lock_free t _ Hh) as (st' & -> & Hst'). split; [done|].
    eapply (rep_taken m S l _ k t st'); try done.
    + apply si_guard_new; try done. apply Hrep.
    + intros u l' Hk'. by destruct (Hk _ Hk') as (?&?&?).
    + by rewrite put_inner_data.
    + apply put_inner_state.
Qed.

Lemma sim_lock m S k t l : rep m S → permitted (V:=V) (stat S) (DLock k t l) = true → sim m S (DLock k t l).
Proof.
  intros Hrep [Hf%fresh_in_true Hlk%fresh_in_false]%andb_prop. unfold sim. cbn [spec_exec data_exec].
  destruct (rp_lock _ _ Hrep l Hlk) as (x & Hx & Hxr & Hd). pose proof Hxr as (st & Est & _).
  rewrite dbind_run, (at_lock_run l x) by done. rewrite (any_lock_run t x st Est).
  pose proof (acquire_ok m S l x k t Hrep Hlk Hx Hxr Hd ltac:(congruence)) as Ha. rewrite Est in Ha. simpl in Ha.
  destruct (lock_lock t _) as [l'|]; destruct Ha as [-> Hr']; simpl; eauto.
Qed.

Lemma sim_wake m S k : rep m S → permitted (V:=V) (stat S) (DWake k) = true → sim m S (DWake k).
Proof.
  intros Hrep. unfold sim. cbn [permitted spec_exec data_exec].
  destruct (handles (stat S) !! k) as [[t l|t l|a]|] eqn:Hk; try done. intros _.
  assert (is_Some (lk_at (stat S) !! l)) as Hlk by (by eapply (si_live _ (rp_inv _ _ Hrep))).
  destruct (rp_lock _ _ Hrep l Hlk) as (x & Hx & Hxr & Hd). pose proof Hxr as (st & Est & _).
  rewrite dbind_run, (at_lock_run l x) by done. unfold any_wake. rewrite (on_inner_run _ x st Est).
  pose proof (acquire_ok m S l x k t Hrep Hlk Hx Hxr Hd ltac:(intros; simplify_eq; eauto)) as Ha.
  rewrite Est in Ha. simpl in Ha. unfold guard_relock, b_relock. unfold lock_lock in Ha. simpl in *.
  destruct (b_lock t st) as [st'|]; destruct Ha as [-> Hr']; simpl; rewrite ?Hk.
  - eauto.
  - eexists. split; [done|]. apply rep_same; [done|..].
    + exists st. split; [by rewrite put_inner_state|]. destruct Hxr as (st2 & E2 & H2). by simplify_eq.
    + by rewrite put_inner_data.
Qed.

Lemma sim_try_lock m S k t l : rep m S → permitted (V:=V) (stat S) (DTryLock k t l) = true → sim m S (DTryLock k t l).
Proof.
  intros Hrep [Hf%fresh_in_true Hlk%fresh_in_false]%andb_prop. unfold sim. cbn [spec_exec data_exec].
  destruct (rp_lock _ _ Hrep l Hlk) as (x & Hx & Hxr & Hd). pose proof Hxr as (st & Est & Hst).
  pose proof (lock_rep_held _ _ x st Hxr Est) as Hh.
  rewrite dbind_run, (at_lock_run l x) by done. rewrite (any_try_lock_run t x st Est).
  unfold lock_try_lock; simpl. destruct (held (stat S) l) eqn:Eh; simpl.
  - destruct Hh as [u Hu]. destruct (try_lock_held t u _ Hu) as (st' & -> & Hst'). simpl. eexists. split; [done|].
    apply rep_same; [done|..].
    + exists st'. split; [by rewrite put_inner_state|]. intros u'. by rewrite Hst', <- Hu.
    + by rewrite put_inner_data.
  - destruct (try_lock_free t _ Hh) as (st' & -> & Hst'). simpl. eexists. split; [done|].
    eapply (rep_taken m S l _ k t st'); try done.
    + apply si_guard_new; try done; [apply Hrep|congruence].
    + congruence.
    + by rewrite put_inner_data.
    + apply put_inner_state.
Qed.

Lemma release_ok m S k t l x st o : rep m S → handles (stat S) !! k = Some (HGuard t l) →
  handle_usable (stat S) true k = true → (∀ h, o = Some h → h = HAsleep t l) →
  lock_rep (stat S) l x → any_state x = Some st → pvals S !! PLock l = Some (any_data x) →
  rep (set_mlocks (<[l := put_inner x (MkLock (b_unlock t st) (any_data x))]> (locks m)) m)
    (MkDSpec (set_handles (partial_alter (λ _, o) k (handles (stat S))) (stat S)) (pvals S) (rvals S)).
Proof.
  intros Hrep Hk Hu Ho (st' & Est & Hst) Est' Hd. rewrite Est in Est'. injection Est' as ->.
  eapply (rep_released m S l _ k t (b_unlock t st)); try done.
  - apply si_handle; [apply Hrep| |].
    + intros r b Hr Hb. by destruct (handle_usable_spec _ _ _ _ _ Hu Hr Hb).
    + intros h ->. rewrite (Ho h eq_refl). split_and!; [done| |done].
      intros l' [= <-]. by eapply (si_live _ (rp_inv _ _ Hrep)).
  - intros u l' ->. specialize (Ho _ eq_refl). done.
  - by rewrite put_inner_data.
  - apply put_inner_state.
  - apply unlock_ok, Hst. eauto.
Qed.

Lemma sim_unlock m S k : rep m S → permitted (V:=V) (stat S) (DUnlock k) = true → sim m S (DUnlock k).
Proof.
  intros Hrep [Hg Hu]%andb_prop. unfold sim. cbn [spec_exec data_exec].
  destruct (handles (stat S) !! k) as [[t l|t l|a]|] eqn:Hk; try done. clear Hg.
  destruct (rp_lock _ _ Hrep l) as (x & Hx & Hxr & Hd); [by eapply (si_live _ (rp_inv _ _ Hrep))|].
  pose proof Hxr as (st & Est & _). rewrite dbind_run, (at_lock_run l x) by done.
  unfold any_unlock. rewrite (on_inner_run _ x st Est). simpl. eexists. split; [done|].
  by eapply (release_ok m S k t l x st None).
Qed.

Lemma sim_sleep m S k : rep m S → permitted (V:=V) (stat S) (DSleep k) = true → sim m S (DSleep k).
Proof.
  intros Hrep [Hg Hu]%andb_prop. unfold sim. cbn [spec_exec data_exec stat_after].
  destruct (handles (stat S) !! k) as [[t l|t l|a]|] eqn:Hk; try done. clear Hg.
  destruct (rp_lock _ _ Hrep l) as (x & Hx & Hxr & Hd); [by eapply (si_live _ (rp_inv _ _ Hrep))|].
  pose proof Hxr as (st & Est & _). rewrite dbind_run, (at_lock_run l x) by done.
  unfold any_sleep. rewrite (on_inner_run _ x st Est). simpl. eexists. split; [done|].
  eapply (release_ok m S k t l x st (Some (HAsleep t l))); try done. by intros h [= <-].
Qed.

(** Locks and containers that come and go. *)
Lemma borrow_lock s r b l : stat_inv s → borrows s !! r = Some b → bw_place b = PLock l → is_Some (lk_at s !! l).
Proof.
  intros Hi Hr Hp. pose proof (si_from _ Hi _ _ Hr) as Hf. rewrite Hp in Hf. destruct (bw_from b).
  - destruct Hf as (h & Hk & Hg). simpl in Hg. destruct h as [t l'|t l'|a]; simpl in Hg; [|done..]. subst l'.
    by eapply (si_live _ Hi).
  - by destruct Hf as (_ & c' & ? & Hc).
Qed.

Lemma refs_frame m S (pv : gmap Place V) : rep m S →
  (∀ r b, borrows (stat S) !! r = Some b → pv !! bw_place b = pvals S !! bw_place b) →
  ∀ r, rvals S !! r = borrows (stat S) !! r ≫= λ b, pv !! bw_place b.
Proof.
  intros Hrep Hp r. rewrite (rp_refs _ _ Hrep). destruct (borrows (stat S) !! r) as [b|] eqn:E; [|done]. simpl.
  symmetry. by eapply Hp.
Qed.

Lemma rep_new_lock m S l a g x d : rep m S → fresh_in (lk_at (stat S)) l && addr_free (stat S) a = true →
  any_state x = Some b_init → any_data x = d →
  rep (set_mlocks (<[l := x]> (locks m)) m)
    (MkDSpec (set_locks (<[l := (a, g)]> (lk_at (stat S))) (stat S)) (<[PLock l := d]> (pvals S)) (rvals S)).
Proof.
  intros Hrep Hf Est <-. pose proof (rp_inv _ _ Hrep) as Hi. split; cbn [stat pvals rvals set_mlocks locks cells].
  - by apply si_new_lock.
  - apply andb_prop in Hf as [Hf%fresh_in_true _]. intros l' Hl'. simpl in Hl'. destruct (decide (l' = l)) as [->|Hne].
    + exists x. rewrite !lookup_insert_eq. split_and!; try done. exists b_init. split; [done|]. intros t.
      rewrite init_free. split; [done|]. intros [k Hk]. destruct (si_live _ Hi k _ l Hk eq_refl). simpl in *. congruence.
    + rewrite lookup_insert_ne in Hl' by done. rewrite !lookup_insert_ne by congruence. by apply (rp_lock _ _ Hrep).
  - intros c t Hc. rewrite lookup_insert_ne by done. by apply (rp_cell _ _ Hrep).
  - apply andb_prop in Hf as [Hf%fresh_in_true _]. apply (refs_frame m S); [done|]. intros r b Hr. rewrite lookup_insert_ne; [done|].
    intros Hp. destruct (borrow_lock _ _ _ _ Hi Hr (eq_sym Hp)). congruence.
Qed.

Lemma sim_new_lock m S l a d : rep m S →
  permitted (stat S) (DNewLock l a d) = true → sim m S (DNewLock l a d) ∧ sim m S (DNewGlobal l a d).
Proof.
  intros Hrep Hp. split; unfold sim; cbn [spec_exec data_exec]; eexists; (split; [done|]); simpl; by apply rep_new_lock.
Qed.

Lemma sim_drop_lock m S l : rep m S → permitted (V:=V) (stat S) (DDropLock l) = true → sim m S (DDropLock l).
Proof.
  intros Hrep. unfold sim. cbn [permitted spec_exec data_exec].
  destruct (lk_at (stat S) !! l) as [[a [|]]|] eqn:El; try done. intros Hn. eexists. split; [done|].
  pose proof (rp_inv _ _ Hrep) as Hi. split; cbn [stat pvals rvals set_pv set_mlocks locks cells stat_after].
  - by apply si_drop_lock.
  - intros l'. cbn [set_locks lk_at]. intros [y [Hne Hy]%lookup_delete_Some]. rewrite !lookup_delete_ne by congruence.
    apply (rp_lock _ _ Hrep). eauto.
  - intros c t Hc. rewrite lookup_delete_ne by done. by apply (rp_cell _ _ Hrep).
  - apply (refs_frame m S); [done|]. intros r b Hr. rewrite lookup_delete_ne; [done|]. intros Hp.
    pose proof (si_from _ Hi _ _ Hr) as Hf. rewrite <- Hp in Hf. destruct (bw_from b).
    + destruct Hf as (h & Hk & Hg). apply bool_decide_eq_true in Hn. apply (Hn _ _ Hk).
      simpl in Hg. destruct h as [t l'|t l'|a']; simpl in *; [by subst|done..].
    + by destruct Hf as (_ & c' & ? & _).
Qed.

Lemma rep_new_cell m S c (y : Cell V) : rep m S → fresh_in (cell_of (stat S)) c = true →
  rep (set_mcells (<[c := y]> (cells m)) m)
    (MkDSpec (set_cells (<[c := cell_tie y]> (cell_of (stat S))) (stat S)) (<[PCell c := cell_value y]> (pvals S)) (rvals S)).
Proof.
  intros Hrep Hf. pose proof (rp_inv _ _ Hrep) as Hi. split; cbn [stat pvals rvals set_mcells locks cells].
  - by apply si_new_cell.
  - intros l Hl. rewrite lookup_insert_ne by done. by apply (rp_lock _ _ Hrep).
  - intros c' t. cbn [set_cells cell_of]. intros [[<- <-]|[Hne Hc]]%lookup_insert_Some.
    + exists y. by rewrite !lookup_insert_eq.
    + rewrite !lookup_insert_ne by congruence. by apply (rp_cell _ _ Hrep).
  - apply (refs_frame m S); [done|]. intros r b Hr. rewrite lookup_insert_ne; [done|].
    intros Hp. destruct (borrow_cell _ _ _ _ Hi Hr (eq_sym Hp)). apply fresh_in_true in Hf. congruence.
Qed.

Lemma sim_new_cell m S c l v : rep m S →
  (permitted (stat S) (DNewLockedBy c l v) = true → sim m S (DNewLockedBy c l v)) ∧
  (permitted (stat S) (DNewGlobalLockedBy c l v) = true → sim m S (DNewGlobalLockedBy c l v)).
Proof.
  intros Hrep. unfold sim. cbn [permitted spec_exec data_exec stat_after]. split.
  - intros [Hf Hl]%andb_prop. destruct (lk_at (stat S) !! l) as [[a g]|]; [|done]. eexists. split; [done|].
    by apply (rep_new_cell m S c (CLocked (locked_by_new a v))).
  - intros [Hf _]%andb_prop. eexists. split; [done|].
    by apply (rep_new_cell m S c (CGlobal (global_locked_by_new l v))).
Qed.

Lemma sim_drop_cell m S c : rep m S → permitted (V:=V) (stat S) (DDropCell c) = true → sim m S (DDropCell c).
Proof.
  intros Hrep [_ Hu]%andb_prop. unfold sim. cbn [spec_exec data_exec]. eexists. split; [done|].
  pose proof (rp_inv _ _ Hrep) as Hi. split; cbn [stat pvals rvals set_pv set_mcells locks cells stat_after].
  - by apply si_drop_cell.
  - intros l Hl. rewrite lookup_delete_ne by done. by apply (rp_lock _ _ Hrep).
  - intros c' t. cbn [set_cells cell_of]. intros [Hne Hc]%lookup_delete_Some. rewrite !lookup_delete_ne by congruence.
    by apply (rp_cell _ _ Hrep).
  - apply (refs_frame m S); [done|]. intros r b Hr. rewrite lookup_delete_ne; [done|]. intros Hp.
    apply bool_decide_eq_true in Hu. by apply (Hu _ _ Hr).
Qed.

(** Values outside of locks. *)
Lemma rep_stat m S s' : rep m S → lk_at s' = lk_at (stat S) → cell_of s' = cell_of (stat S) →
  borrows s' = borrows (stat S) → stat_inv s' →
  (∀ l t k, handles s' !! k = Some (HGuard t l) ↔ handles (stat S) !! k = Some (HGuard t l)) →
  rep m (MkDSpec s' (pvals S) (rvals S)).
Proof.
  intros [Hi Hl Hc Hr] E1 E2 E3 Hi' Hg. split; cbn [stat pvals rvals]; [done|..].
  - intros l Hl'. rewrite E1 in Hl'. destruct (Hl l Hl') as (x' & Hx' & (st & Est & Hst) & Hd'). exists x'.
    split_and!; [done| |done]. exists st. split; [done|].
    intros t. rewrite Hst. split; intros [k Hk]; exists k; by apply Hg.
  - rewrite E2. apply Hc.
  - rewrite E3. apply Hr.
Qed.

Lemma sim_plain m S k a : rep m S →
  (permitted (V:=V) (stat S) (DNewPlain k a) = true → sim m S (DNewPlain k a)) ∧
  (permitted (V:=V) (stat S) (DDropPlain k) = true → sim m S (DDropPlain k)).
Proof.
  intros Hrep. pose proof (rp_inv _ _ Hrep) as Hi. unfold sim. cbn [permitted spec_exec data_exec stat_after]. split.
  - intros [Hf%fresh_in_true Ha]%andb_prop. eexists. split; [done|]. apply rep_stat; try done.
    + apply si_set_handle; try done; [|by intros a' [= <-]]. intros r b Hr. eapply no_borrow; try done. congruence.
    + intros l t k'. cbn [set_handles handles]. rewrite lookup_insert_Some. split; [by intros [[_ ?]|[_ ?]]|].
      intros Hk'. right. split; congruence.
  - destruct (handles (stat S) !! k) as [[t l|t l|a']|] eqn:Hk; try done. intros Hu. eexists. split; [done|].
    apply rep_stat; try done; [by apply si_delete_handle|].
    intros l t k'. cbn [set_handles handles]. rewrite lookup_delete_Some. split; [tauto|]. intros Hk'. split; congruence.
Qed.

(** References. *)
Lemma place_value m S k h p : rep m S → handles (stat S) !! k = Some h → reaches (stat S) h p → is_Some (pvals S !! p).
Proof.
  intros Hrep Hk Hp. destruct p as [l|c]; simpl in Hp.
  - destruct h as [t l'|t l'|a]; simpl in Hp; [|done..]. subst l'.
    destruct (rp_lock _ _ Hrep l) as (x & _ & _ & ->); [|done]. by eapply (si_live _ (rp_inv _ _ Hrep)).
  - destruct (cell_of (stat S) !! c) as [t|] eqn:Ec; [|done]. by destruct (rp_cell _ _ Hrep _ _ Ec) as (x & _ & _ & ->).
Qed.

Lemma rep_refer m S r b : rep m S → stat_inv (add_borrow r b (stat S)) → is_Some (pvals S !! bw_place b) →
  rep m (MkDSpec (add_borrow r b (stat S)) (pvals (refer S r (bw_place b))) (rvals (refer S r (bw_place b)))).
Proof.
  intros [Hi Hl Hc Hr] Hi' [v Hv]. unfold refer. rewrite Hv. split; cbn [stat pvals rvals set_rv]; try done.
  intros r'. cbn [add_borrow set_borrows borrows]. destruct (decide (r' = r)) as [->|Hne].
  - by rewrite !lookup_insert_eq.
  - rewrite !lookup_insert_ne by done. apply Hr.
Qed.

Lemma make_ref_ok m S r k h p e : rep m S → handle_usable (stat S) e k = true → handles (stat S) !! k = Some h →
  reaches (stat S) h p → (∀ c, p = PCell c → cell_usable (stat S) c = true) →
  make_ref (V:=V) (borrows (stat S)) e p m = Done (tt, m) ∧
  rep m (MkDSpec (add_borrow r (MkBorrow (Some k) p e) (stat S)) (pvals (refer S r p)) (rvals (refer S r p))).
Proof.
  intros Hrep Hu Hk Hp Hc. pose proof (rp_inv _ _ Hrep) as Hi. split.
  - unfold make_ref. by rewrite (no_race _ _ _ _ _ Hi Hu Hk Hp Hc).
  - apply (rep_refer m S r (MkBorrow (Some k) p e)); [done|by eapply si_borrow|by eapply place_value].
Qed.

Lemma sim_deref m S r k e : rep m S → permitted (V:=V) (stat S) (DDeref r k e) = true → sim m S (DDeref r k e).
Proof.
  intros Hrep [[_ Hg]%andb_prop Hu]%andb_prop. unfold sim. cbn [spec_exec data_exec stat_after].
  destruct (handles (stat S) !! k) as [[t l|t l|a]|] eqn:Hk; try done.
  destruct (make_ref_ok m S r k _ (PLock l) e Hrep Hu Hk) as [Hm Hr]; [done..|]. rewrite dbind_run, Hm. eauto.
Qed.

Lemma same_cells m c (y : Cell V) : cells m !! c = Some y → set_mcells (<[c := y]> (cells m)) m = m.
Proof. intros Hy. unfold set_mcells. rewrite insert_id by done. by destruct m. Qed.

Lemma lb_access_run (B : borrow_map) (e : bool) c owner (lb : LockedBy V) m :
  lb_access B e c owner lb m = if bool_decide (owner = lb_owner lb) then make_ref B e (PCell c) m else Panic.
Proof.
  unfold lb_access. rewrite dbind_run. unfold lift, locked_by_access, locked_by_access_mut.
  case_bool_decide as Ho.
  - rewrite Ho, Z.eqb_refl. by destruct e.
  - rewrite (proj2 (Z.eqb_neq _ _) Ho). by destruct e.
Qed.

Lemma sim_access m S r k c e : rep m S → permitted (V:=V) (stat S) (DAccess r k c e) = true → sim m S (DAccess r k c e).
Proof.
  intros Hrep [[[_ Hu]%andb_prop Hcu]%andb_prop Hty]%andb_prop. unfold sim. cbn [spec_exec data_exec stat_after].
  destruct (cell_of (stat S) !! c) as [t|] eqn:Ec; [|done].
  destruct (rp_cell _ _ Hrep _ _ Ec) as (y & Hy & Ht & _).
  rewrite dbind_run, (at_cell_run c y) by done. simpl. rewrite (same_cells _ _ _ Hy).
  destruct (handles (stat S) !! k) as [h|] eqn:Hk; [|by destruct t].
  destruct y as [lb|gl]; simpl in Ht; subst t; simpl.
  - assert (is_Some (handle_addr (stat S) h)) as [owner Ho].
    { destruct h as [t l|t l|a]; simpl; [|done..].
      destruct (si_live _ (rp_inv _ _ Hrep) _ _ _ Hk eq_refl) as [[? ?] ->]. done. }
    rewrite Ho, dbind_run, lb_access_run. case_bool_decide as Hb.
    + rewrite bool_decide_true by congruence.
      destruct (make_ref_ok m S r k h (PCell c) e Hrep Hu Hk) as [Hm Hr].
      * simpl. rewrite Ec. congruence.
      * by intros c' [= <-].
      * rewrite Hm. eauto.
    + by rewrite bool_decide_false by congruence.
  - destruct h as [t l|t l|a]; [|done..]. apply Nat.eqb_eq in Hty.
    destruct (make_ref_ok m S r k (HGuard t l) (PCell c) e Hrep Hu Hk) as [Hm Hr].
    + simpl. rewrite Ec. done.
    + by intros c' [= <-].
    + rewrite dbind_run. assert ((if e then gl_as_mut (borrows (stat S)) c else gl_as_ref (borrows (stat S)) c) m = Done (tt, m)) as ->
        by (by destruct e). eauto.
Qed.

Lemma sim_get_mut m S r c : rep m S → permitted (V:=V) (stat S) (DGetMut r c) = true → sim m S (DGetMut r c).
Proof.
  intros Hrep [[_ Hu]%andb_prop Hty]%andb_prop. unfold sim. cbn [spec_exec data_exec stat_after].
  destruct (cell_of (stat S) !! c) as [t|] eqn:Ec; [|done].
  unfold gl_get_mut, make_ref. rewrite (no_race_get_mut _ _ Hu), dbind_run. eexists. split; [done|].
  apply (rep_refer m S r (MkBorrow None (PCell c) true)); [done|..].
  - apply si_get_mut; [apply Hrep|done|by rewrite Ec].
  - destruct (rp_cell _ _ Hrep _ _ Ec) as (y & _ & _ & Hd). simpl. by rewrite Hd.
Qed.

(** Their uses. *)
Lemma place_live m S r b : rep m S → borrows (stat S) !! r = Some b →
  match bw_place b with
  | inl l => is_Some (lk_at (stat S) !! l)
  | inr c => is_Some (cell_of (stat S) !! c)
  end.
Proof.
  intros Hrep Hr. pose proof (rp_inv _ _ Hrep) as Hi. destruct (bw_place b) eqn:E; [by eapply borrow_lock|by eapply borrow_cell].
Qed.

Lemma same_lock m S l x : rep m S → locks m !! l = Some x → lock_rep (stat S) l x →
  ∃ st, any_state x = Some st ∧ put_inner x (MkLock st (any_data x)) = x.
Proof. intros _ _ (st & Est & _). exists st. split; [done|]. destruct x as [[st' d]|[st' d]]; simpl in *; congruence. Qed.

Lemma place_read_run m S r b : rep m S → borrows (stat S) !! r = Some b →
  ∃ v, place_read (bw_place b) m = Done (v, m) ∧ rvals S !! r = Some v.
Proof.
  intros Hrep Hr. pose proof (place_live _ _ _ _ Hrep Hr) as Hl. rewrite (rp_refs _ _ Hrep r), Hr. simpl.
  destruct (bw_place b) as [l|c]; simpl.
  - destruct (rp_lock _ _ Hrep l Hl) as (x & Hx & Hxr & ->). destruct (same_lock m S l x Hrep Hx Hxr) as (st & Est & Hs).
    exists (any_data x). split; [|done]. rewrite (at_lock_run l x) by done. unfold any_read.
    rewrite (on_inner_run _ x st Est). simpl. rewrite Hs. unfold set_mlocks. rewrite insert_id by done. by destruct m.
  - destruct Hl as [t Ht]. destruct (rp_cell _ _ Hrep _ _ Ht) as (y & Hy & _ & ->).
    exists (cell_value y). split; [|done]. rewrite (at_cell_run c y) by done. simpl. by rewrite same_cells.
Qed.

Lemma place_write_run m S r b v : rep m S → borrows (stat S) !! r = Some b → bw_mut b = true →
  ∃ m', place_write (bw_place b) v m = Done (tt, m') ∧
    rep m' (MkDSpec (stat S) (<[bw_place b := v]> (pvals S)) (<[r := v]> (rvals S))).
Proof.
  intros Hrep Hr Hm. pose proof (place_live _ _ _ _ Hrep Hr) as Hl. pose proof (rp_inv _ _ Hrep) as Hi.
  assert (∀ r', <[r := v]> (rvals S) !! r' = borrows (stat S) !! r' ≫= λ b', <[bw_place b := v]> (pvals S) !! bw_place b') as Hrefs.
  { intros r'. destruct (decide (r' = r)) as [->|Hne].
    - rewrite Hr. simpl. by rewrite !lookup_insert_eq.
    - rewrite lookup_insert_ne, (rp_refs _ _ Hrep) by done. destruct (borrows (stat S) !! r') as [b'|] eqn:Hr'; [|done].
      simpl. rewrite lookup_insert_ne; [done|]. intros Hp. by destruct Hne; eapply (borrow_exclusive _ r r' b b'). }
  destruct (bw_place b) as [l|c] eqn:Eb; simpl.
  - destruct (rp_lock _ _ Hrep l Hl) as (x & Hx & (st & Est & Hst) & Hd).
    rewrite (at_lock_run l x) by done. unfold any_write. rewrite (on_inner_run _ x st Est). simpl.
    eexists. split; [done|]. split; cbn [stat pvals rvals set_mlocks locks cells]; [done| | |done].
    + intros l' Hl'. destruct (decide (l' = l)) as [->|Hne].
      * eexists. rewrite !lookup_insert_eq. split; [done|]. rewrite put_inner_data. split; [|done].
        exists st. by rewrite put_inner_state.
      * rewrite !lookup_insert_ne by congruence. by apply (rp_lock _ _ Hrep).
    + intros c t Hc. rewrite lookup_insert_ne by done. by apply (rp_cell _ _ Hrep).
  - destruct Hl as [t Ht]. destruct (rp_cell _ _ Hrep _ _ Ht) as (y & Hy & Hty & _).
    rewrite (at_cell_run c y) by done. simpl.
    eexists. split; [done|]. split; cbn [stat pvals rvals set_mcells locks cells]; [done| | |done].
    + intros l Hl. rewrite lookup_insert_ne by done. by apply (rp_lock _ _ Hrep).
    + intros c' t' Hc. destruct (decide (c' = c)) as [->|Hne].
      * eexists. rewrite !lookup_insert_eq. split; [done|]. rewrite Ht in Hc. injection Hc as <-. by destruct y.
      * rewrite !lookup_insert_ne by congruence. by apply (rp_cell _ _ Hrep).
Qed.

Lemma sim_read m S r : rep m S → permitted (V:=V) (stat S) (DRead r) = true → sim m S (DRead r).
Proof.
  intros Hrep [b Hr]%fresh_in_false. unfold sim. cbn [spec_exec data_exec stat_after].
  destruct (place_read_run _ _ _ _ Hrep Hr) as (v' & Hv & ->). rewrite Hr. simpl. rewrite dbind_run, Hv. destruct S. eauto.
Qed.

Lemma sim_write m S r v : rep m S → permitted (stat S) (DWrite r v) = true → sim m S (DWrite r v).
Proof.
  intros Hrep. unfold sim. cbn [permitted spec_exec data_exec stat_after].
  destruct (borrows (stat S) !! r) as [b|] eqn:Hr; [|done]. intros Hm.
  destruct (place_write_run _ _ _ _ v Hrep Hr Hm) as (m' & Hw & Hr'). simpl. rewrite dbind_run, Hw. eauto.
Qed.

Lemma sim_end m S r : rep m S → sim m S (DEnd r).
Proof.
  intros [Hi Hl Hc Hr]. unfold sim. cbn [spec_exec data_exec stat_after]. eexists. split; [done|].
  split; cbn [stat pvals rvals set_rv]; try done; [by apply si_end|].
  intros r'. cbn [set_borrows borrows]. destruct (decide (r' = r)) as [->|Hne]; [by rewrite !lookup_delete_eq|].
  by rewrite !lookup_delete_ne.
Qed.

Lemma sim_exec m S op : rep m S → permitted (stat S) op = true → sim m S op.
Proof.
  intros Hrep. destruct op as [l a d|l a d|l|k a|k|c l v|c l v|c|k t l|k t l|k|k|k|r k e|r k c e|r c|r|r v|r]; intros Hp.
  - by eapply (proj1 (sim_new_lock m S l a d Hrep Hp)).
  - by eapply (proj2 (sim_new_lock m S l a d Hrep Hp)).
  - by apply sim_drop_lock.
  - by apply (proj1 (sim_plain m S k a Hrep)).
  - by apply (proj2 (sim_plain m S k 0 Hrep)).
  - by apply (proj1 (sim_new_cell m S c l v Hrep)).
  - by apply (proj2 (sim_new_cell m S c l v Hrep)).
  - by apply sim_drop_cell.
  - by apply sim_lock.
  - by apply sim_try_lock.
  - by apply sim_unlock.
  - by apply sim_sleep.
  - by apply sim_wake.
  - by apply sim_deref.
  - by apply sim_access.
  - by apply sim_get_mut.
  - by apply sim_read.
  - by apply sim_write.
  - by apply sim_end.
Qed.

Lemma data_step_ok m S op : rep m S →
  match spec_step S op with
  | Some (o, S') => ∃ m', data_step (stat S) op m = Done ((stat S', o), m') ∧ rep m' S'
  | None => data_step (stat S) op m = Panic
  end.
Proof.
  intros Hrep. unfold data_step, spec_step. destruct (permitted (stat S) op) eqn:Hp; [|by exists m].
  pose proof (sim_exec m S op Hrep Hp) as Hs. unfold sim in Hs. rewrite dbind_run.
  destruct (spec_exec S op) as [[o S']|]; simpl; [|by rewrite Hs]. destruct Hs as (m' & -> & Hr). eauto.
Qed.

Lemma data_run_ok ops m S : rep m S →
  match spec_run S ops with
  | Some (os, S') => ∃ m', data_run (stat S) ops m = Done ((stat S', os), m') ∧ rep m' S'
  | None => data_run (stat S) ops m = Panic
  end.
Proof.
  revert m S. induction ops as [|op ops IH]; intros m S Hrep; cbn [spec_run data_run]; [by exists m|].
  pose proof (data_step_ok m S op Hrep) as Hs. rewrite dbind_run.
  destruct (spec_step S op) as [[o S']|]; simpl; [|by rewrite Hs]. destruct Hs as (m' & -> & Hr').
  specialize (IH m' S' Hr'). rewrite dbind_run.
  destruct (spec_run S' ops) as [[os S'']|]; simpl; [|by rewrite IH]. destruct IH as (m'' & -> & Hr''). by exists m''.
Qed.

(** The only panic is that of [access] and [access_mut] with the wrong owner. *)
Definition wrong_owner s (op : DataOp V) : Prop :=
  ∃ r k c e a, op = DAccess r k c e ∧ permitted s op = true ∧ cell_of s !! c = Some (TAddr a) ∧
    handles s !! k ≫= handle_addr s ≠ Some a.

Lemma spec_step_panic m S op : rep m S → spec_step S op = None → wrong_owner (stat S) op.
Proof.
  intros Hrep. unfold spec_step. destruct (permitted (stat S) op) eqn:Hp; [|done].
  destruct (spec_exec S op) as [[o S']|] eqn:He; [done|]. intros _.
  destruct op as [l a d|l a d|l|k a|k|c l v|c l v|c|k t l|k t l|k|k|k|r k e|r k c e|r c|r|r v|r];
    cbn [spec_exec] in He; try done.
  - cbn [permitted] in Hp. by destruct (handles (stat S) !! k) as [[]|].
  - cbn [permitted] in Hp. apply andb_prop in Hp as [[_ Hp]%andb_prop _].
    by destruct (handles (stat S) !! k) as [[]|].
  - destruct (cell_of (stat S) !! c) as [[a|l]|] eqn:Ec; [|done..].
    case_bool_decide as Ho; [done|]. by exists r, k, c, e, a.
  - cbn [permitted] in Hp. apply fresh_in_false in Hp as [b Hb].
    destruct (place_read_run _ _ _ _ Hrep Hb) as (v & _ & E). by rewrite E in He.
  - cbn [permitted] in Hp. by destruct (borrows (stat S) !! r).
Qed.

Lemma spec_run_panic ops m S : rep m S → spec_run S ops = None →
  ∃ ops1 op ops2 os S', ops = ops1 ++ op :: ops2 ∧ spec_run S ops1 = Some (os, S') ∧ wrong_owner (stat S') op.
Proof.
  revert m S. induction ops as [|op ops IH]; intros m S Hrep; cbn [spec_run]; [done|].
  pose proof (data_step_ok m S op Hrep) as Hs. destruct (spec_step S op) as [[o S']|] eqn:Es; simpl.
  - destruct Hs as (m' & _ & Hr'). destruct (spec_run S' ops) as [[os S'']|] eqn:Er; simpl; [done|]. intros _.
    destruct (IH m' S' Hr' Er) as (ops1 & op' & ops2 & os & S'' & -> & Hr & Hw).
    exists (op :: ops1), op', ops2, (o :: os), S''. split; [done|]. cbn [spec_run]. rewrite Es. simpl. by rewrite Hr.
  - intros _. exists [], op, ops, [], S. split_and!; [done..|]. by eapply spec_step_panic.
Qed.
End Refine.

Definition stat_init : Stat := MkStat ∅ ∅ ∅ ∅.
Definition dspec_init {V} : DSpec V := MkDSpec stat_init ∅ ∅.
Definition mem_init `{Backend} {V} : Mem V := MkMem ∅ ∅.

Lemma data_rep_init `{!Backend, !BackendOk _} {V} : rep (mem_init (V:=V)) dspec_init.
Proof.
  split; cbn [stat dspec_init stat_init lk_at cell_of handles borrows pvals rvals].
  - split; cbn [lk_at cell_of handles borrows]; intros; by simplify_map_eq.
  - intros l [? ?]. by simplify_map_eq.
  - intros c t ?. by simplify_map_eq.
  - intros r. by simplify_map_eq.
Qed.

(** C39: Data behind locks. With any lock backend that keeps its contract, threads take and
    release locks and global locks, sleep inside [do_unlocked], make references to the data
    through guards, [LockedBy::access] and [access_mut], [GlobalLockedBy::as_ref], [as_mut]
    and [get_mut], read and write through them, and drop and reallocate locks and values, in
    any order that the types and the borrow checker allow. The code never has undefined
    behaviour: no reference conflicts with a live one and no lock is used after it is gone.
    It does what the specification says, in which a lock is held exactly while it has a guard
    and each reference has a value of its own: the values that are read are the same. In the
    end a lock has at most one guard, a mutable reference is the only one to its place, and
    every reference reads its own value. A run panics only where an owner is given to [access]
    that does not lie where the data of the lock of the [LockedBy] lay, and it does panic
    there. *)
Theorem locked_data_protected `{!Backend, !BackendOk _} {V} (ops : list (DataOp V)) :
  match spec_run dspec_init ops with
  | Some (os, D) => ∃ m, data_run stat_init ops mem_init = Done ((stat D, os), m) ∧
      (∀ k k' t t' l, handles (stat D) !! k = Some (HGuard t l) → handles (stat D) !! k' = Some (HGuard t' l) → k' = k) ∧
      (∀ r r' b b', borrows (stat D) !! r = Some b → borrows (stat D) !! r' = Some b' → bw_place b' = bw_place b →
        bw_mut b = true → r' = r) ∧
      (∀ r b, borrows (stat D) !! r = Some b → ∃ v, rvals D !! r = Some v ∧ place_read (bw_place b) m = Done (v, m))
  | None => data_run stat_init ops mem_init = Panic ∧
      ∃ ops1 op ops2 os D, ops = ops1 ++ op :: ops2 ∧ spec_run dspec_init ops1 = Some (os, D) ∧ wrong_owner (stat D) op
  end.
Proof.
  pose proof (data_run_ok ops mem_init dspec_init data_rep_init) as Hr.
  pose proof (spec_run_panic ops mem_init dspec_init data_rep_init) as Hp.
  destruct (spec_run dspec_init ops) as [[os D]|]; [|by split; auto]. destruct Hr as (m & Hm & Hrep). exists m.
  split; [done|]. pose proof (rp_inv _ _ Hrep) as Hi. split_and!.
  - intros k k' t t' l Hk Hk'. by eapply (si_guard _ Hi).
  - intros r r' b b' Hr Hr' Hpl Hmu. by eapply borrow_exclusive.
  - intros r b Hb. destruct (place_read_run _ _ _ _ Hrep Hb) as (v & ? & ?). eauto.
Qed.

(** A file of a directory, as in the documentation of [LockedBy]; the directory goes away and
    another value is allocated in its place. *)
Definition files_prog : list (DataOp nat) := [
  DNewLock 0 4096 1%nat; DNewLockedBy 0 0 10%nat;
  DLock 0 1 0; DTryLock 1 2 0;
  DAccess 0 0 0 true; DWrite 0 11%nat; DDeref 1 0 true; DEnd 0; DDeref 1 0 true; DWrite 1 2%nat; DEnd 1;
  DSleep 0; DLock 1 2 0; DWake 0; DAccess 2 1 0 false; DAccess 3 1 0 false; DRead 2; DRead 3; DEnd 2; DUnlock 1;
  DEnd 3; DUnlock 1; DWake 0; DDeref 4 0 false; DRead 4; DEnd 4; DUnlock 0;
  DDropLock 0; DNewPlain 2 4096; DAccess 5 2 0 true; DWrite 5 12%nat; DRead 5; DEnd 5; DDropPlain 2;
  DNewGlobal 1 4096 7%nat; DNewGlobalLockedBy 1 1 20%nat; DGetMut 6 1; DLock 3 1 1; DAccess 7 3 1 true; DWrite 6 21%nat;
  DEnd 6; DAccess 7 3 1 false; DRead 7
].

Example files_run :
  fst <$> spec_run dspec_init files_prog = Some [
    DUnit; DUnit;
    DUnit; DBool false;
    DUnit; DUnit; DSkip; DUnit; DUnit; DUnit; DUnit;
    DUnit; DUnit; DBlocked; DUnit; DUnit; DVal 11%nat; DVal 11%nat; DUnit; DSkip;
    DUnit; DUnit; DUnit; DUnit; DVal 2%nat; DUnit; DUnit;
    DUnit; DUnit; DUnit; DUnit; DVal 12%nat; DUnit; DUnit;
    DUnit; DUnit; DUnit; DUnit; DSkip; DUnit;
    DUnit; DUnit; DVal 21%nat] ∧
  match data_run (H := MutexBackend owner_lock) stat_init files_prog mem_init with
  | Done (_, os, _) => Some os = fst <$> spec_run dspec_init files_prog
  | _ => False
  end ∧
  data_run (H := MutexBackend owner_lock) stat_init
    [DNewLock 0 4096 1%nat; DNewLockedBy 0 0 10%nat; DNewLock 1 8192 1%nat; DLock 0 1 1; DAccess 0 0 0 false] mem_init = Panic.
Proof. vm_compute. auto. Qed.

Lemma locked_data_protected_witness :
  ∃ s os m, data_run (H := MutexBackend owner_lock) stat_init files_prog mem_init = Done ((s, os), m) ∧
    Some os = fst <$> spec_run dspec_init files_prog.
Proof.
  pose proof (locked_data_protected (H := MutexBackend owner_lock) files_prog) as Hr.
  destruct (spec_run dspec_init files_prog) as [[os D]|] eqn:E; [|vm_compute in E; discriminate].
  destruct Hr as (m & Hm & _). exists (stat D), os, m. split; [exact Hm|reflexivity].
Defined.
