(* ===== verification/Workqueue.v ===== *)
(** * Work items ([rust/src/workqueue.rs])

    A work item is handed to the kernel as the address of the [work_struct] inside it,
    and comes back as that address when a worker runs it. In between the kernel owns
    what the pointer type owned: a reference of an [Arc], or a box. The model composes
    the code of this file with that of [Arc] and [KBox]; the queues are the kernel's and
    a parameter ([Workqueues]). A type has one field of type [Work] here, so [ID] is
    fixed. *)

From S2P Require Import Prelude Errors Alloc KVec KBox Arc UAccess.

(** ** The kernel's queues *)

Definition WORK_CPU_UNBOUND : Z := 256.

(** [next_work]: the item that a worker takes next, of whichever queue. *)
Class Workqueues (Q : Type) := {
  queue_work_on : Z → Z → Z → Q → bool * Q;
  next_work : Q → option (Z * Q);
  pending : Q → gset Z
}.

(** The documented behaviour: an item that is pending on some queue is refused, any other
    is queued; a worker takes a pending item, in no particular order, and there is one as
    long as some item is pending. *)
Class WorkqueuesSpec (Q : Type) `{Workqueues Q} : Prop := {
  queue_fresh : ∀ cpu wq w q, w ∉ pending q →
    ∃ q', queue_work_on cpu wq w q = (true, q') ∧ pending q' = {[w]} ∪ pending q;
  queue_again : ∀ cpu wq w q, w ∈ pending q →
    ∃ q', queue_work_on cpu wq w q = (false, q') ∧ pending q' = pending q;
  next_idle : ∀ q, pending q = ∅ → next_work q = None;
  next_some : ∀ q, pending q ≠ ∅ → ∃ w q', next_work q = Some (w, q') ∧ w ∈ pending q ∧
    pending q' = pending q ∖ {[w]}
}.

(** [HasWork]: where the [Work] field is. *)
Class HasWork (D : Type) := OFFSET : Z.
Arguments OFFSET D {_}.

Section Pointers.
Context (D : Type) {HW : HasWork D}.

Definition raw_get_work (ptr : Z) : Z := ptr + OFFSET D.
Definition work_container_of (ptr : Z) : Z := ptr - OFFSET D.
(** [Work] is [repr(transparent)]. *)
Definition work_raw_get (ptr : Z) : Z := ptr.
End Pointers.

(** ** Shared items: [Arc] *)

Section ArcWork.
Context {D : Type} {RD : RType D} {RC : Refcount} {AL : Allocator (ArcInner D)} {TD : Tracked D}.
Context {HW : HasWork D} {Q : Type} {WQ : Workqueues Q}.
Local Abbreviation WM := (M (St (ArcInner D) unit * Q)).

(** The closure that [Queue::enqueue] passes to [__enqueue]. *)
Definition queue_work {S} (queue_ptr work_ptr : Z) : M (S * Q) bool :=
  on_snd (λ q, Done (queue_work_on WORK_CPU_UNBOUND queue_ptr work_ptr q)).

Definition arc_enqueue_raw (queue_work_on : Z → WM bool) (p : Z) : WM (result Z unit) :=
  let ptr := arc_into_raw D p in
  let work_ptr := raw_get_work D ptr in
  let work_ptr := work_raw_get work_ptr in
  b ← queue_work_on work_ptr;
  if b : bool then mret (Ok tt) else q ← on_fst (arc_from_raw ptr); mret (Err q).

Definition arc_enqueue (queue_ptr p : Z) : WM (result Z unit) := arc_enqueue_raw (queue_work queue_ptr) p.

(** [run], up to the call of [T::run], which gets the [Arc]. *)
Definition arc_work_run (ptr : Z) : WM Z :=
  let ptr := work_container_of D ptr in
  on_fst (arc_from_raw ptr).

(** *** Programs

    Any interleaving of steps on references, of enqueues and of workers; what [T::run]
    does with its [Arc] are further steps. *)

Inductive WqOp :=
| WArc (op : ArcOp D)
| WEnqueue (queue : Z) (k : nat)
| WWorker.

Inductive Event :=
| EvEnqueue (k : nat) (w : Z) (accepted : bool)
| EvRun (k : nat) (w : Z).

(** The names that a step mentions. *)
Definition op_keys (op : ArcOp D) : list nat :=
  match op with
  | ANew k _ _ | AUnique k _ _ | AUninit k _ | AWrite k _ | AInitWith k _ | AMut k _ | AShare k | ADeref k
  | ADec k | ARelease k | AIntoUnique k | AClaim k | AForeign k | ARaw k | AList k _ | ATry k _ | AIntoArc k => [k]
  | AClone k k' | APair k k' _ _ | ATryBorrow k k' _ => [k; k']
  end.

(** [own]: the references that the queues own, by the address of the item. The program
    cannot use them. *)
Definition free_keys (own : gmap Z nat) (ks : list nat) : bool :=
  bool_decide (map_Forall (λ _ k, k ∉ ks) own).

Definition wq_step (t : handles) (own : gmap Z nat) (op : WqOp) : WM (handles * gmap Z nat * list Event) :=
  match op with
  | WArc op =>
      if free_keys own (op_keys op) then '(t, _) ← on_fst (arc_step t op); mret (t, own, [])
      else mret (t, own, [])
  | WEnqueue queue k =>
      match t !! k, free_keys own [k] with
      | Some (p, KArc), true =>
          let w := raw_get_work D (arc_into_raw D p) in
          r ← arc_enqueue queue p;
          match r with
          | Ok _ => mret (t, <[w := k]> own, [EvEnqueue k w true])
          | Err q => mret (<[k := (q, KArc)]> t, own, [EvEnqueue k w false])
          end
      | _, _ => mret (t, own, [])
      end
  | WWorker =>
      o ← on_snd (λ q, match next_work q with Some (w, q') => Done (Some w, q') | None => Done (None, q) end);
      match o with
      | None => mret (t, own, [])
      | Some w =>
          p ← arc_work_run w;
          match own !! w with
          | Some k => mret (<[k := (p, KArc)]> t, delete w own, [EvRun k w])
          | None => ub
          end
      end
  end.

Fixpoint wq_run (t : handles) (own : gmap Z nat) (ops : list WqOp) : WM (handles * gmap Z nat * list Event) :=
  match ops with
  | [] => mret (t, own, [])
  | op :: ops =>
      '(t, own, es) ← wq_step t own op;
      '(t, own, es') ← wq_run t own ops;
      mret (t, own, es ++ es')
  end.
End ArcWork.
Arguments WqOp : clear implicits.

(** The specification of a history: an enqueue is refused exactly while the item is
    pending, and every run is that of a pending item, which it ends. The result is what
    is pending in the end. *)
Fixpoint history (own : gmap Z nat) (es : list Event) : option (gmap Z nat) :=
  match es with
  | [] => Some own
  | EvEnqueue k w true :: es => if own !! w is Some _ then None else history (<[w := k]> own) es
  | EvEnqueue _ w false :: es => if own !! w is Some _ then history own es else None
  | EvRun k w :: es => if bool_decide (own !! w = Some k) then history (delete w own) es else None
  end.

Lemma history_app own es es' : history own (es ++ es') = history own es ≫= λ own', history own' es'.
Proof.
  revert own. induction es as [|[k w [|]|k w] es IH]; intros own; simpl; [done|..].
  - destruct (own !! w); [done|apply IH].
  - destruct (own !! w); [apply IH|done].
  - case_bool_decide; [apply IH|done].
Qed.

Section ArcWorkOk.
Context {D : Type} {RD : RType D} {RAok : RTypeOk (ArcInner D)}.
Context {AL : Allocator (ArcInner D)} {ALs : AllocatorSpec (ArcInner D)}.
Context {RC : Refcount} {RCok : RefcountSpec} {TD : Tracked D} {TDok : TrackedOk D}.
Context {HW : HasWork D} {Q : Type} {WQ : Workqueues Q} {WQok : WorkqueuesSpec Q}.
Implicit Types (A : AState D) (own : gmap Z nat) (p w : Z).

(** A step leaves the handles that it does not mention. *)
Lemma arc_spec_frame orc A (op : ArcOp D) A' o k :
  arc_spec orc A op = (A', o) → k ∉ op_keys op → tbl A' !! k = tbl A !! k.
Proof.
  intros Hs Hk.
  destruct op; simpl in *; unfold make, spec_dec, retag, set_data in Hs;
    repeat case_match; simplify_eq/=; rewrite ?lookup_insert_ne, ?lookup_delete_ne by set_solver; done.
Qed.

Definition work_of p : Z := raw_get_work D (arc_into_raw D p).

(** The references in the queues are those of the pending items. *)
Record wq_inv A own (q : Q) : Prop := {
  wi_arc : arc_inv A;
  wi_dom : dom own = pending q;
  wi_own : ∀ w k, own !! w = Some k → ∃ p, tbl A !! k = Some (p, KArc) ∧ w = work_of p
}.

Definition wq_post h0 own (out : handles * gmap Z nat * list Event) (s : St (ArcInner D) unit * Q) : Prop :=
  ∃ A', tbl A' = out.1.1 ∧ wq_inv A' out.1.2 s.2 ∧ mem_rep h0 (mem_of A') (hp s.1) ∧
    history own out.2 = Some out.1.2.

Definition wq_op_ok (op : WqOp D) : Prop := match op with WArc op => arc_op_ok op | _ => True end.

Lemma own_pending A own q w : wq_inv A own q → w ∈ pending q ↔ is_Some (own !! w).
Proof. intros Hi. by rewrite <- (wi_dom _ _ _ Hi), elem_of_dom. Qed.

Lemma step_arc h0 A own q s op : wq_inv A own q → mem_rep h0 (mem_of A) (hp s) → arc_op_ok op →
  wp (wq_step (tbl A) own (WArc op)) (wq_post h0 own) (s, q).
Proof.
  intros Hi Hm Hop. simpl. unfold free_keys. case_bool_decide as Hf.
  2: { apply wp_ret. by exists A. }
  apply wp_bind, wp_on_fst. eapply wp_mono; [apply arc_step_ok; [apply Hi|done]|].
  intros [t o] s' (orc & A' & Hs & Ht & Ho & Hm'). simpl in *. apply wp_ret. exists A'. split_and!; [done| |done|done].
  split; [by eapply arc_spec_inv; [apply Hi|..]|apply Hi|].
  intros w k Hw. destruct (wi_own _ _ _ Hi _ _ Hw) as (p & Hp & ->). exists p. split; [|done].
  rewrite <- Hp. eapply arc_spec_frame; [exact Hs|]. by apply (Hf _ _ Hw).
Qed.

Lemma step_enqueue h0 A own q s wq k : wq_inv A own q → mem_rep h0 (mem_of A) (hp s) →
  wp (wq_step (tbl A) own (WEnqueue wq k)) (wq_post h0 own) (s, q).
Proof.
  intros Hi Hm. simpl. assert (wp (mret (tbl A, own, [])) (wq_post h0 own) (s, q)) as Hskip.
  { apply wp_ret. by exists A. }
  destruct (tbl A !! k) as [[p []]|] eqn:Hk; try done. destruct (free_keys own [k]); [|done].
  fold (work_of p). unfold arc_enqueue, arc_enqueue_raw. fold (work_of p). unfold work_raw_get, queue_work.
  apply wp_bind, wp_bind, wp_on_snd. pose proof (own_pending _ _ _ (work_of p) Hi) as Hp.
  destruct (own !! work_of p) as [k'|] eqn:Hw.
  - destruct (queue_again WORK_CPU_UNBOUND wq (work_of p) q) as (q' & Eq & Hq'); [apply Hp; eauto|].
    exists false, q'. split; [by f_equal|]. apply wp_bind, wp_on_fst. simpl.
    destruct (inv_obj _ _ _ _ (wi_arc _ _ _ Hi) Hk) as (o & Ho & _).
    eapply wp_raw_roundtrip; [exact Hm|eauto|]. apply wp_ret, wp_ret.
    exists A. simpl. rewrite Hw. split_and!; [by rewrite insert_id| |done|done].
    destruct Hi. split; [done|congruence|done].
  - destruct (queue_fresh WORK_CPU_UNBOUND wq (work_of p) q) as (q' & Eq & Hq').
    { intros [? ?]%Hp. done. }
    exists true, q'. split; [by f_equal|]. apply wp_ret, wp_ret. exists A. simpl. rewrite Hw.
    split_and!; [done| |done|done]. destruct Hi as [Ha Hd Ho]. split; [done| |].
    + rewrite dom_insert_L. simpl. congruence.
    + intros w k2. rewrite lookup_insert_Some. intros [[<- <-]|[_ ?]]; eauto.
Qed.

(** A worker runs a pending item, and the [Arc] it gets is the one that was enqueued. *)
Lemma worker_ok h0 A own q s : wq_inv A own q → mem_rep h0 (mem_of A) (hp s) →
  wp (wq_step (tbl A) own WWorker) (λ out s',
    out.1.1 = tbl A ∧ s'.1 = s ∧ wq_inv A out.1.2 s'.2 ∧
    if decide (own = ∅) then out.1.2 = ∅ ∧ out.2 = [] ∧ s'.2 = q
    else ∃ w k, own !! w = Some k ∧ out.1.2 = delete w own ∧ out.2 = [EvRun k w]) (s, q).
Proof.
  intros Hi Hm. simpl. apply wp_bind, wp_on_snd. destruct Hi as [Ha Hd Ho].
  destruct (decide (own = ∅)) as [->|Hne].
  - exists None, q. simpl. rewrite next_idle by (rewrite <- Hd; apply dom_empty_L). split; [done|]. by apply wp_ret.
  - destruct (next_some q) as (w & q' & Hn & Hw & Hq'); [rewrite <- Hd; intros E; apply Hne; by apply dom_empty_inv_L|].
    exists (Some w), q'. simpl. rewrite Hn. split; [done|]. rewrite <- Hd in Hw. apply elem_of_dom in Hw as [k Hw].
    destruct (Ho w k Hw) as (p & Hp & ->). rewrite Hw. unfold arc_work_run.
    apply wp_bind, wp_on_fst. simpl. assert (work_container_of D (work_of p) = arc_into_raw D p) as ->.
    { unfold work_container_of, work_of, raw_get_work. lia. }
    destruct (inv_obj _ _ _ _ Ha Hp) as (o & Hpo & _). eapply wp_raw_roundtrip; [exact Hm|eauto|].
    apply wp_ret. simpl. rewrite insert_id by done. split_and!; [done|done| |eauto].
    split; [done| |].
    + rewrite dom_delete_L. congruence.
    + intros w' k'. rewrite lookup_delete_Some. intros [_ ?]. eauto.
Qed.

Lemma wq_step_ok h0 A own q s op : wq_inv A own q → mem_rep h0 (mem_of A) (hp s) → wq_op_ok op →
  wp (wq_step (tbl A) own op) (wq_post h0 own) (s, q).
Proof.
  intros Hi Hm Hop. destruct op as [op|wq k|]; [by apply step_arc|by apply step_enqueue|].
  eapply wp_mono; [by eapply worker_ok|]. intros [[t own'] es] [s' q'] (Ht & Hs & Hi' & Hc). simpl in *. subst.
  exists A. split_and!; [done|done|done|]. simpl. case_decide.
  - destruct Hc as (-> & -> & _). by subst.
  - destruct Hc as (w & k & Hw & -> & ->). simpl. by rewrite bool_decide_eq_true_2.
Qed.

Lemma wq_run_ok h0 ops : ∀ A own q s, wq_inv A own q → mem_rep h0 (mem_of A) (hp s) → Forall wq_op_ok ops →
  wp (wq_run (tbl A) own ops) (wq_post h0 own) (s, q).
Proof.
  induction ops as [|op ops IH]; intros A own q s Hi Hm Hops; simpl.
  { apply wp_ret. by exists A. }
  apply Forall_cons in Hops as [Hop Hops]. apply wp_bind. eapply wp_mono; [by apply wq_step_ok|].
  intros [[t own1] es] [s1 q1] (A1 & Ht1 & Hi1 & Hm1 & Hh1). simpl in *. subst t. apply wp_bind.
  eapply wp_mono; [by apply IH|]. intros [[t own2] es2] [s2 q2] (A2 & Ht2 & Hi2 & Hm2 & Hh2). simpl in *. subst t.
  apply wp_ret. exists A2. split_and!; [done..|]. simpl. by rewrite history_app, Hh1.
Qed.

Definition run_of (e : Z * nat) : Event := EvRun e.2 e.1.

(** As many workers as items are pending: each item is run once. *)
Lemma drain_ok h0 A s : mem_rep h0 (mem_of A) (hp s) → ∀ n own q, wq_inv A own q → size own = n →
  wp (wq_run (tbl A) own (replicate n WWorker)) (λ out s',
    out.1 = (tbl A, ∅) ∧ s'.1 = s ∧ pending s'.2 = ∅ ∧ out.2 ≡ₚ run_of <$> map_to_list own) (s, q).
Proof.
  intros Hm n. induction n as [|n IH]; intros own q Hi Hn; cbn [replicate wq_run].
  - apply map_size_empty_inv in Hn as ->. apply wp_ret. simpl.
    rewrite <- (wi_dom _ _ _ Hi), dom_empty_L, map_to_list_empty. done.
  - apply wp_bind. eapply wp_mono; [by eapply worker_ok|].
    intros [[t own'] es] [s' q'] (Ht & Hs & Hi' & Hc). cbn [fst snd] in *. subst t s'.
    rewrite decide_False in Hc by (intros ->; by rewrite map_size_empty in Hn).
    destruct Hc as (w & k & Hw & -> & ->). apply wp_bind. eapply wp_mono; [apply IH; [done|]|].
    { rewrite map_size_delete_Some by (by rewrite Hw). lia. }
    intros [[t own2] es2] [s2 q2] (Ht & Hs & Hp & Hl). cbn [fst snd] in *. simplify_eq. apply wp_ret. simpl.
    split_and!; [done..|]. rewrite Hl. rewrite <- (insert_delete_id own w k) at 2 by done.
    rewrite map_to_list_insert by apply lookup_delete_eq. done.
Qed.
End ArcWorkOk.

(** C6: every interleaving of enqueues, workers and other uses of the references runs
    without a panic and without undefined behaviour, on any queues that behave as
    documented. An item is refused exactly while it is pending, and every run is that of
    a pending item. A pending item lies in a live, initialised object. Nothing is
    forgotten: as many workers as there are pending items run each of them once, with
    the very [Arc] that was enqueued, and leave nothing pending. *)
Theorem workqueue_runs_each_once {D} `{RTypeOk D} {AL : Allocator (ArcInner D)} {ALs : AllocatorSpec (ArcInner D)}
    `{RefcountSpec} `{TrackedOk D} `{HasWork D} {Q} `{WorkqueuesSpec Q} (ops : list (WqOp D))
    (s : St (ArcInner D) unit) (q : Q) (Hsize : size_of (ArcInner D) ≤ ISIZE_MAX) (Hh : heap_ok (hp s))
    (Hq : pending q = ∅) (Hops : Forall wq_op_ok ops) :
  ∃ t own es s' q', wq_run ∅ ∅ ops (s, q) = Done ((t, own, es), (s', q')) ∧
    history ∅ es = Some own ∧ dom own = pending q' ∧
    (∀ w k, own !! w = Some k → ∃ p n d, t !! k = Some (p, KArc) ∧ w = work_of p ∧
       slot (hp s') p 0 = Some (MkArcInner n (Some d))) ∧
    ∃ es2 q2, wq_run t own (replicate (size own) WWorker) (s', q') = Done ((t, ∅, es2), (s', q2)) ∧
      es2 ≡ₚ run_of <$> map_to_list own ∧ pending q2 = ∅.
Proof.
  pose proof (ArcInner_type_ok Hsize) as RAok.
  destruct (wq_run_ok (hp s) ops arc_init ∅ q s) as ([[t own] es] & [s' q'] & Hd & A & Ht & Hi & Hm & Hhist);
    [split; [apply inv_empty|by rewrite dom_empty_L|done]|by split|done|].
  simpl in *. subst t. exists (tbl A), own, es, s', q'. split_and!; [done|done|apply Hi| |].
  - intros w k Hw. destruct (wi_own _ _ _ Hi _ _ Hw) as (p & Hp & ->).
    destruct (inv_data _ _ _ _ (wi_arc _ _ _ Hi) Hp) as [d Hpd]; [done|].
    exists p, (rc A p), d. split_and!; [done..|]. by apply (mr_obj _ _ _ Hm p), mem_at.
  - destruct (drain_ok _ _ _ Hm _ _ _ Hi eq_refl) as ([[t2 own2] es2] & [s2 q2] & Hd2 & Ht2 & Hs2 & Hp2 & Hl).
    simpl in *. simplify_eq. exists es2, q2. done.
Qed.

(** ** Boxed items: closures *)

Record ClosureWork (T : Type) := MkClosureWork { func : option T }.
Arguments MkClosureWork {T} _.
Arguments func {T} _.

Section Closures.
Context {T : Type} {RT : RType (ClosureWork T)} {AL : Allocator (ClosureWork T)} {HW : HasWork (ClosureWork T)}.
Context {Q : Type} {WQ : Workqueues Q}.
Local Abbreviation CM := (M (St (ClosureWork T) unit * Q)).

(** [RawWorkItem for Pin<KBox<T>>] *)
Definition box_enqueue_raw (queue_work_on : Z → CM bool) (boxed : Z) : CM unit :=
  let ptr := into_raw boxed in
  let work_ptr := raw_get_work (ClosureWork T) ptr in
  let work_ptr := work_raw_get work_ptr in
  b ← queue_work_on work_ptr;
  if negb b then ub else mret tt.

(** [map_err] replaces every error. *)
Definition try_spawn (queue_ptr : Z) (flags : Flags) (f : T) : CM (result AllocError unit) :=
  r ← on_fst (try_init into_error (init_value (MkClosureWork (Some f))) flags);
  match r with
  | Err _ => mret (Err MkAllocError)
  | Ok b => _ ← box_enqueue_raw (queue_work queue_ptr) b; mret (Ok tt)
  end.

(** [ClosureWork::run]: the closure, which is called, is moved out of the box. *)
Definition closure_run (this : Z) : CM (option T) :=
  c ← on_fst (read this 0);
  _ ← on_fst (write this 0 (MkClosureWork None));
  _ ← on_fst (box_drop this);
  mret (func c).

(** [WorkItemPointer for Pin<KBox<T>>] *)
Definition box_work_run (ptr : Z) : CM (option T) :=
  let ptr := work_container_of (ClosureWork T) ptr in
  boxed ← on_fst (from_raw ptr);
  closure_run boxed.

(** Programs: what was accepted, and what was called. *)
Inductive SpawnOp := SSpawn (queue : Z) (fl : Flags) (f : T) | SWorker.

Definition spawn_step (op : SpawnOp) : CM (list T * list T) :=
  match op with
  | SSpawn queue fl f =>
      r ← try_spawn queue fl f;
      mret (if is_ok r then [f] else [], [])
  | SWorker =>
      o ← on_snd (λ q, match next_work q with Some (w, q') => Done (Some w, q') | None => Done (None, q) end);
      match o with
      | None => mret ([], [])
      | Some w => c ← box_work_run w; mret ([], option_list c)
      end
  end.

Fixpoint spawn_run (ops : list SpawnOp) : CM (list T * list T) :=
  match ops with
  | [] => mret ([], [])
  | op :: ops =>
      '(acc, calls) ← spawn_step op;
      '(acc', calls') ← spawn_run ops;
      mret (acc ++ acc', calls ++ calls')
  end.
End Closures.
Arguments SpawnOp : clear implicits.

Section ClosuresOk.
Context {T : Type} {RT : RType (ClosureWork T)} {RTok : RTypeOk (ClosureWork T)}.
Context {AL : Allocator (ClosureWork T)} {ALs : AllocatorSpec (ClosureWork T)} {HW : HasWork (ClosureWork T)}.
Context {Q : Type} {WQ : Workqueues Q} {WQok : WorkqueuesSpec Q}.
(** A [ClosureWork] holds a [work_struct]. *)
Hypothesis Hz : zst_value (ClosureWork T) = None.
Local Abbreviation Boxes := (gmap nat (Z * bool)).
Local Abbreviation Vals := (gmap nat (option (ClosureWork T))).
Implicit Types (t : Boxes) (v : Vals) (h : gmap Z (block (ClosureWork T))) (q : Q).

Definition wk (b : Z) : Z := raw_get_work (ClosureWork T) b.

(** The boxes are those of the pending items; a box is named by its address. *)
Record spawn_inv h0 t v h q (fs : list T) : Prop := {
  si_rep : boxes_rep h0 t v h;
  si_name : ∀ k b i, t !! k = Some (b, i) → k = Z.to_nat b ∧ i = true;
  si_pend : ∀ w, w ∈ pending q ↔ ∃ k b, t !! k = Some (b, true) ∧ w = wk b;
  si_funcs : (map_to_list v).*2 ≡ₚ (λ f, Some (MkClosureWork (Some f))) <$> fs
}.

Lemma spawn_ok h0 t v q fs s wq fl f : spawn_inv h0 t v (hp s) q fs →
  wp (spawn_step (SSpawn wq fl f)) (λ out s', ∃ t' v' fs',
    spawn_inv h0 t' v' (hp s'.1) s'.2 fs' ∧ out.2 = [] ∧ fs' ≡ₚ out.1 ++ fs) (s, q).
Proof.
  intros [Hr Hn Hp Hf]. simpl. apply wp_bind. unfold try_spawn, try_init.
  apply wp_bind, wp_on_fst, wp_bind, wp_new_uninit.
  - apply Hr.
  - apply wp_ret, wp_ret, wp_ret. simpl. by exists t, v, fs.
  - intros b h' Ha. simpl in Ha. assert (t !! Z.to_nat b = None) as Ht.
    { destruct (t !! Z.to_nat b) as [[b' i]|] eqn:E; [|done]. exfalso.
      pose proof (br_pos _ _ _ _ Hr _ _ _ E) as Hb'. destruct (Hn _ _ _ E) as [Eb _].
      destruct Ha as (Hb & _ & _ & Hfr). assert (b' = b) as -> by lia.
      destruct (br_block _ _ _ _ Hr _ _ _ E Hz) as (_ & bl & Hbl & _). destruct (Hfr Hz) as [? _]. congruence. }
    assert (v !! Z.to_nat b = None) as Hv by (pose proof (rep_view _ _ _ _ (Z.to_nat b) Hr) as Hvw; by rewrite Ht in Hvw).
    pose proof (rep_alloc _ _ _ _ _ _ _ Hr Ht Ha) as Hr'.
    pose proof (lookup_insert_eq t (Z.to_nat b) (b, false)) as Hk.
    pose proof (rep_cell _ _ _ _ _ _ _ (Some (MkClosureWork (Some f))) (Some (MkClosureWork (Some f))) Hr' Hk
      ltac:(auto)) as Hc. rewrite !insert_insert_eq in Hc. simpl in Hc.
    unfold write_init. apply wp_bind. unfold init_value. apply wp_bind, write_put; [by eapply rep_slot_ok|].
    apply wp_ret. unfold assume_init, into_raw. apply wp_bind, wp_from_raw; [apply Ha|]. apply wp_ret.
    apply wp_bind. unfold box_enqueue_raw, queue_work, work_raw_get, into_raw. fold (wk b).
    apply wp_bind, wp_on_snd. simpl.
    destruct (queue_fresh WORK_CPU_UNBOUND wq (wk b) q) as (q' & Eq & Hq').
    { rewrite Hp. intros (k & b' & Hkb & E). assert (b' = b) as -> by (unfold wk, raw_get_work in E; lia).
      destruct (Hn _ _ _ Hkb) as [-> _]. congruence. }
    exists true, q'. split; [by f_equal|]. simpl. apply wp_ret, wp_ret, wp_ret. simpl.
    eexists _, _, (f :: fs). split; [|done]. split; [exact Hc| | |].
    + intros k b' i. rewrite lookup_insert_Some. intros [[<- [= <- <-]]|[_ ?]]; eauto.
    + intros w. rewrite Hq', elem_of_union, elem_of_singleton, Hp. split.
      * intros [->|(k & b' & Hkb & ->)]; [exists (Z.to_nat b), b; by rewrite lookup_insert_eq|].
        exists k, b'. rewrite lookup_insert_ne; [done|congruence].
      * intros (k & b' & Hkb & ->). apply lookup_insert_Some in Hkb as [[_ [= <-]]|[_ ?]]; eauto.
    + rewrite map_to_list_insert by done. simpl. by rewrite Hf.
Qed.

(** The boxes hold the closures that wait. *)
Lemma si_view h0 t v h q fs k b i : spawn_inv h0 t v h q fs → t !! k = Some (b, i) →
  ∃ f, v !! k = Some (Some (MkClosureWork (Some f))) ∧ slot h b 0 = Some (MkClosureWork (Some f)) ∧ f ∈ fs.
Proof.
  intros [Hr Hn Hp Hf] Hk. destruct (Hn _ _ _ Hk) as [_ ->].
  pose proof (rep_view _ _ _ _ k Hr) as Hvw. rewrite Hk in Hvw. destruct Hvw as (c & Hv & Hsl).
  assert (Some c ∈ (map_to_list v).*2) as Hin.
  { apply list_elem_of_fmap. exists (k, Some c). split; [done|]. by apply elem_of_map_to_list. }
  rewrite Hf in Hin. apply list_elem_of_fmap in Hin as (f & [= ->] & ?). eauto.
Qed.

Lemma si_idle h0 t v h q fs : spawn_inv h0 t v h q fs → pending q = ∅ → fs = [].
Proof.
  intros [Hr Hn Hp Hf] E. destruct fs as [|f fs]; [done|]. exfalso.
  assert (Some (MkClosureWork (Some f)) ∈ (map_to_list v).*2) as Hin by (rewrite Hf; simpl; set_solver).
  apply list_elem_of_fmap in Hin as ([k c] & Hc & Hin). simpl in Hc. subst c. apply elem_of_map_to_list in Hin.
  pose proof (rep_view _ _ _ _ k Hr) as Hvw. rewrite Hin in Hvw.
  destruct (t !! k) as [[b []]|] eqn:Et; [|done..]. assert (wk b ∈ pending q) by (apply Hp; eauto). set_solver.
Qed.

(** The end of a box. *)
Lemma si_remove h0 t v h h' q q' fs fs' k b f : spawn_inv h0 t v h q fs → t !! k = Some (b, true) →
  v !! k = Some (Some (MkClosureWork (Some f))) → fs ≡ₚ f :: fs' → pending q' = pending q ∖ {[wk b]} →
  boxes_rep h0 (delete k t) (delete k v) h' → spawn_inv h0 (delete k t) (delete k v) h' q' fs'.
Proof.
  intros [Hr Hn Hp Hf] Hk Hv Hfs Hq' Hr'. split; [done| | |].
  - intros k' b' i. rewrite lookup_delete_Some. intros [_ ?]. eauto.
  - intros w. rewrite Hq', elem_of_difference, elem_of_singleton, Hp. split.
    + intros [(k' & b' & Hkb & ->) Hw]. exists k', b'. rewrite lookup_delete_ne; [done|]. intros <-. congruence.
    + intros (k' & b' & Hkb & ->). apply lookup_delete_Some in Hkb as [Hkk Hkb]. split; [eauto|].
      unfold wk, raw_get_work. intros Eb. assert (b' = b) as -> by lia. apply Hkk.
      by eapply (br_inj _ _ _ _ Hr).
  - rewrite <- (insert_delete_id v k _ Hv), map_to_list_insert, Hfs in Hf by apply lookup_delete_eq.
    by apply Permutation_cons_inv in Hf.
Qed.

Lemma closure_worker_ok h0 t v q fs s : spawn_inv h0 t v (hp s) q fs →
  wp (spawn_step SWorker) (λ out s', ∃ t' v' fs',
    spawn_inv h0 t' v' (hp s'.1) s'.2 fs' ∧ out.1 = [] ∧ fs ≡ₚ out.2 ++ fs' ∧
    length out.2 = Nat.min 1 (length fs)) (s, q).
Proof.
  intros Hi. pose proof (si_rep _ _ _ _ _ _ Hi) as Hr. simpl. apply wp_bind, wp_on_snd.
  destruct (decide (pending q = ∅)) as [E|Hne].
  - exists None, q. simpl. rewrite next_idle by done. split; [done|]. apply wp_ret. exists t, v, fs.
    pose proof (si_idle _ _ _ _ _ _ Hi E). subst fs. split; done.
  - destruct (next_some q Hne) as (w & q' & Hnx & Hw & Hq'). exists (Some w), q'. simpl. rewrite Hnx. split; [done|].
    apply (si_pend _ _ _ _ _ _ Hi) in Hw as (k & b & Hk & ->). destruct (si_view _ _ _ _ _ _ _ _ _ Hi Hk) as (f & Hv & Hsl & Hin).
    apply wp_bind. unfold box_work_run. replace (work_container_of (ClosureWork T) (wk b)) with b
      by (unfold work_container_of, wk, raw_get_work; lia).
    apply wp_bind, wp_on_fst, wp_from_raw; [by eapply (br_pos _ _ _ _ Hr)|]. unfold closure_run.
    apply wp_bind, wp_on_fst. eapply wp_read; [exact Hsl|].
    apply wp_bind, wp_on_fst, write_put; [by eapply rep_slot_ok|]. simpl.
    pose proof (rep_cell _ _ _ _ _ _ _ (Some (MkClosureWork None)) (Some (MkClosureWork None)) Hr Hk ltac:(auto)) as Hc.
    simpl in Hc. rewrite (insert_id t) in Hc by done.
    apply wp_bind, wp_on_fst. unfold box_drop. apply wp_bind. eapply drop_one.
    { eapply (br_val _ _ _ _ Hc); [exact Hk|]. apply lookup_insert_eq. }
    apply wp_uninit_drop; [apply Hc|by eapply (rep_drop_pre _ _ _ (MkSt _ tt []) _ _ _ Hc)|]. simpl.
    apply wp_ret, wp_ret. simpl. pose proof (rep_free _ _ _ _ _ _ _ Hc Hk) as Hfr. rewrite delete_insert_eq in Hfr.
    apply elem_of_Permutation in Hin as [fs' Hfs]. exists (delete k t), (delete k v), fs'.
    split; [by eapply si_remove|]. split_and!; [done|done|]. by rewrite Hfs.
Qed.

Lemma spawn_run_ok h0 ops : ∀ t v q fs s, spawn_inv h0 t v (hp s) q fs →
  wp (spawn_run ops) (λ out s', ∃ t' v' fs',
    spawn_inv h0 t' v' (hp s'.1) s'.2 fs' ∧ out.2 ++ fs' ≡ₚ out.1 ++ fs) (s, q).
Proof.
  induction ops as [|op ops IH]; intros t v q fs s Hi.
  { apply wp_ret. exists t, v, fs. done. }
  change (spawn_run (op :: ops)) with ('(acc, calls) ← spawn_step op; '(acc', calls') ← spawn_run ops;
    mret (M := M (St (ClosureWork T) unit * Q)) (acc ++ acc', calls ++ calls')). apply wp_bind.
  eapply (wp_mono _ (λ out s', ∃ t' v' fs',
    spawn_inv h0 t' v' (hp s'.1) s'.2 fs' ∧ out.2 ++ fs' ≡ₚ out.1 ++ fs)).
  { destruct op as [wq fl f|].
    - eapply wp_mono; [by eapply spawn_ok|]. intros [a c] s' (t' & v' & fs' & ? & Hc & ?). simpl in *. subst c. eauto 6.
    - eapply wp_mono; [by eapply closure_worker_ok|]. intros [a c] s' (t' & v' & fs' & ? & Ha & Hl & _).
      simpl in *. subst a. exists t', v', fs'. by rewrite Hl. }
  intros [a c] [s1 q1] (t1 & v1 & fs1 & Hi1 & Hl1). simpl in *. apply wp_bind.
  eapply wp_mono; [by eapply IH|]. intros [a2 c2] [s2 q2] (t2 & v2 & fs2 & Hi2 & Hl2). simpl in *.
  apply wp_ret. exists t2, v2, fs2. split; [done|]. simpl. rewrite <- (assoc_L (++)), Hl2.
  rewrite (assoc_L (++)), (Permutation_app_comm c a2), <- (assoc_L (++)), Hl1, (assoc_L (++)).
  by rewrite (Permutation_app_comm a2 a).
Qed.

Lemma spawn_drain_ok h0 n : ∀ t v q fs s, spawn_inv h0 t v (hp s) q fs → length fs = n →
  wp (spawn_run (replicate n SWorker)) (λ out s', out.1 = [] ∧ out.2 ≡ₚ fs ∧ hp s'.1 = h0 ∧ pending s'.2 = ∅) (s, q).
Proof.
  induction n as [|n IH]; intros t v q fs s Hi Hn; cbn [replicate spawn_run].
  - apply nil_length_inv in Hn as ->. apply wp_ret. destruct Hi as [Hr Hna Hp Hf]. simpl in *.
    apply Permutation_nil_r, fmap_nil_inv, map_to_list_empty_iff in Hf. subst v.
    assert (t = ∅) as ->.
    { apply map_eq. intros k. pose proof (rep_view _ _ _ _ k Hr) as Hv. rewrite lookup_empty in *.
      destruct (t !! k) as [[b []]|]; [by destruct Hv as (? & ? & _)|done|done]. }
    split_and!; [done|done|by eapply rep_empty|]. apply set_eq. intros w. rewrite Hp. set_solver.
  - apply wp_bind. eapply wp_mono; [by eapply closure_worker_ok|].
    intros [a c] [s1 q1] (t1 & v1 & fs1 & Hi1 & Ha & Hl & Hlen). simpl in *. subst a. rewrite Hn in Hlen. simpl in Hlen.
    assert (length fs1 = n). { apply Permutation_length in Hl. rewrite length_app in Hl. lia. }
    apply wp_bind. eapply wp_mono; [by eapply IH|]. intros [a2 c2] [s2 q2] (Ha2 & Hl2 & Hh & Hp). simpl in *.
    subst a2. apply wp_ret. simpl. split_and!; [done|by rewrite Hl2, Hl|done|done].
Qed.
End ClosuresOk.

(** C20: every interleaving of [try_spawn] and workers runs without a panic and without
    undefined behaviour: the work item of a fresh box is never pending, so the
    [unreachable_unchecked] of the boxed [__enqueue] is not reached. Every closure that
    was accepted is called at most once, and exactly once when as many workers as there
    are closures left have run; then every box is freed again. *)
Theorem try_spawn_calls_each_once {T} `{RTypeOk (ClosureWork T)} {AL : Allocator (ClosureWork T)}
    {ALs : AllocatorSpec (ClosureWork T)} `{HasWork (ClosureWork T)} {Q} `{WorkqueuesSpec Q}
    (ops : list (SpawnOp T)) (s : St (ClosureWork T) unit) (q : Q)
    (Hz : zst_value (ClosureWork T) = None) (Hh : heap_ok (hp s)) (Hq : pending q = ∅) :
  ∃ accepted calls s' q', spawn_run ops (s, q) = Done ((accepted, calls), (s', q')) ∧
    ∃ waiting, calls ++ waiting ≡ₚ accepted ∧
      ∃ calls2 s2 q2, spawn_run (replicate (length waiting) SWorker) (s', q') = Done (([], calls2), (s2, q2)) ∧
        calls2 ≡ₚ waiting ∧ hp s2 = hp s ∧ pending q2 = ∅.
Proof.
  destruct (spawn_run_ok Hz (hp s) ops ∅ ∅ q [] s) as ([acc calls] & [s' q'] & Hd & t & v & fs & Hi & Hl).
  { split; [by apply rep_init|done| |done]. rewrite Hq. intros w. split; [set_solver|]. by intros (? & ? & ? & _). }
  simpl in *. rewrite app_nil_r in Hl. exists acc, calls, s', q'. split; [done|]. exists fs. split; [done|].
  destruct (spawn_drain_ok Hz (hp s) _ t v q' fs s' Hi eq_refl) as ([a c] & [s2 q2] & Hd2 & Ha & Hc & Hh2 & Hp2).
  simpl in *. subst a. eauto 8.
Qed.

(** ** Concrete instances *)

(** One queue, first in first out. *)
#[export] Instance fifo_queues : Workqueues (list Z) := {|
  queue_work_on _ _ w q := if decide (w ∈ q) then (false, q) else (true, q ++ [w]);
  next_work q := match q with w :: q => Some (w, filter (.≠ w) q) | [] => None end;
  pending q := list_to_set q
|}.

#[export] Instance fifo_queues_ok : WorkqueuesSpec (list Z).
Proof.
  split; simpl.
  - intros _ _ w q Hw. rewrite decide_False by set_solver. eexists. split; [done|]. set_solver.
  - intros _ _ w q Hw. rewrite decide_True by set_solver. eauto.
  - intros [|w q]; [done|]. set_solver.
  - intros [|w q] Hq; [done|]. eexists _, _. split; [done|]. split; [set_solver|].
    apply set_eq. intros x. rewrite elem_of_list_to_set, list_elem_of_filter. set_solver.
Qed.

#[export] Instance Item_work : HasWork Item := 8.

Definition work_demo : list (WqOp Item) :=
  [WArc (ANew 0 (item 5) GFP_KERNEL); WArc (AClone 0 1); WEnqueue 0 0; WEnqueue 0 1; WArc (ADec 1); WWorker;
   WArc (ADec 0); WArc (ANew 2 (item 6) GFP_KERNEL); WEnqueue 0 2].

Lemma workqueue_runs_each_once_witness :
  let AL : Allocator (ArcInner Item) := Kmalloc (ref_realloc 4096) in
  let RC := kernel_refcount in
  ∃ t own es s' q', wq_run ∅ ∅ work_demo (MkSt ∅ tt [], []) = Done ((t, own, es), (s', q')) ∧
    history ∅ es = Some own ∧ dom own = pending q' ∧
    (∀ w k, own !! w = Some k → ∃ p n d, t !! k = Some (p, KArc) ∧ w = work_of (D := Item) p ∧
       slot (hp s') p 0 = Some (MkArcInner n (Some d))) ∧
    ∃ es2 q2, wq_run t own (replicate (size own) WWorker) (s', q') = Done ((t, ∅, es2), (s', q2)) ∧
      es2 ≡ₚ run_of <$> map_to_list own ∧ pending q2 = ∅.
Proof.
  apply (@workqueue_runs_each_once Item _ _ (Kmalloc (ref_realloc 4096)) _ kernel_refcount kernel_refcount_ok _ _
    _ (list Z) _ _ work_demo (MkSt ∅ tt []) []).
  - vm_compute. congruence.
  - by intros ? ? ?.
  - done.
  - unfold work_demo. repeat first [apply Forall_nil_2|apply Forall_cons_2; [|]]; try exact I;
      intros id Hid; simpl; by destruct (id =? 0).
Defined.

(** The second enqueue finds the item pending. *)
Example work_demo_events :
  let AL : Allocator (ArcInner Item) := Kmalloc (ref_realloc 4096) in
  let RC := kernel_refcount in
  match wq_run ∅ ∅ work_demo (MkSt ∅ tt [], []) with
  | Done ((_, _, [EvEnqueue 0 _ true; EvEnqueue 1 _ false; EvRun 0 _; EvEnqueue 2 _ true]), _) => True
  | _ => False
  end.
Proof. vm_compute. exact I. Qed.

#[export] Instance closure_type : RType (ClosureWork Z) := {| size_of := 40; align_of := 8; zst_value := None |}.

#[export] Instance closure_type_ok : RTypeOk (ClosureWork Z).
Proof.
  split; simpl.
  - usize.
  - by exists 3.
  - lia.
  - by exists 5.
  - split; [done|]. by intros [? ?].
  - done.
Qed.

#[export] Instance closure_work : HasWork (ClosureWork Z) := 0.

Lemma try_spawn_calls_each_once_witness :
  let AL : Allocator (ClosureWork Z) := Kmalloc (ref_realloc 4096) in
  let ops := [SSpawn 0 GFP_KERNEL 1; SSpawn 0 GFP_KERNEL 2; SWorker; SSpawn 0 GFP_KERNEL 3] in
  ∃ accepted calls s' q', spawn_run ops (MkSt ∅ tt [], []) = Done ((accepted, calls), (s', q')) ∧
    ∃ waiting, calls ++ waiting ≡ₚ accepted ∧
      ∃ calls2 s2 q2, spawn_run (replicate (length waiting) SWorker) (s', q') = Done (([], calls2), (s2, q2)) ∧
        calls2 ≡ₚ waiting ∧ hp s2 = ∅ ∧ pending q2 = ∅.
Proof.
  intros AL ops. apply (@try_spawn_calls_each_once Z _ _ AL _ _ (list Z) _ _ ops (MkSt ∅ tt []) []).
  - done.
  - by intros ? ? ?.
  - done.
Defined.
