(* ===== verification/PinInit.v ===== *)
(** * In-place initialisation of structs ([rust/src/init.rs], [rust/src/init/macros.rs],
      [rust/src/init/__internal.rs])

    [#[pin_data]] splits the fields of a struct into pinned and other ones; the macros
    [pin_init!], [try_pin_init!], [init!] and [try_init!] turn a struct expression into
    code that initialises the fields in place, one after the other, each behind a drop
    guard. Both are munchers of tokens: they are modelled as functions from tokens to the
    generated statements, one case per arm and in the order of the arms, and the generated
    statements are executed. A fragment that the compiler has parsed (an expression, a
    type) is one token. [None] is a compile error. *)

From stdpp Require Import strings.

From S2P Require Import Prelude.

(** ** [__pin_data!] *)

Inductive PTok :=
| PPin                                        (* [#[pin]] *)
| PAttr (a : string)
| PVis (v : string)
| PIdent (f : string)
| PColon
| PTy (t : string) (phantom_pinned : bool)
| PComma.

(** A field with the attributes and the visibility in front of it. *)
Record PField := MkPField { p_accum : list string; p_name : string; p_type : string }.

(** The accumulators of [find_pinned_fields], and the fields with a [compile_error!]. *)
Record PinData := MkPinData {
  pd_pinned : list PField;
  pd_not_pinned : list PField;
  pd_fields : list PField;
  pd_errors : list string
}.

Definition add_field (pin : bool) (fd : PField) (d : PinData) : PinData :=
  MkPinData (if pin then pd_pinned d ++ [fd] else pd_pinned d)
    (if pin then pd_not_pinned d else pd_not_pinned d ++ [fd]) (pd_fields d ++ [fd]) (pd_errors d).

Definition add_error (f : string) (d : PinData) : PinData :=
  MkPinData (pd_pinned d) (pd_not_pinned d) (pd_fields d) (pd_errors d ++ [f]).

Fixpoint find_pinned_fields (munch : list PTok) (accum : list string) (is_pinned : bool) (d : PinData) :
    option PinData :=
  match munch with
  | PIdent f :: PColon :: PTy t ph :: PComma :: rest =>
      let fd := MkPField accum f t in
      if ph && negb is_pinned then find_pinned_fields rest [] false (add_error f (add_field true fd d))
      else find_pinned_fields rest [] false (add_field is_pinned fd d)
  | PPin :: rest => find_pinned_fields rest accum true d
  | PVis v :: ((PIdent _ :: _) as rest) => find_pinned_fields rest (accum ++ [v]) is_pinned d
  | PAttr a :: rest => find_pinned_fields rest (accum ++ [a]) is_pinned d
  | [] | [PComma] => if is_pinned then None else if accum is [] then Some d else None
  | _ => None
  end.

(** [parse_input]: a comma is added. A [compile_error!] rejects the struct. *)
Definition pin_data_munch (fields : list PTok) : option PinData :=
  d ← find_pinned_fields (fields ++ [PComma]) [] false (MkPinData [] [] [] []);
  if pd_errors d is [] then Some d else None.

(** [drop_prevention]: the argument of [#[pin_data]] ([Some true] for [PinnedDrop]) against
    the traits that the struct implements otherwise. The result is whether the drop of the
    struct calls [PinnedDrop::drop]. *)
Definition drop_prevention (arg : option bool) (impl_drop impl_pinned_drop : bool) : option bool :=
  match arg with
  | None => if impl_drop || impl_pinned_drop then None else Some false
  | Some true => if impl_drop || negb impl_pinned_drop then None else Some true
  | Some false => None
  end.

(** [assert_pinned!]: [AlwaysFail] implements [PinInit] only, and the projection of a field
    takes one of those only if the field is pinned. *)
Definition assert_pinned (data : PinData) (field field_ty : string) : bool :=
  existsb (λ fd, String.eqb (p_name fd) field && String.eqb (p_type fd) field_ty) (pd_pinned data).

(** ** The slot *)

(** The memory of a struct, by field: a field without entry is uninitialised. [drops] are
    the values whose destructor ran. *)
Record Slot (V : Type) := MkSlot { mem : gmap string V; drops : list V }.
Arguments MkSlot {V} _ _.
Arguments mem {V} _.
Arguments drops {V} _.

Section InitMacro.
Context {V E : Type}.
Local Abbreviation SM := (M (Slot V)).

Definition slot_write (f : string) (v : V) : SM unit := modify (λ s, MkSlot (<[f := v]> (mem s)) (drops s)).

Definition slot_drop (f : string) : SM unit := λ s,
  match mem s !! f with
  | Some v => Done (tt, MkSlot (delete f (mem s)) (drops s ++ [v]))
  | None => UB
  end.

(** An expression of the user: an initialiser ([needs_pin]: it implements [PinInit] only), or
    a value. Both may return early with an error. *)
Inductive Expr :=
| XInit (needs_pin : bool) (init : string → SM (result E unit))
| XVal (val : SM (result E V)).

Inductive FTok :=
| TIdent (f : string)
| TArrow
| TColon
| TExpr (e : Expr)
| TComma
| TZeroed.                                    (* [..Zeroable::zeroed()] *)

(** ** [__init_internal!] *)

(** The arms without a name: is there a [..Zeroable::zeroed()] at the end? *)
Fixpoint munch_zeroed (munch_fields : list FTok) : bool :=
  match munch_fields with
  | [] => false
  | [TZeroed] => true
  | _ :: rest => munch_zeroed rest
  end.

(** The generated statements: an in-place initialisation and a write, which return early
    on an error, the declaration of the guard of a field, and [mem::forget]. *)
Inductive Stmt :=
| SInPlace (f : string) (init : string → SM (result E unit))
| SWrite (f : string) (val : SM (result E V))
| SGuard (f : string)
| SForget (guards : list string).

(** The call of an initialiser type-checks: without [use_data] it must implement [Init], with
    [use_data] the projection of the field asks for [PinInit] or [Init]. *)
Definition init_allowed (use_data : bool) (pinned : list string) (f : string) (needs_pin : bool) : bool :=
  if use_data then bool_decide (f ∈ pinned) || negb needs_pin else negb needs_pin.

(** [env]: the local variables, for the shorthand. *)
Fixpoint init_slot (use_data : bool) (pinned : list string) (env : string → V) (guards : list string)
    (munch : list FTok) : option (list Stmt) :=
  match munch with
  | [] | [TComma] | [TZeroed] | [TZeroed; TComma] => Some [SForget guards]
  | TIdent f :: TArrow :: TExpr (XInit np i) :: TComma :: rest =>
      if init_allowed use_data pinned f np then
        ss ← init_slot use_data pinned env (f :: guards) rest;
        Some (SInPlace f i :: SGuard f :: ss)
      else None
  | TIdent f :: TColon :: TExpr (XVal v) :: TComma :: rest =>
      ss ← init_slot use_data pinned env (f :: guards) rest;
      Some (SWrite f v :: SGuard f :: ss)
  | TIdent f :: TComma :: rest =>
      ss ← init_slot use_data pinned env (f :: guards) rest;
      Some (SWrite f (mret (Ok (env f))) :: SGuard f :: ss)
  | _ => None
  end.

(** The fields of the struct expression in the closure that is never called, and whether it
    ends in [..zeroed]. *)
Fixpoint make_initializer (munch : list FTok) (acc : list string) : option (list string * bool) :=
  match munch with
  | [TZeroed] | [TZeroed; TComma] => Some (acc, true)
  | [] | [TComma] => Some (acc, false)
  | TIdent f :: TArrow :: TExpr _ :: TComma :: rest => make_initializer rest (acc ++ [f])
  | TIdent f :: TColon :: TExpr _ :: TComma :: rest => make_initializer rest (acc ++ [f])
  | TIdent f :: TComma :: rest => make_initializer rest (acc ++ [f])
  | _ => None
  end.

(** What the compiler asks of a struct expression: no field twice, only fields of the
    struct, and all of them unless there is a base. *)
Definition struct_expr_ok (fs : list string) (names : list string) (base : bool) : bool :=
  bool_decide (NoDup names) && bool_decide (names ⊆ fs) && (base || bool_decide (fs ⊆ names)).

(** [with_update_parsed]: the zeroing, and the statements. *)
Definition init_internal (use_data : bool) (fs pinned : list string) (env : string → V) (fields : list FTok) :
    option (bool * list Stmt) :=
  let zeroed := munch_zeroed fields in
  ss ← init_slot use_data pinned env [] (fields ++ [TComma]);
  '(names, base) ← make_initializer (fields ++ [TComma]) [];
  if struct_expr_ok fs names base then Some (zeroed, ss) else None.

(** [Drop for DropGuard]; the locals of a block are dropped in reverse order of their
    declaration. *)
Fixpoint drop_guards (live : list string) : SM unit :=
  match live with
  | [] => mret tt
  | f :: live => _ ← slot_drop f; drop_guards live
  end.

(** [live]: the guards that are declared and not forgotten, the latest first. *)
Fixpoint exec_stmts (live : list string) (ss : list Stmt) : SM (result E unit) :=
  match ss with
  | [] => _ ← drop_guards live; mret (Ok tt)
  | SInPlace f i :: ss =>
      r ← i f;
      match r with
      | Ok _ => exec_stmts live ss
      | Err e => _ ← drop_guards live; mret (Err e)
      end
  | SWrite f m :: ss =>
      r ← m;
      match r with
      | Ok v => _ ← slot_write f v; exec_stmts live ss
      | Err e => _ ← drop_guards live; mret (Err e)
      end
  | SGuard f :: ss => exec_stmts (f :: live) ss
  | SForget gs :: ss => exec_stmts (filter (.∉ gs) live) ss
  end.

(** [write_bytes(slot, 0, 1)] *)
Definition zero_slot (fs : list string) (zero : string → V) : SM unit :=
  modify (λ s, MkSlot (list_to_map ((λ f, (f, zero f)) <$> fs) ∪ mem s) (drops s)).

(** The initialiser that the macro expands to. *)
Definition run_init (fs : list string) (zero : string → V) (code : bool * list Stmt) : SM (result E unit) :=
  _ ← (if code.1 : bool then zero_slot fs zero else mret tt);
  exec_stmts [] code.2.

(** The entry points, with the type of the error; [err] is what is written after [?]. *)
Definition pin_init_macro (fs pinned : list string) (env : string → V) (fields : list FTok) (err : option string) :
    option (string * (bool * list Stmt)) :=
  if err is Some _ then None
  else pair "::core::convert::Infallible" <$> init_internal true fs pinned env fields.

Definition try_pin_init_macro (fs pinned : list string) (env : string → V) (fields : list FTok) (err : option string) :
    option (string * (bool * list Stmt)) :=
  pair (default "$crate::error::Error" err) <$> init_internal true fs pinned env fields.

Definition init_macro (fs pinned : list string) (env : string → V) (fields : list FTok) (err : option string) :
    option (string * (bool * list Stmt)) :=
  if err is Some _ then None
  else pair "::core::convert::Infallible" <$> init_internal false fs pinned env fields.

Definition try_init_macro (fs pinned : list string) (env : string → V) (fields : list FTok) (err : option string) :
    option (string * (bool * list Stmt)) :=
  pair (default "$crate::error::Error" err) <$> init_internal false fs pinned env fields.

End InitMacro.
Arguments Expr : clear implicits.
Arguments FTok : clear implicits.
Arguments Stmt : clear implicits.

(** ** [StackInit] *)

Record StackInit (V : Type) := MkStackInit { value : option V; is_init : bool; released : list V }.
Arguments MkStackInit {V} _ _ _.
Arguments value {V} _.
Arguments is_init {V} _.
Arguments released {V} _.

Section StackInit.
Context {V E : Type}.
Local Abbreviation SI := (M (StackInit V)).

Definition stack_uninit : StackInit V := MkStackInit None false [].

Definition assume_init_drop : SI unit := λ s,
  match value s with
  | Some v => Done (tt, MkStackInit None (is_init s) (released s ++ [v]))
  | None => UB
  end.

Definition set_is_init (b : bool) : SI unit := modify (λ s, MkStackInit (value s) b (released s)).

Definition stack_init {F} (init : SI (result F unit)) : SI (result F unit) :=
  s ← get;
  _ ← (if is_init s then _ ← set_is_init false; assume_init_drop else mret tt);
  _ ←? init;
  _ ← set_is_init true;
  mret (Ok tt).

(** [Drop for StackInit] *)
Definition stack_drop : SI unit := s ← get; if is_init s then assume_init_drop else mret tt.

Fixpoint stack_run (inits : list (SI (result E unit))) : SI unit :=
  match inits with
  | [] => stack_drop
  | i :: inits => _ ← stack_init i; stack_run inits
  end.

(** [stack_pin_init!], and the two forms of [stack_try_pin_init!]; [rest] is the code behind
    the second. *)
Definition stack_pin_init (init : SI (result Empty_set unit)) : SI unit :=
  r ← stack_init init;
  match r with Ok _ => mret tt | Err x => Empty_set_rect (λ _, SI unit) x end.

Definition stack_try_pin_init (init : SI (result E unit)) : SI (result E unit) := stack_init init.

Definition stack_try_pin_init_q {A} (init : SI (result E unit)) (rest : SI (result E A)) : SI (result E A) :=
  _ ←? stack_init init; rest.

(** The end of the scope of the variable. *)
Definition stack_scope {A} (body : SI A) : SI A := a ← body; _ ← stack_drop; mret a.
End StackInit.

(** ** The grammar of the macros *)

Section Grammar.
Context {V E : Type}.
Implicit Types (toks : list (FTok V E)).

Inductive Entry :=
| EInit (f : string) (needs_pin : bool) (init : string → M (Slot V) (result E unit))
| EVal (f : string) (val : M (Slot V) (result E V))
| EShort (f : string).

Definition e_name (e : Entry) : string := match e with EInit f _ _ | EVal f _ | EShort f => f end.

Definition e_toks (e : Entry) : list (FTok V E) :=
  match e with
  | EInit f np i => [TIdent f; TArrow; TExpr (XInit np i); TComma]
  | EVal f v => [TIdent f; TColon; TExpr (XVal v); TComma]
  | EShort f => [TIdent f; TComma]
  end.

Inductive Tail := TlNone | TlComma | TlBase | TlBaseComma.

Definition tail_toks (tl : Tail) : list (FTok V E) :=
  match tl with TlNone => [] | TlComma => [TComma] | TlBase => [TZeroed] | TlBaseComma => [TZeroed; TComma] end.
Definition is_base (tl : Tail) : bool := match tl with TlBase | TlBaseComma => true | _ => false end.

Definition es_toks (es : list Entry) : list (FTok V E) := es ≫= e_toks.

(** The initialiser is one that the field accepts. *)
Definition e_allowed (use_data : bool) (pinned : list string) (e : Entry) : bool :=
  match e with EInit f np _ => init_allowed use_data pinned f np | _ => true end.

Definition e_stmts (env : string → V) (e : Entry) : list (Stmt V E) :=
  match e with
  | EInit f _ i => [SInPlace f i; SGuard f]
  | EVal f v => [SWrite f v; SGuard f]
  | EShort f => [SWrite f (mret (Ok (env f))); SGuard f]
  end.

Definition es_stmts env (guards : list string) (es : list Entry) : list (Stmt V E) :=
  (es ≫= e_stmts env) ++ [SForget (rev (e_name <$> es) ++ guards)].

Lemma init_slot_print ud pn env guards es tl : forallb (e_allowed ud pn) es = true →
  init_slot ud pn env guards (es_toks es ++ tail_toks tl) = Some (es_stmts env guards es).
Proof.
  revert guards. induction es as [|e es IH]; intros guards Ha; [by destruct tl|].
  simpl in Ha. apply andb_true_iff in Ha as [He Ha]. specialize (IH (e_name e :: guards) Ha).
  unfold es_stmts in *. simpl. rewrite <- (assoc_L (++)). destruct e; simpl in *; rewrite ?He; fold (es_toks es);
    rewrite IH; simpl; by rewrite <- (assoc_L (++)).
Qed.

Definition parsed ud pn toks : Prop :=
  ∃ es tl, toks = es_toks es ++ tail_toks tl ∧ forallb (e_allowed ud pn) es = true.

Lemma parsed_cons ud pn e toks : e_allowed ud pn e = true → parsed ud pn toks → parsed ud pn (e_toks e ++ toks).
Proof.
  intros He (es & tl & -> & Hes). exists (e :: es), tl. simpl. rewrite He. split; [|done].
  unfold es_toks. simpl. by rewrite (assoc_L (++)).
Qed.

Lemma init_slot_parse ud pn env n : ∀ toks guards ss, (length toks ≤ n)%nat →
  init_slot ud pn env guards toks = Some ss → parsed ud pn toks.
Proof.
  induction n as [|n IH]; intros toks guards ss Hn Hs; (destruct toks as [|t1 toks]; [by exists [], TlNone|]);
    [simpl in Hn; lia|].
  destruct t1 as [f| | | | |]; try done.
  - destruct toks as [|[| | | | |] toks]; try done.
    + destruct toks as [|[| | |[np i|]| |] [|[| | | | |] toks]]; try done. simpl in Hs.
      destruct (init_allowed ud pn f np) eqn:Ha; [|done]. apply bind_Some in Hs as (ss' & Hs & _).
      apply (parsed_cons _ _ (EInit f np i) toks Ha). eapply IH; [|done]. simpl in Hn. lia.
    + destruct toks as [|[| | |[|v]| |] [|[| | | | |] toks]]; try done. simpl in Hs.
      apply bind_Some in Hs as (ss' & Hs & _).
      apply (parsed_cons _ _ (EVal f v) toks eq_refl). eapply IH; [|done]. simpl in Hn. lia.
    + simpl in Hs. apply bind_Some in Hs as (ss' & Hs & _).
      apply (parsed_cons _ _ (EShort f) toks eq_refl). eapply IH; [|done]. simpl in Hn. lia.
  - destruct toks; [|done]. by exists [], TlComma.
  - destruct toks as [|[] [|]]; try done; [by exists [], TlBase|by exists [], TlBaseComma].
Qed.

Lemma make_initializer_print es tl : ∀ acc,
  make_initializer (es_toks es ++ tail_toks tl) acc = Some (acc ++ (e_name <$> es), is_base tl).
Proof.
  induction es as [|e es IH]; intros acc; [simpl; rewrite app_nil_r; by destruct tl|].
  unfold es_toks in *. simpl. rewrite <- (assoc_L (++)). destruct e; simpl; rewrite IH, <- (assoc_L (++)); done.
Qed.

Lemma munch_zeroed_last toks : munch_zeroed toks = match last toks with Some TZeroed => true | _ => false end.
Proof. induction toks as [|[| | | | |] [|t toks] IH]; try done. Qed.

Lemma munch_zeroed_print toks es tl : toks ++ [TComma] = es_toks es ++ tail_toks tl → munch_zeroed toks = is_base tl.
Proof.
  intros Ht. rewrite munch_zeroed_last. assert (∀ es, last (es_toks es) = None ∨ last (es_toks es) = Some TComma) as Hl.
  { intros es'. destruct es' as [|e es' _] using rev_ind; [by left|]. right. unfold es_toks.
    rewrite bind_app, last_app. simpl. by destruct e. }
  destruct tl; simpl in *.
  - rewrite app_nil_r in Ht. destruct es as [|e es _] using rev_ind; [by destruct toks|].
    unfold es_toks in Ht. rewrite bind_app in Ht. simpl in Ht. rewrite app_nil_r in Ht.
    assert (∃ l, e_toks e = l ++ [TComma] ∧ (last l ≠ Some TZeroed) ∧ l ≠ []) as (l & El & Hne & Hnil).
    { destruct e; [by exists [TIdent f; TArrow; TExpr (XInit needs_pin init)]|
        by exists [TIdent f; TColon; TExpr (XVal val)]|by exists [TIdent f]]. }
    rewrite El, (assoc_L (++)) in Ht. apply app_inj_tail in Ht as [-> _]. rewrite last_app.
    destruct (last l) as [[]|] eqn:Hll; try done. by apply last_None in Hll.
  - apply app_inj_tail in Ht as [-> _]. destruct (Hl es) as [-> | ->]; done.
  - apply app_inj_tail in Ht as [_ ?]. done.
  - change [TZeroed; TComma] with ([@TZeroed V E] ++ [TComma]) in Ht. rewrite (assoc_L (++)) in Ht.
    apply app_inj_tail in Ht as [-> _]. by rewrite last_snoc.
Qed.

(** The macros accept the struct expressions, and generate the statements of their entries. *)
Lemma init_internal_iff ud fs pn env toks z ss :
  init_internal ud fs pn env toks = Some (z, ss) ↔
  ∃ es tl, toks ++ [TComma] = es_toks es ++ tail_toks tl ∧ z = is_base tl ∧ ss = es_stmts env [] es ∧
    forallb (e_allowed ud pn) es = true ∧ struct_expr_ok fs (e_name <$> es) z = true.
Proof.
  unfold init_internal. split.
  - intros Hi. apply bind_Some in Hi as (ss' & Hs & Hi).
    destruct (init_slot_parse _ _ _ _ _ _ _ (le_n _) Hs) as (es & tl & Ht & Ha).
    rewrite Ht, make_initializer_print in Hi. simpl in Hi. rewrite Ht, init_slot_print in Hs by done.
    rewrite (munch_zeroed_print _ _ _ Ht) in Hi. destruct (struct_expr_ok _ _ _) eqn:Hok; [|done].
    injection Hs as <-. injection Hi as <- <-. exists es, tl. done.
  - intros (es & tl & Ht & -> & -> & Ha & Hok). rewrite Ht, init_slot_print by done. simpl.
    rewrite make_initializer_print. simpl. by rewrite Hok, (munch_zeroed_print _ _ _ Ht).
Qed.
End Grammar.
Arguments Entry : clear implicits.

(** ** Execution *)

Section Execution.
Context {V E : Type} (env : string → V).
Implicit Types (s : Slot V) (es : list (Entry V E)) (live : list string).

(** The contract of the user's expressions: the outcome [r], and the values [D] that they
    drop. An initialiser that fails leaves its field uninitialised; an expression leaves
    the fields alone. *)
Definition e_implements (e : Entry V E) (r : result E V) (D : list V) : Prop :=
  match e with
  | EInit f _ i => ∀ s, i f s = Done (result_map (λ _, tt) r,
      MkSlot (match r with Ok v => <[f := v]> (mem s) | Err _ => delete f (mem s) end) (drops s ++ D))
  | EVal f m => ∀ s, m s = Done (r, MkSlot (mem s) (drops s ++ D))
  | EShort f => r = Ok (env f) ∧ D = []
  end.

Definition e_succeeds (e : Entry V E) (vd : V * list V) : Prop := e_implements e (Ok vd.1) vd.2.

(** The entries one after the other. *)
Definition fill (es : list (Entry V E)) (vds : list (V * list V)) s : Slot V :=
  foldl (λ s '(e, vd), MkSlot (<[e_name e := vd.1]> (mem s)) (drops s ++ vd.2)) s (zip es vds).

Lemma rev_reverse {A} (l : list A) : rev l = reverse l.
Proof. apply rev_alt. Qed.

Lemma exec_entry e vd live ss s : e_succeeds e vd →
  exec_stmts live (e_stmts env e ++ ss) s =
  exec_stmts (e_name e :: live) ss (MkSlot (<[e_name e := vd.1]> (mem s)) (drops s ++ vd.2)).
Proof.
  destruct e as [f np i|f m|f]; simpl; unfold mbind, M_bind.
  - intros ->. done.
  - intros ->. done.
  - intros [[= Hv] HD]. unfold e_succeeds in *. simpl. by rewrite Hv, HD, app_nil_r.
Qed.

Lemma exec_entries es vds : Forall2 e_succeeds es vds → ∀ live ss s,
  exec_stmts live ((es ≫= e_stmts env) ++ ss) s = exec_stmts (rev (e_name <$> es) ++ live) ss (fill es vds s).
Proof.
  induction 1 as [|e vd es vds He _ IH]; intros live ss s; [done|].
  simpl. rewrite <- (assoc_L (++)), (exec_entry _ vd) by done. rewrite IH. by rewrite <- (assoc_L (++)).
Qed.

Lemma fill_drops es vds s : length es = length vds → drops (fill es vds s) = drops s ++ concat vds.*2.
Proof.
  unfold fill. revert vds s. induction es as [|e es IH]; intros [|vd vds] s Hl; try done; simpl.
  - by rewrite app_nil_r.
  - rewrite IH by (simpl in Hl; lia). simpl. by rewrite <- (assoc_L (++)).
Qed.

Lemma fill_mem_ne es vds s f : f ∉ e_name <$> es → mem (fill es vds s) !! f = mem s !! f.
Proof.
  unfold fill. revert vds s. induction es as [|e es IH]; intros [|vd vds] s Hf; try done. simpl in *.
  rewrite IH by set_solver. simpl. rewrite lookup_insert_ne by set_solver. done.
Qed.

Lemma fill_mem es vds s k e vd : NoDup (e_name <$> es) → es !! k = Some e → vds !! k = Some vd →
  mem (fill es vds s) !! e_name e = Some vd.1.
Proof.
  unfold fill. revert vds s k. induction es as [|e' es IH]; intros [|vd' vds] s k Hnd He Hvd; try done.
  apply NoDup_cons in Hnd as [Hni Hnd]. destruct k as [|k]; simplify_eq/=.
  - etrans; [by apply fill_mem_ne|]. apply lookup_insert_eq.
  - by eapply IH.
Qed.

(** The guards drop exactly the fields they stand for. *)
Lemma drop_guards_ok live : ∀ s vs, NoDup live → Forall2 (λ f v, mem s !! f = Some v) live vs →
  drop_guards live s = Done (tt, MkSlot (foldl (λ m f, delete f m) (mem s) live) (drops s ++ vs)).
Proof.
  induction live as [|f live IH]; intros s vs Hnd Hvs; inversion Hvs as [|? v ? vs' Hf Hvs']; subst; simpl.
  - rewrite app_nil_r. by destruct s.
  - apply NoDup_cons in Hnd as [Hni Hnd]. unfold mbind, M_bind, slot_drop. rewrite Hf.
    rewrite (IH _ vs'); [simpl; by rewrite <- (assoc_L (++))|done|]. simpl.
    eapply Forall2_impl_l; [exact Hvs'|]. intros g w Hg Hw. simpl in *. rewrite lookup_delete_ne; [done|]. by intros ->.
Qed.

Lemma foldl_delete_lookup live (m : gmap string V) f :
  foldl (λ m f, delete f m) m live !! f = if decide (f ∈ live) then None else m !! f.
Proof.
  revert m. induction live as [|g live IH]; intros m; [done|]. simpl. rewrite IH.
  case_decide as H1; case_decide as H2; try done; [set_solver| |].
  - destruct (decide (f = g)) as [-> |]; [apply lookup_delete_eq|set_solver].
  - rewrite lookup_delete_ne; [done|set_solver].
Qed.

(** The values behind the guards after some entries. *)
Lemma fill_guarded es vds s : NoDup (e_name <$> es) → length es = length vds →
  Forall2 (λ f v, mem (fill es vds s) !! f = Some v) (rev (e_name <$> es)) (rev vds.*1).
Proof.
  intros Hnd Hl. rewrite !rev_reverse. apply Forall2_reverse, Forall2_same_length_lookup_2.
  { by rewrite !length_fmap. }
  intros k f v Hf Hv. apply list_lookup_fmap_Some in Hf as (e & -> & Hk).
  apply list_lookup_fmap_Some in Hv as (vd & -> & Hvd). by eapply fill_mem.
Qed.

Lemma exec_all es vds s : Forall2 e_succeeds es vds →
  exec_stmts [] (es_stmts env [] es) s = Done (Ok tt, fill es vds s).
Proof.
  intros Hes. unfold es_stmts. rewrite (exec_entries _ _ Hes). simpl. rewrite !app_nil_r.
  assert (filter (.∉ rev (e_name <$> es)) (rev (e_name <$> es)) = []) as ->; [|done].
  destruct (filter _ _) as [|f l] eqn:Ef; [done|]. exfalso.
  assert (f ∈ filter (.∉ rev (e_name <$> es)) (rev (e_name <$> es))) as Hf by (rewrite Ef; left).
  by apply list_elem_of_filter in Hf as [? ?].
Qed.

Lemma exec_fail es1 vds e x D es2 gs s : Forall2 e_succeeds es1 vds → e_implements e (Err x) D →
  NoDup (e_name <$> es1) → e_name e ∉ e_name <$> es1 →
  ∃ s', exec_stmts [] ((es1 ≫= e_stmts env) ++ e_stmts env e ++ (es2 ≫= e_stmts env) ++ gs) s = Done (Err x, s') ∧
    drops s' = drops s ++ concat vds.*2 ++ D ++ rev vds.*1 ∧
    (∀ f, f ∈ e_name <$> es1 → mem s' !! f = None) ∧
    (∀ f, f ∉ e_name <$> es1 → f ≠ e_name e → mem s' !! f = mem s !! f).
Proof.
  intros Hes He Hnd Hni. rewrite (exec_entries _ _ Hes), app_nil_r. pose proof (Forall2_length _ _ _ Hes) as Hl.
  pose proof (fill_guarded es1 vds s Hnd Hl) as Hg. set (s1 := fill es1 vds s) in *.
  assert (∃ m2, (∀ f, f ≠ e_name e → m2 !! f = mem s1 !! f) ∧
    exec_stmts (rev (e_name <$> es1)) (e_stmts env e ++ (es2 ≫= e_stmts env) ++ gs) s1 =
    (_ ← drop_guards (rev (e_name <$> es1)); mret (Err x)) (MkSlot m2 (drops s1 ++ D))) as (m2 & Hm2 & ->).
  { destruct e as [f np i|f m|f]; simpl in *; unfold mbind, M_bind; [| |by destruct He]; rewrite He; simpl.
    - exists (delete f (mem s1)). split; [|done]. intros g Hg'. by rewrite lookup_delete_ne.
    - exists (mem s1). done. }
  unfold mbind, M_bind. rewrite (drop_guards_ok _ _ (rev vds.*1)).
  - eexists. split; [done|]. simpl. subst s1. rewrite fill_drops by done. split; [by rewrite <- !(assoc_L (++))|].
    split; intros f Hf; rewrite foldl_delete_lookup, rev_reverse.
    + rewrite decide_True; [done|]. by rewrite elem_of_reverse.
    + intros Hne. rewrite decide_False by (by rewrite elem_of_reverse). rewrite Hm2 by done. by apply fill_mem_ne.
  - rewrite rev_reverse. by rewrite reverse_Permutation.
  - eapply Forall2_impl_l; [exact Hg|]. intros f v Hf Hv. simpl. rewrite Hm2; [done|].
    intros ->. rewrite rev_reverse, elem_of_reverse in Hf. done.
Qed.
End Execution.

(** ** Fields of a struct declaration *)

(** A field as it is written: its attributes ([None] is [#[pin]]), its visibility, its name and
    its type. *)
Record Decl := MkDecl {
  d_attrs : list (option string);
  d_vis : option string;
  d_name : string;
  d_type : string;
  d_phantom : bool
}.

Definition attr_tok (a : option string) : PTok := match a with None => PPin | Some a => PAttr a end.

Definition d_toks (d : Decl) : list PTok :=
  (attr_tok <$> d_attrs d) ++ (PVis <$> option_list (d_vis d)) ++
  [PIdent (d_name d); PColon; PTy (d_type d) (d_phantom d); PComma].

Definition d_pinned (d : Decl) : bool := bool_decide (None ∈ d_attrs d).
Definition d_field (d : Decl) : PField :=
  MkPField (omap id (d_attrs d) ++ option_list (d_vis d)) (d_name d) (d_type d).

(** [#[pin]] is there wherever it is needed. *)
Definition d_ok (d : Decl) : bool := negb (d_phantom d) || d_pinned d.

Definition pin_data_of (ds : list Decl) : PinData :=
  MkPinData (d_field <$> filter (λ d, d_pinned d = true) ds) (d_field <$> filter (λ d, d_pinned d = false) ds)
    (d_field <$> ds) [].

Definition app_data (a b : PinData) : PinData :=
  MkPinData (pd_pinned a ++ pd_pinned b) (pd_not_pinned a ++ pd_not_pinned b) (pd_fields a ++ pd_fields b)
    (pd_errors a ++ pd_errors b).

Lemma munch_attrs l : ∀ accum pin toks acc,
  find_pinned_fields ((attr_tok <$> l) ++ toks) accum pin acc =
  find_pinned_fields toks (accum ++ omap id l) (pin || bool_decide (None ∈ l)) acc.
Proof.
  induction l as [|[a|] l IH]; intros accum pin toks acc; simpl.
  - rewrite app_nil_r. by rewrite orb_false_r.
  - rewrite IH, <- (assoc_L (++)). f_equal. f_equal. apply bool_decide_ext. set_solver.
  - rewrite IH. f_equal. by rewrite orb_true_r.
Qed.

(** One declaration. *)
Definition add_decl (acc : PinData) (d : Decl) : PinData :=
  if d_ok d then add_field (d_pinned d) (d_field d) acc
  else add_error (d_name d) (add_field true (d_field d) acc).

Lemma munch_decl d toks acc :
  find_pinned_fields (d_toks d ++ toks) [] false acc = find_pinned_fields toks [] false (add_decl acc d).
Proof.
  unfold d_toks. rewrite <- (assoc_L (++)), munch_attrs. rewrite orb_false_l. fold (d_pinned d).
  unfold add_decl, d_ok, d_field. rewrite app_nil_l. destruct (d_vis d) as [v|]; simpl; rewrite ?app_nil_r;
    destruct (d_phantom d), (d_pinned d); done.
Qed.

Lemma munch_decls ds toks : ∀ acc,
  find_pinned_fields ((ds ≫= d_toks) ++ toks) [] false acc = find_pinned_fields toks [] false (foldl add_decl acc ds).
Proof.
  induction ds as [|d ds IH]; intros acc; [done|]. simpl. by rewrite <- (assoc_L (++)), munch_decl, IH.
Qed.

Lemma add_decls_ok ds : ∀ acc, forallb d_ok ds = true → foldl add_decl acc ds = app_data acc (pin_data_of ds).
Proof.
  induction ds as [|d ds IH]; intros acc Hok.
  - unfold app_data, pin_data_of. destruct acc. simpl. by rewrite !app_nil_r.
  - simpl in *. apply andb_true_iff in Hok as [Hd Hok]. rewrite IH by done. unfold add_decl. rewrite Hd.
    unfold app_data, pin_data_of, add_field. rewrite !filter_cons. simpl.
    destruct (d_pinned d); simpl; rewrite <- ?(assoc_L (++)); done.
Qed.

Lemma add_decls_errors ds : ∀ acc, pd_errors acc ≠ [] ∨ forallb d_ok ds = false → pd_errors (foldl add_decl acc ds) ≠ [].
Proof.
  induction ds as [|d ds IH]; intros acc H; simpl in *; [by destruct H|]. apply IH. unfold add_decl.
  destruct (d_ok d); simpl in *; [done|]. left. by destruct (pd_errors acc).
Qed.

Lemma pin_data_munch_ok ds fields :
  fields ++ [PComma] = (ds ≫= d_toks) ++ [PComma] ∨ fields ++ [PComma] = ds ≫= d_toks →
  pin_data_munch fields = if forallb d_ok ds then Some (pin_data_of ds) else None.
Proof.
  intros Hf. unfold pin_data_munch.
  assert (find_pinned_fields (fields ++ [PComma]) [] false (MkPinData [] [] [] []) =
    Some (foldl add_decl (MkPinData [] [] [] []) ds)) as ->.
  { destruct Hf as [-> | ->]; [by rewrite munch_decls|]. rewrite <- (app_nil_r (ds ≫= d_toks)). by rewrite munch_decls. }
  simpl. destruct (forallb d_ok ds) eqn:Hok.
  - rewrite add_decls_ok by done. done.
  - pose proof (add_decls_errors ds (MkPinData [] [] [] []) (or_intror Hok)) as He.
    by destruct (pd_errors _).
Qed.

Lemma decls_comma d ds : removelast ((d :: ds) ≫= d_toks) ++ [PComma] = (d :: ds) ≫= d_toks.
Proof.
  assert (∃ l, (d :: ds) ≫= d_toks = l ++ [PComma]) as [l ->]; [|by rewrite removelast_last].
  destruct (exists_last (l := d :: ds)) as (l & d' & ->); [done|]. rewrite bind_app. simpl. rewrite app_nil_r.
  unfold d_toks. exists ((l ≫= d_toks) ++ (attr_tok <$> d_attrs d') ++ (PVis <$> option_list (d_vis d')) ++
    [PIdent (d_name d'); PColon; PTy (d_type d') (d_phantom d')]). by rewrite <- !(assoc_L (++)).
Qed.

(** ** Theorems *)

Section Theorems.
Context {V E : Type} (env : string → V) (fs : list string) (zero : string → V).
Implicit Types (s : Slot V) (es : list (Entry V E)).

Lemma zero_lookup f :
  (list_to_map ((λ f, (f, zero f)) <$> fs) : gmap string V) !! f = if decide (f ∈ fs) then Some (zero f) else None.
Proof.
  induction fs as [|g l IH]; [done|]. rewrite fmap_cons, list_to_map_cons. destruct (decide (f = g)) as [-> |Hne].
  - rewrite lookup_insert_eq, decide_True by left. done.
  - rewrite lookup_insert_ne, IH by done. case_decide as H1; case_decide as H2; try done; set_solver.
Qed.

Definition prepared (z : bool) s : Slot V :=
  if z then MkSlot (list_to_map ((λ f, (f, zero f)) <$> fs) ∪ mem s) (drops s) else s.

Lemma run_prepared z (ss : list (Stmt V E)) s : run_init fs zero (z, ss) s = exec_stmts [] ss (prepared z s).
Proof. unfold run_init, mbind, M_bind, prepared. by destruct z. Qed.

Lemma prepared_lookup z s f : mem s = ∅ →
  mem (prepared z s) !! f = if z && bool_decide (f ∈ fs) then Some (zero f) else None.
Proof.
  intros Hs. unfold prepared. destruct z; simpl; rewrite Hs; [|done]. rewrite (right_id_L ∅ (∪)), zero_lookup.
  by case_decide; case_bool_decide.
Qed.

Lemma struct_expr_spec names z : struct_expr_ok fs names z = true →
  NoDup names ∧ names ⊆ fs ∧ (z = true ∨ fs ⊆ names).
Proof.
  unfold struct_expr_ok. rewrite !andb_true_iff, orb_true_iff, !bool_decide_eq_true. naive_solver.
Qed.

Lemma init_all z es vds s : mem s = ∅ → struct_expr_ok fs (e_name <$> es) z = true → Forall2 (e_succeeds env) es vds →
  ∃ m, run_init fs zero (z, es_stmts env [] es) s = Done (Ok tt, MkSlot m (drops s ++ concat vds.*2)) ∧
    (∀ f, is_Some (m !! f) ↔ f ∈ fs) ∧
    (∀ k e vd, es !! k = Some e → vds !! k = Some vd → m !! e_name e = Some vd.1) ∧
    (∀ f, f ∈ fs → f ∉ e_name <$> es → m !! f = Some (zero f)).
Proof.
  intros Hs (Hnd & Hsub & Hall)%struct_expr_spec Hes. pose proof (Forall2_length _ _ _ Hes) as Hl.
  rewrite run_prepared, (exec_all _ _ vds) by done. set (s1 := fill es vds (prepared z s)).
  assert (∀ f, f ∈ fs → f ∉ e_name <$> es → mem s1 !! f = Some (zero f)) as Hz.
  { intros f Hf Hn. destruct Hall as [-> |Hall]; [|set_solver]. unfold s1. rewrite fill_mem_ne, prepared_lookup by done.
    by rewrite bool_decide_eq_true_2. }
  assert (∀ k e vd, es !! k = Some e → vds !! k = Some vd → mem s1 !! e_name e = Some vd.1) as Hv.
  { intros k e vd He Hvd. by eapply fill_mem. }
  exists (mem s1). split_and!; [|intros f; split|done|done].
  - do 3 f_equal. destruct s1 as [m d] eqn:E1. simpl. f_equal. change d with (drops (MkSlot m d)). rewrite <- E1.
    unfold s1. rewrite fill_drops by done. unfold prepared. by destruct z.
  - intros Hf. destruct (decide (f ∈ e_name <$> es)) as [Hin|Hn]; [set_solver|].
    unfold s1 in Hf. rewrite fill_mem_ne, prepared_lookup in Hf by done.
    destruct z; simpl in Hf; [|by destruct Hf]. case_bool_decide; [done|by destruct Hf].
  - intros Hf. destruct (decide (f ∈ e_name <$> es)) as [Hin|Hn]; [|rewrite Hz by done; eauto].
    apply list_elem_of_lookup in Hin as [k Hk]. apply list_lookup_fmap_Some in Hk as (e & -> & He).
    destruct (lookup_lt_is_Some_2 vds k) as [vd Hvd]; [rewrite <- Hl; by eapply lookup_lt_Some|].
    rewrite (Hv k e vd) by done. eauto.
Qed.

Lemma init_none z es1 e es2 vds x D s : mem s = ∅ →
  struct_expr_ok fs (e_name <$> es1 ++ e :: es2) z = true → Forall2 (e_succeeds env) es1 vds →
  e_implements env e (Err x) D →
  ∃ s', run_init fs zero (z, es_stmts env [] (es1 ++ e :: es2)) s = Done (Err x, s') ∧
    drops s' = drops s ++ concat vds.*2 ++ D ++ rev vds.*1 ∧
    (∀ f, f ∈ e_name <$> es1 → mem s' !! f = None) ∧
    (∀ f, f ∉ e_name <$> es1 → f ≠ e_name e → mem s' !! f = mem (prepared z s) !! f).
Proof.
  intros Hs (Hnd & _)%struct_expr_spec Hes He. rewrite fmap_app, fmap_cons in Hnd.
  apply NoDup_app in Hnd as (Hnd & Hdis & _). unfold es_stmts. rewrite run_prepared, bind_app. simpl.
  rewrite <- !(assoc_L (++)). destruct (exec_fail env es1 vds e x D es2
    [SForget (rev (e_name <$> es1 ++ e :: es2) ++ [])] (prepared z s) Hes He Hnd) as (s' & Hr & Hd & Hn & Hk).
  { intros Hin. apply (Hdis _ Hin). left. }
  exists s'. split_and!; [exact Hr| |done|done]. rewrite Hd. unfold prepared. by destruct z.
Qed.
End Theorems.

(** C7: [pin_init!], [try_pin_init!], [init!] and [try_init!] are all or nothing. When every
    entry of the struct expression succeeds, the initialiser succeeds and every field of the
    struct is initialised, with the value of its entry or with zero. When an entry fails, the
    initialiser returns its error, and the fields that were initialised before are dropped
    again, each once and in reverse order, while no other field is touched. Nothing is dropped
    twice or while uninitialised. The slot is zeroed exactly when the expression ends in
    [..Zeroable::zeroed()]. *)
Theorem struct_init_all_or_nothing {V E} (use_data : bool) (fs pinned : list string) (env zero : string → V)
    (toks : list (FTok V E)) (z : bool) (ss : list (Stmt V E)) (s : Slot V)
    (Hm : init_internal use_data fs pinned env toks = Some (z, ss)) (Hs : mem s = ∅) :
  ∃ es tl, toks ++ [TComma] = es_toks es ++ tail_toks tl ∧ z = is_base tl ∧
    (∀ vds, Forall2 (e_succeeds env) es vds →
      ∃ m, run_init fs zero (z, ss) s = Done (Ok tt, MkSlot m (drops s ++ concat vds.*2)) ∧
        (∀ f, is_Some (m !! f) ↔ f ∈ fs) ∧
        (∀ k e vd, es !! k = Some e → vds !! k = Some vd → m !! e_name e = Some vd.1) ∧
        (∀ f, f ∈ fs → f ∉ e_name <$> es → m !! f = Some (zero f))) ∧
    (∀ es1 e es2 vds x D, es = es1 ++ e :: es2 → Forall2 (e_succeeds env) es1 vds → e_implements env e (Err x) D →
      ∃ s', run_init fs zero (z, ss) s = Done (Err x, s') ∧
        drops s' = drops s ++ concat vds.*2 ++ D ++ rev vds.*1 ∧
        (∀ f, f ∈ e_name <$> es1 → mem s' !! f = None) ∧
        (∀ f, f ∉ e_name <$> es1 → f ≠ e_name e → mem s' !! f = mem (prepared fs zero z s) !! f)).
Proof.
  apply init_internal_iff in Hm as (es & tl & Ht & Hz & -> & _ & Hok). exists es, tl. split_and!; [done|done| |].
  - intros vds Hes. by apply init_all.
  - intros es1 e es2 vds x D -> Hes He. by apply init_none.
Qed.

(** C21: pinning is sound. [#[pin_data]] accepts a list of fields exactly when every
    [PhantomPinned] is marked [#[pin]], declares the fields as they were written and in order,
    and sorts them by that mark. On such a struct [pin_init!] uses an initialiser that relies
    on being pinned only for a field that is marked [#[pin]], and [init!] uses none. *)
Theorem pin_init_respects_pins {V E} (d : Decl) (ds : list Decl) (env : string → V) (toks : list (FTok V E))
    (use_data : bool) :
  pin_data_munch ((d :: ds) ≫= d_toks) = (if forallb d_ok (d :: ds) then Some (pin_data_of (d :: ds)) else None) ∧
  pin_data_munch (removelast ((d :: ds) ≫= d_toks)) = pin_data_munch ((d :: ds) ≫= d_toks) ∧
  (∀ data z ss, pin_data_munch ((d :: ds) ≫= d_toks) = Some data →
    init_internal use_data (p_name <$> pd_fields data) (p_name <$> pd_pinned data) env toks = Some (z, ss) →
    ∃ es tl, toks ++ [TComma] = es_toks es ++ tail_toks tl ∧ ss = es_stmts env [] es ∧
      ∀ f i, EInit f true i ∈ es → use_data = true ∧ ∃ d', d' ∈ d :: ds ∧ d_name d' = f ∧ d_pinned d' = true).
Proof.
  split; [apply pin_data_munch_ok; by left|]. split.
  { rewrite (pin_data_munch_ok (d :: ds)) by (right; apply decls_comma). symmetry. apply pin_data_munch_ok. by left. }
  intros data z ss Hd Hm. rewrite (pin_data_munch_ok (d :: ds)) in Hd by (by left).
  destruct (forallb d_ok (d :: ds)); [|done]. injection Hd as <-.
  apply init_internal_iff in Hm as (es & tl & Ht & _ & -> & Ha & _). exists es, tl. split_and!; [done..|].
  intros f i Hi. rewrite forallb_forall in Ha. specialize (Ha _ (proj1 (list_elem_of_In _ _) Hi)). simpl in Ha.
  unfold init_allowed in Ha. destruct use_data; [|done]. split; [done|]. rewrite orb_false_r in Ha.
  apply bool_decide_eq_true in Ha. unfold pin_data_of in Ha. cbn [pd_pinned] in Ha. rewrite <- list_fmap_compose in Ha.
  apply list_elem_of_fmap in Ha as (d' & -> & Hd'). apply list_elem_of_filter in Hd' as [Hp Hin]. by exists d'.
Qed.

(** What the entry points share with [init_internal]: code, and with a default for the error. *)
Lemma init_macros_expand {V E} fs pinned (env : string → V) (fields : list (FTok V E)) err :
  pin_init_macro fs pinned env fields None = pair "::core::convert::Infallible" <$> init_internal true fs pinned env fields ∧
  snd <$> try_pin_init_macro fs pinned env fields err = init_internal true fs pinned env fields ∧
  snd <$> try_init_macro fs pinned env fields err = init_internal false fs pinned env fields ∧
  pin_init_macro fs pinned env fields (Some "E") = None ∧ init_macro fs pinned env fields (Some "E") = None.
Proof.
  unfold try_pin_init_macro, try_init_macro. rewrite <- !option_fmap_compose. split_and!; [done| | |done..];
    by destruct (init_internal _ _ _ _ _).
Qed.

(** [assert_pinned!] accepts the fields that are marked. *)
Lemma assert_pinned_iff ds data field ty : pin_data_munch (ds ≫= d_toks) = Some data →
  assert_pinned data field ty = true ↔ ∃ d, d ∈ ds ∧ d_pinned d = true ∧ d_name d = field ∧ d_type d = ty.
Proof.
  intros Hd. rewrite (pin_data_munch_ok ds) in Hd by (by left). destruct (forallb d_ok ds); [|done].
  injection Hd as <-. unfold assert_pinned, pin_data_of. cbn [pd_pinned]. rewrite existsb_exists. split.
  - intros (fd & Hin & [Hn Ht]%andb_prop). apply list_elem_of_In, list_elem_of_fmap in Hin as (d & -> & Hin).
    apply list_elem_of_filter in Hin as [Hp Hin]. exists d. apply String.eqb_eq in Hn, Ht. split_and!; [done| |done..].
    by destruct (d_pinned d).
  - intros (d & Hin & Hp & <- & <-). exists (d_field d). split.
    + apply list_elem_of_In, list_elem_of_fmap. exists d. split; [done|]. apply list_elem_of_filter. by rewrite Hp.
    + simpl. by rewrite !String.eqb_refl.
Qed.

(** A struct that compiles runs its [PinnedDrop] if it has one, and has no other [Drop]. *)
Lemma drop_prevention_sound arg impl_drop impl_pinned b :
  drop_prevention arg impl_drop impl_pinned = Some b → b = impl_pinned ∧ impl_drop = false.
Proof. by destruct arg as [[]|], impl_drop, impl_pinned; intros [= <-]. Qed.

(** *** [StackInit] *)

Section StackThms.
Context {V E : Type}.

Definition stack_implements (i : M (StackInit V) (result E unit)) (r : result E V) : Prop :=
  ∀ s, i s = Done (result_map (λ _, tt) r,
    MkStackInit (match r with Ok v => Some v | Err _ => None end) (is_init s) (released s)).

Definition oks (rs : list (result E V)) : list V := omap (λ r, match r with Ok v => Some v | Err _ => None end) rs.

(** However often it is initialised again, every value is dropped once. *)
Theorem stack_init_drops_each_once inits rs : Forall2 stack_implements inits rs →
  ∃ s', stack_run inits stack_uninit = Done (tt, s') ∧ released s' = oks rs ∧ value s' = None.
Proof.
  intros Hi. assert (∀ s, is_init s = bool_decide (is_Some (value s)) →
    ∃ s', stack_run inits s = Done (tt, s') ∧ released s' = released s ++ option_list (value s) ++ oks rs ∧
      value s' = None) as H; [|by apply (H stack_uninit)].
  induction Hi as [|i r inits rs Hi _ IH]; intros [v b l] Hb; simpl in Hb; subst b; simpl.
  - unfold stack_drop, mbind, M_bind. simpl. destruct v as [v|]; simpl; eexists; (split; [done|]); simpl;
      by rewrite ?app_nil_r.
  - set (s1 := MkStackInit (match r with Ok v => Some v | Err _ => None end) (bool_decide (is_Some (match r with
      Ok v => Some v | Err _ => None end))) (l ++ option_list v)).
    destruct (IH s1) as (s' & Hr & Hd & Hv); [done|]. exists s'. split; [|split; [|done]].
    + rewrite <- Hr. unfold stack_init, try_bind, mbind, M_bind. unfold get.
      destruct v as [v|]; simpl; rewrite Hi; destruct r; simpl; unfold s1; simpl; by rewrite ?app_nil_r.
    + rewrite Hd. unfold s1. simpl. rewrite <- (assoc_L (++)). do 2 f_equal. by destruct r.
Qed.

(** On every exit of a function that initialises a variable on its stack, the value is dropped if
    there is one, and the error of the initialiser is returned by [=?]. *)
Lemma stack_try_scope {A} init (r : result E V) (rest : M (StackInit V) (result E A)) a : stack_implements init r →
  (∀ s, rest s = Done (a, s)) →
  stack_scope (stack_try_pin_init_q init rest) stack_uninit =
    Done (match r with Ok _ => a | Err e => Err e end,
      MkStackInit None (is_ok r) (match r with Ok v => [v] | Err _ => [] end)).
Proof.
  intros Hi Hr. unfold stack_scope, stack_try_pin_init_q, stack_init, try_bind, mbind, M_bind, get, set_is_init, modify.
  simpl. rewrite Hi. destruct r; simpl; [by rewrite Hr|done].
Qed.
End StackThms.

(** ** Concrete instances *)

(** [init_from_closure] of a closure that writes a value. *)
Definition init_const {E} (v : Z) (f : string) : M (Slot Z) (result E unit) := _ ← slot_write f v; mret (Ok tt).
(** An initialiser that fails. *)
Definition init_err (x : Z) (f : string) : M (Slot Z) (result Z unit) :=
  _ ← modify (λ s, MkSlot (delete f (mem s)) (drops s)); mret (Err x).

(** [try_pin_init!(S { a <- init, b: 2, c, ..Zeroable::zeroed() })] *)
Definition demo_toks : list (FTok Z Z) :=
  [TIdent "a"; TArrow; TExpr (XInit true (init_const 1)); TComma;
   TIdent "b"; TColon; TExpr (XVal (mret (Ok 2))); TComma;
   TIdent "c"; TComma; TZeroed].

Definition demo_ss : list (Stmt Z Z) :=
  [SInPlace "a" (init_const 1); SGuard "a"; SWrite "b" (mret (Ok 2)); SGuard "b"; SWrite "c" (mret (Ok 3)); SGuard "c";
   SForget ["c"; "b"; "a"]].

Lemma struct_init_all_or_nothing_witness :
  let fs := ["a"; "b"; "c"; "d"] in
  init_internal true fs ["a"] (λ _, 3) demo_toks = Some (true, demo_ss) ∧
  ∃ es tl, demo_toks ++ [TComma] = es_toks es ++ tail_toks tl ∧ true = is_base tl ∧
    (∀ vds, Forall2 (e_succeeds (λ _, 3)) es vds →
      ∃ m, run_init fs (λ _, 0) (true, demo_ss) (MkSlot ∅ []) = Done (Ok tt, MkSlot m (concat vds.*2)) ∧
        (∀ f, is_Some (m !! f) ↔ f ∈ fs) ∧
        (∀ k e vd, es !! k = Some e → vds !! k = Some vd → m !! e_name e = Some vd.1) ∧
        (∀ f, f ∈ fs → f ∉ e_name <$> es → m !! f = Some 0)) ∧
    (∀ es1 e es2 vds x D, es = es1 ++ e :: es2 → Forall2 (e_succeeds (λ _, 3)) es1 vds → e_implements (λ _, 3) e (Err x) D →
      ∃ s', run_init fs (λ _, 0) (true, demo_ss) (MkSlot ∅ []) = Done (Err x, s') ∧
        drops s' = concat vds.*2 ++ D ++ rev vds.*1 ∧
        (∀ f, f ∈ e_name <$> es1 → mem s' !! f = None) ∧
        (∀ f, f ∉ e_name <$> es1 → f ≠ e_name e → mem s' !! f = mem (prepared fs (λ _, 0) true (MkSlot ∅ [])) !! f)).
Proof.
  intros fs. split; [reflexivity|].
  apply (struct_init_all_or_nothing true fs ["a"] (λ _, 3) (λ _, 0) demo_toks true demo_ss (MkSlot ∅ [])); reflexivity.
Defined.

(** The second field fails: the first is dropped, the third never made. *)
Example init_demo_fails :
  run_init ["a"; "b"; "c"] (λ _, 0)
    (false, [SInPlace "a" (init_const 1); SGuard "a"; SInPlace "b" (init_err 7); SGuard "b";
             SWrite "c" (mret (Ok 3)); SGuard "c"; SForget ["c"; "b"; "a"]]) (MkSlot ∅ []) =
  Done (Err 7, MkSlot ∅ [1]).
Proof. reflexivity. Qed.

(** A field that is not marked takes no initialiser that relies on being pinned; a field that
    is missing or named twice is an error. *)
Example init_demo_rejects :
  (init_internal true ["a"; "b"; "c"; "d"] [] (λ _, 3) demo_toks,
   init_internal true ["a"; "b"; "c"; "d"] ["a"] (λ _, 3) (take 10 demo_toks),
   init_internal (V := Z) (E := Z) true ["a"] [] (λ _, 3) [TIdent "a"; TComma; TIdent "a"]) = (None, None, None).
Proof. reflexivity. Qed.

Lemma pin_init_respects_pins_witness :
  let ds := [MkDecl [Some "cfg"; None] (Some "pub") "a" "Mutex" false; MkDecl [] None "b" "u32" false] in
  pin_data_munch (ds ≫= d_toks) = Some (pin_data_of ds) ∧
  (∀ data z ss, pin_data_munch (ds ≫= d_toks) = Some data →
    init_internal true (p_name <$> pd_fields data) (p_name <$> pd_pinned data) (λ _, 3)
      [TIdent "a"; TArrow; TExpr (XInit true (init_const (E := Z) 1)); TComma; TIdent "b"] = Some (z, ss) →
    ∃ es tl, [TIdent "a"; TArrow; TExpr (XInit true (init_const 1)); TComma; TIdent "b"] ++ [TComma] =
      es_toks es ++ tail_toks tl ∧ ss = es_stmts (λ _, 3) [] es ∧
      ∀ f i, EInit f true i ∈ es → true = true ∧ ∃ d', d' ∈ ds ∧ d_name d' = f ∧ d_pinned d' = true).
Proof.
  intros ds. split; [reflexivity|].
  exact (proj2 (proj2 (pin_init_respects_pins (MkDecl [Some "cfg"; None] (Some "pub") "a" "Mutex" false)
    [MkDecl [] None "b" "u32" false] (λ _, 3)
    [TIdent "a"; TArrow; TExpr (XInit true (init_const 1)); TComma; TIdent "b"] true))).
Defined.
