(* ===== verification/InitTree.v ===== *)
(** * Nested initialisers ([init.rs], [init/macros.rs], [init/__internal.rs])

    The initialisers of fields may be structs, arrays and chains again. Here the combinators of
    [init.rs] and the statements that the macros generate (PinInit) are put together: an
    initialiser is a tree, and running it in place is compared with what the tree denotes.
    The memory of a struct or an array, while it is being built, is a slot of its own, with an
    entry for each field or element; when all of them are there it is a value of the slot
    around it, and until then that slot is uninitialised. *)

From stdpp Require Import pretty.
From S2P Require Import Prelude Types Alloc KVec KBox PinInit.

(** ** Values *)

(** [VRes] has a destructor. *)
Inductive Val :=
| VRes (x : Z)
| VPlain (x : Z)
| VStruct (fields : list (string * Val))
| VArray (elems : list Val).

(** The values with a destructor inside. *)
Fixpoint leaves (v : Val) : list Z :=
  match v with
  | VRes x => [x]
  | VPlain _ => []
  | VStruct fields => concat (map (λ f, leaves (snd f)) fields)
  | VArray elems => concat (map leaves elems)
  end.

Section Combinators.
Context {E : Type}.

(** [__pinned_init] and [__init], on the slot with a name. *)
Definition PI : Type := string → M (Slot Val) (result E unit).

(** The contract of the traits: the outcome [r], and the values [D] that are dropped on the way.
    After a failure the slot is uninitialised. *)
Definition builds (i : PI) (rd : result E Val * list Val) : Prop := ∀ g s,
  i g s = Done (result_map (λ _, tt) (fst rd),
    MkSlot (match fst rd with Ok v => <[g := v]> (mem s) | Err _ => delete g (mem s) end) (drops s ++ snd rd)).

(** [pin_init_from_closure], [init_from_closure]: the closure of an unsafe block, which keeps
    the contract. *)
Definition closure (r : result E Val) (D : list Val) : PI := λ g s,
  Done (result_map (λ _, tt) r,
    MkSlot (match r with Ok v => <[g := v]> (mem s) | Err _ => delete g (mem s) end) (drops s ++ D)).

(** [impl Init for T]. *)
Definition init_val (v : Val) : PI := λ g, _ ← slot_write g v; mret (Ok tt).

Definition slot_read (g : string) : M (Slot Val) Val := λ s,
  match mem s !! g with Some v => Done (v, s) | None => UB end.

(** A closure on a value: the new value, what it drops, and its result. *)
Abbreviation ChainFn := (Val → Val * list Val * result E unit).

Definition run_closure (f : ChainFn) (g : string) : M (Slot Val) (result E unit) :=
  v ← slot_read g;
  let '(v', D, r) := f v in
  _ ← slot_write g v';
  _ ← modify (λ s, MkSlot (mem s) (drops s ++ D));
  mret r.

(** [ChainPinInit::__pinned_init] and [ChainInit::__init]. *)
Definition pin_chain (i : PI) (f : ChainFn) : PI := λ g,
  _ ←? i g;
  r ← run_closure f g;
  match r with
  | Ok _ => mret (Ok tt)
  | Err e => _ ← slot_drop g; mret (Err e)
  end.

(** The element at an index. *)
Definition elem (k : nat) : string := pretty k.

(** [drop_in_place] of the first [n] elements. *)
Fixpoint drop_elems (k n : nat) : M (Slot Val) unit :=
  match n with O => mret tt | S n => _ ← slot_drop (elem k); drop_elems (S k) n end.

Fixpoint pin_init_array_loop (make_init : nat → PI) (init_count : ScopeGuard (Slot Val) nat) (i n : nat) :
    M (Slot Val) (ScopeGuard (Slot Val) nat * result E unit) :=
  match n with
  | O => mret (init_count, Ok tt)
  | S n =>
      r ← make_init i (elem i);
      match r with
      | Ok _ =>
          c ← scope_guard_deref init_count;
          init_count ← scope_guard_deref_mut init_count (S c);
          pin_init_array_loop make_init init_count (S i) n
      | Err e => mret (init_count, Err e)
      end
  end.

(** [pin_init_array_from_fn], [init_array_from_fn]. *)
Definition pin_init_array_from_fn (make_init : nat → PI) (n : nat) : M (Slot Val) (result E unit) :=
  out ← pin_init_array_loop make_init (new_with_data 0%nat (drop_elems 0)) 0 n;
  match snd out with
  | Ok _ => _ ← dismiss (fst out); mret (Ok tt)
  | Err e => _ ← scope_guard_drop (fst out); mret (Err e)
  end.

Definition new_slot (d : list Val) : Slot Val := MkSlot ∅ d.

(** The slot of an aggregate inside of another. An initialiser that succeeds without having
    filled its slot is unsound. *)
Definition in_slot (close : gmap string Val → option Val) (init : M (Slot Val) (result E unit)) : PI := λ g s,
  match init (new_slot (drops s)) with
  | Done (Ok _, s') =>
      match close (mem s') with
      | Some v => Done (Ok tt, MkSlot (<[g := v]> (mem s)) (drops s'))
      | None => UB
      end
  | Done (Err e, s') => Done (Err e, MkSlot (delete g (mem s)) (drops s'))
  | Panic => Panic
  | UB => UB
  end.

Definition close_struct (fs : list string) (m : gmap string Val) : option Val :=
  VStruct <$> mapM (λ f, pair f <$> m !! f) fs.
Definition close_array (n : nat) (m : gmap string Val) : option Val :=
  VArray <$> mapM (λ k, m !! elem k) (seq 0 n).

(** The initialisers that [make_init] returns. *)
Definition nth_init (il : list PI) (k : nat) : PI := match il !! k with Some i => i | None => λ _, ub end.

(** ** Trees of initialisers *)

Inductive IExp :=
| IValue (v : Val)
| IClosure (pin : bool) (r : result E Val) (D : list Val)
| IChain (pin : bool) (i : IExp) (f : ChainFn)
| IArray (pin : bool) (es : IExps)
| IStruct (use_data : bool) (fs pinned : list string) (env zero : string → Val) (base : bool) (es : IFields)
with IExps :=
| INil
| ICons (e : IExp) (es : IExps)
with IFields :=
| FNil
| FInit (f : string) (e : IExp) (es : IFields)                              (* [f <- e,] *)
| FVal (f : string) (r : result E Val) (D : list Val) (es : IFields)        (* [f: e,] *)
| FShort (f : string) (es : IFields).                                       (* [f,] *)

(** Whether it implements [PinInit] only; [pin_chain] and [pin_init_array_from_fn] do, and
    the initialisers of [pin_init!]. *)
Definition needs_pin (e : IExp) : bool :=
  match e with
  | IValue _ => false
  | IClosure pin _ _ | IChain pin _ _ | IArray pin _ => pin
  | IStruct use_data _ _ _ _ _ _ => use_data
  end.

(** An expression [f: e] of a struct. *)
Definition value_expr (r : result E Val) (D : list Val) : M (Slot Val) (result E Val) := λ s,
  Done (r, MkSlot (mem s) (drops s ++ D)).

(** The code; [None] if it does not type-check. *)
Fixpoint compile (e : IExp) : option PI :=
  match e with
  | IValue v => Some (init_val v)
  | IClosure _ r D => Some (closure r D)
  | IChain pin i f => c ← compile i; if pin || negb (needs_pin i) then Some (pin_chain c f) else None
  | IArray pin es =>
      cs ← compile_all pin es;
      Some (in_slot (close_array (length cs)) (pin_init_array_from_fn (nth_init cs) (length cs)))
  | IStruct use_data fs pinned env zero base es =>
      entries ← compile_fields es;
      code ← init_internal use_data fs pinned env (es_toks entries ++ if base then [TZeroed] else []);
      if bool_decide (NoDup fs) then Some (in_slot (close_struct fs) (run_init fs zero code)) else None
  end
with compile_all (pin : bool) (es : IExps) : option (list PI) :=
  match es with
  | INil => Some []
  | ICons e es =>
      c ← compile e; cs ← compile_all pin es;
      if pin || negb (needs_pin e) then Some (c :: cs) else None
  end
with compile_fields (es : IFields) : option (list (Entry Val E)) :=
  match es with
  | FNil => Some []
  | FInit f e es => c ← compile e; cs ← compile_fields es; Some (EInit f (needs_pin e) c :: cs)
  | FVal f r D es => cs ← compile_fields es; Some (EVal f (value_expr r D) :: cs)
  | FShort f es => cs ← compile_fields es; Some (EShort f :: cs)
  end.

(** ** What a tree denotes *)

(** Outcomes in a row up to the first error: the values made, what was dropped, the error. *)
Fixpoint in_sequence (rs : list (result E Val * list Val)) : list Val * list Val * option E :=
  match rs with
  | [] => ([], [], None)
  | (Ok v, D) :: rs => let '(vs, D', o) := in_sequence rs in (v :: vs, D ++ D', o)
  | (Err e, D) :: _ => ([], D, Some e)
  end.

Fixpoint denotes (e : IExp) : result E Val * list Val :=
  match e with
  | IValue v => (Ok v, [])
  | IClosure _ r D => (r, D)
  | IChain _ i f =>
      match denotes i with
      | (Ok v, D) =>
          let '(v', D', r) := f v in
          match r with Ok _ => (Ok v', D ++ D') | Err e => (Err e, D ++ D' ++ [v']) end
      | (Err e, D) => (Err e, D)
      end
  | IArray _ es =>
      let '(vs, D, o) := in_sequence (denote_all es) in
      match o with None => (Ok (VArray vs), D) | Some e => (Err e, D ++ vs) end
  | IStruct _ fs _ env zero _ es =>
      let rs := denote_fields env es in
      let '(vs, D, o) := in_sequence (snd <$> rs) in
      match o with
      | None => (Ok (VStruct ((λ f, (f, default (zero f) ((list_to_map (zip (fst <$> rs) vs) : gmap string Val) !! f))) <$> fs)), D)
      | Some e => (Err e, D ++ rev vs)
      end
  end
with denote_all (es : IExps) : list (result E Val * list Val) :=
  match es with INil => [] | ICons e es => denotes e :: denote_all es end
with denote_fields (env : string → Val) (es : IFields) : list (string * (result E Val * list Val)) :=
  match es with
  | FNil => []
  | FInit f e es => (f, denotes e) :: denote_fields env es
  | FVal f r D es => (f, (r, D)) :: denote_fields env es
  | FShort f es => (f, (Ok (env f), [])) :: denote_fields env es
  end.

(** The types: what needs to be pinned goes only where a pinned initialiser is asked for. *)
Fixpoint field_names (es : IFields) : list string :=
  match es with FNil => [] | FInit f _ es | FVal f _ _ es | FShort f es => f :: field_names es end.

Fixpoint well_typed (e : IExp) : bool :=
  match e with
  | IValue _ | IClosure _ _ _ => true
  | IChain pin i _ => well_typed i && (pin || negb (needs_pin i))
  | IArray pin es => typed_all pin es
  | IStruct use_data fs pinned _ _ base es =>
      typed_fields use_data pinned es && struct_expr_ok fs (field_names es) base && bool_decide (NoDup fs)
  end
with typed_all (pin : bool) (es : IExps) : bool :=
  match es with INil => true | ICons e es => well_typed e && (pin || negb (needs_pin e)) && typed_all pin es end
with typed_fields (use_data : bool) (pinned : list string) (es : IFields) : bool :=
  match es with
  | FNil => true
  | FInit f e es => well_typed e && init_allowed use_data pinned f (needs_pin e) && typed_fields use_data pinned es
  | FVal _ _ _ es | FShort _ es => typed_fields use_data pinned es
  end.
End Combinators.
Arguments PI : clear implicits.
Arguments IExp : clear implicits.
Arguments IExps : clear implicits.
Arguments IFields : clear implicits.

Scheme IExp_mind := Induction for IExp Sort Prop
with IExps_mind := Induction for IExps Sort Prop
with IFields_mind := Induction for IFields Sort Prop.
Combined Scheme IExp_mutind from IExp_mind, IExps_mind, IFields_mind.

(** ** The combinators keep the contract *)

Section Correct.
Context {E : Type}.
Implicit Types (s : Slot Val) (i : PI E).

Lemma state_eta s : MkSlot (mem s) (drops s ++ []) = s.
Proof. rewrite app_nil_r. by destruct s. Qed.

Lemma in_sequence_cases (rs : list (result E Val * list Val)) :
  (∃ vds, rs = (λ vd, (Ok vd.1, vd.2)) <$> vds ∧ in_sequence rs = (vds.*1, concat vds.*2, None)) ∨
  (∃ vds e D rs2, rs = ((λ vd, (Ok vd.1, vd.2)) <$> vds) ++ (Err e, D) :: rs2 ∧
    in_sequence rs = (vds.*1, concat vds.*2 ++ D, Some e)).
Proof.
  induction rs as [|[[v|e] D] rs IH]; simpl.
  - left. by exists [].
  - destruct IH as [(vds & -> & ->)|(vds & e & D' & rs2 & -> & ->)].
    + left. by exists ((v, D) :: vds).
    + right. exists ((v, D) :: vds), e, D', rs2. split; [done|]. simpl. by rewrite (assoc_L (++)).
  - right. exists [], e, D, rs. done.
Qed.

Lemma builds_val v : builds (E:=E) (init_val v) (Ok v, []).
Proof. intros g s. unfold init_val, slot_write, modify, mbind, M_bind. simpl. by rewrite app_nil_r. Qed.

Lemma builds_closure r D : builds (E:=E) (closure r D) (r, D).
Proof. done. Qed.

Lemma builds_chain i f r D : builds i (r, D) →
  builds (pin_chain i f)
    match r with
    | Ok v => let '(v', D', o) := f v in
        match o with Ok _ => (Ok v', D ++ D') | Err e => (Err e, D ++ D' ++ [v']) end
    | Err e => (Err e, D)
    end.
Proof.
  intros Hi g s. unfold pin_chain, try_bind, mbind, M_bind. rewrite Hi. destruct r as [v|e]; simpl; [|done].
  unfold run_closure, slot_read, mbind, M_bind; simpl. rewrite lookup_insert_eq.
  destruct (f v) as [[v' D'] [u|e]]; simpl.
  - by rewrite insert_insert_eq, (assoc_L (++)).
  - unfold slot_drop; simpl. rewrite lookup_insert_eq. simpl.
    by rewrite !insert_insert_eq, delete_insert_eq, !(assoc_L (++)).
Qed.

(** Arrays. *)
#[local] Instance elem_inj : Inj (=) (=) elem.
Proof. unfold elem. apply _. Qed.

(** The elements from [k] on, with their values. *)
Fixpoint elems (k : nat) (vs : list Val) (m : gmap string Val) : gmap string Val :=
  match vs with [] => m | v :: vs => elems (S k) vs (<[elem k := v]> m) end.

Lemma elems_ne k vs m j : (j < k)%nat → elems k vs m !! elem j = m !! elem j.
Proof.
  revert k m. induction vs as [|v vs IH]; intros k m Hj; simpl; [done|]. rewrite IH by lia.
  rewrite lookup_insert_ne; [done|]. intros ?%(inj elem). lia.
Qed.

Lemma elems_lookup k vs m j v : vs !! j = Some v → elems k vs m !! elem (k + j)%nat = Some v.
Proof.
  revert k m j. induction vs as [|w vs IH]; intros k m [|j] Hj; simplify_eq/=.
  - rewrite Nat.add_0_r, elems_ne by lia. by rewrite lookup_insert_eq.
  - replace (k + S j)%nat with (S k + j)%nat by lia. by apply IH.
Qed.

Lemma elems_app k vs v m : elems k (vs ++ [v]) m = <[elem (k + length vs)%nat := v]> (elems k vs m).
Proof.
  revert k m. induction vs as [|w vs IH]; intros k m; simpl; [by rewrite Nat.add_0_r|].
  rewrite IH. by replace (S k + length vs)%nat with (k + S (length vs))%nat by lia.
Qed.

Lemma drop_elems_ok n : ∀ k vs s, length vs = n → (∀ j v, vs !! j = Some v → mem s !! elem (k + j)%nat = Some v) →
  ∃ m, drop_elems k n s = Done (tt, MkSlot m (drops s ++ vs)).
Proof.
  induction n as [|n IH]; intros k [|v vs] s Hl Hm; simplify_eq/=.
  - exists (mem s). by rewrite state_eta.
  - pose proof (Hm 0%nat v eq_refl) as Hv. rewrite Nat.add_0_r in Hv. unfold mbind, M_bind, slot_drop. rewrite Hv.
    destruct (IH (S k) vs (MkSlot (delete (elem k) (mem s)) (drops s ++ [v]))) as [m Hd]; [done| |].
    + intros j w Hj. simpl. rewrite lookup_delete_ne by (intros ?%(inj elem); lia).
      replace (S (k + j)) with (k + S j)%nat by lia. by apply (Hm (S j)).
    + exists m. rewrite Hd. simpl. by rewrite <- (assoc_L (++)).
Qed.

(** The loop: [made] elements are there, [n] are to come. *)
Lemma pin_array_loop_ok (il : list (PI E)) mk : ∀ (rds : list (result E Val * list Val)) n made m0 s,
  Forall2 builds (drop n il) rds → n = length made → mk = nth_init il →
  mem s = elems 0 made m0 →
  let '(vs, D, o) := in_sequence rds in
  ∃ m, pin_init_array_loop mk (new_with_data (length made) (drop_elems 0)) n (length rds) s =
    Done ((new_with_data (length made + length vs)%nat (drop_elems 0), match o with None => Ok tt | Some e => Err e end),
      MkSlot m (drops s ++ D)) ∧
    ∀ k v, (made ++ vs) !! k = Some v → m !! elem k = Some v.
Proof.
  induction rds as [|[r D] rds IH]; intros n made m0 s Hall Hn Hmk Hs; simpl.
  - exists (mem s). rewrite Nat.add_0_r, state_eta. split; [done|]. intros k v Hk. rewrite app_nil_r in Hk.
    rewrite Hs. by apply (elems_lookup 0).
  - destruct (drop n il) as [|i il'] eqn:Ed; [by inversion Hall|].
    apply Forall2_cons_1 in Hall as [Hi Hall].
    assert (il !! n = Some i) as Hin. { pose proof (lookup_drop il n 0) as Hd. rewrite Ed, Nat.add_0_r in Hd. done. }
    assert (drop (S n) il = il') as Hd. { rewrite <- Nat.add_1_r, <- skipn_skipn, skipn_skipn, Nat.add_comm, <- skipn_skipn, Ed. done. }
    assert (mk n = i) as Hmn by (rewrite Hmk; unfold nth_init; by rewrite Hin).
    destruct r as [v|e].
    + specialize (IH (S n) (made ++ [v]) m0 (MkSlot (<[elem n := v]> (mem s)) (drops s ++ D))).
      rewrite Hd in IH. specialize (IH Hall). rewrite length_app, Nat.add_1_r in IH.
      specialize (IH ltac:(congruence) Hmk). simpl in IH. rewrite elems_app, <- Hs, <- Hn in IH. specialize (IH eq_refl).
      destruct (in_sequence rds) as [[vs D'] o]. destruct IH as (m & Hm & Hv). exists m. split.
      * unfold mbind, M_bind. rewrite Hmn, Hi. simpl. unfold scope_guard_deref, scope_guard_deref_mut; simpl.
        unfold mret, M_ret. rewrite <- Hn. etransitivity; [exact Hm|]. do 3 f_equal; [|by rewrite (assoc_L (++))].
        f_equal. f_equal. lia.
      * intros k w. rewrite <- (assoc_L (++)) in Hv. apply Hv.
    + exists (delete (elem n) (mem s)). split.
      * unfold mbind, M_bind. rewrite Hmn, Hi. simpl. by rewrite Nat.add_0_r.
      * intros k w Hk. rewrite app_nil_r in Hk. rewrite lookup_delete_ne.
        -- rewrite Hs. by apply (elems_lookup 0).
        -- intros ?%(inj elem). apply lookup_lt_Some in Hk. lia.
Qed.

Lemma mapM_lookup {A} (f : A → option Val) l vs : Forall2 (λ a v, f a = Some v) l vs → mapM f l = Some vs.
Proof. intros H. by apply mapM_Some. Qed.

Lemma builds_array (il : list (PI E)) rds : Forall2 builds il rds →
  builds (in_slot (close_array (length il)) (pin_init_array_from_fn (nth_init il) (length il)))
    (let '(vs, D, o) := in_sequence rds in
     match o with None => (Ok (VArray vs), D) | Some e => (Err e, D ++ vs) end).
Proof.
  intros Hall g s. pose proof (Forall2_length _ _ _ Hall) as Hl.
  pose proof (pin_array_loop_ok il _ rds 0 [] ∅ (new_slot (drops s)) Hall eq_refl eq_refl eq_refl) as Hr.
  rewrite Hl. unfold in_slot, pin_init_array_from_fn, mbind, M_bind. simpl in Hr.
  destruct (in_sequence_cases rds) as [(vds & Hrs & Eq)|(vds & e & D & rs2 & Hrs & Eq)]; rewrite Eq in Hr |- *;
    destruct Hr as (m & Hm & Hv); rewrite Hm; simpl.
  - unfold close_array. rewrite (mapM_lookup _ _ vds.*1); [done|].
    apply Forall2_same_length_lookup_2; [by rewrite length_seq, Hrs, !length_fmap|].
    intros k a v Ha Hk. apply lookup_seq in Ha as [-> _]. by apply Hv.
  - unfold scope_guard_drop; simpl. rewrite length_fmap.
    destruct (drop_elems_ok (length vds) 0 vds.*1 (MkSlot m (drops s ++ concat vds.*2 ++ D))) as [m' Hd];
      [by rewrite length_fmap|done|]. rewrite Hd. simpl. by rewrite <- !(assoc_L (++)).
Qed.

(** Structs. *)
Lemma init_slot_refuses ud pn (env : string → Val) (es : list (Entry Val E)) tl : forallb (e_allowed ud pn) es = false →
  ∀ guards, init_slot ud pn env guards (es_toks es ++ tail_toks tl) = None.
Proof.
  induction es as [|en es IH]; intros Ha guards; [done|]. simpl in Ha. unfold es_toks in *.
  destruct en as [f np i|f v|f]; simpl in *.
  - destruct (init_allowed ud pn f np); [|done]. simpl in Ha. by rewrite IH.
  - by rewrite IH.
  - by rewrite IH.
Qed.

Lemma init_internal_entries ud fs pn env (es : list (Entry Val E)) (base : bool) :
  init_internal ud fs pn env (es_toks es ++ if base then [TZeroed] else []) =
  if forallb (e_allowed ud pn) es && struct_expr_ok fs (e_name <$> es) base then Some (base, es_stmts env [] es) else None.
Proof.
  set (tl := if base then TlBaseComma else TlComma).
  assert ((es_toks es ++ if base then [TZeroed] else []) ++ [TComma] = es_toks es ++ tail_toks tl) as Ht.
  { rewrite <- (assoc_L (++)). by destruct base. }
  assert (base = is_base tl) as Hb by (by destruct base).
  destruct (forallb (e_allowed ud pn) es) eqn:Ha; simpl.
  - unfold init_internal. rewrite Ht, init_slot_print by done. simpl. rewrite make_initializer_print. simpl.
    by rewrite (munch_zeroed_print _ _ _ Ht), <- Hb.
  - unfold init_internal. rewrite Ht. by rewrite (init_slot_refuses _ _ _ _ _ Ha).
Qed.

(** An entry does what is listed for it. *)
Definition entry_for (env : string → Val) (en : Entry Val E) (x : string * (result E Val * list Val)) : Prop :=
  e_name en = fst x ∧ e_implements env en (fst (snd x)) (snd (snd x)).

Lemma entries_succeed env es rs vds : Forall2 (entry_for env) es rs → snd <$> rs = (λ vd, (Ok vd.1, vd.2)) <$> vds →
  Forall2 (e_succeeds env) es vds.
Proof.
  intros Hall. revert vds. induction Hall as [|en x es rs [_ He] _ IH]; intros [|vd vds] Hrs; simplify_eq/=; [constructor|].
  constructor; [|by apply IH]. unfold e_succeeds. destruct (snd x). by simplify_eq/=.
Qed.

Lemma entries_names env es rs : Forall2 (entry_for env) es rs → e_name <$> es = fst <$> rs.
Proof. induction 1 as [|en x es rs [Hn _] _ IH]; [done|]. by rewrite !fmap_cons, Hn, IH. Qed.

Lemma builds_struct fs env zero base (es : list (Entry Val E)) rs : Forall2 (entry_for env) es rs →
  struct_expr_ok fs (e_name <$> es) base = true →
  builds (in_slot (close_struct fs) (run_init fs zero (base, es_stmts env [] es)))
    (let '(vs, D, o) := in_sequence (snd <$> rs) in
     match o with
     | None => (Ok (VStruct ((λ f, (f, default (zero f) ((list_to_map (zip (fst <$> rs) vs) : gmap string Val) !! f))) <$> fs)), D)
     | Some e => (Err e, D ++ rev vs)
     end).
Proof.
  intros Hall Hok g s. pose proof (entries_names _ _ _ Hall) as Hnames. unfold in_slot; cbn beta iota.
  destruct (in_sequence_cases (snd <$> rs)) as [(vds & Hrs & ->)|(vds & e & D & rs2 & Hrs & ->)].
  - pose proof (entries_succeed _ _ _ _ Hall Hrs) as Hes.
    destruct (init_all env fs zero base es vds (new_slot (drops s)) eq_refl Hok Hes) as (m & Hm & _ & Hv & Hz).
    rewrite Hm. simpl. unfold close_struct.
    rewrite (proj2 (mapM_Some _ _ ((λ f, (f, default (zero f) ((list_to_map (zip rs.*1 vds.*1) : gmap string Val) !! f))) <$> fs))); [done|].
    apply Forall2_fmap_r, Forall_Forall2_diag, Forall_forall. intros f Hf. simpl.
    rewrite <- Hnames. pose proof (proj1 (struct_expr_spec fs _ base Hok)) as Hnd.
    pose proof (Forall2_length _ _ _ Hes) as Hl.
    destruct (decide (f ∈ e_name <$> es)) as [Hin|Hni].
    + pose proof Hin as Hin'. apply list_elem_of_lookup in Hin as [k Hk].
      apply list_lookup_fmap_Some in Hk as (en & -> & Hen).
      destruct (lookup_lt_is_Some_2 vds k) as [vd Hvd]; [rewrite <- Hl; by eapply lookup_lt_Some|].
      rewrite (Hv k en vd) by done. simpl. rewrite (elem_of_list_to_map_1 (M := gmap string) _ _ vd.1); [done| |].
      * by rewrite fst_zip by (rewrite !length_fmap; lia).
      * apply list_elem_of_lookup. exists k. apply lookup_zip_with_Some.
        exists (e_name en), vd.1. rewrite !list_lookup_fmap, Hen, Hvd. done.
    + rewrite Hz by done. simpl. rewrite not_elem_of_list_to_map_1; [done|].
      by rewrite fst_zip by (rewrite !length_fmap; lia).
  - assert (∃ rs1 x rs3, rs = rs1 ++ x :: rs3 ∧ snd <$> rs1 = (λ vd, (Ok vd.1, vd.2)) <$> vds ∧ snd x = (Err e, D))
      as (rs1 & x & rs3 & -> & Hrs1 & Hx).
    { apply fmap_app_inv in Hrs as (rs1 & rs' & E1 & E2 & ->). destruct rs' as [|x rs3]; [done|].
      injection E2 as E2 _. by exists rs1, x, rs3. }
    apply Forall2_app_inv_r in Hall as (es1 & es' & Hes1 & Hes' & ->).
    apply Forall2_cons_inv_r in Hes' as (en & es2 & [_ Hen] & _ & ->). rewrite Hx in Hen.
    destruct (init_none env fs zero base es1 en es2 vds e D (new_slot (drops s)) eq_refl Hok
      (entries_succeed _ _ _ _ Hes1 Hrs1) Hen) as (s' & Hr & Hd & _). rewrite Hr. simpl. do 2 f_equal.
    rewrite Hd. simpl. by rewrite <- !(assoc_L (++)).
Qed.

(** Trees. *)
Definition tree_ok (e : IExp E) : Prop :=
  match compile e with
  | Some i => well_typed e = true ∧ builds i (denotes e)
  | None => well_typed e = false
  end.
Definition trees_ok (es : IExps E) : Prop := ∀ pin,
  match compile_all pin es with
  | Some il => typed_all pin es = true ∧ Forall2 builds il (denote_all es)
  | None => typed_all pin es = false
  end.
Definition fields_ok (es : IFields E) : Prop := ∀ ud pinned env,
  match compile_fields es with
  | Some cs => typed_fields ud pinned es = forallb (e_allowed ud pinned) cs ∧ e_name <$> cs = field_names es ∧
      Forall2 (entry_for env) cs (denote_fields env es)
  | None => typed_fields ud pinned es = false
  end.

Lemma chain_ok pin (i : IExp E) f : tree_ok i → tree_ok (IChain pin i f).
Proof.
  unfold tree_ok. cbn [compile well_typed denotes]. destruct (compile i) as [c|]; simpl; [|by intros ->].
  intros [-> Hb]. destruct (pin || negb (needs_pin i)); [|done]. split; [done|].
  destruct (denotes i) as [r D]. pose proof (builds_chain c f r D Hb) as Hc. by destruct r.
Qed.

Lemma array_ok pin es : trees_ok es → tree_ok (IArray pin es).
Proof.
  intros Hes. specialize (Hes pin). unfold tree_ok. cbn [compile well_typed denotes].
  destruct (compile_all pin es) as [cs|]; simpl; [|done]. destruct Hes as [-> Hes]. split; [done|]. by apply builds_array.
Qed.

Lemma struct_ok ud fs pinned env zero base es : fields_ok es → tree_ok (IStruct ud fs pinned env zero base es).
Proof.
  intros Hes. specialize (Hes ud pinned env). unfold tree_ok. cbn [compile well_typed denotes].
  destruct (compile_fields es) as [cs|]; simpl; [|by rewrite Hes]. destruct Hes as (-> & Hn & Hes).
  rewrite init_internal_entries. rewrite <- Hn. destruct (forallb (e_allowed ud pinned) cs); [|done]. simpl.
  destruct (struct_expr_ok fs (e_name <$> cs) base) eqn:Hok; [|done]. simpl.
  destruct (bool_decide (NoDup fs)); [|done]. split; [done|]. by apply builds_struct.
Qed.

Lemma trees_cons_ok e es : tree_ok e → trees_ok es → trees_ok (ICons e es).
Proof.
  intros He Hes pin. specialize (Hes pin). unfold tree_ok in He. cbn [compile_all typed_all denote_all].
  destruct (compile e) as [c|]; simpl; [|by rewrite He]. destruct He as [-> Hb].
  destruct (compile_all pin es) as [cs|]; simpl; [|by rewrite Hes, andb_false_r]. destruct Hes as [-> Hall].
  destruct (pin || negb (needs_pin e)); [|done]. split; [done|]. by constructor.
Qed.

Lemma field_init_ok f e es : tree_ok e → fields_ok es → fields_ok (FInit f e es).
Proof.
  intros He Hes ud pinned env. specialize (Hes ud pinned env). unfold tree_ok in He.
  cbn [compile_fields typed_fields denote_fields field_names].
  destruct (compile e) as [c|]; simpl; [|by rewrite He]. destruct He as [-> Hb].
  destruct (compile_fields es) as [cs|]; simpl; [|by rewrite Hes, andb_false_r]. destruct Hes as (-> & <- & Hall).
  split; [done|]. split; [done|]. constructor; [|done]. split; [done|]. intros s. apply Hb.
Qed.

Lemma field_value_ok f r D es : fields_ok es → fields_ok (FVal f r D es).
Proof.
  intros Hes ud pinned env. specialize (Hes ud pinned env). cbn [compile_fields typed_fields denote_fields field_names].
  destruct (compile_fields es) as [cs|]; simpl; [|done]. destruct Hes as (-> & <- & Hall).
  split; [done|]. split; [done|]. by constructor.
Qed.

Lemma field_short_ok f es : fields_ok es → fields_ok (FShort f es).
Proof.
  intros Hes ud pinned env. specialize (Hes ud pinned env). cbn [compile_fields typed_fields denote_fields field_names].
  destruct (compile_fields es) as [cs|]; simpl; [|done]. destruct Hes as (-> & <- & Hall).
  split; [done|]. split; [done|]. by constructor.
Qed.

Lemma all_trees_ok e : tree_ok e.
Proof.
  apply (IExp_mind E tree_ok trees_ok fields_ok).
  - intros v. split; [done|apply builds_val].
  - intros pin r D. split; [done|apply builds_closure].
  - intros pin i Hi f. by apply chain_ok.
  - intros pin es Hes. by apply array_ok.
  - intros ud fs pinned env zero base es Hes. by apply struct_ok.
  - intros pin. by split.
  - intros e1 He es Hes. by apply trees_cons_ok.
  - intros ud pinned env. by split_and!.
  - intros f e1 He es Hes. by apply field_init_ok.
  - intros f r D es Hes. by apply field_value_ok.
  - intros f es Hes. by apply field_short_ok.
Qed.
End Correct.

(** ** Nothing is lost *)

Section Conservation.
Context {E : Type}.

Definition all_leaves (vs : list Val) : list Z := concat (map leaves vs).
Definition is_ok_val (rd : result E Val * list Val) : bool := is_ok (fst rd).

(** The values with a destructor that a tree makes, as far as it gets. *)
Fixpoint made (e : IExp E) : list Z :=
  match e with
  | IValue v => leaves v
  | IClosure _ r D => match r with Ok v => leaves v | Err _ => [] end ++ all_leaves D
  | IChain _ i _ => made i
  | IArray _ es => made_all es
  | IStruct _ _ _ env _ _ es => made_fields env es
  end
with made_all (es : IExps E) : list Z :=
  match es with
  | INil => []
  | ICons e es => made e ++ if is_ok_val (denotes e) then made_all es else []
  end
with made_fields (env : string → Val) (es : IFields E) : list Z :=
  match es with
  | FNil => []
  | FInit _ e es => made e ++ if is_ok_val (denotes e) then made_fields env es else []
  | FVal _ r D es => match r with Ok v => leaves v ++ all_leaves D ++ made_fields env es | Err _ => all_leaves D end
  | FShort f es => leaves (env f) ++ made_fields env es
  end.

(** The closures of [chain] keep or drop what they get, and zeroed memory holds nothing. *)
Fixpoint balanced (e : IExp E) : Prop :=
  match e with
  | IValue _ | IClosure _ _ _ => True
  | IChain _ i f => balanced i ∧ ∀ v, leaves v ≡ₚ leaves (fst (fst (f v))) ++ all_leaves (snd (fst (f v)))
  | IArray _ es => balanced_all es
  | IStruct _ fs _ _ zero _ es => balanced_fields es ∧ ∀ f, f ∈ fs → leaves (zero f) = []
  end
with balanced_all (es : IExps E) : Prop := match es with INil => True | ICons e es => balanced e ∧ balanced_all es end
with balanced_fields (es : IFields E) : Prop :=
  match es with
  | FNil => True
  | FInit _ e es => balanced e ∧ balanced_fields es
  | FVal _ _ _ es | FShort _ es => balanced_fields es
  end.

(** What is left of it: in the result, and dropped. *)
Definition kept (rd : result E Val * list Val) : list Z :=
  match fst rd with Ok v => leaves v | Err _ => [] end ++ all_leaves (snd rd).
Definition kept_seq (rs : list (result E Val * list Val)) : list Z :=
  all_leaves (fst (fst (in_sequence rs))) ++ all_leaves (snd (fst (in_sequence rs))).

Lemma all_leaves_app l k : all_leaves (l ++ k) = all_leaves l ++ all_leaves k.
Proof. unfold all_leaves. by rewrite map_app, concat_app. Qed.

Lemma kept_cons rd rs : kept_seq (rd :: rs) ≡ₚ kept rd ++ if is_ok_val rd then kept_seq rs else [].
Proof.
  unfold kept_seq, kept, is_ok_val. destruct rd as [[v|e] D]; simpl; [|by rewrite app_nil_r].
  destruct (in_sequence rs) as [[vs D'] o]. simpl. rewrite all_leaves_app. unfold all_leaves; simpl. solve_Permutation.
Qed.

(** The fields of a struct in the order of its declaration. *)
Lemma concat_map_Permutation {A} (g : A → list Z) l k : l ≡ₚ k → concat (map g l) ≡ₚ concat (map g k).
Proof. intros Hp. rewrite <- !flat_map_concat_map. by apply Permutation_flat_map. Qed.

Lemma concat_map_nil {A} (g : A → list Z) l : (∀ a, a ∈ l → g a = []) → concat (map g l) = [].
Proof. induction l as [|a l IH]; intros Hg; [done|]. simpl. rewrite Hg by left. apply IH. intros b Hb. apply Hg. by right. Qed.

Lemma struct_leaves (fs names : list string) (vs : list Val) (zero : string → Val) :
  NoDup fs → NoDup names → names ⊆ fs → length names = length vs → (∀ f, f ∈ fs → leaves (zero f) = []) →
  leaves (VStruct ((λ f, (f, default (zero f) ((list_to_map (zip names vs) : gmap string Val) !! f))) <$> fs)) ≡ₚ all_leaves vs.
Proof.
  intros Hfs Hnd Hsub Hl Hz. simpl. set (m := list_to_map (zip names vs) : gmap string Val).
  set (g := λ f, leaves (default (zero f) (m !! f))).
  assert (map (λ f : string * Val, leaves f.2) ((λ f, (f, default (zero f) (m !! f))) <$> fs) = map g fs) as ->.
  { rewrite map_map. done. }
  destruct (submseteq_Permutation names fs) as [rest Hrest]; [by apply NoDup_submseteq|].
  rewrite (concat_map_Permutation g _ _ Hrest), map_app, concat_app.
  assert ((zip names vs).*1 = names) as Hfst by (apply fst_zip; lia).
  rewrite (concat_map_nil g rest), app_nil_r.
  - assert (map g names = map leaves vs) as Heq; [|unfold all_leaves; by rewrite Heq].
    apply (list_eq_same_length _ _ (length vs)); [by rewrite length_map|by rewrite length_map|].
    intros k x y _ Hx Hy. apply list_lookup_fmap_Some in Hx as (f & -> & Hf), Hy as (v & -> & Hv).
    unfold g, m. rewrite (elem_of_list_to_map_1 (M := gmap string) _ f v); [done|by rewrite Hfst|].
    apply list_elem_of_lookup. exists k. apply lookup_zip_with_Some. by exists f, v.
  - intros f Hf. unfold g, m. rewrite Hrest in Hfs. apply NoDup_app in Hfs as (_ & Hdis & _).
    rewrite not_elem_of_list_to_map_1 by (rewrite Hfst; intros Hn; by apply (Hdis f)). simpl.
    apply Hz. rewrite Hrest. apply elem_of_app. by right.
Qed.

Lemma in_sequence_all rs vs D : in_sequence (E:=E) rs = (vs, D, None) → length vs = length rs.
Proof.
  destruct (in_sequence_cases rs) as [(vds & -> & ->)|(vds & e & D' & rs2 & -> & ->)]; [|done].
  intros [= <- _]. by rewrite !length_fmap.
Qed.

Lemma denote_fields_names env es : fst <$> denote_fields (E:=E) env es = field_names es.
Proof. induction es as [|f e es IH|f r D es IH|f es IH]; [done|..]; cbn [denote_fields field_names]; by rewrite fmap_cons, IH. Qed.

Definition conserves (e : IExp E) : Prop := well_typed e = true → balanced e → kept (denotes e) ≡ₚ made e.
Definition conserves_all (es : IExps E) : Prop := ∀ pin,
  typed_all pin es = true → balanced_all es → kept_seq (denote_all es) ≡ₚ made_all es.
Definition conserves_fields (es : IFields E) : Prop := ∀ ud pinned env,
  typed_fields ud pinned es = true → balanced_fields es → kept_seq (snd <$> denote_fields env es) ≡ₚ made_fields env es.

Lemma conserves_chain pin (i : IExp E) f : conserves i → conserves (IChain pin i f).
Proof.
  intros Hi [Ht _]%andb_prop [Hb Hf]. specialize (Hi Ht Hb). cbn [denotes made]. rewrite <- Hi. clear Hi.
  destruct (denotes i) as [[v|e] D]; [|done]. specialize (Hf v). unfold kept; simpl in *.
  destruct (f v) as [[v' D'] [u|e]]; simpl in *; rewrite !all_leaves_app, Hf; unfold all_leaves; simpl; solve_Permutation.
Qed.

Lemma conserves_struct ud fs pinned env zero base es : conserves_fields es → conserves (IStruct ud fs pinned env zero base es).
Proof.
  intros He [[Ht Hok]%andb_prop Hnd%bool_decide_eq_true]%andb_prop [Hb Hz]. specialize (He ud pinned env Ht Hb).
  cbn [denotes made]. rewrite <- He. unfold kept_seq, kept.
  destruct (in_sequence (snd <$> denote_fields env es)) as [[vs D] [e|]] eqn:Es; cbn [fst snd].
  - rewrite all_leaves_app. unfold all_leaves. rewrite (concat_map_Permutation leaves (rev vs) vs) by (symmetry; apply Permutation_rev).
    solve_Permutation.
  - f_equiv. apply struct_expr_spec in Hok as (Hn & Hsub & _).
    apply struct_leaves; rewrite ?denote_fields_names; try done.
    apply in_sequence_all in Es. by rewrite Es, <- (denote_fields_names env es), !length_fmap.
Qed.

Lemma all_conserve e : conserves e.
Proof.
  apply (IExp_mind E conserves conserves_all conserves_fields).
  - intros v _ _. unfold kept; simpl. by rewrite app_nil_r.
  - intros pin [v|x] D _ _; done.
  - intros pin i Hi f. by apply conserves_chain.
  - intros pin es He Ht Hb. specialize (He pin Ht Hb). cbn [denotes made]. rewrite <- He. unfold kept_seq, kept.
    destruct (in_sequence (denote_all es)) as [[vs D] [x|]]; cbn [fst snd]; [|done].
    rewrite all_leaves_app. simpl. solve_Permutation.
  - intros ud fs pinned env zero base es Hes. by apply conserves_struct.
  - intros pin _ _. done.
  - intros e1 He es Hes pin [[Ht _]%andb_prop Ht2]%andb_prop [Hb Hb2]. cbn [denote_all made_all].
    rewrite kept_cons, (He Ht Hb). destruct (is_ok_val (denotes e1)); [by rewrite (Hes pin Ht2 Hb2)|done].
  - intros ud pinned env _ _. done.
  - intros f e1 He es Hes ud pinned env [[Ht _]%andb_prop Ht2]%andb_prop [Hb Hb2]. cbn [denote_fields made_fields].
    rewrite fmap_cons. cbn [snd]. rewrite kept_cons, (He Ht Hb).
    destruct (is_ok_val (denotes e1)); [by rewrite (Hes ud pinned env Ht2 Hb2)|done].
  - intros f r D es Hes ud pinned env Ht Hb. cbn [denote_fields made_fields]. rewrite fmap_cons. cbn [snd].
    rewrite kept_cons. unfold is_ok_val, kept; simpl. destruct r as [v|x]; simpl; [|by rewrite app_nil_r].
    by rewrite (Hes ud pinned env Ht Hb), <- (assoc_L (++)).
  - intros f es Hes ud pinned env Ht Hb. cbn [denote_fields made_fields]. rewrite fmap_cons. cbn [snd].
    rewrite kept_cons. unfold is_ok_val, kept; simpl. by rewrite (Hes ud pinned env Ht Hb), app_nil_r.
Qed.
End Conservation.

(** ** In a box *)

Section InBox.
Context {E : Type} {RT : RType Val} {RTok : RTypeOk Val} {X : Type}.

(** The slot is the allocation ([write_init], [write_pin_init]). *)
Definition in_box (i : PI E) : Init Val X E := λ p o s,
  match i "slot"%string (new_slot []) with
  | Done (Ok _, s') =>
      match mem s' !! "slot"%string with
      | Some v => (_ ← write p o v; _ ← modify (λ s, upd s (hp s) (drops s')); mret (Ok tt)) s
      | None => UB
      end
  | Done (Err e, s') => Done (Err e, upd s (hp s) (drops s'))
  | Panic => Panic
  | UB => UB
  end.

Lemma builds_implements i rd : builds i rd → implements (in_box i) (fst rd) (snd rd).
Proof.
  intros Hi s p o Hs. destruct rd as [[v|e] D]; cbn [fst snd].
  - exists (Some v). split; [|by intros ? [= <-]]. unfold in_box. rewrite Hi. simpl. rewrite lookup_insert_eq.
    apply wp_Done. apply wp_bind, write_put; [done|]. apply wp_bind, wp_modify, wp_ret. split; [done|]. done.
  - exists (slot (hp s) p o). split; [|done]. unfold in_box. rewrite Hi. simpl. by rewrite put_slot.
Qed.
End InBox.

(** ** The theorem *)

(** C40: Initialisers compose. Trees of initialisers (closures, values, [chain] and [pin_chain],
    [init_array_from_fn] and [pin_init_array_from_fn], and the statements generated by [init!] and
    [pin_init!] with all forms of fields and with zeroed bases) compile exactly if they are well
    typed, where an initialiser that relies on being pinned occurs only in fields that are
    pinned and below pinned initialisers. Run in place, at any depth, the code has no undefined
    behaviour, neither drops a field that is not initialised nor drops one twice, and does what
    the tree denotes: it fills the slot with the value of the tree, or returns the first error
    and leaves the slot uninitialised, after it has dropped what was made, structs against and
    arrays along the order of initialisation. So it keeps the contract that lets it be a part of
    another tree and be written to a box. If the closures keep or drop what they are given,
    every value with a destructor that is made ends up exactly once in the result or dropped. *)
Theorem nested_init_correct {E} {RT : RType Val} {RTok : RTypeOk Val} {X} (e : IExp E) :
  match compile e with
  | Some i =>
      well_typed e = true ∧ builds i (denotes e) ∧
      implements (X := X) (in_box i) (fst (denotes e)) (snd (denotes e)) ∧
      (balanced e → kept (denotes e) ≡ₚ made e)
  | None => well_typed e = false
  end.
Proof.
  pose proof (all_trees_ok e) as He. unfold tree_ok in He. destruct (compile e) as [i|]; [|done].
  destruct He as [Ht Hb]. split_and!; [done|done|by apply builds_implements|by apply all_conserve].
Qed.

(** A device with a name, a pinned lock, and buffers of which the last is refused. *)
#[local] Instance val_type : RType Val := {| size_of := 8; align_of := 8; zst_value := None |}.

#[local] Instance val_type_ok : RTypeOk Val.
Proof.
  split; simpl.
  - usize.
  - by exists 3.
  - lia.
  - by exists 1.
  - split; [done|]. by intros [? ?].
  - done.
Qed.

#[local] Open Scope string_scope.

Definition check_buffer (v : Val) : Val * list Val * result Z unit :=
  match v with VRes x => (v, [], if (x <? 12)%Z then Ok tt else Err 22%Z) | _ => (v, [], Ok tt) end.
Definition buffers (n : nat) : IExps Z :=
  foldr (λ k es, ICons (IChain false (IValue (VRes (10 + Z.of_nat k)%Z)) check_buffer) es) INil (seq 0 n).
Definition no_vars (f : string) : Val := VPlain 0.
Definition lock_init : IExp Z :=
  IStruct true ["state"; "data"] ["state"] no_vars no_vars false
    (FInit "state" (IClosure true (Ok (VRes 1)) []) (FVal "data" (Ok (VRes 2)) [] FNil)).
Definition device_init (pinned : list string) (n : nat) : IExp Z :=
  IStruct true ["name"; "lock"; "bufs"; "flags"] pinned (λ _, VRes 3) no_vars true
    (FShort "name" (FInit "lock" lock_init (FInit "bufs" (IArray false (buffers n)) FNil))).

Example device_ok : denotes (device_init ["lock"] 2) =
  (Ok (VStruct [("name", VRes 3); ("lock", VStruct [("state", VRes 1); ("data", VRes 2)]);
                ("bufs", VArray [VRes 10; VRes 11]); ("flags", VPlain 0)]), []).
Proof. vm_compute. reflexivity. Qed.

Example device_unpinned : compile (device_init [] 2) = None.
Proof. reflexivity. Qed.

Lemma nested_init_correct_witness :
  is_Some (compile (device_init ["lock"] 4)) ∧
  denotes (device_init ["lock"] 4) =
    (Err 22, [VRes 12; VRes 10; VRes 11; VStruct [("state", VRes 1); ("data", VRes 2)]; VRes 3]) ∧
  match compile (device_init ["lock"] 4) with
  | Some i => builds i (denotes (device_init ["lock"] 4)) ∧ kept (denotes (device_init ["lock"] 4)) ≡ₚ [3; 1; 2; 10; 11; 12]
  | None => False
  end.
Proof.
  pose proof (nested_init_correct (X := unit) (device_init ["lock"] 4)) as Hd.
  assert (is_Some (compile (device_init ["lock"] 4))) as Hs by (vm_compute; eauto).
  split; [exact Hs|]. split; [vm_compute; reflexivity|]. destruct (compile (device_init ["lock"] 4)) as [i|]; [|by destruct Hs].
  destruct Hd as (_ & Hb & _ & Hk). split; [exact Hb|]. apply Hk.
  simpl. split_and!; try done; intros v; destruct v; simpl; by rewrite ?app_nil_r.
Defined.
