(* ===== verification/MiscDevice.v ===== *)
(** * Misc devices ([rust/src/miscdevice.rs], [src/shim_fs_misc.c])

    A registration allocates a [struct miscdevice] with its file operations, publishes it
    and remembers it. Opening the device makes a file whose private data owns what
    [MiscDevice::open] returned; the other callbacks borrow it, and the last one takes it
    back. The private data is a box here ([KBox] as [ForeignOwnable]). What the driver's
    methods return and what the kernel decides (memory, [misc_register],
    [generic_file_open]) are arguments of the steps; the kernel's part of a call, which
    follows the pointer to the file operations, is in [call_fops]. *)

From S2P Require Import Prelude Errors Alloc KVec KBox UAccess.

(** ** State *)

(** [miscs]: the allocated [rs_miscdevice_priv], each with its owner and whether it is
    registered. [slots]: the [inner] of the registrations that are initialised. [files]: an
    open file, with the allocation its [f_op] points into and its private data. *)
Record Kern := MkKern {
  miscs : gmap Z (Z * bool);
  slots : gmap Z Z;
  files : gmap nat (Z * Z)
}.

Definition set_miscs (m : gmap Z (Z * bool)) (k : Kern) : Kern := MkKern m (slots k) (files k).
Definition set_slots (m : gmap Z Z) (k : Kern) : Kern := MkKern (miscs k) m (files k).
Definition set_files (m : gmap nat (Z * Z)) (k : Kern) : Kern := MkKern (miscs k) (slots k) m.

(** The optional methods that a driver implements. *)
Record Methods := MkMethods {
  HAS_MMAP : bool; HAS_LLSEEK : bool; HAS_READ_ITER : bool; HAS_WRITE_ITER : bool;
  HAS_IOCTL : bool; HAS_COMPAT_IOCTL : bool; HAS_SHOW_FDINFO : bool
}.

Inductive method := Mmap | Llseek | ReadIter | WriteIter | Ioctl | CompatIoctl | ShowFdinfo.

(** What an entry of the table calls: the method itself, or the kernel's
    [compat_ptr_ioctl], which calls the [unlocked_ioctl] entry. *)
Inductive fop := FMethod (m : method) | FCompatPtr.

Definition when (b : bool) (f : fop) : option fop := if b then Some f else None.

Definition fops_build (h : Methods) (m : method) : option fop :=
  match m with
  | Mmap => when (HAS_MMAP h) (FMethod Mmap)
  | Llseek => when (HAS_LLSEEK h) (FMethod Llseek)
  | ReadIter => when (HAS_READ_ITER h) (FMethod ReadIter)
  | WriteIter => when (HAS_WRITE_ITER h) (FMethod WriteIter)
  | Ioctl => when (HAS_IOCTL h) (FMethod Ioctl)
  | CompatIoctl => if HAS_COMPAT_IOCTL h then Some (FMethod CompatIoctl) else when (HAS_IOCTL h) FCompatPtr
  | ShowFdinfo => when (HAS_SHOW_FDINFO h) (FMethod ShowFdinfo)
  end.

(** The method that a call through the table reaches. *)
Definition reached (h : Methods) (m : method) : option method :=
  match fops_build h m with
  | Some (FMethod m) => Some m
  | Some FCompatPtr => match fops_build h Ioctl with Some (FMethod m) => Some m | _ => None end
  | None => None
  end.

(** The table as the Rust code lays it out, and as the C shim reads it. *)
Inductive entry := FOpen | FRelease | FEntry (m : method).

Definition MiscdeviceFops (cfg_compat : bool) : list entry :=
  [FOpen; FRelease; FEntry Mmap; FEntry Llseek; FEntry ReadIter; FEntry WriteIter; FEntry Ioctl] ++
  (if cfg_compat then [FEntry CompatIoctl] else []) ++ [FEntry ShowFdinfo].

Definition rs_miscdevice_fops (config_compat : bool) : list entry :=
  [FOpen; FRelease; FEntry Mmap; FEntry Llseek; FEntry ReadIter; FEntry WriteIter; FEntry Ioctl] ++
  (if config_compat then [FEntry CompatIoctl] else []) ++ [FEntry ShowFdinfo].

Section Misc.
Context {D : Type} {RT : RType D} {AL : Allocator D} (has : Methods).
Local Abbreviation DM := (M (St D unit * Kern)).

(** ** The C shim *)

(** [kz]: the block that [kzalloc] offers; the result is null when there is none. *)
Definition rs_miscdevice_init (owner : Z) (kz : option Z) : DM Z :=
  on_snd (λ k, match kz with
    | Some p => if (0 <? p) && bool_decide (miscs k !! p = None)
        then Done (p, set_miscs (<[p := (owner, false)]> (miscs k)) k) else Done (null, k)
    | None => Done (null, k)
    end).

Definition rs_miscdevice_free (misc : Z) : DM unit :=
  on_snd (λ k, if is_null misc then Done (tt, k)
    else if miscs k !! misc is Some _ then Done (tt, set_miscs (delete misc (miscs k)) k) else UB).

Definition rs_miscdevice_owner (misc : Z) : DM Z :=
  on_snd (λ k, if is_null misc then Done (null, k)
    else if miscs k !! misc is Some (owner, _) then Done (owner, k) else UB).

(** The accesses to a file and the kernel's registry. *)
Definition rs_file_private_data (f : nat) : DM Z :=
  on_snd (λ k, if files k !! f is Some (_, priv) then Done (priv, k) else UB).
Definition rs_file_set_private_data (f : nat) (p : Z) : DM unit :=
  on_snd (λ k, if files k !! f is Some (op, _) then Done (tt, set_files (<[f := (op, p)]> (files k)) k) else UB).

(** [ret] is what the kernel answers. *)
Definition misc_register (misc ret : Z) : DM Z :=
  on_snd (λ k, if miscs k !! misc is Some (owner, _)
    then Done (ret, if ret <? 0 then k else set_miscs (<[misc := (owner, true)]> (miscs k)) k) else UB).
Definition misc_deregister (misc : Z) : DM unit :=
  on_snd (λ k, if miscs k !! misc is Some (owner, true)
    then Done (tt, set_miscs (<[misc := (owner, false)]> (miscs k)) k) else UB).

(** ** Registration *)

Definition options_into_raw (owner : Z) (kz : option Z) : DM (result Error Z) :=
  misc ← rs_miscdevice_init owner kz;
  if is_null misc then mret (Err (ENOMEM : Error)) else mret (Ok misc).

(** [register], up to the point where other threads can open the device. *)
Definition register_publish (slot : Z) (kz : option Z) (ret : Z) : DM (result Error Z) :=
  let owner := slot in
  misc ←? options_into_raw owner kz;
  ret ← misc_register misc ret;
  if ret <? 0 then _ ← rs_miscdevice_free misc; mret (Err (from_errno ret)) else mret (Ok misc).

Definition slot_write_misc (slot misc : Z) : DM unit := on_snd (λ k, Done (tt, set_slots (<[slot := misc]> (slots k)) k)).

Definition register (slot : Z) (kz : option Z) (ret : Z) : DM (result Error unit) :=
  misc ←? register_publish slot kz ret;
  _ ← slot_write_misc slot misc;
  mret (Ok tt).

Definition as_raw (slot : Z) : DM Z :=
  on_snd (λ k, if slots k !! slot is Some misc then Done (misc, k) else UB).

(** [rs_miscdevice_this_device] reads the [miscdevice]. *)
Definition misc_device (slot : Z) : DM unit := misc ← as_raw slot; _ ← rs_miscdevice_owner misc; mret tt.

(** [PinnedDrop]; the storage of the registration ends with it. *)
Definition registration_drop (slot : Z) : DM unit :=
  misc ← as_raw slot;
  _ ← misc_deregister misc;
  _ ← rs_miscdevice_free misc;
  on_snd (λ k, Done (tt, set_slots (delete slot (slots k)) k)).

(** ** Callbacks *)

(** What the driver's [open] does: it may use the registration, and fails or makes a box. *)
Record TOpen := MkTOpen { uses_device : bool; state : result Error D; flags : Flags }.

Definition t_open (o : TOpen) (misc : Z) : DM (result Error Z) :=
  _ ← (if uses_device o : bool then misc_device misc else mret tt);
  match state o with
  | Ok x => r ← on_fst (box_new x (flags o)); mret (result_map_err into_error r)
  | Err e => mret (Err e)
  end.

(** [gret] is the result of [generic_file_open]. *)
Definition fops_open (gret : Z) (o : TOpen) (f : nat) : DM Z :=
  if negb (gret =? 0) then mret gret
  else
    misc_ptr ← rs_file_private_data f;
    owner ← rs_miscdevice_owner misc_ptr;
    r ← t_open o owner;
    match r with
    | Ok ptr => _ ← rs_file_set_private_data f (into_foreign ptr); mret 0
    | Err err => mret (to_errno err)
    end.

(** [T::release] drops the private data unless the driver overrides it. *)
Definition fops_release (f : nat) : DM Z :=
  private ← rs_file_private_data f;
  ptr ← on_fst (from_foreign private);
  _ ← on_fst (box_drop ptr);
  mret 0.

(** [mmap], [llseek], [read_iter], [write_iter], [ioctl], [compat_ioctl] and [show_fdinfo]: [body]
    is the driver's method. *)
Definition fops_method (body : D → result Error Z) (f : nat) : DM Z :=
  private ← rs_file_private_data f;
  device ← on_fst (borrow private);
  match body device with
  | Ok res => mret res
  | Err err => mret (to_errno err)
  end.

(** ** The kernel's side *)

(** A call on a file reads its [f_op], which lies in the allocation of the device. *)
Definition read_fops (f : nat) : DM unit :=
  on_snd (λ k, match files k !! f with
    | Some (op, _) => if miscs k !! op is Some _ then Done (tt, k) else UB
    | None => UB
    end).

Definition call_fops {R} (f : nat) (call : DM R) : DM R := _ ← read_fops f; call.

(** [misc_open]: the private data is the [miscdevice] when [open] is called; a file whose
    [open] fails is gone. *)
Definition misc_open (misc : Z) (gret : Z) (o : TOpen) (f : nat) : DM Z :=
  _ ← on_snd (λ k, Done (tt, set_files (<[f := (misc, misc)]> (files k)) k));
  ret ← call_fops f (fops_open gret o f);
  _ ← (if ret =? 0 then mret tt else on_snd (λ k, Done (tt, set_files (delete f (files k)) k)));
  mret ret.

Definition file_close (f : nat) : DM Z :=
  ret ← call_fops f (fops_release f);
  _ ← on_snd (λ k, Done (tt, set_files (delete f (files k)) k));
  mret ret.

(** ** Programs *)

Inductive MiscOp :=
| MRegister (slot : Z) (kz : option Z) (ret : Z)
| MDrop (slot : Z)
| MOpen (slot : Z) (gret : Z) (o : TOpen) (f : nat)
| MCall (f : nat) (m : method) (body : method → D → result Error Z)
| MClose (f : nat).

(** One step; those that cannot happen are skipped: a second initialisation of a slot, an
    open of a device that is not registered or of a file number in use, and so on. *)
Definition misc_step (op : MiscOp) : DM (option Z) :=
  k ← on_snd get;
  match op with
  | MRegister slot kz ret =>
      if slots k !! slot is Some _ then mret None
      else r ← register slot kz ret; mret (Some (match r with Ok _ => 0 | Err e => to_errno e end))
  | MDrop slot => if slots k !! slot is Some _ then _ ← registration_drop slot; mret None else mret None
  | MOpen slot gret o f =>
      match slots k !! slot, files k !! f with
      | Some misc, None => r ← misc_open misc gret o f; mret (Some r)
      | _, _ => mret None
      end
  | MCall f m body =>
      match files k !! f, reached has m with
      | Some _, Some m' => r ← call_fops f (fops_method (body m') f); mret (Some r)
      | _, _ => mret None
      end
  | MClose f => if files k !! f is Some _ then r ← file_close f; mret (Some r) else mret None
  end.

Fixpoint misc_run (ops : list MiscOp) : DM (list (option Z)) :=
  match ops with
  | [] => mret []
  | op :: ops => o ← misc_step op; os ← misc_run ops; mret (o :: os)
  end.
End Misc.

(** ** The abstract machine

    The registrations, and the open files with their device and the state that the driver
    made for them; there is no memory. *)

Record MAbs (D : Type) := MkMAbs { regs : gmap Z Z; opened : gmap nat (Z * D) }.
Arguments MkMAbs {D} _ _.
Arguments regs {D} _.
Arguments opened {D} _.

Section MiscSpec.
Context {D : Type} (has : Methods).
Implicit Types (A : MAbs D).

Definition code_of (r : result Error Z) : Z := match r with Ok z => z | Err e => to_errno e end.

(** [ok]: whether there is memory for a box. The last component is what is dropped. *)
Definition misc_spec (ok : bool) A (op : MiscOp (D := D)) : MAbs D * option Z * list D :=
  match op with
  | MRegister slot kz ret =>
      if regs A !! slot is Some _ then (A, None, [])
      else match kz with
        | Some p =>
            if (0 <? p) && bool_decide (map_Forall (λ _ m, m ≠ p) (regs A)) then
              if ret <? 0 then (A, Some (to_errno (from_errno ret)), [])
              else (MkMAbs (<[slot := p]> (regs A)) (opened A), Some 0, [])
            else (A, Some (to_errno ENOMEM), [])
        | None => (A, Some (to_errno ENOMEM), [])
        end
  | MDrop slot => (MkMAbs (delete slot (regs A)) (opened A), None, [])
  | MOpen slot gret o f =>
      match regs A !! slot, opened A !! f with
      | Some misc, None =>
          if negb (gret =? 0) then (A, Some gret, [])
          else match state o with
            | Ok x => if ok then (MkMAbs (regs A) (<[f := (misc, x)]> (opened A)), Some 0, [])
                      else (A, Some (to_errno ENOMEM), [x])
            | Err e => (A, Some (to_errno e), [])
            end
      | _, _ => (A, None, [])
      end
  | MCall f m body =>
      match opened A !! f, reached has m with
      | Some (_, x), Some m' => (A, Some (code_of (body m' x)), [])
      | _, _ => (A, None, [])
      end
  | MClose f =>
      if opened A !! f is Some (_, x) then (MkMAbs (regs A) (delete f (opened A)), Some 0, [x]) else (A, None, [])
  end.

Inductive misc_exec : MAbs D → list MiscOp → MAbs D → list (option Z) → list D → Prop :=
| misc_exec_nil A : misc_exec A [] A [] []
| misc_exec_cons A op ops A1 o d1 A2 os d2 ok : misc_spec ok A op = (A1, o, d1) → misc_exec A1 ops A2 os d2 →
    misc_exec A (op :: ops) A2 (o :: os) (d1 ++ d2).

(** The discipline of a driver: a registration is not dropped while a file of it is open,
    and errors are errors. [T]: the files that may be open, with their registration. *)
Definition op_next (T : gmap nat Z) (op : MiscOp (D := D)) : option (gmap nat Z) :=
  match op with
  | MRegister _ _ _ => Some T
  | MDrop slot => if bool_decide (map_Forall (λ _ sl, sl ≠ slot) T) then Some T else None
  | MOpen slot _ o f =>
      if T !! f is Some _ then None
      else match state o with
        | Err e => if to_errno e <? 0 then Some (<[f := slot]> T) else None
        | Ok _ => Some (<[f := slot]> T)
        end
  | MCall f _ _ => Some T
  | MClose f => Some (delete f T)
  end.

Fixpoint closed_before_drop (T : gmap nat Z) (ops : list MiscOp) : bool :=
  match ops with
  | [] => true
  | op :: ops => if op_next T op is Some T' then closed_before_drop T' ops else false
  end.
End MiscSpec.

Section MiscOk.
Context {D : Type} {RT : RType D} {RTok : RTypeOk D} {AL : Allocator D} {ALs : AllocatorSpec D} (has : Methods).
Implicit Types (s : St D unit) (k : Kern) (A : MAbs D) (T : gmap nat Z).

Definition boxes_of k : gmap nat (Z * bool) := (λ e, (e.2, true)) <$> files k.
Definition vals_of A : gmap nat (option D) := (λ e, Some e.2) <$> opened A.

Record misc_rep h0 T A s k : Prop := {
  mi_boxes : boxes_rep h0 (boxes_of k) (vals_of A) (hp s);
  mi_ops : fst <$> files k = fst <$> opened A;
  mi_slots : slots k = regs A;
  mi_miscs : ∀ p o b, miscs k !! p = Some (o, b) ↔ b = true ∧ slots k !! o = Some p;
  mi_pos : ∀ o p, slots k !! o = Some p → 0 < p;
  mi_track : ∀ f op, fst <$> files k !! f = Some op → ∃ slot, T !! f = Some slot ∧ slots k !! slot = Some op
}.

Lemma wp_ret_inv {Σ B C} (m : M Σ B) (g : B → C) Q (σ : Σ) :
  wp (x ← m; mret (g x)) Q σ → wp m (λ x σ', Q (g x) σ') σ.
Proof.
  intros (c & s' & Hm & HQ). unfold mbind, M_bind in Hm. destruct (m σ) as [[x s1]| |] eqn:E; [|done..].
  injection Hm as <- <-. by exists x, s1.
Qed.

Lemma rep_file h0 T A s k f : misc_rep h0 T A s k →
  match files k !! f with
  | Some (op, priv) => ∃ x, opened A !! f = Some (op, x) ∧ slot (hp s) priv 0 = Some x ∧ 0 < priv ∧
      boxes_of k !! f = Some (priv, true) ∧ vals_of A !! f = Some (Some x) ∧ is_Some (miscs k !! op)
  | None => opened A !! f = None
  end.
Proof.
  intros [Hb Ho Hs Hm Hp Ht]. pose proof (f_equal (.!! f) Ho) as Hf. cbn beta in Hf. rewrite !lookup_fmap in Hf.
  specialize (Ht f). destruct (files k !! f) as [[op priv]|] eqn:E; [|by destruct (opened A !! f)].
  destruct (opened A !! f) as [[op' x]|] eqn:Ea; [|done]. simplify_eq/=.
  assert (boxes_of k !! f = Some (priv, true)) as Hbf by (unfold boxes_of; by rewrite lookup_fmap, E).
  assert (vals_of A !! f = Some (Some x)) as Hvf by (unfold vals_of; by rewrite lookup_fmap, Ea).
  destruct (Ht op' eq_refl) as (sl & _ & Hsl). exists x. split_and!; [done| | |done|done|].
  - by eapply (br_val _ _ _ _ Hb).
  - by eapply (br_pos _ _ _ _ Hb).
  - exists (sl, true). by apply Hm.
Qed.

(** *** Registration *)

Definition misc_post h0 T' A s (op : MiscOp) (out : option Z) (s' : St D unit * Kern) : Prop :=
  ∃ ok A' d, misc_spec has ok A op = (A', out, d) ∧ misc_rep h0 T' A' s'.1 s'.2 ∧ dropped s'.1 = dropped s ++ d.

Lemma post_same h0 T A s k op out : misc_rep h0 T A s k → misc_spec has true A op = (A, out, []) →
  misc_post h0 T A s op out (s, k).
Proof. intros Hr Hs. exists true, A, []. by rewrite app_nil_r. Qed.

Lemma fresh_misc h0 T A s k p : misc_rep h0 T A s k →
  bool_decide (miscs k !! p = None) = bool_decide (map_Forall (λ _ m, m ≠ p) (regs A)).
Proof.
  intros Hr. apply bool_decide_ext. rewrite <- (mi_slots _ _ _ _ _ Hr). split.
  - intros Hn o m Hm ->. assert (miscs k !! p = Some (o, true)) by (by apply (mi_miscs _ _ _ _ _ Hr)). congruence.
  - intros Hf. destruct (miscs k !! p) as [[o b]|] eqn:E; [|done].
    apply (mi_miscs _ _ _ _ _ Hr) in E as [_ E]. by destruct (Hf _ _ E).
Qed.

(** A step of the kernel on its own state. *)
Lemma wp_kern {B} (m : M Kern B) b k' Q s k : m k = Done (b, k') → Q b (s, k') → wp (on_snd m) Q (s, k).
Proof. intros Hm HQ. apply wp_on_snd. by exists b, k'. Qed.

Lemma step_register h0 T A s k slot kz ret : misc_rep h0 T A s k →
  wp (misc_step has (MRegister slot kz ret)) (misc_post h0 T A s (MRegister slot kz ret)) (s, k).
Proof.
  intros Hr. simpl. apply wp_bind. eapply wp_kern; [done|]. pose proof (mi_slots _ _ _ _ _ Hr) as Hs.
  destruct (slots k !! slot) as [m|] eqn:Hsl.
  { apply wp_ret, post_same; [done|]. simpl. by rewrite <- Hs, Hsl. }
  assert (regs A !! slot = None) as Hreg by congruence.
  apply wp_bind. unfold register, register_publish, options_into_raw, rs_miscdevice_init.
  apply wp_try, wp_try, wp_bind. destruct kz as [p|].
  2: { eapply wp_kern; [done|]. apply wp_ret, wp_ret. apply post_same; [done|]. simpl. by rewrite <- Hs, Hsl. }
  destruct ((0 <? p) && bool_decide (miscs k !! p = None)) eqn:Hp; pose proof Hp as Hp';
    rewrite (fresh_misc _ _ _ _ _ p Hr) in Hp'.
  2: { eapply wp_kern; [cbn; by rewrite Hp|]. apply wp_ret, wp_ret. apply post_same; [done|]. simpl.
       by rewrite Hreg, Hp'. }
  eapply wp_kern; [cbn; by rewrite Hp|]. apply andb_true_iff in Hp as [Hpos Hfr]. apply Z.ltb_lt in Hpos.
  apply bool_decide_eq_true in Hfr. unfold is_null, null. rewrite (proj2 (Z.eqb_neq p 0)) by lia. apply wp_ret.
  apply wp_bind. eapply wp_kern; [cbn; by rewrite lookup_insert_eq|]. destruct (ret <? 0) eqn:Hret.
  - apply wp_bind. unfold rs_miscdevice_free, is_null, null.
    eapply wp_kern; [cbn; by rewrite (proj2 (Z.eqb_neq p 0)), lookup_insert_eq by lia|].
    apply wp_ret, wp_ret. exists true, A, []. rewrite app_nil_r. simpl. rewrite Hreg, Hp', Hret.
    split; [done|]. split; [|done]. rewrite delete_insert_id by done. by destruct k.
  - apply wp_ret, wp_bind. eapply wp_kern; [done|]. apply wp_ret, wp_ret.
    exists true. eexists _, []. rewrite app_nil_r. simpl. rewrite Hreg, Hp', Hret. split; [done|].
    split; [|done]. destruct Hr as [Hb Ho _ Hm Hpo Ht]. rewrite insert_insert_eq.
    split; simpl; [done|done|by rewrite Hs| | |].
    + intros q o b. destruct (decide (q = p)) as [-> |Hq].
      * rewrite lookup_insert_eq. destruct (decide (o = slot)) as [-> |Hos]; [rewrite lookup_insert_eq; naive_solver|].
        rewrite lookup_insert_ne by done. split; [naive_solver|]. intros [-> Ho']. exfalso.
        assert (miscs k !! p = Some (o, true)) by (by apply Hm). congruence.
      * rewrite lookup_insert_ne, Hm by done. destruct (decide (o = slot)) as [-> |Hos].
        -- rewrite lookup_insert_eq, Hsl. naive_solver.
        -- by rewrite lookup_insert_ne.
    + intros o q. rewrite lookup_insert_Some. intros [[_ <-]|[_ ?]]; eauto.
    + intros f op Hf. destruct (Ht f op Hf) as (sl & HT & Hsl'). exists sl. split; [done|].
      rewrite lookup_insert_ne; [done|congruence].
Qed.

Lemma step_misc_drop h0 T A s k slot : misc_rep h0 T A s k → map_Forall (λ _ sl, sl ≠ slot) T →
  wp (misc_step has (MDrop slot)) (misc_post h0 T A s (MDrop slot)) (s, k).
Proof.
  intros Hr HT. simpl. apply wp_bind. eapply wp_kern; [done|]. destruct Hr as [Hb Ho Hs Hm Hpo Ht].
  destruct (slots k !! slot) as [m|] eqn:Hsl.
  2: { apply wp_ret. exists true. eexists _, []. rewrite app_nil_r. split; [done|]. split; [|done].
       assert (delete slot (regs A) = regs A) as -> by (rewrite delete_id; [done|congruence]). by split. }
  assert (miscs k !! m = Some (slot, true)) as Hmm by (by apply Hm). pose proof (Hpo _ _ Hsl) as Hpos.
  apply wp_bind. unfold registration_drop, as_raw, misc_deregister, rs_miscdevice_free, is_null, null.
  apply wp_bind. eapply wp_kern; [by rewrite Hsl|]. apply wp_bind. eapply wp_kern; [by rewrite Hmm|].
  apply wp_bind. eapply wp_kern; [cbn; by rewrite (proj2 (Z.eqb_neq m 0)), lookup_insert_eq by lia|].
  eapply wp_kern; [done|]. apply wp_ret. exists true. eexists _, []. rewrite app_nil_r. split; [done|].
  split; [|done]. rewrite delete_insert_eq. split; simpl; [done|done|by rewrite Hs| | |].
  - intros q o b. rewrite !lookup_delete_Some, Hm. split.
    + intros (Hq & -> & Hoq). split_and!; [done| |done]. intros <-. congruence.
    + intros (-> & Hos & Hoq). split_and!; [|done..]. intros <-.
      assert (miscs k !! m = Some (o, true)) by (by apply Hm). congruence.
  - intros o q. rewrite lookup_delete_Some. intros [_ ?]. eauto.
  - intros f op Hf. destruct (Ht f op Hf) as (sl & HTf & Hsl'). exists sl. split; [done|].
    rewrite lookup_delete_ne; [done|]. intros <-. by apply (HT _ _ HTf).
Qed.

(** *** Files *)

Lemma rep_track h0 T A s k f slot : misc_rep h0 T A s k → T !! f = None → misc_rep h0 (<[f := slot]> T) A s k.
Proof.
  intros [Hb Ho Hs Hm Hpo Ht] HT. split; try done. intros f' op Hf.
  destruct (Ht f' op Hf) as (sl & HTf & Hsl). exists sl. rewrite lookup_insert_ne by congruence. done.
Qed.

(** The allocation of the private data. *)
Lemma wp_box_new h0 T A s k f x fl : misc_rep h0 T A s k → files k !! f = None →
  wp (box_new x fl) (λ r s', match r with
    | Ok b => boxes_rep h0 (<[f := (b, true)]> (boxes_of k)) (<[f := Some x]> (vals_of A)) (hp s') ∧ dropped s' = dropped s
    | Err _ => boxes_rep h0 (boxes_of k) (vals_of A) (hp s') ∧ dropped s' = dropped s ++ [x]
    end) s.
Proof.
  intros Hr Hf. pose proof (rep_file _ _ _ _ _ f Hr) as Ha. rewrite Hf in Ha.
  assert (boxes_of k !! f = None) as Ht by (unfold boxes_of; by rewrite lookup_fmap, Hf).
  assert (vals_of A !! f = None) as Hv by (unfold vals_of; by rewrite lookup_fmap, Ha).
  pose proof (step_new _ _ _ _ f x fl (mi_boxes _ _ _ _ _ Hr) Ht Hv) as Hn. apply wp_ret_inv in Hn.
  eapply wp_mono; [exact Hn|]. intros [b|[]] s' (ok & v' & dd & Hs & Hr' & Hd); simpl in *; rewrite Hv in Hs;
    destruct ok; simplify_eq/=; by rewrite ?app_nil_r in Hd.
Qed.

Lemma rep_open h0 T A s s' k f slot misc b x : misc_rep h0 T A s k → T !! f = Some slot → slots k !! slot = Some misc →
  boxes_rep h0 (<[f := (b, true)]> (boxes_of k)) (<[f := Some x]> (vals_of A)) (hp s') →
  misc_rep h0 T (MkMAbs (regs A) (<[f := (misc, x)]> (opened A))) s' (set_files (<[f := (misc, b)]> (files k)) k).
Proof.
  intros [Hb Ho Hs Hm Hpo Ht] HT Hsl Hb'. split; try done.
  - unfold boxes_of, vals_of. simpl. rewrite !fmap_insert. done.
  - simpl. rewrite !fmap_insert. simpl. by rewrite Ho.
  - simpl. intros f' op. destruct (decide (f' = f)) as [-> |Hne].
    + rewrite lookup_insert_eq. intros [= <-]. eauto.
    + rewrite lookup_insert_ne by done. eauto.
Qed.

Lemma rep_heap h0 T A s s' k : misc_rep h0 T A s k → boxes_rep h0 (boxes_of k) (vals_of A) (hp s') → misc_rep h0 T A s' k.
Proof. intros [Hb Ho Hs Hm Hpo Ht] Hb'. by split. Qed.

Lemma file_gone f e k : files k !! f = None →
  set_files (delete f (files (set_files (<[f := e]> (files k)) k))) (set_files (<[f := e]> (files k)) k) = k.
Proof. intros Hf. unfold set_files. simpl. rewrite delete_insert_id by done. by destruct k. Qed.

Lemma misc_device_ok s k slot misc o : slots k !! slot = Some misc → miscs k !! misc = Some o → 0 < misc →
  wp (misc_device slot) (λ _ σ, σ = (s, k)) (s, k).
Proof.
  intros Hsl Hm Hpos. unfold misc_device, as_raw. apply wp_bind. eapply wp_kern; [by rewrite Hsl|].
  apply wp_bind. unfold rs_miscdevice_owner, is_null, null. destruct o.
  eapply wp_kern; [rewrite (proj2 (Z.eqb_neq misc 0)) by lia; by rewrite Hm|]. by apply wp_ret.
Qed.

Lemma step_misc_open h0 T A s k slot gret o f :
  misc_rep h0 T A s k → T !! f = None → (∀ e, state o = Err e → to_errno e < 0) →
  wp (misc_step has (MOpen slot gret o f)) (misc_post h0 (<[f := slot]> T) A s (MOpen slot gret o f)) (s, k).
Proof.
  intros Hr0 HT He. pose proof (rep_track _ _ _ _ _ _ slot Hr0 HT) as Hr. simpl. apply wp_bind. eapply wp_kern; [done|].
  pose proof (mi_slots _ _ _ _ _ Hr) as Hs. pose proof (rep_file _ _ _ _ _ f Hr) as Ha.
  destruct (slots k !! slot) as [misc|] eqn:Hsl.
  2: { apply wp_ret, post_same; [done|]. simpl. by rewrite <- Hs, Hsl. }
  assert (regs A !! slot = Some misc) as Hreg by congruence.
  destruct (files k !! f) as [[op priv]|] eqn:Hf.
  { destruct Ha as (x & Ha & _). apply wp_ret, post_same; [done|]. simpl. by rewrite Hreg, Ha. }
  assert (miscs k !! misc = Some (slot, true)) as Hm by (by apply (mi_miscs _ _ _ _ _ Hr)).
  pose proof (mi_pos _ _ _ _ _ Hr _ _ Hsl) as Hpos.
  set (k1 := set_files (<[f := (misc, misc)]> (files k)) k).
  assert (∀ out s' ok d, out ≠ 0 → misc_spec has ok A (MOpen slot gret o f) = (A, Some out, d) →
    misc_rep h0 (<[f := slot]> T) A s' k → dropped s' = dropped s ++ d →
    wp (_ ← (if out =? 0 then mret tt else on_snd (λ k, Done (tt, set_files (delete f (files k)) k)));
        mret out) (λ a σ, wp (mret (Some a)) (misc_post h0 (<[f := slot]> T) A s (MOpen slot gret o f)) σ) (s', k1)) as Hfail.
  { intros out s' ok d Hout Hsp Hr' Hd. rewrite (proj2 (Z.eqb_neq out 0)) by done. apply wp_bind.
    eapply wp_kern; [done|]. apply wp_ret, wp_ret. unfold k1. rewrite file_gone by done. by exists ok, A, d. }
  apply wp_bind. unfold misc_open, call_fops, read_fops, fops_open. apply wp_bind. eapply wp_kern; [done|]. fold k1.
  assert (files k1 !! f = Some (misc, misc)) as Hf1 by apply lookup_insert_eq.
  apply wp_bind, wp_bind. eapply wp_kern; [rewrite Hf1; simpl; by rewrite Hm|].
  destruct (negb (gret =? 0)) eqn:Hg.
  { apply wp_ret. apply (Hfail gret s true []); [apply negb_true_iff, Z.eqb_neq in Hg; done| |done|by rewrite app_nil_r].
    simpl. by rewrite Hreg, Ha, Hg. }
  apply wp_bind. eapply wp_kern; [by rewrite Hf1|]. apply wp_bind. unfold rs_miscdevice_owner, is_null, null.
  eapply wp_kern; [by rewrite (proj2 (Z.eqb_neq misc 0)) by lia; simpl; rewrite Hm|]. unfold t_open. apply wp_bind, wp_bind.
  eapply (wp_mono _ (λ _ σ, σ = (s, k1))).
  { destruct (uses_device o); [|by apply wp_ret]. by eapply (misc_device_ok _ k1). }
  intros _ ? ->. destruct (state o) as [x|e] eqn:Ho.
  2: { apply wp_ret, wp_ret. apply (Hfail _ s true []); [specialize (He e eq_refl); lia| |done|by rewrite app_nil_r].
       simpl. by rewrite Hreg, Ha, Hg, Ho. }
  apply wp_bind, wp_on_fst. eapply wp_mono; [by apply (wp_box_new _ _ _ _ _ f x (flags o) Hr)|].
  intros [b|[]] s' [Hb Hd]; simpl; apply wp_ret; cbn [result_map_err].
  - apply wp_bind. unfold rs_file_set_private_data. eapply wp_kern; [by rewrite Hf1|]. apply wp_ret, wp_bind, wp_ret, wp_ret, wp_ret.
    exists true. eexists _, []. simpl. rewrite Hreg, Ha, Hg, Ho, app_nil_r. split; [done|]. split; [|done].
    unfold k1, set_files. simpl. rewrite insert_insert_eq. eapply rep_open; [done|apply lookup_insert_eq|done|done].
  - apply wp_ret. apply (Hfail _ s' false [x]); [done| |by eapply rep_heap|done]. simpl. by rewrite Hreg, Ha, Hg, Ho.
Qed.

Lemma step_misc_call h0 T A s k f m body : misc_rep h0 T A s k →
  wp (misc_step has (MCall f m body)) (misc_post h0 T A s (MCall f m body)) (s, k).
Proof.
  intros Hr. simpl. apply wp_bind. eapply wp_kern; [done|]. pose proof (rep_file _ _ _ _ _ f Hr) as Ha.
  destruct (files k !! f) as [[op priv]|] eqn:Hf.
  2: { apply wp_ret, post_same; [done|]. simpl. by rewrite Ha. }
  destruct Ha as (x & Hx & Hsl & Hpos & _ & _ & [mo Hmo]). destruct (reached has m) as [m'|] eqn:Hre.
  2: { apply wp_ret, post_same; [done|]. simpl. by rewrite Hx, Hre. }
  apply wp_bind. unfold call_fops, read_fops, fops_method. apply wp_bind. eapply wp_kern; [by rewrite Hf, Hmo|].
  apply wp_bind. eapply wp_kern; [by rewrite Hf|]. apply wp_bind, wp_on_fst. unfold borrow. eapply wp_read; [exact Hsl|].
  destruct (body m' x) as [z|e] eqn:Hb; apply wp_ret, wp_ret, post_same; try done; simpl; by rewrite Hx, Hre, Hb.
Qed.

Lemma step_misc_close h0 T A s k f : misc_rep h0 T A s k →
  wp (misc_step has (MClose f)) (misc_post h0 (delete f T) A s (MClose f)) (s, k).
Proof.
  intros Hr. simpl. apply wp_bind. eapply wp_kern; [done|]. pose proof (rep_file _ _ _ _ _ f Hr) as Ha.
  assert (∀ f' op, f' ≠ f → fst <$> files k !! f' = Some op → ∃ slot, delete f T !! f' = Some slot ∧ slots k !! slot = Some op) as Htr.
  { intros f' op Hne Hf'. destruct (mi_track _ _ _ _ _ Hr f' op Hf') as (sl & HT & Hsl). exists sl.
    by rewrite lookup_delete_ne. }
  destruct (files k !! f) as [[op priv]|] eqn:Hf.
  2: { apply wp_ret, post_same; [|simpl; by rewrite Ha]. destruct Hr as [Hb Ho Hs Hm Hpo Ht]. split; try done.
       intros f' op Hf'. apply Htr; [intros ->; by rewrite Hf in Hf'|done]. }
  destruct Ha as (x & Hx & Hsl & Hpos & Hbf & Hvf & [mo Hmo]).
  apply wp_bind. unfold file_close, call_fops, read_fops, fops_release. apply wp_bind, wp_bind. eapply wp_kern; [by rewrite Hf, Hmo|].
  apply wp_bind. eapply wp_kern; [by rewrite Hf|]. apply wp_bind, wp_on_fst, wp_from_raw; [done|].
  pose proof (step_drop _ _ _ _ f priv x (mi_boxes _ _ _ _ _ Hr) Hbf Hvf Hsl) as Hd. apply wp_ret_inv in Hd.
  apply wp_bind, wp_on_fst. eapply wp_mono; [exact Hd|]. intros _ s' (ok & v' & dd & Hs' & Hr' & Hdr). simpl in *.
  rewrite Hvf in Hs'. simplify_eq/=. apply wp_ret, wp_bind. eapply wp_kern; [done|]. apply wp_ret, wp_ret.
  exists true. eexists _, [x]. simpl. rewrite Hx. split; [done|]. split; [|done].
  destruct Hr as [Hb Ho Hs Hm Hpo Ht]. split; simpl; try done.
  - unfold boxes_of, vals_of. simpl. by rewrite !fmap_delete.
  - by rewrite !fmap_delete, Ho.
  - intros f' op'. destruct (decide (f' = f)) as [-> |Hne]; [by rewrite lookup_delete_eq|].
    rewrite lookup_delete_ne by done. by apply Htr.
Qed.

Lemma misc_step_ok h0 T T' A s k op : misc_rep h0 T A s k → op_next T op = Some T' →
  wp (misc_step has op) (misc_post h0 T' A s op) (s, k).
Proof.
  intros Hr Hn. destruct op as [slot kz ret|slot|slot gret o f|f m body|f]; unfold op_next in Hn.
  - injection Hn as <-. by apply step_register.
  - case_bool_decide as HT; [|done]. injection Hn as <-. by apply step_misc_drop.
  - destruct (T !! f) eqn:HT; [done|]. destruct (state o) as [x|e] eqn:Ho.
    + injection Hn as <-. apply step_misc_open; [done|done|by rewrite Ho].
    + destruct (to_errno e <? 0) eqn:He; [|done]. injection Hn as <-. apply step_misc_open; [done|done|].
      rewrite Ho. intros ? [= <-]. by apply Z.ltb_lt.
  - injection Hn as <-. by apply step_misc_call.
  - injection Hn as <-. by apply step_misc_close.
Qed.

Lemma misc_run_ok h0 ops : ∀ T A s k, misc_rep h0 T A s k → closed_before_drop T ops = true →
  wp (misc_run has ops) (λ os σ, ∃ T' A' d, misc_exec has A ops A' os d ∧ misc_rep h0 T' A' σ.1 σ.2 ∧
    dropped σ.1 = dropped s ++ d) (s, k).
Proof.
  induction ops as [|op ops IH]; intros T A s k Hr Hc; simpl.
  { apply wp_ret. exists T, A, []. rewrite app_nil_r. split; [constructor|done]. }
  simpl in Hc. destruct (op_next T op) as [T1|] eqn:Hn; [|done]. apply wp_bind.
  eapply wp_mono; [by apply (misc_step_ok _ _ _ _ _ _ _ Hr Hn)|]. intros o [s1 k1] (ok & A1 & d & Hs & Hr1 & Hd). simpl in *.
  apply wp_bind. eapply wp_mono; [by apply (IH T1)|]. intros os [s2 k2] (T2 & A2 & d2 & He & Hr2 & Hd2). simpl in *.
  apply wp_ret. exists T2, A2, (d ++ d2). split; [by econstructor|]. split; [done|]. simpl. by rewrite Hd2, Hd, (assoc_L (++)).
Qed.
End MiscOk.

(** ** Theorems *)


(** ** Concrete instances *)

#[local] Instance z_type : RType Z := {| size_of := 8; align_of := 8; zst_value := None |}.

#[local] Instance z_type_ok : RTypeOk Z.
Proof.
  split; simpl.
  - usize.
  - by exists 3.
  - lia.
  - by exists 1.
  - split; [done|]. by intros [? ?].
  - done.
Qed.

Definition demo_has : Methods := MkMethods false true false false true false false.

Definition demo_misc : list (MiscOp (D := Z)) :=
  [MRegister 100 (Some 64) 0; MOpen 100 0 (MkTOpen true (Ok 5) GFP_KERNEL) 0; MOpen 100 0 (MkTOpen false (Err (EINVAL : Error)) GFP_KERNEL) 1;
   MCall 0 CompatIoctl (λ m x, if m is Ioctl then Ok (x + 1) else Err (EINVAL : Error)); MCall 0 Mmap (λ _ _, Ok 0);
   MClose 0; MClose 1; MDrop 100; MRegister 101 (Some 64) (-16)].


Example demo_misc_codes :
  let AL : Allocator Z := Kmalloc (ref_realloc 4096) in
  match misc_run demo_has demo_misc (MkSt ∅ tt [], MkKern ∅ ∅ ∅) with
  | Done (os, (s, k)) => os = [Some 0; Some 0; Some (-22); Some 6; None; Some 0; None; None; Some (-16)] ∧ dropped s = [5]
  | _ => False
  end.
Proof. vm_compute. done. Qed.

(** ** Where the code falls short *)

(** A device is published before its registration is initialised: an [open] in between that
    asks the registration for its device reads uninitialised memory. *)
Lemma register_publishes_early :
  let AL : Allocator Z := Kmalloc (ref_realloc 4096) in
  (r ← register_publish 100 (Some 64) 0; misc_open 64 0 (MkTOpen true (Ok 5) GFP_KERNEL) 0)
    (MkSt ∅ tt [], MkKern ∅ ∅ ∅) = UB.
Proof. vm_compute. reflexivity. Qed.

(** The file operations live in the allocation that the drop of the registration frees: a
    file that is still open then calls, and is closed, through freed memory. *)
Lemma fops_freed_while_open :
  let AL : Allocator Z := Kmalloc (ref_realloc 4096) in
  misc_run demo_has [MRegister 100 (Some 64) 0; MOpen 100 0 (MkTOpen false (Ok 5) GFP_KERNEL) 0; MDrop 100; MClose 0]
    (MkSt ∅ tt [], MkKern ∅ ∅ ∅) = UB.
Proof. vm_compute. reflexivity. Qed.

(** On a kernel with [CONFIG_COMPAT] the shim reads one more entry than the Rust table has,
    which is built without that option: [show_fdinfo] as the compat [ioctl], and what lies
    behind the table as [show_fdinfo]. *)
Lemma fops_layouts_differ :
  rs_miscdevice_fops true !! 7%nat = Some (FEntry CompatIoctl) ∧ MiscdeviceFops false !! 7%nat = Some (FEntry ShowFdinfo) ∧
  rs_miscdevice_fops true !! 8%nat = Some (FEntry ShowFdinfo) ∧ MiscdeviceFops false !! 8%nat = None.
Proof. done. Qed.
