(* ===== verification/Uapi.v ===== *)
(** * Numbers of the user-space interface ([rust/src/ioctl.rs], [rust/src/uapi.rs],
      [rust/src/time.rs], [rust/src/fs/file.rs])

    The encoding of ioctl commands, kernel time, and the flags of files. *)

From S2P Require Import Prelude.

(** ** ioctl commands *)

Definition IOC_NRBITS : Z := 8.
Definition IOC_TYPEBITS : Z := 8.
Definition IOC_SIZEBITS : Z := 14.
Definition IOC_DIRBITS : Z := 2.

Definition IOC_NRMASK : Z := Z.shiftl 1 IOC_NRBITS - 1.
Definition IOC_TYPEMASK : Z := Z.shiftl 1 IOC_TYPEBITS - 1.
Definition IOC_SIZEMASK : Z := Z.shiftl 1 IOC_SIZEBITS - 1.
Definition IOC_DIRMASK : Z := Z.shiftl 1 IOC_DIRBITS - 1.

Definition IOC_NRSHIFT : Z := 0.
Definition IOC_TYPESHIFT : Z := IOC_NRSHIFT + IOC_NRBITS.
Definition IOC_SIZESHIFT : Z := IOC_TYPESHIFT + IOC_TYPEBITS.
Definition IOC_DIRSHIFT : Z := IOC_SIZESHIFT + IOC_SIZEBITS.

Definition IOC_NONE : Z := 0.
Definition IOC_WRITE : Z := 1.
Definition IOC_READ : Z := 2.

(** A shift of a [u32]: the bits that leave it are lost. *)
Definition shl32 (z n : Z) : Z := wrap 32 (Z.shiftl z n).

(** [None]: a [build_assert!] fails. *)
Definition IOC (dir ty nr size : Z) : option Z :=
  if (dir <=? IOC_DIRMASK) && (ty <=? IOC_TYPEMASK) && (nr <=? IOC_NRMASK) && (size <=? IOC_SIZEMASK) then
    Some (Z.lor (Z.lor (Z.lor (shl32 dir IOC_DIRSHIFT) (shl32 ty IOC_TYPESHIFT)) (shl32 nr IOC_NRSHIFT))
      (shl32 (wrap 32 size) IOC_SIZESHIFT))
  else None.

(** [size]: the size of the type argument. *)
Definition IO (ty nr : Z) : option Z := IOC IOC_NONE ty nr 0.
Definition IOR (size ty nr : Z) : option Z := IOC IOC_READ ty nr size.
Definition IOW (size ty nr : Z) : option Z := IOC IOC_WRITE ty nr size.
Definition IOWR (size ty nr : Z) : option Z := IOC (Z.lor IOC_READ IOC_WRITE) ty nr size.

Definition IOC_DIR (nr : Z) : Z := Z.land (Z.shiftr nr IOC_DIRSHIFT) IOC_DIRMASK.
Definition IOC_TYPE (nr : Z) : Z := Z.land (Z.shiftr nr IOC_TYPESHIFT) IOC_TYPEMASK.
Definition IOC_NR (nr : Z) : Z := Z.land (Z.shiftr nr IOC_NRSHIFT) IOC_NRMASK.
Definition IOC_SIZE (nr : Z) : Z := Z.land (Z.shiftr nr IOC_SIZESHIFT) IOC_SIZEMASK.

Lemma lor_disjoint a b k : 0 ≤ k → 0 ≤ a < 2 ^ k → Z.lor (b * 2 ^ k) a = b * 2 ^ k + a.
Proof.
  intros Hk Ha. assert (Z.land (b * 2 ^ k) a = 0) as Hl; [|pose proof (Z.add_lor_land (b * 2 ^ k) a); lia].
  apply Z.bits_inj'. intros i Hi. rewrite Z.land_spec, Z.bits_0. destruct (decide (i < k)).
  - by rewrite Z.mul_pow2_bits_low.
  - rewrite <- (Z.mod_small a (2 ^ k)) by done. rewrite Z.mod_pow2_bits_high by lia. by rewrite andb_false_r.
Qed.

(** The command as a sum of its fields. *)
Lemma ioc_sum dir ty nr size : 0 ≤ dir ≤ 3 → 0 ≤ ty ≤ 255 → 0 ≤ nr ≤ 255 → 0 ≤ size ≤ 16383 →
  IOC dir ty nr size = Some (dir * 2 ^ 30 + size * 2 ^ 16 + ty * 2 ^ 8 + nr).
Proof.
  intros Hd Ht Hn Hs. unfold IOC. change IOC_DIRMASK with 3. change IOC_TYPEMASK with 255.
  change IOC_NRMASK with 255. change IOC_SIZEMASK with 16383. change IOC_DIRSHIFT with 30. change IOC_TYPESHIFT with 8.
  change IOC_NRSHIFT with 0. change IOC_SIZESHIFT with 16.
  rewrite !(proj2 (Z.leb_le _ _)) by lia. cbn [andb]. f_equal. unfold shl32. rewrite !Z.shiftl_mul_pow2 by lia.
  rewrite (wrap_id 32 size), !wrap_id by lia. rewrite Z.pow_0_r, Z.mul_1_r.
  assert (∀ d t m z, Z.lor (Z.lor (Z.lor d t) m) z = Z.lor (Z.lor (Z.lor d z) t) m) as ->.
  { intros d t m z. by rewrite <- (Z.lor_assoc (Z.lor d t)), (Z.lor_comm m), Z.lor_assoc, <- (Z.lor_assoc d t), (Z.lor_comm t),
      (Z.lor_assoc d). }
  assert (Z.lor (dir * 2 ^ 30) (size * 2 ^ 16) = (dir * 2 ^ 14 + size) * 2 ^ 16) as ->.
  { rewrite lor_disjoint by lia. lia. }
  assert (Z.lor ((dir * 2 ^ 14 + size) * 2 ^ 16) (ty * 2 ^ 8) = ((dir * 2 ^ 14 + size) * 2 ^ 8 + ty) * 2 ^ 8) as ->.
  { rewrite lor_disjoint by lia. lia. }
  rewrite lor_disjoint by lia. lia.
Qed.

(** A field of a command, as arithmetic. *)
Lemma field_div n sh bits : 0 ≤ sh → 0 ≤ bits →
  Z.land (Z.shiftr n sh) (Z.shiftl 1 bits - 1) = (n / 2 ^ sh) `mod` 2 ^ bits.
Proof.
  intros Hs Hb. rewrite Z.shiftr_div_pow2, Z.shiftl_mul_pow2, Z.mul_1_l by lia.
  replace (2 ^ bits - 1) with (Z.ones bits); [by rewrite Z.land_ones by lia|]. rewrite Z.ones_equiv. lia.
Qed.

Lemma ioc_fields n :
  IOC_DIR n = (n / 2 ^ 30) `mod` 2 ^ 2 ∧ IOC_TYPE n = (n / 2 ^ 8) `mod` 2 ^ 8 ∧ IOC_NR n = n `mod` 2 ^ 8 ∧
  IOC_SIZE n = (n / 2 ^ 16) `mod` 2 ^ 14.
Proof.
  unfold IOC_DIR, IOC_TYPE, IOC_NR, IOC_SIZE, IOC_DIRMASK, IOC_TYPEMASK, IOC_NRMASK, IOC_SIZEMASK.
  rewrite !field_div by done. split_and!; try done. by rewrite Z.pow_0_r, Z.div_1_r.
Qed.

(** C30: the encoding of ioctl commands is a bijection between the fields that pass the build
    assertions and all 32-bit words: a command that builds fits a [u32] and decodes to the
    fields it was made of, an argument that does not fit its field fails the build, and every
    word is the command of its own fields. *)
Theorem ioctl_roundtrip (dir ty nr size n : Z) (Hd : 0 ≤ dir) (Ht : 0 ≤ ty) (Hn : 0 ≤ nr) (Hs : 0 ≤ size) (Hu : 0 ≤ n ≤ U32_MAX) :
  (dir ≤ 3 ∧ ty ≤ 255 ∧ nr ≤ 255 ∧ size ≤ 16383 →
    ∃ c, IOC dir ty nr size = Some c ∧ 0 ≤ c ≤ U32_MAX ∧
      IOC_DIR c = dir ∧ IOC_TYPE c = ty ∧ IOC_NR c = nr ∧ IOC_SIZE c = size) ∧
  (3 < dir ∨ 255 < ty ∨ 255 < nr ∨ 16383 < size → IOC dir ty nr size = None) ∧
  IOC (IOC_DIR n) (IOC_TYPE n) (IOC_NR n) (IOC_SIZE n) = Some n.
Proof.
  split_and!.
  - intros (? & ? & ? & ?). rewrite ioc_sum by lia. eexists. split; [done|].
    destruct (ioc_fields (dir * 2 ^ 30 + size * 2 ^ 16 + ty * 2 ^ 8 + nr)) as (-> & -> & -> & ->).
    unfold U32_MAX. split; [lia|]. Z.div_mod_to_equations. lia.
  - intros Hbad. unfold IOC. change IOC_DIRMASK with 3. change IOC_TYPEMASK with 255.
    change IOC_NRMASK with 255. change IOC_SIZEMASK with 16383.
    destruct (Z.leb_spec dir 3), (Z.leb_spec ty 255), (Z.leb_spec nr 255), (Z.leb_spec size 16383); simpl; try done; lia.
  - unfold U32_MAX in Hu. destruct (ioc_fields n) as (-> & -> & -> & ->).
    rewrite ioc_sum by (Z.div_mod_to_equations; lia). f_equal. Z.div_mod_to_equations. lia.
Qed.

Lemma ioctl_roundtrip_witness :
  IOWR 48 98 1 = Some 3224396289 ∧
  (∃ c, IOC 3 98 1 48 = Some c ∧ 0 ≤ c ≤ U32_MAX ∧ IOC_DIR c = 3 ∧ IOC_TYPE c = 98 ∧ IOC_NR c = 1 ∧ IOC_SIZE c = 48) ∧
  IOC (IOC_DIR 3224396289) (IOC_TYPE 3224396289) (IOC_NR 3224396289) (IOC_SIZE 3224396289) = Some 3224396289.
Proof.
  split; [reflexivity|].
  destruct (ioctl_roundtrip 3 98 1 48 3224396289 ltac:(lia) ltac:(lia) ltac:(lia) ltac:(lia) ltac:(unfold U32_MAX; lia))
    as (H & _ & H'). split; [apply H; lia|exact H'].
Defined.

(** ** Kernel time *)

Definition NSEC_PER_MSEC : Z := 1000000.
Definition I64_MAX : Z := 2 ^ 63 - 1.
Definition is_i64 (z : Z) : Prop := - 2 ^ 63 ≤ z ≤ I64_MAX.

Record Ktime := MkKtime { ns : Z }.
Definition ktime_from_raw (inner : Z) : Ktime := MkKtime inner.
Definition to_ns (k : Ktime) : Z := ns k.
(** Division of an [i64]: it rounds towards zero. *)
Definition divns_constant (div : Z) (k : Ktime) : Z := Z.quot (to_ns k) div.
Definition to_ms (k : Ktime) : Z := divns_constant NSEC_PER_MSEC k.

(** The subtraction panics on overflow. *)
Definition ktime_sub (a b : Ktime) : exec Ktime :=
  let d := ns a - ns b in if (- 2 ^ 63 <=? d) && (d <=? I64_MAX) then Done (MkKtime d) else Panic.
Definition ktime_ms_delta (later earlier : Ktime) : exec Z :=
  match ktime_sub later earlier with Done d => Done (to_ms d) | Panic => Panic | UB => UB end.

(** On clock readings, which are not negative, the difference in milliseconds is exact up to
    less than one, and never panics. *)
Lemma ktime_ms_delta_ok a b : 0 ≤ ns a ≤ I64_MAX → 0 ≤ ns b ≤ I64_MAX →
  ∃ ms, ktime_ms_delta a b = Done ms ∧ Z.abs (ms * NSEC_PER_MSEC - (ns a - ns b)) < NSEC_PER_MSEC ∧
    (ns b ≤ ns a → 0 ≤ ms) ∧ (ns a ≤ ns b → ms ≤ 0).
Proof.
  unfold ktime_ms_delta, ktime_sub, to_ms, divns_constant, to_ns, NSEC_PER_MSEC, I64_MAX. intros Ha Hb.
  rewrite !(proj2 (Z.leb_le _ _)) by lia. simpl. eexists. split; [done|]. Z.to_euclidean_division_equations. lia.
Qed.

(** ** Flags of files *)

Definition O_APPEND : Z := 8192.      (* 0o20000 *)
Definition O_ASYNC : Z := 8192.       (* 0o20000 *)
Definition O_CLOEXEC : Z := 524288.   (* 0o2000000 *)
Definition O_CREAT : Z := 64.         (* 0o100 *)
Definition O_DIRECT : Z := 65536.     (* 0o200000 *)
Definition O_DIRECTORY : Z := 16384.  (* 0o40000 *)
Definition O_DSYNC : Z := 4096.       (* 0o10000 *)
Definition O_EXCL : Z := 128.         (* 0o200 *)
Definition O_LARGEFILE : Z := 131072. (* 0o400000 *)
Definition O_NOATIME : Z := 262144.   (* 0o1000000 *)
Definition O_NOCTTY : Z := 256.       (* 0o400 *)
Definition O_NOFOLLOW : Z := 32768.   (* 0o100000 *)
Definition O_NONBLOCK : Z := 2048.    (* 0o4000 *)
Definition O_PATH : Z := 2097152.     (* 0o10000000 *)
Definition O_SYNC : Z := 1052672.     (* 0o4010000 *)
Definition O_TMPFILE : Z := 4210688.  (* 0o20040000 *)
Definition O_TRUNC : Z := 512.        (* 0o1000 *)
Definition O_ACCMODE : Z := 3.
Definition O_RDONLY : Z := 0.
Definition O_WRONLY : Z := 1.
Definition O_RDWR : Z := 2.

(** The flags of one bit, without [O_APPEND], and the access mode do not overlap. *)
Definition single_flags : list Z :=
  [O_ASYNC; O_CLOEXEC; O_CREAT; O_DIRECT; O_DIRECTORY; O_DSYNC; O_EXCL; O_LARGEFILE; O_NOATIME; O_NOCTTY; O_NOFOLLOW;
   O_NONBLOCK; O_PATH; O_TRUNC; O_ACCMODE].

Lemma flags_disjoint i j a b : single_flags !! i = Some a → single_flags !! j = Some b → i ≠ j → Z.land a b = 0.
Proof.
  assert (forallb (λ i, forallb (λ j, (i =? j)%nat || (match single_flags !! i, single_flags !! j with
    Some a, Some b => Z.land a b =? 0 | _, _ => true end)) (seq 0 15)) (seq 0 15) = true) as H by (vm_compute; done).
  intros Ha Hb Hne. rewrite forallb_forall in H. pose proof (lookup_lt_Some _ _ _ Ha) as Hi. pose proof (lookup_lt_Some _ _ _ Hb) as Hj.
  simpl in Hi, Hj. specialize (H i ltac:(apply in_seq; lia)). rewrite forallb_forall in H.
  specialize (H j ltac:(apply in_seq; lia)). rewrite (proj2 (Nat.eqb_neq i j)), Ha, Hb in H by done. by apply Z.eqb_eq.
Qed.

(** [O_APPEND] is the same bit as [O_ASYNC]. *)
Lemma o_append_is_o_async : O_APPEND = O_ASYNC.
Proof. done. Qed.
