(* ===== verification/KernelRefs.v ===== *)
(** * References to kernel objects ([rust/src/fs/file.rs], [rust/src/cred.rs], [rust/src/task.rs],
      [rust/src/pid_namespace.rs], [rust/src/mm.rs], [rust/src/device.rs], [rust/src/firmware.rs],
      [rust/src/security.rs], and [ARef] of [rust/src/types.rs])

    Objects that the kernel counts, behind [ARef], and what is acquired through them: file
    descriptors that are reserved, the read locks of an address space, firmware images and
    security contexts. The kernel is a
    parameter ([KernelObjs]): of its state the model sees how often each resource is held
    ([level]). A C function that is called on an object that is not held has no law. *)

From S2P Require Import Prelude Errors.

(** ** The kernel *)

Inductive counter := CFile | CCred | CTask | CPidNs | CMmCount | CMmUsers | CDevice.

(** What can be held: a count of an object, a reserved descriptor, the read lock of the
    address space, that of a [vm_area_struct], a firmware image, a security context. *)
Inductive resource :=
  RCount (c : counter) (p : Z) | RFd (fd : Z) | RMmap (mm : Z) | RVma (vma : Z) | RFw (fw : Z) | RCtx (secdata : Z).

#[export] Instance counter_eq_dec : EqDecision counter.
Proof. solve_decision. Defined.
#[export] Instance resource_eq_dec : EqDecision resource.
Proof. solve_decision. Defined.

Class KernelObjs (K : Type) := {
  level : resource → K → Z;
  get_file : Z → M K unit; rs_fput : Z → M K unit;
  get_cred : Z → M K unit; put_cred : Z → M K unit;
  get_task_struct : Z → M K unit; put_task_struct : Z → M K unit;
  get_pid_ns : Z → M K unit; put_pid_ns : Z → M K unit;
  mmgrab : Z → M K unit; mmdrop : Z → M K unit;
  mmget : Z → M K unit; mmput : Z → M K unit; mmput_async : Z → M K unit;
  c_mmget_not_zero : Z → M K bool;
  rs_fget : Z → M K Z;
  rs_get_unused_fd_flags : Z → M K Z; rs_put_unused_fd : Z → M K unit; rs_fd_install : Z → Z → M K unit;
  task_get_pid_ns : Z → M K Z;
  c_mmap_read_lock : Z → M K unit; c_mmap_read_trylock : Z → M K bool; mmap_read_unlock : Z → M K unit;
  c_lock_vma_under_rcu : Z → Z → M K Z; vma_end_read : Z → M K unit; c_vma_lookup : Z → Z → M K Z;
  get_device : Z → M K unit; put_device : Z → M K unit;
  (** the answer, and what is stored in the out parameters *)
  request_firmware : Z → Z → M K (Z * Z); firmware_request_nowarn : Z → Z → M K (Z * Z); release_firmware : Z → M K unit;
  security_secid_to_secctx : Z → M K (Z * Z * Z); security_release_secctx : Z → Z → M K unit
}.

Section Laws.
Context {K : Type} {KO : KernelObjs K}.

(** Only [r] changes, by [d]. *)
Definition adds (r : resource) (d : Z) (k k' : K) : Prop :=
  ∀ r', level r' k' = level r' k + (if decide (r' = r) then d else 0).
Definition same (k k' : K) : Prop := ∀ r, level r k' = level r k.

(** A function that needs [pre] to be held and changes [r]. *)
Definition changes (m : M K unit) (pre r : resource) (d : Z) : Prop :=
  ∀ k, 0 < level pre k → wp m (λ _ k', adds r d k k') k.
(** A function that acquires a resource or fails without a change. *)
Definition acquires {B} (m : M K B) (pre : K → Prop) (failed : B → Prop) (r : B → resource) (ok : B → K → Prop) : Prop :=
  ∀ k, pre k → wp m (λ b k', (failed b ∧ same k k') ∨ (¬ failed b ∧ ok b k ∧ adds (r b) 1 k k')) k.
End Laws.

(** An address space has two counts; its structure lives while either of them is held. (The
    kernel's own [mm_count] has one more on behalf of all users, which is left out here.) *)
Definition mm_held {K} `{KernelObjs K} (p : Z) (k : K) : Prop :=
  0 < level (RCount CMmCount p) k ∨ 0 < level (RCount CMmUsers p) k.

(** The documented behaviour. *)
Class KernelObjsSpec (K : Type) `{KernelObjs K} : Prop := {
  get_file_ok p : changes (get_file p) (RCount CFile p) (RCount CFile p) 1;
  fput_ok p : changes (rs_fput p) (RCount CFile p) (RCount CFile p) (-1);
  get_cred_ok p : changes (get_cred p) (RCount CCred p) (RCount CCred p) 1;
  put_cred_ok p : changes (put_cred p) (RCount CCred p) (RCount CCred p) (-1);
  get_task_ok p : changes (get_task_struct p) (RCount CTask p) (RCount CTask p) 1;
  put_task_ok p : changes (put_task_struct p) (RCount CTask p) (RCount CTask p) (-1);
  get_pid_ns_ok p : changes (get_pid_ns p) (RCount CPidNs p) (RCount CPidNs p) 1;
  put_pid_ns_ok p : changes (put_pid_ns p) (RCount CPidNs p) (RCount CPidNs p) (-1);
  mmgrab_ok p k : mm_held p k → wp (mmgrab p) (λ _ k', adds (RCount CMmCount p) 1 k k') k;
  mmdrop_ok p : changes (mmdrop p) (RCount CMmCount p) (RCount CMmCount p) (-1);
  mmget_ok p : changes (mmget p) (RCount CMmUsers p) (RCount CMmUsers p) 1;
  mmput_ok p : changes (mmput p) (RCount CMmUsers p) (RCount CMmUsers p) (-1);
  mmput_async_ok p : changes (mmput_async p) (RCount CMmUsers p) (RCount CMmUsers p) (-1);
  mmget_not_zero_ok p : acquires (c_mmget_not_zero p) (mm_held p) (λ b, b = false)
    (λ _, RCount CMmUsers p) (λ _ _, True);
  fget_ok fd : acquires (rs_fget fd) (λ _, True) (λ p, p = 0) (λ p, RCount CFile p) (λ _ _, True);
  get_unused_fd_ok fl : acquires (rs_get_unused_fd_flags fl) (λ _, True) (λ fd, fd < 0) RFd
    (λ fd k, fd ≤ I32_MAX ∧ level (RFd fd) k = 0);
  put_unused_fd_ok fd : changes (rs_put_unused_fd fd) (RFd fd) (RFd fd) (-1);
  fd_install_ok fd p k : 0 < level (RFd fd) k → 0 < level (RCount CFile p) k →
    wp (rs_fd_install fd p) (λ _ k', adds (RFd fd) (-1) k k') k;
  task_get_pid_ns_ok t : acquires (task_get_pid_ns t) (λ k, 0 < level (RCount CTask t) k) (λ p, p = 0)
    (λ p, RCount CPidNs p) (λ _ _, True);
  mmap_read_lock_ok p : changes (c_mmap_read_lock p) (RCount CMmUsers p) (RMmap p) 1;
  mmap_read_trylock_ok p : acquires (c_mmap_read_trylock p) (λ k, 0 < level (RCount CMmUsers p) k) (λ b, b = false)
    (λ _, RMmap p) (λ _ _, True);
  mmap_read_unlock_ok p : changes (mmap_read_unlock p) (RMmap p) (RMmap p) (-1);
  lock_vma_ok p a : acquires (c_lock_vma_under_rcu p a) (λ k, 0 < level (RCount CMmUsers p) k) (λ v, v = 0) RVma (λ _ _, True);
  vma_end_read_ok v : changes (vma_end_read v) (RVma v) (RVma v) (-1);
  vma_lookup_ok p a k : 0 < level (RMmap p) k → wp (c_vma_lookup p a) (λ _ k', same k k') k;
  get_device_ok p : changes (get_device p) (RCount CDevice p) (RCount CDevice p) 1;
  put_device_ok p : changes (put_device p) (RCount CDevice p) (RCount CDevice p) (-1);
  request_firmware_ok n d : acquires (request_firmware n d) (λ k, 0 < level (RCount CDevice d) k)
    (λ a, a.1 ≠ 0) (λ a, RFw a.2) (λ a _, a.2 ≠ 0);
  request_nowarn_ok n d : acquires (firmware_request_nowarn n d) (λ k, 0 < level (RCount CDevice d) k)
    (λ a, a.1 ≠ 0) (λ a, RFw a.2) (λ a _, a.2 ≠ 0);
  release_firmware_ok p : changes (release_firmware p) (RFw p) (RFw p) (-1);
  secid_to_secctx_ok i : acquires (security_secid_to_secctx i) (λ _, True) (λ a, a.1.1 < 0) (λ a, RCtx a.1.2) (λ _ _, True);
  release_secctx_ok p n : changes (security_release_secctx p n) (RCtx p) (RCtx p) (-1)
}.

(** ** The code *)

Section Code.
Context {K : Type} {KO : KernelObjs K}.
Local Abbreviation KM := (M K).

(** [AlwaysRefCounted] *)
Record RefOps := MkRefOps { inc_ref : Z → KM unit; dec_ref : Z → KM unit }.

Definition File_refs : RefOps := MkRefOps get_file rs_fput.
Definition LocalFile_refs : RefOps := MkRefOps get_file rs_fput.
Definition Credential_refs : RefOps := MkRefOps get_cred put_cred.
Definition Task_refs : RefOps := MkRefOps get_task_struct put_task_struct.
Definition PidNamespace_refs : RefOps := MkRefOps get_pid_ns put_pid_ns.
Definition Mm_refs : RefOps := MkRefOps mmgrab mmdrop.
Definition MmWithUser_refs : RefOps := MkRefOps mmget mmput.
Definition MmWithUserAsync_refs : RefOps := MkRefOps mmget mmput_async.

Definition Device_refs : RefOps := MkRefOps get_device put_device.

Definition aref_from_raw (ptr : Z) : Z := ptr.
Definition aref_into_raw (me : Z) : Z := me.
Definition aref_clone (o : RefOps) (p : Z) : KM Z := _ ← inc_ref o p; mret (aref_from_raw p).
Definition aref_from_ref (o : RefOps) (b : Z) : KM Z := _ ← inc_ref o b; mret (aref_from_raw b).
Definition aref_drop (o : RefOps) (p : Z) : KM unit := dec_ref o p.

(** *** Files *)

Definition fget (fd : Z) : KM (result Error Z) :=
  ptr ← rs_fget fd;
  if is_null ptr then mret (Err (EBADF : Error)) else mret (Ok (aref_from_raw ptr)).

Definition assume_no_fdget_pos (me : Z) : Z := aref_from_raw (aref_into_raw me).

Definition get_unused_fd_flags (flags : Z) : KM (result Error Z) :=
  fd ← rs_get_unused_fd_flags flags;
  if fd <? 0 then mret (Err (from_errno fd)) else mret (Ok (wrap 32 fd)).

(** The reservation and the reference are forgotten. *)
Definition fd_install (fd file : Z) : KM unit := rs_fd_install fd file.

Definition reservation_drop (fd : Z) : KM unit := rs_put_unused_fd fd.

(** *** Tasks and address spaces *)

Definition get_task_pid_ns (t : Z) : KM (option Z) :=
  ptr ← task_get_pid_ns t;
  if is_null ptr then mret None else mret (Some (aref_from_raw ptr)).

Definition mmget_not_zero (mm : Z) : KM (option Z) :=
  success ← c_mmget_not_zero mm;
  if success : bool then mret (Some (aref_from_raw mm)) else mret None.

Definition into_mmput_async (me : Z) : Z := aref_from_raw (aref_into_raw me).

(** The guards, by the pointer that their drop uses. *)
Definition mmap_read_lock (mm : Z) : KM Z := _ ← c_mmap_read_lock mm; mret mm.
Definition mmap_read_trylock (mm : Z) : KM (option Z) :=
  success ← c_mmap_read_trylock mm;
  if success : bool then mret (Some mm) else mret None.
Definition mmap_guard_drop (mm : Z) : KM unit := mmap_read_unlock mm.
Definition vma_lookup (mm addr : Z) : KM (option Z) :=
  vma ← c_vma_lookup mm addr;
  if is_null vma then mret None else mret (Some vma).

(** [per_vma]: [CONFIG_PER_VMA_LOCK]. *)
Definition lock_vma_under_rcu (per_vma : bool) (mm vma_addr : Z) : KM (option Z) :=
  if per_vma then
    vma ← c_lock_vma_under_rcu mm vma_addr;
    if is_null vma then mret None else mret (Some vma)
  else mret None.
Definition vma_guard_drop (vma : Z) : KM unit := vma_end_read vma.

(** *** Devices, firmware and security contexts *)

Definition device_as_ref (ptr : Z) : Z := ptr.
Definition device_get_device (ptr : Z) : KM Z := aref_from_ref Device_refs (device_as_ref ptr).

(** A [Firmware] is its pointer. *)
Definition request_internal (name dev : Z) (func : Z → Z → KM (Z * Z)) : KM (result Error Z) :=
  '(ret, fw) ← func name dev;
  if negb (ret =? 0) then mret (Err (from_errno ret))
  else if is_null fw then ub else mret (Ok fw).
Definition fw_request (name dev : Z) : KM (result Error Z) := request_internal name dev request_firmware.
Definition fw_request_nowarn (name dev : Z) : KM (result Error Z) := request_internal name dev firmware_request_nowarn.
Definition firmware_drop (fw : Z) : KM unit := release_firmware fw.

Record SecurityCtx := MkSecurityCtx { secdata : Z; seclen : Z }.
Definition from_secid (secid : Z) : KM (result Error SecurityCtx) :=
  '(r, secdata, seclen) ← security_secid_to_secctx secid;
  _ ←? mret (to_result r);
  mret (Ok (MkSecurityCtx secdata seclen)).
Definition secctx_drop (c : SecurityCtx) : KM unit := security_release_secctx (secdata c) (wrap 32 (seclen c)).

(** ** Programs *)

Inductive rtype := TFile | TLocalFile | TCred | TTask | TPidNs | TMm | TMmUser | TMmAsync | TDevice.

Definition ref_ops (ty : rtype) : RefOps :=
  match ty with
  | TFile => File_refs | TLocalFile => LocalFile_refs | TCred => Credential_refs | TTask => Task_refs
  | TPidNs => PidNamespace_refs | TMm => Mm_refs | TMmUser => MmWithUser_refs | TMmAsync => MmWithUserAsync_refs
  | TDevice => Device_refs
  end.

(** The handles of the program, by name; a guard also names the reference it borrows. *)
Inductive handle :=
  HRef (ty : rtype) (p : Z) | HRes (fd : Z) | HMmap (owner : nat) (p : Z) | HVma (owner : nat) (v : Z)
| HFw (fw : Z) | HCtx (secdata seclen : Z).
Local Abbreviation handles := (gmap nat handle).

Inductive RefOp :=
| OClone (k k' : nat)                 (* [clone], and [From<&T>] *)
| ODrop (k : nat)
| OFget (k : nat) (fd : Z)
| OAssume (k : nat)
| OReserve (k : nat) (flags : Z)
| OInstall (k kf : nat)
| OPidNs (k k' : nat)
| OGrab (k k' : nat)                  (* [ARef<Mm>] of the [Mm] that a reference derefs to *)
| OMmGet (k k' : nat)
| OAsync (k : nat)
| OMmap (try : bool) (k k' : nat)
| OLookup (k : nat) (addr : Z)
| OVma (per_vma : bool) (addr : Z) (k k' : nat)
| OGetDevice (k k' : nat)             (* from the raw pointer of a device that is alive *)
| OFirmware (warn : bool) (name : Z) (k k' : nat)
| OSecCtx (k : nat) (secid : Z).

Definition has_users (ty : rtype) : bool := match ty with TMmUser | TMmAsync => true | _ => false end.
Definition is_mm (ty : rtype) : bool := match ty with TMm | TMmUser | TMmAsync => true | _ => false end.

(** The borrow checker: nothing that is borrowed is moved or dropped. *)
Definition borrows (h : handle) : option nat := match h with HMmap o _ | HVma o _ => Some o | _ => None end.
Definition borrowed (t : handles) (k : nat) : bool := negb (bool_decide (map_Forall (λ _ h, borrows h ≠ Some k) t)).

(** A handle of the given value, when there is one. *)
Definition bind_opt (t : handles) (k : nat) (o : option handle) : handles :=
  match o with Some h => <[k := h]> t | None => t end.

(** One step, and the files that it gives to the descriptor table. A step that the types
    rule out is skipped. *)
Definition ref_step (t : handles) (op : RefOp) : KM (handles * list Z) :=
  match op with
  | OClone k k' =>
      match t !! k, t !! k' with
      | Some (HRef ty p), None => q ← aref_clone (ref_ops ty) p; mret (<[k' := HRef ty q]> t, [])
      | _, _ => mret (t, [])
      end
  | ODrop k =>
      if borrowed t k then mret (t, [])
      else match t !! k with
        | Some (HRef ty p) => _ ← aref_drop (ref_ops ty) p; mret (delete k t, [])
        | Some (HRes fd) => _ ← reservation_drop fd; mret (delete k t, [])
        | Some (HMmap _ p) => _ ← mmap_guard_drop p; mret (delete k t, [])
        | Some (HVma _ v) => _ ← vma_guard_drop v; mret (delete k t, [])
        | Some (HFw fw) => _ ← firmware_drop fw; mret (delete k t, [])
        | Some (HCtx d n) => _ ← secctx_drop (MkSecurityCtx d n); mret (delete k t, [])
        | None => mret (t, [])
        end
  | OFget k fd =>
      if t !! k is Some _ then mret (t, [])
      else r ← fget fd; mret (bind_opt t k (match r with Ok p => Some (HRef TLocalFile p) | Err _ => None end), [])
  | OAssume k =>
      if t !! k is Some (HRef TLocalFile p) then mret (<[k := HRef TFile (assume_no_fdget_pos p)]> t, [])
      else mret (t, [])
  | OReserve k flags =>
      if t !! k is Some _ then mret (t, [])
      else r ← get_unused_fd_flags flags; mret (bind_opt t k (match r with Ok fd => Some (HRes fd) | Err _ => None end), [])
  | OInstall k kf =>
      match t !! k, t !! kf with
      | Some (HRes fd), Some (HRef TFile p) => _ ← fd_install fd p; mret (delete kf (delete k t), [p])
      | _, _ => mret (t, [])
      end
  | OPidNs k k' =>
      match t !! k, t !! k' with
      | Some (HRef TTask p), None => o ← get_task_pid_ns p; mret (bind_opt t k' (HRef TPidNs <$> o), [])
      | _, _ => mret (t, [])
      end
  | OGrab k k' =>
      match t !! k, t !! k' with
      | Some (HRef ty p), None =>
          if is_mm ty then q ← aref_from_ref Mm_refs p; mret (<[k' := HRef TMm q]> t, []) else mret (t, [])
      | _, _ => mret (t, [])
      end
  | OMmGet k k' =>
      match t !! k, t !! k' with
      | Some (HRef ty p), None =>
          if is_mm ty then o ← mmget_not_zero p; mret (bind_opt t k' (HRef TMmUser <$> o), []) else mret (t, [])
      | _, _ => mret (t, [])
      end
  | OAsync k =>
      if borrowed t k then mret (t, [])
      else if t !! k is Some (HRef TMmUser p) then mret (<[k := HRef TMmAsync (into_mmput_async p)]> t, [])
      else mret (t, [])
  | OMmap try k k' =>
      match t !! k, t !! k' with
      | Some (HRef ty p), None =>
          if has_users ty then
            if try then o ← mmap_read_trylock p; mret (bind_opt t k' (HMmap k <$> o), [])
            else g ← mmap_read_lock p; mret (<[k' := HMmap k g]> t, [])
          else mret (t, [])
      | _, _ => mret (t, [])
      end
  | OLookup k addr =>
      if t !! k is Some (HMmap _ p) then _ ← vma_lookup p addr; mret (t, []) else mret (t, [])
  | OVma per_vma addr k k' =>
      match t !! k, t !! k' with
      | Some (HRef ty p), None =>
          if has_users ty then o ← lock_vma_under_rcu per_vma p addr; mret (bind_opt t k' (HVma k <$> o), [])
          else mret (t, [])
      | _, _ => mret (t, [])
      end
  | OGetDevice k k' =>
      match t !! k, t !! k' with
      | Some (HRef TDevice p), None => q ← device_get_device p; mret (<[k' := HRef TDevice q]> t, [])
      | _, _ => mret (t, [])
      end
  | OFirmware warn name k k' =>
      match t !! k, t !! k' with
      | Some (HRef TDevice p), None =>
          r ← (if warn then fw_request name p else fw_request_nowarn name p);
          mret (bind_opt t k' (match r with Ok fw => Some (HFw fw) | Err _ => None end), [])
      | _, _ => mret (t, [])
      end
  | OSecCtx k secid =>
      if t !! k is Some _ then mret (t, [])
      else
        r ← from_secid secid;
        mret (bind_opt t k (match r with Ok c => Some (HCtx (secdata c) (seclen c)) | Err _ => None end), [])
  end.

Fixpoint ref_run (t : handles) (ops : list RefOp) : KM (handles * list Z) :=
  match ops with
  | [] => mret (t, [])
  | op :: ops =>
      '(t, g) ← ref_step t op;
      '(t, g') ← ref_run t ops;
      mret (t, g ++ g')
  end.
End Code.
Arguments RefOps : clear implicits.

(** ** What a handle holds *)

#[export] Instance rtype_eq_dec : EqDecision rtype.
Proof. solve_decision. Defined.
#[export] Instance handle_eq_dec : EqDecision handle.
Proof. solve_decision. Defined.

Local Abbreviation handles := (gmap nat handle).

Definition counter_of (ty : rtype) : counter :=
  match ty with
  | TFile | TLocalFile => CFile | TCred => CCred | TTask => CTask | TPidNs => CPidNs
  | TMm => CMmCount | TMmUser | TMmAsync => CMmUsers | TDevice => CDevice
  end.

Definition owns (h : handle) : resource :=
  match h with
  | HRef ty p => RCount (counter_of ty) p | HRes fd => RFd fd | HMmap _ p => RMmap p | HVma _ v => RVma v
  | HFw fw => RFw fw | HCtx d _ => RCtx d
  end.

(** How often the program holds a resource, and how often it gave one to the descriptor
    table. *)
Abbreviation held := (tally owns).
Definition given (g : list Z) (r : resource) : Z := Z.of_nat (length (filter (λ p, RCount CFile p = r) g)).

Section Proofs.
Context {K : Type} {KO : KernelObjs K} {KOok : KernelObjsSpec K}.
Implicit Types (t : handles) (k : K) (r : resource).

(** Every handle is backed by the kernel's count. A guard borrows a user reference. *)
Record refs_ok t k : Prop := {
  ro_held : ∀ r, held t r ≤ level r k;
  ro_borrow : ∀ g h o, t !! g = Some h → borrows h = Some o → ∃ ty p, t !! o = Some (HRef ty p) ∧ has_users ty = true
}.

(** The books balance: what the kernel's level gains is what the program holds more, or gave
    away. *)
Definition balanced t k t' (g : list Z) k' : Prop :=
  ∀ r, level r k' - level r k = held t' r - held t r + given g r.

Definition ref_post t k (out : handles * list Z) k' : Prop :=
  refs_ok out.1 k' ∧ balanced t k out.1 out.2 k'.

Lemma given_nil r : given [] r = 0.
Proof. done. Qed.

Lemma given_nonneg g r : 0 ≤ given g r.
Proof. unfold given. lia. Qed.

(** The invariant follows from the balance. *)
Lemma ref_post_intro t k t' g k' : refs_ok t k → balanced t k t' g k' →
  (∀ g h o, t' !! g = Some h → borrows h = Some o → ∃ ty p, t' !! o = Some (HRef ty p) ∧ has_users ty = true) →
  ref_post t k (t', g) k'.
Proof.
  intros [Hh _] Hb Hbo. split; [|done]. split; [|done]. intros r. simpl. specialize (Hb r). specialize (Hh r).
  pose proof (given_nonneg g r). lia.
Qed.

Lemma ref_post_keep t k k' : refs_ok t k → same k k' → ref_post t k (t, []) k'.
Proof.
  intros Hr Hs. apply ref_post_intro; [done| |apply Hr]. intros r. rewrite given_nil, (Hs r). lia.
Qed.

Lemma ref_post_skip t k : refs_ok t k → wp (mret (t, [])) (ref_post t k) k.
Proof. intros Hr. by apply wp_ret, ref_post_keep. Qed.

(** A new handle for a resource that was acquired. *)
Lemma ref_post_new t k k' n h : refs_ok t k → t !! n = None → adds (owns h) 1 k k' →
  (∀ o, borrows h = Some o → ∃ ty p, t !! o = Some (HRef ty p) ∧ has_users ty = true) →
  ref_post t k (<[n := h]> t, []) k'.
Proof.
  intros Hr Hn Ha Hb. apply ref_post_intro; [done| |].
  - intros r. rewrite given_nil, (Ha r), tally_insert by done. unfold one. lia.
  - intros g h' o. rewrite lookup_insert_Some. intros [[<- <-]|[Hne Hg]] Ho.
    + destruct (Hb o Ho) as (ty & p & Hp & Hu). exists ty, p. rewrite lookup_insert_ne; [done|congruence].
    + destruct (ro_borrow _ _ Hr _ _ _ Hg Ho) as (ty & p & Hp & Hu). exists ty, p. rewrite lookup_insert_ne; [done|congruence].
Qed.

(** The end of a handle that nothing borrows. *)
Lemma ref_post_drop t k k' n h : refs_ok t k → t !! n = Some h → borrowed t n = false → adds (owns h) (-1) k k' →
  ref_post t k (delete n t, []) k'.
Proof.
  intros Hr Hn Hb Ha. apply negb_false_iff, bool_decide_eq_true in Hb. apply ref_post_intro; [done| |].
  - intros r. rewrite given_nil, (Ha r), (tally_delete owns t n h) by done. unfold one. case_decide; lia.
  - intros g h' o. rewrite lookup_delete_Some. intros [Hne Hg] Ho.
    destruct (ro_borrow _ _ Hr _ _ _ Hg Ho) as (ty & p & Hp & Hu). exists ty, p.
    rewrite lookup_delete_ne; [done|]. intros <-. by apply (Hb _ _ Hg).
Qed.

(** Another type for the same resource. *)
Lemma ref_post_retag t k n h h' : refs_ok t k → t !! n = Some h → owns h' = owns h → borrows h' = None →
  (∀ ty p, h = HRef ty p → has_users ty = true → ∃ ty' p', h' = HRef ty' p' ∧ has_users ty' = true) →
  ref_post t k (<[n := h']> t, []) k.
Proof.
  intros Hr Hn Ho Hb Hu. apply ref_post_intro; [done| |].
  - intros r. rewrite given_nil, (tally_retag owns t n h) by done. lia.
  - intros g h2 o. rewrite lookup_insert_Some. intros [[<- <-]|[Hne Hg]] Hbo; [congruence|].
    destruct (ro_borrow _ _ Hr _ _ _ Hg Hbo) as (ty & p & Hp & Hus). destruct (decide (o = n)) as [-> |Hon].
    + rewrite Hn in Hp. injection Hp as ->. destruct (Hu _ _ eq_refl Hus) as (ty' & p' & -> & ?).
      exists ty', p'. by rewrite lookup_insert_eq.
    + exists ty, p. by rewrite lookup_insert_ne.
Qed.

Lemma level_pos t k n h : refs_ok t k → t !! n = Some h → 0 < level (owns h) k.
Proof. intros Hr Hn. pose proof (tally_pos owns _ _ _ Hn). pose proof (ro_held _ _ Hr (owns h)). lia. Qed.

Lemma changes_wp m pre r d k (Q : unit → K → Prop) :
  changes m pre r d → 0 < level pre k → (∀ k', adds r d k k' → Q tt k') → wp m Q k.
Proof. intros Hc Hp HQ. eapply wp_mono; [by apply Hc|]. intros [] k' Ha. by apply HQ. Qed.

Lemma inc_ref_ok ty p : changes (inc_ref (ref_ops ty) p) (RCount (counter_of ty) p) (RCount (counter_of ty) p) 1.
Proof.
  destruct ty; simpl; [apply get_file_ok|apply get_file_ok|apply get_cred_ok|apply get_task_ok|apply get_pid_ns_ok|
    intros k Hk; apply mmgrab_ok; by left|apply mmget_ok|apply mmget_ok|apply get_device_ok].
Qed.

Lemma dec_ref_ok ty p : changes (dec_ref (ref_ops ty) p) (RCount (counter_of ty) p) (RCount (counter_of ty) p) (-1).
Proof.
  destruct ty; simpl; [apply fput_ok|apply fput_ok|apply put_cred_ok|apply put_task_ok|apply put_pid_ns_ok|
    apply mmdrop_ok|apply mmput_ok|apply mmput_async_ok|apply put_device_ok].
Qed.

(** *** The steps *)

Lemma rstep_clone t k n n' : refs_ok t k → wp (ref_step t (OClone n n')) (ref_post t k) k.
Proof.
  intros Hr. simpl. destruct (t !! n) as [[ty p| | | | |]|] eqn:Hn; try by apply ref_post_skip.
  destruct (t !! n') eqn:Hn'; [by apply ref_post_skip|]. apply wp_bind. unfold aref_clone. apply wp_bind.
  eapply changes_wp; [apply inc_ref_ok|by apply (level_pos t k n (HRef ty p))|]. intros k' Ha.
  apply wp_ret, wp_ret. by eapply ref_post_new.
Qed.

Lemma rstep_drop t k n : refs_ok t k → wp (ref_step t (ODrop n)) (ref_post t k) k.
Proof.
  intros Hr. simpl. destruct (borrowed t n) eqn:Hb; [by apply ref_post_skip|].
  destruct (t !! n) as [h|] eqn:Hn; [|by apply ref_post_skip]. pose proof (level_pos _ _ _ _ Hr Hn) as Hl.
  destruct h as [ty p|fd|o p|o v|fw|d len]; apply wp_bind; (eapply changes_wp;
    [first [apply dec_ref_ok|apply put_unused_fd_ok|apply mmap_read_unlock_ok|apply vma_end_read_ok|
      apply release_firmware_ok|apply release_secctx_ok]|exact Hl|]);
    intros k' Ha; apply wp_ret; by eapply ref_post_drop.
Qed.

(** Code that acquires a handle or fails. *)
Lemma acquire_step {B} t k n (m : M K B) pre failed (r : B → resource) ok (out : B → option handle) :
  refs_ok t k → t !! n = None → acquires m pre failed r ok → pre k →
  (∀ b, failed b → out b = None) →
  (∀ b, ¬ failed b → ok b k → ∃ h, out b = Some h ∧ owns h = r b ∧
     ∀ o, borrows h = Some o → ∃ ty p, t !! o = Some (HRef ty p) ∧ has_users ty = true) →
  wp m (λ b k', ref_post t k (bind_opt t n (out b), []) k') k.
Proof.
  intros Hr Hn Hm Hp Hf Ho. eapply wp_mono; [by apply Hm|]. intros b k' [[Hb Hs]|(Hb & Hok & Ha)].
  - rewrite (Hf b Hb). by apply ref_post_keep.
  - destruct (Ho b Hb Hok) as (h & -> & Hh & Hbo). simpl. rewrite <- Hh in Ha. by eapply ref_post_new.
Qed.

Lemma rstep_fget t k n fd : refs_ok t k → wp (ref_step t (OFget n fd)) (ref_post t k) k.
Proof.
  intros Hr. simpl. destruct (t !! n) eqn:Hn; [by apply ref_post_skip|]. unfold fget. apply wp_bind, wp_bind.
  eapply wp_mono; [apply (acquire_step t k n _ _ _ _ _ (λ p, if is_null p then None else Some (HRef TLocalFile p)) Hr Hn
    (fget_ok fd) I)|].
  - by intros ? ->.
  - intros p Hp _. exists (HRef TLocalFile p). unfold is_null, null. by rewrite (proj2 (Z.eqb_neq p 0)).
  - intros p k' Hpost. simpl in Hpost. destruct (is_null p); by apply wp_ret, wp_ret.
Qed.

Lemma rstep_assume t k n : refs_ok t k → wp (ref_step t (OAssume n)) (ref_post t k) k.
Proof.
  intros Hr. simpl. destruct (t !! n) as [[[] p| | | | |]|] eqn:Hn; try by apply ref_post_skip.
  apply wp_ret. eapply ref_post_retag; [done|exact Hn|done|done|]. by intros ? ? [= <- <-].
Qed.

Lemma rstep_reserve t k n fl : refs_ok t k → wp (ref_step t (OReserve n fl)) (ref_post t k) k.
Proof.
  intros Hr. simpl. destruct (t !! n) eqn:Hn; [by apply ref_post_skip|]. unfold get_unused_fd_flags. apply wp_bind, wp_bind.
  eapply wp_mono; [apply (acquire_step t k n _ _ _ _ _ (λ fd, if fd <? 0 then None else Some (HRes (wrap 32 fd))) Hr Hn
    (get_unused_fd_ok fl) I)|].
  - intros fd Hfd. by rewrite (proj2 (Z.ltb_lt _ _)).
  - intros fd Hfd [Hm _]. exists (HRes fd). rewrite (proj2 (Z.ltb_ge _ _)), wrap_id by (unfold I32_MAX in Hm; lia). done.
  - intros fd k' Hpost. simpl in Hpost. destruct (fd <? 0); by apply wp_ret, wp_ret.
Qed.

Lemma rstep_install t k n nf : refs_ok t k → wp (ref_step t (OInstall n nf)) (ref_post t k) k.
Proof.
  intros Hr. simpl. destruct (t !! n) as [[|fd| | | |]|] eqn:Hn; try by apply ref_post_skip.
  destruct (t !! nf) as [[[] p| | | | |]|] eqn:Hnf; try by apply ref_post_skip.
  apply wp_bind. eapply wp_mono; [apply fd_install_ok; [by apply (level_pos t k n (HRes fd))|by apply (level_pos t k nf (HRef TFile p))]|].
  intros [] k' Ha. apply wp_ret. assert (n ≠ nf) as Hne by congruence. apply ref_post_intro; [done| |].
  - intros r. rewrite (Ha r). unfold given. rewrite (tally_delete owns _ nf (HRef TFile p)) by (by rewrite lookup_delete_ne).
    rewrite (tally_delete owns t n (HRes fd)) by done. simpl. rewrite filter_cons, filter_nil. unfold one.
    repeat case_decide; simpl; subst; try congruence; lia.
  - intros g h o. rewrite !lookup_delete_Some. intros (_ & _ & Hg) Ho.
    destruct (ro_borrow _ _ Hr _ _ _ Hg Ho) as (ty & q & Hq & Hu). exists ty, q.
    rewrite !lookup_delete_ne; [done| |]; intros <-; rewrite Hq in *; simplify_eq; done.
Qed.

Lemma rstep_pid_ns t k n n' : refs_ok t k → wp (ref_step t (OPidNs n n')) (ref_post t k) k.
Proof.
  intros Hr. simpl. destruct (t !! n) as [[[] p| | | | |]|] eqn:Hn; try by apply ref_post_skip.
  destruct (t !! n') eqn:Hn'; [by apply ref_post_skip|]. unfold get_task_pid_ns. apply wp_bind, wp_bind.
  eapply wp_mono; [apply (acquire_step t k n' _ _ _ _ _ (λ p, if is_null p then None else Some (HRef TPidNs p)) Hr Hn'
    (task_get_pid_ns_ok p))|].
  - by apply (level_pos t k n (HRef TTask p)).
  - by intros ? ->.
  - intros q Hq _. exists (HRef TPidNs q). unfold is_null, null. by rewrite (proj2 (Z.eqb_neq q 0)).
  - intros q k' Hpost. simpl in Hpost. destruct (is_null q); by apply wp_ret, wp_ret.
Qed.

(** The structure of an address space lives while any reference to it does. *)
Lemma mm_alive t k n ty p : refs_ok t k → t !! n = Some (HRef ty p) → is_mm ty = true → mm_held p k.
Proof.
  intros Hr Hn Hty. pose proof (level_pos _ _ _ _ Hr Hn) as Hl. destruct ty; try done; [by left|by right..].
Qed.

Lemma users_pos t k n ty p : refs_ok t k → t !! n = Some (HRef ty p) → has_users ty = true → 0 < level (RCount CMmUsers p) k.
Proof. intros Hr Hn Hty. pose proof (level_pos _ _ _ _ Hr Hn). by destruct ty. Qed.

Lemma rstep_grab t k n n' : refs_ok t k → wp (ref_step t (OGrab n n')) (ref_post t k) k.
Proof.
  intros Hr. simpl. destruct (t !! n) as [[ty p| | | | |]|] eqn:Hn; try by apply ref_post_skip.
  destruct (t !! n') eqn:Hn'; [by apply ref_post_skip|]. destruct (is_mm ty) eqn:Hty; [|by apply ref_post_skip].
  apply wp_bind. unfold aref_from_ref. apply wp_bind.
  eapply wp_mono; [apply mmgrab_ok; by eapply mm_alive|]. intros [] k' Ha. apply wp_ret, wp_ret. by eapply ref_post_new.
Qed.

Lemma rstep_mmget t k n n' : refs_ok t k → wp (ref_step t (OMmGet n n')) (ref_post t k) k.
Proof.
  intros Hr. simpl. destruct (t !! n) as [[ty p| | | | |]|] eqn:Hn; try by apply ref_post_skip.
  destruct (t !! n') eqn:Hn'; [by apply ref_post_skip|]. destruct (is_mm ty) eqn:Hty; [|by apply ref_post_skip].
  unfold mmget_not_zero. apply wp_bind, wp_bind.
  eapply wp_mono; [apply (acquire_step t k n' _ _ _ _ _ (λ b : bool, if b then Some (HRef TMmUser p) else None) Hr Hn'
    (mmget_not_zero_ok p))|].
  - by eapply mm_alive.
  - by intros ? ->.
  - intros [] Hb _; [|done]. by exists (HRef TMmUser p).
  - intros [] k' Hpost; by apply wp_ret, wp_ret.
Qed.

Lemma rstep_async t k n : refs_ok t k → wp (ref_step t (OAsync n)) (ref_post t k) k.
Proof.
  intros Hr. simpl. destruct (borrowed t n); [by apply ref_post_skip|].
  destruct (t !! n) as [[[] p| | | | |]|] eqn:Hn; try by apply ref_post_skip.
  apply wp_ret. eapply ref_post_retag; [done|exact Hn|done|done|]. intros ? ? [= <- <-] _. by exists TMmAsync, p.
Qed.

Lemma rstep_mmap t k try n n' : refs_ok t k → wp (ref_step t (OMmap try n n')) (ref_post t k) k.
Proof.
  intros Hr. simpl. destruct (t !! n) as [[ty p| | | | |]|] eqn:Hn; try by apply ref_post_skip.
  destruct (t !! n') eqn:Hn'; [by apply ref_post_skip|]. destruct (has_users ty) eqn:Hty; [|by apply ref_post_skip].
  assert (∀ o, borrows (HMmap n p) = Some o → ∃ ty p, t !! o = Some (HRef ty p) ∧ has_users ty = true) as Hbo.
  { intros o [= <-]. eauto. }
  destruct try; apply wp_bind.
  - unfold mmap_read_trylock. apply wp_bind.
    eapply wp_mono; [apply (acquire_step t k n' _ _ _ _ _ (λ b : bool, if b then Some (HMmap n p) else None) Hr Hn'
      (mmap_read_trylock_ok p))|].
    + by eapply users_pos.
    + by intros ? ->.
    + intros [] Hb _; [|done]. by exists (HMmap n p).
    + intros [] k' Hpost; by apply wp_ret, wp_ret.
  - unfold mmap_read_lock. apply wp_bind. eapply changes_wp; [apply mmap_read_lock_ok|by eapply users_pos|].
    intros k' Ha. apply wp_ret, wp_ret. by eapply ref_post_new.
Qed.

Lemma rstep_lookup t k n a : refs_ok t k → wp (ref_step t (OLookup n a)) (ref_post t k) k.
Proof.
  intros Hr. simpl. destruct (t !! n) as [[| |o p| | |]|] eqn:Hn; try by apply ref_post_skip.
  apply wp_bind. unfold vma_lookup. apply wp_bind.
  eapply wp_mono; [apply vma_lookup_ok; by apply (level_pos t k n (HMmap o p))|]. intros v k' Hs.
  destruct (is_null v); apply wp_ret, wp_ret; by apply ref_post_keep.
Qed.

Lemma rstep_vma t k pv a n n' : refs_ok t k → wp (ref_step t (OVma pv a n n')) (ref_post t k) k.
Proof.
  intros Hr. simpl. destruct (t !! n) as [[ty p| | | | |]|] eqn:Hn; try by apply ref_post_skip.
  destruct (t !! n') eqn:Hn'; [by apply ref_post_skip|]. destruct (has_users ty) eqn:Hty; [|by apply ref_post_skip].
  apply wp_bind. unfold lock_vma_under_rcu. destruct pv; [|by apply wp_ret, ref_post_skip]. apply wp_bind.
  eapply wp_mono; [apply (acquire_step t k n' _ _ _ _ _ (λ v, if is_null v then None else Some (HVma n v)) Hr Hn' (lock_vma_ok p a))|].
  - by eapply users_pos.
  - by intros ? ->.
  - intros v Hv _. exists (HVma n v). unfold is_null, null. rewrite (proj2 (Z.eqb_neq v 0)) by done.
    split_and!; [done|done|]. intros o [= <-]. eauto.
  - intros v k' Hpost. simpl in Hpost. destruct (is_null v); by apply wp_ret, wp_ret.
Qed.

Lemma rstep_get_device t k n n' : refs_ok t k → wp (ref_step t (OGetDevice n n')) (ref_post t k) k.
Proof.
  intros Hr. simpl. destruct (t !! n) as [[[] p| | | | |]|] eqn:Hn; try by apply ref_post_skip.
  destruct (t !! n') eqn:Hn'; [by apply ref_post_skip|]. apply wp_bind. unfold device_get_device, aref_from_ref. apply wp_bind.
  eapply changes_wp; [apply get_device_ok|by apply (level_pos t k n (HRef TDevice p))|]. intros k' Ha.
  apply wp_ret, wp_ret. by eapply ref_post_new.
Qed.

(** A firmware image, by either function. *)
Lemma request_step t k n name p func : refs_ok t k → t !! n = None → 0 < level (RCount CDevice p) k →
  acquires (func name p) (λ k, 0 < level (RCount CDevice p) k) (λ a, a.1 ≠ 0) (λ a, RFw a.2) (λ a _, a.2 ≠ 0) →
  wp (request_internal name p func)
    (λ x k', ref_post t k (bind_opt t n (match x with Ok fw => Some (HFw fw) | Err _ => None end), []) k') k.
Proof.
  intros Hr Hn Hl Hf. unfold request_internal. apply wp_bind.
  eapply wp_mono; [by apply Hf|]. intros [ret fw] k' [[Hret Hs]|(Hret & Hfw & Ha)]; simpl in *.
  - rewrite (proj2 (Z.eqb_neq _ _) Hret). by apply wp_ret, ref_post_keep.
  - assert (ret = 0) as -> by lia. simpl. unfold is_null, null. rewrite (proj2 (Z.eqb_neq _ _) Hfw).
    apply wp_ret. by eapply ref_post_new.
Qed.

Lemma rstep_firmware t k w name n n' : refs_ok t k → wp (ref_step t (OFirmware w name n n')) (ref_post t k) k.
Proof.
  intros Hr. simpl. destruct (t !! n) as [[[] p| | | | |]|] eqn:Hn; try by apply ref_post_skip.
  destruct (t !! n') eqn:Hn'; [by apply ref_post_skip|]. apply wp_bind.
  assert (0 < level (RCount CDevice p) k) as Hl by by apply (level_pos t k n (HRef TDevice p)).
  destruct w; (eapply wp_mono; [apply request_step; [exact Hr|exact Hn'|exact Hl|first [apply request_firmware_ok|apply request_nowarn_ok]]|]);
    intros r k' Hp; by apply wp_ret.
Qed.

Lemma rstep_secctx t k n secid : refs_ok t k → wp (ref_step t (OSecCtx n secid)) (ref_post t k) k.
Proof.
  intros Hr. simpl. destruct (t !! n) eqn:Hn; [by apply ref_post_skip|]. apply wp_bind. unfold from_secid. apply wp_bind.
  eapply wp_mono; [by apply secid_to_secctx_ok|]. intros [[r d] len] k' Hp. simpl in Hp. apply wp_try, wp_ret.
  unfold to_result. destruct Hp as [[Hlt Hs]|(Hge & _ & Ha)].
  - rewrite (proj2 (Z.ltb_lt _ _)) by done. by apply wp_ret, ref_post_keep.
  - rewrite (proj2 (Z.ltb_ge _ _)) by lia. apply wp_ret, wp_ret. by eapply ref_post_new.
Qed.

Lemma ref_step_ok t k op : refs_ok t k → wp (ref_step t op) (ref_post t k) k.
Proof.
  intros Hr. destruct op; [by apply rstep_clone|by apply rstep_drop|by apply rstep_fget|by apply rstep_assume|by apply rstep_reserve|
    by apply rstep_install|by apply rstep_pid_ns|by apply rstep_grab|by apply rstep_mmget|by apply rstep_async|
    by apply rstep_mmap|by apply rstep_lookup|by apply rstep_vma|by apply rstep_get_device|by apply rstep_firmware|
    by apply rstep_secctx].
Qed.

Lemma given_app g g' r : given (g ++ g') r = given g r + given g' r.
Proof. unfold given. rewrite filter_app, length_app. lia. Qed.

Lemma ref_run_ok ops : ∀ t k, refs_ok t k → wp (ref_run t ops) (ref_post t k) k.
Proof.
  induction ops as [|op ops IH]; intros t k Hr; simpl; [by apply ref_post_skip|].
  apply wp_bind. eapply wp_mono; [by apply ref_step_ok|]. intros [t1 g1] k1 [Hr1 Hb1]. simpl in *.
  apply wp_bind. eapply wp_mono; [by apply IH|]. intros [t2 g2] k2 [Hr2 Hb2]. simpl in *.
  apply wp_ret. split; [done|]. intros r. simpl. rewrite given_app. specialize (Hb1 r). specialize (Hb2 r). lia.
Qed.

(** Only files are given away. *)
Lemma given_other g r : (∀ p, r ≠ RCount CFile p) → given g r = 0.
Proof.
  intros Hne. induction g as [|p g IH]; [done|]. unfold given in *.
  rewrite filter_cons_False; [done|]. intros <-. by apply (Hne p).
Qed.
End Proofs.

(** ** Theorems *)

(** C34: references to kernel objects are safe and balanced. Every program over [ARef]s,
    descriptor reservations, lock guards, firmware images and security contexts runs without a panic, and never passes an object
    to the kernel that it does not hold: the kernel's count of each object, descriptor and
    lock is at least the number of handles on it. The books balance after every program: the
    counts changed by exactly what the program holds more, and what it gave to the descriptor
    table; so nothing leaks and nothing is released twice. *)
Theorem kernel_refs_balanced {K} `{KernelObjsSpec K} (t : handles) (ops : list RefOp) (k : K) (Hr : refs_ok t k) :
  ∃ t' given_files k', ref_run t ops k = Done ((t', given_files), k') ∧
    (∀ r, held t' r ≤ level r k') ∧
    (∀ r, level r k' = level r k + (held t' r - held t r) + given given_files r) ∧
    (t = ∅ → t' = ∅ → ∀ r, (∀ p, r ≠ RCount CFile p) → level r k' = level r k).
Proof.
  destruct (ref_run_ok ops t k Hr) as ([t' g] & k' & Hd & [Ho _] & Hb). simpl in *. exists t', g, k'.
  split_and!; [done|done| |].
  - intros r. specialize (Hb r). lia.
  - intros -> -> r Hne. specialize (Hb r). rewrite (given_other g r Hne) in Hb. lia.
Qed.

(** ** An instance: a kernel that only counts *)

Section Counting.
Local Abbreviation Kc := (resource → Z).

Definition bump (r : resource) (d : Z) (k : Kc) : Kc := λ r', k r' + (if decide (r' = r) then d else 0).
Definition count_up (c : counter) (p : Z) : M Kc unit := modify (bump (RCount c p) 1).
Definition count_down (c : counter) (p : Z) : M Kc unit := modify (bump (RCount c p) (-1)).
Definition take_res {B} (b : B) (r : resource) : M Kc B := _ ← modify (bump r 1); mret b.

(** Descriptor 3 is open; 7 is the one that can be reserved; only the first page is mapped. *)
#[export] Instance counting_kernel : KernelObjs Kc := {|
  level r k := k r;
  get_file := count_up CFile; rs_fput := count_down CFile;
  get_cred := count_up CCred; put_cred := count_down CCred;
  get_task_struct := count_up CTask; put_task_struct := count_down CTask;
  get_pid_ns := count_up CPidNs; put_pid_ns := count_down CPidNs;
  mmgrab := count_up CMmCount; mmdrop := count_down CMmCount;
  mmget := count_up CMmUsers; mmput := count_down CMmUsers; mmput_async := count_down CMmUsers;
  c_mmget_not_zero p := k ← get; if 0 <? k (RCount CMmUsers p) then take_res true (RCount CMmUsers p) else mret false;
  rs_fget fd := if fd =? 3 then take_res 4096 (RCount CFile 4096) else mret 0;
  rs_get_unused_fd_flags _ := k ← get; if k (RFd 7) =? 0 then take_res 7 (RFd 7) else mret (-24);
  rs_put_unused_fd fd := modify (bump (RFd fd) (-1));
  rs_fd_install fd _ := modify (bump (RFd fd) (-1));
  task_get_pid_ns _ := take_res 512 (RCount CPidNs 512);
  c_mmap_read_lock p := modify (bump (RMmap p) 1);
  c_mmap_read_trylock p := take_res true (RMmap p);
  mmap_read_unlock p := modify (bump (RMmap p) (-1));
  c_lock_vma_under_rcu _ a := if a <? 4096 then take_res 768 (RVma 768) else mret 0;
  vma_end_read v := modify (bump (RVma v) (-1));
  c_vma_lookup _ a := mret (if a <? 4096 then 768 else 0);
  get_device := count_up CDevice; put_device := count_down CDevice;
  request_firmware n _ := if n =? 8 then take_res (0, 1536) (RFw 1536) else mret (-2, 0);
  firmware_request_nowarn n _ := if n =? 8 then take_res (0, 1536) (RFw 1536) else mret (-2, 0);
  release_firmware p := modify (bump (RFw p) (-1));
  security_secid_to_secctx i := if i =? 0 then mret (-95, 0, 0) else take_res (0, 2048, 12) (RCtx 2048);
  security_release_secctx p _ := modify (bump (RCtx p) (-1))
|}.

Lemma bump_changes pre r d : changes (K:=Kc) (modify (bump r d)) pre r d.
Proof. intros k _. by apply wp_modify. Qed.

Lemma take_ok {B} (b : B) r k (Q : B → Kc → Prop) : (adds (K:=Kc) r 1 k (bump r 1 k) → Q b (bump r 1 k)) → wp (take_res b r) Q k.
Proof. intros HQ. apply wp_bind, wp_modify, wp_ret, HQ. by intros r'. Qed.

#[export] Instance counting_kernel_ok : KernelObjsSpec Kc.
Proof.
  split; intros; try apply bump_changes; try (by apply wp_modify).
  - intros k _. apply wp_bind, wp_get. destruct (0 <? _); [apply take_ok; by right|]. apply wp_ret. by left.
  - intros k _. simpl. destruct (fd =? 3); [apply take_ok; by right|]. apply wp_ret. by left.
  - intros k _. apply wp_bind, wp_get. destruct (_ =? 0) eqn:E; [|apply wp_ret; by left].
    apply take_ok. right. split_and!; [lia|done|by apply Z.eqb_eq|done].
  - intros k _. apply take_ok. by right.
  - intros k _. apply take_ok. by right.
  - intros k _. simpl. destruct (a <? 4096); [apply take_ok; by right|]. apply wp_ret. by left.
  - by apply wp_ret.
  - intros k _. simpl. destruct (n =? 8); [apply take_ok; right; split_and!; simpl; [by intros []|done|done]|].
    apply wp_ret. by left.
  - intros k _. simpl. destruct (n =? 8); [apply take_ok; right; split_and!; simpl; [by intros []|done|done]|].
    apply wp_ret. by left.
  - intros k _. simpl. destruct (i =? 0); [apply wp_ret; by left|]. apply take_ok. by right.
Qed.
End Counting.

(** A task, an address space with a user and a device; one open file. *)
Definition demo_level : resource → Z := λ r,
  if decide (r = RCount CTask 256 ∨ r = RCount CMmUsers 64 ∨ r = RCount CFile 4096 ∨ r = RCount CDevice 128) then 1 else 0.
Definition demo_handles : handles := {[ 0%nat := HRef TTask 256; 1%nat := HRef TMmUser 64; 20%nat := HRef TDevice 128 ]}.

(** A file moves from descriptor 3 to 7, a second reservation is given back; the address space
    is locked, searched, and put asynchronously; a borrowed reference cannot be dropped;
    one firmware image is found and one is not, and one of two security contexts. *)
Definition demo_program : list RefOp :=
  [OFget 2 3; OFget 3 5; OAssume 2; OClone 2 4; OReserve 5 0; OReserve 6 0; OInstall 5 2; OReserve 6 0; ODrop 6; ODrop 4;
   OPidNs 0 7; ODrop 7; OGrab 1 8; OMmGet 8 9; OMmap true 9 10; ODrop 9; OLookup 10 0; OVma true 100 9 11; OVma true 8192 9 12;
   ODrop 11; ODrop 10; OAsync 9; ODrop 9; ODrop 8; OGetDevice 20 21; OFirmware true 8 21 22; OFirmware false 9 21 23; ODrop 21;
   OSecCtx 24 5; OSecCtx 25 0; ODrop 22; ODrop 24]%nat.

Example demo_runs :
  match ref_run demo_handles demo_program demo_level with
  | Done ((t, g), k) => bool_decide (t = demo_handles) && bool_decide (g = [4096]) &&
      (k (RCount CFile 4096) =? 2) && (k (RFd 7) =? 0) && (k (RMmap 64) =? 0) && (k (RCount CMmUsers 64) =? 1) && (k (RFw 1536) =? 0) && (k (RCtx 2048) =? 0)
  | _ => false
  end = true.
Proof. vm_compute. reflexivity. Qed.

Lemma demo_refs_ok : refs_ok demo_handles demo_level.
Proof.
  split.
  - intros r. unfold demo_handles. rewrite <- insert_empty, !tally_insert by done. change (held ∅ r) with 0. unfold one, demo_level, level, counting_kernel. simpl.
    repeat case_decide; subst; simpl; try lia; naive_solver.
  - assert (map_Forall (λ _ h, borrows h = None) demo_handles) as Hb by (apply (bool_decide_unpack _); vm_compute; exact I).
    intros g h o Hg Ho. by rewrite (Hb g h Hg) in Ho.
Qed.

Lemma kernel_refs_balanced_witness :
  ∃ t' g k', ref_run demo_handles demo_program demo_level = Done ((t', g), k') ∧ ∀ r, held t' r ≤ level r k'.
Proof.
  destruct (kernel_refs_balanced demo_handles demo_program demo_level demo_refs_ok) as (t' & g & k' & Hd & Hh & _).
  exists t', g, k'. by split.
Defined.
