(* ===== verification/Vma.v ===== *)
(** * Virtual memory areas ([rust/src/mm/virt.rs], the [vm_area_struct] accessors of
      [src/shim.c], the flags of [rust/src/bindings.rs])

    A [vm_area_struct] is a record in a map of areas; the accessors of the shim read and
    write it, and an access to an area that is not there is [UB]. The kernel functions that
    act on page tables are a parameter ([VmaKernel]) which sees the area it is called on.

    The client is an [mmap] hook, which configures a new area through [VmaNew]. *)

From S2P Require Import Prelude Errors.

(** ** Flags *)

Definition VM_NONE : Z := 0x00000000.
Definition VM_READ : Z := 0x00000001.
Definition VM_WRITE : Z := 0x00000002.
Definition VM_EXEC : Z := 0x00000004.
Definition VM_SHARED : Z := 0x00000008.
Definition VM_MAYREAD : Z := 0x00000010.
Definition VM_MAYWRITE : Z := 0x00000020.
Definition VM_MAYEXEC : Z := 0x00000040.
Definition VM_MAYSHARE : Z := 0x00000080.
Definition VM_PFNMAP : Z := 0x00000400.
Definition VM_IO : Z := 0x00004000.
Definition VM_DONTCOPY : Z := 0x00020000.
Definition VM_DONTEXPAND : Z := 0x00040000.
Definition VM_LOCKONFAULT : Z := 0x00080000.
Definition VM_ACCOUNT : Z := 0x00100000.
Definition VM_NORESERVE : Z := 0x00200000.
Definition VM_HUGETLB : Z := 0x00400000.
Definition VM_SYNC : Z := 0x00800000.
Definition VM_ARCH_1 : Z := 0x01000000.
Definition VM_WIPEONFORK : Z := 0x02000000.
Definition VM_DONTDUMP : Z := 0x04000000.
Definition VM_SOFTDIRTY : Z := 0x08000000.
Definition VM_MIXEDMAP : Z := 0x10000000.
Definition VM_HUGEPAGE : Z := 0x20000000.
Definition VM_NOHUGEPAGE : Z := 0x40000000.
Definition VM_MERGEABLE : Z := 0x80000000.

Module flags.
Definition NONE : Z := VM_NONE.
Definition READ : Z := VM_READ.
Definition WRITE : Z := VM_WRITE.
Definition EXEC : Z := VM_EXEC.
Definition SHARED : Z := VM_SHARED.
Definition MAYREAD : Z := VM_MAYREAD.
Definition MAYWRITE : Z := VM_MAYWRITE.
Definition MAYEXEC : Z := VM_MAYEXEC.
Definition MAYSHARE : Z := VM_MAYSHARE.
Definition PFNMAP : Z := VM_PFNMAP.
Definition IO_ : Z := VM_IO.
Definition DONTCOPY : Z := VM_DONTCOPY.
Definition DONTEXPAND : Z := VM_DONTEXPAND.
Definition LOCKONFAULT : Z := VM_LOCKONFAULT.
Definition ACCOUNT : Z := VM_ACCOUNT.
Definition NORESERVE : Z := VM_NORESERVE.
Definition HUGETLB : Z := VM_HUGETLB.
Definition SYNC : Z := VM_SYNC.
Definition ARCH_1 : Z := VM_ARCH_1.
Definition WIPEONFORK : Z := VM_WIPEONFORK.
Definition DONTDUMP : Z := VM_DONTDUMP.
Definition SOFTDIRTY : Z := VM_SOFTDIRTY.
Definition MIXEDMAP : Z := VM_MIXEDMAP.
Definition HUGEPAGE : Z := VM_HUGEPAGE.
Definition NOHUGEPAGE : Z := VM_NOHUGEPAGE.
Definition MERGEABLE : Z := VM_MERGEABLE.
End flags.

(** ** Areas and the kernel *)

Record vm_area := MkVma { vm_mm : Z; vm_start : Z; vm_end : Z; vm_flags : Z }.
Record VState (K : Type) := MkVState { vs_vmas : gmap Z vm_area; vs_kern : K }.
Arguments MkVState {K}.
Arguments vs_vmas {K}.
Arguments vs_kern {K}.

(** What is done to the page tables of an area. *)
Inductive VEvent := EvZap (vma address size : Z) | EvInsert (vma address page r : Z).

Class VmaKernel (K : Type) := {
  vlog : K → list VEvent;
  c_zap_page_range_single : Z → vm_area → Z → Z → M K unit;
  c_vm_insert_page : Z → vm_area → Z → Z → M K Z
}.

(** An errno, or zero. *)
Definition cret (r : Z) : Prop := - MAX_ERRNO ≤ r ≤ 0.

(** Zapping needs a range of the area. Pages are only inserted into areas with
    [VM_MIXEDMAP]; the kernel sets the flag itself on others, which needs the write lock. *)
Class VmaKernelSpec (K : Type) `{VmaKernel K} : Prop := {
  c_zap_ok v x a n k : vm_start x ≤ a → 0 ≤ n → a + n ≤ vm_end x →
    wp (c_zap_page_range_single v x a n) (λ _ k', vlog k' = vlog k ++ [EvZap v a n]) k;
  c_insert_ok v x a pg k : Z.testbit (vm_flags x) 28 = true →
    wp (c_vm_insert_page v x a pg) (λ r k', cret r ∧ vlog k' = vlog k ++ [EvInsert v a pg r]) k
}.

(** ** The code *)

Section Code.
Context {K : Type} {VK : VmaKernel K}.
Local Abbreviation VM := (M (VState K)).

Definition read_vma (v : Z) : VM vm_area :=
  s ← get; match vs_vmas s !! v with Some x => mret x | None => ub end.

Definition on_kern {A} (m : M K A) : VM A := λ s,
  match m (vs_kern s) with
  | Done (a, k') => Done (a, MkVState (vs_vmas s) k')
  | Panic => Panic
  | UB => UB
  end.

Definition rs_vma_mm (v : Z) : VM Z := x ← read_vma v; mret (vm_mm x).
Definition rs_vma_flags (v : Z) : VM Z := x ← read_vma v; mret (vm_flags x).
Definition rs_vma_start (v : Z) : VM Z := x ← read_vma v; mret (vm_start x).
Definition rs_vma_end (v : Z) : VM Z := x ← read_vma v; mret (vm_end x).
Definition rs_vma_set_flags (v fl : Z) : VM unit :=
  x ← read_vma v;
  modify (λ s, MkVState (<[v := MkVma (vm_mm x) (vm_start x) (vm_end x) fl]> (vs_vmas s)) (vs_kern s)).

(** *** [VmaRef] *)

Definition vma_mm (v : Z) : VM Z := rs_vma_mm v.
Definition vma_flags (v : Z) : VM Z := rs_vma_flags v.
Definition vma_start (v : Z) : VM Z := rs_vma_start v.
Definition vma_end (v : Z) : VM Z := rs_vma_end v.

Definition overflowing_add (a b : Z) : Z * bool := (wrapping_add a b, USIZE_MAX <? a + b).

Definition zap_page_range_single (v address size : Z) : VM unit :=
  let '(e, did_overflow) := overflowing_add address size in
  s ← vma_start v; ve ← vma_end v;
  if did_overflow || (address <? s) || (ve <? e) then mret tt
  else x ← read_vma v; on_kern (c_zap_page_range_single v x address size).

(** A [VmaMixedMap] is the same pointer. *)
Definition as_mixedmap_vma (v : Z) : VM (option Z) :=
  fl ← vma_flags v;
  if negb (Z.land fl flags.MIXEDMAP =? 0) then mret (Some v) else mret None.

Definition vm_insert_page (v address page : Z) : VM (result Error unit) :=
  x ← read_vma v; r ← on_kern (c_vm_insert_page v x address page); mret (to_result r).

(** *** [VmaNew] *)

(** [!unset] on 64 bits. *)
Definition not64 (z : Z) : Z := wrap 64 (Z.lnot z).

Definition update_flags (v set unset : Z) : VM unit :=
  fl ← vma_flags v;
  let fl := Z.lor fl set in
  let fl := Z.land fl (not64 unset) in
  rs_vma_set_flags v fl.

Definition set_mixedmap (v : Z) : VM Z := _ ← update_flags v flags.MIXEDMAP 0; mret v.
Definition set_io (v : Z) : VM unit := update_flags v flags.IO_ 0.
Definition set_dontexpand (v : Z) : VM unit := update_flags v flags.DONTEXPAND 0.
Definition set_dontcopy (v : Z) : VM unit := update_flags v flags.DONTCOPY 0.
Definition set_dontdump (v : Z) : VM unit := update_flags v flags.DONTDUMP 0.

Definition readable (v : Z) : VM bool := fl ← vma_flags v; mret (negb (Z.land fl flags.READ =? 0)).
Definition writable (v : Z) : VM bool := fl ← vma_flags v; mret (negb (Z.land fl flags.WRITE =? 0)).
Definition executable (v : Z) : VM bool := fl ← vma_flags v; mret (negb (Z.land fl flags.EXEC =? 0)).

Definition try_clear_mayread (v : Z) : VM (result Error unit) :=
  b ← readable v;
  if b : bool then mret (Err (EINVAL : Error)) else _ ← update_flags v 0 flags.MAYREAD; mret (Ok tt).
Definition try_clear_maywrite (v : Z) : VM (result Error unit) :=
  b ← writable v;
  if b : bool then mret (Err (EINVAL : Error)) else _ ← update_flags v 0 flags.MAYWRITE; mret (Ok tt).
Definition try_clear_mayexec (v : Z) : VM (result Error unit) :=
  b ← executable v;
  if b : bool then mret (Err (EINVAL : Error)) else _ ← update_flags v 0 flags.MAYEXEC; mret (Ok tt).

(** ** Hooks *)

Inductive perm := PRead | PWrite | PExec.
Inductive setter := SMixedmap | SIo | SDontexpand | SDontcopy | SDontdump.
#[export] Instance setter_eq_dec : EqDecision setter.
Proof. solve_decision. Defined.

Inductive VOp :=
| VSet (w : setter)
| VTest (p : perm)
| VClear (p : perm)
| VZap (address size : Z)
| VAsMixed
| VInsert (address page : Z).

Inductive VOut := OUnit | OBool (b : bool) | ORes (r : result Error unit) | OSkip.

Definition run_set (v : Z) (w : setter) : VM (option Z) :=
  match w with
  | SMixedmap => m ← set_mixedmap v; mret (Some m)
  | SIo => _ ← set_io v; mret None
  | SDontexpand => _ ← set_dontexpand v; mret None
  | SDontcopy => _ ← set_dontcopy v; mret None
  | SDontdump => _ ← set_dontdump v; mret None
  end.
Definition run_test (v : Z) (p : perm) : VM bool :=
  match p with PRead => readable v | PWrite => writable v | PExec => executable v end.
Definition run_clear (v : Z) (p : perm) : VM (result Error unit) :=
  match p with PRead => try_clear_mayread v | PWrite => try_clear_maywrite v | PExec => try_clear_mayexec v end.

(** The hook keeps the [VmaMixedMap] it got, if any; only that type inserts pages. *)
Definition vma_step (v : Z) (mixed : option Z) (op : VOp) : VM (option Z * VOut) :=
  match op with
  | VSet w => m ← run_set v w; mret (match m with Some _ => m | None => mixed end, OUnit)
  | VTest p => b ← run_test v p; mret (mixed, OBool b)
  | VClear p => r ← run_clear v p; mret (mixed, ORes r)
  | VZap a n => _ ← zap_page_range_single v a n; mret (mixed, OUnit)
  | VAsMixed => m ← as_mixedmap_vma v; mret (match m with Some _ => m | None => mixed end, OBool (bool_decide (is_Some m)))
  | VInsert a pg =>
      match mixed with
      | Some m => r ← vm_insert_page m a pg; mret (mixed, ORes r)
      | None => mret (mixed, OSkip)
      end
  end.

Fixpoint vma_run (v : Z) (mixed : option Z) (ops : list VOp) : VM (list VOut) :=
  match ops with
  | [] => mret []
  | op :: ops => '(mixed, o) ← vma_step v mixed op; os ← vma_run v mixed ops; mret (o :: os)
  end.
End Code.

(** ** The abstract machine: sets of flags *)

Definition pbit (p : perm) : Z := match p with PRead => 0 | PWrite => 1 | PExec => 2 end.
Definition maybit (p : perm) : Z := pbit p + 4.
Definition sbit (w : setter) : Z :=
  match w with SMixedmap => 28 | SIo => 14 | SDontexpand => 18 | SDontcopy => 17 | SDontdump => 26 end.

Record VAbs := MkVAbs { a_flags : gset Z; a_mixed : bool }.

(** One step on an area [x] at [v]; [r] is the kernel's answer, for the operation that asks. *)
Definition vspec_step (v : Z) (x : vm_area) (A : VAbs) (op : VOp) (r : Z) : VAbs * VOut * list VEvent :=
  let (S, m) := A in
  match op with
  | VSet w => (MkVAbs ({[sbit w]} ∪ S) (m || bool_decide (sbit w = 28)), OUnit, [])
  | VTest p => (A, OBool (bool_decide (pbit p ∈ S)), [])
  | VClear p =>
      if bool_decide (pbit p ∈ S) then (A, ORes (Err (EINVAL : Error)), [])
      else (MkVAbs (S ∖ {[maybit p]}) m, ORes (Ok tt), [])
  | VZap a n =>
      (A, OUnit, if (vm_start x <=? a) && (a + n <=? vm_end x) then [EvZap v a n] else [])
  | VAsMixed => (MkVAbs S (m || bool_decide (28 ∈ S)), OBool (bool_decide (28 ∈ S)), [])
  | VInsert a pg => if m then (A, ORes (to_result r), [EvInsert v a pg r]) else (A, OSkip, [])
  end.

Fixpoint vspec_run (v : Z) (x : vm_area) (A : VAbs) (ops : list VOp) (rs : list Z) : VAbs * list VOut * list VEvent :=
  match ops, rs with
  | op :: ops, r :: rs =>
      let '(A1, o, ev) := vspec_step v x A op r in
      let '(A2, os, evs) := vspec_run v x A1 ops rs in
      (A2, o :: os, ev ++ evs)
  | _, _ => (A, [], [])
  end.

Lemma vspec_run_cons v x A op ops r rs A1 o ev A2 os evs :
  vspec_step v x A op r = (A1, o, ev) → vspec_run v x A1 ops rs = (A2, os, evs) →
  vspec_run v x A (op :: ops) (r :: rs) = (A2, o :: os, ev ++ evs).
Proof. intros H1 H2. unfold vspec_run. fold vspec_run. by rewrite H1, H2. Qed.

(** ** Lemmas: bits *)

Lemma land_pow2 (z i : Z) : 0 ≤ i → negb (Z.land z (2 ^ i) =? 0) = Z.testbit z i.
Proof.
  intros Hi. destruct (Z.testbit z i) eqn:E.
  - apply negb_true_iff, Z.eqb_neq. intros H0. apply (f_equal (λ w, Z.testbit w i)) in H0.
    by rewrite Z.land_spec, E, Z.pow2_bits_true, Z.bits_0 in H0.
  - apply negb_false_iff, Z.eqb_eq. apply Z.bits_inj'. intros j Hj.
    rewrite Z.land_spec, Z.bits_0, Z.pow2_bits_eqb by done.
    destruct (Z.eqb_spec i j) as [<-|]; [by rewrite E|by rewrite andb_false_r].
Qed.

Lemma not64_bits (z j : Z) : 0 ≤ j < 64 → Z.testbit (not64 z) j = negb (Z.testbit z j).
Proof. intros Hj. unfold not64, wrap. by rewrite Z.mod_pow2_bits_low, Z.lnot_spec by lia. Qed.

Lemma bits_bound (z w : Z) : 0 ≤ w → 0 ≤ z → (∀ j, w ≤ j → Z.testbit z j = false) → z < 2 ^ w.
Proof.
  intros Hw Hz Hb. destruct (decide (z = 0)) as [->|Hne]; [apply Z.pow_pos_nonneg; lia|].
  apply Z.log2_lt_pow2; [lia|]. destruct (Z.lt_ge_cases (Z.log2 z) w) as [|Hge]; [done|].
  specialize (Hb _ Hge). rewrite Z.bit_log2 in Hb by lia. done.
Qed.

(** The new value of the flags in [update_flags]. *)
Definition updated (fl set unset : Z) : Z := Z.land (Z.lor fl set) (not64 unset).

Lemma updated_bits fl set unset j : 0 ≤ j < 64 →
  Z.testbit (updated fl set unset) j = (Z.testbit fl j || Z.testbit set j) && negb (Z.testbit unset j).
Proof. intros Hj. unfold updated. by rewrite Z.land_spec, Z.lor_spec, not64_bits. Qed.

Lemma updated_range fl set unset : 0 ≤ fl → 0 ≤ set → 0 ≤ updated fl set unset < 2 ^ 64.
Proof.
  intros Hf Hs. assert (0 ≤ not64 unset < 2 ^ 64) as Hn by (apply Z.mod_pos_bound; lia).
  assert (0 ≤ updated fl set unset) by (apply Z.land_nonneg; by right; lia).
  split; [done|]. apply bits_bound; [lia|done|]. intros j Hj. unfold updated. rewrite Z.land_spec.
  replace (Z.testbit (not64 unset) j) with false; [by rewrite andb_false_r|].
  symmetry. apply Z.bits_above_log2; [lia|]. destruct (decide (not64 unset = 0)) as [->|]; [simpl; lia|].
  enough (Z.log2 (not64 unset) < 64) by lia. apply Z.log2_lt_pow2; lia.
Qed.

(** The set of flags that a word represents. *)
Definition bits (fl : Z) : gset Z := list_to_set (filter (λ i, Z.testbit fl i = true) (seqZ 0 64)).

Lemma elem_of_bits fl i : i ∈ bits fl ↔ 0 ≤ i < 64 ∧ Z.testbit fl i = true.
Proof. unfold bits. rewrite elem_of_list_to_set, list_elem_of_filter, elem_of_seqZ. naive_solver. Qed.

Lemma bits_decide fl i : 0 ≤ i < 64 → bool_decide (i ∈ bits fl) = Z.testbit fl i.
Proof.
  intros Hi. destruct (Z.testbit fl i) eqn:E.
  - apply bool_decide_eq_true. by rewrite elem_of_bits.
  - apply bool_decide_eq_false. rewrite elem_of_bits. intros [_ ?]. congruence.
Qed.

Lemma bits_set fl i : 0 ≤ i < 64 → bits (updated fl (2 ^ i) 0) = {[i]} ∪ bits fl.
Proof.
  intros Hi. apply set_eq. intros j. rewrite elem_of_union, elem_of_singleton, !elem_of_bits. split.
  - intros [Hj Hb]. rewrite updated_bits, Z.bits_0, andb_true_r, Z.pow2_bits_eqb in Hb by lia.
    apply orb_true_iff in Hb as [Hb|Hb%Z.eqb_eq]; [by right|by left].
  - intros [->|[Hj Hb]]; (split; [done|]); rewrite updated_bits, Z.bits_0, andb_true_r by lia.
    + by rewrite Z.pow2_bits_true, orb_true_r by lia.
    + by rewrite Hb.
Qed.

Lemma bits_clear fl i : 0 ≤ i < 64 → bits (updated fl 0 (2 ^ i)) = bits fl ∖ {[i]}.
Proof.
  intros Hi. apply set_eq. intros j. rewrite elem_of_difference, elem_of_singleton, !elem_of_bits. split.
  - intros [Hj Hb]. rewrite updated_bits, Z.bits_0, orb_false_r, Z.pow2_bits_eqb in Hb by lia.
    apply andb_true_iff in Hb as [Hb Hn%negb_true_iff%Z.eqb_neq]. split; [done|congruence].
  - intros [[Hj Hb] Hne]. split; [done|]. rewrite updated_bits, Z.bits_0, orb_false_r, Hb, Z.pow2_bits_eqb by lia.
    by rewrite (proj2 (Z.eqb_neq i j)).
Qed.

(** ** Lemmas: the code *)

Lemma pbit_range p : 0 ≤ pbit p < 64.
Proof. by destruct p. Qed.
Lemma maybit_range p : 0 ≤ maybit p < 64.
Proof. by destruct p. Qed.
Lemma sbit_range w : 0 ≤ sbit w < 64.
Proof. by destruct w. Qed.

(** The flags of an area: 64 bits, and nothing is allowed that may not be allowed. *)
Definition flags_wf (fl : Z) : Prop := 0 ≤ fl < 2 ^ 64 ∧ ∀ p, pbit p ∈ bits fl → maybit p ∈ bits fl.

Definition with_flags (x : vm_area) (fl : Z) : vm_area := MkVma (vm_mm x) (vm_start x) (vm_end x) fl.
Definition op_ok (op : VOp) : Prop := match op with VZap a n => is_usize a ∧ is_usize n | _ => True end.

Section Proofs.
Context {K : Type} {VK : VmaKernel K} {VKok : VmaKernelSpec K}.
Implicit Types (s : VState K) (x : vm_area).

(** The area [v] has the flags [fl] and its other fields from [x]; [m]: other areas. *)
Definition holds (v : Z) x (m : gmap Z vm_area) (fl : Z) (k : list VEvent) s : Prop :=
  vs_vmas s = <[v := with_flags x fl]> m ∧ vlog (vs_kern s) = k.

Lemma wp_read_vma v x m fl k s (Q : vm_area → VState K → Prop) :
  holds v x m fl k s → Q (with_flags x fl) s → wp (read_vma v) Q s.
Proof. intros [Hv _] HQ. unfold read_vma. apply wp_bind, wp_get. rewrite Hv, lookup_insert_eq. by apply wp_ret. Qed.

Lemma wp_vma_flags v x m fl k s (Q : Z → VState K → Prop) : holds v x m fl k s → Q fl s → wp (vma_flags v) Q s.
Proof. intros Hs HQ. unfold vma_flags, rs_vma_flags. apply wp_bind. eapply wp_read_vma; [done|]. by apply wp_ret. Qed.

Lemma update_flags_ok v set unset x m fl k s : holds v x m fl k s →
  wp (update_flags v set unset) (λ _ s', holds v x m (updated fl set unset) k s') s.
Proof.
  intros Hs. unfold update_flags. apply wp_bind. eapply wp_vma_flags; [done|]. unfold rs_vma_set_flags. apply wp_bind.
  eapply wp_read_vma; [done|]. apply wp_modify. destruct Hs as [Hv Hl]. split; [|done]. simpl. by rewrite Hv, insert_insert_eq.
Qed.

Lemma wp_on_kern {A} (f : M K A) (Q : A → VState K → Prop) s :
  wp f (λ a k', Q a (MkVState (vs_vmas s) k')) (vs_kern s) → wp (on_kern f) Q s.
Proof. intros (a & k' & Hf & HQ). exists a, (MkVState (vs_vmas s) k'). unfold on_kern. by rewrite Hf. Qed.

Lemma set_ok v w x m fl k s : holds v x m fl k s →
  wp (run_set v w) (λ o s', holds v x m (updated fl (2 ^ sbit w) 0) k s' ∧ o = (if decide (w = SMixedmap) then Some v else None)) s.
Proof.
  intros Hs. destruct w; simpl; apply wp_bind; [unfold set_mixedmap; apply wp_bind|..];
    (eapply wp_mono; [by apply update_flags_ok|]); intros [] s' H'; repeat apply wp_ret; by split.
Qed.

Lemma test_ok v p x m fl k s : holds v x m fl k s →
  wp (run_test v p) (λ b s', s' = s ∧ b = bool_decide (pbit p ∈ bits fl)) s.
Proof.
  intros Hs. rewrite bits_decide by (destruct p; simpl; lia). rewrite <- land_pow2 by (destruct p; simpl; lia).
  destruct p; simpl; apply wp_bind; (eapply wp_vma_flags; [done|]); by apply wp_ret.
Qed.

Lemma clear_ok v p x m fl k s : holds v x m fl k s →
  wp (run_clear v p) (λ r s', if bool_decide (pbit p ∈ bits fl) then s' = s ∧ r = Err (EINVAL : Error)
    else holds v x m (updated fl 0 (2 ^ maybit p)) k s' ∧ r = Ok tt) s.
Proof.
  intros Hs. pose proof (test_ok v p x m fl k s Hs) as Ht. pose proof (λ u, update_flags_ok v 0 u x m fl k s Hs) as Hu.
  destruct p; simpl in *; apply wp_bind; (eapply wp_mono; [exact Ht|]); intros b s' [-> ->]; case_bool_decide;
    try (by apply wp_ret); apply wp_bind; (eapply wp_mono; [apply Hu|]); intros [] s1 H1; by apply wp_ret.
Qed.

Definition area_ok x : Prop := is_usize (vm_start x) ∧ is_usize (vm_end x).

Lemma zap_ok v a n x m fl k s : holds v x m fl k s → area_ok x → is_usize a → is_usize n →
  wp (zap_page_range_single v a n) (λ _ s', holds v x m fl
    (k ++ if (vm_start x <=? a) && (a + n <=? vm_end x) then [EvZap v a n] else []) s') s.
Proof.
  intros Hs [Hst Hen] Ha Hn. unfold zap_page_range_single, overflowing_add, vma_start, vma_end, rs_vma_start, rs_vma_end.
  do 4 (apply wp_bind; try (eapply wp_read_vma; [done|]); try apply wp_ret). simpl.
  destruct (USIZE_MAX <? a + n) eqn:Ho; simpl.
  { apply wp_ret. apply Z.ltb_lt in Ho. destruct Hen. rewrite (proj2 (Z.leb_gt (a + n) _)) by lia.
    by rewrite andb_false_r, app_nil_r. }
  apply Z.ltb_ge in Ho. unfold wrapping_add. rewrite wrap_id by (unfold USIZE_BITS, USIZE_MAX, is_usize in *; lia).
  rewrite (Z.ltb_antisym (vm_start x) a), (Z.ltb_antisym (a + n) (vm_end x)).
  destruct (vm_start x <=? a) eqn:E1; [|simpl; rewrite app_nil_r; by apply wp_ret].
  destruct (a + n <=? vm_end x) eqn:E2; simpl; [|rewrite app_nil_r; by apply wp_ret].
  apply Z.leb_le in E1. apply Z.leb_le in E2. apply wp_bind. eapply wp_read_vma; [done|]. apply wp_on_kern.
  eapply wp_mono; [apply c_zap_ok; simpl; unfold is_usize in *; lia|]. intros [] k' Hk. destruct Hs as [Hv Hl].
  split; [done|]. simpl. by rewrite Hk, Hl.
Qed.

Lemma mixed_ok v x m fl k s : holds v x m fl k s →
  wp (as_mixedmap_vma v) (λ o s', s' = s ∧ o = (if bool_decide (28 ∈ bits fl) then Some v else None)) s.
Proof.
  intros Hs. rewrite bits_decide, <- land_pow2 by lia. unfold as_mixedmap_vma. apply wp_bind. eapply wp_vma_flags; [done|].
  change flags.MIXEDMAP with (2 ^ 28). destruct (negb _); by apply wp_ret.
Qed.

Lemma insert_ok v a pg x m fl k s : holds v x m fl k s → 28 ∈ bits fl →
  wp (vm_insert_page v a pg) (λ o s', ∃ r, cret r ∧ o = to_result r ∧ holds v x m fl (k ++ [EvInsert v a pg r]) s') s.
Proof.
  intros Hs Hm. unfold vm_insert_page. apply wp_bind. eapply wp_read_vma; [done|]. apply wp_bind, wp_on_kern.
  eapply wp_mono; [apply c_insert_ok; by apply elem_of_bits in Hm as []|]. intros r k' [Hr Hk]. apply wp_ret.
  exists r. destruct Hs as [Hv Hl]. split_and!; [done|done|]. split; [done|]. simpl. by rewrite Hk, Hl.
Qed.

(** What the hook knows: it has a [VmaMixedMap] only if the flag is set. *)
Definition vma_inv v x m fl (b : bool) k (mixed : option Z) s : Prop :=
  holds v x m fl k s ∧ flags_wf fl ∧ mixed = (if b then Some v else None) ∧ (b = true → 28 ∈ bits fl).

Definition step_post v x m fl b k op (out : option Z * VOut) s' : Prop :=
  ∃ r fl' b' ev, cret r ∧ vspec_step v x (MkVAbs (bits fl) b) op r = (MkVAbs (bits fl') b', out.2, ev) ∧
    vma_inv v x m fl' b' (k ++ ev) out.1 s'.

Lemma cret_0 : cret 0.
Proof. unfold cret, MAX_ERRNO. lia. Qed.

(** A step that asks nothing of the kernel. *)
Lemma step_quiet v x m fl b k op mixed' o s' fl' b' :
  vspec_step v x (MkVAbs (bits fl) b) op 0 = (MkVAbs (bits fl') b', o, []) →
  vma_inv v x m fl' b' k mixed' s' → step_post v x m fl b k op (mixed', o) s'.
Proof.
  intros Hsp Hi. exists 0, fl', b', []. rewrite app_nil_r. split_and!; [apply cret_0|done|done].
Qed.

(** Setting and clearing keep the flags well formed. *)
Lemma wf_set fl w : flags_wf fl → flags_wf (updated fl (2 ^ sbit w) 0).
Proof.
  intros [Hr Hp]. split; [apply updated_range; [lia|destruct w; simpl; lia]|]. intros p.
  rewrite bits_set by apply sbit_range. rewrite !elem_of_union, !elem_of_singleton. intros [He|Hb].
  - destruct p, w; simpl in He; lia.
  - right. by apply Hp.
Qed.

Lemma wf_clear fl p : flags_wf fl → pbit p ∉ bits fl → flags_wf (updated fl 0 (2 ^ maybit p)).
Proof.
  intros [Hr Hp] Hn. split; [by apply updated_range; [lia|]|]. intros q.
  rewrite bits_clear by apply maybit_range. rewrite !elem_of_difference, !elem_of_singleton. intros [Hq _].
  split; [by apply Hp|]. intros He. assert (q = p) as -> by (destruct p, q; simpl in He; (done || lia)). done.
Qed.

Lemma vma_step_ok v op x m fl b k mixed s : vma_inv v x m fl b k mixed s → area_ok x → op_ok op →
  wp (vma_step v mixed op) (step_post v x m fl b k op) s.
Proof.
  intros (Hs & Hw & -> & Hb) Hx Hop. destruct op as [w|p|p|a n| |a pg]; cbn [vma_step].
  - apply wp_bind. eapply wp_mono; [by eapply set_ok|]. intros o s' [H' ->]. apply wp_ret.
    eapply (step_quiet _ _ _ _ _ _ _ _ _ _ (updated fl (2 ^ sbit w) 0) (b || bool_decide (sbit w = 28))).
    + cbn [vspec_step]. by rewrite bits_set by apply sbit_range.
    + split_and!; [done|by apply wf_set|destruct w, b; done|]. rewrite bits_set by apply sbit_range.
      intros [Hb'| ->%bool_decide_eq_true]%orb_true_iff; [apply elem_of_union_r; by apply Hb|].
      apply elem_of_union_l. by apply elem_of_singleton.
  - apply wp_bind. eapply wp_mono; [by eapply test_ok|]. intros o s' [-> ->]. apply wp_ret. by eapply step_quiet.
  - apply wp_bind. eapply wp_mono; [by eapply clear_ok|]. intros o s'. case_bool_decide as Hp.
    + intros [-> ->]. apply wp_ret. eapply step_quiet; [|by split_and!]. cbn [vspec_step]. by rewrite bool_decide_true.
    + intros [H' ->]. apply wp_ret. eapply (step_quiet _ _ _ _ _ _ _ _ _ _ (updated fl 0 (2 ^ maybit p)) b).
      * cbn [vspec_step]. rewrite bool_decide_false, bits_clear by (done || apply maybit_range). done.
      * split_and!; [done|by apply wf_clear|done|]. intros Hb'. rewrite bits_clear by apply maybit_range.
        apply elem_of_difference. split; [by apply Hb|]. rewrite elem_of_singleton. by destruct p.
  - destruct Hop. apply wp_bind. eapply wp_mono; [by eapply zap_ok|]. intros [] s' H'. apply wp_ret.
    exists 0, fl, b, (if (vm_start x <=? a) && (a + n <=? vm_end x) then [EvZap v a n] else []).
    split_and!; [apply cret_0|done|]. by split_and!.
  - apply wp_bind. eapply wp_mono; [by eapply mixed_ok|]. intros o s' [-> ->]. apply wp_ret.
    eapply (step_quiet _ _ _ _ _ _ _ _ _ _ fl (b || bool_decide (28 ∈ bits fl))).
    + cbn [vspec_step]. by case_bool_decide.
    + split_and!; [done|done|by case_bool_decide; destruct b|]. intros [?| ?%bool_decide_eq_true]%orb_true_iff; auto.
  - destruct b; [|apply wp_ret; by eapply step_quiet].
    apply wp_bind. eapply wp_mono; [eapply insert_ok; [done|by apply Hb]|]. intros o s' (r & Hr & -> & H'). apply wp_ret.
    exists r, fl, true, [EvInsert v a pg r]. by split_and!.
Qed.

Lemma vma_run_ok v ops : ∀ x m fl b k mixed s, vma_inv v x m fl b k mixed s → area_ok x → Forall op_ok ops →
  wp (vma_run v mixed ops) (λ os s', ∃ rs fl' b' ev mixed', length rs = length ops ∧ Forall cret rs ∧
    vspec_run v x (MkVAbs (bits fl) b) ops rs = (MkVAbs (bits fl') b', os, ev) ∧ vma_inv v x m fl' b' (k ++ ev) mixed' s') s.
Proof.
  induction ops as [|op ops IH]; intros x m fl b k mixed s Hi Hx Hop; cbn [vma_run].
  { apply wp_ret. exists [], fl, b, [], mixed. by rewrite app_nil_r. }
  inversion_clear Hop as [|? ? Ho Hop']. apply wp_bind. eapply wp_mono; [by apply vma_step_ok|].
  intros [mixed1 o] s1 (r & fl1 & b1 & ev & Hr & Hsp & Hi1). apply wp_bind. eapply wp_mono; [by eapply IH|].
  intros os s2 (rs & fl2 & b2 & ev2 & mixed2 & Hlen & Hrs & Hsp2 & Hi2). apply wp_ret.
  exists (r :: rs), fl2, b2, (ev ++ ev2), mixed2.
  split_and!; [simpl; lia|by constructor|by eapply vspec_run_cons|by rewrite app_assoc].
Qed.

End Proofs.

(** ** Theorems *)

(** Hooks that configure a new area refine a machine on sets of flags. Every program
    over [VmaNew] and the [VmaMixedMap]s it gets terminates without a panic and without an
    undefined access, and gives the outputs of the machine; the flags of the area are at the end
    the machine's set, and nothing else of it or of another area changed. The page tables are
    touched as the machine says: only in ranges inside of the area, also where the end of a range
    overflows, and pages are only inserted when [VM_MIXEDMAP] is set. *)
Theorem vma_setup_refines {K} `{VmaKernelSpec K} (v : Z) (x : vm_area) (ops : list VOp) (s : VState K)
    (Hv : vs_vmas s !! v = Some x) (Hw : flags_wf (vm_flags x)) (Hx : area_ok x) (Hops : Forall op_ok ops) :
  ∃ rs A ev outs fl s', vma_run v None ops s = Done (outs, s') ∧
    length rs = length ops ∧ Forall cret rs ∧
    vspec_run v x (MkVAbs (bits (vm_flags x)) false) ops rs = (A, outs, ev) ∧
    vs_vmas s' = <[v := with_flags x fl]> (vs_vmas s) ∧ a_flags A = bits fl ∧ flags_wf fl ∧
    vlog (vs_kern s') = vlog (vs_kern s) ++ ev.
Proof.
  destruct (vma_run_ok v ops x (vs_vmas s) (vm_flags x) false (vlog (vs_kern s)) None s)
    as (outs & s' & Hd & rs & fl & b' & ev & mixed' & Hlen & Hrs & Hsp & [Hv' Hl] & Hw' & _); [|done|done|].
  - split_and!; [|done|done|done]. split; [|done]. symmetry. apply insert_id. rewrite Hv. by destruct x.
  - by exists rs, (MkVAbs (bits fl) b'), ev, outs, fl, s'.
Qed.

(** The kernel's [mprotect] grants what may be granted, and the second never grows. *)
Definition mprotect_ok (f : Z → Z) : Prop :=
  ∀ fl, flags_wf fl → flags_wf (f fl) ∧ ∀ p, maybit p ∈ bits (f fl) → maybit p ∈ bits fl.

Lemma mprotects_ok fs : Forall mprotect_ok fs → mprotect_ok (λ fl, foldl (λ fl f, f fl) fl fs).
Proof.
  induction 1 as [|f fs Hf _ IH]; intros fl Hw; simpl; [done|].
  destruct (Hf fl Hw) as [Hw1 H1]. destruct (IH _ Hw1) as [Hw2 H2]. split; [done|]. intros p Hp. by apply H1, H2.
Qed.

Definition settable : gset Z := {[28; 14; 18; 17; 26]}.

Lemma vspec_step_flags v x A op r A' o ev : vspec_step v x A op r = (A', o, ev) →
  a_flags A' ⊆ settable ∪ a_flags A ∧ ∀ p, op = VClear p → o = ORes (Ok tt) → maybit p ∉ a_flags A'.
Proof.
  destruct A as [S m]. destruct op as [w|p|p|a n| |a pg]; cbn [vspec_step]; [|case_bool_decide|case_bool_decide|..];
    try (destruct m); intros [= <- <- _]; simpl; (split; [|try done]);
    try (intros i ?; apply elem_of_union_r; done).
  all: try (intros i [->%elem_of_singleton|?]%elem_of_union; [apply elem_of_union_l; by destruct w|by apply elem_of_union_r]).
  all: try (intros i [? _]%elem_of_difference; by apply elem_of_union_r).
  all: intros q [= <-] _; set_solver.
Qed.

Lemma maybit_not_settable p : maybit p ∉ settable.
Proof. apply (bool_decide_unpack (maybit p ∉ settable)). by destruct p. Qed.

Lemma vspec_run_flags v x ops : ∀ A rs A' os ev, vspec_run v x A ops rs = (A', os, ev) →
  a_flags A' ⊆ settable ∪ a_flags A ∧
  ∀ i p, ops !! i = Some (VClear p) → os !! i = Some (ORes (Ok tt)) → maybit p ∉ a_flags A'.
Proof.
  induction ops as [|op ops IH]; intros A [|r rs] A' os ev; try (intros [= <- <- _]; split; [apply union_subseteq_r|done]).
  unfold vspec_run; fold vspec_run. destruct (vspec_step v x A op r) as [[A1 o] ev1] eqn:Hs.
  destruct (vspec_run v x A1 ops rs) as [[A2 os2] ev2] eqn:Hr. intros [= <- <- _].
  destruct (vspec_step_flags _ _ _ _ _ _ _ _ Hs) as [Hg1 Hc1]. destruct (IH _ _ _ _ _ Hr) as [Hg2 Hc2]. split.
  - intros i [?|[?|?]%Hg1%elem_of_union]%Hg2%elem_of_union; set_solver.
  - intros [|i] p; simpl; [|apply Hc2]. intros [= ->] [= ->] Hin. apply Hg2, elem_of_union in Hin as [Hin|Hin].
    + by apply (maybit_not_settable p).
    + by apply (Hc1 p).
Qed.

(** C35: protection that a hook takes away never comes back. After every hook program, the
    area has gained no flags but the five that can be set; and if [try_clear_mayread],
    [try_clear_maywrite] or [try_clear_mayexec] succeeded at some point of it, then the area is
    not readable, writable or executable, and no later sequence of [mprotect] calls makes it so,
    whatever the program did after the call. *)
Theorem vma_protection_permanent {K} `{VmaKernelSpec K} (v : Z) (x : vm_area) (ops : list VOp) (s : VState K)
    (Hv : vs_vmas s !! v = Some x) (Hw : flags_wf (vm_flags x)) (Hx : area_ok x) (Hops : Forall op_ok ops) :
  ∃ outs fl s', vma_run v None ops s = Done (outs, s') ∧ vs_vmas s' !! v = Some (with_flags x fl) ∧
    bits fl ⊆ settable ∪ bits (vm_flags x) ∧
    ∀ i p fs, ops !! i = Some (VClear p) → outs !! i = Some (ORes (Ok tt)) → Forall mprotect_ok fs →
      Z.testbit (foldl (λ fl f, f fl) fl fs) (pbit p) = false.
Proof.
  destruct (vma_run_ok v ops x (vs_vmas s) (vm_flags x) false (vlog (vs_kern s)) None s)
    as (outs & s' & Hd & rs & fl & b' & ev & mixed' & _ & _ & Hsp & [Hv' _] & Hw' & _); [|done|done|].
  { split_and!; [|done|done|done]. split; [|done]. symmetry. apply insert_id. rewrite Hv. by destruct x. }
  apply vspec_run_flags in Hsp as [Hg Hc]. exists outs, fl, s'.
  split_and!; [done|by rewrite Hv', lookup_insert_eq|done|]. intros i p fs Hop Hout Hfs.
  destruct (mprotects_ok fs Hfs fl Hw') as [[_ Hf] Hm]. apply not_true_is_false. intros Hb.
  apply (Hc i p Hop Hout), Hm, Hf, elem_of_bits. by split; [apply pbit_range|].
Qed.

(** ** An instance: page tables that are only recorded *)

#[export] Instance recording_kernel : VmaKernel (list VEvent) := {|
  vlog k := k;
  c_zap_page_range_single v _ a n := modify (λ k, k ++ [EvZap v a n]);
  c_vm_insert_page v x a pg :=
    if (vm_start x <=? a) && (a <? vm_end x) then _ ← modify (λ k, k ++ [EvInsert v a pg 0]); mret 0
    else _ ← modify (λ k, k ++ [EvInsert v a pg (-14)]); mret (-14)
|}.

#[export] Instance recording_kernel_ok : VmaKernelSpec (list VEvent).
Proof.
  split; intros; simpl; [by apply wp_modify|]. destruct (_ && _); apply wp_bind, wp_modify, wp_ret; (split; [|done]);
    unfold cret, MAX_ERRNO; lia.
Qed.

(** [mprotect] as the kernel does it: the access bits are replaced, unless one of the new ones
    is not allowed. *)
Definition mprotect (prot fl : Z) : Z :=
  let prot := Z.land prot (Z.ones 3) in
  if Z.land prot (not64 (Z.shiftr fl 4)) =? 0 then Z.lor (Z.land fl (not64 (Z.ones 3))) prot else fl.

Lemma mprotect_allowed prot : mprotect_ok (mprotect prot).
Proof.
  intros fl [Hr Hp]. unfold mprotect. set (q := Z.land prot (Z.ones 3)).
  destruct (Z.eqb_spec (Z.land q (not64 (Z.shiftr fl 4))) 0) as [Hz|_]; [|by split].
  assert (∀ j, 3 ≤ j → Z.testbit q j = false) as Hq.
  { intros j Hj. unfold q. by rewrite Z.land_spec, Z.ones_spec_high, andb_false_r by lia. }
  set (fl' := Z.lor (Z.land fl (not64 (Z.ones 3))) q).
  assert (∀ j, 0 ≤ j < 3 → Z.testbit fl' j = Z.testbit q j) as Hlo.
  { intros j Hj. unfold fl'. by rewrite Z.lor_spec, Z.land_spec, not64_bits, Z.ones_spec_low, andb_false_r by lia. }
  assert (∀ j, 3 ≤ j < 64 → Z.testbit fl' j = Z.testbit fl j) as Hhi.
  { intros j Hj. unfold fl'. by rewrite Z.lor_spec, Z.land_spec, not64_bits, Z.ones_spec_high, andb_true_r, (Hq j), orb_false_r by lia. }
  assert (∀ p, maybit p ∈ bits fl' ↔ maybit p ∈ bits fl) as Hmay.
  { intros p. rewrite !elem_of_bits, Hhi by (destruct p; unfold maybit; simpl; lia). done. }
  split; [split|intros p; apply Hmay].
  - assert (0 ≤ Z.land fl (not64 (Z.ones 3))) as H1 by (apply Z.land_nonneg; left; lia).
    assert (0 ≤ q) as H2 by (apply Z.land_nonneg; by right). split; [by apply Z.lor_nonneg|].
    apply bits_bound; [lia|by apply Z.lor_nonneg|]. intros j Hj.
    unfold fl'. rewrite Z.lor_spec, Z.land_spec, (Hq j) by lia.
    by rewrite <- (Z.mod_small fl (2 ^ 64)), Z.mod_pow2_bits_high by lia.
  - intros p Hb. rewrite Hmay. apply elem_of_bits in Hb as [_ Hb]. rewrite Hlo in Hb by (destruct p; simpl; lia).
    apply (f_equal (λ z, Z.testbit z (pbit p))) in Hz. rewrite Z.land_spec, Hb, Z.bits_0 in Hz.
    rewrite not64_bits, Z.shiftr_spec in Hz by (destruct p; simpl; lia). apply negb_false_iff in Hz.
    apply elem_of_bits. split; [apply maybit_range|done].
Qed.

(** A readable private mapping that may become writable and executable. *)
Definition demo_area : vm_area := MkVma 64 0x10000 0x14000 0x75.
Definition demo_vstate : VState (list VEvent) := MkVState {[ 768 := demo_area ]} [].
Definition demo_hook : list VOp :=
  [VInsert 0x10000 1; VTest PRead; VClear PWrite; VClear PRead; VAsMixed; VSet SMixedmap; VSet SDontexpand; VInsert 0x10000 1;
   VInsert 0x14000 2; VZap 0x12000 0x3000; VZap 0x12000 0x2000; VZap 0x12000 USIZE_MAX; VSet SIo; VAsMixed].

Example demo_hook_runs :
  match vma_run 768 None demo_hook demo_vstate with
  | Done (outs, s) =>
      outs = [OSkip; OBool true; ORes (Ok tt); ORes (Err (EINVAL : Error)); OBool false; OUnit; OUnit; ORes (Ok tt);
              ORes (Err (EFAULT : Error)); OUnit; OUnit; OUnit; OUnit; OBool true] ∧
      vs_vmas s !! 768 = Some (with_flags demo_area 0x10044055) ∧
      vs_kern s = [EvInsert 768 0x10000 1 0; EvInsert 768 0x14000 2 (-14); EvZap 768 0x12000 0x2000]
  | _ => False
  end.
Proof. vm_compute. split_and!; reflexivity. Qed.

Lemma demo_area_wf : flags_wf (vm_flags demo_area).
Proof. split; [done|]. intros p Hp. apply elem_of_bits in Hp as [_ Hp]. apply elem_of_bits. by destruct p. Qed.

Lemma demo_hook_ok : Forall op_ok demo_hook.
Proof. repeat constructor; done. Qed.

Lemma vma_setup_refines_witness :
  ∃ outs s', vma_run 768 None demo_hook demo_vstate = Done (outs, s').
Proof.
  destruct (vma_setup_refines 768 demo_area demo_hook demo_vstate) as (rs & A & ev & outs & fl & s' & Hd & _);
    [reflexivity|exact demo_area_wf|by split|exact demo_hook_ok|]. by exists outs, s'.
Defined.

Lemma vma_protection_permanent_witness :
  ∃ outs fl s', vma_run 768 None demo_hook demo_vstate = Done (outs, s') ∧
    (outs !! 2%nat = Some (ORes (Ok tt)) → Z.testbit (mprotect 3 (mprotect 1 fl)) 1 = false).
Proof.
  destruct (vma_protection_permanent 768 demo_area demo_hook demo_vstate) as (outs & fl & s' & Hd & _ & _ & Hc);
    [reflexivity|exact demo_area_wf|by split|exact demo_hook_ok|]. exists outs, fl, s'. split; [exact Hd|]. intros Ho.
  apply (Hc 2%nat PWrite [mprotect 1; mprotect 3]); [reflexivity|exact Ho|]. by apply Forall_cons_2; [|apply Forall_cons_2; [|apply Forall_nil_2]]; try apply mprotect_allowed.
Defined.
