(* ===== verification/TagSet.v ===== *)
(** * Tag sets ([rust/src/block/mq/tag_set.rs], [OperationsVTable::build] of
      [rust/src/block/mq/operations.rs], the allocation in [src/shim_block.c])

    A [TagSet] owns two C allocations: the set and its table of callbacks. Disks (BlockMq) keep
    the set alive through an [Arc], of which this file uses what Arc proves: a count of the
    references, and the drop of the value with the last one.

    The kernel's part is [blk_mq_alloc_tag_set], which may fail, and [blk_mq_free_tag_set], which
    must not be called while a disk that was added still uses the set. *)

From S2P Require Import Prelude Errors Str BlockMq.

(** ** Data *)

Inductive callback :=
  CbQueueRq | CbCommitRqs | CbPoll | CbComplete | CbInitHctx | CbExitHctx | CbInitRequest | CbExitRequest.

(** The entries of [struct blk_mq_ops] that the shim fills. *)
Record blk_mq_ops := MkOps {
  op_queue_rq : option callback; op_commit_rqs : option callback; op_poll : option callback;
  op_complete : option callback; op_init_hctx : option callback; op_exit_hctx : option callback;
  op_init_request : option callback; op_exit_request : option callback
}.

Record blk_mq_tag_set := MkSet {
  ts_ops : Z; ts_nr_hw_queues : Z; ts_nr_maps : Z; ts_queue_depth : Z; ts_cmd_size : Z;
  ts_flags : Z; ts_numa_node : Z; ts_timeout : Z; ts_driver_data : Z
}.

Inductive CBlock := COps (o : blk_mq_ops) | CSet (t : blk_mq_tag_set).

Definition BLK_MQ_F_SHOULD_MERGE : Z := 1.
Definition NUMA_NO_NODE : Z := -1.

(** [size_of::<RequestDataWrapper>()], one [AtomicU64]. *)
Definition RequestDataWrapper_size : Z := 8.

(** The C heap; the sets that the kernel has initialised; the disks, and the sets of those that
    were added; the [Arc]s, with their count and the pointer in their [TagSet]. *)
Record BS := MkBS {
  bs_heap : gmap Z CBlock;
  bs_live : gset Z;
  bs_disks : gmap Z Disk;
  bs_queue : gmap Z Z;
  bs_arcs : gmap Z (Z * option Z)
}.

Definition set_heap (h : gmap Z CBlock) (s : BS) := MkBS h (bs_live s) (bs_disks s) (bs_queue s) (bs_arcs s).
Definition set_live (l : gset Z) (s : BS) := MkBS (bs_heap s) l (bs_disks s) (bs_queue s) (bs_arcs s).
Definition set_disks (d : gmap Z Disk) (s : BS) := MkBS (bs_heap s) (bs_live s) d (bs_queue s) (bs_arcs s).
Definition set_queue (q : gmap Z Z) (s : BS) := MkBS (bs_heap s) (bs_live s) (bs_disks s) q (bs_arcs s).
Definition set_arcs (a : gmap Z (Z * option Z)) (s : BS) := MkBS (bs_heap s) (bs_live s) (bs_disks s) (bs_queue s) a.

(** ** The kernel *)

(** [kzalloc] and the allocator of [Arc]s offer a block or none; [blk_mq_alloc_tag_set] returns
    zero or an error; the others belong to [gen_disk_build]. *)
Record BlkKernel := MkBlkKernel {
  kz : gmap Z CBlock → option Z;
  arc_alloc : gmap Z (Z * option Z) → option Z;
  init_set : gset Z → blk_mq_tag_set → Z;
  alloc_disk : gmap Z Disk → GenDiskBuilder → Z;
  name0 : list Z;
  device_add_disk : gmap Z Disk → Z → Z
}.

Section Code.
Context {EP : ErrPtrOps} (KN : BlkKernel).
(** [T::HAS_POLL] *)
Context (HAS_POLL : bool).
Local Abbreviation TM := (M BS).

Definition kzalloc (b : CBlock) : TM Z :=
  s ← get;
  match kz KN (bs_heap s) with
  | Some p => _ ← put (set_heap (<[p := b]> (bs_heap s)) s); mret p
  | None => mret null
  end.

Definition kfree (p : Z) : TM unit :=
  s ← get; if bs_heap s !! p is Some _ then put (set_heap (delete p (bs_heap s)) s) else ub.

Definition blk_mq_alloc_tag_set (p : Z) : TM Z :=
  s ← get;
  match bs_heap s !! p with
  | Some (CSet t) =>
      let ret := init_set KN (bs_live s) t in
      if ret =? 0 then _ ← put (set_live ({[p]} ∪ bs_live s) s); mret ret else mret ret
  | _ => ub
  end.

Definition blk_mq_free_tag_set (p : Z) : TM unit :=
  s ← get;
  if bool_decide (p ∈ bs_live s) && bool_decide (map_Forall (λ _ q, q ≠ p) (bs_queue s))
  then put (set_live (bs_live s ∖ {[p]}) s) else ub.

(** ** The C shim *)

Definition zero_ops : blk_mq_ops := MkOps None None None None None None None None.
Definition zero_set : blk_mq_tag_set := MkSet 0 0 0 0 0 0 0 0 0.

(** A store to a field of the set at [p]. *)
Definition on_set (p : Z) (f : blk_mq_tag_set → blk_mq_tag_set) : TM unit :=
  s ← get; if bs_heap s !! p is Some (CSet t) then put (set_heap (<[p := CSet (f t)]> (bs_heap s)) s) else ub.
Definition on_ops (p : Z) (f : blk_mq_ops → blk_mq_ops) : TM unit :=
  s ← get; if bs_heap s !! p is Some (COps o) then put (set_heap (<[p := COps (f o)]> (bs_heap s)) s) else ub.

Definition rs_blk_mq_ops_alloc (queue_rq commit_rqs poll complete init_hctx exit_hctx init_request exit_request : option callback) : TM Z :=
  ops ← kzalloc (COps zero_ops);
  if is_null ops then mret null
  else
    _ ← on_ops ops (λ _, MkOps queue_rq commit_rqs poll complete init_hctx exit_hctx init_request exit_request);
    mret ops.

Definition rs_blk_mq_tag_set_alloc (ops nr_hw_queues num_tags num_maps cmd_size flags numa_node timeout driver_data : Z) : TM Z :=
  if is_null ops then mret null
  else
    p ← kzalloc (CSet zero_set);
    if is_null p then _ ← kfree ops; mret null
    else
      _ ← on_set p (λ _, MkSet ops nr_hw_queues num_maps num_tags cmd_size flags numa_node timeout driver_data);
      ret ← blk_mq_alloc_tag_set p;
      if negb (ret =? 0) then _ ← kfree p; _ ← kfree ops; mret null
      else mret p.

Definition rs_blk_mq_tag_set_free (p : Z) : TM unit :=
  if is_null p then mret tt
  else
    s ← get;
    match bs_heap s !! p with
    | Some (CSet t) => _ ← blk_mq_free_tag_set p; _ ← kfree p; kfree (ts_ops t)
    | _ => ub
    end.

(** ** [TagSet] *)

Definition ops_build : TM Z :=
  rs_blk_mq_ops_alloc (Some CbQueueRq) (Some CbCommitRqs) (if HAS_POLL then Some CbPoll else None) (Some CbComplete)
    (Some CbInitHctx) (Some CbExitHctx) (Some CbInitRequest) (Some CbExitRequest).

(** [u32::try_from(usize)] *)
Definition try_into_u32 (n : Z) : result TryFromIntError Z := if n <=? U32_MAX then Ok n else Err MkTryFromIntError.

Definition alloc_tag_set (nr_hw_queues num_tags num_maps : Z) : TM (result Error Z) :=
  cmd_size ←? mret (result_into (try_into_u32 RequestDataWrapper_size));
  ops ← ops_build;
  if is_null ops then mret (Err (ENOMEM : Error))
  else
    p ← rs_blk_mq_tag_set_alloc ops nr_hw_queues num_tags num_maps cmd_size BLK_MQ_F_SHOULD_MERGE NUMA_NO_NODE 0 null;
    set ←? mret (from_err_ptr p);
    if is_null set then mret (Err (ENOMEM : Error)) else mret (Ok set).

(** The initialiser, on the slot in the [Arc] at [slot]. *)
Definition tag_set_new (nr_hw_queues num_tags num_maps : Z) (slot : Z) : TM (result Error unit) :=
  inner ←? alloc_tag_set nr_hw_queues num_tags num_maps;
  s ← get;
  match bs_arcs s !! slot with
  | Some (n, _) => _ ← put (set_arcs (<[slot := (n, Some inner)]> (bs_arcs s)) s); mret (Ok tt)
  | None => ub
  end.

Definition tag_set_drop (inner : Z) : TM unit := rs_blk_mq_tag_set_free inner.

(** ** The [Arc] of a set *)

Definition arc_pin_init (init : Z → TM (result Error unit)) : TM (result Error Z) :=
  s ← get;
  match arc_alloc KN (bs_arcs s) with
  | None => mret (Err (ENOMEM : Error))
  | Some a =>
      _ ← put (set_arcs (<[a := (1, None)]> (bs_arcs s)) s);
      r ← init a;
      match r with
      | Ok _ => mret (Ok a)
      | Err e => s ← get; _ ← put (set_arcs (delete a (bs_arcs s)) s); mret (Err e)
      end
  end.

Definition arc_ref (a : Z) : TM (Z * Z) :=
  s ← get; if bs_arcs s !! a is Some (n, Some inner) then mret (n, inner) else ub.
Definition arc_up (a : Z) : TM unit :=
  '(n, inner) ← arc_ref a; modify (λ s, set_arcs (<[a := (n + 1, Some inner)]> (bs_arcs s)) s).
Definition arc_down (a : Z) : TM unit :=
  '(n, inner) ← arc_ref a;
  if n =? 1 then _ ← tag_set_drop inner; modify (λ s, set_arcs (delete a (bs_arcs s)) s)
  else modify (λ s, set_arcs (<[a := (n - 1, Some inner)]> (bs_arcs s)) s).

(** ** Disks on a set *)

Definition on_disks {A} (m : M (gmap Z Disk) A) : TM A := λ s,
  match m (bs_disks s) with
  | Done (a, d) => Done (a, set_disks d s)
  | Panic => Panic
  | UB => UB
  end.

(** [build]: the disk is allocated on a set that must be initialised; the [Arc] moves into the
    [GenDisk], or is dropped. *)
Definition build_on (b : GenDiskBuilder) (name : Arguments) (tagset : Z) : TM (result Error Z) :=
  '(_, raw_tag_set) ← arc_ref tagset;
  s ← get;
  if bool_decide (raw_tag_set ∈ bs_live s) then
    r ← on_disks (gen_disk_build (alloc_disk KN) (name0 KN) (device_add_disk KN) b name);
    match r with
    | Ok gd => _ ← modify (λ s, set_queue (<[gd := raw_tag_set]> (bs_queue s)) s); mret (Ok gd)
    | Err e => _ ← arc_down tagset; mret (Err e)
    end
  else ub.

(** The fields of a [GenDisk] are dropped after [del_gendisk]. *)
Definition disk_drop (gd tagset : Z) : TM unit :=
  _ ← on_disks (gen_disk_drop gd);
  _ ← modify (λ s, set_queue (delete gd (bs_queue s)) s);
  arc_down tagset.

(** ** Programs *)

Inductive bhandle := HSet (a : Z) | HDisk (gd a : Z).
Definition harc (h : bhandle) : Z := match h with HSet a | HDisk _ a => a end.

Inductive BOp :=
| BNew (k : nat) (nr_hw_queues num_tags num_maps : Z)
| BClone (k k' : nat)
| BDrop (k : nat)
| BBuild (k : nat) (b : GenDiskBuilder) (name : Arguments).

Local Abbreviation bhandles := (gmap nat bhandle).

Definition blk_step (t : bhandles) (op : BOp) : TM (bhandles * option Error) :=
  match op with
  | BNew k nr tags maps =>
      if t !! k is Some _ then mret (t, None)
      else
        r ← arc_pin_init (tag_set_new nr tags maps);
        match r with Ok a => mret (<[k := HSet a]> t, None) | Err e => mret (t, Some e) end
  | BClone k k' =>
      match t !! k, t !! k' with
      | Some (HSet a), None => _ ← arc_up a; mret (<[k' := HSet a]> t, None)
      | _, _ => mret (t, None)
      end
  | BDrop k =>
      match t !! k with
      | Some (HSet a) => _ ← arc_down a; mret (delete k t, None)
      | Some (HDisk gd a) => _ ← disk_drop gd a; mret (delete k t, None)
      | None => mret (t, None)
      end
  | BBuild k b name =>
      if t !! k is Some (HSet a) then
        r ← build_on b name a;
        match r with Ok gd => mret (<[k := HDisk gd a]> t, None) | Err e => mret (delete k t, Some e) end
      else mret (t, None)
  end.

Fixpoint blk_run (t : bhandles) (ops : list BOp) : TM (bhandles * list (option Error)) :=
  match ops with
  | [] => mret (t, [])
  | op :: ops => '(t, o) ← blk_step t op; '(t, os) ← blk_run t ops; mret (t, o :: os)
  end.
End Code.

(** ** What holds of the C heap *)

(** The documented behaviour of the allocators, and of the allocation of disks. *)
Record kernel_ok {EP : ErrPtrOps} (KN : BlkKernel) : Prop := {
  kz_ok h p : kz KN h = Some p → h !! p = None ∧ 0 < p < 2 ^ 64 - MAX_ERRNO;
  arc_alloc_ok h a : arc_alloc KN h = Some a → h !! a = None;
  name0_ok : length (name0 KN) = DISK_NAME_LEN;
  alloc_disk_ok s b : IS_ERR (alloc_disk KN s b) = false → alloc_disk KN s b ≠ 0 → s !! alloc_disk KN s b = None
}.

(** The sets on the heap are the initialised ones; each has a table of its own, and there are
    no other blocks. *)
Record heap_ok (h : gmap Z CBlock) (live : gset Z) : Prop := {
  ho_live p : p ∈ live ↔ ∃ st, h !! p = Some (CSet st);
  ho_ops p st : h !! p = Some (CSet st) → ∃ op, h !! ts_ops st = Some (COps op);
  ho_owned o op : h !! o = Some (COps op) → ∃ p st, h !! p = Some (CSet st) ∧ ts_ops st = o;
  ho_inj p p' st st' : h !! p = Some (CSet st) → h !! p' = Some (CSet st') → ts_ops st = ts_ops st' → p = p'
}.

(** The state with another heap and set of initialised sets. *)
Definition with_heap (h : gmap Z CBlock) (live : gset Z) (s : BS) : BS :=
  MkBS h live (bs_disks s) (bs_queue s) (bs_arcs s).

Lemma with_heap_same s : with_heap (bs_heap s) (bs_live s) s = s.
Proof. by destruct s. Qed.

Lemma heap_ok_add h live p o st op : heap_ok h live → h !! p = None → h !! o = None → p ≠ o → ts_ops st = o →
  heap_ok (<[p := CSet st]> (<[o := COps op]> h)) ({[p]} ∪ live).
Proof.
  intros Hh Hp Ho Hne <-. split.
  - intros q. rewrite elem_of_union, elem_of_singleton, (ho_live _ _ Hh). setoid_rewrite lookup_insert_Some.
    setoid_rewrite lookup_insert_Some. split.
    + intros [->|[st' Hq]]; [by exists st; left|]. exists st'. right. split; [congruence|]. right. split; [congruence|done].
    + intros (st' & [[? _]|(? & [[_ ?]|[_ Hq]])]); [by left|done|right; by exists st'].
  - intros q st'. rewrite lookup_insert_Some. intros [[_ [= <-]]|[Hq [[_ ?]|[Hq2 Hl]]%lookup_insert_Some]]; [|done|].
    + exists op. by rewrite lookup_insert_ne, lookup_insert_eq.
    + destruct (ho_ops _ _ Hh _ _ Hl) as [op' Hop]. exists op'. rewrite !lookup_insert_ne; [done|congruence|congruence].
  - intros q op'. rewrite lookup_insert_Some. intros [[_ ?]|[Hq [[<- _]|[Hq2 Hl]]%lookup_insert_Some]]; [done| |].
    + exists p, st. by rewrite lookup_insert_eq.
    + destruct (ho_owned _ _ Hh _ _ Hl) as (p' & st' & Hp' & He). exists p', st'. rewrite !lookup_insert_ne; [done|congruence..].
  - assert (∀ q st', h !! q = Some (CSet st') → ts_ops st ≠ ts_ops st') as Hno.
    { intros q st' Hq He. destruct (ho_ops _ _ Hh _ _ Hq). congruence. }
    intros q q' st1 st2. rewrite !lookup_insert_Some.
    intros [[<- [= <-]]|[_ [[_ ?]|[_ H1]]]] [[<- [= <-]]|[_ [[_ ?]|[_ H2]]]] He; try done.
    + by destruct (Hno _ _ H2).
    + by destruct (Hno _ _ H1).
    + by apply (ho_inj _ _ Hh _ _ _ _ H1 H2).
Qed.

Lemma heap_ok_remove h live p st : heap_ok h live → h !! p = Some (CSet st) →
  heap_ok (delete (ts_ops st) (delete p h)) (live ∖ {[p]}).
Proof.
  intros Hh Hp. destruct (ho_ops _ _ Hh _ _ Hp) as [op Ho].
  assert (∀ q b, delete (ts_ops st) (delete p h) !! q = Some b ↔ q ≠ p ∧ q ≠ ts_ops st ∧ h !! q = Some b) as Hl.
  { intros q b. rewrite !lookup_delete_Some. naive_solver. }
  split.
  - intros q. rewrite elem_of_difference, elem_of_singleton, (ho_live _ _ Hh). setoid_rewrite Hl. split.
    + intros [[st' Hq] Hne]. exists st'. split_and!; [done|congruence|done].
    + intros (st' & ? & _ & ?). split; [by exists st'|done].
  - intros q st' (Hne & _ & Hq)%Hl. destruct (ho_ops _ _ Hh _ _ Hq) as [op' Ho']. exists op'. apply Hl.
    split_and!; [congruence| |done]. intros He. by apply Hne, (ho_inj _ _ Hh _ _ st' st).
  - intros o op' (Hne & Hne2 & Hq)%Hl. destruct (ho_owned _ _ Hh _ _ Hq) as (p' & st' & Hp' & He).
    exists p', st'. split; [|done]. apply Hl. split_and!; [congruence|congruence|done].
  - intros q q' st1 st2 (_ & _ & H1)%Hl (_ & _ & H2)%Hl. by apply (ho_inj _ _ Hh).
Qed.

Section Specs.
Context {EP : ErrPtrOps} {EPS : ErrPtrSpec} (KN : BlkKernel) (KNok : kernel_ok KN) (HAS_POLL : bool).

(** What the shim fills in. *)
Definition built_ops : blk_mq_ops :=
  MkOps (Some CbQueueRq) (Some CbCommitRqs) (if HAS_POLL then Some CbPoll else None) (Some CbComplete)
    (Some CbInitHctx) (Some CbExitHctx) (Some CbInitRequest) (Some CbExitRequest).
Definition built_set (o nr tags maps : Z) : blk_mq_tag_set := MkSet o nr maps tags 8 BLK_MQ_F_SHOULD_MERGE NUMA_NO_NODE 0 null.

Lemma kzalloc_cases b (Q : Z → BS → Prop) s :
  (kz KN (bs_heap s) = None → Q null s) →
  (∀ p, bs_heap s !! p = None → 0 < p < 2 ^ 64 - MAX_ERRNO → Q p (set_heap (<[p := b]> (bs_heap s)) s)) →
  wp (kzalloc KN b) Q s.
Proof.
  intros H0 H1. unfold kzalloc. apply wp_bind, wp_get. destruct (kz KN (bs_heap s)) as [p|] eqn:E.
  - destruct (kz_ok KN KNok _ _ E). apply wp_bind, wp_put, wp_ret. by apply H1.
  - apply wp_ret. by apply H0.
Qed.

Lemma is_null_pos p : 0 < p → is_null p = false.
Proof. intros Hp. unfold is_null, null. apply Z.eqb_neq. lia. Qed.

(** The table: allocated and filled, or nothing. *)
Lemma ops_build_ok s :
  wp (ops_build KN HAS_POLL) (λ o s', (o = null ∧ s' = s) ∨
    (0 < o < 2 ^ 64 - MAX_ERRNO ∧ bs_heap s !! o = None ∧ s' = set_heap (<[o := COps built_ops]> (bs_heap s)) s)) s.
Proof.
  unfold ops_build, rs_blk_mq_ops_alloc. apply wp_bind. apply kzalloc_cases.
  - intros _. apply wp_ret. by left.
  - intros o Ho Hr. rewrite is_null_pos by lia. apply wp_bind. unfold on_ops. apply wp_bind, wp_get. simpl.
    rewrite lookup_insert_eq. apply wp_put, wp_ret. right. split_and!; [lia|lia|done|].
    unfold set_heap. simpl. by rewrite insert_insert_eq.
Qed.

Lemma kfree_ok p b s : bs_heap s !! p = Some b → wp (kfree p) (λ _ s', s' = set_heap (delete p (bs_heap s)) s) s.
Proof. intros Hp. unfold kfree. apply wp_bind, wp_get. rewrite Hp. by apply wp_put. Qed.

(** The set: allocated, filled and initialised, or the table is given back too. *)
Lemma tag_set_alloc_ok o op nr tags maps s : 0 < o → bs_heap s !! o = Some (COps op) →
  wp (rs_blk_mq_tag_set_alloc KN o nr tags maps 8 BLK_MQ_F_SHOULD_MERGE NUMA_NO_NODE 0 null) (λ p s',
    (p = null ∧ s' = set_heap (delete o (bs_heap s)) s) ∨
    (0 < p < 2 ^ 64 - MAX_ERRNO ∧ bs_heap s !! p = None ∧
     s' = with_heap (<[p := CSet (built_set o nr tags maps)]> (bs_heap s)) ({[p]} ∪ bs_live s) s)) s.
Proof.
  intros Ho Hop. unfold rs_blk_mq_tag_set_alloc. rewrite is_null_pos by done. apply wp_bind, kzalloc_cases.
  { intros _. simpl. apply wp_bind. eapply wp_mono; [by eapply kfree_ok|]. intros [] s' ->. apply wp_ret. by left. }
  intros p Hp Hr. rewrite is_null_pos by lia. apply wp_bind. unfold on_set. apply wp_bind, wp_get. simpl.
  rewrite lookup_insert_eq. apply wp_put. unfold set_heap. simpl. rewrite insert_insert_eq. fold (built_set o nr tags maps).
  apply wp_bind. unfold blk_mq_alloc_tag_set. apply wp_bind, wp_get. simpl. rewrite lookup_insert_eq.
  destruct (Z.eqb_spec (init_set KN (bs_live s) (built_set o nr tags maps)) 0) as [E|E].
  - apply wp_bind, wp_put, wp_ret. rewrite E. apply wp_ret. right. split_and!; [lia|lia|done|done].
  - apply wp_ret. rewrite (proj2 (Z.eqb_neq _ _) E). assert (p ≠ o) by congruence. apply wp_bind.
    eapply wp_mono; [eapply kfree_ok; simpl; apply lookup_insert_eq|]. intros [] s' ->. apply wp_bind.
    eapply wp_mono; [eapply kfree_ok; simpl; by rewrite lookup_delete_ne, lookup_insert_ne by congruence|].
    intros [] s' ->. apply wp_ret. left. split; [done|]. unfold set_heap. simpl. by rewrite delete_insert_id.
Qed.

Lemma not_err_ptr p : p < 2 ^ 64 - MAX_ERRNO → from_err_ptr p = Ok p.
Proof.
  intros Hp. unfold from_err_ptr. destruct (IS_ERR p) eqn:E; [|done]. apply IS_ERR_spec in E. lia.
Qed.

Definition alloc_post (nr tags maps : Z) (s : BS) (r : result Error Z) (s' : BS) : Prop :=
  match r with
  | Ok p => ∃ o, 0 < p ∧ bs_heap s !! p = None ∧ bs_heap s !! o = None ∧ p ≠ o ∧
      s' = with_heap (<[p := CSet (built_set o nr tags maps)]> (<[o := COps built_ops]> (bs_heap s))) ({[p]} ∪ bs_live s) s
  | Err e => e = ENOMEM ∧ s' = s
  end.

Lemma alloc_tag_set_ok nr tags maps s : wp (alloc_tag_set KN HAS_POLL nr tags maps) (alloc_post nr tags maps s) s.
Proof.
  unfold alloc_tag_set. apply wp_try, wp_ret. cbn [result_into result_map_err try_into_u32]. simpl.
  apply wp_bind. eapply wp_mono; [apply ops_build_ok|]. intros o s1 [[-> ->]|(Ho & Hf & ->)]; [by apply wp_ret|].
  rewrite is_null_pos by lia. apply wp_bind.
  eapply wp_mono; [apply (tag_set_alloc_ok o built_ops); [lia|apply lookup_insert_eq]|].
  intros p s2 [[-> ->]|(Hp & Hfp & ->)]; apply wp_try, wp_ret; rewrite not_err_ptr by (unfold null, MAX_ERRNO in *; lia).
  - simpl. apply wp_ret. split; [done|]. unfold set_heap. simpl. rewrite delete_insert_id by done. by destruct s.
  - rewrite is_null_pos by lia. apply wp_ret. simpl in Hfp. apply lookup_insert_None in Hfp as [Hfp Hne].
    exists o. by split_and!; [lia| | | |].
Qed.

Lemma tag_set_drop_ok p st s : heap_ok (bs_heap s) (bs_live s) → bs_heap s !! p = Some (CSet st) → 0 < p →
  (∀ gd, bs_queue s !! gd ≠ Some p) →
  wp (tag_set_drop p) (λ _ s', s' = with_heap (delete (ts_ops st) (delete p (bs_heap s))) (bs_live s ∖ {[p]}) s) s.
Proof.
  intros Hh Hp Hpos Hq. unfold tag_set_drop, rs_blk_mq_tag_set_free. rewrite is_null_pos by done.
  apply wp_bind, wp_get. rewrite Hp. destruct (ho_ops _ _ Hh _ _ Hp) as [op Ho].
  apply wp_bind. unfold blk_mq_free_tag_set. apply wp_bind, wp_get.
  rewrite !bool_decide_true; [|intros gd q Hgd ->; by apply (Hq gd)|apply (ho_live _ _ Hh); by exists st].
  simpl. apply wp_put, wp_bind. eapply wp_mono; [by eapply kfree_ok|]. intros [] s1 ->.
  eapply wp_mono; [eapply kfree_ok; simpl; rewrite lookup_delete_ne; [done|congruence]|]. by intros [] s2 ->.
Qed.
End Specs.

(** ** The invariant of programs *)

Local Abbreviation bhandles := (gmap nat bhandle).

(** Every [Arc] has a set and is counted right; every set has one [Arc]. Disks that were added
    are those of the program, and their set is alive. *)
Record blk_inv (t : bhandles) (s : BS) : Prop := {
  bi_heap : heap_ok (bs_heap s) (bs_live s);
  bi_pos p : p ∈ bs_live s → 0 < p;
  bi_arc a n i : bs_arcs s !! a = Some (n, i) → n = tally harc t a ∧ 0 < n ∧ ∃ p, i = Some p ∧ p ∈ bs_live s;
  bi_owner p : p ∈ bs_live s → ∃ a n, bs_arcs s !! a = Some (n, Some p);
  bi_inj a a' n n' p : bs_arcs s !! a = Some (n, Some p) → bs_arcs s !! a' = Some (n', Some p) → a = a';
  bi_handle k h : t !! k = Some h → ∃ n p, bs_arcs s !! harc h = Some (n, Some p);
  bi_disk k gd a : t !! k = Some (HDisk gd a) → ∃ n p d, bs_arcs s !! a = Some (n, Some p) ∧
    bs_queue s !! gd = Some p ∧ bs_disks s !! gd = Some d ∧ d_added d = true;
  bi_queue gd p : bs_queue s !! gd = Some p → ∃ k a n, t !! k = Some (HDisk gd a) ∧ bs_arcs s !! a = Some (n, Some p);
  bi_gd k k' gd a a' : t !! k = Some (HDisk gd a) → t !! k' = Some (HDisk gd a') → k = k'
}.

Definition bop_ok (op : BOp) : Prop := match op with BBuild _ _ name => Forall small (chunks name) | _ => True end.

Section Programs.
Context {EP : ErrPtrOps} {EPS : ErrPtrSpec} (KN : BlkKernel) (KNok : kernel_ok KN) (HAS_POLL : bool).

Lemma wp_arc_ref a n p (Q : Z * Z → BS → Prop) s : bs_arcs s !! a = Some (n, Some p) → Q (n, p) s → wp (arc_ref a) Q s.
Proof. intros Ha HQ. unfold arc_ref. apply wp_bind, wp_get. rewrite Ha. by apply wp_ret. Qed.

(** *** A new set *)

Lemma blk_inv_new t s k a p o st op : blk_inv t s → t !! k = None → bs_arcs s !! a = None →
  0 < p → bs_heap s !! p = None → bs_heap s !! o = None → p ≠ o → ts_ops st = o →
  blk_inv (<[k := HSet a]> t) (MkBS (<[p := CSet st]> (<[o := COps op]> (bs_heap s))) ({[p]} ∪ bs_live s)
    (bs_disks s) (bs_queue s) (<[a := (1, Some p)]> (bs_arcs s))).
Proof.
  intros Hi Hk Ha Hpos Hp Ho Hne Hst.
  assert (∀ j h, t !! j = Some h → harc h ≠ a) as Hna.
  { intros j h Hj <-. destruct (bi_handle _ _ Hi _ _ Hj) as (n & q & Hq). congruence. }
  assert (tally harc t a = 0) as Hz.
  { apply tally_zero. exact Hna. }
  assert (p ∉ bs_live s) as Hpl by (rewrite (ho_live _ _ (bi_heap _ _ Hi)); intros [? ?]; congruence).
  split; simpl.
  - by apply heap_ok_add; [apply Hi|..].
  - intros q [->%elem_of_singleton|Hq]%elem_of_union; [done|by apply (bi_pos _ _ Hi)].
  - intros b n i. rewrite lookup_insert_Some, tally_insert by done. intros [[<- [= <- <-]]|[Hb Hl]]; simpl.
    + rewrite Hz, one_same. split_and!; [done|done|]. exists p. set_solver.
    + destruct (bi_arc _ _ Hi _ _ _ Hl) as (-> & ? & q & -> & ?). rewrite one_other by done.
      split_and!; [lia|lia|]. exists q. set_solver.
  - intros q [->%elem_of_singleton|Hq]%elem_of_union; [exists a, 1; by rewrite lookup_insert_eq|].
    destruct (bi_owner _ _ Hi _ Hq) as (b & n & Hb). exists b, n. rewrite lookup_insert_ne; [done|congruence].
  - intros b b' n n' q. rewrite !lookup_insert_Some.
    assert (∀ c m, bs_arcs s !! c = Some (m, Some p) → False) as Hc.
    { intros c m Hm. destruct (bi_arc _ _ Hi _ _ _ Hm) as (_ & _ & q' & [= <-] & ?). done. }
    intros [[<- [= <- <-]]|[_ H1]] [[<- [= <-]]|[_ H2]]; [done|by destruct (Hc _ _ H2)|subst; by destruct (Hc _ _ H1)|].
    by apply (bi_inj _ _ Hi _ _ _ _ _ H1 H2).
  - intros j h. rewrite lookup_insert_Some. intros [[<- <-]|[_ Hj]]; [exists 1, p; by rewrite lookup_insert_eq|].
    destruct (bi_handle _ _ Hi _ _ Hj) as (n & q & Hq). exists n, q. rewrite lookup_insert_ne; [done|congruence].
  - intros j gd b. rewrite lookup_insert_Some. intros [[_ ?]|[_ Hj]]; [done|].
    destruct (bi_disk _ _ Hi _ _ _ Hj) as (n & q & d & Hb & ?). exists n, q, d. rewrite lookup_insert_ne; [done|congruence].
  - intros gd q Hq. destruct (bi_queue _ _ Hi _ _ Hq) as (j & b & n & Hj & Hb). exists j, b, n.
    rewrite !lookup_insert_ne; [done|congruence|congruence].
  - intros j j' gd b b'. rewrite !lookup_insert_Some. intros [[_ ?]|[_ H1]] [[_ ?]|[_ H2]]; try done. by apply (bi_gd _ _ Hi _ _ _ _ _ H1 H2).
Qed.

Lemma blk_step_new t s k nr tags maps : blk_inv t s →
  wp (blk_step KN HAS_POLL t (BNew k nr tags maps)) (λ out s', blk_inv out.1 s') s.
Proof.
  intros Hi. simpl. destruct (t !! k) eqn:Hk; [by apply wp_ret|]. apply wp_bind. unfold arc_pin_init.
  apply wp_bind, wp_get. destruct (arc_alloc KN (bs_arcs s)) as [a|] eqn:Ha; [|by repeat apply wp_ret].
  apply (arc_alloc_ok KN KNok) in Ha. apply wp_bind, wp_put, wp_bind. unfold tag_set_new. apply wp_try.
  eapply wp_mono; [by apply alloc_tag_set_ok|]. intros [p|e] s'.
  - intros (o & Hp & Hhp & Hho & Hne & ->). apply wp_bind, wp_get. simpl. rewrite lookup_insert_eq.
    apply wp_bind, wp_put. repeat apply wp_ret. unfold set_arcs. simpl. rewrite insert_insert_eq.
    by eapply blk_inv_new; [..|done|done|].
  - intros [-> ->]. apply wp_bind, wp_get. apply wp_bind, wp_put. repeat apply wp_ret. simpl.
    unfold set_arcs. simpl. rewrite delete_insert_id by done. by destruct s.
Qed.

(** *** Counting *)

(** Another count of an [Arc], for other handles on it that are not disks. *)
Lemma blk_inv_count t t' s a n p d : blk_inv t s → bs_arcs s !! a = Some (n, Some p) → 0 < n + d →
  (∀ b, tally harc t' b = tally harc t b + (if decide (b = a) then d else 0)) →
  (∀ k h, t' !! k = Some h → t !! k = Some h ∨ h = HSet a) → (∀ k gd b, t !! k = Some (HDisk gd b) → t' !! k = Some (HDisk gd b)) →
  blk_inv t' (set_arcs (<[a := (n + d, Some p)]> (bs_arcs s)) s).
Proof.
  intros Hi Ha Hn Ht Hh Hd.
  assert (∀ b, (∃ m q, bs_arcs s !! b = Some (m, Some q)) → ∃ m q, <[a:=(n + d, Some p)]> (bs_arcs s) !! b = Some (m, Some q)) as Hex.
  { intros b Hb. destruct (decide (b = a)) as [->|]; [exists (n + d), p; by rewrite lookup_insert_eq|by rewrite lookup_insert_ne]. }
  assert (∀ b m q, <[a:=(n + d, Some p)]> (bs_arcs s) !! b = Some (m, Some q) → ∃ m', bs_arcs s !! b = Some (m', Some q)) as Hback.
  { intros b m q. rewrite lookup_insert_Some. intros [[<- [= <- <-]]|[_ Hb]]; eauto. }
  assert (∀ b m q, bs_arcs s !! b = Some (m, Some q) → ∃ m', <[a:=(n + d, Some p)]> (bs_arcs s) !! b = Some (m', Some q)) as Hfwd.
  { intros b m q Hb. destruct (decide (b = a)) as [->|]; [|by exists m; rewrite lookup_insert_ne].
    exists (n + d). rewrite lookup_insert_eq. congruence. }
  split; simpl; [apply Hi|apply Hi| | | | | | |].
  - intros b m i. rewrite Ht, lookup_insert_Some. intros [[<- [= <- <-]]|[Hb Hl]].
    + destruct (bi_arc _ _ Hi _ _ _ Ha) as (-> & _ & q & [= <-] & ?). rewrite decide_True by done. eauto.
    + destruct (bi_arc _ _ Hi _ _ _ Hl) as (-> & ? & ?). rewrite decide_False by congruence. split_and!; [lia|lia|done].
  - intros q (b & m & Hb)%(bi_owner _ _ Hi). exists b. by eapply Hfwd.
  - intros b b' m m' q [? H1]%Hback [? H2]%Hback. by apply (bi_inj _ _ Hi _ _ _ _ _ H1 H2).
  - intros k h [Hk| ->]%Hh; apply Hex; [by eapply bi_handle|eauto].
  - intros k gd b [Hk|?]%Hh; [|done]. destruct (bi_disk _ _ Hi _ _ _ Hk) as (m & q & dd & Hb & ?).
    destruct (Hfwd _ _ _ Hb) as [m' Hb']. by exists m', q, dd.
  - intros gd q (k & b & m & Hk & Hb)%(bi_queue _ _ Hi). destruct (Hfwd _ _ _ Hb) as [m' Hb'].
    exists k, b, m'. split; [by apply Hd|done].
  - intros k k' gd b b' [H1|?]%Hh [H2|?]%Hh; [|done..]. by apply (bi_gd _ _ Hi _ _ _ _ _ H1 H2).
Qed.

Lemma blk_step_clone t s k k' : blk_inv t s → wp (blk_step KN HAS_POLL t (BClone k k')) (λ out s', blk_inv out.1 s') s.
Proof.
  intros Hi. simpl. destruct (t !! k) as [[a|]|] eqn:Hk; [|by apply wp_ret..].
  destruct (t !! k') eqn:Hk'; [by apply wp_ret|]. destruct (bi_handle _ _ Hi _ _ Hk) as (n & p & Ha). simpl in Ha.
  apply wp_bind. unfold arc_up. apply wp_bind. eapply wp_arc_ref; [done|]. apply wp_modify, wp_ret. cbn [fst].
  destruct (bi_arc _ _ Hi _ _ _ Ha) as (_ & Hn & _). eapply blk_inv_count; [done|done|lia| | |].
  - intros b. rewrite tally_insert by done. done.
  - intros j h [[_ <-]|[_ ?]]%lookup_insert_Some; auto.
  - intros j gd b Hj. rewrite lookup_insert_ne; [done|congruence].
Qed.

(** The last reference: the set goes with it. *)
Lemma blk_inv_last t s k a p st : blk_inv t s → t !! k = Some (HSet a) → bs_arcs s !! a = Some (1, Some p) →
  bs_heap s !! p = Some (CSet st) →
  blk_inv (delete k t) (MkBS (delete (ts_ops st) (delete p (bs_heap s))) (bs_live s ∖ {[p]}) (bs_disks s) (bs_queue s)
    (delete a (bs_arcs s))).
Proof.
  intros Hi Hk Ha Hst.
  assert (∀ j h, delete k t !! j = Some h → t !! j = Some h ∧ harc h ≠ a) as Hj.
  { intros j h Hj. pose proof (tally_pos harc _ _ _ Hj) as Hp. apply lookup_delete_Some in Hj as [_ Hj]. split; [done|].
    intros He. rewrite He, (tally_delete harc t k (HSet a)), one_same in Hp by done.
    destruct (bi_arc _ _ Hi _ _ _ Ha) as (H1 & _). lia. }
  assert (∀ b m q, bs_arcs s !! b = Some (m, Some q) → b ≠ a → q ≠ p) as Hqp.
  { intros b m q Hb Hne ->. by apply Hne, (bi_inj _ _ Hi _ _ _ _ _ Hb Ha). }
  split; simpl.
  - apply heap_ok_remove; [apply Hi|done].
  - intros q [Hq _]%elem_of_difference. by apply (bi_pos _ _ Hi).
  - intros b n i [Hb Hl]%lookup_delete_Some. destruct (bi_arc _ _ Hi _ _ _ Hl) as (-> & ? & q & -> & Hq).
    rewrite (tally_delete harc t k (HSet a)) by done. rewrite one_other by (simpl; congruence).
    split_and!; [lia|lia|]. exists q. split; [done|]. apply elem_of_difference. split; [done|].
    rewrite elem_of_singleton. by eapply Hqp.
  - intros q [Hq Hne]%elem_of_difference. rewrite elem_of_singleton in Hne. destruct (bi_owner _ _ Hi _ Hq) as (b & m & Hb).
    exists b, m. rewrite lookup_delete_ne; [done|]. intros <-. rewrite Ha in Hb. congruence.
  - intros b b' m m' q [_ H1]%lookup_delete_Some [_ H2]%lookup_delete_Some. by apply (bi_inj _ _ Hi _ _ _ _ _ H1 H2).
  - intros j h [Hl Hne]%Hj. destruct (bi_handle _ _ Hi _ _ Hl) as (m & q & Hb). exists m, q. by rewrite lookup_delete_ne.
  - intros j gd b [Hl Hne]%Hj. destruct (bi_disk _ _ Hi _ _ _ Hl) as (m & q & d & Hb & ?). exists m, q, d.
    by rewrite lookup_delete_ne.
  - intros gd q (j & b & m & Hl & Hb)%(bi_queue _ _ Hi). exists j, b, m.
    assert (delete k t !! j = Some (HDisk gd b)) as Hl' by (rewrite lookup_delete_ne; congruence).
    destruct (Hj _ _ Hl') as [_ Hne]. split; [done|by rewrite lookup_delete_ne].
  - intros j j' gd b b' [H1 _]%Hj [H2 _]%Hj. by apply (bi_gd _ _ Hi _ _ _ _ _ H1 H2).
Qed.

Lemma arc_down_ok t s k a : blk_inv t s → t !! k = Some (HSet a) →
  wp (arc_down a) (λ _ s', blk_inv (delete k t) s') s.
Proof.
  intros Hi Hk. destruct (bi_handle _ _ Hi _ _ Hk) as (n & p & Ha). simpl in Ha.
  destruct (bi_arc _ _ Hi _ _ _ Ha) as (Hn & Hpos & q & [= <-] & Hp).
  destruct (proj1 (ho_live _ _ (bi_heap _ _ Hi) p) Hp) as [st Hst].
  unfold arc_down. apply wp_bind. eapply wp_arc_ref; [done|]. destruct (Z.eqb_spec n 1) as [->|Hn1].
  - apply wp_bind. eapply wp_mono; [eapply tag_set_drop_ok; [apply Hi|done|by apply (bi_pos _ _ Hi)|]|].
    + intros gd (j & b & m & Hj & Hb)%(bi_queue _ _ Hi). pose proof (bi_inj _ _ Hi _ _ _ _ _ Hb Ha) as ->.
      assert (delete k t !! j = Some (HDisk gd a)) as Hj' by (rewrite lookup_delete_ne; congruence).
      pose proof (tally_pos harc _ _ _ Hj') as Ht. simpl in Ht.
      rewrite (tally_delete harc t k (HSet a)), one_same in Ht by done. lia.
    + intros [] s' ->. apply wp_modify. exact (blk_inv_last t s k a p st Hi Hk Ha Hst).
  - apply wp_modify. replace (n - 1) with (n + -1) by lia. eapply blk_inv_count; [done|done|lia| | |].
    + intros b. rewrite (tally_delete harc t k (HSet a)) by done. unfold one. simpl. case_decide; lia.
    + intros j h [_ ?]%lookup_delete_Some. by left.
    + intros j gd b Hj. rewrite lookup_delete_ne; [done|congruence].
Qed.

(** *** Disks *)

(** The part of the invariant that is about disks. *)
Record disks_ok (t : bhandles) (arcs : gmap Z (Z * option Z)) (disks : gmap Z Disk) (queue : gmap Z Z) : Prop := {
  do_disk k gd a : t !! k = Some (HDisk gd a) → ∃ n p d, arcs !! a = Some (n, Some p) ∧
    queue !! gd = Some p ∧ disks !! gd = Some d ∧ d_added d = true;
  do_queue gd p : queue !! gd = Some p → ∃ k a n, t !! k = Some (HDisk gd a) ∧ arcs !! a = Some (n, Some p);
  do_gd k k' gd a a' : t !! k = Some (HDisk gd a) → t !! k' = Some (HDisk gd a') → k = k'
}.

Lemma blk_inv_disks t s : blk_inv t s → disks_ok t (bs_arcs s) (bs_disks s) (bs_queue s).
Proof. intros Hi. split; [apply (bi_disk _ _ Hi)|apply (bi_queue _ _ Hi)|apply (bi_gd _ _ Hi)]. Qed.

(** A handle that changes between a set and a disk on it. *)
Lemma blk_inv_switch t s k h h' disks queue : blk_inv t s → t !! k = Some h → harc h' = harc h →
  disks_ok (<[k := h']> t) (bs_arcs s) disks queue →
  blk_inv (<[k := h']> t) (MkBS (bs_heap s) (bs_live s) disks queue (bs_arcs s)).
Proof.
  intros Hi Hk He Hd. split; simpl; [apply Hi|apply (bi_pos _ _ Hi)| |apply (bi_owner _ _ Hi)|apply (bi_inj _ _ Hi)| |apply Hd..].
  - intros b n i Hb. rewrite (tally_retag harc t k h h') by done. by apply (bi_arc _ _ Hi).
  - intros j h0 [[<- <-]|[_ Hj]]%lookup_insert_Some; [rewrite He|]; by eapply (bi_handle _ _ Hi).
Qed.

Lemma wp_on_disks {A} (m : M (gmap Z Disk) A) (Q : A → BS → Prop) s :
  wp m (λ a d, Q a (set_disks d s)) (bs_disks s) → wp (on_disks m) Q s.
Proof. intros (a & d & Hm & HQ). exists a, (set_disks d s). unfold on_disks. by rewrite Hm. Qed.

Lemma blk_step_drop t s k : blk_inv t s → wp (blk_step KN HAS_POLL t (BDrop k)) (λ out s', blk_inv out.1 s') s.
Proof.
  intros Hi. simpl. destruct (t !! k) as [[a|gd a]|] eqn:Hk; [| |by apply wp_ret].
  { apply wp_bind. eapply wp_mono; [by eapply arc_down_ok|]. intros [] s' Hi'. by apply wp_ret. }
  destruct (bi_disk _ _ Hi _ _ _ Hk) as (n & p & d & Ha & Hq & Hd & _).
  apply wp_bind. unfold disk_drop. apply wp_bind, wp_on_disks. unfold gen_disk_drop. eapply wp_on_disk; [done|].
  apply wp_bind, wp_modify. eapply wp_mono.
  - eapply (arc_down_ok (<[k := HSet a]> t) _ k); [|apply lookup_insert_eq].
    eapply (blk_inv_switch t s k (HDisk gd a)); [done|done|done|]. split.
    + intros j gd' b [[_ ?]|[Hne Hj]]%lookup_insert_Some; [done|].
      destruct (bi_disk _ _ Hi _ _ _ Hj) as (m & q & d' & Hb & Hq' & Hd' & Had). exists m, q, d'.
      assert (gd ≠ gd') by (intros ->; by apply Hne, (bi_gd _ _ Hi _ _ _ _ _ Hk Hj)).
      simpl. by rewrite lookup_delete_ne, lookup_insert_ne.
    + intros gd' q [Hne Hq']%lookup_delete_Some. destruct (bi_queue _ _ Hi _ _ Hq') as (j & b & m & Hj & Hb).
      exists j, b, m. rewrite lookup_insert_ne; [done|congruence].
    + intros j j' gd' b b' [[_ ?]|[_ H1]]%lookup_insert_Some [[_ ?]|[_ H2]]%lookup_insert_Some; try done.
      by apply (bi_gd _ _ Hi _ _ _ _ _ H1 H2).
  - intros [] s' Hi'. apply wp_ret. simpl. by rewrite delete_insert_eq in Hi'.
Qed.

Lemma blk_step_build t s k b name : blk_inv t s → Forall small (chunks name) →
  wp (blk_step KN HAS_POLL t (BBuild k b name)) (λ out s', blk_inv out.1 s') s.
Proof.
  intros Hi Hch. simpl. destruct (t !! k) as [[a|]|] eqn:Hk; [|by apply wp_ret..].
  destruct (bi_handle _ _ Hi _ _ Hk) as (n & p & Ha). simpl in Ha. destruct (bi_arc _ _ Hi _ _ _ Ha) as (_ & _ & ? & [= <-] & Hp).
  apply wp_bind. unfold build_on. apply wp_bind. eapply wp_arc_ref; [done|]. apply wp_bind, wp_get.
  rewrite bool_decide_true by done. apply wp_bind, wp_on_disks.
  eapply wp_mono; [apply gen_disk_build_ok; [apply KNok|apply (alloc_disk_ok KN KNok)|done]|].
  pose proof (blk_inv_disks _ _ Hi) as Hdo. intros [gd|e] disks' Hpost.
  - destruct Hpost as (Hfr & nm & -> & _). apply wp_bind, wp_modify. repeat apply wp_ret. simpl.
    eapply (blk_inv_switch t s k (HSet a)); [done|done|done|].
    assert (∀ j c, t !! j ≠ Some (HDisk gd c)) as Hno.
    { intros j c Hj. destruct (do_disk _ _ _ _ Hdo _ _ _ Hj) as (? & ? & ? & ? & ? & ? & ?). congruence. }
    split.
    + intros j gd' c [[<- [= <- <-]]|[_ Hj]]%lookup_insert_Some.
      * eexists n, p, _. split_and!; [done|apply lookup_insert_eq|apply lookup_insert_eq|done].
      * destruct (do_disk _ _ _ _ Hdo _ _ _ Hj) as (m & q & d & ? & ? & ? & ?). exists m, q, d.
        assert (gd ≠ gd') by (intros ->; by apply (Hno j c)). simpl. split_and!; [done|by rewrite lookup_insert_ne|by rewrite lookup_insert_ne|done].
    + intros gd' q [[<- <-]|[Hne Hq]]%lookup_insert_Some; [exists k, a, n; by rewrite lookup_insert_eq|].
      destruct (do_queue _ _ _ _ Hdo _ _ Hq) as (j & c & m & Hj & Hc). exists j, c, m.
      rewrite lookup_insert_ne; [done|congruence].
    + intros j j' gd' c c' [[<- [= <- <-]]|[_ H1]]%lookup_insert_Some [[<- [= <-]]|[_ H2]]%lookup_insert_Some;
        [done|by destruct (Hno _ _ H2)|subst; by destruct (Hno _ _ H1)|by apply (do_gd _ _ _ _ Hdo _ _ _ _ _ H1 H2)].
  - apply wp_bind. eapply wp_mono; [eapply (arc_down_ok t _ k); [|done]|intros [] s' Hi'; by repeat apply wp_ret].
    rewrite <- (insert_id t k (HSet a)) by done. eapply (blk_inv_switch t s k (HSet a)); [done|done|done|]. rewrite insert_id by done.
    destruct Hpost as [->|(q & d & Hq & -> & _)]; [done|]. split; [|apply Hdo..].
    intros j gd' c Hj. destruct (do_disk _ _ _ _ Hdo _ _ _ Hj) as (m & q' & d' & ? & ? & ? & ?). exists m, q', d'.
    rewrite lookup_insert_ne; [done|congruence].
Qed.

Lemma blk_step_ok t s op : blk_inv t s → bop_ok op → wp (blk_step KN HAS_POLL t op) (λ out s', blk_inv out.1 s') s.
Proof.
  intros Hi Hop. destruct op; [by apply blk_step_new|by apply blk_step_clone|by apply blk_step_drop|by apply blk_step_build].
Qed.

Lemma blk_run_ok ops : ∀ t s, blk_inv t s → Forall bop_ok ops →
  wp (blk_run KN HAS_POLL t ops) (λ out s', blk_inv out.1 s') s.
Proof.
  induction ops as [|op ops IH]; intros t s Hi Hops; cbn [blk_run]; [by apply wp_ret|].
  inversion_clear Hops. apply wp_bind. eapply wp_mono; [by apply blk_step_ok|]. intros [t1 o] s1 Hi1.
  apply wp_bind. eapply wp_mono; [by apply IH|]. intros [t2 os] s2 Hi2. by apply wp_ret.
Qed.
End Programs.

(** ** Theorems *)

(** Without handles there is nothing. *)
Lemma blk_inv_empty s : blk_inv ∅ s → bs_heap s = ∅ ∧ bs_live s = ∅ ∧ bs_arcs s = ∅ ∧ bs_queue s = ∅.
Proof.
  intros Hi.
  assert (bs_arcs s = ∅) as Ha.
  { apply map_empty. intros a. destruct (bs_arcs s !! a) as [[n i]|] eqn:E; [|done].
    destruct (bi_arc _ _ Hi _ _ _ E) as (Hn & Hpos & _). rewrite (tally_zero harc ∅ a) in Hn by done. lia. }
  assert (bs_live s = ∅) as Hl.
  { apply set_eq. intros p. split; [|done]. intros (a & n & E)%(bi_owner _ _ Hi). by rewrite Ha in E. }
  split_and!; [|done|done|].
  - apply map_empty. intros p. destruct (bs_heap s !! p) as [[o|st]|] eqn:E; [| |done].
    + destruct (ho_owned _ _ (bi_heap _ _ Hi) _ _ E) as (q & st & Hq & _).
      assert (q ∈ bs_live s) as Hin by (apply (ho_live _ _ (bi_heap _ _ Hi)); by exists st). by rewrite Hl in Hin.
    + assert (p ∈ bs_live s) as Hin by (apply (ho_live _ _ (bi_heap _ _ Hi)); by exists st). by rewrite Hl in Hin.
  - apply map_empty. intros gd. destruct (bs_queue s !! gd) eqn:E; [|done].
    destruct (bi_queue _ _ Hi _ _ E) as (k & a & n & Hk & _). by rewrite lookup_empty in Hk.
Qed.

Lemma blk_inv_init disks : blk_inv ∅ (MkBS ∅ ∅ disks ∅ ∅).
Proof. split; simpl; [split|..]; set_solver by eauto with simplify_map_eq. Qed.

(** C36: a tag set lives exactly as long as it is needed. Every program that creates tag sets,
    clones and drops the [Arc]s on them, and builds and drops disks on them, runs without a panic,
    without a wrong free, and never frees a set that a disk which was added still uses, whichever
    allocations and registrations fail in between. The C heap holds at each point the sets of the
    live [Arc]s, each with a table of callbacks of its own, and nothing else; when the last handle is
    gone it is empty. *)
Theorem tag_sets_lifecycle {EP : ErrPtrOps} {EPS : ErrPtrSpec} (KN : BlkKernel) (HAS_POLL : bool)
    (t : gmap nat bhandle) (s : BS) (ops : list BOp)
    (HK : kernel_ok KN) (Hi : blk_inv t s) (Hops : Forall bop_ok ops) :
  ∃ t' os s', blk_run KN HAS_POLL t ops s = Done ((t', os), s') ∧
    heap_ok (bs_heap s') (bs_live s') ∧
    (∀ p, p ∈ bs_live s' ↔ ∃ a n, bs_arcs s' !! a = Some (n, Some p)) ∧
    (∀ a n i, bs_arcs s' !! a = Some (n, i) → n = tally harc t' a ∧ 0 < n) ∧
    (∀ gd p, bs_queue s' !! gd = Some p → p ∈ bs_live s') ∧
    (t' = ∅ → bs_heap s' = ∅ ∧ bs_live s' = ∅ ∧ bs_arcs s' = ∅ ∧ bs_queue s' = ∅).
Proof.
  destruct (blk_run_ok KN HK HAS_POLL ops t s Hi Hops) as ([t' os] & s' & Hd & Hi'). simpl in Hi'.
  assert (∀ a n p, bs_arcs s' !! a = Some (n, Some p) → p ∈ bs_live s') as Hal.
  { intros a n p Ha. by destruct (bi_arc _ _ Hi' _ _ _ Ha) as (_ & _ & q & [= <-] & ?). }
  exists t', os, s'. split_and!; [done|apply Hi'| | | |intros ->; by apply blk_inv_empty].
  - intros p. split; [apply (bi_owner _ _ Hi')|]. intros (a & n & Ha). by eapply Hal.
  - intros a n i Ha. by destruct (bi_arc _ _ Hi' _ _ _ Ha) as (-> & ? & _).
  - intros gd p (k & a & n & _ & Ha)%(bi_queue _ _ Hi'). by eapply Hal.
Qed.

(** Making a tag set is all or nothing. [alloc_tag_set] fails with [ENOMEM] and leaves the
    kernel as it was, whichever of its two allocations or the initialisation fails; or it gives an
    initialised set with the queues, depth and maps asked for and a table with every callback,
    [poll] exactly when the driver has one. The drop of such a set is never undefined and
    restores the kernel's state. *)
Theorem tag_set_all_or_nothing {EP : ErrPtrOps} {EPS : ErrPtrSpec} (KN : BlkKernel) (HAS_POLL : bool) (nr tags maps : Z)
    (s : BS) (HK : kernel_ok KN) (Hs : heap_ok (bs_heap s) (bs_live s)) (Hq : ∀ gd p, bs_queue s !! gd = Some p → p ∈ bs_live s) :
  alloc_tag_set KN HAS_POLL nr tags maps s = Done (Err (ENOMEM : Error), s) ∨
  ∃ p o s', alloc_tag_set KN HAS_POLL nr tags maps s = Done (Ok p, s') ∧
    bs_heap s' = <[p := CSet (built_set o nr tags maps)]> (<[o := COps (built_ops HAS_POLL)]> (bs_heap s)) ∧
    bs_heap s !! p = None ∧ bs_heap s !! o = None ∧ p ≠ o ∧ p ∈ bs_live s' ∧
    heap_ok (bs_heap s') (bs_live s') ∧ tag_set_drop p s' = Done (tt, s).
Proof.
  destruct (alloc_tag_set_ok KN HK HAS_POLL nr tags maps s) as (r & s' & Hr & Hpost). destruct r as [p|e]; [right|left].
  - destruct Hpost as (o & Hpos & Hp & Ho & Hne & ->).
    assert (p ∉ bs_live s) as Hpl by (rewrite (ho_live _ _ Hs); intros [? ?]; congruence).
    eexists p, o, _. split_and!; [exact Hr|done|done|done|done|simpl; set_solver|by apply heap_ok_add|].
    apply wp_Done. eapply wp_mono.
    + apply (tag_set_drop_ok p (built_set o nr tags maps)); simpl; [by apply heap_ok_add|apply lookup_insert_eq|done|].
      intros gd Hgd. by apply Hpl, (Hq gd).
    + intros [] s1 ->. split; [done|]. unfold with_heap. simpl. rewrite (delete_insert_id _ p) by by rewrite lookup_insert_ne.
      rewrite delete_insert_id by done. replace (({[p]} ∪ bs_live s) ∖ {[p]}) with (bs_live s) by set_solver. by destruct s.
  - by destruct Hpost as [-> ->].
Qed.

(** ** An instance *)

Definition next_block {B} (h : gmap Z B) : option Z := let p := max_key h + 8 in if p <? 2 ^ 63 then Some p else None.

Lemma next_block_ok {B} (h : gmap Z B) p : next_block h = Some p → h !! p = None ∧ 0 < p < 2 ^ 63.
Proof.
  unfold next_block. destruct (Z.ltb_spec (max_key h + 8) (2 ^ 63)); [|done]. intros [= <-].
  pose proof (foldr_max_nonneg (map_to_list h).*1). unfold max_key in *. split; [|lia].
  destruct (h !! _) eqn:E; [|done]. apply max_key_ge in E. unfold max_key in E. lia.
Qed.

(** A set without queues is refused. *)
Definition demo_kernel : BlkKernel :=
  MkBlkKernel next_block next_block (λ _ st, if ts_nr_hw_queues st =? 0 then -22 else 0)
    (λ disks _, default 0 (next_block disks)) (replicate 32 0) (λ _ _, 0).

Lemma demo_kernel_ok : kernel_ok demo_kernel.
Proof.
  split; simpl; [| |done|].
  - intros h p [? ?]%next_block_ok. split; [done|]. unfold MAX_ERRNO. lia.
  - by intros h a [? _]%next_block_ok.
  - intros d _. destruct (next_block d) as [p|] eqn:E; simpl; [|done]. by apply next_block_ok in E as [? _].
Qed.

Definition demo_name (n : nat) : Arguments := MkArguments [replicate n 97] true.

(** A refused set; two disks on one set, of which one has a name that does not fit; the set's
    own handle is dropped before the disk. *)
Definition demo_blk_ops : list BOp :=
  [BNew 0 0 64 1; BNew 0 2 64 1; BClone 0 1; BClone 0 2; BBuild 1 builder_new (demo_name 4); BBuild 2 builder_new (demo_name 40);
   BDrop 0; BNew 3 1 1 1; BDrop 1; BDrop 3]%nat.

Example demo_blk_runs :
  match blk_run demo_kernel true ∅ demo_blk_ops (MkBS ∅ ∅ ∅ ∅ ∅) with
  | Done ((t, os), s) => t = ∅ ∧ os = [Some (ENOMEM : Error); None; None; None; None; Some (EINVAL : Error); None; None; None; None] ∧
      bs_heap s = ∅ ∧ d_added <$> bs_disks s = {[ 8 := false; 16 := false ]}
  | _ => False
  end.
Proof. vm_compute. split_and!; reflexivity. Qed.

Lemma demo_blk_ops_ok : Forall bop_ok demo_blk_ops.
Proof.
  unfold demo_blk_ops.
  repeat (apply Forall_cons_2; [first [exact I|apply Forall_cons_2; [unfold small; simpl; usize|apply Forall_nil_2]]|]).
  apply Forall_nil_2.
Qed.

Lemma tag_sets_lifecycle_witness :
  ∃ t' os s', blk_run demo_kernel true ∅ demo_blk_ops (MkBS ∅ ∅ ∅ ∅ ∅) = Done ((t', os), s') ∧ (t' = ∅ → bs_heap s' = ∅).
Proof.
  destruct (tag_sets_lifecycle demo_kernel true ∅ (MkBS ∅ ∅ ∅ ∅ ∅) demo_blk_ops demo_kernel_ok (blk_inv_init ∅) demo_blk_ops_ok)
    as (t' & os & s' & Hd & _ & _ & _ & _ & He). exists t', os, s'. split; [exact Hd|]. intros Ht. by destruct (He Ht).
Defined.

Lemma tag_set_all_or_nothing_witness :
  let s0 := MkBS ∅ ∅ ∅ ∅ ∅ in
  alloc_tag_set demo_kernel true 2 64 1 s0 = Done (Err (ENOMEM : Error), s0) ∨
  ∃ p s', alloc_tag_set demo_kernel true 2 64 1 s0 = Done (Ok p, s') ∧ tag_set_drop p s' = Done (tt, s0).
Proof.
  intros s0. destruct (tag_set_all_or_nothing demo_kernel true 2 64 1 s0 demo_kernel_ok (bi_heap _ _ (blk_inv_init ∅)))
    as [H0|(p & o & s' & Hr & _ & _ & _ & _ & _ & _ & Hd)]; [intros gd p Hq; discriminate Hq|by left|right; by exists p, s'].
Defined.
