(* ===== verification/BlkQueue.v ===== *)
(** * A request queue ([OperationsVTable] of [rust/src/block/mq/operations.rs])

    The callbacks of a tag set as the block layer calls them: through the table that
    [OperationsVTable::build] made (TagSet), for all the requests of the set, with their private data
    as memory that is made by [init_request], and with a driver that works on several requests at
    the same time. The steps on one request are those of BlockMq. *)

From S2P Require Import Prelude Errors Str BlockMq TagSet.

(** ** The callbacks *)

(** The methods of the driver that were called. *)
Inductive DCall := DQueueRq (rq : Z) (is_last : bool) | DCommitRqs | DPoll.

(** Private data of the requests that exist ([None]: not initialised), the hardware contexts, the
    calls of the driver. *)
Record HQ := MkHQ { pdus : gmap Z (option Rq); hctxs : gset Z; dcalls : list DCall }.

Section Queue.
(** [CONFIG_DEBUG_MISC]; the block layer's reading of an error. *)
Context (debug : bool) (errno_to_blk_status : Z → Z).
(** The table and the size of the private data, of the tag set. *)
Context (ops : blk_mq_ops) (cmd_size : Z).
Local Abbreviation QM := (M HQ).

Definition set_pdus (p : gmap Z (option Rq)) (s : HQ) : HQ := MkHQ p (hctxs s) (dcalls s).
Definition dcall (c : DCall) : QM unit := modify (λ s, MkHQ (pdus s) (hctxs s) (dcalls s ++ [c])).

(** Code on the initialised private data of [rq]. *)
Definition on_pdu {A} (rq : Z) (m : M Rq A) : QM A := λ s,
  match pdus s !! rq with
  | Some (Some x) =>
      match m x with
      | Done (a, x') => Done (a, set_pdus (<[rq := Some x']> (pdus s)) s)
      | Panic => Panic
      | UB => UB
      end
  | _ => UB
  end.

(** The write of the counter needs room for the wrapper. *)
Definition init_pdu_callback (rq : Z) : QM Z :=
  s ← get;
  if bool_decide (is_Some (pdus s !! rq)) && (RequestDataWrapper_size <=? cmd_size) then
    _ ← put (set_pdus (<[rq := Some (MkRq 0 [])]> (pdus s)) s);
    mret (from_result (λ _, Ok 0))
  else ub.

Definition exit_request_callback (rq : Z) : QM unit :=
  s ← get;
  match pdus s !! rq with
  | Some (Some _) => put (set_pdus (<[rq := None]> (pdus s)) s)
  | _ => ub
  end.

(** [queue_rq_callback] up to the method of the driver, and behind it. *)
Definition queue_rq_enter (rq : Z) (last : bool) : QM unit :=
  _ ← on_pdu rq queue_begin;
  dcall (DQueueRq rq last).
Definition to_blk_status (e : Error) : Z := errno_to_blk_status (errno e).
Definition queue_rq_leave (ret : result Error unit) : Z :=
  match ret with Err e => to_blk_status e | Ok _ => BLK_STS_OK end.

Definition commit_rqs_callback : QM unit := dcall DCommitRqs.
Definition complete_callback (rq : Z) : QM unit := mret tt.
Definition poll_callback (poll : bool) : QM Z := _ ← dcall DPoll; mret (if poll then 1 else 0).
Definition init_hctx_callback : Z := from_result (λ _, Ok 0).
Definition exit_hctx_callback : QM unit := mret tt.

(** ** The block layer

    It calls an entry of the table; the wrong callback there, or none, is undefined. *)

Definition call {A} (entry : option callback) (cb : callback) (m : QM A) : QM A :=
  match entry, cb with
  | Some CbQueueRq, CbQueueRq | Some CbCommitRqs, CbCommitRqs | Some CbPoll, CbPoll | Some CbComplete, CbComplete
  | Some CbInitHctx, CbInitHctx | Some CbExitHctx, CbExitHctx | Some CbInitRequest, CbInitRequest
  | Some CbExitRequest, CbExitRequest => m
  | _, _ => ub
  end.

(** [EPoll] carries the answer of the driver, [ELeave] what its [queue_rq] returns; [EDriver] is a
    step of the driver on one of its references. *)
Inductive QEv :=
| EInit (rq : Z)
| EExit (rq : Z)
| EInitHctx (h : Z)
| EExitHctx (h : Z)
| EQueue (h rq : Z) (is_last : bool)
| ELeave (rq : Z) (ret : result Error unit)
| EDriver (rq : Z) (op : RqOp)
| ECommit (h : Z)
| EComplete (rq : Z)
| EPoll (h : Z) (answer : bool).

(** What an event answers. *)
Inductive QOut := ONone | OInt (n : Z) | OStatus (st : Z) | OEnd (ok : option bool).

(** A step on a request with its life. *)
Definition on_life (lives : gmap Z Life) (rq : Z) (op : RqOp) : QM (gmap Z Life * option bool) :=
  match lives !! rq with
  | None => mret (lives, None)
  | Some l => '(l, o) ← on_pdu rq (rq_step debug l op); mret (<[rq := l]> lives, o)
  end.

Definition driver_op (op : RqOp) : bool := match op with RQueue | RReject => false | _ => true end.

(** The block layer keeps to the documented order: an event that cannot happen is skipped. [lives]
    says who has which request. *)
Definition q_step (lives : gmap Z Life) (e : QEv) : QM (gmap Z Life * QOut) :=
  s ← get;
  match e with
  | EInit rq =>
      if lives !! rq is Some _ then mret (lives, ONone)
      else
        _ ← put (set_pdus (<[rq := None]> (pdus s)) s);
        n ← call (op_init_request ops) CbInitRequest (init_pdu_callback rq);
        if n =? 0 then mret (<[rq := MkLife Block 0]> lives, OInt n)
        else _ ← modify (λ s, set_pdus (delete rq (pdus s)) s); mret (lives, OInt n)
  | EExit rq =>
      if lives !! rq is Some (MkLife Block _) then
        _ ← call (op_exit_request ops) CbExitRequest (exit_request_callback rq);
        _ ← modify (λ s, set_pdus (delete rq (pdus s)) s);
        mret (delete rq lives, ONone)
      else mret (lives, ONone)
  | EInitHctx h =>
      if bool_decide (h ∈ hctxs s) then mret (lives, ONone)
      else
        n ← call (op_init_hctx ops) CbInitHctx (mret init_hctx_callback);
        _ ← modify (λ s, if n =? 0 then MkHQ (pdus s) ({[h]} ∪ hctxs s) (dcalls s) else s);
        mret (lives, OInt n)
  | EExitHctx h =>
      if bool_decide (h ∈ hctxs s) then
        _ ← call (op_exit_hctx ops) CbExitHctx exit_hctx_callback;
        _ ← modify (λ s, MkHQ (pdus s) (hctxs s ∖ {[h]}) (dcalls s));
        mret (lives, ONone)
      else mret (lives, ONone)
  | EQueue h rq last =>
      if bool_decide (h ∈ hctxs s) then
        match lives !! rq with
        | Some (MkLife Block n) =>
            _ ← call (op_queue_rq ops) CbQueueRq (queue_rq_enter rq last);
            mret (<[rq := MkLife Driver (S n)]> lives, ONone)
        | _ => mret (lives, ONone)
        end
      else mret (lives, ONone)
  | ELeave rq ret =>
      match ret with
      | Ok _ => mret (lives, OStatus (queue_rq_leave ret))
      | Err _ => '(lives, _) ← on_life lives rq RReject; mret (lives, OStatus (queue_rq_leave ret))
      end
  | EDriver rq op => if driver_op op then '(lives, o) ← on_life lives rq op; mret (lives, OEnd o) else mret (lives, ONone)
  | ECommit h => if bool_decide (h ∈ hctxs s) then _ ← call (op_commit_rqs ops) CbCommitRqs commit_rqs_callback; mret (lives, ONone) else mret (lives, ONone)
  | EComplete rq => _ ← call (op_complete ops) CbComplete (complete_callback rq); mret (lives, ONone)
  | EPoll h answer =>
      match op_poll ops with
      | None => mret (lives, ONone)
      | Some _ => if bool_decide (h ∈ hctxs s) then n ← call (op_poll ops) CbPoll (poll_callback answer); mret (lives, OInt n) else mret (lives, ONone)
      end
  end.

Fixpoint q_run (lives : gmap Z Life) (es : list QEv) : QM (gmap Z Life * list QOut) :=
  match es with
  | [] => mret (lives, [])
  | e :: es =>
      '(lives, o) ← q_step lives e;
      '(lives, os) ← q_run lives es;
      mret (lives, o :: os)
  end.
End Queue.

(** ** Specification: no memory, no counters *)

Section Spec.
Context (HAS_POLL : bool) (errno_to_blk_status : Z → Z).

Definition life_on (lives : gmap Z Life) (rq : Z) (op : RqOp) : gmap Z Life * option bool :=
  match lives !! rq with
  | None => (lives, None)
  | Some l => (<[rq := (life_spec l op).1]> lives, (life_spec l op).2)
  end.

(** What happens to the requests and the contexts, the answer, and the methods of the driver that
    are called. *)
Definition spec_step (lives : gmap Z Life) (hs : gset Z) (e : QEv) : gmap Z Life * gset Z * QOut * list DCall :=
  match e with
  | EInit rq => if lives !! rq is Some _ then (lives, hs, ONone, []) else (<[rq := MkLife Block 0]> lives, hs, OInt 0, [])
  | EExit rq => if lives !! rq is Some (MkLife Block _) then (delete rq lives, hs, ONone, []) else (lives, hs, ONone, [])
  | EInitHctx h => if decide (h ∈ hs) then (lives, hs, ONone, []) else (lives, {[h]} ∪ hs, OInt 0, [])
  | EExitHctx h => (lives, hs ∖ {[h]}, ONone, [])
  | EQueue h rq last =>
      match decide (h ∈ hs), lives !! rq with
      | left _, Some (MkLife Block n) => (<[rq := MkLife Driver (S n)]> lives, hs, ONone, [DQueueRq rq last])
      | _, _ => (lives, hs, ONone, [])
      end
  | ELeave rq (Ok _) => (lives, hs, OStatus BLK_STS_OK, [])
  | ELeave rq (Err e) => ((life_on lives rq RReject).1, hs, OStatus (errno_to_blk_status (errno e)), [])
  | EDriver rq op =>
      if driver_op op then ((life_on lives rq op).1, hs, OEnd (life_on lives rq op).2, []) else (lives, hs, ONone, [])
  | ECommit h => (lives, hs, ONone, if decide (h ∈ hs) then [DCommitRqs] else [])
  | EComplete _ => (lives, hs, ONone, [])
  | EPoll h answer =>
      if HAS_POLL && bool_decide (h ∈ hs) then (lives, hs, OInt (if answer then 1 else 0), [DPoll]) else (lives, hs, ONone, [])
  end.

Fixpoint spec_run (lives : gmap Z Life) (hs : gset Z) (es : list QEv) : gmap Z Life * gset Z * list QOut * list DCall :=
  match es with
  | [] => (lives, hs, [], [])
  | e :: es =>
      let '(lives, hs, o, cs) := spec_step lives hs e in
      let '(lives, hs, os, cs') := spec_run lives hs es in (lives, hs, o :: os, cs ++ cs')
  end.

(** A driver that returns an error has dropped its references to the request. *)
Definition ev_disciplined (lives : gmap Z Life) (e : QEv) : bool :=
  match e with
  | ELeave rq (Err _) => if lives !! rq is Some (MkLife Driver (S _)) then false else true
  | _ => true
  end.

Fixpoint q_disciplined (lives : gmap Z Life) (hs : gset Z) (es : list QEv) : bool :=
  match es with
  | [] => true
  | e :: es =>
      ev_disciplined lives e &&
      let '(lives, hs, _, _) := spec_step lives hs e in q_disciplined lives hs es
  end.
End Spec.

(** ** Refinement *)

(** Exactly the requests that exist have private data, all of it is initialised, and its counter
    agrees with the owner; no request has more than [n] references. *)
Record q_inv (n : nat) (lives : gmap Z Life) (s : HQ) : Prop := {
  qi_dom : dom (pdus s) = dom lives;
  qi_rq : ∀ rq l, lives !! rq = Some l → ∃ x, pdus s !! rq = Some (Some x) ∧ rq_inv true l x ∧ (arefs l ≤ n)%nat
}.

Section Refinement.
Context (debug HAS_POLL : bool) (errno_to_blk_status : Z → Z).
Local Abbreviation ops := (built_ops HAS_POLL).

Lemma q_inv_insert n lives s rq l x : q_inv n lives s → rq_inv true l x → (arefs l ≤ S n)%nat →
  q_inv (S n) (<[rq := l]> lives) (set_pdus (<[rq := Some x]> (pdus s)) s).
Proof.
  intros [Hd Hr] Hx Ha. split; simpl; [by rewrite !dom_insert_L, Hd|].
  intros rq' l' [[<- <-]|[Hne Hl]]%lookup_insert_Some; [exists x; by rewrite lookup_insert_eq|].
  destruct (Hr _ _ Hl) as (x' & ? & ? & ?). exists x'. rewrite lookup_insert_ne by done. split_and!; [done|done|lia].
Qed.

Lemma q_inv_delete n lives s rq : q_inv n lives s → q_inv (S n) (delete rq lives) (set_pdus (delete rq (pdus s)) s).
Proof.
  intros [Hd Hr]. split; simpl; [by rewrite !dom_delete_L, Hd|].
  intros rq' l' [Hne Hl]%lookup_delete_Some. destruct (Hr _ _ Hl) as (x' & ? & ? & ?). exists x'.
  rewrite lookup_delete_ne by done. split_and!; [done|done|lia].
Qed.

Lemma q_inv_weaken n lives s : q_inv n lives s → ∀ hs cs, q_inv (S n) lives (MkHQ (pdus s) hs cs).
Proof.
  intros [Hd Hr] hs cs. split; simpl; [done|]. intros rq l Hl. destruct (Hr _ _ Hl) as (x & ? & ? & ?).
  exists x. split_and!; [done|done|lia].
Qed.

(** A step on one request. *)
Lemma on_life_ok n lives s rq op Q : q_inv n lives s → Z.of_nat n + 2 < USIZE_MAX →
  (∀ l, lives !! rq = Some l → disciplined l [op] = true) →
  (∀ s', hctxs s' = hctxs s → dcalls s' = dcalls s → q_inv (S n) (life_on lives rq op).1 s' → Q (life_on lives rq op) s') →
  wp (on_life debug lives rq op) Q s.
Proof.
  intros Hi Hn Hd HQ. unfold on_life, life_on in *. destruct (lives !! rq) as [l|] eqn:Hl.
  - destruct (qi_rq _ _ _ Hi _ _ Hl) as (x & Hx & Hrq & Ha).
    destruct (rq_step_ok debug true l op x Hrq ltac:(lia) (Hd l eq_refl)) as ([l' o] & x' & Hs & E & Hrq').
    pose proof (life_arefs l op) as Hle. rewrite <- E in *. cbn [fst snd] in *. apply wp_bind. eexists _, _. unfold on_pdu. rewrite Hx, Hs. split; [done|]. apply wp_ret.
    apply HQ; [done|done|]. by apply q_inv_insert; [done..|lia].
  - apply wp_ret, HQ; [done|done|]. pose proof (q_inv_weaken _ _ _ Hi (hctxs s) (dcalls s)) as H. by destruct s.
Qed.
(** The new owners, the contexts, the answer and the calls. *)
Definition step_post n (s : HQ) (sp : gmap Z Life * gset Z * QOut * list DCall) (r : gmap Z Life * QOut) (s' : HQ) : Prop :=
  r = (sp.1.1.1, sp.1.2) ∧ hctxs s' = sp.1.1.2 ∧ dcalls s' = dcalls s ++ sp.2 ∧ q_inv (S n) sp.1.1.1 s'.

Lemma qpost_same n s lives o cs : q_inv n lives s →
  step_post n s (lives, hctxs s, o, cs) (lives, o) (MkHQ (pdus s) (hctxs s) (dcalls s ++ cs)).
Proof. intros Hi. split_and!; [done..|]. by apply q_inv_weaken. Qed.

Lemma qpost_same0 n s lives o : q_inv n lives s → step_post n s (lives, hctxs s, o, []) (lives, o) s.
Proof. intros Hi. pose proof (qpost_same n s lives o [] Hi) as H. rewrite app_nil_r in H. by destruct s. Qed.

Lemma wp_on_pdu {A} rq (m : M Rq A) x Q s : pdus s !! rq = Some (Some x) →
  wp m (λ a x', Q a (set_pdus (<[rq := Some x']> (pdus s)) s)) x → wp (on_pdu rq m) Q s.
Proof. intros Hx (a & x' & Hm & HQ). eexists _, _. unfold on_pdu. rewrite Hx, Hm. by split. Qed.

Lemma init_step n lives s rq : q_inv n lives s → lives !! rq = None →
  wp (q_step debug errno_to_blk_status ops 8 lives (EInit rq))
    (step_post n s (<[rq := MkLife Block 0]> lives, hctxs s, OInt 0, [])) s.
Proof.
  intros Hi Hl. unfold q_step. apply wp_bind, wp_get. rewrite Hl. apply wp_bind, wp_put. cbn.
  apply wp_bind. unfold init_pdu_callback. apply wp_bind, wp_get. simpl. rewrite bool_decide_true by (rewrite lookup_insert_eq; eauto).
  apply wp_bind, wp_put, wp_ret. simpl. apply wp_ret. unfold set_pdus. simpl. rewrite insert_insert_eq.
  split_and!; [done|done|by rewrite app_nil_r|].
  apply (q_inv_insert n lives s rq (MkLife Block 0) (MkRq 0 []) Hi); [|simpl; lia].
  unfold rq_inv. simpl. split_and!; [done|by left|done|done].
Qed.

Lemma exit_step n lives s rq k : q_inv n lives s → lives !! rq = Some (MkLife Block k) →
  wp (q_step debug errno_to_blk_status ops 8 lives (EExit rq)) (step_post n s (delete rq lives, hctxs s, ONone, [])) s.
Proof.
  intros Hi Hl. unfold q_step. apply wp_bind, wp_get. rewrite Hl. destruct (qi_rq _ _ _ Hi _ _ Hl) as (x & Hx & _).
  apply wp_bind. cbn. unfold exit_request_callback. apply wp_bind, wp_get. rewrite Hx. apply wp_put, wp_bind, wp_modify, wp_ret.
  unfold set_pdus. simpl. rewrite delete_insert_eq. split_and!; [done|done|by rewrite app_nil_r|]. by apply q_inv_delete.
Qed.

Lemma queue_step n lives s h rq last k : q_inv n lives s → Z.of_nat n + 2 < USIZE_MAX → h ∈ hctxs s →
  lives !! rq = Some (MkLife Block k) →
  wp (q_step debug errno_to_blk_status ops 8 lives (EQueue h rq last))
    (step_post n s (<[rq := MkLife Driver (S k)]> lives, hctxs s, ONone, [DQueueRq rq last])) s.
Proof.
  intros Hi Hn Hh Hl. unfold q_step. apply wp_bind, wp_get. rewrite bool_decide_true, Hl by done.
  destruct (qi_rq _ _ _ Hi _ _ Hl) as (x & Hx & Hrq & Ha).
  apply wp_bind. cbn. unfold queue_rq_enter. apply wp_bind. eapply wp_on_pdu; [done|].
  destruct (rq_step_ok debug true _ RQueue x Hrq ltac:(lia) eq_refl) as (r & x' & Hs & _ & Hrq').
  injection Hs as <- <-. cbn [orb fst] in Hrq'. eexists tt, _. split; [done|]. unfold dcall. apply wp_modify, wp_ret.
  split_and!; [done|done|done|].
  assert (arefs (MkLife Driver (S k)) ≤ S n)%nat as Hk by (simpl in *; lia).
  destruct (q_inv_insert n lives s rq _ _ Hi Hrq' Hk) as [Hd Hr]. by split.
Qed.

Lemma q_step_ok n lives s e : q_inv n lives s → Z.of_nat n + 2 < USIZE_MAX → ev_disciplined lives e = true →
  wp (q_step debug errno_to_blk_status ops 8 lives e)
    (step_post n s (spec_step HAS_POLL errno_to_blk_status lives (hctxs s) e)) s.
Proof.
  intros Hi Hn Hd. pose proof (qpost_same0 n s lives) as Hsame. pose proof (qpost_same n s lives) as Hcall.
  destruct e as [rq|rq|h|h|h rq last|rq [[]|err]|rq op|h|rq|h answer]; cbn [spec_step].
  - destruct (lives !! rq) eqn:Hl; [|by apply init_step]. unfold q_step. apply wp_bind, wp_get. rewrite Hl. apply wp_ret. auto.
  - destruct (lives !! rq) as [[[] k]|] eqn:Hl; [by eapply exit_step|..]; unfold q_step; apply wp_bind, wp_get; rewrite Hl; apply wp_ret; auto.
  - unfold q_step. apply wp_bind, wp_get. case_decide; [rewrite bool_decide_true by done; apply wp_ret; auto|].
    rewrite bool_decide_false by done. cbn. apply wp_bind, wp_ret, wp_bind, wp_modify, wp_ret. simpl.
    split_and!; [done|done|by rewrite app_nil_r|by apply q_inv_weaken].
  - unfold q_step. apply wp_bind, wp_get. case_bool_decide as Hh.
    + apply wp_bind. cbn. apply wp_ret, wp_bind, wp_modify, wp_ret. split_and!; [done|done|by rewrite app_nil_r|by apply q_inv_weaken].
    + apply wp_ret. replace (hctxs s ∖ {[h]}) with (hctxs s) by set_solver. auto.
  - destruct (decide (h ∈ hctxs s)) as [Hh|Hh]; [destruct (lives !! rq) as [[[] k]|] eqn:Hl; [by apply queue_step|..]|];
      unfold q_step; apply wp_bind, wp_get; [rewrite bool_decide_true, Hl by done; apply wp_ret; auto..|].
    rewrite bool_decide_false by done. apply wp_ret. auto.
  - apply wp_bind, wp_get, wp_ret. auto.
  - apply wp_bind, wp_get, wp_bind. apply (on_life_ok n); [done|done| |].
    + intros l Hl. cbn in Hd. rewrite Hl in Hd. by destruct l as [[] []].
    + intros s' Hh' Hc' Hi'. destruct (life_on lives rq RReject). apply wp_ret. split_and!; [done|done|by rewrite app_nil_r|done].
  - destruct (driver_op op) eqn:Eop; unfold q_step; apply wp_bind, wp_get; rewrite Eop; [|apply wp_ret; auto].
    apply wp_bind. apply (on_life_ok n); [done|done| |].
    + intros l Hl. destruct l as [[] []], op; done.
    + intros s' Hh' Hc' Hi'. destruct (life_on lives rq op). apply wp_ret. split_and!; [done|done|by rewrite app_nil_r|done].
  - unfold q_step. apply wp_bind, wp_get. case_decide; [rewrite bool_decide_true by done|rewrite bool_decide_false by done; apply wp_ret; auto].
    apply wp_bind. cbn. apply wp_modify, wp_ret. auto.
  - unfold q_step. apply wp_bind, wp_get. cbn. apply wp_bind, wp_ret, wp_ret. auto.
  - unfold q_step. apply wp_bind, wp_get. destruct HAS_POLL; cbn [built_ops op_poll andb]; [|apply wp_ret; auto].
    case_bool_decide; [|apply wp_ret; auto]. apply wp_bind, wp_bind, wp_modify, wp_ret, wp_ret. auto.
Qed.

Lemma q_run_ok es : ∀ n lives s, q_inv n lives s → Z.of_nat n + Z.of_nat (length es) + 2 < USIZE_MAX →
  q_disciplined HAS_POLL errno_to_blk_status lives (hctxs s) es = true →
  wp (q_run debug errno_to_blk_status ops 8 lives es) (λ r s',
    (r.1, hctxs s', r.2, dcalls s') =
      (let '(l, h, os, cs) := spec_run HAS_POLL errno_to_blk_status lives (hctxs s) es in (l, h, os, dcalls s ++ cs)) ∧
    q_inv (n + length es) r.1 s') s.
Proof.
  induction es as [|e es IH]; intros n lives s Hi Hn Hd; cbn [q_run spec_run q_disciplined length] in *.
  - apply wp_ret. by rewrite app_nil_r, Nat.add_0_r.
  - apply andb_true_iff in Hd as [Hd1 Hd2]. apply wp_bind.
    eapply wp_mono; [apply (q_step_ok n); [done|lia|done]|].
    destruct (spec_step HAS_POLL errno_to_blk_status lives (hctxs s) e) as [[[l1 h1] o1] c1].
    intros r s1 (-> & Hh & Hc & Hi1). cbn [fst snd] in *. rewrite <- Hh in *.
    apply wp_bind. eapply wp_mono; [apply (IH (S n) l1 s1 Hi1); [lia|done]|].
    destruct (spec_run HAS_POLL errno_to_blk_status l1 (hctxs s1) es) as [[[l2 h2] os] cs].
    intros [l3 os3] s2 ([= -> <- -> Hc2] & Hi2). cbn [fst snd] in *. apply wp_ret.
    rewrite Hc2, Hc, app_assoc. split; [done|]. by replace (n + S (length es))%nat with (S n + length es)%nat by lia.
Qed.
End Refinement.

(** C13: a request queue does what block layer and driver agreed on. Over the table and the private
    data of any tag set that was made, and for every interleaving of the block layer's calls with the
    steps of a driver on any number of requests (which drops its references before it rejects a
    request), no entry of the table is missing, no private data is used before it is initialised or
    after it is torn down, and nothing panics, also with [CONFIG_DEBUG_MISC]. Owners, answers and the
    methods of the driver that are called, with their order and the flag of the last request, are
    those of the specification: a request is handed back exactly once, by the holder of the only
    reference. And every end of a request follows a start of its own, while its counter is one more
    than the number of references. *)
Theorem block_requests_refine {EP : ErrPtrOps} {EPS : ErrPtrSpec} (KN : BlkKernel) (debug HAS_POLL : bool)
    (errno_to_blk_status : Z → Z) (nr tags maps p : Z) (s s' : BS) (es : list QEv)
    (HK : kernel_ok KN)
    (Hset : alloc_tag_set KN HAS_POLL nr tags maps s = Done (Ok p, s'))
    (Hlen : Z.of_nat (length es) < 2 ^ 63)
    (Hd : q_disciplined HAS_POLL errno_to_blk_status ∅ ∅ es = true) :
  ∃ st op lives os t,
    bs_heap s' !! p = Some (CSet st) ∧ bs_heap s' !! ts_ops st = Some (COps op) ∧
    q_run debug errno_to_blk_status op (ts_cmd_size st) ∅ es (MkHQ ∅ ∅ []) = Done ((lives, os), t) ∧
    (lives, hctxs t, os, dcalls t) = spec_run HAS_POLL errno_to_blk_status ∅ ∅ es ∧
    dom (pdus t) = dom lives ∧
    ∀ rq l, lives !! rq = Some l → ∃ x, pdus t !! rq = Some (Some x) ∧
      protocol false (rq_calls x) = true ∧ (who l = Driver → rq_refcount x = Z.of_nat (arefs l) + 1) ∧
      (who l ≠ Driver → arefs l = 0%nat).
Proof.
  pose proof (wp_elim _ _ _ _ _ (alloc_tag_set_ok KN HK HAS_POLL nr tags maps s) Hset) as (o & Hpos & Hp & Ho & Hne & ->).
  destruct (q_run_ok debug HAS_POLL errno_to_blk_status es 0 ∅ (MkHQ ∅ ∅ [])) as ([lives os] & t & Hr & E & Hi).
  { split; simpl; [set_solver|]. intros rq l Hl. by rewrite lookup_empty in Hl. }
  { usize. }
  { done. }
  exists (built_set o nr tags maps), (built_ops HAS_POLL), lives, os, t.
  split; [apply lookup_insert_eq|]. split; [simpl; by rewrite lookup_insert_ne, lookup_insert_eq|].
  split; [done|]. split; [|split; [apply Hi|]].
  - cbn [fst snd hctxs dcalls] in E. destruct (spec_run HAS_POLL errno_to_blk_status ∅ ∅ es) as [[[? ?] ?] ?]. exact E.
  - intros rq l Hl. destruct (qi_rq _ _ _ Hi _ _ Hl) as (x & Hx & (Hc & Hpr & _) & _). exists x. split_and!; [done|done| |].
    + intros Hw. by rewrite Hw in Hc.
    + intros Hw. destruct (who l); [by destruct Hc|done|by destruct Hc].
Qed.

(** Two requests on one context: one is ended by a clone after the driver returned, the other is
    rejected and queued again. *)
Definition demo_queue_events : list QEv :=
  [EInitHctx 0; EInit 8; EInit 16; EQueue 0 8 false; EDriver 8 RClone; EQueue 0 16 true; EDriver 8 RDrop;
   EDriver 16 RDrop; ELeave 16 (Err (ENOMEM : Error)); ELeave 8 (Ok tt); ECommit 0; EPoll 0 true; EDriver 8 RTryEnd; EDriver 8 REnd;
   EQueue 0 16 true; EDriver 16 RTryEnd; EDriver 16 REnd; ELeave 16 (Ok tt); EExit 8; EExit 16; EExitHctx 0].

Example demo_queue_runs :
  match q_run true Z.opp (built_ops true) 8 ∅ demo_queue_events (MkHQ ∅ ∅ []) with
  | Done ((lives, os), t) => lives = ∅ ∧ pdus t = ∅ ∧ hctxs t = ∅ ∧
      dcalls t = [DQueueRq 8 false; DQueueRq 16 true; DCommitRqs; DPoll; DQueueRq 16 true] ∧
      os !! 8%nat = Some (OStatus 12) ∧ os !! 12%nat = Some (OEnd (Some true))
  | _ => False
  end.
Proof. vm_compute. split_and!; reflexivity. Qed.

Lemma block_requests_refine_witness :
  let s := MkBS ∅ ∅ ∅ ∅ ∅ in
  ∃ p s' st op lives os t, alloc_tag_set demo_kernel true 2 64 1 s = Done (Ok p, s') ∧
    bs_heap s' !! p = Some (CSet st) ∧ bs_heap s' !! ts_ops st = Some (COps op) ∧
    q_run true Z.opp op (ts_cmd_size st) ∅ demo_queue_events (MkHQ ∅ ∅ []) = Done ((lives, os), t) ∧
    (lives, hctxs t, os, dcalls t) = spec_run true Z.opp ∅ ∅ demo_queue_events.
Proof.
  intros s. destruct (alloc_tag_set demo_kernel true 2 64 1 s) as [[[p|e] s']| |] eqn:E; try (vm_compute in E; discriminate E).
  exists p, s'.
  destruct (block_requests_refine demo_kernel true true Z.opp 2 64 1 p s s' demo_queue_events demo_kernel_ok E)
    as (st & op & lives & os & t & H1 & H2 & H3 & H4 & _); [simpl; lia|vm_compute; reflexivity|].
  exists st, op, lives, os, t. by split_and!.
Defined.
