(* ===== verification/Phy.v ===== *)
(** * Network PHY drivers ([rust/src/net/phy.rs], [rust/src/net/phy/reg.rs])

    A driver is a record of optional methods over any state: a method is there exactly when the
    implementation of the trait has it, which is what [HAS_...] of the [vtable] macro says.
    [create_phy_driver] makes the C table of it. Devices are pointers to a record in a map; the
    PHY library of the kernel is a parameter ([PhyLib]), as are the constants of its headers. *)

From S2P Require Import Prelude Errors.

(** ** Device ids *)

Inductive DeviceMask := Exact | Model | Vendor | Custom (mask : Z).

(** [!0] and [!0 << n] on 32 bits. *)
Definition MASK_EXACT : Z := wrap 32 (Z.lnot 0).
Definition MASK_MODEL : Z := wrap 32 (Z.shiftl (wrap 32 (Z.lnot 0)) 4).
Definition MASK_VENDOR : Z := wrap 32 (Z.shiftl (wrap 32 (Z.lnot 0)) 10).

Definition as_int (m : DeviceMask) : Z :=
  match m with Exact => MASK_EXACT | Model => MASK_MODEL | Vendor => MASK_VENDOR | Custom mask => mask end.

Record DeviceId := MkDeviceId { id : Z; id_mask : DeviceMask }.

Definition new_with_exact_mask (id : Z) : DeviceId := MkDeviceId id Exact.
Definition new_with_model_mask (id : Z) : DeviceId := MkDeviceId id Model.
Definition new_with_vendor_mask (id : Z) : DeviceId := MkDeviceId id Vendor.
Definition new_with_custom_mask (id mask : Z) : DeviceId := MkDeviceId id (Custom mask).
Definition mask_as_int (d : DeviceId) : Z := as_int (id_mask d).

Definition mdio_device_id (d : DeviceId) : Z * Z := (id d, as_int (id_mask d)).

(** ** Drivers and their tables *)

Section Adapter.
Context {S : Type}.
Local Abbreviation PM := (M S).

(** The trait [Driver]. *)
Record Driver := MkDriver {
  FLAGS : Z;
  NAME : Z;
  PHY_DEVICE_ID : DeviceId;
  soft_reset : option (Z → PM (result Error unit));
  probe : option (Z → PM (result Error unit));
  get_features : option (Z → PM (result Error unit));
  match_phy_device : option (Z → PM bool);
  config_aneg : option (Z → PM (result Error unit));
  read_status : option (Z → PM (result Error Z));
  suspend : option (Z → PM (result Error unit));
  resume : option (Z → PM (result Error unit));
  read_mmd : option (Z → Z → Z → PM (result Error Z));
  write_mmd : option (Z → Z → Z → Z → PM (result Error unit));
  link_change_notify : option (Z → PM unit)
}.

(** [struct phy_driver]; the entries that are not listed are null. *)
Record phy_driver := MkPhyDriver {
  pd_name : Z;
  pd_flags : Z;
  pd_phy_id : Z;
  pd_phy_id_mask : Z;
  pd_soft_reset : option (Z → PM Z);
  pd_probe : option (Z → PM Z);
  pd_get_features : option (Z → PM Z);
  pd_match_phy_device : option (Z → PM Z);
  pd_suspend : option (Z → PM Z);
  pd_resume : option (Z → PM Z);
  pd_config_aneg : option (Z → PM Z);
  pd_read_status : option (Z → PM Z);
  pd_read_mmd : option (Z → Z → Z → PM Z);
  pd_write_mmd : option (Z → Z → Z → Z → PM Z);
  pd_link_change_notify : option (Z → PM unit)
}.

(** [from_result] around a closure with effects. *)
Definition from_result_m (f : PM (result Error Z)) : PM Z := r ← f; mret (from_result (λ _, r)).

(** The device is the pointer. *)
Definition device_from_raw (ptr : Z) : Z := ptr.

Definition soft_reset_callback (T : Z → PM (result Error unit)) (phydev : Z) : PM Z :=
  from_result_m (let dev := device_from_raw phydev in _ ←? T dev; mret (Ok 0)).
Definition probe_callback (T : Z → PM (result Error unit)) (phydev : Z) : PM Z :=
  from_result_m (let dev := device_from_raw phydev in _ ←? T dev; mret (Ok 0)).
Definition get_features_callback (T : Z → PM (result Error unit)) (phydev : Z) : PM Z :=
  from_result_m (let dev := device_from_raw phydev in _ ←? T dev; mret (Ok 0)).
Definition suspend_callback (T : Z → PM (result Error unit)) (phydev : Z) : PM Z :=
  from_result_m (let dev := device_from_raw phydev in _ ←? T dev; mret (Ok 0)).
Definition resume_callback (T : Z → PM (result Error unit)) (phydev : Z) : PM Z :=
  from_result_m (let dev := device_from_raw phydev in _ ←? T dev; mret (Ok 0)).
Definition config_aneg_callback (T : Z → PM (result Error unit)) (phydev : Z) : PM Z :=
  from_result_m (let dev := device_from_raw phydev in _ ←? T dev; mret (Ok 0)).
Definition read_status_callback (T : Z → PM (result Error Z)) (phydev : Z) : PM Z :=
  from_result_m (let dev := device_from_raw phydev in _ ←? T dev; mret (Ok 0)).
Definition match_phy_device_callback (T : Z → PM bool) (phydev : Z) : PM Z :=
  let dev := device_from_raw phydev in b ← T dev; mret (if b : bool then 1 else 0).
Definition read_mmd_callback (T : Z → Z → Z → PM (result Error Z)) (phydev devnum regnum : Z) : PM Z :=
  from_result_m (let dev := device_from_raw phydev in ret ←? T dev (wrap 8 devnum) regnum; mret (Ok ret)).
Definition write_mmd_callback (T : Z → Z → Z → Z → PM (result Error unit)) (phydev devnum regnum val : Z) : PM Z :=
  from_result_m (let dev := device_from_raw phydev in _ ←? T dev (wrap 8 devnum) regnum val; mret (Ok 0)).
Definition link_change_notify_callback (T : Z → PM unit) (phydev : Z) : PM unit :=
  let dev := device_from_raw phydev in T dev.

Definition create_phy_driver (T : Driver) : phy_driver := {|
  pd_name := NAME T;
  pd_flags := FLAGS T;
  pd_phy_id := id (PHY_DEVICE_ID T);
  pd_phy_id_mask := mask_as_int (PHY_DEVICE_ID T);
  pd_soft_reset := soft_reset_callback <$> soft_reset T;
  pd_probe := probe_callback <$> probe T;
  pd_get_features := get_features_callback <$> get_features T;
  pd_match_phy_device := match_phy_device_callback <$> match_phy_device T;
  pd_suspend := suspend_callback <$> suspend T;
  pd_resume := resume_callback <$> resume T;
  pd_config_aneg := config_aneg_callback <$> config_aneg T;
  pd_read_status := read_status_callback <$> read_status T;
  pd_read_mmd := read_mmd_callback <$> read_mmd T;
  pd_write_mmd := write_mmd_callback <$> write_mmd T;
  pd_link_change_notify := link_change_notify_callback <$> link_change_notify T
|}.

Definition new_with_driver (T : Driver) : DeviceId := PHY_DEVICE_ID T.
End Adapter.
Arguments Driver : clear implicits.
Arguments phy_driver : clear implicits.

(** ** Devices *)

(** The fields of [struct phy_device] that are used; [ph_bits] is its first bit field. *)
Record phy_device := MkPhyDevice {
  ph_id : Z; ph_state : Z; ph_bits : Z; ph_speed : Z; ph_duplex : Z; ph_bus : Z; ph_addr : Z
}.
Record PState (K : Type) := MkPState { ps_devs : gmap Z phy_device; ps_kern : K }.
Arguments MkPState {K}.
Arguments ps_devs {K}.
Arguments ps_kern {K}.

(** The constants of [linux/phy.h] and [linux/ethtool.h]. *)
Class PhyConsts := {
  phy_state_PHY_DOWN : Z; phy_state_PHY_READY : Z; phy_state_PHY_HALTED : Z; phy_state_PHY_ERROR : Z;
  phy_state_PHY_UP : Z; phy_state_PHY_RUNNING : Z; phy_state_PHY_NOLINK : Z; phy_state_PHY_CABLETEST : Z;
  AUTONEG_ENABLE : Z; DUPLEX_FULL : Z; DUPLEX_HALF : Z; DUPLEX_UNKNOWN : Z
}.

(** The PHY library; [phy_read_...] take the device. *)
Class PhyLib (K : Type) := {
  mdiobus_read : Z → Z → Z → M (PState K) Z;
  mdiobus_write : Z → Z → Z → Z → M (PState K) Z;
  phy_read_mmd : Z → Z → Z → M (PState K) Z;
  phy_write_mmd : Z → Z → Z → Z → M (PState K) Z;
  phy_read_paged : Z → Z → Z → M (PState K) Z;
  phy_resolve_aneg_linkmode : Z → M (PState K) unit;
  c_genphy_soft_reset : Z → M (PState K) Z;
  phy_init_hw : Z → M (PState K) Z;
  _phy_start_aneg : Z → M (PState K) Z;
  c_genphy_resume : Z → M (PState K) Z;
  c_genphy_suspend : Z → M (PState K) Z;
  c_genphy_read_status : Z → M (PState K) Z;
  c_genphy_c45_read_status : Z → M (PState K) Z;
  c_genphy_update_link : Z → M (PState K) Z;
  c_genphy_read_lpa : Z → M (PState K) Z;
  c_genphy_read_abilities : Z → M (PState K) Z
}.

Inductive DeviceState := Down | Ready | Halted | DError | Up | Running | NoLink | CableTest.
Inductive DuplexMode := Full | Half | Unknown.

Section Device.
Context {K : Type} {PC : PhyConsts} {PL : PhyLib K}.
Local Abbreviation PM := (M (PState K)).

Definition read_dev (phydev : Z) : PM phy_device :=
  s ← get; match ps_devs s !! phydev with Some d => mret d | None => ub end.
Definition write_dev (phydev : Z) (f : phy_device → phy_device) : PM unit :=
  d ← read_dev phydev; modify (λ s, MkPState (<[phydev := f d]> (ps_devs s)) (ps_kern s)).

Definition phy_id (dev : Z) : PM Z := d ← read_dev dev; mret (ph_id d).

(** The arms in order; an unknown state is an error. *)
Definition state (dev : Z) : PM DeviceState :=
  d ← read_dev dev;
  let state := ph_state d in
  mret (if state =? phy_state_PHY_DOWN then Down
        else if state =? phy_state_PHY_READY then Ready
        else if state =? phy_state_PHY_HALTED then Halted
        else if state =? phy_state_PHY_ERROR then DError
        else if state =? phy_state_PHY_UP then Up
        else if state =? phy_state_PHY_RUNNING then Running
        else if state =? phy_state_PHY_NOLINK then NoLink
        else if state =? phy_state_PHY_CABLETEST then CableTest
        else DError).

(** [get(offset, width)] of a bit field. *)
Definition bits_get (bits offset width : Z) : Z := Z.land (Z.shiftr bits offset) (Z.ones width).

Definition is_link_up (dev : Z) : PM bool := d ← read_dev dev; mret (bits_get (ph_bits d) 14 1 =? 1).
Definition is_autoneg_enabled (dev : Z) : PM bool := d ← read_dev dev; mret (bits_get (ph_bits d) 13 1 =? AUTONEG_ENABLE).
Definition is_autoneg_completed (dev : Z) : PM bool := d ← read_dev dev; mret (bits_get (ph_bits d) 15 1 =? 1).

Definition set_speed (dev speed : Z) : PM unit :=
  write_dev dev (λ d, MkPhyDevice (ph_id d) (ph_state d) (ph_bits d) (sext 32 speed) (ph_duplex d) (ph_bus d) (ph_addr d)).

Definition set_duplex (dev : Z) (mode : DuplexMode) : PM unit :=
  let v := match mode with Full => sext 32 DUPLEX_FULL | Half => sext 32 DUPLEX_HALF | Unknown => sext 32 DUPLEX_UNKNOWN end in
  write_dev dev (λ d, MkPhyDevice (ph_id d) (ph_state d) (ph_bits d) (ph_speed d) v (ph_bus d) (ph_addr d)).

Definition read_paged (dev page regnum : Z) : PM (result Error Z) :=
  ret ← phy_read_paged dev page regnum;
  if ret <? 0 then mret (Err (from_errno ret)) else mret (Ok (wrap 16 ret)).

Definition resolve_aneg_linkmode (dev : Z) : PM unit := phy_resolve_aneg_linkmode dev.
Definition genphy_soft_reset (dev : Z) : PM (result Error unit) := r ← c_genphy_soft_reset dev; mret (to_result r).
Definition init_hw (dev : Z) : PM (result Error unit) := r ← phy_init_hw dev; mret (to_result r).
Definition start_aneg (dev : Z) : PM (result Error unit) := r ← _phy_start_aneg dev; mret (to_result r).
Definition genphy_resume (dev : Z) : PM (result Error unit) := r ← c_genphy_resume dev; mret (to_result r).
Definition genphy_suspend (dev : Z) : PM (result Error unit) := r ← c_genphy_suspend dev; mret (to_result r).
Definition genphy_update_link (dev : Z) : PM (result Error unit) := r ← c_genphy_update_link dev; mret (to_result r).
Definition genphy_read_lpa (dev : Z) : PM (result Error unit) := r ← c_genphy_read_lpa dev; mret (to_result r).
Definition genphy_read_abilities (dev : Z) : PM (result Error unit) := r ← c_genphy_read_abilities dev; mret (to_result r).

(** ** Registers *)

Inductive RegKind := RC22 | RC45.
(** [C22] is a register number, [C45] a device and a register number. *)
Inductive Register := C22 (reg : Z) | C45 (devad regnum : Z).

(** A failing [build_assert!] is [None]. *)
Definition vendor_specific (n : Z) : option Register :=
  if (0x0f <? n) && (n <? 0x20) then Some (C22 n) else None.

Definition C45_new (devad regnum : Z) : Register := C45 devad regnum.

Definition c22_read (reg dev : Z) : PM (result Error Z) :=
  d ← read_dev dev; ret ← mdiobus_read (ph_bus d) (ph_addr d) reg; _ ←? mret (to_result ret); mret (Ok (wrap 16 ret)).
Definition c22_write (reg dev val : Z) : PM (result Error unit) :=
  d ← read_dev dev; ret ← mdiobus_write (ph_bus d) (ph_addr d) reg val; mret (to_result ret).
Definition c22_read_status (dev : Z) : PM (result Error Z) :=
  ret ← c_genphy_read_status dev; _ ←? mret (to_result ret); mret (Ok (wrap 16 ret)).

Definition c45_read (devad regnum dev : Z) : PM (result Error Z) :=
  ret ← phy_read_mmd dev devad regnum; _ ←? mret (to_result ret); mret (Ok (wrap 16 ret)).
Definition c45_write (devad regnum dev val : Z) : PM (result Error unit) :=
  ret ← phy_write_mmd dev devad regnum val; mret (to_result ret).
Definition c45_read_status (dev : Z) : PM (result Error Z) :=
  ret ← c_genphy_c45_read_status dev; _ ←? mret (to_result ret); mret (Ok (wrap 16 ret)).

Definition dev_read (dev : Z) (reg : Register) : PM (result Error Z) :=
  match reg with C22 n => c22_read n dev | C45 d n => c45_read d n dev end.
Definition dev_write (dev : Z) (reg : Register) (val : Z) : PM (result Error unit) :=
  match reg with C22 n => c22_write n dev val | C45 d n => c45_write d n dev val end.
Definition genphy_read_status (k : RegKind) (dev : Z) : PM (result Error Z) :=
  match k with RC22 => c22_read_status dev | RC45 => c45_read_status dev end.
End Device.

(** The registers that have a name. *)
Definition C22_BMCR : Register := C22 0x00.
Definition C22_BMSR : Register := C22 0x01.
Definition C22_PHYSID1 : Register := C22 0x02.
Definition C22_PHYSID2 : Register := C22 0x03.
Definition C22_ADVERTISE : Register := C22 0x04.
Definition C22_LPA : Register := C22 0x05.
Definition C22_EXPANSION : Register := C22 0x06.
Definition C22_NEXT_PAGE_TRANSMIT : Register := C22 0x07.
Definition C22_LP_RECEIVED_NEXT_PAGE : Register := C22 0x08.
Definition C22_MASTER_SLAVE_CONTROL : Register := C22 0x09.
Definition C22_MASTER_SLAVE_STATUS : Register := C22 0x0a.
Definition C22_PSE_CONTROL : Register := C22 0x0b.
Definition C22_PSE_STATUS : Register := C22 0x0c.
Definition C22_MMD_CONTROL : Register := C22 0x0d.
Definition C22_MMD_DATA : Register := C22 0x0e.
Definition C22_EXTENDED_STATUS : Register := C22 0x0f.

(** Those of the clause-45 devices whose number does not come from a C header. *)
Definition SEPARATED_PMA1 : Z := 8.
Definition SEPARATED_PMA2 : Z := 9.
Definition SEPARATED_PMA3 : Z := 10.
Definition SEPARATED_PMA4 : Z := 11.
Definition OFDM_PMAPMD : Z := 12.
Definition POWER_UNIT : Z := 13.

(** ** Registration *)

(** The kernel's registered arrays of drivers: address and number. *)
Section Registration.
Context (answer : gmap Z Z → Z → Z → Z).
Local Abbreviation RM := (M (gmap Z Z)).

(** A negative answer registers none of them. *)
Definition phy_drivers_register (p n : Z) : RM Z :=
  s ← get; let r := answer s p n in _ ← put (if r <? 0 then s else <[p := n]> s); mret r.
Definition phy_drivers_unregister (p n : Z) : RM unit :=
  s ← get; if bool_decide (s !! p = Some n) then put (delete p s) else ub.

(** A slice of tables: its address and length. *)
Definition slice_first (drivers : Z * Z) : RM Z := if 0 <? drivers.2 then mret drivers.1 else panic.

Definition try_into_i32 (n : Z) : result TryFromIntError Z := if n <=? I32_MAX then Ok n else Err MkTryFromIntError.

Definition phy_register (drivers : Z * Z) : RM (result Error (Z * Z)) :=
  if drivers.2 =? 0 then mret (Err (EINVAL : Error))
  else
    p ← slice_first drivers;
    n ←? mret (result_into (try_into_i32 drivers.2));
    r ← phy_drivers_register p n;
    _ ←? mret (to_result r);
    mret (Ok drivers).

Definition phy_registration_drop (r : Z * Z) : RM unit := p ← slice_first r; phy_drivers_unregister p (sext 32 r.2).

(** [module_phy_driver!]: the arrays, [init], and the drop of the module. *)
Definition count_devices {A} (xs : list A) : Z := foldl (λ n _, n + 1) 0 xs.

Definition device_table (devs : list DeviceId) : list (Z * Z) := (mdio_device_id <$> devs) ++ [(0, 0)].

Definition phy_module_init {S} (drivers_addr : Z) (drivers : list (Driver S)) : RM (result Error (Z * Z)) :=
  phy_register (drivers_addr, count_devices drivers).
End Registration.

(** ** Lemmas *)

(** What a C caller reads off an answer. *)
Definition to_value (r : Z) : result Error Z := if r <? 0 then Err (from_errno r) else Ok r.

(** All errors of a method are error codes, and all values of 16 bits. *)
Definition method_ok {S A} (val_ok : A → Prop) (m : M S (result Error A)) : Prop :=
  ∀ s r s', m s = Done (r, s') → match r with Ok a => val_ok a | Err e => Error_valid e end.
Definition u16_ok (n : Z) : Prop := 0 ≤ n < 2 ^ 16.

Lemma from_result_err e : Error_valid e → from_result (λ _, Err e) = to_errno e.
Proof. intros [H1 H2]. by apply errno_sext. Qed.

Lemma to_value_err e : Error_valid e → to_value (to_errno e) = Err e.
Proof. intros He. unfold to_value. rewrite from_to_errno by done. destruct He. by rewrite (proj2 (Z.ltb_lt _ _)). Qed.

Lemma to_result_err e : Error_valid e → to_result (to_errno e) = Err e.
Proof. intros He. unfold to_result. rewrite from_to_errno by done. destruct He. by rewrite (proj2 (Z.ltb_lt _ _)). Qed.

(** The C side of a closure, with the value encoded by [enc], decodes to what it returned. *)
Lemma callback_decodes {S A B} (m : M S (result Error A)) (val_ok : A → Prop) (enc : A → Z) (dec : Z → result Error B) (f : A → B) :
  method_ok val_ok m → (∀ a, val_ok a → dec (enc a) = Ok (f a)) → (∀ e, Error_valid e → dec (to_errno e) = Err e) →
  ∀ s, (r ← from_result_m (a ←? m; mret (Ok (enc a))); mret (dec r)) s = (r ← m; mret (result_map f r)) s.
Proof.
  intros Hm Hv He s. unfold from_result_m, try_bind, mbind, M_bind, mret, M_ret.
  specialize (Hm s). destruct (m s) as [[[a|e] s']| |]; try done; specialize (Hm _ _ eq_refl); simpl.
  - change (from_result (λ _, Ok (enc a))) with (enc a). by rewrite Hv.
  - by rewrite from_result_err, He.
Qed.

Lemma unit_decodes {S A} (m : M S (result Error A)) (val_ok : A → Prop) : method_ok val_ok m →
  ∀ s, (r ← from_result_m (_ ←? m; mret (Ok 0)); mret (to_result r)) s = (r ← m; mret (result_map (λ _, tt) r)) s.
Proof.
  intros Hm. apply (callback_decodes m val_ok (λ _, 0) to_result (λ _, tt)); [done|done|apply to_result_err].
Qed.

Lemma value_decodes {S} (m : M S (result Error Z)) : method_ok u16_ok m →
  ∀ s, (r ← from_result_m (a ←? m; mret (Ok a)); mret (to_value r)) s = m s.
Proof.
  intros Hm s. rewrite (callback_decodes m u16_ok (λ a, a) to_value (λ a, a)); [|done| |apply to_value_err].
  - unfold mbind, M_bind, mret, M_ret. by destruct (m s) as [[[]]| |].
  - intros a [Ha _]. unfold to_value. by rewrite (proj2 (Z.ltb_ge _ _)).
Qed.

(** An entry of the table answers for its method. *)
Definition entry_for {S A} (m : option (Z → M S (result Error A))) (e : option (Z → M S Z)) (val_ok : A → Prop) : Prop :=
  match m, e with
  | Some f, Some cb => ∀ p s, method_ok val_ok (f p) → (r ← cb p; mret (to_result r)) s = (r ← f p; mret (result_map (λ _, tt) r)) s
  | None, None => True
  | _, _ => False
  end.

Lemma entry_for_fmap {S A} (m : option (Z → M S (result Error A))) (cb : (Z → M S (result Error A)) → Z → M S Z) val_ok :
  (∀ f p, cb f p = from_result_m (_ ←? f p; mret (Ok 0))) → entry_for m (cb <$> m) val_ok.
Proof. intros Hcb. destruct m as [f|]; simpl; [|done]. intros p s Hm. rewrite Hcb. by apply unit_decodes with val_ok. Qed.

(** *** Ids *)

Lemma mask_shift n a b : 0 ≤ n ≤ 32 → 0 ≤ a < 2 ^ 32 → 0 ≤ b < 2 ^ 32 →
  Z.land (Z.lxor a b) (wrap 32 (Z.shiftl (wrap 32 (Z.lnot 0)) n)) = 0 ↔ Z.shiftr a n = Z.shiftr b n.
Proof.
  intros Hn Ha Hb.
  assert (∀ j, 0 ≤ j < 32 → Z.testbit (wrap 32 (Z.shiftl (wrap 32 (Z.lnot 0)) n)) j = (n <=? j)) as Hm.
  { intros j Hj. unfold wrap. rewrite Z.mod_pow2_bits_low, Z.shiftl_spec by lia. destruct (Z.leb_spec n j).
    - rewrite Z.mod_pow2_bits_low, Z.lnot_spec, Z.bits_0 by lia. done.
    - apply Z.testbit_neg_r. lia. }
  assert (∀ c j, 0 ≤ c < 2 ^ 32 → 32 ≤ j → Z.testbit c j = false) as Hhi.
  { intros c j Hc Hj. rewrite <- (Z.mod_small c (2 ^ 32)) by lia. by apply Z.mod_pow2_bits_high. }
  split; intros H.
  - apply Z.bits_inj'. intros j Hj. rewrite !Z.shiftr_spec by done. destruct (Z.lt_ge_cases (j + n) 32).
    + apply (f_equal (λ z, Z.testbit z (j + n))) in H. rewrite Z.land_spec, Z.lxor_spec, Hm, Z.bits_0 in H by lia.
      rewrite (proj2 (Z.leb_le n (j + n))), andb_true_r in H by lia. by apply xorb_eq.
    + by rewrite !Hhi by lia.
  - apply Z.bits_inj'. intros j Hj. rewrite Z.land_spec, Z.lxor_spec, Z.bits_0. destruct (Z.lt_ge_cases j 32).
    + rewrite Hm by lia. destruct (Z.leb_spec n j); [|by rewrite andb_false_r].
      apply (f_equal (λ z, Z.testbit z (j - n))) in H. rewrite !Z.shiftr_spec, Z.sub_add in H by lia.
      by rewrite H, xorb_nilpotent.
    + by rewrite !Hhi by lia.
Qed.

(** ** Theorems *)

(** The ids that the kernel binds to a driver with an id and a mask. *)
Definition id_matches (a id mask : Z) : bool := Z.land (Z.lxor a id) mask =? 0.

Lemma id_matches_spec a d : 0 ≤ a < 2 ^ 32 → 0 ≤ id d < 2 ^ 32 →
  id_matches a (id d) (mask_as_int d) = true ↔
    match id_mask d with
    | Exact => a = id d
    | Model => Z.shiftr a 4 = Z.shiftr (id d) 4
    | Vendor => Z.shiftr a 10 = Z.shiftr (id d) 10
    | Custom m => Z.land (Z.lxor a (id d)) m = 0
    end.
Proof.
  intros Ha Hd. unfold id_matches, mask_as_int. rewrite Z.eqb_eq. destruct (id_mask d) as [| | |m]; simpl; [|by apply mask_shift..|done].
  change MASK_EXACT with (wrap 32 (Z.shiftl (wrap 32 (Z.lnot 0)) 0)). rewrite mask_shift by lia. by rewrite !Z.shiftr_0_r.
Qed.

(** The table of a driver answers for the driver. [create_phy_driver] has an entry exactly
    for each method of the trait that the driver implements. Called on any device in any state, an
    entry has the effects of its method, and its answer read as C does it is what the method
    returned: its error code, its 16-bit value for a read of an MMD register, zero or one for a
    match. The id and mask bind the driver to the ids that agree with its own, in all bits, all but the
    low 4, or all but the low 10. *)
Theorem phy_driver_transparent {S} (D : Driver S) :
  let T := create_phy_driver D in
  entry_for (soft_reset D) (pd_soft_reset T) (λ _, True) ∧
  entry_for (probe D) (pd_probe T) (λ _, True) ∧
  entry_for (get_features D) (pd_get_features T) (λ _, True) ∧
  entry_for (suspend D) (pd_suspend T) (λ _, True) ∧
  entry_for (resume D) (pd_resume T) (λ _, True) ∧
  entry_for (config_aneg D) (pd_config_aneg T) (λ _, True) ∧
  entry_for (read_status D) (pd_read_status T) (λ _, True) ∧
  (match read_mmd D, pd_read_mmd T with
   | Some f, Some cb => ∀ p d n s, 0 ≤ d < 256 → method_ok u16_ok (f p d n) → (r ← cb p d n; mret (to_value r)) s = f p d n s
   | None, None => True | _, _ => False end) ∧
  (match write_mmd D, pd_write_mmd T with
   | Some f, Some cb => ∀ p d n v s, 0 ≤ d < 256 → method_ok (λ _, True) (f p d n v) →
       (r ← cb p d n v; mret (to_result r)) s = (r ← f p d n v; mret (result_map (λ _, tt) r)) s
   | None, None => True | _, _ => False end) ∧
  (match match_phy_device D, pd_match_phy_device T with
   | Some f, Some cb => ∀ p s, (r ← cb p; mret (r =? 1)) s = f p s
   | None, None => True | _, _ => False end) ∧
  pd_link_change_notify T = link_change_notify D ∧
  ∀ a, 0 ≤ a < 2 ^ 32 → 0 ≤ id (PHY_DEVICE_ID D) < 2 ^ 32 → id_matches a (pd_phy_id T) (pd_phy_id_mask T) = true ↔
    match id_mask (PHY_DEVICE_ID D) with
    | Exact => a = pd_phy_id T
    | Model => Z.shiftr a 4 = Z.shiftr (pd_phy_id T) 4
    | Vendor => Z.shiftr a 10 = Z.shiftr (pd_phy_id T) 10
    | Custom m => Z.land (Z.lxor a (pd_phy_id T)) m = 0
    end.
Proof.
  intros T. do 7 (split; [by apply entry_for_fmap|]). split_and!.
  - unfold T. simpl. destruct (read_mmd D) as [f|]; simpl; [|done]. intros p d n s Hd Hm. unfold read_mmd_callback.
    rewrite (wrap_id 8) by lia. by apply value_decodes.
  - unfold T. simpl. destruct (write_mmd D) as [f|]; simpl; [|done]. intros p d n v s Hd Hm. unfold write_mmd_callback.
    rewrite (wrap_id 8) by lia. by apply unit_decodes with (λ _, True).
  - unfold T. simpl. destruct (match_phy_device D) as [f|]; simpl; [|done]. intros p s. unfold match_phy_device_callback, device_from_raw.
    unfold mbind, M_bind, mret, M_ret. destruct (f p s) as [[[] s']| |]; done.
  - unfold T. simpl. by destruct (link_change_notify D).
  - intros a Ha Hi. by apply id_matches_spec.
Qed.

(** *** Forwarding to the kernel *)

(** A kernel function whose answers are error codes or at most [hi]. *)
Definition answers {S} (hi : Z) (m : M S Z) : Prop := ∀ s r s', m s = Done (r, s') → - MAX_ERRNO ≤ r ≤ hi.

(** An answer without its value. *)
Definition err_or_zero (r : Z) : Z := if r <? 0 then r else 0.

Lemma from_errno_in_range r : - MAX_ERRNO ≤ r < 0 → from_errno r = MkError r ∧ Error_valid (MkError r).
Proof. intros Hr. pose proof (from_to_errno (MkError r) Hr) as H. by split. Qed.

Lemma forward_unit {S} (m : M S Z) hi : answers hi m →
  ∀ s, from_result_m (_ ←? (r ← m; mret (to_result r)); mret (Ok 0)) s = (r ← m; mret (err_or_zero r)) s.
Proof.
  intros Hm s. unfold from_result_m, try_bind, mbind, M_bind, mret, M_ret. specialize (Hm s).
  destruct (m s) as [[r s']| |]; try done. specialize (Hm _ _ eq_refl). unfold to_result, err_or_zero.
  destruct (Z.ltb_spec r 0); [|done]. destruct (from_errno_in_range r) as [-> Hv]; [lia|]. by rewrite from_result_err.
Qed.

Lemma forward_value {S} (m : M S Z) : answers (2 ^ 16 - 1) m →
  ∀ s, from_result_m (v ←? (r ← m; _ ←? mret (to_result r); mret (Ok (wrap 16 r))); mret (Ok v)) s = m s.
Proof.
  intros Hm s. unfold from_result_m, try_bind, mbind, M_bind, mret, M_ret. specialize (Hm s).
  destruct (m s) as [[r s']| |]; try done. specialize (Hm _ _ eq_refl). unfold to_result.
  destruct (Z.ltb_spec r 0).
  - destruct (from_errno_in_range r) as [-> Hv]; [lia|]. by rewrite from_result_err.
  - rewrite wrap_id by lia. done.
Qed.

(** The documented answers of the PHY library. *)
Class PhyLibSpec (K : Type) `{PhyLib K} : Prop := {
  read_mmd_answers p d n : answers (2 ^ 16 - 1) (phy_read_mmd p d n);
  write_mmd_answers p d n v : answers I32_MAX (phy_write_mmd p d n v);
  mdio_read_answers b a n : answers (2 ^ 16 - 1) (mdiobus_read b a n);
  soft_reset_answers p : answers I32_MAX (c_genphy_soft_reset p);
  resume_answers p : answers I32_MAX (c_genphy_resume p);
  suspend_answers p : answers I32_MAX (c_genphy_suspend p);
  abilities_answers p : answers I32_MAX (c_genphy_read_abilities p);
  aneg_answers p : answers I32_MAX (_phy_start_aneg p);
  read_status_answers p : answers I32_MAX (c_genphy_read_status p)
}.

(** A driver that forwards every method to the kernel's generic functions. *)
Definition generic_driver {K} `{PhyConsts} `{PhyLib K} (name : Z) (dev_id : DeviceId) : Driver (PState K) := {|
  FLAGS := 0; NAME := name; PHY_DEVICE_ID := dev_id;
  soft_reset := Some genphy_soft_reset;
  probe := None;
  get_features := Some genphy_read_abilities;
  match_phy_device := None;
  config_aneg := Some start_aneg;
  read_status := Some (genphy_read_status RC22);
  suspend := Some genphy_suspend;
  resume := Some genphy_resume;
  read_mmd := Some (λ dev d n, dev_read dev (C45_new d n));
  write_mmd := Some (λ dev d n v, dev_write dev (C45_new d n) v);
  link_change_notify := None
|}.


(** *** Registration *)

(** Drivers are registered all or none, and taken back exactly. For every array of drivers
    and every answer of the kernel, [init] of the module returns; an empty array, one longer than a
    C [int], or a refusal is an error and nothing is registered; otherwise the array is registered
    with its length, and the drop of the module unregisters it with the same. The device table has
    the id and mask of every entry in order, and one terminating zero entry. *)
Theorem phy_module_lifecycle {S} (answer : gmap Z Z → Z → Z → Z) (addr : Z) (drivers : list (Driver S)) (devs : list DeviceId)
    (s : gmap Z Z) (Hfresh : s !! addr = None) :
  (∃ r s', phy_module_init answer addr drivers s = Done (r, s') ∧
     match r with
     | Ok reg => reg = (addr, Z.of_nat (length drivers)) ∧ drivers ≠ [] ∧ Z.of_nat (length drivers) ≤ I32_MAX ∧
         0 ≤ answer s addr (Z.of_nat (length drivers)) ∧ s' = <[addr := Z.of_nat (length drivers)]> s ∧
         phy_registration_drop reg s' = Done (tt, s)
     | Err e => s' = s ∧ (drivers = [] ∧ e = EINVAL ∨ I32_MAX < Z.of_nat (length drivers) ∧ e = EINVAL ∨
         ∃ a, a < 0 ∧ a = answer s addr (Z.of_nat (length drivers)) ∧ e = from_errno a)
     end) ∧
  length (device_table devs) = (length devs + 1)%nat ∧
  (∀ i d, devs !! i = Some d → device_table devs !! i = Some (id d, mask_as_int d)) ∧
  last (device_table devs) = Some (0, 0).
Proof.
  assert (∀ l : list (Driver S), count_devices l = Z.of_nat (length l)) as Hcount.
  { intros l. unfold count_devices. rewrite <- (Z.add_0_l (Z.of_nat _)). generalize 0.
    induction l as [|x l IH]; intros z; simpl; [lia|]. rewrite IH. lia. }
  split; [|split_and!].
  - unfold phy_module_init, phy_register, slice_first, try_into_i32. simpl. rewrite Hcount.
    destruct drivers as [|x l]; [eexists _, s; split; [reflexivity|]; split; [done|by left]|].
    set (n := Z.of_nat (length (x :: l))). assert (0 < n) as Hn by (unfold n; simpl; lia).
    rewrite (proj2 (Z.eqb_neq n 0)), (proj2 (Z.ltb_lt 0 n)) by lia.
    unfold try_bind, phy_drivers_register, mbind, M_bind, mret, M_ret, get, put, result_into, result_map_err. simpl.
    destruct (Z.leb_spec n I32_MAX); [|eexists _, s; split; [reflexivity|]; split; [done|by right; left]].
    unfold to_result. destruct (Z.ltb_spec (answer s addr n) 0); [eexists _, s; split; [reflexivity|]; split; [done|right; right; by exists (answer s addr n)]|].
    eexists _, _. split; [reflexivity|]. split_and!; [done|done|done|done|done|].
    unfold phy_registration_drop, slice_first, phy_drivers_unregister, mbind, M_bind, mret, M_ret, get, put. cbn [fst snd].
    change (Z.of_nat (length (x :: l))) with n.
    rewrite (proj2 (Z.ltb_lt 0 n)) by lia. unfold sext. rewrite wrap_id by (unfold I32_MAX in *; lia).
    rewrite (proj2 (Z.ltb_lt _ _)) by (unfold I32_MAX in *; simpl; lia). rewrite bool_decide_true by by rewrite lookup_insert_eq.
    by rewrite delete_insert_id.
  - unfold device_table. by rewrite length_app, length_fmap.
  - intros i d Hi. unfold device_table. rewrite lookup_app_l by (rewrite length_fmap; by eapply lookup_lt_Some).
    by rewrite list_lookup_fmap, Hi.
  - unfold device_table. apply last_snoc.
Qed.

(** ** An instance: a PHY with MMD registers *)

Local Abbreviation Regs := (gmap (Z * Z) Z).

#[export] Instance phy_consts : PhyConsts := {|
  phy_state_PHY_DOWN := 0; phy_state_PHY_READY := 1; phy_state_PHY_HALTED := 2; phy_state_PHY_ERROR := 3;
  phy_state_PHY_UP := 4; phy_state_PHY_RUNNING := 5; phy_state_PHY_NOLINK := 6; phy_state_PHY_CABLETEST := 7;
  AUTONEG_ENABLE := 1; DUPLEX_FULL := 1; DUPLEX_HALF := 0; DUPLEX_UNKNOWN := 255
|}.

Definition reg_get (d n : Z) : M (PState Regs) Z :=
  s ← get; mret (match ps_kern s !! (d, n) with Some v => wrap 16 v | None => -6 end).
Definition reg_set (d n v : Z) : M (PState Regs) Z :=
  if d <? 32 then _ ← modify (λ s, MkPState (ps_devs s) (<[(d, n) := v]> (ps_kern s))); mret 0 else mret (-22).

(** Clause 22 is device 0 here; the PHY cannot suspend. *)
#[export] Instance reg_phy : PhyLib Regs := {|
  mdiobus_read _ _ n := reg_get 0 n;
  mdiobus_write _ _ n v := reg_set 0 n v;
  phy_read_mmd _ d n := reg_get d n;
  phy_write_mmd _ d n v := reg_set d n v;
  phy_read_paged _ page n := reg_get page n;
  phy_resolve_aneg_linkmode _ := mret tt;
  c_genphy_soft_reset _ := reg_set 0 0 0x8000;
  phy_init_hw _ := mret 0;
  _phy_start_aneg _ := reg_set 0 0 0x1200;
  c_genphy_resume _ := mret 0;
  c_genphy_suspend _ := mret (-95);
  c_genphy_read_status _ := reg_get 0 1;
  c_genphy_c45_read_status _ := reg_get 1 1;
  c_genphy_update_link _ := reg_get 0 1;
  c_genphy_read_lpa _ := reg_get 0 5;
  c_genphy_read_abilities _ := reg_get 0 15
|}.

Lemma reg_get_answers d n hi : 2 ^ 16 - 1 ≤ hi → answers hi (reg_get d n).
Proof.
  intros Hhi s r s'. unfold reg_get, mbind, M_bind, mret, M_ret, get. simpl. intros [= <- _]. unfold MAX_ERRNO.
  destruct (_ !! _) as [v|]; [|lia]. pose proof (Z.mod_pos_bound v (2 ^ 16)). unfold wrap. lia.
Qed.

Lemma reg_set_answers d n v : answers I32_MAX (reg_set d n v).
Proof.
  intros s r s'. unfold reg_set, mbind, M_bind, mret, M_ret, modify, MAX_ERRNO, I32_MAX.
  destruct (d <? 32); intros [= <- _]; lia.
Qed.

Lemma const_answers {S} c : - MAX_ERRNO ≤ c ≤ I32_MAX → answers I32_MAX (mret c : M S Z).
Proof. intros Hc s r s' [= <- _]. done. Qed.

#[export] Instance reg_phy_ok : PhyLibSpec Regs.
Proof.
  split; intros; simpl;
    first [apply reg_get_answers; unfold I32_MAX; lia|apply reg_set_answers|apply const_answers; unfold MAX_ERRNO, I32_MAX; lia].
Qed.

Definition demo_phy : PState Regs := MkPState ∅ {[ (3, 7) := 0xabcd ]}.

Example demo_phy_runs :
  let T := create_phy_driver (generic_driver (K:=Regs) 0 (new_with_model_mask 0x12345678)) in
  (f ← pd_read_mmd T; Some (fst <$> match f 8 3 7 demo_phy with Done x => Some x | _ => None end)) = Some (Some 0xabcd) ∧
  (f ← pd_read_mmd T; Some (fst <$> match f 8 3 9 demo_phy with Done x => Some x | _ => None end)) = Some (Some (-6)) ∧
  (f ← pd_write_mmd T; Some (fst <$> match f 8 40 9 1 demo_phy with Done x => Some x | _ => None end)) = Some (Some (-22)) ∧
  (f ← pd_suspend T; Some (fst <$> match f 8 demo_phy with Done x => Some x | _ => None end)) = Some (Some (-95)) ∧
  id_matches 0x1234567f (pd_phy_id T) (pd_phy_id_mask T) = true ∧ id_matches 0x12345688 (pd_phy_id T) (pd_phy_id_mask T) = false.
Proof. vm_compute. split_and!; reflexivity. Qed.


Lemma phy_module_lifecycle_witness :
  ∃ r s', phy_module_init (λ _ _ _, 0) 64 [generic_driver (K:=Regs) 0 (new_with_exact_mask 1)] ∅ = Done (r, s').
Proof.
  destruct (phy_module_lifecycle (λ _ _ _, 0) 64 [generic_driver (K:=Regs) 0 (new_with_exact_mask 1)] [] ∅ (lookup_empty 64))
    as [(r & s' & Hr & _) _]. exists r, s'. exact Hr.
Defined.
