(* ===== verification/Print.v ===== *)
(** * Printing ([rust/src/print.rs], [err] and [info] of [rust/src/kunit.rs])

    A message goes to C as a fixed format string and the pointers for its directives; the shim
    [rs__printk] passes them on to the kernel's [_printk], which calls [rust_fmt_argument] for [%pA].
    [render] is the documented meaning of the directives that the format strings use. *)

From S2P Require Import Prelude Errors Alloc KVec Str.

#[local] Existing Instance u8_type.

(** ** Format strings *)

Definition KERN_EMERG : list Z := [0x01; 48; 0].
Definition KERN_ALERT : list Z := [0x01; 49; 0].
Definition KERN_CRIT : list Z := [0x01; 50; 0].
Definition KERN_ERR : list Z := [0x01; 51; 0].
Definition KERN_WARNING : list Z := [0x01; 52; 0].
Definition KERN_NOTICE : list Z := [0x01; 53; 0].
Definition KERN_INFO : list Z := [0x01; 54; 0].
Definition KERN_DEBUG : list Z := [0x01; 55; 0].
Definition KERN_CONT : list Z := [0x01; 99; 0].

Definition LENGTH_PREFIX : nat := 2.
Definition LENGTH : nat := 10.

(** A failing assertion is a build error: [None]. *)
Definition generate (is_cont : bool) (prefix : list Z) : option (list Z) :=
  match prefix with
  | [p0; p1; p2] =>
      if negb (p0 =? 0x01) then None
      else if negb (if is_cont then p1 =? 99 else (48 <=? p1) && (p1 <=? 55)) then None
      else if negb (p2 =? 0) then None
      else
        let suffix := if is_cont then [37; 112; 65; 0; 0; 0; 0; 0] else [37; 115; 58; 32; 37; 112; 65; 0] in
        Some (p0 :: p1 :: suffix)
  | _ => None
  end.

(** The statics; that they are generated is part of the theorem below. *)
Definition EMERG : list Z := default [] (generate false KERN_EMERG).
Definition ALERT : list Z := default [] (generate false KERN_ALERT).
Definition CRIT : list Z := default [] (generate false KERN_CRIT).
Definition ERR : list Z := default [] (generate false KERN_ERR).
Definition WARNING : list Z := default [] (generate false KERN_WARNING).
Definition NOTICE : list Z := default [] (generate false KERN_NOTICE).
Definition INFO : list Z := default [] (generate false KERN_INFO).
Definition DEBUG : list Z := default [] (generate false KERN_DEBUG).
Definition CONT : list Z := default [] (generate true KERN_CONT).

(** ** Calls of [_printk] *)

(** A pointer that is passed: to a C string, to [fmt::Arguments], or null. *)
Inductive VArg := AStr (bytes : list Z) | AArgs (a : Arguments) | ANull.

Record PrintkCall := MkCall { c_format : list Z; c_args : list VArg }.

Section Print.
(** [CONFIG_PRINTK], and [cfg!(debug_assertions)]. *)
Context (CONFIG_PRINTK debug_assertions : bool).

Definition call_printk (format_string module_name : list Z) (args : Arguments) : list PrintkCall :=
  if CONFIG_PRINTK then [MkCall format_string [AStr module_name; AArgs args]] else [].

Definition call_printk_cont (args : Arguments) : list PrintkCall :=
  if CONFIG_PRINTK then [MkCall CONT [ANull; AArgs args]] else [].

Definition print_macro (format_string : list Z) (is_cont : bool) (LOG_PREFIX : list Z) (args : Arguments) : list PrintkCall :=
  if is_cont then call_printk_cont args else call_printk format_string LOG_PREFIX args.

Definition pr_emerg (LOG_PREFIX : list Z) (args : Arguments) := print_macro EMERG false LOG_PREFIX args.
Definition pr_alert (LOG_PREFIX : list Z) (args : Arguments) := print_macro ALERT false LOG_PREFIX args.
Definition pr_crit (LOG_PREFIX : list Z) (args : Arguments) := print_macro CRIT false LOG_PREFIX args.
Definition pr_err (LOG_PREFIX : list Z) (args : Arguments) := print_macro ERR false LOG_PREFIX args.
Definition pr_warn (LOG_PREFIX : list Z) (args : Arguments) := print_macro WARNING false LOG_PREFIX args.
Definition pr_notice (LOG_PREFIX : list Z) (args : Arguments) := print_macro NOTICE false LOG_PREFIX args.
Definition pr_info (LOG_PREFIX : list Z) (args : Arguments) := print_macro INFO false LOG_PREFIX args.
Definition pr_debug (LOG_PREFIX : list Z) (args : Arguments) :=
  if debug_assertions then print_macro DEBUG false LOG_PREFIX args else [].
Definition pr_cont (LOG_PREFIX : list Z) (args : Arguments) := print_macro CONT true LOG_PREFIX args.

(** [err] and [info] of KUnit: one pointer only. *)
Definition kunit_err (args : Arguments) : list PrintkCall :=
  if CONFIG_PRINTK then [MkCall [1; 51; 37; 112; 65; 0] [AArgs args]] else [].
Definition kunit_info (args : Arguments) : list PrintkCall :=
  if CONFIG_PRINTK then [MkCall [1; 54; 37; 112; 65; 0] [AArgs args]] else [].
End Print.

(** ** The callback of [%pA] *)

Section Fmt.
Context {AL : Allocator Z}.
Local Abbreviation VM := (M (St Z Vec)).

(** [blk] is the allocation that the kernel's buffer is in. *)
Definition from_ptrs (pos end_ blk : Z) : RawFormatter := MkRawFormatter pos pos end_ blk.

(** [args_at]: where [fmt::Arguments] live. *)
Definition rust_fmt_argument (args_at : Z → option Arguments) (buf end_ blk ptr : Z) : VM Z :=
  let w := from_ptrs buf end_ blk in
  match args_at ptr with
  | None => ub
  | Some a => out ← write_fmt raw_write_str w a; mret (fpos (fst out))
  end.
End Fmt.

(** ** What the kernel prints *)

(** The bytes of a C string before its terminator. *)
Fixpoint c_text (bytes : list Z) : option (list Z) :=
  match bytes with
  | [] => None
  | b :: bs => if b =? 0 then Some [] else cons b <$> c_text bs
  end.

(** A format string without a terminator, a directive of another kind, and an argument of
    the wrong kind have no meaning. *)
Fixpoint render (fmt : list Z) (args : list VArg) : option (list Z) :=
  match fmt with
  | [] => None
  | c :: f =>
      if c =? 0 then Some []
      else if c =? 37 then
        match f with
        | d :: f =>
            if d =? 115 then
              match args with AStr s :: args => t ← c_text s; app t <$> render f args | _ => None end
            else if d =? 112 then
              match f with
              | e :: f => if e =? 65 then match args with AArgs a :: args => app (text a) <$> render f args | _ => None end else None
              | [] => None
              end
            else None
        | [] => None
        end
      else cons c <$> render f args
  end.

Definition printed (cs : list PrintkCall) : option (list (list Z)) := mapM (λ c, render (c_format c) (c_args c)) cs.

(** ** Theorems *)

Lemma c_text_app name : 0 ∉ name → c_text (name ++ [0]) = Some name.
Proof.
  induction name as [|b name IH]; intros H0; [done|]. cbn [app c_text]. rewrite not_elem_of_cons in H0. destruct H0 as [Hb H0].
  rewrite (proj2 (Z.eqb_neq b 0)) by congruence. by rewrite IH.
Qed.

(** The macros and the digits of their levels. *)
Definition levels : list (Z * (bool → list Z → Arguments → list PrintkCall)) :=
  [(48, pr_emerg); (49, pr_alert); (50, pr_crit); (51, pr_err); (52, pr_warn); (53, pr_notice); (54, pr_info);
   (55, λ cfg, pr_debug cfg true)].

Lemma printed_level lvl name a : 0 ∉ name → lvl ≠ 0 → lvl ≠ 37 →
  printed [MkCall [1; lvl; 37; 115; 58; 32; 37; 112; 65; 0] [AStr (name ++ [0]); AArgs a]] =
    Some [1 :: lvl :: name ++ [58; 32] ++ text a].
Proof.
  intros Hn H0 H37. unfold printed. cbn [mapM c_format c_args render].
  rewrite (proj2 (Z.eqb_neq _ _) H0), (proj2 (Z.eqb_neq _ _) H37), c_text_app by done. simpl. by rewrite app_nil_r.
Qed.

(** *** The bounds of the buffer *)

(** [xs] in the cells from [i] on. *)
Fixpoint put (d : gmap Z Z) (i : Z) (xs : list Z) : gmap Z Z :=
  match xs with [] => d | x :: xs => put (<[i := x]> d) (i + 1) xs end.

Definition fill (i : Z) (xs : list Z) (b : block Z) : block Z := Block (bsize b) (put (bdata b) i xs).

Lemma put_app xs : ∀ ys d i, put d i (xs ++ ys) = put (put d i xs) (i + Z.of_nat (length xs)) ys.
Proof.
  induction xs as [|x xs IH]; intros ys d i; cbn [app put length]; [by rewrite Z.add_0_r|].
  rewrite IH. f_equal. lia.
Qed.

Lemma put_lookup_lt xs : ∀ d i j, j < i → put d i xs !! j = d !! j.
Proof.
  induction xs as [|x xs IH]; intros d i j Hj; cbn [put]; [done|].
  rewrite IH by lia. apply lookup_insert_ne. lia.
Qed.

Lemma put_lookup xs : ∀ d i j, put d i xs !! j =
  if decide (i ≤ j < i + Z.of_nat (length xs)) then xs !! Z.to_nat (j - i) else d !! j.
Proof.
  induction xs as [|x xs IH]; intros d i j; cbn [put length].
  - by rewrite decide_False by lia.
  - rewrite IH. destruct (decide (j = i)) as [->|Hne].
    + rewrite decide_False, decide_True by lia. by rewrite lookup_insert_eq, Z.sub_diag.
    + rewrite lookup_insert_ne by done. case_decide; [|by rewrite decide_False by lia].
      rewrite decide_True by lia. replace (Z.to_nat (j - i)) with (S (Z.to_nat (j - (i + 1)))) by lia. done.
Qed.

Lemma fill_app i xs ys b : fill i (xs ++ ys) b = fill (i + Z.of_nat (length xs)) ys (fill i xs b).
Proof. unfold fill. simpl. by rewrite put_app. Qed.

Lemma write_slots_fill xs : ∀ (s : St Z Vec) p i b, hp s !! p = Some b → 0 ≤ i → i + Z.of_nat (length xs) ≤ bsize b →
  write_slots p i xs s = Done (tt, set_hp (<[p := fill i xs b]> (hp s)) s).
Proof.
  induction xs as [|x xs IH]; intros s p i b Hb Hi Hle; cbn [write_slots length] in *.
  - destruct s as [h o d]. unfold fill. simpl in *. rewrite insert_id by (by destruct b). done.
  - unfold write, write_at, mbind, M_bind, get, lift, modify, off, in_bounds. simpl. rewrite Hb.
    rewrite Z.mul_1_r, (proj2 (Z.leb_le 0 i)), (proj2 (Z.leb_le (i + 1) _)) by lia. simpl.
    rewrite (IH _ p (i + 1) (fill i [x] b)); [|simpl; by rewrite lookup_insert_eq|lia|simpl; lia].
    unfold set_hp. simpl. rewrite insert_insert_eq. by unfold fill.
Qed.

Lemma write_slots_alter xs (s : St Z Vec) p i b : hp s !! p = Some b → 0 ≤ i → i + Z.of_nat (length xs) ≤ bsize b →
  write_slots p i xs s = Done (tt, set_hp (alter (fill i xs) p (hp s)) s).
Proof. intros Hb Hi Hle. rewrite (write_slots_fill _ _ _ _ b) by done. by rewrite (alter_alt_Some _ _ _ _ Hb). Qed.

Section Bounded.
Context {AL : Allocator Z}.
Variables (s : St Z Vec) (buf end_ blk : Z).

(** What the kernel passes: an interval inside of its buffer, or none. *)
Definition room : Prop :=
  is_usize buf ∧ is_usize end_ ∧
  (end_ ≤ buf ∨ ∃ b, hp s !! blk = Some b ∧ blk ≤ buf ∧ end_ ≤ blk + bsize b).

(** Formatter and memory after the bytes of [w]. *)
Definition at_bytes (w : list Z) : RawFormatter := MkRawFormatter buf (saturating_add buf (Z.of_nat (length w))) end_ blk.
Definition with_bytes (w : list Z) : St Z Vec :=
  set_hp (alter (fill (buf - blk) (take (Z.to_nat (end_ - buf)) w)) blk (hp s)) s.

Lemma raw_write_str_bounded w c : room →
  raw_write_str (at_bytes w) c (with_bytes w) = Done ((at_bytes (w ++ c), Ok tt), with_bytes (w ++ c)).
Proof.
  intros (Hb & He & Hr). unfold is_usize in *. unfold raw_write_str, at_bytes. cbn [fbeg fpos fend fblk].
  set (pos := saturating_add buf (Z.of_nat (length w))).
  assert (saturating_add pos (Z.of_nat (length c)) = saturating_add buf (Z.of_nat (length (w ++ c)))) as ->.
  { unfold pos, saturating_add. rewrite length_app. lia. }
  set (k := Z.to_nat (saturating_sub (Z.min (saturating_add buf (Z.of_nat (length (w ++ c)))) end_) pos)).
  assert (k = Nat.min (length c) (Z.to_nat (end_ - buf) - length w)) as Hk.
  { unfold k, pos, saturating_sub, saturating_add. rewrite length_app. lia. }
  assert (take (Z.to_nat (end_ - buf)) (w ++ c) = take (Z.to_nat (end_ - buf)) w ++ take k c) as Ht.
  { rewrite take_app, Hk. f_equal. destruct (decide (length c ≤ Z.to_nat (end_ - buf) - length w)%nat).
    - rewrite !take_ge by lia. done.
    - f_equal. lia. }
  unfold mbind, M_bind. destruct (Z.ltb_spec 0 (saturating_sub (Z.min (saturating_add buf (Z.of_nat (length (w ++ c)))) end_) pos)) as [Hlt|Hle].
  - destruct Hr as [Hr|(b & Hblk & Hlo & Hhi)]; [unfold k in Hk; lia|].
    assert (k <= length c ∧ k + length w <= Z.to_nat (end_ - buf))%nat as [Hkc Hkw] by (unfold k in *; lia).
    rewrite (write_slots_alter _ _ _ _ (fill (buf - blk) (take (Z.to_nat (end_ - buf)) w) b)).
    + unfold with_bytes, set_hp. cbn [hp obj dropped]. rewrite alter_alter_eq. unfold mret, M_ret. do 3 f_equal.
      apply alter_ext. intros b' _. rewrite Ht, fill_app, length_take. cbn. f_equal.
      unfold pos, saturating_add. lia.
    + unfold with_bytes. cbn [set_hp hp]. by rewrite lookup_alter_eq, Hblk.
    + unfold pos, saturating_add. lia.
    + cbn [fill bsize]. rewrite length_take. unfold pos, saturating_add. lia.
  - assert (k = 0%nat) as Hk0 by (unfold k; lia).
    unfold with_bytes, mret, M_ret. by rewrite Ht, Hk0, take_0, app_nil_r.
Qed.

Lemma write_chunks_bounded cs : ∀ w, room →
  write_chunks raw_write_str (at_bytes w) cs (with_bytes w) =
    Done ((at_bytes (w ++ concat cs), Ok tt), with_bytes (w ++ concat cs)).
Proof.
  induction cs as [|c cs IH]; intros w Hr; cbn [write_chunks concat]; [by rewrite app_nil_r|].
  unfold mbind, M_bind. rewrite raw_write_str_bounded by done. cbn [snd fst]. rewrite IH by done. by rewrite app_assoc.
Qed.

(** The callback of [%pA] keeps the contract of [vsnprintf]. For any message, whether its
    formatting succeeds or not, and any buffer that the kernel passes, also one that is full
    already or empty, it is defined, stores the bytes of the message that fit in front of the end
    and nothing else, and returns where the whole message would have ended, without wrapping. *)
Theorem rust_fmt_argument_bounded (args_at : Z → option Arguments) (ptr : Z) (a : Arguments)
    (Ha : args_at ptr = Some a) (Hr : room) :
  rust_fmt_argument args_at buf end_ blk ptr s =
    Done (saturating_add buf (Z.of_nat (length (text a))), with_bytes (text a)) ∧
  (∀ p i, match hp (with_bytes (text a)) !! p, hp s !! p with
    | Some b', Some b => bsize b' = bsize b ∧
        bdata b' !! i = if decide (p = blk ∧ buf ≤ blk + i < end_ ∧ blk + i < buf + Z.of_nat (length (text a)))
                        then text a !! Z.to_nat (blk + i - buf) else bdata b !! i
    | None, None => True
    | _, _ => False
    end).
Proof.
  split.
  - assert (from_ptrs buf end_ blk = at_bytes []) as E.
    { unfold from_ptrs, at_bytes, saturating_add. f_equal. destruct Hr as [[??] _]. simpl. lia. }
    assert (s = with_bytes []) as Es.
    { unfold with_bytes. rewrite take_nil, alter_id; [by destruct s|]. by intros []. }
    unfold rust_fmt_argument, write_fmt. rewrite Ha, E. rewrite Es at 1. unfold mbind, M_bind.
    rewrite write_chunks_bounded by done. by destruct (aok a).
  - intros p i. unfold with_bytes. cbn [set_hp hp]. destruct (decide (p = blk)) as [->|Hne].
    + rewrite lookup_alter_eq. destruct (hp s !! blk) as [b|]; [|done]. simpl. split; [done|].
      rewrite put_lookup, length_take. repeat case_decide; try lia; [|done].
      rewrite lookup_take_lt by lia. f_equal. lia.
    + rewrite lookup_alter_ne by done. destruct (hp s !! p) as [b|]; [|done]. split; [done|].
      by rewrite decide_False by tauto.
Qed.
End Bounded.

(** Every print macro prints its message. The format strings pass their build assertions,
    have the fixed length and a terminator. For every module name and every message, each of
    the macros makes exactly one call when [CONFIG_PRINTK] is set and none otherwise, whose format
    string and pointers agree; what is printed is the level, the name of the module, a colon and the
    message. [pr_debug] prints nothing without debug assertions; the messages of KUnit have no name. *)
Theorem print_macros_render (cfg : bool) (name : list Z) (a : Arguments) (Hn : 0 ∉ name) :
  Forall (λ p, ∃ f, generate false p = Some f ∧ length f = LENGTH ∧ last f = Some 0)
    [KERN_EMERG; KERN_ALERT; KERN_CRIT; KERN_ERR; KERN_WARNING; KERN_NOTICE; KERN_INFO; KERN_DEBUG] ∧
  (∃ f, generate true KERN_CONT = Some f ∧ length f = LENGTH ∧ last f = Some 0) ∧
  Forall (λ '(lvl, pr), printed (pr cfg (name ++ [0]) a) =
    Some (if cfg then [1 :: lvl :: name ++ [58; 32] ++ text a] else [])) levels ∧
  pr_debug cfg false (name ++ [0]) a = [] ∧
  printed (kunit_err cfg a) = Some (if cfg then [1 :: 51 :: text a] else []) ∧
  printed (kunit_info cfg a) = Some (if cfg then [1 :: 54 :: text a] else []).
Proof.
  split_and!.
  - repeat (apply Forall_cons_2; [eexists; split_and!; reflexivity|]). apply Forall_nil_2.
  - eexists. split_and!; reflexivity.
  - unfold levels. destruct cfg; [|repeat (apply Forall_cons_2; [reflexivity|]); apply Forall_nil_2].
    repeat (apply Forall_cons_2; [by apply (printed_level _ name a Hn)|]). apply Forall_nil_2.
  - done.
  - destruct cfg; [|done]. unfold printed. simpl. by rewrite app_nil_r.
  - destruct cfg; [|done]. unfold printed. simpl. by rewrite app_nil_r.
Qed.

(** [pr_cont!] passes a null pointer before its message: the only directive of its format
    string is [%pA], which gets the null pointer. *)
Lemma pr_cont_prints_null (name : list Z) (a : Arguments) :
  pr_cont true name a = [MkCall [1; 99; 37; 112; 65; 0; 0; 0; 0; 0] [ANull; AArgs a]] ∧
  printed (pr_cont true name a) = None ∧
  render CONT [AArgs a] = Some (1 :: 99 :: text a).
Proof. split_and!; [done|done|]. simpl. by rewrite app_nil_r. Qed.


(** ** Witnesses *)

Lemma print_macros_render_witness :
  let a := MkArguments [[104; 105]] true in
  Forall (λ '(lvl, pr), printed (pr true ([109; 121] ++ [0]) a) = Some [1 :: lvl :: [109; 121] ++ [58; 32] ++ text a]) levels.
Proof. apply (print_macros_render true [109; 121] (MkArguments [[104; 105]] true)). apply (bool_decide_unpack _); vm_compute; exact I. Defined.

(** Three bytes of room for five bytes of message, behind two bytes of a buffer of eight. *)
Lemma rust_fmt_argument_bounded_witness :
  let s := MkSt {[4096 := Block 8 ∅]} (new Z) [] in
  let a := MkArguments [[104; 101]; [108; 108; 111]] false in
  rust_fmt_argument (λ _, Some a) 4098 4101 4096 1 s = Done (4103, with_bytes s 4098 4101 4096 [104; 101; 108; 108; 111]).
Proof.
  apply (rust_fmt_argument_bounded (MkSt {[4096 := Block 8 ∅]} (new Z) []) 4098 4101 4096
    (λ _, Some (MkArguments [[104; 101]; [108; 108; 111]] false)) 1 (MkArguments [[104; 101]; [108; 108; 111]] false)); [done|].
  split; [usize|]. split; [usize|]. right. eexists. split; [reflexivity|]. simpl. lia.
Defined.
