(* ===== verification/CStrings.v ===== *)
(** * More of C strings ([rust/src/str.rs])

    Views and indices of [BStr] and [CStr], the literal macros, strings that come from C, UTF-8, and
    copies in [CString]s. The type itself and formatting are in Str. *)

From Stdlib Require Import ZifyBool.

From S2P Require Import Prelude Errors Alloc KVec Str.

#[local] Existing Instance u8_type.
#[local] Existing Instance u8_type_ok.

(** ** Views *)

Definition bstr_len (s : list Z) : Z := Z.of_nat (length s).
Definition bstr_is_empty (s : list Z) : bool := bstr_len s =? 0.
Definition from_bytes (bytes : list Z) : list Z := bytes.

(** [b_str!]; the literal has the bytes of its UTF-8 encoding. *)
Definition b_str (str : list Z) : list Z := from_bytes str.

Definition cstr_is_empty (s : list Z) : exec bool := exec_bind (cstr_len s) (λ n, Done (n =? 0)).
Definition as_bytes_with_nul (s : list Z) : list Z := s.
Definition as_ref (s : list Z) : exec (list Z) := exec_bind (as_bytes s) (λ b, Done (from_bytes b)).

(** *** Indices

    [CStr] takes its indices to the bytes without the terminator, but for [..] and [n..]. *)

Inductive CStrIndex :=
| IAt (i : Z)                       (* [usize] *)
| IRange (a b : Z)                  (* [a..b] *)
| IRangeInclusive (a b : Z)         (* [a..=b] *)
| IRangeToInclusive (b : Z).        (* [..=b] *)

(** [Index] of slices. *)
Definition slice_range (s : list Z) (a b : Z) : exec (list Z) :=
  if (a <=? b) && (b <=? Z.of_nat (length s)) then Done (drop (Z.to_nat a) (take (Z.to_nat b) s)) else Panic.

Definition slice_index (s : list Z) (i : CStrIndex) : exec (list Z) :=
  match i with
  | IAt i => exec_bind (index_byte s i) (λ b, Done [b])
  | IRange a b => slice_range s a b
  | IRangeInclusive a b => exec_bind (uadd b 1) (slice_range s a)
  | IRangeToInclusive b => exec_bind (uadd b 1) (slice_range s 0)
  end.

Definition cstr_index (s : list Z) (i : CStrIndex) : exec (list Z) := exec_bind (as_ref s) (λ b, slice_index b i).
Definition cstr_index_full (s : list Z) : list Z := s.

(** [c_str!]: the match is evaluated at compile time, where a panic is an error. *)
Definition c_str (str : list Z) : option (list Z) :=
  match from_bytes_with_nul (str ++ [0]) with Done (Ok v) => Some v | _ => None end.

(** ** UTF-8: [core::str::from_utf8] *)

Definition between (lo hi b : Z) : bool := (lo <=? b) && (b <=? hi).
Definition cont (b : Z) : bool := between 0x80 0xBF b.

(** The second byte of a sequence of three and of four bytes. *)
Definition second3 (b0 b1 : Z) : bool :=
  if b0 =? 0xE0 then between 0xA0 0xBF b1
  else if b0 =? 0xED then between 0x80 0x9F b1
  else between 0xE1 0xEF b0 && cont b1.
Definition second4 (b0 b1 : Z) : bool :=
  if b0 =? 0xF0 then between 0x90 0xBF b1
  else if b0 =? 0xF4 then between 0x80 0x8F b1
  else between 0xF1 0xF3 b0 && cont b1.

Fixpoint decode (bs : list Z) : option (list Z) :=
  match bs with
  | [] => Some []
  | b0 :: r0 =>
      if b0 <? 0x80 then cons b0 <$> decode r0
      else
        match r0 with
        | b1 :: r1 =>
            if between 0xC2 0xDF b0 then
              if cont b1 then cons ((b0 - 0xC0) * 64 + (b1 - 0x80)) <$> decode r1 else None
            else
              match r1 with
              | b2 :: r2 =>
                  if between 0xE0 0xEF b0 then
                    if second3 b0 b1 && cont b2
                    then cons ((b0 - 0xE0) * 4096 + (b1 - 0x80) * 64 + (b2 - 0x80)) <$> decode r2 else None
                  else
                    match r2 with
                    | b3 :: r3 =>
                        if between 0xF0 0xF4 b0 && second4 b0 b1 && cont b2 && cont b3
                        then cons ((b0 - 0xF0) * 262144 + (b1 - 0x80) * 4096 + (b2 - 0x80) * 64 + (b3 - 0x80)) <$> decode r3
                        else None
                    | [] => None
                    end
              | [] => None
              end
        | [] => None
        end
  end.

Definition from_utf8 (bs : list Z) : result Utf8Error (list Z) :=
  match decode bs with Some _ => Ok bs | None => Err MkUtf8Error end.

Definition to_str (s : list Z) : exec (result Utf8Error (list Z)) := exec_bind (as_bytes s) (λ b, Done (from_utf8 b)).

(** A [str] that is not UTF-8 is undefined. *)
Definition as_str_unchecked (s : list Z) : exec (list Z) :=
  exec_bind (as_bytes s) (λ b, match from_utf8 b with Ok b => Done b | Err _ => UB end).

(** The encoding of scalar values. *)
Definition scalar (c : Z) : Prop := (0 ≤ c < 0xD800) ∨ (0xE000 ≤ c < 0x110000).

Definition encode_char (c : Z) : list Z :=
  if c <? 0x80 then [c]
  else if c <? 0x800 then [0xC0 + c / 64; 0x80 + c mod 64]
  else if c <? 0x10000 then [0xE0 + c / 4096; 0x80 + c / 64 mod 64; 0x80 + c mod 64]
  else [0xF0 + c / 262144; 0x80 + c / 4096 mod 64; 0x80 + c / 64 mod 64; 0x80 + c mod 64].

Definition encode (cs : list Z) : list Z := cs ≫= encode_char.

(** The digits of a number to the base 64, and the digits of such a sum. *)
Lemma digits3 c : 0 ≤ c → ∃ a b d, c = a * 4096 + b * 64 + d ∧ 0 ≤ a ∧ 0 ≤ b < 64 ∧ 0 ≤ d < 64 ∧
  c / 4096 = a ∧ c / 64 mod 64 = b ∧ c mod 64 = d.
Proof.
  intros Hc. exists (c / 4096), (c / 64 mod 64), (c mod 64).
  change 4096 with (64 * 64). rewrite <- Z.div_div by lia. split_and!; try done; Z.to_euclidean_division_equations; lia.
Qed.

Lemma digits3_of a b d : 0 ≤ b < 64 → 0 ≤ d < 64 →
  (a * 4096 + b * 64 + d) / 4096 = a ∧ (a * 4096 + b * 64 + d) / 64 mod 64 = b ∧ (a * 4096 + b * 64 + d) mod 64 = d.
Proof. intros Hb Hd. split_and!; Z.to_euclidean_division_equations; lia. Qed.

(** Decides a comparison of bytes, with the quotients written out. *)
Ltac byte_lia :=
  unfold second3, second4, cont, between in *; repeat case_match; Z.to_euclidean_division_equations; lia.

Lemma decode_encode_char c rest : scalar c → decode (encode_char c ++ rest) = cons c <$> decode rest.
Proof.
  intros Hc. unfold encode_char. unfold scalar in Hc.
  destruct (Z.ltb_spec c 0x80); [|destruct (Z.ltb_spec c 0x800); [|destruct (Z.ltb_spec c 0x10000)]]; cbn [app decode].
  - by rewrite (proj2 (Z.ltb_lt _ _)) by lia.
  - rewrite (proj2 (Z.ltb_ge _ _)) by byte_lia.
    replace (between 0xC2 0xDF (0xC0 + c / 64)) with true by byte_lia.
    replace (cont (0x80 + c mod 64)) with true by byte_lia. do 2 f_equal. byte_lia.
  - destruct (digits3 c) as (a & b & d & -> & Ha & Hb & Hd & -> & -> & ->); [lia|].
    rewrite (proj2 (Z.ltb_ge _ _)) by byte_lia.
    replace (between 0xC2 0xDF (0xE0 + a)) with false by byte_lia.
    replace (between 0xE0 0xEF (0xE0 + a)) with true by byte_lia.
    replace (second3 (0xE0 + a) (0x80 + b)) with true by byte_lia.
    replace (cont (0x80 + d)) with true by byte_lia. cbn [andb]. do 2 f_equal. byte_lia.
  - change 262144 with (4096 * 64). rewrite <- Z.div_div by lia.
    destruct (digits3 c) as (a & b & d & -> & Ha & Hb & Hd & -> & -> & ->); [lia|].
    rewrite (proj2 (Z.ltb_ge _ _)) by byte_lia.
    replace (between 0xC2 0xDF (0xF0 + a / 64)) with false by byte_lia.
    replace (between 0xE0 0xEF (0xF0 + a / 64)) with false by byte_lia.
    replace (between 0xF0 0xF4 (0xF0 + a / 64)) with true by byte_lia.
    replace (second4 (0xF0 + a / 64) (0x80 + a mod 64)) with true by byte_lia.
    replace (cont (0x80 + b)) with true by byte_lia.
    replace (cont (0x80 + d)) with true by byte_lia. cbn [andb]. do 2 f_equal. byte_lia.
Qed.

(** What is decoded is a scalar value with that encoding: no surrogate and no longer encoding is accepted. *)
Lemma encode_two b0 b1 : between 0xC2 0xDF b0 = true → cont b1 = true →
  let c := (b0 - 0xC0) * 64 + (b1 - 0x80) in scalar c ∧ encode_char c = [b0; b1].
Proof.
  intros H0 H1 c. assert (0x80 ≤ c < 0x800) as Hc by (unfold c; byte_lia). split; [left; lia|].
  unfold encode_char. rewrite (proj2 (Z.ltb_ge _ _)), (proj2 (Z.ltb_lt _ _)) by lia.
  unfold c. repeat f_equal; byte_lia.
Qed.

Lemma encode_three b0 b1 b2 : between 0xE0 0xEF b0 = true → second3 b0 b1 = true → cont b2 = true →
  let c := (b0 - 0xE0) * 4096 + (b1 - 0x80) * 64 + (b2 - 0x80) in scalar c ∧ encode_char c = [b0; b1; b2].
Proof.
  intros H0 H1 H2 c. assert (0x800 ≤ c < 0x10000 ∧ scalar c ∧ cont b1 = true) as (Hc & Hs & H1') by (unfold c, scalar; byte_lia).
  split; [done|]. unfold encode_char. rewrite !(proj2 (Z.ltb_ge _ _)), (proj2 (Z.ltb_lt _ _)) by lia.
  clear Hs H1. unfold c. repeat f_equal; byte_lia.
Qed.

Lemma encode_four b0 b1 b2 b3 : between 0xF0 0xF4 b0 = true → second4 b0 b1 = true → cont b2 = true → cont b3 = true →
  let c := (b0 - 0xF0) * 262144 + (b1 - 0x80) * 4096 + (b2 - 0x80) * 64 + (b3 - 0x80) in
  scalar c ∧ encode_char c = [b0; b1; b2; b3].
Proof.
  intros H0 H1 H2 H3 c. assert (0x10000 ≤ c < 0x110000 ∧ cont b1 = true) as (Hc & H1') by (unfold c; byte_lia).
  split; [right; lia|]. unfold encode_char. rewrite !(proj2 (Z.ltb_ge _ _)) by lia.
  clear H1. unfold c. repeat f_equal; byte_lia.
Qed.

Lemma decode_sound n : ∀ bs cs, (length bs ≤ n)%nat → Forall is_byte bs → decode bs = Some cs →
  Forall scalar cs ∧ encode cs = bs.
Proof.
  induction n as [|n IH]; intros bs cs Hn Hb Hd.
  { destruct bs; [|simpl in Hn; lia]. by injection Hd as <-. }
  assert (∀ c w r, bs = w ++ r → scalar c ∧ encode_char c = w → (0 < length w)%nat → cons c <$> decode r = Some cs →
    Forall scalar cs ∧ encode cs = bs) as Hstep.
  { intros c w r -> [Hs He] Hw Hr. apply fmap_Some in Hr as (cs' & Hr & ->). rewrite length_app in Hn.
    apply Forall_app in Hb as [_ Hb]. destruct (IH r cs') as [Hcs Henc]; [lia|done|done|]. split; [by constructor|].
    unfold encode in *. cbn [mbind list_bind]. by rewrite He, Henc. }
  destruct bs as [|b0 r0]; [by injection Hd as <-|]. cbn [decode] in Hd. inversion_clear Hb as [|?? Hb0 Hb'].
  destruct (Z.ltb_spec b0 0x80).
  { apply (Hstep b0 [b0] r0); [done| |simpl; lia|done]. unfold is_byte in Hb0. split; [left; lia|]. unfold encode_char.
    by rewrite (proj2 (Z.ltb_lt _ _)) by lia. }
  destruct r0 as [|b1 r1]; [done|]. destruct (between 0xC2 0xDF b0) eqn:E2.
  { destruct (cont b1) eqn:Ec; [|done]. eapply (Hstep _ [b0; b1] r1); [done|by apply encode_two|simpl; lia|exact Hd]. }
  destruct r1 as [|b2 r2]; [done|]. destruct (between 0xE0 0xEF b0) eqn:E3.
  { destruct (second3 b0 b1) eqn:Es, (cont b2) eqn:Ec; try done.
    eapply (Hstep _ [b0; b1; b2] r2); [done|by apply encode_three|simpl; lia|exact Hd]. }
  destruct r2 as [|b3 r3]; [done|].
  destruct (between 0xF0 0xF4 b0) eqn:E4, (second4 b0 b1) eqn:Es, (cont b2) eqn:Ec2, (cont b3) eqn:Ec3; try done.
  eapply (Hstep _ [b0; b1; b2; b3] r3); [done|by apply encode_four|simpl; lia|exact Hd].
Qed.

Lemma decode_encode cs : Forall scalar cs → decode (encode cs) = Some cs.
Proof.
  induction 1 as [|c cs Hc _ IH]; [done|]. unfold encode in *. cbn [mbind list_bind].
  by rewrite decode_encode_char, IH.
Qed.

(** ** Strings that come from C *)

Section Foreign.
Context {AL : Allocator Z}.
Local Abbreviation VM := (M (St Z Vec)).

(** [slice::from_raw_parts], as the bytes that it denotes; the pointer is an offset in a block. *)
Fixpoint read_bytes (p o : Z) (n : nat) : VM (list Z) :=
  match n with
  | O => mret []
  | S n => x ← read p o; xs ← read_bytes p (o + 1) n; mret (x :: xs)
  end.

(** [strlen] of the string at an offset of a block. *)
Definition from_char_ptr (strlen : gmap Z (block Z) → Z → Z → Z) (p o : Z) : VM (list Z) :=
  s ← get;
  len ← lift (uadd (strlen (hp s) p o) 1);
  read_bytes p o (Z.to_nat len).

(** ** Copies *)

Definition to_cstring (s : list Z) : VM (result AllocError unit) := cstring_try_from s.

(** [CStr::make_ascii_lowercase] and [make_ascii_uppercase] on the bytes that [DerefMut] gives,
    terminator included. *)
Definition make_case (f : list Z → list Z) : VM unit :=
  v ← self;
  xs ← read_bytes (vptr v) 0 (Z.to_nat (vlen v));
  write_slots (vptr v) 0 (f xs).

Definition to_ascii_lowercase (s : list Z) : VM (result AllocError unit) :=
  _ ←? to_cstring s; _ ← make_case make_ascii_lowercase; mret (Ok tt).

Definition to_ascii_uppercase (s : list Z) : VM (result AllocError unit) :=
  _ ←? to_cstring s; _ ← make_case make_ascii_uppercase; mret (Ok tt).

(** *** Memory *)

Definition holds_at (h : gmap Z (block Z)) (p o : Z) (l : list Z) : Prop :=
  ∀ i x, l !! i = Some x → slot h p (o + Z.of_nat i) = Some x.

Lemma wp_read_bytes l : ∀ (s : St Z Vec) p o, holds_at (hp s) p o l →
  wp (read_bytes p o (length l)) (λ xs s', xs = l ∧ s' = s) s.
Proof.
  induction l as [|x l IH]; intros s p o Hl; cbn [read_bytes length]; [by apply wp_ret|].
  apply wp_bind. eapply (wp_read _ _ _ x).
  { rewrite <- (Z.add_0_r o). by apply (Hl 0%nat). }
  apply wp_bind. eapply wp_mono; [apply IH|].
  - intros i y Hy. replace (o + 1 + Z.of_nat i) with (o + Z.of_nat (S i)) by lia. by apply Hl.
  - intros xs s' [-> ->]. by apply wp_ret.
Qed.

(** What [strlen] finds is the string up to its first NUL, which is a C string. *)
Lemma from_char_ptr_ok strlen (s : St Z Vec) p o l :
  (∀ h p o l, holds_at h p o (l ++ [0]) → 0 ∉ l → strlen h p o = Z.of_nat (length l)) →
  holds_at (hp s) p o (l ++ [0]) → 0 ∉ l → Z.of_nat (length l) < USIZE_MAX →
  from_char_ptr strlen p o s = Done (l ++ [0], s) ∧ cstr_ok (l ++ [0]).
Proof.
  intros Hs Hl H0 Hn. split; [|by exists l]. apply wp_Done. unfold from_char_ptr. apply wp_bind, wp_get, wp_bind.
  rewrite (Hs _ _ _ _ Hl H0). eapply wp_lift; [apply uadd_ok; lia|].
  replace (Z.to_nat (Z.of_nat (length l) + 1)) with (length (l ++ [0])) by (rewrite length_app; simpl; lia).
  eapply wp_mono; [by apply wp_read_bytes|]. naive_solver.
Qed.

Context {ALs : AllocatorSpec Z}.

(** A copy, or nothing. *)
Definition copied (s : St Z Vec) (l : list Z) (r : result AllocError unit) (s' : St Z Vec) : Prop :=
  match r with Ok _ => vec_rep s' l ∧ rest s' = hp s | Err _ => hp s' = hp s end.

Lemma cstring_try_from_ok (s : St Z Vec) str : heap_ok (hp s) → is_usize (Z.of_nat (length str)) →
  wp (cstring_try_from str) (copied s str) s.
Proof.
  intros Hh Hn. unfold cstring_try_from. apply wp_bind. set (s1 := MkSt (hp s) (new Z) (dropped s)).
  assert (vec_rep s1 []) as Hr by (by apply new_rep). eexists _, s1. split; [done|].
  apply wp_bind. eapply wp_mono; [by apply (extend_from_slice_ok s1 [] id str)|]. intros [[]|e] s2.
  - intros (Hr2 & Hrest & _). apply wp_ret. split; [by rewrite list_fmap_id in Hr2|]. rewrite Hrest. apply new_rest.
  - intros ->. apply wp_bind. eapply (wp_vec_drop _ []); [done|]. intros s3 Hh3 _. apply wp_ret.
    unfold copied. rewrite Hh3. apply new_rest.
Qed.

Lemma make_case_ok (s : St Z Vec) l f : vec_rep s l → length (f l) = length l →
  wp (make_case f) (λ _ s', vec_rep s' (f l) ∧ rest s' = rest s) s.
Proof.
  intros Hr Hf. pose proof (rep_inv _ _ Hr) as Hi. unfold make_case. apply wp_bind, wp_self, wp_bind.
  rewrite (rep_len _ _ Hr), Nat2Z.id. eapply wp_mono; [apply (wp_read_bytes l)|].
  { intros i x Hx. pose proof (rep_cells _ _ Hr i x Hx) as Hc. simpl in Hc. unfold off in Hc. simpl in Hc.
    by rewrite Z.mul_1_r in Hc. }
  intros xs s' [-> ->]. pose proof (inv_len s Hi) as Hlen. rewrite (rep_len _ _ Hr) in Hlen.
  apply wp_write_slots; [done|lia|rewrite Hf; lia|]. intros s2 (Hi2 & Ho & _ & Hrest & Hc). split; [|done].
  split; [done|rewrite Ho, Hf; apply Hr|]. intros i x Hx. rewrite Hc. apply lookup_lt_Some in Hx as Hlt.
  rewrite decide_True by lia. by rewrite Z.sub_0_r, Nat2Z.id.
Qed.

Lemma case_cstr (f : Z → Z) str : (∀ b, f b = 0 ↔ b = 0) → cstr_ok str → cstr_ok (f <$> str).
Proof.
  intros Hf (l & -> & Hl). exists (f <$> l). rewrite fmap_app. cbn. rewrite (proj2 (Hf 0) eq_refl). split; [done|].
  intros (b & E & Hb)%list_elem_of_fmap. symmetry in E. apply Hf in E as ->. done.
Qed.
End Foreign.

(** Copies of C strings. [to_cstring], [to_ascii_lowercase] and [to_ascii_uppercase] make a
    new string with the bytes of the old one, with the case of ASCII letters changed and every other
    byte as it was; it is a C string again and nothing else on the heap changes. Or the
    allocation fails, and the heap is as before. *)
Theorem cstring_copies_correct {AL : Allocator Z} {ALs : AllocatorSpec Z} (s : St Z Vec) (str : list Z)
    (Hs : cstr_ok str) (Hh : heap_ok (hp s)) (Hn : is_usize (Z.of_nat (length str))) :
  Forall (λ '(f, op), ∃ r s', op str s = Done (r, s') ∧ copied s (f <$> str) r s' ∧ cstr_ok (f <$> str))
    [(id, to_cstring); (ascii_lower, to_ascii_lowercase); (ascii_upper, to_ascii_uppercase)].
Proof.
  assert (∀ f, (∀ b, f b = 0 ↔ b = 0) →
    wp (_ ←? to_cstring str; _ ← make_case (fmap f); mret (Ok tt)) (copied s (f <$> str)) s) as Hcase.
  { intros f Hf. apply wp_try. eapply wp_mono; [by apply cstring_try_from_ok|]. intros [[]|e] s1; [|done].
    intros [Hr Hrest]. apply wp_bind. eapply wp_mono; [apply (make_case_ok s1 str); [done|apply length_fmap]|].
    intros [] s2 [Hr2 Hrest2]. apply wp_ret. split; [done|congruence]. }
  assert (∀ b, ascii_lower b = 0 ↔ b = 0) as Hlo by (intros b; unfold ascii_lower; case_match; lia).
  assert (∀ b, ascii_upper b = 0 ↔ b = 0) as Hup by (intros b; unfold ascii_upper; case_match; lia).
  repeat apply Forall_cons_2; [..|apply Forall_nil_2].
  - destruct (cstring_try_from_ok s str Hh Hn) as (r & s' & Hd & Hc). exists r, s'. rewrite list_fmap_id. done.
  - destruct (Hcase _ Hlo) as (r & s' & Hd & Hc). exists r, s'. split_and!; [exact Hd|done|by apply case_cstr].
  - destruct (Hcase _ Hup) as (r & s' & Hd & Hc). exists r, s'. split_and!; [exact Hd|done|by apply case_cstr].
Qed.

(** [to_str] accepts exactly the C strings whose bytes are the UTF-8 encoding of a sequence
    of scalar values, which it determines: no surrogate, no longer encoding and no sequence that is cut
    off. *)
Theorem to_str_accepts_utf8 (str l : list Z) (Hs : str = l ++ [0]) (Hb : Forall is_byte l) :
  ∃ r, to_str str = Done r ∧ (∀ b, r = Ok b → b = l) ∧
    (r = Ok l ↔ ∃ cs, Forall scalar cs ∧ encode cs = l) ∧
    (∀ cs cs', Forall scalar cs → Forall scalar cs' → encode cs = encode cs' → cs = cs').
Proof.
  subst str. unfold to_str. rewrite cstr_as_bytes. cbn [exec_bind]. eexists. split; [done|]. unfold from_utf8. split_and!.
  - intros b. by destruct (decode l); intros [= <-].
  - destruct (decode l) as [cs|] eqn:E.
    + split; [|done]. intros _. exists cs. by apply (decode_sound (length l)).
    + split; [done|]. intros (cs & Hcs & <-). by rewrite decode_encode in E.
  - intros cs cs' H H' E. apply decode_encode in H, H'. rewrite E in H. congruence.
Qed.

(** ** Literals and indices *)

(** [c_str!] compiles exactly for the literals without a NUL. *)
Lemma c_str_ok str : c_str str = (if decide (0 ∈ str) then None else Some (str ++ [0])) ∧
  (∀ v, c_str str = Some v → cstr_ok v).
Proof.
  assert (c_str str = if decide (0 ∈ str) then None else Some (str ++ [0])) as E.
  { unfold c_str. destruct (cstr_checked_and_sliced (str ++ [0]) [0] 0) as (-> & _); [exists []; split; [done|apply not_elem_of_nil]|done|].
    rewrite last_snoc, decide_True by done. rewrite length_app, take_app_length' by (simpl; lia). by case_decide. }
  split; [done|]. intros v Hv. rewrite E in Hv. case_decide; [done|]. injection Hv as <-. by exists str.
Qed.

(** An index of a C string is the index of its bytes: what it gives lies in front of the
    terminator, and it panics exactly when the range does not. *)
Lemma cstr_index_ok l (i : CStrIndex) : Z.of_nat (length l) < USIZE_MAX →
  match i with
  | IAt i => 0 ≤ i → cstr_index (l ++ [0]) (IAt i) = (if decide (i < Z.of_nat (length l)) then Done (take 1 (drop (Z.to_nat i) l)) else Panic)
  | IRange a b => 0 ≤ a → cstr_index (l ++ [0]) (IRange a b) =
      (if decide (a ≤ b ≤ Z.of_nat (length l)) then Done (take (Z.to_nat (b - a)) (drop (Z.to_nat a) l)) else Panic)
  | IRangeInclusive a b => 0 ≤ a → cstr_index (l ++ [0]) (IRangeInclusive a b) =
      (if decide (a ≤ b + 1 ∧ b < Z.of_nat (length l)) then Done (take (Z.to_nat (b + 1 - a)) (drop (Z.to_nat a) l)) else Panic)
  | IRangeToInclusive b => 0 ≤ b → cstr_index (l ++ [0]) (IRangeToInclusive b) =
      (if decide (b < Z.of_nat (length l)) then Done (take (Z.to_nat (b + 1)) l) else Panic)
  end.
Proof.
  intros Hl. assert (∀ a b, 0 ≤ a → slice_range l a b =
    if decide (a ≤ b ≤ Z.of_nat (length l)) then Done (take (Z.to_nat (b - a)) (drop (Z.to_nat a) l)) else Panic) as Hr.
  { intros a b Ha. unfold slice_range. case_decide as H.
    - rewrite (proj2 (Z.leb_le a b)), (proj2 (Z.leb_le b _)) by lia. simpl. f_equal.
      rewrite skipn_firstn_comm. do 2 f_equal. lia.
    - destruct (Z.leb_spec a b), (Z.leb_spec b (Z.of_nat (length l))); simpl; (lia || done). }
  assert (∀ a b, 0 ≤ a → exec_bind (uadd b 1) (slice_range l a) =
    if decide (a ≤ b + 1 ∧ b < Z.of_nat (length l)) then Done (take (Z.to_nat (b + 1 - a)) (drop (Z.to_nat a) l)) else Panic) as Hri.
  { intros a b Ha. destruct (decide (b + 1 ≤ USIZE_MAX)) as [Hb|Hb].
    - rewrite uadd_ok by done. cbn [exec_bind]. rewrite Hr by done. repeat case_decide; (lia || done).
    - unfold uadd, checked_add. rewrite (proj2 (Z.leb_gt _ _)) by lia. cbn [exec_bind]. case_decide; [lia|done]. }
  destruct i as [i|a b|a b|b]; intros Ha; unfold cstr_index, as_ref, slice_index; rewrite cstr_as_bytes; cbn [exec_bind from_bytes].
  - unfold index_byte, from_bytes. case_decide as H.
    + destruct (lookup_lt_is_Some_2 l (Z.to_nat i)) as [x Hx]; [lia|]. rewrite Hx. by rewrite (drop_S _ _ _ Hx).
    + by rewrite lookup_ge_None_2 by lia.
  - by apply Hr.
  - by apply Hri.
  - unfold from_bytes. rewrite Hri by lia. rewrite Z.sub_0_r. repeat case_decide; (lia || done).
Qed.

(** ** Witnesses *)

Lemma cstring_copies_correct_witness :
  let AL := Kmalloc (C := Z) (ref_realloc 4096) in
  let s := MkSt ∅ (new Z) [] in
  Forall (λ '(f, op), ∃ r s', op [72; 105; 0] s = Done (r, s') ∧ copied s (f <$> [72; 105; 0]) r s' ∧ cstr_ok (f <$> [72; 105; 0]))
    [(id, to_cstring); (ascii_lower, to_ascii_lowercase); (ascii_upper, to_ascii_uppercase)].
Proof.
  apply (@cstring_copies_correct (Kmalloc (ref_realloc 4096)) _ (MkSt ∅ (new Z) []) [72; 105; 0]).
  - exists [72; 105]. split; [done|]. set_solver.
  - intros p b. cbn [hp]. by rewrite lookup_empty.
  - split; by vm_compute.
Defined.

(** The strings of the tests in the source. *)
Lemma to_str_accepts_utf8_witness :
  decode [0xf0; 0x9f; 0xa6; 0x80] = Some [0x1F980] ∧ to_str [0xc3; 0x28; 0] = Done (Err MkUtf8Error) ∧
  ∃ r, to_str [0xf0; 0x9f; 0xa6; 0x80; 0] = Done r ∧ (∀ b, r = Ok b → b = [0xf0; 0x9f; 0xa6; 0x80]) ∧
    (r = Ok [0xf0; 0x9f; 0xa6; 0x80] ↔ ∃ cs, Forall scalar cs ∧ encode cs = [0xf0; 0x9f; 0xa6; 0x80]) ∧
    (∀ cs cs', Forall scalar cs → Forall scalar cs' → encode cs = encode cs' → cs = cs').
Proof.
  split; [done|]. split; [done|].
  apply (to_str_accepts_utf8 [0xf0; 0x9f; 0xa6; 0x80; 0] [0xf0; 0x9f; 0xa6; 0x80]); [done|].
  repeat (apply Forall_cons_2; [unfold is_byte; lia|]). apply Forall_nil_2.
Defined.
