(* ===== verification/Tasks.v ===== *)
(** * Tasks and access checks ([rust/src/task.rs], [cred.rs], [security.rs], [fs/file.rs], the waits of
      [sync/condvar.rs])

    The accessors of tasks, files and credentials, the scheduling parameters, and the hooks that
    decide whether binder may act. The kernel is a state of an arbitrary type with the functions that
    the code calls; references to the objects are in KernelRefs. *)

From S2P Require Import Prelude Errors Sync KernelRefs.

(** ** Constants *)

Definition TASK_INTERRUPTIBLE : Z := 0x00000001.
Definition TASK_UNINTERRUPTIBLE : Z := 0x00000002.
Definition TASK_FREEZABLE : Z := 0x00002000.
Definition TASK_NORMAL : Z := 3.
Definition MAX_NICE : Z := 19.
Definition SCHED_RESET_ON_FORK : Z := 0x40000000.
Definition RLIMIT_NICE : Z := 13.
Definition RLIMIT_RTPRIO : Z := 14.

(** ** The functions of the kernel *)

Class TaskLib (K : Type) := {
  get_current : K → Z;
  rs_task_group_leader : K → Z → Z;
  rs_task_pid : K → Z → Z;
  task_uid : K → Z → Z;
  task_euid : K → Z → Z;
  signal_pending : K → Z → Z;
  task_tgid_nr_ns : K → Z → Z → Z;
  task_active_pid_ns : K → Z → Z;
  has_capability_noaudit : K → Z → Z → bool;
  rs_task_policy : K → Z → Z;
  rs_task_normal_prio : K → Z → Z;
  task_rlimit : K → Z → Z → Z;
  current_euid : K → Z;
  current_user_ns : K → Z;
  from_kuid : Z → Z → Z;
  uid_eq : Z → Z → bool;
  rs_cred_euid : K → Z → Z;
  security_cred_getsecid : K → Z → Z;
  rs_file_cred : K → Z → Z;
  rs_file_flags : K → Z → Z;
  rs_file_private_data : K → Z → Z;
  wake_up_process : Z → M K Z;
  sched_setscheduler_nocheck : Z → Z → Z → M K Z;      (* task, policy, priority *)
  set_user_nice : Z → Z → M K unit;
  security_binder_set_context_mgr : Z → M K Z;
  security_binder_transaction : Z → Z → M K Z;
  security_binder_transfer_binder : Z → Z → M K Z;
  security_binder_transfer_file : Z → Z → Z → M K Z
}.

Section Tasks.
Context {K : Type} `{TaskLib K}.
Local Abbreviation KM := (M K).

Definition read_kernel {A} (f : K → A) : KM A := k ← get; mret (f k).

(** A reference is made from a pointer: null is undefined. *)
Definition as_reference (p : Z) : KM Z := if is_null p then ub else mret p.

(** ** [Task] *)

Definition current_raw : KM Z := read_kernel get_current.
(** [Task::current] and [current!]. *)
Definition current : KM Z := p ← current_raw; as_reference p.

Definition group_leader (t : Z) : KM Z := p ← read_kernel (λ k, rs_task_group_leader k t); as_reference p.
Definition pid (t : Z) : KM Z := read_kernel (λ k, rs_task_pid k t).

Record Kuid := MkKuid { kuid : Z }.
Definition kuid_from_raw (raw : Z) : Kuid := MkKuid raw.
Definition kuid_into_raw (u : Kuid) : Z := kuid u.
Definition kuid_eq (a b : Kuid) : bool := uid_eq (kuid a) (kuid b).
Definition kuid_current_euid : KM Kuid := u ← read_kernel current_euid; mret (kuid_from_raw u).
Definition into_uid_in_current_ns (u : Kuid) : KM Z := ns ← read_kernel current_user_ns; mret (from_kuid ns (kuid u)).

Definition uid (t : Z) : KM Kuid := u ← read_kernel (λ k, task_uid k t); mret (kuid_from_raw u).
Definition euid (t : Z) : KM Kuid := u ← read_kernel (λ k, task_euid k t); mret (kuid_from_raw u).
Definition task_signal_pending (t : Z) : KM bool := n ← read_kernel (λ k, signal_pending k t); mret (negb (n =? 0)).

(** [None] is passed as null, which C takes for the namespace of the caller. *)
Definition tgid_nr_ns (t : Z) (pidns : option Z) : KM Z :=
  let pidns := match pidns with Some ns => ns | None => null end in
  read_kernel (λ k, task_tgid_nr_ns k t pidns).

Definition wake_up (t : Z) : KM unit := _ ← wake_up_process t; mret tt.
Definition task_has_capability_noaudit (t capability : Z) : KM bool :=
  read_kernel (λ k, has_capability_noaudit k t capability).
Definition policy (t : Z) : KM Z := read_kernel (λ k, rs_task_policy k t).
Definition normal_prio (t : Z) : KM Z := read_kernel (λ k, rs_task_normal_prio k t).

Definition rlimit_rtprio (t : Z) : KM Z := n ← read_kernel (λ k, task_rlimit k t RLIMIT_RTPRIO); mret (sext 32 n).


Definition rlimit_nice (t : Z) : KM Z :=
  n ← read_kernel (λ k, task_rlimit k t RLIMIT_NICE);
  let prio := sext 32 n in
  d ← lift (i32_checked (MAX_NICE - prio));
  lift (i32_checked (d + 1)).

Definition task_sched_setscheduler_nocheck (t pol sched_priority : Z) (reset_on_fork : bool) : KM unit :=
  let pol := if reset_on_fork then sext 32 (Z.lor pol SCHED_RESET_ON_FORK) else pol in
  _ ← sched_setscheduler_nocheck t pol sched_priority; mret tt.

(** [nice as _]: to [c_long]. *)
Definition task_set_user_nice (t nice : Z) : KM unit := set_user_nice t (sext 64 nice).

(** [CurrentTask::active_pid_ns] *)
Definition active_pid_ns (t : Z) : KM (option Z) :=
  ns ← read_kernel (λ k, task_active_pid_ns k t);
  if is_null ns then mret None else mret (Some ns).

(** ** [Credential], [File] *)

Definition get_secid (c : Z) : KM Z := read_kernel (λ k, security_cred_getsecid k c).
Definition cred_euid (c : Z) : KM Kuid := u ← read_kernel (λ k, rs_cred_euid k c); mret (kuid_from_raw u).

Definition file_cred (f : Z) : KM Z := c ← read_kernel (λ k, rs_file_cred k f); as_reference c.
Definition file_flags (f : Z) : KM Z := read_kernel (λ k, rs_file_flags k f).
Definition file_private_data (f : Z) : KM Z := read_kernel (λ k, rs_file_private_data k f).

(** ** Security hooks *)

Definition binder_set_context_mgr (mgr : Z) : KM (result Error unit) :=
  r ← security_binder_set_context_mgr mgr; mret (to_result r).
Definition binder_transaction (from to : Z) : KM (result Error unit) :=
  r ← security_binder_transaction from to; mret (to_result r).
Definition binder_transfer_binder (from to : Z) : KM (result Error unit) :=
  r ← security_binder_transfer_binder from to; mret (to_result r).
Definition binder_transfer_file (from to file : Z) : KM (result Error unit) :=
  r ← security_binder_transfer_file from to file; mret (to_result r).

Definition secctx_is_empty (c : SecurityCtx) : bool := seclen c =? 0.
Definition secctx_len (c : SecurityCtx) : Z := seclen c.

(** [as_bytes], as the address and the number of bytes of the slice; [debug] is
    [debug_assertions]. A slice at null is undefined. *)
Definition secctx_as_bytes (debug : bool) (c : SecurityCtx) : exec (Z * Z) :=
  let ptr := secdata c in
  if is_null ptr then
    if debug && negb (seclen c =? 0) then Panic else Done (1, 0)
  else Done (ptr, seclen c).
End Tasks.

(** ** The waits of a condition variable: the state of the task and the timeout *)

Definition wait_args : Z * Z := (TASK_UNINTERRUPTIBLE, MAX_SCHEDULE_TIMEOUT).
Definition wait_interruptible_args : Z * Z := (TASK_INTERRUPTIBLE, MAX_SCHEDULE_TIMEOUT).
Definition wait_interruptible_freezable_args : Z * Z := (Z.lor TASK_INTERRUPTIBLE TASK_FREEZABLE, MAX_SCHEDULE_TIMEOUT).

(** A sleep in one of these states is woken by [TASK_NORMAL], which [notify] passes. *)
Lemma waits_are_normal : Forall (λ a, Z.land a.1 TASK_NORMAL ≠ 0 ∧ a.2 = MAX_SCHEDULE_TIMEOUT)
  [wait_args; wait_interruptible_args; wait_interruptible_freezable_args].
Proof. apply (bool_decide_unpack _). vm_compute. exact I. Qed.

(** ** Theorems *)

Section TaskThms.
Context {K : Type} `{TaskLib K}.

(** The nice value that a resource limit allows, as [rlimit_to_nice] of the kernel computes it. *)
Definition rlimit_to_nice (n : Z) : Z := MAX_NICE - sext 64 n + 1.

(** [rlimit_nice] is the function of the kernel for every limit that fits [i32] (no limit is all
    ones), in the range of nice values and one above for the limits that mean one; it overflows, and
    panics, for the 21 limits whose low half is at least [2^31] and below [2^31 + 21]. *)
Lemma rlimit_nice_ok (k : K) (t : Z) :
  let n := task_rlimit k t RLIMIT_NICE in
  rlimit_nice t k = (if decide (sext 32 n < 21 - 2 ^ 31) then Panic else Done (20 - sext 32 n, k)) ∧
  (0 ≤ n ≤ 40 → rlimit_nice t k = Done (rlimit_to_nice n, k) ∧ -20 ≤ rlimit_to_nice n ≤ MAX_NICE + 1) ∧
  (n = USIZE_MAX → rlimit_nice t k = Done (rlimit_to_nice n, k)) ∧
  (n = 2 ^ 31 → rlimit_nice t k = Panic).
Proof.
  intros n. assert (rlimit_nice t k = if decide (sext 32 n < 21 - 2 ^ 31) then Panic else Done (20 - sext 32 n, k)) as E.
  { unfold rlimit_nice, read_kernel, mbind, M_bind, get, mret, M_ret. cbn. fold n.
    pose proof (sext_range 32 n ltac:(lia)) as Hr. change (2 ^ (32 - 1)) with (2 ^ 31) in Hr.
    set (p := sext 32 n) in *. unfold lift, i32_checked, MAX_NICE, I32_MAX.
    destruct (Z.leb_spec (- 2 ^ 31) (19 - p)); [|lia]. destruct (Z.leb_spec (19 - p) (2 ^ 31 - 1)); cbn [andb];
      [|by rewrite decide_True by lia].
    destruct (Z.leb_spec (- 2 ^ 31) (19 - p + 1)); [|lia]. destruct (Z.leb_spec (19 - p + 1) (2 ^ 31 - 1)); cbn [andb].
    - rewrite decide_False by lia. do 2 f_equal. lia.
    - by rewrite decide_True by lia. }
  rewrite E. split_and!; [done|..].
  - intros Hn. unfold rlimit_to_nice, MAX_NICE. rewrite !sext_id by (simpl; lia). rewrite decide_False by lia.
    split; [do 2 f_equal; lia|lia].
  - intros ->. done.
  - intros ->. done.
Qed.

(** The kernel gets the policy that was asked for, with the flag exactly when it was. *)
Lemma sched_setscheduler_ok (t pol prio : Z) (reset : bool) (k : K) : 0 ≤ pol < 2 ^ 30 →
  ∃ p, task_sched_setscheduler_nocheck t pol prio reset k = (_ ← sched_setscheduler_nocheck t p prio; mret tt) k ∧
    Z.land p (2 ^ 30 - 1) = pol ∧ Z.testbit p 30 = reset.
Proof.
  intros Hp. unfold task_sched_setscheduler_nocheck. eexists. split; [done|]. change (2 ^ 30 - 1) with (Z.ones 30).
  assert (Z.testbit pol 30 = false) as Hb by (apply Z.bits_above_log2; [lia|]; destruct (decide (pol = 0)) as [->|]; [simpl; lia|apply Z.log2_lt_pow2; lia]).
  destruct reset.
  - assert (Z.lor pol SCHED_RESET_ON_FORK = pol + 2 ^ 30) as E.
    { change SCHED_RESET_ON_FORK with (2 ^ 30). pose proof (Z.add_lor_land pol (2 ^ 30)) as E.
      assert (Z.land pol (2 ^ 30) = 0) as E0; [|lia]. apply Z.bits_inj'. intros i Hi. rewrite Z.land_spec, Z.bits_0.
      rewrite Z.pow2_bits_eqb by lia. destruct (Z.eqb_spec 30 i) as [<-|]; [by rewrite Hb|apply andb_false_r]. }
    rewrite E, sext_id by lia. split.
    + rewrite Z.land_ones by lia. by rewrite <- (Z.mul_1_l (2 ^ 30)) at 1; rewrite Z_mod_plus_full, Z.mod_small by lia.
    + rewrite <- E, Z.lor_spec, Hb. done.
  - split; [|done]. rewrite Z.land_ones by lia. by rewrite Z.mod_small.
Qed.

(** A hook that denies is an error with its number; otherwise binder may go on. *)
Lemma binder_hooks_answer (r : Z) (m : M K Z) (k k' : K) : m k = Done (r, k') → - MAX_ERRNO ≤ r →
  ∃ a, (x ← m; mret (to_result x)) k = Done (a, k') ∧ (a = Ok tt ↔ 0 ≤ r) ∧ (∀ e, a = Err e → to_errno e = r).
Proof.
  intros Hm Hr. unfold mbind, M_bind. rewrite Hm. eexists. split; [done|]. unfold to_result.
  destruct (Z.ltb_spec r 0).
  - split; [split; [done|lia]|]. intros e [= <-]. pose proof (from_to_errno (MkError r)) as E. cbn in E. by rewrite E.
  - by split.
Qed.

(** The bytes of a security context are a slice that is never at null, and of the length it
    reports; one without a pointer is empty. *)
Lemma secctx_as_bytes_ok (debug : bool) (c : SecurityCtx) : (secdata c = 0 → seclen c = 0) →
  ∃ p, secctx_as_bytes debug c = Done (p, secctx_len c) ∧ p ≠ 0.
Proof.
  intros Hc. unfold secctx_as_bytes, is_null, null, secctx_len. destruct (Z.eqb_spec (secdata c) 0) as [E|E].
  - rewrite Hc by done. exists 1. split; [by destruct debug|done].
  - by eexists.
Qed.
End TaskThms.
