(* ===== verification/Poll.v ===== *)
(** * Poll condition variables ([rust/src/sync/poll.rs])

    The wait queue of a [PollCondVar] is also known to epoll, which takes its items off the queue
    whenever it likes: inside of an RCU section it reads the pointer that an item has to the queue
    and follows it if it is not null. The drop of a [PollCondVar] must be safe against that. The model
    is a system of events in any order: registrations, the sections of epoll, and the actions of
    the drop, followed by the release of the memory. *)

From S2P Require Import Prelude.

(** ** The code *)

(** Calls of the kernel, in the order in which the drop makes them. *)
Inductive DropAct := AWakeUpPollfree | ASynchronizeRcu.

(** [PinnedDrop for PollCondVar] *)
Definition poll_condvar_drop : list DropAct := [AWakeUpPollfree; ASynchronizeRcu].

Record PollTable := MkPollTable { table : Z }.
Definition poll_table_from_raw (table : Z) : PollTable := MkPollTable table.

(** [register_wait]: the call of [poll_wait], as file, queue and table. *)
Definition register_wait (t : PollTable) (file cv : Z) : Z * Z * Z := (file, cv, table t).

(** ** The system *)

(** Where the owner is: [DDrop] has the actions of the drop that are left, [DWait] is inside of
    [synchronize_rcu] with the sections it waits for. *)
Inductive Owner := DLive | DDrop (rest : list DropAct) | DWait (sections : gset nat) (rest : list DropAct) | DFreed.

(** [linked]: the items whose pointer to the queue is not null. [sections]: the open RCU
    sections, with the item whose pointer they found not null. *)
Record PollSys := MkPollSys { owner : Owner; linked : gset nat; sections : gmap nat (option nat) }.

Inductive Ev :=
| ERegister (w : nat)             (* [register_wait] *)
| EBegin (r w : nat)              (* [rcu_read_lock], and the read of the pointer of [w] *)
| ERemove (r : nat)               (* [remove_wait_queue] through the pointer *)
| EEnd (r : nat)                  (* [rcu_read_unlock] *)
| EOwner.                         (* the next step of the owner *)

(** An event that cannot happen (now) leaves the state; following a pointer to a queue that
    is freed is undefined. *)
Definition step_owner (s : PollSys) : PollSys :=
  match owner s with
  | DLive => MkPollSys (DDrop poll_condvar_drop) (linked s) (sections s)
  | DDrop (AWakeUpPollfree :: rest) => MkPollSys (DDrop rest) ∅ (sections s)
  | DDrop (ASynchronizeRcu :: rest) => MkPollSys (DWait (dom (sections s)) rest) (linked s) (sections s)
  | DDrop [] => MkPollSys DFreed (linked s) (sections s)
  | DWait R rest => if decide (R = ∅) then MkPollSys (DDrop rest) (linked s) (sections s) else s
  | DFreed => s
  end.

Definition step (s : PollSys) (e : Ev) : exec PollSys :=
  match e with
  | ERegister w =>
      if owner s is DLive then Done (MkPollSys (owner s) ({[w]} ∪ linked s) (sections s)) else Done s
  | EBegin r w =>
      if sections s !! r is Some _ then Done s
      else Done (MkPollSys (owner s) (linked s) (<[r := if decide (w ∈ linked s) then Some w else None]> (sections s)))
  | ERemove r =>
      match sections s !! r with
      | Some (Some w) => if owner s is DFreed then UB
                         else Done (MkPollSys (owner s) (linked s ∖ {[w]}) (<[r := None]> (sections s)))
      | _ => Done s
      end
  | EEnd r =>
      Done (MkPollSys (match owner s with DWait R rest => DWait (R ∖ {[r]}) rest | o => o end)
        (linked s) (delete r (sections s)))
  | EOwner => Done (step_owner s)
  end.

Fixpoint run (s : PollSys) (es : list Ev) : exec PollSys :=
  match es with [] => Done s | e :: es => exec_bind (step s e) (λ s, run s es) end.

Definition poll_init : PollSys := MkPollSys DLive ∅ ∅.

(** ** Safety *)

(** The sections that may follow a pointer. *)
Definition armed (s : PollSys) (r : nat) : Prop := ∃ w, sections s !! r = Some (Some w).

(** What holds at each place of the owner. *)
Definition poll_inv (s : PollSys) : Prop :=
  match owner s with
  | DLive => True
  | DDrop [AWakeUpPollfree; ASynchronizeRcu] => True
  | DDrop [ASynchronizeRcu] => linked s = ∅
  | DWait R [] => linked s = ∅ ∧ (∀ r, armed s r → r ∈ R) ∧ R ⊆ dom (sections s)
  | DDrop [] | DFreed => linked s = ∅ ∧ ∀ r, ¬ armed s r
  | _ => False
  end.

Lemma armed_insert_None s o l r r' : armed (MkPollSys o l (<[r := None]> (sections s))) r' → armed s r'.
Proof. intros (w & Hw). simpl in Hw. apply lookup_insert_Some in Hw as [[_ ?]|[_ Hw]]; [done|by exists w]. Qed.

Lemma armed_delete s o l r r' : armed (MkPollSys o l (delete r (sections s))) r' → armed s r' ∧ r' ≠ r.
Proof. intros (w & Hw). simpl in Hw. apply lookup_delete_Some in Hw as [? Hw]. split; [by exists w|done]. Qed.

Lemma step_owner_inv s : poll_inv s → poll_inv (step_owner s).
Proof.
  unfold poll_inv, step_owner. destruct (owner s) as [|[|[|] [|[|] [|]]]|R [|]|] eqn:E; simpl; try done.
  - intros Hl. split_and!; [done| |done]. intros r (w & Hw). apply elem_of_dom. simpl in Hw. by eexists.
  - intros (Hl & Ha & Hd). case_decide as HR; [|rewrite E; by split_and!]. simpl. split; [done|]. intros r Hr. apply Ha in Hr. set_solver.
  - by rewrite ?E.
Qed.

Lemma poll_step_ok s e : poll_inv s → ∃ s', step s e = Done s' ∧ poll_inv s'.
Proof.
  intros Hi. destruct e as [w|r w|r|r|]; simpl.
  - destruct (owner s) eqn:E; eexists; (split; [done|]); [|done..]. unfold poll_inv in *. simpl. by rewrite ?E in *.
  - destruct (sections s !! r) as [o|] eqn:Er; [by eexists|]. eexists. split; [done|].
    assert (linked s = ∅ → ∀ r', armed (MkPollSys (owner s) (linked s)
      (<[r := if decide (w ∈ linked s) then Some w else None]> (sections s))) r' → armed s r') as Hn.
    { intros Hl r'. rewrite decide_False by set_solver. apply armed_insert_None. }
    unfold poll_inv in *. simpl. destruct (owner s) as [|[|[|] [|[|] [|]]]|R [|]|]; try done.
    + destruct Hi as [Hl Ha]. split; [done|]. intros r' Hr. by eapply Ha, Hn.
    + destruct Hi as (Hl & Ha & Hd). split_and!; [done| |rewrite dom_insert; clear -Hd; set_solver]. intros r' Hr. by apply Ha, Hn.
    + destruct Hi as [Hl Ha]. split; [done|]. intros r' Hr. by eapply Ha, Hn.
  - destruct (sections s !! r) as [[w|]|] eqn:Er; [|by eexists..]. assert (armed s r) as Har by (by exists w).
    unfold poll_inv in *. destruct (owner s) as [|[|[|] [|[|] [|]]]|R [|]|] eqn:E; try done;
      try (destruct Hi as [_ Ha]; by destruct (Ha r)); eexists; (split; [done|]); simpl; try done.
    + rewrite Hi. apply set_eq. clear. set_solver.
    + destruct Hi as (Hl & Ha & Hd). split_and!; [rewrite Hl; apply set_eq; clear; set_solver| |rewrite dom_insert; clear -Hd; set_solver].
      intros r' Hr. by eapply Ha, armed_insert_None.
  - eexists. split; [done|]. unfold poll_inv in *. destruct (owner s) as [|[|[|] [|[|] [|]]]|R [|]|] eqn:E; simpl; try done.
    + destruct Hi as [Hl Ha]. split; [done|]. intros r' Hr. apply armed_delete in Hr as [Hr _]. by apply (Ha r').
    + destruct Hi as (Hl & Ha & Hd). split_and!; [done| |rewrite dom_delete; clear -Hd; set_solver]. intros r' Hr.
      apply armed_delete in Hr as [Hr Hne]. apply Ha in Hr. clear -Hr Hne. set_solver.
    + destruct Hi as [Hl Ha]. split; [done|]. intros r' Hr. apply armed_delete in Hr as [Hr _]. by apply (Ha r').
  - eexists. split; [done|]. by apply step_owner_inv.
Qed.

Lemma run_ok es : ∀ s, poll_inv s → ∃ s', run s es = Done s' ∧ poll_inv s'.
Proof.
  induction es as [|e es IH]; intros s Hi; [by exists s|]. cbn [run].
  destruct (poll_step_ok s e Hi) as (s1 & -> & Hi1). by apply IH.
Qed.

(** The sections that were open when the owner began to wait end, and it goes on: whatever
    sections have begun since then. *)
Lemma wait_ends rs : ∀ s R rest, owner s = DWait R rest → R ⊆ list_to_set rs →
  ∃ s', run s ((EEnd <$> rs) ++ [EOwner]) = Done s' ∧ owner s' = DDrop rest.
Proof.
  induction rs as [|r rs IH]; intros s R rest Ho HR; cbn [run fmap list_fmap app].
  - cbn [step exec_bind run]. eexists. split; [done|]. unfold step_owner. rewrite Ho.
    rewrite decide_True; [done|]. cbn in HR. apply set_eq. clear -HR. set_solver.
  - cbn [step exec_bind]. rewrite Ho. apply (IH _ (R ∖ {[r]})); [done|]. cbn in HR. clear -HR. set_solver.
Qed.

(** C29: the drop of a [PollCondVar] is safe against epoll. In every order of registrations,
    sections of epoll that follow the pointers of their items, and steps of the owner, the wait queue
    is never used after its memory is released, and at that point no item has a pointer to it and no
    section could still follow one. And the owner is not held up: when the sections that were open
    as it began to wait have ended, it goes on. *)
Theorem poll_drop_safe (es : list Ev) :
  ∃ s, run poll_init es = Done s ∧
    (owner s = DFreed → linked s = ∅ ∧ ∀ r w, sections s !! r ≠ Some (Some w)) ∧
    (∀ R rest, owner s = DWait R rest →
       ∃ s', run s ((EEnd <$> elements R) ++ [EOwner]) = Done s' ∧ owner s' = DDrop rest).
Proof.
  destruct (run_ok es poll_init I) as (s & Hr & Hi). exists s. split; [done|]. split.
  - intros Ho. unfold poll_inv in Hi. rewrite Ho in Hi. destruct Hi as [Hl Ha]. split; [done|].
    intros r w Hw. apply (Ha r). by exists w.
  - intros R rest Ho. apply (wait_ends _ _ R); [done|]. by rewrite list_to_set_elements_L.
Qed.

(** A section that is open across the whole drop of the queue, unless the owner waits for it:
    it removes its item before the memory goes away. *)
Definition race : list Ev :=
  [ERegister 7; EBegin 0 7; EOwner; EOwner; EOwner; EBegin 1 7; EOwner; ERemove 0; EOwner; EEnd 0; EOwner; EOwner; ERemove 1].

Example poll_race : run poll_init race = Done (MkPollSys DFreed ∅ {[ 1%nat := None ]}).
Proof. reflexivity. Qed.

(** Without the grace period the same section follows a pointer to freed memory. *)
Example poll_race_unsafe :
  run (MkPollSys (DDrop [AWakeUpPollfree]) {[7%nat]} ∅) [EBegin 0 7; EOwner; EOwner; ERemove 0] = UB.
Proof. reflexivity. Qed.
