(* ===== verification/KTest.v ===== *)
(** * Running tests ([kunit_assert!], [kunit_assert_eq!], [in_kunit_test] of [rust/src/kunit.rs],
      the dispatcher of [src/shim_kunit.c], [kunit_get_current_test] of [src/helpers.c])

    What an assertion does inside and outside of a test, and the way of a test from the pool of its
    suite over the dispatcher to its verdict. The core of KUnit is a parameter ([KUnitCore]): it
    makes the [struct kunit] of a case, takes failures, and says which test the task belongs to.

    A test is a [Body]: code of the test on the state of the module, with assertions in between. *)

From Stdlib Require Import Ascii String.
From stdpp Require Import strings pretty.
From S2P Require Import Prelude Errors Str CStrings Print Macros KUnit.

#[local] Opaque KUNIT_MAX_TEST_CASES RS_KUNIT_MAX_TEST_CASES.

(** The bytes of a string literal. *)
Definition bytes_of (s : string) : list Z := (λ c, Z.of_N (N_of_ascii c)) <$> String.list_ascii_of_string s.

(** ** Assertions *)

(** What [kunit_loc] and [kunit_unary_assert] hold. *)
Record Report := MkReport { r_file : list Z; r_line : Z; r_condition : list Z; r_expected_true : bool }.

(** The arguments of [kunit_assert!], with the line of the call and the text of the condition,
    which is an expression and may have effects. *)
Record Assertion (U : Type) := MkAssertion {
  a_name : list Z; a_file : list Z; a_line : Z; a_diff : Z; a_text : list Z;
  a_condition : U → bool * U
}.
Arguments MkAssertion {U}.
Arguments a_name {U}.
Arguments a_file {U}.
Arguments a_line {U}.
Arguments a_diff {U}.
Arguments a_text {U}.
Arguments a_condition {U}.

(** [kunit_assert_eq!]: both sides are evaluated, the left one first. *)
Definition kunit_assert_eq {U V : Type} `{EqDecision V} (name file : list Z) (line diff : Z) (text : list Z)
    (left right : U → V * U) : Assertion U :=
  MkAssertion name file line diff text
    (λ u, let '(l, u) := left u in let '(r, u) := right u in (bool_decide (l = r), u)).

(** The code of a test. *)
Inductive Body (U : Type) :=
| BEnd
| BDo (f : U → U) (k : Body U)
| BIf (c : U → bool) (b1 b2 : Body U)
| BAssert (a : Assertion U) (k : Body U).
Arguments BEnd {U}.
Arguments BDo {U}.
Arguments BIf {U}.
Arguments BAssert {U}.

(** The calls of the core. *)
Class KUnitCore (K : Type) := {
  kunit_begin : string → K → Z * K;           (* a case begins in this task: its [struct kunit] *)
  kunit_end : Z → K → K;
  kunit_fail : Z → Report → K → K;            (* [__kunit_do_failed_assertion] *)
  kunit_task_test : K → option Z;             (* the test this task belongs to *)
  kunit_failures : K → Z → option (list Report)   (* of a test that is running *)
}.

(** Documented behaviour. *)
Class KUnitCoreOk (K : Type) `{KUnitCore K} : Prop := {
  begin_ok : ∀ n k t k', kunit_begin n k = (t, k') →
    kunit_failures k t = None ∧ kunit_failures k' t = Some [] ∧ kunit_task_test k' = Some t ∧
    ∀ u, u ≠ t → kunit_failures k' u = kunit_failures k u;
  fail_ok : ∀ t r k l, kunit_failures k t = Some l →
    kunit_failures (kunit_fail t r k) t = Some (l ++ [r]) ∧ kunit_task_test (kunit_fail t r k) = kunit_task_test k ∧
    ∀ u, u ≠ t → kunit_failures (kunit_fail t r k) u = kunit_failures k u;
  end_ok : ∀ t k l, kunit_failures k t = Some l →
    kunit_failures (kunit_end t k) t = None ∧ kunit_task_test (kunit_end t k) = None ∧
    ∀ u, u ≠ t → kunit_failures (kunit_end t k) u = kunit_failures k u
}.

(** A task goes on, or [__kunit_abort] has ended it. *)
Inductive flow := Continue | Stopped.

Record TState (U K : Type) := MkTState {
  user : U; core : K; suites : KState;
  rs_kunit_current_test : option Z;           (* the variable of the shim *)
  klog : list PrintkCall
}.
Arguments MkTState {U K}.
Arguments user {U K}.
Arguments core {U K}.
Arguments suites {U K}.
Arguments rs_kunit_current_test {U K}.
Arguments klog {U K}.

Section Tests.
Context {U K : Type} {KC : KUnitCore K}.
(** [modern]: the kernel has KUnit and is not older than 6.6. *)
Context (CONFIG_PRINTK modern : bool).
Local Abbreviation TM := (M (TState U K)).

Definition set_user (u : U) (s : TState U K) := MkTState u (core s) (suites s) (rs_kunit_current_test s) (klog s).
Definition set_core (k : K) (s : TState U K) := MkTState (user s) k (suites s) (rs_kunit_current_test s) (klog s).
Definition set_current (t : option Z) : TM unit :=
  modify (λ s, MkTState (user s) (core s) (suites s) t (klog s)).
Definition add_log (cs : list PrintkCall) : TM unit :=
  modify (λ s, MkTState (user s) (core s) (suites s) (rs_kunit_current_test s) (klog s ++ cs)).

Definition kunit_get_current_test : TM (option Z) :=
  s ← get; mret (if modern then kunit_task_test (core s) else rs_kunit_current_test s).

Definition in_kunit_test : TM bool := t ← kunit_get_current_test; mret (bool_decide (is_Some t)).

(** Both calls need a test that is running. *)
Definition do_failed_assertion (t : Z) (r : Report) : TM unit := λ s,
  match kunit_failures (core s) t with
  | Some _ => Done (tt, set_core (kunit_fail t r (core s)) s)
  | None => UB
  end.

Definition kunit_abort (t : Z) : TM flow := λ s,
  match kunit_failures (core s) t with Some _ => Done (Stopped, s) | None => UB end.

(** The statics [FILE], [LINE] and [CONDITION] are evaluated by the compiler. *)
Definition assertion_statics (a : Assertion U) : option (list Z * Z * list Z) :=
  match c_str (a_file a), i32_checked (sext 32 (a_line a) - a_diff a), c_str (a_text a) with
  | Some file, Done line, Some condition => Some (file, line, condition)
  | _, _, _ => None
  end.

(** The bytes that [Display] of [CStr] shows. *)
Definition cstr_shown (c : list Z) : list (list Z) :=
  match as_bytes c with Done b => cstr_display b | _ => [] end.

(** What is printed outside of a test. *)
Definition report_outside (name file : list Z) (line : Z) (condition : list Z) : list PrintkCall :=
  kunit_err CONFIG_PRINTK (MkArguments ([bytes_of "    # "; name; bytes_of ": ASSERTION FAILED at "] ++
    cstr_shown file ++ [bytes_of ":"; bytes_of (pretty line); [10]]) true) ++
  kunit_err CONFIG_PRINTK (MkArguments ([bytes_of "    Expected "] ++ cstr_shown condition ++
    [bytes_of " to be true, but is false"; [10]]) true) ++
  kunit_err CONFIG_PRINTK (MkArguments [bytes_of "    Failure not reported to KUnit since this is a non-KUnit task"; [10]] true).

(** Code whose statics the compiler refuses does not run. *)
Definition kunit_assert (a : Assertion U) : TM flow :=
  match assertion_statics a with
  | None => ub
  | Some (FILE, LINE, CONDITION) =>
      s ← get;
      let '(ok, u) := a_condition a (user s) in
      _ ← modify (set_user u);
      if ok : bool then mret Continue
      else
        kunit_test ← kunit_get_current_test;
        match kunit_test with
        | None => _ ← add_log (report_outside (a_name a) FILE LINE CONDITION); mret Continue
        | Some t =>
            _ ← do_failed_assertion t (MkReport FILE LINE CONDITION true);
            kunit_abort t
        end
  end.

Fixpoint run_body (b : Body U) : TM flow :=
  match b with
  | BEnd => mret Continue
  | BDo f k => s ← get; _ ← modify (set_user (f (user s))); run_body k
  | BIf c b1 b2 => s ← get; if c (user s) then run_body b1 else run_body b2
  | BAssert a k =>
      fl ← kunit_assert a;
      match fl with Continue => run_body k | Stopped => mret Stopped end
  end.

(** [rs_kunit_run_case]; [funs] is the code of the functions. An aborted test does not return to
    the dispatcher. *)
Definition kunit_dispatch (funs : string → option (Body U)) (test : Z) (name : string) : TM flow :=
  s ← get;
  match rs_kunit_run_case (suites s) name with
  | None =>
      _ ← add_log [MkCall (bytes_of (String (ascii_of_nat 1) "3rust_kunit: no Rust test registered for %s") ++ [10; 0])
                     [AStr (bytes_of name ++ [0])]];
      mret Continue
  | Some f =>
      match funs f with
      | None => ub
      | Some b =>
          _ ← set_current (Some test);
          fl ← run_body b;
          match fl with
          | Stopped => mret Stopped
          | Continue => _ ← set_current None; mret Continue
          end
      end
  end.

(** The core runs a case: its failures are the verdict. *)
Definition run_test_case (funs : string → option (Body U)) (name : string) : TM (list Report) :=
  s ← get;
  let '(t, k) := kunit_begin name (core s) in
  _ ← modify (set_core k);
  _ ← kunit_dispatch funs t name;
  s ← get;
  match kunit_failures (core s) t with
  | None => ub
  | Some l => _ ← modify (set_core (kunit_end t (core s))); mret l
  end.

(** It walks over the cases of a suite up to the null one; the pool is zeroed at first, and a read
    behind it is undefined. *)
Fixpoint walk_cases (case_size : nat) (funs : string → option (Body U)) (cases j n : nat) : TM (list (list Report)) :=
  match n with
  | O => ub
  | S n =>
      s ← get;
      if ((j + 1) * case_size <=? KUNIT_MAX_TEST_CASES * KUNIT_CASE_STORAGE_SIZE)%nat then
        match default ∅ (pools (suites s) !! cases) !! j with
        | Some (Some name) =>
            v ← run_test_case funs name;
            vs ← walk_cases case_size funs cases (S j) n;
            mret (v :: vs)
        | _ => mret []
        end
      else ub
  end.

(** [rs_kunit_init_rust], at the load of a module. *)
Definition rs_kunit_init_rust (case_size : nat) (mdl : Z) (section : list (option KUnitSuiteSlot)) : TM unit := λ s,
  match init_test_suites case_size mdl section (suites s) with
  | Done (_, k) => Done (tt, MkTState (user s) (core s) k (rs_kunit_current_test s) (klog s))
  | Panic => Panic
  | UB => UB
  end.

(** A suite is run, or a task that is no test runs code with assertions. *)
Inductive Ev := ESuite (p : nat) | ETask (b : Body U).

Definition ev_step (case_size : nat) (funs : string → option (Body U)) (e : Ev) : TM (list (list Report)) :=
  match e with
  | ESuite p => walk_cases case_size funs p 0 (S (KUNIT_MAX_TEST_CASES * KUNIT_CASE_STORAGE_SIZE))
  | ETask b => _ ← run_body b; mret []
  end.

Fixpoint ev_run (case_size : nat) (funs : string → option (Body U)) (es : list Ev) : TM (list (list (list Report))) :=
  match es with
  | [] => mret []
  | e :: es =>
      v ← ev_step case_size funs e;
      vs ← ev_run case_size funs es;
      mret (v :: vs)
  end.
End Tests.

(** ** What the tests mean

    A test runs up to the first assertion that does not hold, which is its failure. Code outside of
    a test goes on behind every one, which is printed. *)

Section Reference.
Context {U : Type} (CONFIG_PRINTK : bool).

Definition report_of (a : Assertion U) : Report :=
  MkReport (a_file a ++ [0]) (sext 32 (a_line a) - a_diff a) (a_text a ++ [0]) true.

Fixpoint verdict (b : Body U) (u : U) : U * list Report :=
  match b with
  | BEnd => (u, [])
  | BDo f k => verdict k (f u)
  | BIf c b1 b2 => if c u then verdict b1 u else verdict b2 u
  | BAssert a k => let '(ok, u) := a_condition a u in if ok : bool then verdict k u else (u, [report_of a])
  end.

Fixpoint outside (b : Body U) (u : U) : U * list PrintkCall :=
  match b with
  | BEnd => (u, [])
  | BDo f k => outside k (f u)
  | BIf c b1 b2 => if c u then outside b1 u else outside b2 u
  | BAssert a k =>
      let '(ok, u) := a_condition a u in
      let '(u, cs) := outside k u in
      (u, (if ok : bool then []
           else report_outside CONFIG_PRINTK (a_name a) (r_file (report_of a)) (r_line (report_of a)) (r_condition (report_of a))) ++ cs)
  end.

(** The literals have no zero byte and the line is one of [i32]. *)
Definition assertion_compiles (a : Assertion U) : bool :=
  bool_decide (0 ∉ a_file a) && bool_decide (0 ∉ a_text a) &&
  bool_decide (- 2 ^ 31 ≤ sext 32 (a_line a) - a_diff a ≤ I32_MAX).

Fixpoint compiles (b : Body U) : bool :=
  match b with
  | BEnd => true
  | BDo _ k => compiles k
  | BIf _ b1 b2 => compiles b1 && compiles b2
  | BAssert a k => assertion_compiles a && compiles k
  end.

(** Suites of tests with their code. *)
Fixpoint ref_suite (tests : list (string * Body U)) (u : U) : U * list (list Report) :=
  match tests with
  | [] => (u, [])
  | (_, b) :: tests =>
      let '(u, v) := verdict b u in
      let '(u, vs) := ref_suite tests u in (u, v :: vs)
  end.

Fixpoint ref_run (ss : list (string * list (string * Body U))) (es : list Ev) (u : U)
    : U * list (list (list Report)) * list PrintkCall :=
  match es with
  | [] => (u, [], [])
  | e :: es =>
      let '(u, v, cs) := match e with
        | ESuite p => let '(u, v) := ref_suite (default [] (snd <$> ss !! p)) u in (u, v, [])
        | ETask b => let '(u, cs) := outside b u in (u, [], cs)
        end in
      let '(u, vs, cs') := ref_run ss es u in (u, v :: vs, cs ++ cs')
  end.
End Reference.

Section TestSpecs.
Context {U K : Type} {KC : KUnitCore K} {KO : KUnitCoreOk K}.
Context (CONFIG_PRINTK modern : bool).
Implicit Types s : TState U K.

(** What [kunit_get_current_test] returns. *)
Definition current_test s : option Z := if modern then kunit_task_test (core s) else rs_kunit_current_test s.

Lemma statics_ok (a : Assertion U) : assertion_compiles a = true →
  assertion_statics a = Some (r_file (report_of a), r_line (report_of a), r_condition (report_of a)).
Proof.
  unfold assertion_compiles, assertion_statics, i32_checked. intros H.
  apply andb_true_iff in H as [[Hf%bool_decide_eq_true Ht%bool_decide_eq_true]%andb_true_iff Hl%bool_decide_eq_true].
  rewrite (proj1 (c_str_ok (a_file a))), (proj1 (c_str_ok (a_text a))), !decide_False by done.
  rewrite (proj2 (Z.leb_le _ _)), (proj2 (Z.leb_le _ _)) by lia. done.
Qed.

Lemma wp_current Q s : Q (current_test s) s → wp (kunit_get_current_test modern) Q s.
Proof. intros H. apply wp_bind, wp_get, wp_ret. exact H. Qed.

(** Inside of the test [t] with the failures [l]. *)
Definition inside t l s : Prop := current_test s = Some t ∧ kunit_failures (core s) t = Some l.

Definition ran_inside t l s (u : U) (rs : list Report) (fl : flow) s' : Prop :=
  user s' = u ∧ suites s' = suites s ∧ klog s' = klog s ∧ rs_kunit_current_test s' = rs_kunit_current_test s ∧
  kunit_failures (core s') t = Some (l ++ rs) ∧ kunit_task_test (core s') = kunit_task_test (core s) ∧
  (fl = Stopped ↔ rs ≠ []).

Lemma assert_inside (a : Assertion U) t l s Q : assertion_compiles a = true → inside t l s →
  (let '(ok, u) := a_condition a (user s) in
   if ok : bool then Q Continue (set_user u s)
   else ∀ s', ran_inside t l s u [report_of a] Stopped s' → Q Stopped s') →
  wp (kunit_assert CONFIG_PRINTK modern a) Q s.
Proof.
  intros Hc [Hcur Hf] HQ. unfold kunit_assert. rewrite (statics_ok a Hc). apply wp_bind, wp_get.
  destruct (a_condition a (user s)) as [ok u]. apply wp_bind, wp_modify. destruct ok; [by apply wp_ret|].
  apply wp_bind, wp_current. assert (current_test (set_user u s) = Some t) as -> by exact Hcur.
  destruct (fail_ok t (report_of a) (core s) l Hf) as (Hf1 & Ht1 & _).
  apply wp_bind. eexists tt, _. unfold do_failed_assertion. simpl. rewrite Hf. split; [done|].
  eexists Stopped, _. unfold kunit_abort. simpl. unfold report_of in Hf1. simpl in Hf1. rewrite Hf1. split; [done|].
  apply HQ. unfold ran_inside. simpl. by rewrite Hf1.
Qed.

Lemma body_inside (b : Body U) : ∀ t l s, compiles b = true → inside t l s →
  wp (run_body CONFIG_PRINTK modern b)
    (λ fl s', ran_inside t l s (verdict b (user s)).1 (verdict b (user s)).2 fl s') s.
Proof.
  induction b as [|f k IH|c b1 IH1 b2 IH2|a k IH]; intros t l s Hc Hi; cbn [run_body compiles verdict] in *.
  - destruct Hi as [_ Hf]. apply wp_ret. unfold ran_inside. rewrite app_nil_r. by split_and!.
  - apply wp_bind, wp_get, wp_bind, wp_modify. by apply (IH t l (set_user (f (user s)) s)).
  - apply andb_true_iff in Hc as [H1 H2]. apply wp_bind, wp_get. destruct (c (user s)); [by apply IH1|by apply IH2].
  - apply andb_true_iff in Hc as [Ha Hk]. apply wp_bind. apply (assert_inside a t l); [done|done|].
    destruct (a_condition a (user s)) as [[] u]; [by apply (IH t l (set_user u s))|].
    intros s' Hs'. by apply wp_ret.
Qed.

(** Outside of every test. *)
Definition ran_outside s (u : U) (cs : list PrintkCall) s' : Prop :=
  s' = MkTState u (core s) (suites s) (rs_kunit_current_test s) (klog s ++ cs).

Lemma body_outside (b : Body U) : ∀ s, compiles b = true → current_test s = None →
  wp (run_body CONFIG_PRINTK modern b)
    (λ fl s', fl = Continue ∧ ran_outside s (outside CONFIG_PRINTK b (user s)).1 (outside CONFIG_PRINTK b (user s)).2 s') s.
Proof.
  induction b as [|f k IH|c b1 IH1 b2 IH2|a k IH]; intros s Hc Hi; cbn [run_body compiles outside] in *.
  - apply wp_ret. split; [done|]. unfold ran_outside. rewrite app_nil_r. by destruct s.
  - apply wp_bind, wp_get, wp_bind, wp_modify. by apply (IH (set_user (f (user s)) s)).
  - apply andb_true_iff in Hc as [H1 H2]. apply wp_bind, wp_get. destruct (c (user s)); [by apply IH1|by apply IH2].
  - apply andb_true_iff in Hc as [Ha Hk]. apply wp_bind. unfold kunit_assert. rewrite (statics_ok a Ha).
    apply wp_bind, wp_get. destruct (a_condition a (user s)) as [ok u]. apply wp_bind, wp_modify.
    destruct ok.
    + apply wp_ret. eapply wp_mono; [by apply (IH (set_user u s))|]. intros fl s' [Hfl Hs']. split; [done|].
      unfold ran_outside in *. rewrite Hs'. simpl. by destruct (outside CONFIG_PRINTK k u).
    + apply wp_bind, wp_current. assert (current_test (set_user u s) = None) as -> by exact Hi.
      apply wp_bind, wp_modify, wp_ret. eapply wp_mono; [by apply IH|]. intros fl s' [Hfl Hs']. split; [done|].
      unfold ran_outside in *. rewrite Hs'. simpl. destruct (outside CONFIG_PRINTK k u). simpl. by rewrite <- app_assoc.
Qed.

(** No test runs; a kernel with the variable of the shim has forgotten the last one. *)
Definition calm s : Prop := kunit_task_test (core s) = None ∧ (modern = true ∨ rs_kunit_current_test s = None).

Lemma calm_current s : calm s → current_test s = None.
Proof. unfold current_test. intros [H1 [->|H2]]; [done|]. by destruct modern. Qed.

Definition kept s s' : Prop := suites s' = suites s ∧ calm s'.

Lemma case_ok funs name f (b : Body U) s : calm s →
  rs_kunit_run_case (suites s) name = Some f → funs f = Some b → compiles b = true →
  modern = true ∨ (verdict b (user s)).2 = [] →
  wp (run_test_case CONFIG_PRINTK modern funs name)
    (λ v s', v = (verdict b (user s)).2 ∧ user s' = (verdict b (user s)).1 ∧ klog s' = klog s ∧ kept s s') s.
Proof.
  intros [Hn Hm] Hf Hb Hc Hv. unfold run_test_case. apply wp_bind, wp_get.
  destruct (kunit_begin name (core s)) as [t k] eqn:Eb. destruct (begin_ok _ _ _ _ Eb) as (_ & Hk & Ht & _).
  apply wp_bind, wp_modify, wp_bind. unfold kunit_dispatch. apply wp_bind, wp_get. cbn [set_core suites]. rewrite Hf, Hb.
  apply wp_bind, wp_modify, wp_bind.
  eapply wp_mono; [apply (body_inside b t []); [done|split; [|done]; unfold current_test; by destruct modern]|].
  intros fl s' (Hu & Hs & Hl & Hr & Hfl & Htt & Hst). cbn [set_core user core suites klog rs_kunit_current_test] in *.
  assert (∀ s2, user s2 = user s' → core s2 = core s' → suites s2 = suites s' → klog s2 = klog s' →
    (modern = true ∨ rs_kunit_current_test s2 = None) →
    wp (s0 ← get; match kunit_failures (core s0) t with
                  | Some l => _ ← modify (set_core (kunit_end t (core s0))); mret l
                  | None => ub
                  end)
     (λ v s', v = (verdict b (user s)).2 ∧ user s' = (verdict b (user s)).1 ∧ klog s' = klog s ∧ kept s s') s2) as Hend.
  { intros s2 E1 E2 E3 E4 Hm2. apply wp_bind, wp_get. rewrite E2, Hfl. apply wp_bind, wp_modify, wp_ret.
    destruct (end_ok _ _ _ Hfl) as (_ & He & _). unfold kept, calm. simpl. rewrite E1, E3, E4, Hu, Hs, Hl. by split_and!. }
  destruct fl.
  - apply wp_bind, wp_modify, wp_ret. apply Hend; try done. by right.
  - apply wp_ret. apply Hend; try done. destruct Hv as [Hv|Hv]; [by left|]. by apply Hst in Hv.
Qed.

(** The pool of a suite and the functions of its tests. *)
Definition suite_ready (funs : string → option (Body U)) (ks : KState) (p : nat) (tests : list (string * Body U)) : Prop :=
  pool_ok tests.*1 (pool ks p) ∧
  ∀ n b, (n, b) ∈ tests → rs_kunit_run_case ks n = Some (wrapper_name n) ∧ funs (wrapper_name n) = Some b ∧ compiles b = true.

Lemma walk_ok case_size funs p (tests : list (string * Body U)) ks : (case_size ≤ KUNIT_CASE_STORAGE_SIZE)%nat →
  (length tests < KUNIT_MAX_TEST_CASES)%nat → suite_ready funs ks p tests → ∀ n j s, suites s = ks → calm s →
  (length tests < j + n)%nat → (j ≤ length tests)%nat →
  modern = true ∨ Forall (.= []) (ref_suite (drop j tests) (user s)).2 →
  wp (walk_cases CONFIG_PRINTK modern case_size funs p j n)
    (λ vs s', vs = (ref_suite (drop j tests) (user s)).2 ∧ user s' = (ref_suite (drop j tests) (user s)).1 ∧
              klog s' = klog s ∧ kept s s') s.
Proof.
  intros Hcs Hlen [[Hp Hd] Hf] n. induction n as [|n IH]; intros j s Hs Hi Hn Hj Hv; cbn [walk_cases]; [lia|].
  apply wp_bind, wp_get. rewrite (proj2 (Nat.leb_le _ _)) by nia. rewrite Hs. fold (pool ks p).
  destruct (decide (j = length tests)) as [->|Hne].
  { rewrite length_fmap in Hd. rewrite Hd. apply wp_ret. rewrite drop_ge by done. by split_and!. }
  destruct (lookup_lt_is_Some_2 tests j) as [[nm b] Hb]; [lia|].
  rewrite (Hp j nm) by (rewrite list_lookup_fmap, Hb; done).
  rewrite (drop_S _ _ _ Hb) in *. cbn [ref_suite] in *.
  destruct (Hf nm b) as (Hrun & Hfun & Hcomp); [by eapply list_elem_of_lookup_2|].
  destruct (verdict b (user s)) as [u v] eqn:Ev.
  apply wp_bind. eapply wp_mono.
  { apply (case_ok funs nm (wrapper_name nm) b); [done|by rewrite Hs|done|done|]. rewrite Ev. destruct Hv as [Hv|Hv]; [by left|].
    destruct (ref_suite (drop (S j) tests) u). simpl in *. right. by apply Forall_cons in Hv as [-> _]. }
  rewrite Ev. cbn [fst snd]. intros v0 s1 (-> & Hu1 & Hl1 & Hs1 & Hc1). subst u. apply wp_bind.
  eapply wp_mono.
  { apply (IH (S j) s1); [by rewrite Hs1|done|lia|lia|]. destruct Hv as [Hv|Hv]; [by left|]. right.
    destruct (ref_suite (drop (S j) tests) (user s1)). by apply Forall_cons in Hv as [_ Hv]. }
  intros vs s2 (-> & Hu2 & Hl2 & Hs2 & Hc2). destruct (ref_suite (drop (S j) tests) (user s1)). simpl in *.
  apply wp_ret. unfold kept. rewrite Hl2, Hs2. by split_and!.
Qed.

(** [in_kunit_test] is true exactly inside of a test. *)
Lemma in_kunit_test_ok s : in_kunit_test modern s = Done (bool_decide (is_Some (current_test s)), s).
Proof. done. Qed.

Definition names (ss : list (string * list (string * Body U))) : list (string * list string) :=
  (λ x, (fst x, (snd x).*1)) <$> ss.

Definition ev_ok (ss : list (string * list (string * Body U))) (e : @Ev U) : Prop :=
  match e with ESuite p => (p < length ss)%nat | ETask b => compiles b = true end.

Definition all_ready funs (ks : KState) (ss : list (string * list (string * Body U))) : Prop :=
  ∀ p nm tests, ss !! p = Some (nm, tests) → (length tests < KUNIT_MAX_TEST_CASES)%nat ∧ suite_ready funs ks p tests.

Lemma ev_run_ok case_size funs ks ss : (case_size ≤ KUNIT_CASE_STORAGE_SIZE)%nat → all_ready funs ks ss →
  ∀ es s, suites s = ks → calm s → Forall (ev_ok ss) es →
  modern = true ∨ Forall (Forall (.= [])) (ref_run CONFIG_PRINTK ss es (user s)).1.2 →
  wp (ev_run CONFIG_PRINTK modern case_size funs es)
    (λ vs s', (user s', vs) = (ref_run CONFIG_PRINTK ss es (user s)).1 ∧
              klog s' = klog s ++ (ref_run CONFIG_PRINTK ss es (user s)).2) s.
Proof.
  intros Hcs Hready es. induction es as [|e es IH]; intros s Hs Hi He Hv; cbn [ev_run ref_run] in *.
  { apply wp_ret. by rewrite app_nil_r. }
  apply Forall_cons in He as [He Hes]. apply wp_bind. destruct e as [p|b]; cbn [ev_step ev_ok] in *.
  - destruct (lookup_lt_is_Some_2 ss p He) as [[nm tests] Hp]. rewrite Hp in *. cbn [fmap option_fmap option_map default snd] in *.
    destruct (Hready p nm tests Hp) as [Hlen Hr]. change (id tests) with tests in *.
    destruct (ref_suite tests (user s)) as [u v] eqn:Ev.
    eapply wp_mono.
    { apply (walk_ok case_size funs p tests ks Hcs Hlen Hr _ 0 s Hs Hi); [unfold KUNIT_CASE_STORAGE_SIZE; lia|lia|].
      rewrite drop_0, Ev. destruct Hv as [Hv|Hv]; [by left|]. right.
      destruct (ref_run CONFIG_PRINTK ss es u) as [[??]?]. by apply Forall_cons in Hv as [Hv _]. }
    intros vs s1 (-> & Hu1 & Hl1 & Hs1 & Hc1). rewrite drop_0, Ev in *. cbn [fst snd] in *. subst u.
    apply wp_bind. destruct (ref_run CONFIG_PRINTK ss es (user s1)) as [[u2 vs2] cs2] eqn:E2. cbn [fst snd] in *.
    eapply wp_mono; [apply (IH s1); [by rewrite Hs1|done|done|]|].
    + rewrite E2. destruct Hv as [Hv|Hv]; [by left|]. right. by apply Forall_cons in Hv as [_ Hv].
    + rewrite E2. intros vs s2 ([= Hu2 ->] & Hl2). apply wp_ret. split; [by rewrite Hu2|]. by rewrite Hl2, Hl1.
  - destruct (outside CONFIG_PRINTK b (user s)) as [u cs] eqn:Eo.
    apply wp_bind. eapply wp_mono; [apply (body_outside b s He); by apply calm_current|]. rewrite Eo.
    intros fl s1 [_ ->]. apply wp_ret. cbn [fst snd] in *.
    apply wp_bind. destruct (ref_run CONFIG_PRINTK ss es u) as [[u2 vs2] cs2] eqn:E2. cbn [fst snd] in *.
    eapply wp_mono; [apply (IH (MkTState u (core s) (suites s) (rs_kunit_current_test s) (klog s ++ cs))); [done|done|done|]|].
    + cbn [user]. rewrite E2. destruct Hv as [Hv|Hv]; [by left|]. right. by apply Forall_cons in Hv as [_ Hv].
    + cbn [user klog]. rewrite E2. intros vs s2 ([= Hu2 ->] & Hl2). apply wp_ret. split; [by rewrite Hu2|]. by rewrite Hl2, <- app_assoc.
Qed.

(** The loaded suites are ready. *)
Lemma init_ready case_size mdl ss funs (ks : KState) : (case_size ≤ KUNIT_CASE_STORAGE_SIZE)%nat →
  Forall (λ x, (length (snd x) < KUNIT_MAX_TEST_CASES)%nat) ss →
  (length (registry ks) + length (mjoin ss.*2) ≤ RS_KUNIT_MAX_TEST_CASES)%nat →
  NoDup ((ename <$> registry ks) ++ (mjoin ss.*2).*1) →
  (∀ n b, (n, b) ∈ mjoin ss.*2 → funs (wrapper_name n) = Some b ∧ compiles b = true) →
  wp (init_test_suites case_size mdl (section (names ss))) (λ _ ks', all_ready funs ks' ss) ks.
Proof.
  intros Hcs Hcap Hreg Hn Hf.
  assert (mjoin (names ss).*2 = (mjoin ss.*2).*1) as Hj.
  { unfold names. clear. induction ss as [|x ss IH]; [done|]. cbn. rewrite fmap_app. by f_equal. }
  eapply wp_mono; [apply (init_suites_ok case_size Hcs mdl (names ss) 0 ks)|].
  - unfold names. rewrite Forall_fmap. eapply Forall_impl; [exact Hcap|]. intros x Hx. simpl. by rewrite length_fmap.
  - by rewrite Hj, length_fmap.
  - intros [] ks' (Hr & _ & Hp) p nm tests Hl.
    assert (names ss !! p = Some (nm, tests.*1)) as Hl' by (unfold names; by rewrite list_lookup_fmap, Hl).
    destruct (Hp p _ Hl') as [Hpool _]. split; [|split; [done|]].
    + rewrite Forall_lookup in Hcap. by apply (Hcap p _ Hl).
    + intros n b Hnb.
      assert ((n, b) ∈ mjoin ss.*2) as Hin.
      { apply list_elem_of_join. exists tests. split; [done|]. apply list_elem_of_fmap. exists (nm, tests).
        split; [done|]. by eapply list_elem_of_lookup_2. }
      split; [|by apply Hf]. unfold rs_kunit_run_case. rewrite Hr, Hj. apply dispatch_ok.
      * rewrite fmap_app. unfold entries. rewrite <- list_fmap_compose. by rewrite list_fmap_id.
      * apply list_elem_of_fmap. by exists (n, b).
Qed.

(** C28: tests are run as they are meant. From what [#[kunit_tests]] generates for the suites of a
    module, the module's init makes suites whose cases reach, over pools, registry and dispatcher, each
    its own function; a test runs up to its first assertion that does not hold, whose file, line and
    condition is reported to the test, and the verdicts of all suites, the state that the tests leave and
    what is printed by assertions of tasks that are no test are those of the reference, in any order of
    suites and tasks. The suites have fewer than 128 tests, with distinct names, and room in the
    registry; in kernels that lack the current test of the task, no test fails. *)
Theorem kunit_runs_tests case_size mdl (ss : list (string * list (string * Body U))) funs es s
    (Hsize : (case_size ≤ KUNIT_CASE_STORAGE_SIZE)%nat)
    (Hcap : Forall (λ x, (length (snd x) < KUNIT_MAX_TEST_CASES)%nat) ss)
    (Hreg : (length (registry (suites s)) + length (mjoin ss.*2) ≤ RS_KUNIT_MAX_TEST_CASES)%nat)
    (Hnames : NoDup ((ename <$> registry (suites s)) ++ (mjoin ss.*2).*1))
    (Hfuns : ∀ n b, (n, b) ∈ mjoin ss.*2 → funs (wrapper_name n) = Some b ∧ compiles b = true)
    (Hes : Forall (ev_ok ss) es)
    (Hcalm : calm s)
    (Hold : modern = true ∨ Forall (Forall (.= [])) (ref_run CONFIG_PRINTK ss es (user s)).1.2) :
  wp (_ ← rs_kunit_init_rust case_size mdl (section (names ss));
      ev_run CONFIG_PRINTK modern case_size funs es)
    (λ vs s', (user s', vs) = (ref_run CONFIG_PRINTK ss es (user s)).1 ∧
              klog s' = klog s ++ (ref_run CONFIG_PRINTK ss es (user s)).2) s.
Proof.
  destruct (init_ready case_size mdl ss funs (suites s) Hsize Hcap Hreg Hnames Hfuns) as ([] & ks & Hk & Hr).
  apply wp_bind. eexists tt, _. unfold rs_kunit_init_rust. rewrite Hk. split; [done|].
  by apply (ev_run_ok case_size funs ks ss Hsize Hr es (MkTState (user s) (core s) ks (rs_kunit_current_test s) (klog s))).
Qed.
End TestSpecs.

#[local] Transparent KUNIT_MAX_TEST_CASES RS_KUNIT_MAX_TEST_CASES.

(** ** An instance *)

Definition DemoCore : Type := gmap Z (list Report) * option Z.

#[local] Instance demo_core : KUnitCore DemoCore := {|
  kunit_begin _ k := let t := max_key k.1 + 8 in (t, (<[t := []]> k.1, Some t));
  kunit_end t k := (delete t k.1, None);
  kunit_fail t r k := (alter (.++ [r]) t k.1, k.2);
  kunit_task_test k := k.2;
  kunit_failures k t := k.1 !! t
|}.

#[local] Instance demo_core_ok : KUnitCoreOk DemoCore.
Proof.
  split; simpl.
  - intros _ [m c] t k' [= <- <-]. simpl. split_and!; [|by rewrite lookup_insert_eq|done|by intros; rewrite lookup_insert_ne].
    destruct (m !! _) eqn:E; [|done]. apply max_key_ge in E. lia.
  - intros t r [m c] l Hl. simpl in *. split_and!; [by rewrite lookup_alter_eq, Hl|done|by intros; rewrite lookup_alter_ne].
  - intros t [m c] l Hl. simpl. split_and!; [by rewrite lookup_delete_eq|done|by intros; rewrite lookup_delete_ne].
Qed.

(** The state of the module is a number. *)
Definition demo_assert (line n : Z) : Assertion Z :=
  kunit_assert_eq (bytes_of "demo") (bytes_of "src/demo.rs") line 3 (bytes_of "x == n") (λ u, (u, u)) (λ u, (n, u)).

Definition demo_suites : list (string * list (string * Body Z)) :=
  [("arith"%string, [("adds"%string, BDo (λ u, u + 1) (BAssert (demo_assert 10 6) BEnd));
                     ("fails"%string, BAssert (demo_assert 20 7) (BDo (λ u, u + 100) BEnd))]);
   ("empty"%string, [])].

Definition demo_funs (f : string) : option (Body Z) :=
  (λ x, x.2.2) <$> list_find (λ x, wrapper_name x.1 = f) (mjoin demo_suites.*2).

Definition demo_events : list (@Ev Z) := [ETask (BAssert (demo_assert 30 9) (BDo (λ u, u + 5) BEnd)); ESuite 0; ESuite 1].

Definition demo_state : TState Z DemoCore := MkTState 0 (∅, None) kunit_empty None [].

Example demo_run :
  match (_ ← rs_kunit_init_rust 56 7 (section (names demo_suites));
         ev_run true true 56 demo_funs demo_events) demo_state with
  | Done (vs, s) =>
      vs = [[]; [[]; [MkReport (bytes_of "src/demo.rs" ++ [0]) 17 (bytes_of "x == n" ++ [0]) true]]; []] ∧
      user s = 6 ∧
      printed (klog s) = Some ((λ m, 1 :: 51 :: bytes_of m ++ [10]) <$>
        ["    # demo: ASSERTION FAILED at src/demo.rs:27"; "    Expected x == n to be true, but is false";
         "    Failure not reported to KUnit since this is a non-KUnit task"]%string)
  | _ => False
  end.
Proof. vm_compute. split; [reflexivity|split; reflexivity]. Qed.

Lemma kunit_runs_tests_witness :
  wp (_ ← rs_kunit_init_rust 56 7 (section (names demo_suites));
      ev_run true true 56 demo_funs demo_events)
    (λ vs s', (user s', vs) = (ref_run true demo_suites demo_events (user demo_state)).1 ∧
              klog s' = klog demo_state ++ (ref_run true demo_suites demo_events (user demo_state)).2) demo_state.
Proof.
  apply (kunit_runs_tests true true 56 7 demo_suites demo_funs demo_events demo_state).
  - apply Nat.leb_le. reflexivity.
  - repeat constructor; apply Nat.leb_le; reflexivity.
  - apply Nat.leb_le. reflexivity.
  - apply (bool_decide_unpack _). vm_compute. exact I.
  - intros n b Hnb. repeat (apply elem_of_cons in Hnb as [[= -> ->]|Hnb]; [split; reflexivity|]).
    by apply elem_of_nil in Hnb.
  - repeat constructor; try reflexivity; apply Nat.leb_le; reflexivity.
  - split; [reflexivity|left; reflexivity].
  - left. reflexivity.
Defined.

(** Without the current test of the task, the shim keeps the test that was aborted: the next
    assertion that fails in any task reports to a test that is gone. *)
Lemma kunit_stale_test :
  (_ ← rs_kunit_init_rust 56 7 (section (names demo_suites));
   ev_run true false 56 demo_funs [ESuite 0; ETask (BAssert (demo_assert 30 9) BEnd)]) demo_state = UB.
Proof. vm_compute. reflexivity. Qed.
