(* ===== verification/UnitTests.v ===== *)
(** * The unit tests of the sources ([bitmap.rs], [str.rs], [alloc/kvec.rs])

    The tests that the sources carry, translated like the code itself and run on the models:
    what their authors expect of bitmaps, strings and vectors holds of the definitions that
    the other files reason about. An assertion that fails is a panic here; KTest models what
    KUnit makes of it. The tests of bitmaps pass for every implementation of the bit
    operations and restore the heap; those of strings and vectors are evaluated. *)

From Stdlib Require Import String.
From S2P Require Import Prelude Errors Alloc KVec KBox Arc UAccess Bitmap Str CStrings KTest.

(** [assert!] *)
Definition check {S} (b : bool) : M S unit := if b then mret tt else panic.

Definition unwrap {S E A} (r : result E A) : M S A := match r with Ok a => mret a | Err _ => panic end.

Lemma wp_check {S} (b : bool) Q (s : S) : b = true → Q tt s → wp (check b) Q s.
Proof. intros -> HQ. by apply wp_ret. Qed.

(** ** Bitmaps *)

Section BitmapTests.
Context `{BO : BitOps} (hardened : bool).
Local Abbreviation BM := (M (gmap Z BMem)).
Local Abbreviation TestResult := (BM (result AllocError unit)).

(** A borrowed [Bitmap] behaves as the [BitmapVec] with the same words; [addr] is the address of
    the local array. *)
Definition bitmap_borrow (addr : Z) : BM unit :=
  _ ← modify (<[addr := MkBMem 0 128]>);
  let fake_bitmap_len := 2 * 64 in
  let b := MkBitmapVec (RPtr addr) fake_bitmap_len in
  _ ← check (fake_bitmap_len =? bitmap_len b);
  r ← next_bit hardened b 0;
  _ ← check (bool_decide (None = r));
  modify (delete addr).

Definition bitmap_copy : BM unit :=
  let b := MkBitmapVec (RBitmap 0xFF) 8 in
  _ ← check (8 =? bitmap_len b);
  r ← next_zero_bit hardened b 0;
  check (bool_decide (None = r)).

(** Shadowed bindings live to the end of the test. *)
Definition bitmap_vec_new : TestResult :=
  b1 ←? bitmap_new 0 GFP_KERNEL;
  _ ← check (0 =? bitmap_len b1);
  b2 ←? bitmap_new 3 GFP_KERNEL;
  _ ← check (3 =? bitmap_len b2);
  r ← bitmap_new 1024 GFP_KERNEL;
  match r with
  | Err e => _ ← bitmap_drop b2; _ ← bitmap_drop b1; mret (Err e)
  | Ok b3 =>
      _ ← check (1024 =? bitmap_len b3);
      res ← bitmap_new (Z.shiftl 1 31) GFP_KERNEL;
      _ ← check (negb (is_ok res));
      _ ← bitmap_drop b3; _ ← bitmap_drop b2; _ ← bitmap_drop b1;
      mret (Ok tt)
  end.

(** [assert_eq!(expected, b.f())] *)
Definition expect (m : BM (option Z)) (expected : option Z) : BM unit :=
  r ← m; check (bool_decide (expected = r)).

Definition bitmap_set_clear_find : TestResult :=
  b ←? bitmap_new 128 GFP_KERNEL;
  _ ← expect (next_bit hardened b 0) None;
  _ ← expect (next_zero_bit hardened b 0) (Some 0);
  _ ← expect (last_bit b) None;
  b ← set_bit hardened b 17;
  _ ← expect (next_bit hardened b 0) (Some 17);
  _ ← expect (next_bit hardened b 17) (Some 17);
  _ ← expect (next_bit hardened b 18) None;
  _ ← expect (last_bit b) (Some 17);
  b ← set_bit hardened b 107;
  _ ← expect (next_bit hardened b 0) (Some 17);
  _ ← expect (next_bit hardened b 17) (Some 17);
  _ ← expect (next_bit hardened b 18) (Some 107);
  _ ← expect (last_bit b) (Some 107);
  b ← clear_bit hardened b 17;
  _ ← expect (next_bit hardened b 0) (Some 107);
  _ ← expect (last_bit b) (Some 107);
  _ ← bitmap_drop b;
  mret (Ok tt).

Definition owned_bitmap_out_of_bounds : TestResult :=
  if hardened then mret (Ok tt)
  else
    b ←? bitmap_new 128 GFP_KERNEL;
    b ← set_bit hardened b 2048;
    b ← set_bit_atomic hardened b 2048;
    b ← clear_bit hardened b 2048;
    b ← clear_bit_atomic hardened b 2048;
    _ ← expect (next_bit hardened b 2048) None;
    _ ← expect (next_zero_bit hardened b 2048) None;
    _ ← expect (last_bit b) None;
    _ ← bitmap_drop b;
    mret (Ok tt).

Definition test_copy_and_extend : TestResult :=
  long_bitmap ←? bitmap_new 256 GFP_KERNEL;
  long_bitmap ← set_bit hardened long_bitmap 3;
  long_bitmap ← set_bit hardened long_bitmap 200;
  r ← bitmap_new 32 GFP_KERNEL;
  match r with
  | Err e => _ ← bitmap_drop long_bitmap; mret (Err e)
  | Ok short_bitmap =>
      short_bitmap ← set_bit hardened short_bitmap 17;
      long_bitmap ← copy_and_extend long_bitmap short_bitmap;
      _ ← expect (next_bit hardened long_bitmap 0) (Some 17);
      _ ← expect (last_bit long_bitmap) (Some 17);
      _ ← bitmap_drop short_bitmap; _ ← bitmap_drop long_bitmap;
      mret (Ok tt)
  end.
End BitmapTests.

Section BitmapTestsPass.
Context `{BOs : BitOpsSpec} (hardened : bool).
Implicit Types (h : gmap Z BMem) (v : BitmapVec) (S : gset Z).

(** [v] is a bitmap of [n] bits that holds [S], and without it the heap would be [h0]. *)
Record bm_holds h0 h v (n : Z) S : Prop := {
  bh_rep : bitmap_rep h v S;
  bh_len : nbits v = n;
  bh_heap : match bowned v with Some p => h0 !! p = None ∧ delete p h = h0 | None => h = h0 end
}.

Lemma holds_new h0 n (Q : result AllocError BitmapVec → gmap Z BMem → Prop) : 0 ≤ n →
  (∀ v h, bm_holds h0 h v n ∅ → Q (Ok v) h) → (MAX_INLINE_LEN < n → Q (Err MkAllocError) h0) →
  wp (bitmap_new n GFP_KERNEL) Q h0.
Proof.
  intros Hn Hok Herr. eapply wp_mono; [by apply (bitmap_new_ok h0 n GFP_KERNEL)|].
  intros [v|[]] h'; [|intros [-> ?]; auto]. intros (Hr & Hl & _ & Hp & Ho). apply Hok. split; [done|done|].
  destruct (bowned v) as [p|]; [by apply Hp|by apply Ho].
Qed.

Lemma holds_mutated h0 h v n S S' v' h' : bm_holds h0 h v n S → mutated h v S' v' h' → bm_holds h0 h' v' n S'.
Proof.
  intros [Hr Hl Hh] (Hr' & Hn & Ho & Ht & Hd). split; [done|congruence|]. rewrite Ho.
  destruct (bowned v) as [p|].
  - destruct Hh as [Hp <-]. split; [done|]. apply map_eq. intros q. destruct (decide (p = q)) as [<-|].
    + by rewrite !lookup_delete_eq.
    + rewrite !lookup_delete_ne by done. apply Ht. congruence.
  - subst h0. apply map_eq. intros q. by apply Ht.
Qed.

Lemma holds_drop h0 h v n S Q : bm_holds h0 h v n S → Q tt h0 → wp (bitmap_drop v) Q h.
Proof.
  intros [Hr _ Hh] HQ. eapply wp_mono; [by eapply bitmap_drop_ok|]. intros [] h' ->.
  destruct (bowned v); [by destruct Hh as [_ ->]|by subst].
Qed.

Lemma holds_set h0 h v n S i Q : bm_holds h0 h v n S → 0 ≤ i < n →
  (∀ v' h', bm_holds h0 h' v' n ({[i]} ∪ S) → Q v' h') → wp (set_bit hardened v i) Q h.
Proof.
  intros Hb Hi HQ. eapply wp_mono; [eapply set_bit_ok; [apply Hb|lia|destruct Hb; lia]|].
  intros v' h' Hm. by eapply HQ, holds_mutated.
Qed.

Lemma holds_clear h0 h v n S i Q : bm_holds h0 h v n S → 0 ≤ i < n →
  (∀ v' h', bm_holds h0 h' v' n (S ∖ {[i]}) → Q v' h') → wp (clear_bit hardened v i) Q h.
Proof.
  intros Hb Hi HQ. eapply wp_mono; [eapply clear_bit_ok; [apply Hb|lia|destruct Hb; lia]|].
  intros v' h' Hm. by eapply HQ, holds_mutated.
Qed.

(** What an assertion about a search takes: an index with no smaller candidate, or none. *)
Definition first_in S (start : Z) (o : option Z) : Prop :=
  match o with
  | Some i => start ≤ i ∧ i ∈ S ∧ ∀ j, j ∈ S → j < start ∨ i ≤ j
  | None => ∀ j, j ∈ S → j < start
  end.

Lemma wp_expect (m : M (gmap Z BMem) (option Z)) o Q h :
  wp m (λ r h', h' = h ∧ r = o) h → Q tt h → wp (expect m o) Q h.
Proof.
  intros Hm HQ. apply wp_bind. eapply wp_mono; [exact Hm|]. intros r h' [-> ->].
  apply wp_check; [by apply bool_decide_eq_true|done].
Qed.

Lemma expect_next h0 h v n S start o Q : bm_holds h0 h v n S → 0 ≤ start → (hardened = true → start < n) →
  first_in S start o → Q tt h → wp (expect (next_bit hardened v start) o) Q h.
Proof.
  intros [Hr Hl _] Hs Hhd Ho. apply wp_expect.
  eapply wp_mono; [apply (next_bit_ok hardened h v S start Hr Hs); rewrite Hl; done|].
  intros r h' [-> Hf]. split; [done|]. destruct r as [i|], o as [i'|]; simpl in Ho; [|..|done].
  - destruct Hf as (Hi & HiS & Hmin), Ho as (Hi' & Hi'S & Hmin'). f_equal.
    destruct (Hmin' i HiS); [lia|]. destruct (decide (i = i')); [done|]. by destruct (Hmin i'); [lia|].
  - destruct Hf as (Hi & HiS & _). specialize (Ho _ HiS). lia.
  - destruct Ho as (Hi' & Hi'S & _). by destruct (Hf i').
Qed.

Lemma expect_last h0 h v n S o Q : bm_holds h0 h v n S →
  match o with Some i => i ∈ S ∧ ∀ j, j ∈ S → j ≤ i | None => S = ∅ end →
  Q tt h → wp (expect (last_bit v) o) Q h.
Proof.
  intros [Hr Hl _] Ho. apply wp_expect. eapply wp_mono; [by apply last_bit_ok|].
  intros r h' [-> Hf]. split; [done|]. destruct r as [i|], o as [i'|]; [|set_solver..|done].
  destruct Hf as [H1 H2], Ho as [H3 H4]. f_equal. specialize (H2 _ H3). specialize (H4 _ H1). lia.
Qed.

Lemma expect_next_zero h0 h v n start o Q : bm_holds h0 h v n ∅ → 0 ≤ start → (hardened = true → start < n) →
  o = (if start <? n then Some start else None) → Q tt h → wp (expect (next_zero_bit hardened v start) o) Q h.
Proof.
  intros [Hr Hl _] Hs Hhd ->. apply wp_expect.
  eapply wp_mono; [apply (next_zero_bit_ok hardened h v ∅ start Hr Hs); rewrite Hl; done|].
  intros r h' [-> Hf]. split; [done|]. rewrite Hl in Hf. destruct (Z.ltb_spec start n), r as [i|]; try done.
  - destruct Hf as (Hi & _ & Hmin). destruct (decide (i = start)) as [->|]; [done|]. exfalso. apply (not_elem_of_empty (C := gset Z) start), Hmin. lia.
  - exfalso. apply (not_elem_of_empty (C := gset Z) start), Hf. lia.
  - lia.
Qed.

Lemma set_out h0 h v n S i Q : bm_holds h0 h v n S → n ≤ i → 0 ≤ n → hardened = false →
  Q v h → wp (set_bit hardened v i) Q h.
Proof.
  intros [Hr Hl _] Hi Hn Hhd HQ. destruct (set_bit_ok hardened h v S i Hr) as [_ E]; [lia|].
  rewrite Hhd in *. exists v, h. split; [apply E; lia|done].
Qed.

Lemma clear_out h0 h v n S i Q : bm_holds h0 h v n S → n ≤ i → 0 ≤ n → hardened = false →
  Q v h → wp (clear_bit hardened v i) Q h.
Proof.
  intros [Hr Hl _] Hi Hn Hhd HQ. destruct (clear_bit_ok hardened h v S i Hr) as [_ E]; [lia|].
  rewrite Hhd in *. exists v, h. split; [apply E; lia|done].
Qed.

Lemma wp_ext {A} (m m' : M (gmap Z BMem) A) Q h : m h = m' h → wp m' Q h → wp m Q h.
Proof. intros E (a & h' & Hm & HQ). exists a, h'. by rewrite E. Qed.

(** A test passes from every heap: no assertion fails, it returns [Ok] unless an allocation
    failed, and it leaves the heap as it was. *)
Definition test_passes (t : M (gmap Z BMem) (result AllocError unit)) : Prop :=
  ∀ h, wp t (λ r h', h' = h ∧ (r = Ok tt ∨ r = Err MkAllocError)) h.

Ltac bm_side := first [done | lia | unfold first_in; set_solver by lia].
Ltac bm_step :=
  first
    [ eapply wp_bind, expect_next; [eassumption|bm_side..|]
    | eapply wp_bind, expect_last; [eassumption|bm_side..|]
    | eapply wp_bind, expect_next_zero; [eassumption|bm_side..|]
    | eapply wp_bind, holds_set; [eassumption|bm_side|intros ? ? ?]
    | eapply wp_bind, holds_clear; [eassumption|bm_side|intros ? ? ?]
    | eapply wp_bind, holds_drop; [eassumption|]
    | eapply wp_bind, wp_check; [done|]
    | apply wp_ret; by auto ].

Lemma set_clear_find_ok : test_passes (bitmap_set_clear_find hardened).
Proof.
  intros h. apply wp_try, holds_new; [lia| |auto]. intros v h1 Hb.
  repeat bm_step.
Qed.

Lemma out_of_bounds_ok : test_passes (owned_bitmap_out_of_bounds hardened).
Proof.
  intros h. unfold owned_bitmap_out_of_bounds. destruct hardened eqn:Hhd; [apply wp_ret; auto|].
  apply wp_try, holds_new; [lia| |auto]. intros v h1 Hb. rewrite <- Hhd.
  eapply wp_bind, set_out; [done..|].
  eapply wp_bind, wp_ext; [apply atomic_same|]. eapply set_out; [done..|].
  eapply wp_bind, clear_out; [done..|].
  eapply wp_bind, wp_ext; [apply atomic_same|]. eapply clear_out; [done..|].
  assert (hardened = true → 2048 < 128) as Hoff by (by rewrite Hhd).
  eapply wp_bind, expect_next; [done|lia|exact Hoff|bm_side|].
  eapply wp_bind, expect_next_zero; [done|lia|exact Hoff|done|].
  repeat bm_step.
Qed.

Lemma vec_new_ok : test_passes bitmap_vec_new.
Proof.
  intros h. apply wp_try, holds_new; [lia| |done]. intros v1 h1 H1.
  apply wp_bind, wp_check; [by apply Z.eqb_eq; destruct H1|].
  apply wp_try, holds_new; [lia| |done]. intros v2 h2 H2.
  apply wp_bind, wp_check; [by apply Z.eqb_eq; destruct H2|].
  apply wp_bind, holds_new; [lia| |intros _; by repeat bm_step]. intros v3 h3 H3.
  apply wp_bind, wp_check; [by apply Z.eqb_eq; destruct H3|].
  apply wp_bind. exists (Err MkAllocError), h3. split; [done|]. repeat bm_step.
Qed.

Lemma inline_owned h0 h v n S : bm_holds h0 h v n S → n ≤ MAX_INLINE_LEN → bowned v = None.
Proof. intros [Hr Hl _] Hn. unfold bowned. by rewrite Hl, (proj2 (Z.leb_le _ _)) by done. Qed.

Lemma inline_heap h0 h v n S : bm_holds h0 h v n S → n ≤ MAX_INLINE_LEN → h = h0.
Proof. intros Hb Hn. pose proof (bh_heap _ _ _ _ _ Hb) as Hh. by rewrite (inline_owned _ _ _ _ _ Hb Hn) in Hh. Qed.

(** An inline bitmap does not depend on the heap. *)
Lemma inline_frame h0 h h' v n S : bm_holds h0 h v n S → n ≤ MAX_INLINE_LEN → bm_holds h' h' v n S.
Proof.
  intros Hb Hn. pose proof (inline_owned _ _ _ _ _ Hb Hn) as Ho. destruct Hb as [Hr Hl _]. split; [|done|by rewrite Ho].
  eapply bitmap_rep_frame; [exact Hr|congruence].
Qed.

Lemma copy_extend_ok : test_passes (test_copy_and_extend hardened).
Proof.
  intros h. apply wp_try, holds_new; [lia| |auto]. intros v h1 Hb.
  eapply wp_bind, holds_set; [exact Hb|lia|]. intros v2 h2 Hb2.
  eapply wp_bind, holds_set; [exact Hb2|lia|]. intros v3 h3 Hb3.
  apply wp_bind, holds_new; [lia| |done]. intros w h4 Hw.
  eapply wp_bind, holds_set; [exact Hw|lia|]. intros w' h5 Hw'.
  pose proof (inline_heap _ _ _ _ _ Hw' ltac:(done)) as ->.
  apply wp_bind. eapply wp_mono; [eapply copy_and_extend_ok; [by eapply bh_rep|apply Hw']|].
  intros v4 h6 Hm%(holds_mutated h _ _ 256 _ _ _ _ Hb3).
  apply (inline_frame _ _ h6) in Hw'; [|done].
  assert (filter (λ i, i < nbits v3) ({[17]} ∪ ∅ : gset Z) = {[17]}) as E.
  { rewrite (bh_len _ _ _ _ _ Hb3). by vm_compute. }
  rewrite E in Hm. repeat bm_step.
Qed.

Lemma borrow_ok h addr : h !! addr = None → wp (bitmap_borrow hardened addr) (λ _ h', h' = h) h.
Proof.
  intros Ha. set (b := MkBitmapVec (RPtr addr) 128). set (h1 := <[addr := MkBMem 0 128]> h).
  assert (bm_holds h h1 b 128 ∅) as Hb.
  { split; [|done|].
    - apply (rep_intro _ _ 0); [done| |].
      + unfold words, h1. simpl. by rewrite lookup_insert_eq.
      + intros i. rewrite Z.bits_0. set_solver.
    - split; [done|]. by apply delete_insert_id. }
  apply wp_bind, wp_modify, wp_bind, wp_check; [done|]. apply wp_bind. fold h1. fold b.
  eapply wp_mono; [apply (next_bit_ok hardened h1 b ∅ 0); [apply Hb|done|done]|].
  intros r h' [-> Hf]. destruct r as [i|]; [set_solver|]. apply wp_bind, wp_check; [done|].
  apply wp_modify. unfold h1. by apply delete_insert_id.
Qed.

Lemma copy_ok h : wp (bitmap_copy hardened) (λ _ h', h' = h) h.
Proof.
  apply wp_bind, wp_check; [done|]. apply wp_bind. set (b := MkBitmapVec (RBitmap 0xFF) 8).
  assert (bitmap_rep h b (list_to_set (seqZ 0 8))) as Hb.
  { apply (rep_intro _ _ 0xFF); [done|done|]. intros i. rewrite elem_of_list_to_set, elem_of_seqZ.
    change 0xFF with (Z.ones 8). simpl. split; [|by intros [? _]; lia]. intros Hi. split; [lia|].
    apply Z.ones_spec_low. lia. }
  eapply wp_mono; [apply (next_zero_bit_ok hardened h b _ 0 Hb); done|].
  intros r h' [-> Hf]. destruct r as [i|]; [|by apply wp_check].
  exfalso. destruct Hf as (Hi & Hn & _). apply Hn. apply elem_of_list_to_set, elem_of_seqZ. simpl in *. lia.
Qed.
End BitmapTestsPass.

(** The unit tests of [bitmap.rs] pass, hardened or not, for every implementation of the
    kernel's bit operations that behaves as documented: from every heap no assertion fails,
    and the heap is restored; a test returns an error only if an allocation failed. *)
Theorem bitmap_unit_tests_pass `{BitOpsSpec} (hardened : bool) (h : gmap Z BMem) (addr : Z)
    (Haddr : h !! addr = None) :
  bitmap_borrow hardened addr h = Done (tt, h) ∧ bitmap_copy hardened h = Done (tt, h) ∧
  Forall (λ t, ∃ r, t h = Done (r, h) ∧ (r = Ok tt ∨ r = Err MkAllocError))
    [bitmap_vec_new; bitmap_set_clear_find hardened; owned_bitmap_out_of_bounds hardened;
     test_copy_and_extend hardened].
Proof.
  assert (∀ t, test_passes t → ∃ r, t h = Done (r, h) ∧ (r = Ok tt ∨ r = Err MkAllocError)) as Hp.
  { intros t Ht. destruct (Ht h) as (r & h' & Hd & -> & Hr). by exists r. }
  split_and!.
  - destruct (borrow_ok hardened h addr Haddr) as ([] & h' & Hd & ->). done.
  - destruct (copy_ok hardened h) as ([] & h' & Hd & ->). done.
  - repeat apply Forall_cons_2; [| | | |by apply Forall_nil_2]; apply Hp.
    + apply vec_new_ok.
    + apply set_clear_find_ok.
    + apply out_of_bounds_ok.
    + apply copy_extend_ok.
Qed.

(** ** Slices of vectors *)

Section Slices.
Context {T : Type} {RT : RType T}.
Local Abbreviation VM := (M (St T Vec)).

Fixpoint read_slots (p i : Z) (n : nat) : VM (list T) :=
  match n with
  | O => mret []
  | S n => x ← read p (off T i); xs ← read_slots p (i + 1) n; mret (x :: xs)
  end.

(** [Vec::as_slice], and what a reader finds in the slice. *)
Definition as_slice : VM (list T) := v ← self; read_slots (vptr v) 0 (Z.to_nat (vlen v)).

(** [m] on the vector [v], of several in one heap. *)
Definition on_vec {A} (v : Vec) (m : VM A) : VM (A * Vec) := _ ← set_self v; a ← m; v' ← self; mret (a, v').

(** [impl_slice_eq!]: vectors are compared as slices. *)
Definition vec_eq `{EqDecision T} (v w : Vec) : VM bool :=
  a ← on_vec v as_slice; b ← on_vec w as_slice; mret (bool_decide (fst a = fst b)).
End Slices.

(** ** Strings *)

Section StrTests.
Context {AL : Allocator Z}.
Local Abbreviation VM := (M (St Z Vec)).

Definition checked (bytes : list Z) : VM (list Z) := r ← lift (from_bytes_with_nul bytes); unwrap r.

(** [format!] of the tests: a [String] of the pieces, read through both [deref]s; it is
    dropped with the statement. *)
Definition format (pieces : list (list Z)) : VM (list Z) :=
  r ← try_from_fmt ref_memchr (MkArguments pieces true) (MkArguments pieces true);
  _ ← unwrap r;
  buf ← as_slice (RT := Str.u8_type);
  s ← lift (to_str buf);
  str ← unwrap s;
  _ ← vec_drop (RT := Str.u8_type);
  mret str.

Definition assert_format (pieces : list (list Z)) (expected : list Z) : VM unit :=
  s ← format pieces; check (bool_decide (s = expected)).

(** What [{}] and [{:?}] write of a C string. *)
Definition shown_cstr (show : list Z → list (list Z)) (bytes : list Z) (expected : list Z) : VM unit :=
  c ← checked bytes;
  b ← lift (as_bytes c);
  assert_format (show b) expected.

Definition hello : list Z := bytes_of "hello, world!".
Definition crab : list Z := [0xf0; 0x9f; 0xa6; 0x80].
Definition penguin : list Z := [0xf0; 0x9f; 0x90; 0xA7].
Definition deja_vu : list Z := [100; 0xe9; 106; 0xe0; 32; 118; 117].
Definition quoted (l : list Z) : list Z := [34] ++ l ++ [34].

(** The bytes 1 to 255 as [Display] writes them. *)
Definition ALL_ASCII_CHARS : list Z :=
  bytes_of "\x01\x02\x03\x04\x05\x06\x07\x08\x09\x0a\x0b\x0c\x0d\x0e\x0f" ++
  bytes_of "\x10\x11\x12\x13\x14\x15\x16\x17\x18\x19\x1a\x1b\x1c\x1d\x1e\x1f !" ++ [34] ++
  bytes_of "#$%&'()*+,-./0123456789:;<=>?@" ++
  bytes_of "ABCDEFGHIJKLMNOPQRSTUVWXYZ[\]^_`abcdefghijklmnopqrstuvwxyz{|}~\x7f" ++
  bytes_of "\x80\x81\x82\x83\x84\x85\x86\x87\x88\x89\x8a\x8b\x8c\x8d\x8e\x8f" ++
  bytes_of "\x90\x91\x92\x93\x94\x95\x96\x97\x98\x99\x9a\x9b\x9c\x9d\x9e\x9f" ++
  bytes_of "\xa0\xa1\xa2\xa3\xa4\xa5\xa6\xa7\xa8\xa9\xaa\xab\xac\xad\xae\xaf" ++
  bytes_of "\xb0\xb1\xb2\xb3\xb4\xb5\xb6\xb7\xb8\xb9\xba\xbb\xbc\xbd\xbe\xbf" ++
  bytes_of "\xc0\xc1\xc2\xc3\xc4\xc5\xc6\xc7\xc8\xc9\xca\xcb\xcc\xcd\xce\xcf" ++
  bytes_of "\xd0\xd1\xd2\xd3\xd4\xd5\xd6\xd7\xd8\xd9\xda\xdb\xdc\xdd\xde\xdf" ++
  bytes_of "\xe0\xe1\xe2\xe3\xe4\xe5\xe6\xe7\xe8\xe9\xea\xeb\xec\xed\xee\xef" ++
  bytes_of "\xf0\xf1\xf2\xf3\xf4\xf5\xf6\xf7\xf8\xf9\xfa\xfb\xfc\xfd\xfe\xff".

Definition test_cstr_to_str : VM unit :=
  c ← checked (crab ++ [0]);
  r ← lift (to_str c);
  s ← unwrap r;
  check (bool_decide (s = crab)).

(** [should_panic] *)
Definition test_cstr_to_str_panic : VM unit :=
  c ← checked [0xc3; 0x28; 0];
  r ← lift (to_str c);
  _ ← unwrap r;
  mret tt.

Definition test_cstr_as_str_unchecked : VM unit :=
  c ← checked (penguin ++ [0]);
  s ← lift (as_str_unchecked c);
  check (bool_decide (s = penguin)).

Definition test_cstr_display : VM unit :=
  _ ← shown_cstr cstr_display (hello ++ [0]) hello;
  _ ← shown_cstr cstr_display [1; 9; 10; 0] (bytes_of "\x01\x09\x0a");
  _ ← shown_cstr cstr_display (deja_vu ++ [0]) (bytes_of "d\xe9j\xe0 vu");
  shown_cstr cstr_display (crab ++ [0]) (bytes_of "\xf0\x9f\xa6\x80").

(** [i.wrapping_add(1)] for every [i], so that the last byte is the NUL. *)
Definition test_cstr_display_all_bytes : VM unit :=
  shown_cstr cstr_display ((λ i, wrap 8 (i + 1)) <$> seqZ 0 256) ALL_ASCII_CHARS.

Definition test_cstr_debug : VM unit :=
  _ ← shown_cstr cstr_debug (hello ++ [0]) (quoted hello);
  _ ← shown_cstr cstr_debug [1; 9; 10; 0] (quoted (bytes_of "\x01\x09\x0a"));
  _ ← shown_cstr cstr_debug (deja_vu ++ [0]) (quoted (bytes_of "d\xe9j\xe0 vu"));
  shown_cstr cstr_debug (crab ++ [0]) (quoted (bytes_of "\xf0\x9f\xa6\x80")).

(** A tab, a line feed, a carriage return, a backslash and both quotes. *)
Definition escapes : list Z := [95; 9; 95; 10; 95; 13; 95; 92; 95; 39; 95; 34; 95].

Definition test_bstr_display : VM unit :=
  _ ← assert_format (bstr_display hello) hello;
  _ ← assert_format (bstr_display escapes) (bytes_of "_\t_\n_\r_\_'_" ++ [34] ++ bytes_of "_");
  _ ← assert_format (bstr_display [1]) (bytes_of "\x01");
  _ ← assert_format (bstr_display deja_vu) (bytes_of "d\xe9j\xe0 vu");
  assert_format (bstr_display crab) (bytes_of "\xf0\x9f\xa6\x80").

Definition test_bstr_debug : VM unit :=
  _ ← assert_format (bstr_debug hello) (quoted hello);
  _ ← assert_format (bstr_debug escapes)
        (quoted (bytes_of "_\t_\n_\r_\\_'_\" ++ [34] ++ bytes_of "_"));
  _ ← assert_format (bstr_debug [1]) (quoted (bytes_of "\x01"));
  _ ← assert_format (bstr_debug deja_vu) (quoted (bytes_of "d\xe9j\xe0 vu"));
  assert_format (bstr_debug crab) (quoted (bytes_of "\xf0\x9f\xa6\x80")).
End StrTests.

(** ** Vectors *)

#[local] Instance bool_type : RType bool := {| size_of := 1; align_of := 1; zst_value := None |}.

Section VecTests.
Context {AL : Allocator Z} {ALb : Allocator bool}.
Local Abbreviation VM := (M (St Z Vec)).

(** The loop that fills both vectors. *)
Fixpoint fill (c : list bool) (vec1 vec2 : Vec) (i : Z) : VM (Vec * Vec) :=
  match c with
  | [] => mret (vec1, vec2)
  | b :: c =>
      o ← on_vec vec1 (r ← push_within_capacity i; unwrap r);
      o2 ← (if b : bool then on_vec vec2 (r ← push_within_capacity i; unwrap r) else mret (tt, vec2));
      fill c (snd o) (snd o2) (i + 1)
  end.

(** [c[*i]]: the closure of [retain]; an index out of range panics. *)
Definition pick (c : list bool) (bad : bool) (i : Z) : bool * Z * bool :=
  match c !! Z.to_nat i with Some b => (bad, i, b) | None => (true, i, false) end.

Definition verify (c : list bool) : VM unit :=
  let n := Z.of_nat (length c) in
  o1 ← on_vec (new Z) (r ← with_capacity n GFP_KERNEL; unwrap r);
  o2 ← on_vec (new Z) (r ← with_capacity n GFP_KERNEL; unwrap r);
  '(vec1, vec2) ← fill c (snd o1) (snd o2) 0;
  o ← on_vec vec1 (retain (pick c) (S (length c)) false);
  _ ← check (negb (fst o));
  e ← vec_eq (snd o) vec2;
  _ ← check e;
  _ ← on_vec vec2 vec_drop;
  _ ← on_vec (snd o) vec_drop;
  mret tt.

(** [add]: one more, least significant bit first. *)
Fixpoint add_loop (carry : bool) (value : list bool) : list bool :=
  match value with
  | [] => []
  | v :: value => negb (eqb carry v) :: add_loop (carry && v) value
  end.
Definition add (value : list bool) : list bool := add_loop true value.

(** [iter_mut] over the slice writes the new values back. *)
Definition update_slice (f : list bool → list bool) : M (St bool Vec) unit :=
  xs ← as_slice; v ← self; write_slots (vptr v) 0 (f xs).

Local Abbreviation TM := (M (St Z Vec * St bool Vec)).

Definition repeat_m (n : nat) (m : TM unit) : TM unit :=
  Nat.iter n (λ k, _ ← m; k) (mret tt).

Definition test_kvec_retain : TM unit :=
  r ← on_snd (with_capacity 10 GFP_KERNEL);
  _ ← unwrap r;
  _ ← foldl (λ (m : TM unit) (len : nat),
    _ ← m;
    _ ← repeat_m (Z.to_nat (wrap 32 (Z.shiftl 1 (Z.of_nat len))))
          (c ← on_snd as_slice; _ ← on_fst (verify c); on_snd (update_slice add));
    r ← on_snd (push_within_capacity false);
    unwrap r) (mret tt) (seq 0 10);
  on_snd vec_drop.
End VecTests.


(** ** The outcomes *)

Definition str_alloc : Allocator Z := Kmalloc (ref_realloc 4096).

Definition no_heap : St Z Vec := MkSt ∅ (new Z) [].

(** A test that ends well and leaves no string behind. *)
Definition str_passes (t : M (St Z Vec) unit) : bool :=
  match t no_heap with Done (_, s) => bool_decide (hp s = ∅) | _ => false end.

(** The unit tests of [str.rs] pass on the model, with no string leaked, and the one that
    should panic does. *)
Theorem str_unit_tests_pass :
  let AL := str_alloc in
  forallb str_passes
    [test_cstr_to_str; test_cstr_as_str_unchecked; test_cstr_display; test_cstr_display_all_bytes;
     test_cstr_debug; test_bstr_display; test_bstr_debug] = true ∧
  test_cstr_to_str_panic no_heap = Panic.
Proof. vm_compute. split; reflexivity. Qed.

(** The unit test of [kvec.rs] passes: [retain] agrees with a filter for all the functions on
    fewer than ten elements that the test enumerates, and nothing leaks. *)
Theorem kvec_unit_tests_pass :
  match test_kvec_retain (AL := Kmalloc (ref_realloc 4096)) (ALb := Kmalloc (ref_realloc 4096))
          (no_heap, MkSt ∅ (new bool) []) with
  | Done (_, (s, sb)) => hp s = ∅ ∧ hp sb = ∅
  | _ => False
  end.
Proof. vm_compute. split; reflexivity. Qed.

Lemma bitmap_unit_tests_pass_witness :
  let BO := ref_bitops 4096 in
  bitmap_borrow true 64 ∅ = Done (tt, ∅) ∧ bitmap_copy true ∅ = Done (tt, ∅) ∧
  Forall (λ t, ∃ r, t ∅ = Done (r, ∅) ∧ (r = Ok tt ∨ r = Err MkAllocError))
    [bitmap_vec_new; bitmap_set_clear_find true; owned_bitmap_out_of_bounds true; test_copy_and_extend true].
Proof. exact (@bitmap_unit_tests_pass (ref_bitops 4096) _ true ∅ 64 eq_refl). Defined.
