(* ===== verification/StdVendor.v ===== *)
(** * Vendored code of the standard library ([std_vendor.rs], [sync/arc/std_vendor.rs])

    [dbg!] prints the values of expressions and hands them on; [Arc::downcast] recovers the
    type of an [Arc<dyn Any>]. The expressions are arbitrary code of the caller, the [Debug]
    output of a value is an argument, and the messages go to [pr_info!] of Print. *)

From Stdlib Require Import String.
From stdpp Require Import pretty.
From S2P Require Import Prelude Errors Alloc KVec KBox Arc UAccess Str Print KTest.

(** ** [dbg!] *)

(** [file!()], [line!()] and [column!()] are those of the outermost macro call. *)
Record Location := MkLocation { l_file : list Z; l_line : Z; l_column : Z }.

Definition decimal (n : Z) : list Z := bytes_of (pretty n).

(** What [dbg!] returns, by its three arms: the unit, the value, a tuple. *)
Inductive DbgValue (A : Type) := DUnit | DOne (a : A) | DTuple (l : list A).
Arguments DUnit {A}.
Arguments DOne {A} a.
Arguments DTuple {A} l.

Section Dbg.
Context (CONFIG_PRINTK : bool) (LOG_PREFIX : list Z).
Context {U A : Type}.
Local Abbreviation DM := (M (U * list PrintkCall)).

(** An expression: its text ([stringify!]), how [{:#?}] shows its value, and its code. *)
Record DbgExpr := MkExpr { e_text : list Z; e_show : A → list (list Z); e_eval : M U A }.

Definition log_info (pieces : list (list Z)) : DM unit :=
  on_snd (modify (λ l, l ++ pr_info CONFIG_PRINTK LOG_PREFIX (MkArguments pieces true))).

(** ["[{}:{}:{}]"] *)
Definition dbg_place (at_ : Location) : list (list Z) :=
  [[91]; l_file at_; [58]; decimal (l_line at_); [58]; decimal (l_column at_); [93]].

Definition dbg_line (at_ : Location) (e : DbgExpr) (a : A) : list (list Z) :=
  dbg_place at_ ++ [[32]; e_text e; bytes_of " = "] ++ e_show e a ++ [[10]].

Definition dbg_one (at_ : Location) (e : DbgExpr) : DM A :=
  tmp ← on_fst (e_eval e);
  _ ← log_info (dbg_line at_ e tmp);
  mret tmp.

Fixpoint dbg_all (at_ : Location) (es : list DbgExpr) : DM (list A) :=
  match es with
  | [] => mret []
  | e :: es => a ← dbg_one at_ e; l ← dbg_all at_ es; mret (a :: l)
  end.

Definition dbg (at_ : Location) (es : list DbgExpr) : DM (DbgValue A) :=
  match es with
  | [] => _ ← log_info (dbg_place at_ ++ [[10]]); mret DUnit
  | [e] => a ← dbg_one at_ e; mret (DOne a)
  | es => l ← dbg_all at_ es; mret (DTuple l)
  end.

(** The same code without the macro. *)
Fixpoint plain (es : list DbgExpr) : M U (list A) :=
  match es with
  | [] => mret []
  | e :: es => a ← e_eval e; l ← plain es; mret (a :: l)
  end.

Definition packed (es : list DbgExpr) (l : list A) : DbgValue A :=
  match es, l with [], _ => DUnit | [_], [a] => DOne a | _, _ => DTuple l end.

(** The messages for the values [l]. *)
Definition dbg_messages (at_ : Location) (es : list DbgExpr) (l : list A) : list PrintkCall :=
  match es with
  | [] => pr_info CONFIG_PRINTK LOG_PREFIX (MkArguments (dbg_place at_ ++ [[10]]) true)
  | _ => zip_with (λ e a, MkArguments (dbg_line at_ e a) true) es l ≫= pr_info CONFIG_PRINTK LOG_PREFIX
  end.

Lemma dbg_one_run at_ e u log :
  dbg_one at_ e (u, log) =
  match e_eval e u with
  | Done (a, u') =>
      Done (a, (u', log ++ pr_info CONFIG_PRINTK LOG_PREFIX (MkArguments (dbg_line at_ e a) true)))
  | Panic => Panic
  | UB => UB
  end.
Proof. unfold dbg_one, log_info, on_fst, on_snd, mbind, M_bind. simpl. by destruct (e_eval e u) as [[a u']| |]. Qed.

Lemma dbg_all_run at_ es : ∀ u log,
  dbg_all at_ es (u, log) =
  match plain es u with
  | Done (l, u') =>
      Done (l, (u', log ++ (zip_with (λ e a, MkArguments (dbg_line at_ e a) true) es l ≫=
        pr_info CONFIG_PRINTK LOG_PREFIX)))
  | Panic => Panic
  | UB => UB
  end.
Proof.
  induction es as [|e es IH]; intros u log; [simpl; by rewrite app_nil_r|].
  cbn [dbg_all plain]. rewrite !bind_run, dbg_one_run.
  destruct (e_eval e u) as [[a u']| |]; [|done|done]. rewrite !bind_run, IH.
  destruct (plain es u') as [[l u2]| |]; [|done|done]. simpl. by rewrite <- app_assoc.
Qed.
End Dbg.
Arguments DbgExpr : clear implicits.

(** [dbg!] is transparent: it evaluates each expression once, from left to right, hands the
    values on (one alone, several as a tuple), panics exactly when one of them does, and
    prints one message per value, after its evaluation. *)
Theorem dbg_transparent {U A} (CONFIG_PRINTK : bool) (LOG_PREFIX : list Z) (at_ : Location)
    (es : list (DbgExpr U A)) (u : U) (log : list PrintkCall) :
  dbg CONFIG_PRINTK LOG_PREFIX at_ es (u, log) =
  match plain es u with
  | Done (l, u') =>
      Done (packed es l, (u', log ++ dbg_messages CONFIG_PRINTK LOG_PREFIX at_ es l))
  | Panic => Panic
  | UB => UB
  end.
Proof.
  destruct es as [|e [|e2 es]]; [done|..].
  - cbn [dbg plain]. rewrite !bind_run, dbg_one_run. destruct (e_eval e u) as [[a u']| |]; [|done|done].
    simpl. by rewrite app_nil_r.
  - unfold dbg. rewrite bind_run, dbg_all_run.
    by destruct (plain (e :: e2 :: es) u) as [[l u']| |].
Qed.

(** The text of a message. *)
Lemma dbg_printed {U A} name (at_ : Location) (e : DbgExpr U A) a : 0 ∉ name →
  printed (pr_info true (name ++ [0]) (MkArguments (dbg_line at_ e a) true)) =
  Some [1 :: 54 :: name ++ [58; 32] ++ [91] ++ l_file at_ ++ [58] ++ decimal (l_line at_) ++ [58] ++
    decimal (l_column at_) ++ [93; 32] ++ e_text e ++ bytes_of " = " ++ concat (e_show e a) ++ [10]].
Proof.
  intros Hn. unfold pr_info, print_macro, call_printk. rewrite (printed_level 54 name) by done.
  unfold text, dbg_line, dbg_place. simpl. rewrite concat_app. simpl. by rewrite ?app_assoc, ?app_nil_r.
Qed.

(** ** The example of the documentation

    [factorial(4)]: the messages come in the documented order and with the documented values,
    but their places have a column, which the documentation leaves out. *)

Definition show_Z (z : Z) : list (list Z) := [decimal z].
Definition show_bool (z : Z) : list (list Z) := [bytes_of (if z =? 0 then "false" else "true")].

Section Factorial.
Context (LOG_PREFIX : list Z).
Local Abbreviation DM := (M (unit * list PrintkCall)).
Local Abbreviation E := (MkExpr (U := unit) (A := Z)).

Definition src (line column : Z) : Location := MkLocation (bytes_of "src/main.rs") line column.

Definition dbg_int (at_ : Location) (text : string) (show : Z → list (list Z)) (z : Z) : DM Z :=
  dbg_one true LOG_PREFIX at_ (E (bytes_of text) show (mret z)).

Fixpoint factorial (fuel : nat) (n : Z) : DM Z :=
  match fuel with
  | O => panic
  | S fuel =>
      b ← dbg_int (src 3 8) "n <= 1" show_bool (if n <=? 1 then 1 else 0);
      if b =? 1 then dbg_int (src 4 9) "1" show_Z 1
      else r ← factorial fuel (n - 1); dbg_int (src 5 9) "n * factorial(n - 1)" show_Z (n * r)
  end.

Definition factorial_main : DM Z := r ← factorial 5 4; dbg_int (src 11 1) "factorial(4)" show_Z r.
End Factorial.

Definition message (place body : string) : list Z :=
  [1; 54] ++ bytes_of "main: [src/main.rs:" ++ bytes_of place ++ bytes_of "] " ++ bytes_of body ++ [10].

Lemma dbg_column_printed :
  match factorial_main (bytes_of "main" ++ [0]) (tt, []) with
  | Done (24, (_, log)) => printed log = Some
      [message "3:8" "n <= 1 = false"; message "3:8" "n <= 1 = false"; message "3:8" "n <= 1 = false";
       message "3:8" "n <= 1 = true"; message "4:9" "1 = 1"; message "5:9" "n * factorial(n - 1) = 2";
       message "5:9" "n * factorial(n - 1) = 6"; message "5:9" "n * factorial(n - 1) = 24"; message "11:1" "factorial(4) = 24"]
  | _ => False
  end.
Proof. vm_compute. reflexivity. Qed.

(** ** [Arc::downcast] *)

Section Downcast.
Context {D : Type} {RD : RType D} {RAok : RTypeOk (ArcInner D)}.
Context {AL : Allocator (ArcInner D)} {ALs : AllocatorSpec (ArcInner D)}.
Context {RC : Refcount} {RCok : RefcountSpec} {TD : Tracked D} {TDok : TrackedOk D}.

(** [type_id]: the dynamic type of a value. The pointer is cast, [self] is forgotten. *)
Definition downcast (type_id : D → Z) (T p : Z) : M (St (ArcInner D) unit) (result Z Z) :=
  d ← arc_deref p;
  if type_id d =? T then mret (Ok (from_inner p)) else mret (Err p).

(** Either way the caller keeps the reference it had: nothing is counted or freed. *)
Lemma downcast_keeps h0 (A : AState D) s k p (type_id : D → Z) T :
  arc_inv A → mem_rep h0 (mem_of A) (hp s) → tbl A !! k = Some (p, KArc) →
  ∃ d, objs A !! p = Some (Some d) ∧
    downcast type_id T p s = Done (if type_id d =? T then Ok p else Err p, s).
Proof.
  intros Hi Hm Hk. destruct (inv_data _ _ _ _ Hi Hk) as [d Hd]; [done|]. exists d. split; [done|].
  apply wp_Done. apply wp_bind. eapply wp_read_data; [exact Hm|by apply mem_at|].
  case_match; by apply wp_ret.
Qed.
End Downcast.
