(* ===== verification/Trace.v ===== *)
(** * Static keys, tracepoints and sequence files ([rust/src/jump_label.rs], [rust/src/tracepoint.rs],
      [rust/src/seq_file.rs])

    Macros that expand to a test and a call of C. The state of the static keys and the branch that is
    patched at run time are a parameter ([StaticKeys]); the calls of C are recorded. *)

From Stdlib Require Import Ascii String.
From stdpp Require Import strings.
From S2P Require Import Prelude Errors Str CStrings Print Macros.

(** ** Static keys *)

(** [static_key_count] of the key at an address, and the branch of [arch_static_branch], which gets the
    address and the value it starts with. *)
Class StaticKeys (K : Type) := {
  static_key_count : K → Z → Z;
  arch_branch : K → Z → Z → bool
}.

(** A branch that starts with zero is taken exactly while the key is enabled. *)
Class StaticKeysOk (K : Type) `{StaticKeys K} : Prop := {
  arch_branch_ok : ∀ k key, arch_branch k key 0 = (0 <? static_key_count k key)
}.

Definition bool_to_int (b : bool) : Z := if b then 1 else 0.

Section StaticBranch.
Context {K : Type} {SK : StaticKeys K}.
Context (CONFIG_JUMP_LABEL : bool).

(** [key] is the address of a static and [off] the offset of its key. *)
Definition arch_static_branch (k : K) (key off : Z) (branch : bool) : bool := arch_branch k (key + off) (bool_to_int branch).

Definition static_branch_unlikely (k : K) (key off : Z) : bool :=
  let _key := key + off in
  if CONFIG_JUMP_LABEL then arch_static_branch k key off false else 0 <? static_key_count k _key.

(** Both forms of the branch are the state of the key. *)
Lemma static_branch_ok `{!StaticKeysOk K} (k : K) key off :
  static_branch_unlikely k key off = (0 <? static_key_count k (key + off)).
Proof. unfold static_branch_unlikely, arch_static_branch. destruct CONFIG_JUMP_LABEL; [by rewrite arch_branch_ok|done]. Qed.
End StaticBranch.

(** ** Tracepoints *)

(** The names that [paste!] makes. *)
Definition tracepoint_names (name : string) : TokenStream :=
  [Group Bracket [Punct "<" Alone CallSite; Ident "__tracepoint_" CallSite; Ident name CallSite; Punct ">" Alone CallSite] CallSite].
Definition do_trace_names (name : string) : TokenStream :=
  [Group Bracket [Punct "<" Alone CallSite; Ident "rust_do_trace_" CallSite; Ident name CallSite; Punct ">" Alone CallSite] CallSite].

(** A call of a C function by its name. *)
Record CCall (A : Type) := MkCCall { callee : string; c_arguments : list A }.
Arguments MkCCall {A}.
Arguments callee {A}.
Arguments c_arguments {A}.

Section Trace.
Context {K : Type} {SK : StaticKeys K} {UC : Unicode}.
Context (CONFIG_JUMP_LABEL CONFIG_TRACEPOINTS : bool).
(** The symbols of the kernel: the address of a static and the offset of [key] in [tracepoint]. *)
Context (symbol : string → Z) (key_off : Z).

Definition pasted (ts : TokenStream) : exec string :=
  exec_bind (paste_expand ts) (λ ts, match ts with [Ident s _] => Done s | _ => Panic end).

(** The function that [declare_trace!] generates; [paste!] runs when it is compiled, so that a
    [Panic] is a build error. *)
Definition declare_trace {A} (name : string) (k : K) (args : list A) : exec (list (CCall A)) :=
  if CONFIG_TRACEPOINTS then
    exec_bind (pasted (tracepoint_names name)) (λ tracepoint,
    let should_trace := static_branch_unlikely CONFIG_JUMP_LABEL k (symbol tracepoint) key_off in
    if should_trace then exec_bind (pasted (do_trace_names name)) (λ f, Done [MkCCall f args])
    else Done [])
  else Done [].

Lemma pasted_ok prefix name : strip_raw prefix = prefix → strip_raw name = name →
  valid_ident (prefix +:+ name) = true →
  pasted [Group Bracket [Punct "<" Alone CallSite; Ident prefix CallSite; Ident name CallSite; Punct ">" Alone CallSite] CallSite] =
    Done (prefix +:+ name).
Proof.
  intros H1 H2 Hv. unfold pasted, paste_expand. cbn [expand_tokens expand_token].
  change (is_paste_group Bracket _) with true. cbn -[strip_raw String.concat valid_ident].
  unfold concat. cbn -[strip_raw String.concat valid_ident]. rewrite H1, H2. cbn -[valid_ident].
  replace (prefix +:+ "" +:+ name) with (prefix +:+ name) by done. unfold ident_new. by rewrite Hv.
Qed.
End Trace.

(** A tracepoint calls its C function exactly when tracepoints are configured and its key is enabled, once
    and with its arguments, whichever form of the branch is built. *)
Theorem tracepoint_calls {K} `{StaticKeysOk K} {UC : Unicode} (CONFIG_JUMP_LABEL CONFIG_TRACEPOINTS : bool)
    (symbol : string → Z) (key_off : Z) {A} (name : string) (k : K) (args : list A)
    (Hraw : strip_raw name = name) (Hid : valid_ident ("__tracepoint_" +:+ name) = true)
    (Hid' : valid_ident ("rust_do_trace_" +:+ name) = true) :
  declare_trace CONFIG_JUMP_LABEL CONFIG_TRACEPOINTS symbol key_off name k args =
    Done (if CONFIG_TRACEPOINTS && (0 <? static_key_count k (symbol ("__tracepoint_" +:+ name) + key_off))
          then [MkCCall ("rust_do_trace_" +:+ name) args] else []).
Proof.
  unfold declare_trace. destruct CONFIG_TRACEPOINTS; [|done]. unfold tracepoint_names, do_trace_names.
  rewrite pasted_ok by done. cbn [exec_bind andb]. rewrite static_branch_ok by exact _.
  destruct (0 <? _); [|done]. by rewrite pasted_ok by done.
Qed.

(** ** Sequence files *)

(** A call of [seq_printf]. *)
Record SeqCall := MkSeqCall { sq_file : Z; sq_call : PrintkCall }.

Definition seq_from_raw (ptr : Z) : Z := ptr.

(** A literal with a zero byte does not compile. *)
Definition call_printf (this : Z) (args : Arguments) : option SeqCall :=
  fmt ← c_str [37; 112; 65];
  mret (MkSeqCall this (MkCall fmt [AArgs args])).

Definition seq_print (m : Z) (args : Arguments) : option SeqCall := call_printf m args.

(** What reaches the file is the text of the arguments. *)
Lemma seq_print_renders m a : ∃ c, seq_print m a = Some c ∧ sq_file c = m ∧
  render (c_format (sq_call c)) (c_args (sq_call c)) = Some (text a).
Proof.
  unfold seq_print, call_printf. rewrite (proj1 (c_str_ok _)), decide_False by (apply (bool_decide_unpack _); exact I).
  eexists. split; [reflexivity|]. split; [done|]. cbn. by rewrite app_nil_r.
Qed.

(** Two keys, of which one is enabled; an identifier is any string. *)
#[local] Instance demo_keys : StaticKeys (gmap Z Z) := {|
  static_key_count k key := default 0 (k !! key);
  arch_branch k key init := (0 <? default 0 (k !! key)) || (0 <? init)
|}.
#[local] Instance demo_keys_ok : StaticKeysOk (gmap Z Z).
Proof. split. intros k key. simpl. by destruct (0 <? _). Qed.
#[local] Instance demo_unicode : Unicode := {| to_uppercase s := s; to_lowercase s := s; valid_ident s := negb (String.eqb s "") |}.

Definition demo_symbol (s : string) : Z := if String.eqb s "__tracepoint_binder_ioctl" then 4096 else 8192.

Lemma tracepoint_calls_witness :
  declare_trace true true demo_symbol 8 "binder_ioctl" {[ 4104 := 1 ]} [1; 2] = Done [MkCCall "rust_do_trace_binder_ioctl" [1; 2]] ∧
  declare_trace true true demo_symbol 8 "binder_lock" {[ 4104 := 1 ]} [1; 2] = Done [].
Proof.
  split.
  - exact (tracepoint_calls true true demo_symbol 8 "binder_ioctl" {[ 4104 := 1 ]} [1; 2] eq_refl eq_refl eq_refl).
  - exact (tracepoint_calls true true demo_symbol 8 "binder_lock" {[ 4104 := 1 ]} [1; 2] eq_refl eq_refl eq_refl).
Defined.
